(* ===== verification/_CoqProject ===== *)
-Q . S2P
Prelude.v
Register.v
Membership.v
Merkle.v
MerkleDiff.v
Swim.v
Identity.v
Authorization.v
Effective.v
Replication.v
Trust.v
Protocol.v
Routing.v
Directory.v
Admission.v
LinkState.v
Link.v
LinkInvariant.v
LinkTheorems.v
Service.v
Versioned.v
Effects.v
PrivateFile.v
PrivateFileTheorems.v
Tables.v
NodeStores.v
Pipeline.v
ContentStores.v
Resources.v
ResourceTheorems.v
Memories.v
Mapper.v
MapperTheorems.v
Exchange.v
Gossip.v
NodeProtocol.v
Cluster.v
AntiEntropy.v
ClusterTheorems.v
Healing.v
OverlayNode.v
OverlayTheorems.v
Joining.v
ClusterKey.v
Grpc.v
Listing.v
MemoryTheorems.v
Rpc.v
Manifest.v
Http.v
Engine.v
Wasm.v
WasmTheorems.v
Lua.v
Engines.v
Extensions.v
ExtensionTheorems.v
Json.v
Llm.v
Openai.v
LlmTheorems.v
