(* ===== verification/Prelude.v ===== *)
(** * Lycoris: a verification library

    Lycoris is a daemon whose nodes form a cluster without a leader: they find and
    watch each other, share resources, and run extensions for one another. This
    library models its Rust sources (paths below are under [src/]) as Rocq
    definitions and proves what its parts promise and how they compose.

    ** The program

    - [crates/membership]: who is in the cluster. A register per node, merged as a
      CRDT; a Merkle tree over the registers and the two-round diff that finds
      where two replicas differ; the SWIM failure detector.
    - [crates/overlay]: how nodes reach and trust each other. Identities, the
      registry of signed authorization records, admission by a join key, the link
      actor that owns the connections, routing over several hops.
    - [crates/storage]: what a node keeps. Typed tables over an embedded database,
      a git working tree, a blob directory, a vector store; the pipelines that
      apply a peer's resource.
    - [crates/extension], [crates/extguest], [extensions/openai]: the engines that
      run guests in a sandbox, the guest side of their ABI, one guest.
    - [crates/daemon]: the composition. It owns a service over each crate, serves
      peers and clients, and runs the loops: probing, gossip, anti-entropy,
      exchange of resources, reconciliation of extensions.
    - [crates/core]: private files and the cluster key, shared by the others.

    ** The files

    Each opens with what it models. Files named [...Theorems], [Effective],
    [Replication], [Trust], [LinkInvariant], [Exchange], [Healing], [Joining] hold
    proofs about the definitions of the others; the rest hold definitions with
    the lemmas that belong to them.

    - [Prelude], [Effects]: results, integers, orders, sorted iteration of maps,
      lists; the state and error monad with its weakest preconditions.
    - Membership: [Register] (register.rs), [Membership] (membership.rs), [Merkle]
      (merkle.rs), [MerkleDiff] (sync.rs), [Swim] (swim.rs). Shown: replicas that
      merged the same updates agree; the array-based tree is the recursive one;
      the diff finds exactly the members that differ; every run of the detector
      keeps its invariant, and a suspicion ends.
    - Overlay: [Identity] (id.rs, identity.rs), [Authorization]
      (authorization/), [Protocol] (protocol.rs, codec.rs), [Routing]
      (routing.rs), [Directory] (link/directory.rs), [Admission] (admission.rs),
      [LinkState] and [Link] (link/actor.rs, handle.rs, config.rs). Shown: the
      walks of the registry compute its declarative reading and terminate; its
      merge does not depend on the order of records; what a record can change
      about who is authorized; a proof admits once; a relayed envelope arrives;
      each request gets one reply, from the peer it was sent to; relay slots are
      bounded; an unauthorized peer reaches admission only.
    - Storage: [Versioned] (versioned.rs), [Tables] (table.rs), [NodeStores]
      (node/), [ContentStores] (vcs.rs, extension/mod.rs), [Resources]
      (workspace/, extension/mod.rs, agent/mod.rs), [Pipeline]: the interface the
      three apply pipelines share, against which their theorems are proved once;
      [Memories], [MemoryTheorems] (agent/mod.rs): the memory backend over LanceDB,
      an instance of the interface [MemoryLaws] of the pipelines. Shown: a table is
      a map, and so is the memory backend, under faults; replicas that applied the
      same resources agree; content never leaves its directory.
    - Private files: [PrivateFile], [PrivateFileTheorems] (core/src/fs.rs,
      overlay/src/identity.rs). Shown: publication is atomic under crashes, faults
      and other processes; concurrent boots agree on one identity.
    - The daemon: [Service] (membership/service.rs), [Gossip], [Cluster],
      [AntiEntropy] (sync/), [NodeProtocol] (membership/convert.rs,
      overlay_transport.rs), [Mapper] (resource/, sync/resource.rs), [OverlayNode]
      (overlay.rs). Shown: the cached tree is the tree; a restart refutes what was
      said of the node; a push reaches every node gossip connects; a round of
      anti-entropy, and an exchange of resources, leave two nodes agreeing; the
      three copies of the registry agree after every step and a boot brings the
      same one back; a join ends with both ends agreeing.
    - What clients reach: [Listing] (resource/mapper.rs, rpc/resource.rs), [ClusterKey]
      (core/src/cluster_key.rs), [Grpc] (rpc/interceptor.rs), [Rpc] (rpc/server.rs,
      rpc/mod.rs, runtime.rs). Shown: listing and getting show what is held and
      change nothing; a call without the cluster key does nothing; a node never
      becomes its own primary; a join is merged and announced.
    - Extensions: [Manifest] (manifest.rs, package.rs), [Http] (http.rs),
      [Engine] (engine.rs), [Wasm] (wasm.rs), [Lua] (lua.rs), [Engines] and
      [Extensions] (daemon/src/extension/, rpc/extension.rs). Shown: a guest's
      messages stay within the policy of its settings; buffers are read in bounds;
      what the sandbox removes; a call crosses one hop at most and its answer is
      that of the node it names; a reconciliation leaves what it should running;
      registrations only move forward; hooks run in order.
    - The LLM layer: [Json] (typed reads of serde_json), [Llm] (extension/src/llm.rs,
      daemon/src/llm.rs), [Openai] (extensions/openai, extguest). Shown: a typed
      chat returns what the provider answered, through facade, manager, guest and
      HTTP host; the provider's key leaves in one header only.

    ** How the code is modelled

    - A method that locks a mutex for its whole body, or runs on one task between
      two [await]s, is one function from the state to the next state and what it
      returns. Where others act in between, the step is split: tasks of [Cluster]
      are lists of the steps they have left, the rounds of [AntiEntropy] run over
      any world in which the node's state is a part, [PrivateFile] interleaves
      with processes described by what they guarantee.
    - [Result] is [result]; [?] is [let?], and [let!] in the monad of [Effects].
      Error values keep the data their messages are rendered from.
    - Fixed-width integers are [Z] in their range, with saturation, wrapping and
      casts written where the code has them. Overflow wraps, as in a release
      build.
    - The iteration order of a [HashMap] is not known: the class [HashIter] leaves
      it open, and no theorem fixes it. A [BTreeMap] iterates in the order of its
      keys ([btree_iter]). Strings are byte strings.
    - The clock is read once per handler, or per turn of the link actor, and is an
      argument; so are random bytes and the peers a transport proposes.
    - Each call to a database, a disk or git may fail, at a point the state's own
      oracle chooses; a theorem by [wp] covers both outcomes.
    - Third-party code is a class of operations with, where a theorem needs it, a
      class of documented laws, each instantiated for a witness: [LibP2p] and
      [Network] (the swarm), [Redb] (the database), [Postcard], [Json] and
      [Formats] (serializers), [Crypto], blake3, HMAC, [Git], [MemoryStorage] (the
      backend's trait), [Lance], [Reqwest] and [Internet], [Wasmtime], [Mlua].
    - A call into a WebAssembly guest is the finite tree of the host calls it
      makes: fuel meters every call, so no guest runs for ever.

    ** Bounds and fuel

    The registry's walks take a fuel: one more than its records, enough because a
    chain of authorizers never repeats ([Effective] proves that more changes
    nothing, and that [None] never occurs). The Merkle depth is a class field,
    with the source's 16 levels in [lycoris_shape]. UTF-8 scans are fuelled by the
    length of the string. [handle] of [Wasm] bounds how deep a guest nests calls
    of its own allocator, as the runtime's stack does, and its theorems hold for
    every bound. The relay of [Routing] counts hops down from the code's limit.

    ** Not modelled

    - Waiting: tokio's timers, tasks, channels and their backpressure; the wait for
      the lock of an instance after a deadline passed; shutdown. Time only enters
      as the argument of a handler.
    - The configuration of libp2p ([build_swarm]), TLS ([crates/tls]), and the
      framing streams around [encode_frame] and [decode_frame].
    - The inside of LanceDB and of Arrow's arrays; protobuf encodings and generated
      code.
    - [rpc/cluster.rs], which no module declares; process start-up except the boot
      of the membership register and of the overlay node, the cluster key, the
      configured peers and labels.
    - Linear memory inside a guest written in Rust ([alloc], [run] and [read] of
      extguest); the inner workings of interpreters and guests.
    - The client library, the shell, configuration files. *)

From Stdlib Require Export Lia ZArith.
From stdpp Require Export sorting base numbers option gmap sets strings list.

Open Scope Z_scope.

(** ** Results

    Rust's [Result<T, E>], with a bind notation for the [?] operator. *)

Inductive result (A E : Type) : Type :=
| Ok (a : A)
| Err (e : E).
Arguments Ok {A E} a.
Arguments Err {A E} e.

Create HintDb lycoris.
Declare Scope lycoris_scope.
Delimit Scope lycoris_scope with lycoris.

Definition result_bind {A B E} (m : result A E) (f : A → result B E) : result B E :=
  match m with Ok a => f a | Err e => Err e end.

Definition map_err {A E F} (f : E → F) (m : result A E) : result A F :=
  match m with Ok a => Ok a | Err e => Err (f e) end.

Definition ok_or {A E} (o : option A) (e : E) : result A E :=
  match o with Some a => Ok a | None => Err e end.

Definition is_ok {A E} (m : result A E) : bool :=
  match m with Ok _ => true | Err _ => false end.

Notation "'let?' x ':=' m 'in' k" := (result_bind m (λ x, k))
  (at level 10, x name, m at level 100, k at level 200) : lycoris_scope.
Notation "'check?' b 'else' e 'in' k" := (if b then k else Err e)
  (at level 10, b at level 100, e at level 100, k at level 200) : lycoris_scope.
Open Scope lycoris_scope.

Lemma result_bind_Ok {A B E} (m : result A E) (f : A → result B E) b :
  result_bind m f = Ok b ↔ ∃ a, m = Ok a ∧ f a = Ok b.
Proof. destruct m; naive_solver. Qed.

Lemma ok_or_Ok {A E} (o : option A) (e : E) a : ok_or o e = Ok a ↔ o = Some a.
Proof. destruct o; naive_solver. Qed.

Lemma map_err_Ok {A E F} (f : E → F) (m : result A E) a : map_err f m = Ok a ↔ m = Ok a.
Proof. destruct m; naive_solver. Qed.

(** [std::io::Error], by what the code asks of its kind. *)
Inductive IoFailure : Type := IoNotFound | IoAlreadyExists | IoOther (what : string).

(** ** Machine integers

    Values are kept in [Z]; the operations write out the saturation or the
    wrap-around of the Rust operation they stand for. *)

Definition u32_max : Z := 2 ^ 32 - 1.
Definition u64_max : Z := 2 ^ 64 - 1.
Definition i64_max : Z := 2 ^ 63 - 1.
Definition i64_min : Z := - 2 ^ 63.

Definition is_u8 (z : Z) : Prop := 0 ≤ z < 256.
Definition is_u32 (z : Z) : Prop := 0 ≤ z ≤ u32_max.
Definition is_u64 (z : Z) : Prop := 0 ≤ z ≤ u64_max.
Definition is_i64 (z : Z) : Prop := i64_min ≤ z ≤ i64_max.

Definition u64_saturating_add (a b : Z) : Z := Z.min (a + b) u64_max.
Definition u64_saturating_sub (a b : Z) : Z := Z.max (a - b) 0.
Definition u32_saturating_add (a b : Z) : Z := Z.min (a + b) u32_max.
Definition i64_saturating_sub (a b : Z) : Z := Z.max i64_min (Z.min (a - b) i64_max).
Definition u64_wrap (a : Z) : Z := a mod 2 ^ 64.
Definition u32_wrap (a : Z) : Z := a mod 2 ^ 32.

(** [u64::try_from(x).unwrap_or(0)] on an [i64]. *)
Definition u64_try_from_or_0 (x : Z) : Z := if decide (0 ≤ x) then x else 0.
(** [i64::try_from(x).unwrap_or(i64::MAX)] on a [u64]. *)
Definition i64_try_from_or_max (x : Z) : Z := if decide (x ≤ i64_max) then x else i64_max.

Lemma u64_saturating_add_range a b : is_u64 a → 0 ≤ b → is_u64 (u64_saturating_add a b).
Proof. unfold is_u64, u64_saturating_add, u64_max. lia. Qed.

Lemma u64_saturating_add_succ a : is_u64 a → a < u64_max → u64_saturating_add a 1 = a + 1.
Proof. unfold is_u64, u64_saturating_add. lia. Qed.

Lemma u64_saturating_add_ge a b : is_u64 a → 0 ≤ b → a ≤ u64_saturating_add a b.
Proof. unfold is_u64, u64_saturating_add. lia. Qed.

Lemma u64_wrap_range a : is_u64 (u64_wrap a).
Proof. unfold is_u64, u64_wrap, u64_max. pose proof (Z.mod_pos_bound a (2^64)). lia. Qed.

(** [value.to_be_bytes()] for a [u64]: eight bytes, most significant first. *)
Definition byte_ascii (z : Z) : Ascii.ascii := Ascii.ascii_of_N (Z.to_N (z mod 256)).

Fixpoint be_bytes (n : nat) (z : Z) : string :=
  match n with
  | O => EmptyString
  | S n' => String.append (be_bytes n' (z / 256)) (String (byte_ascii z) EmptyString)
  end.

Definition u64_to_be_bytes (z : Z) : string := be_bytes 8 z.

Lemma string_app_inj_r_length (s1 s2 t1 t2 : string) :
  String.length s1 = String.length s2 →
  String.append s1 t1 = String.append s2 t2 → s1 = s2 ∧ t1 = t2.
Proof.
  revert s2. induction s1 as [|c s1 IH]; intros [|d s2] Hlen Heq; simplify_eq/=; [done|].
  by destruct (IH s2) as [-> ->]; [lia| |].
Qed.

Lemma string_length_app (s t : string) :
  String.length (String.append s t) = (String.length s + String.length t)%nat.
Proof. induction s as [|c s IH]; [done|]. simpl. by rewrite IH. Qed.

Lemma string_app_assoc (s t u : string) :
  String.append (String.append s t) u = String.append s (String.append t u).
Proof. induction s as [|c s IH]; [done|]. exact (f_equal (String c) IH). Qed.

Lemma be_bytes_length n z : String.length (be_bytes n z) = n.
Proof. revert z. induction n; intros z; simpl; [done|]. rewrite string_length_app, IHn. simpl. by rewrite Nat.add_1_r. Qed.

Lemma byte_ascii_inj a b : 0 ≤ a < 256 → 0 ≤ b < 256 → byte_ascii a = byte_ascii b → a = b.
Proof.
  unfold byte_ascii. intros Ha Hb Heq. apply (f_equal Ascii.N_of_ascii) in Heq.
  rewrite !Ascii.N_ascii_embedding in Heq by (rewrite Z.mod_small; lia).
  rewrite !Z.mod_small in Heq by lia. lia.
Qed.

Lemma be_bytes_inj n a b :
  0 ≤ a < 256 ^ Z.of_nat n → 0 ≤ b < 256 ^ Z.of_nat n → be_bytes n a = be_bytes n b → a = b.
Proof.
  revert a b. induction n as [|n IH]; intros a b Ha Hb Heq; [simpl in *; lia|].
  rewrite Nat2Z.inj_succ, Z.pow_succ_r in Ha, Hb by lia. simpl in Heq.
  apply string_app_inj_r_length in Heq as [Hhi Hlo]; [|by rewrite !be_bytes_length].
  apply IH in Hhi; [|split; [apply Z.div_pos|apply Z.div_lt_upper_bound]; lia..].
  injection Hlo as Hlo. assert (a mod 256 = b mod 256) as Hmod.
  { apply byte_ascii_inj; [apply Z.mod_pos_bound; lia..|].
    unfold byte_ascii in *. by rewrite !Z.mod_mod by lia. }
  rewrite (Z.div_mod a 256), (Z.div_mod b 256) by lia. by rewrite Hhi, Hmod.
Qed.

Lemma u64_to_be_bytes_inj a b : is_u64 a → is_u64 b → u64_to_be_bytes a = u64_to_be_bytes b → a = b.
Proof. unfold is_u64, u64_max. intros Ha Hb. apply be_bytes_inj; simpl; lia. Qed.

(** *** Decimal text

    [u64::to_string] and [str::parse::<u64>]: an optional plus sign, at least one
    digit, nothing else, no overflow. *)

Definition digit_ascii (d : Z) : Ascii.ascii := Ascii.ascii_of_N (Z.to_N (48 + d)).
Definition ascii_digit (c : Ascii.ascii) : option Z :=
  let d := Z.of_N (Ascii.N_of_ascii c) - 48 in
  if decide (0 ≤ d ≤ 9) then Some d else None.

Fixpoint dec_digits (fuel : nat) (n : Z) (acc : string) : string :=
  match fuel with
  | O => acc
  | S fuel' =>
      if decide (n < 10) then String (digit_ascii n) acc
      else dec_digits fuel' (n / 10) (String (digit_ascii (n mod 10)) acc)
  end.

(** A [u64] has at most twenty digits. *)
Definition u64_to_string (n : Z) : string := dec_digits 20 n "".

Fixpoint parse_digits (acc : Z) (s : string) : option Z :=
  match s with
  | EmptyString => Some acc
  | String c s' =>
      d ← ascii_digit c;
      let acc := acc * 10 + d in
      if decide (acc ≤ u64_max) then parse_digits acc s' else None
  end.

Definition u64_parse (s : string) : option Z :=
  let digits := match s with
                | String c s' => if Ascii.eqb c (Ascii.ascii_of_N 43) then s' else s
                | EmptyString => s
                end in
  match digits with EmptyString => None | _ => parse_digits 0 digits end.

Lemma ascii_digit_ascii d : 0 ≤ d ≤ 9 → ascii_digit (digit_ascii d) = Some d.
Proof.
  intros Hd. unfold ascii_digit, digit_ascii. rewrite Ascii.N_ascii_embedding by lia.
  rewrite Z2N.id by lia. replace (48 + d - 48) with d by lia. by rewrite decide_True by lia.
Qed.

Lemma parse_dec_digits fuel n acc :
  0 ≤ n ≤ u64_max → n < 10 ^ Z.of_nat fuel → fuel ≠ 0%nat →
  parse_digits 0 (dec_digits fuel n acc) = parse_digits n acc.
Proof.
  revert n acc. induction fuel as [|fuel IH]; intros n acc Hn Hlt Hf; [done|]. cbn [dec_digits].
  rewrite Nat2Z.inj_succ, Z.pow_succ_r in Hlt by lia. case_decide as Hd.
  - cbn [parse_digits]. rewrite ascii_digit_ascii by lia. cbn [mbind option_bind].
    by rewrite decide_True by lia.
  - assert (n / 10 < 10 ^ Z.of_nat fuel) by (apply Z.div_lt_upper_bound; lia).
    pose proof (Z.div_mod n 10). pose proof (Z.mod_pos_bound n 10).
    rewrite IH; [|lia|done|intros ->; simpl in *; lia].
    cbn [parse_digits]. rewrite ascii_digit_ascii by lia. cbn [mbind option_bind].
    rewrite decide_True by lia. f_equal. lia.
Qed.

Lemma dec_digits_head fuel n acc :
  0 ≤ n → fuel ≠ 0%nat → ∃ d s, dec_digits fuel n acc = String (digit_ascii d) s ∧ 0 ≤ d ≤ 9.
Proof.
  revert n acc. induction fuel as [|fuel IH]; intros n acc Hn Hf; [done|]. cbn [dec_digits].
  case_decide; [exists n, acc; split; [done|lia]|].
  destruct fuel as [|fuel]; [|apply IH; [apply Z.div_pos; lia|done]].
  exists (n mod 10), acc. split; [done|]. pose proof (Z.mod_pos_bound n 10). lia.
Qed.

Lemma u64_parse_to_string n : is_u64 n → u64_parse (u64_to_string n) = Some n.
Proof.
  intros Hn. unfold u64_parse, u64_to_string.
  destruct (dec_digits_head 20 n "") as (d & s & Hs & Hd); [apply Hn|done|].
  pose proof (parse_dec_digits 20 n "" Hn) as Hp. rewrite Hs in *.
  assert (Ascii.eqb (digit_ascii d) (Ascii.ascii_of_N 43) = false) as ->.
  { apply Ascii.eqb_neq. unfold digit_ascii. intros Heq. apply (f_equal Ascii.N_of_ascii) in Heq.
    rewrite !Ascii.N_ascii_embedding in Heq by lia. lia. }
  apply Hp; [|done]. unfold is_u64, u64_max in Hn. simpl. lia.
Qed.

Lemma parse_digits_range acc s v : 0 ≤ acc ≤ u64_max → parse_digits acc s = Some v → is_u64 v.
Proof.
  revert acc. induction s as [|c s IH]; intros acc Ha; cbn [parse_digits]; [by intros [= <-]|].
  unfold ascii_digit. cbv zeta. case_decide; cbn [mbind option_bind]; [|done].
  case_decide; [|done]. apply IH. lia.
Qed.

Lemma u64_parse_range s v : u64_parse s = Some v → is_u64 v.
Proof.
  unfold u64_parse. destruct (match s with EmptyString => s | _ => _ end); [done|].
  apply parse_digits_range. unfold u64_max. lia.
Qed.

(** ** Ordering

    Rust's [Ord] trait: a comparison function with the laws of a total order.
    The instances are those the code derives or gets from [std]: integers,
    [String] (bytewise), tuples and vectors (lexicographic). *)

Class Ord (A : Type) := {
  ord_cmp : A → A → comparison;
  ord_cmp_eq : ∀ x y, ord_cmp x y = Eq ↔ x = y;
  ord_cmp_opp : ∀ x y, ord_cmp y x = CompOpp (ord_cmp x y);
  ord_cmp_lt_trans : ∀ x y z, ord_cmp x y = Lt → ord_cmp y z = Lt → ord_cmp x z = Lt;
}.

Definition ord_le `{Ord A} (x y : A) : Prop := ord_cmp x y ≠ Gt.
Definition ord_lt `{Ord A} (x y : A) : Prop := ord_cmp x y = Lt.
(** [x > y] as the code tests it. *)
Definition ord_gtb `{Ord A} (x y : A) : bool :=
  match ord_cmp x y with Gt => true | _ => false end.
(** [std::cmp::max] up to the choice between equal arguments. *)
Definition ord_max `{Ord A} (x y : A) : A := if ord_gtb y x then y else x.

#[export] Instance ord_le_dec `{Ord A} (x y : A) : Decision (ord_le x y).
Proof. unfold ord_le. apply _. Defined.
#[export] Instance ord_lt_dec `{Ord A} (x y : A) : Decision (ord_lt x y).
Proof. unfold ord_lt. apply _. Defined.

Section ord_facts.
Context `{Ord A}.
Implicit Types x y z : A.

Lemma ord_cmp_refl x : ord_cmp x x = Eq.
Proof. by apply ord_cmp_eq. Qed.

Lemma ord_cmp_gt_lt x y : ord_cmp x y = Gt ↔ ord_cmp y x = Lt.
Proof. rewrite (ord_cmp_opp x y). destruct (ord_cmp x y); naive_solver. Qed.

Lemma ord_le_lteq x y : ord_le x y ↔ ord_lt x y ∨ x = y.
Proof.
  unfold ord_le, ord_lt. rewrite <- ord_cmp_eq. destruct (ord_cmp x y); naive_solver.
Qed.

#[export] Instance ord_le_po : PartialOrder (ord_le (A:=A)).
Proof.
  split; [split|].
  - intros x. unfold ord_le. by rewrite ord_cmp_refl.
  - intros x y z. rewrite !ord_le_lteq. unfold ord_lt.
    intros [Hxy| ->] [Hyz| ->]; eauto using ord_cmp_lt_trans.
  - intros x y Hxy Hyx. unfold ord_le in *. apply ord_cmp_eq.
    rewrite (ord_cmp_opp x y) in Hyx. by destruct (ord_cmp x y).
Qed.

#[export] Instance ord_le_total : Total (ord_le (A:=A)).
Proof.
  intros x y. unfold ord_le. rewrite (ord_cmp_opp x y). destruct (ord_cmp x y); naive_solver.
Qed.

#[export] Instance ord_lt_strict : StrictOrder (ord_lt (A:=A)).
Proof.
  split; [intros x Hx; unfold ord_lt in Hx; by rewrite ord_cmp_refl in Hx|].
  intros x y z. apply ord_cmp_lt_trans.
Qed.

Lemma ord_gtb_spec x y : ord_gtb x y = true ↔ ord_lt y x.
Proof. unfold ord_gtb, ord_lt. rewrite <- ord_cmp_gt_lt. destruct (ord_cmp x y); naive_solver. Qed.

Lemma ord_gtb_false x y : ord_gtb x y = false ↔ ord_le x y.
Proof. unfold ord_gtb, ord_le. destruct (ord_cmp x y); naive_solver. Qed.

Lemma ord_lt_not_le x y : ord_lt x y ↔ ¬ ord_le y x.
Proof. rewrite <- ord_gtb_false, <- ord_gtb_spec. destruct (ord_gtb y x); naive_solver. Qed.

Lemma ord_max_le_l x y : ord_le x (ord_max x y).
Proof.
  unfold ord_max. destruct (ord_gtb y x) eqn:E; [|reflexivity].
  apply ord_le_lteq. left. by apply ord_gtb_spec.
Qed.

Lemma ord_max_le_r x y : ord_le y (ord_max x y).
Proof.
  unfold ord_max. destruct (ord_gtb y x) eqn:E; [reflexivity|]. by apply ord_gtb_false.
Qed.

Lemma ord_max_lub x y z : ord_le x z → ord_le y z → ord_le (ord_max x y) z.
Proof. unfold ord_max. by destruct (ord_gtb y x). Qed.

Lemma ord_max_comm x y : ord_max x y = ord_max y x.
Proof. apply (anti_symm ord_le); apply ord_max_lub; auto using ord_max_le_l, ord_max_le_r. Qed.

Lemma ord_max_assoc x y z : ord_max x (ord_max y z) = ord_max (ord_max x y) z.
Proof.
  apply (anti_symm ord_le); repeat apply ord_max_lub; eauto using ord_max_le_l, ord_max_le_r.
  - etrans; [apply (ord_max_le_l x)|apply ord_max_le_l].
  - etrans; [apply (ord_max_le_r x)|apply ord_max_le_l].
  - etrans; [apply (ord_max_le_l y)|apply ord_max_le_r].
  - etrans; [apply (ord_max_le_r y)|apply ord_max_le_r].
Qed.

Lemma ord_max_idemp x : ord_max x x = x.
Proof. unfold ord_max. by destruct (ord_gtb x x). Qed.
End ord_facts.

#[export] Hint Resolve ord_cmp_refl ord_max_le_l ord_max_le_r ord_max_lub : lycoris.

#[export] Program Instance Z_ord : Ord Z := {| ord_cmp := Z.compare |}.
Next Obligation. intros x y. apply Z.compare_eq_iff. Qed.
Next Obligation. intros x y. apply Z.compare_antisym. Qed.
Next Obligation. intros x y z. rewrite !Z.compare_lt_iff. lia. Qed.

#[export] Program Instance string_ord : Ord string := {| ord_cmp := String.compare |}.
Next Obligation.
  intros x y. split; [apply String.compare_eq_iff|intros ->].
  induction y as [|c y IH]; simpl; [done|]. unfold Ascii.compare. by rewrite N.compare_refl.
Qed.
Next Obligation. intros x y. apply String.compare_antisym. Qed.
Next Obligation.
  intros x y z Hxy Hyz.
  assert (String.le x z) as Hle.
  { trans y; unfold String.le, String.leb; [by rewrite Hxy|by rewrite Hyz]. }
  unfold String.le, String.leb in Hle. destruct (String.compare x z) eqn:E; [|done|done].
  apply String.compare_eq_iff in E as ->. rewrite String.compare_antisym, Hyz in Hxy. done.
Qed.

(** Tuples compare component by component. *)
Definition prod_cmp `{Ord A, Ord B} (p q : A * B) : comparison :=
  match ord_cmp p.1 q.1 with Eq => ord_cmp p.2 q.2 | c => c end.

#[export] Program Instance prod_ord `{Ord A, Ord B} : Ord (A * B) := {| ord_cmp := prod_cmp |}.
Next Obligation.
  intros A HA B HB [a b] [a' b']. unfold prod_cmp; simpl.
  pose proof (ord_cmp_eq a a'). pose proof (ord_cmp_eq b b').
  destruct (ord_cmp a a'), (ord_cmp b b'); naive_solver.
Qed.
Next Obligation.
  intros A HA B HB [a b] [a' b']. unfold prod_cmp; simpl.
  rewrite (ord_cmp_opp a a'), (ord_cmp_opp b b'). by destruct (ord_cmp a a').
Qed.
Next Obligation.
  intros A HA B HB [a b] [a' b'] [a'' b'']. unfold prod_cmp; simpl.
  destruct (ord_cmp a a') eqn:E1; [apply ord_cmp_eq in E1 as ->| |done].
  - destruct (ord_cmp a' a'') eqn:E2; [|done|done]. apply ord_cmp_lt_trans.
  - intros _. destruct (ord_cmp a' a'') eqn:E2; [apply ord_cmp_eq in E2 as ->| |done].
    + by rewrite E1.
    + by rewrite (ord_cmp_lt_trans _ _ _ E1 E2).
Qed.

(** Slices compare lexicographically. *)
Fixpoint list_cmp `{Ord A} (l k : list A) : comparison :=
  match l, k with
  | [], [] => Eq
  | [], _ :: _ => Lt
  | _ :: _, [] => Gt
  | x :: l', y :: k' => match ord_cmp x y with Eq => list_cmp l' k' | c => c end
  end.

#[export] Program Instance list_ord `{Ord A} : Ord (list A) := {| ord_cmp := list_cmp |}.
Next Obligation.
  intros A HA l. induction l as [|x l IH]; intros [|y k]; simpl; [done..|].
  pose proof (ord_cmp_eq x y). destruct (ord_cmp x y) eqn:E; [|naive_solver..].
  rewrite IH. naive_solver.
Qed.
Next Obligation.
  intros A HA l. induction l as [|x l IH]; intros [|y k]; simpl; [done..|].
  rewrite (ord_cmp_opp x y). destruct (ord_cmp x y); simpl; [apply IH|done..].
Qed.
Next Obligation.
  intros A HA l. induction l as [|x l IH]; intros [|y k] [|z m]; simpl; try done.
  destruct (ord_cmp x y) eqn:E1; [apply ord_cmp_eq in E1 as ->| |done].
  - destruct (ord_cmp y z); [apply IH|done..].
  - intros _. destruct (ord_cmp y z) eqn:E2; [apply ord_cmp_eq in E2 as ->| |done].
    + by rewrite E1.
    + by rewrite (ord_cmp_lt_trans _ _ _ E1 E2).
Qed.

(** ** Sorting

    [slice::sort] and [slice::sort_by] with a key, [Vec::dedup]. *)

Definition ord_sort `{Ord A} (l : list A) : list A := merge_sort ord_le l.

Definition key_le `{Ord K} {A} (key : A → K) (x y : A) : Prop := ord_le (key x) (key y).
#[export] Instance key_le_dec `{Ord K} {A} (key : A → K) x y : Decision (key_le key x y).
Proof. unfold key_le. apply _. Defined.
Definition sort_by_key `{Ord K} {A} (key : A → K) (l : list A) : list A :=
  merge_sort (key_le key) l.

Fixpoint dedup_from `{EqDecision A} (x : A) (l : list A) : list A :=
  match l with
  | [] => [x]
  | y :: l' => if decide (x = y) then dedup_from x l' else x :: dedup_from y l'
  end.
Definition dedup `{EqDecision A} (l : list A) : list A :=
  match l with [] => [] | x :: l' => dedup_from x l' end.

(** Pairwise distinct keys tell elements apart. *)
Lemma NoDup_fmap_same {A B} (f : A → B) l x y : NoDup (f <$> l) → x ∈ l → y ∈ l → f x = f y → x = y.
Proof.
  intros Hd [i Hi]%list_elem_of_lookup [j Hj]%list_elem_of_lookup He. assert (i = j) as ->; [|congruence].
  eapply NoDup_lookup; [done| |]; rewrite list_lookup_fmap; [by rewrite Hi|]. rewrite Hj. simpl. by rewrite He.
Qed.

Section sorting.
Context `{Ord K} {A : Type} (key : A → K).

#[local] Instance key_le_trans : Transitive (key_le key).
Proof. intros x y z. unfold key_le. apply transitivity. Qed.
#[local] Instance key_le_total : Total (key_le key).
Proof. intros x y. apply (ord_le_total (key x) (key y)). Qed.

Lemma sort_by_key_perm l : sort_by_key key l ≡ₚ l.
Proof. apply merge_sort_Permutation. Qed.

Lemma sort_by_key_sorted l : StronglySorted (key_le key) (sort_by_key key l).
Proof. apply StronglySorted_merge_sort; apply _. Qed.

(** With pairwise distinct keys the sorted list is determined by its elements. *)
Lemma sorted_by_key_unique l1 l2 :
  StronglySorted (key_le key) l1 → StronglySorted (key_le key) l2 →
  NoDup (key <$> l1) → l1 ≡ₚ l2 → l1 = l2.
Proof.
  intros Hs1 Hs2 Hnd Hp. apply (StronglySorted_unique_strong (key_le key)); [|done..].
  intros x y Hx Hy Hxy Hyx. assert (key x = key y) as Hk by by apply (anti_symm ord_le).
  rewrite <- Hp in Hy. by apply (NoDup_fmap_same key l1).
Qed.

Lemma sort_by_key_perm_eq l1 l2 :
  NoDup (key <$> l1) → l1 ≡ₚ l2 → sort_by_key key l1 = sort_by_key key l2.
Proof.
  intros Hnd Hp. apply sorted_by_key_unique; auto using sort_by_key_sorted.
  - by rewrite sort_by_key_perm.
  - by rewrite !sort_by_key_perm.
Qed.
End sorting.

Lemma ord_sort_perm `{Ord A} (l : list A) : ord_sort l ≡ₚ l.
Proof. apply merge_sort_Permutation. Qed.

Lemma ord_sort_sorted `{Ord A} (l : list A) : StronglySorted ord_le (ord_sort l).
Proof. apply StronglySorted_merge_sort; apply _. Qed.

Lemma ord_sort_perm_eq `{Ord A} (l1 l2 : list A) : l1 ≡ₚ l2 → ord_sort l1 = ord_sort l2.
Proof.
  intros Hp. apply (StronglySorted_unique ord_le); auto using ord_sort_sorted.
  by rewrite !ord_sort_perm.
Qed.

(** [dedup] of a sorted list is the strictly sorted list of its elements. *)
Lemma dedup_from_spec `{Ord A, EqDecision A} (x : A) l :
  StronglySorted ord_le (x :: l) →
  StronglySorted ord_lt (dedup_from x l) ∧ (∀ y, y ∈ dedup_from x l ↔ y ∈ x :: l).
Proof.
  revert x. induction l as [|y l IH]; intros x Hs; simpl.
  - split; [by repeat constructor|done].
  - inversion Hs as [|? ? Hs' Hall]; subst. inversion Hall as [|? ? Hxy Hall']; subst.
    case_decide as Heq.
    + subst y. destruct (IH x Hs') as [IHs IHe]. split; [done|]. set_solver.
    + destruct (IH y Hs') as [IHs IHe]. split; [|set_solver].
      constructor; [done|]. apply Forall_forall. intros z Hz. apply IHe in Hz.
      assert (ord_lt x y) as Hlt by (apply ord_le_lteq in Hxy as [?|?]; done).
      apply elem_of_cons in Hz as [->|Hz]; [done|].
      assert (ord_le y z) as Hyz.
      { inversion Hs' as [|? ? _ Hall2]; subst. rewrite Forall_forall in Hall2. auto. }
      apply ord_le_lteq in Hyz as [Hyz| <-]; [by etrans|done].
Qed.

Lemma dedup_sorted `{Ord A, EqDecision A} (l : list A) :
  StronglySorted ord_lt (dedup (ord_sort l)).
Proof.
  pose proof (ord_sort_sorted l) as Hs. destruct (ord_sort l) as [|x l']; simpl; [constructor|].
  by apply dedup_from_spec.
Qed.

Lemma elem_of_dedup_sort `{Ord A, EqDecision A} (l : list A) x :
  x ∈ dedup (ord_sort l) ↔ x ∈ l.
Proof.
  rewrite <- (ord_sort_perm l) at 2. pose proof (ord_sort_sorted l) as Hs.
  destruct (ord_sort l) as [|y l']; simpl; [done|]. by apply dedup_from_spec.
Qed.

Lemma strictly_sorted_NoDup `{Ord A} (l : list A) : StronglySorted ord_lt l → NoDup l.
Proof.
  induction 1 as [|x l Hs IH Hall]; constructor; [|done].
  intros Hin. rewrite Forall_forall in Hall. apply (irreflexivity ord_lt x). auto.
Qed.

(** A strictly sorted list is determined by its set of elements. *)
Lemma strictly_sorted_ext `{Ord A} (l1 l2 : list A) :
  StronglySorted ord_lt l1 → StronglySorted ord_lt l2 → (∀ x, x ∈ l1 ↔ x ∈ l2) → l1 = l2.
Proof.
  intros Hs1 Hs2 Hel.
  apply (StronglySorted_unique_strong ord_lt);
    [|done|done|apply NoDup_Permutation; eauto using strictly_sorted_NoDup].
  intros x y _ _ Hxy Hyx. exfalso. apply (irreflexivity ord_lt x). by etrans.
Qed.

(** ** Maps and their iteration orders

    [HashMap] and [BTreeMap] are finite maps. A [BTreeMap] iterates in key
    order; a [HashMap] iterates in an unspecified order, so the code that
    iterates over one is modelled for every [HashIter]. *)

Class HashIter := {
  hash_iter : ∀ {K A} `{Countable K}, gmap K A → list (K * A);
  hash_iter_perm : ∀ {K A} `{Countable K} (m : gmap K A), hash_iter m ≡ₚ map_to_list m;
}.

(** The order in which [gmap] itself enumerates its entries is one such order. *)
Definition gmap_hash_iter : HashIter :=
  {| hash_iter := λ K A _ _ m, map_to_list m; hash_iter_perm := λ K A _ _ m, reflexivity _ |}.

Definition hash_values `{HashIter, Countable K} {A} (m : gmap K A) : list A := (hash_iter m).*2.

Definition btree_iter `{Countable K, Ord K} {A} (m : gmap K A) : list (K * A) :=
  sort_by_key fst (map_to_list m).
Definition btree_values `{Countable K, Ord K} {A} (m : gmap K A) : list A := (btree_iter m).*2.
Definition btree_keys `{Countable K, Ord K} {A} (m : gmap K A) : list K := (btree_iter m).*1.

Section iteration.
Context `{Countable K} {A : Type}.
Implicit Types (m : gmap K A) (k : K) (x : A).

Lemma elem_of_hash_iter `{HashIter} m k x : (k, x) ∈ hash_iter m ↔ m !! k = Some x.
Proof. rewrite hash_iter_perm. apply elem_of_map_to_list. Qed.

Lemma hash_iter_NoDup_keys `{HashIter} m : NoDup (hash_iter m).*1.
Proof. rewrite hash_iter_perm. apply NoDup_fst_map_to_list. Qed.

Lemma elem_of_hash_values `{HashIter} m x : x ∈ hash_values m ↔ ∃ k, m !! k = Some x.
Proof.
  unfold hash_values. rewrite list_elem_of_fmap. setoid_rewrite <- elem_of_hash_iter. split.
  - intros [[k y] [-> ?]]. eauto.
  - intros [k ?]. by exists (k, x).
Qed.

Context `{!Ord K}.

Lemma btree_iter_perm m : btree_iter m ≡ₚ map_to_list m.
Proof. apply sort_by_key_perm. Qed.

Lemma elem_of_btree_iter m k x : (k, x) ∈ btree_iter m ↔ m !! k = Some x.
Proof. rewrite btree_iter_perm. apply elem_of_map_to_list. Qed.

Lemma btree_iter_NoDup_keys m : NoDup (btree_iter m).*1.
Proof. rewrite btree_iter_perm. apply NoDup_fst_map_to_list. Qed.

Lemma elem_of_btree_values m x : x ∈ btree_values m ↔ ∃ k, m !! k = Some x.
Proof.
  unfold btree_values. rewrite list_elem_of_fmap. setoid_rewrite <- elem_of_btree_iter. split.
  - intros [[k y] [-> ?]]. eauto.
  - intros [k ?]. by exists (k, x).
Qed.

(** Sorting the entries of a [HashMap] by key forgets its iteration order. *)
Lemma sort_hash_iter `{HashIter} m : sort_by_key fst (hash_iter m) = btree_iter m.
Proof. apply sort_by_key_perm_eq; [apply hash_iter_NoDup_keys|apply hash_iter_perm]. Qed.
End iteration.

#[export] Hint Rewrite @elem_of_hash_iter @elem_of_hash_values @elem_of_btree_iter
  @elem_of_btree_values @elem_of_dedup_sort : lycoris.

(** ** Join semilattices *)

Class JoinSemilattice {A : Type} (join : A → A → A) (P : A → A → Prop) := {
  join_comm : ∀ x y, P x y → join x y = join y x;
  join_assoc : ∀ x y z, P x y → P y z → join x (join y z) = join (join x y) z;
  join_idemp : ∀ x, join x x = x;
}.

(** ** Tactics *)

(** Case analysis on the decisions and matches of an executed definition. *)
Ltac cases :=
  repeat (case_match || case_decide || case_bool_decide); simplify_eq/=; try done.

(** ** Small facts the components share *)

Lemma elem_of_fst {A B} (l : list (A * B)) a : a ∈ l.*1 ↔ ∃ b, (a, b) ∈ l.
Proof.
  rewrite list_elem_of_fmap. split.
  - intros [[x y] [-> ?]]. eauto.
  - intros [b ?]. by exists (a, b).
Qed.

Lemma NoDup_fmap_filter {A B} (f : A → B) (P : A → Prop) `{!∀ x, Decision (P x)} (l : list A) :
  NoDup (f <$> l) → NoDup (f <$> filter P l).
Proof.
  induction l as [|x l IH]; [done|]. rewrite fmap_cons, NoDup_cons, filter_cons. intros [Hx Hnd].
  case_decide; [|by apply IH]. rewrite fmap_cons. constructor; [|by apply IH].
  intros Hin. apply Hx. apply list_elem_of_fmap in Hin as (y & -> & Hy).
  apply list_elem_of_filter in Hy as [_ Hy]. by apply list_elem_of_fmap_2.
Qed.
