(* ===== verification/Register.v ===== *)
(** * Membership registers ([crates/membership/src/register.rs])

    The unit of replication of the membership CRDT: one record per node, with
    the order and the merge that make replicas converge. *)

From S2P Require Import Prelude.

Inductive MemberState : Type := Active | Suspected | Leaving | Offline.

#[export] Instance MemberState_eq_dec : EqDecision MemberState.
Proof. solve_decision. Defined.

Definition is_active (s : MemberState) : bool :=
  match s with Active | Suspected => true | _ => false end.

Definition as_u8 (s : MemberState) : Z :=
  match s with Active => 0 | Suspected => 1 | Leaving => 2 | Offline => 3 end.

Definition rank (s : MemberState) : Z := as_u8 s.

Record MemberRegister : Type := mkRegister {
  node_id : string;
  address : string;
  state : MemberState;
  incarnation : Z;
  heartbeat : Z;
  labels : gmap string string;
  annotations : gmap string string;
  updated_at_ms : Z;
}.

#[export] Instance MemberRegister_eq_dec : EqDecision MemberRegister.
Proof. solve_decision. Defined.

(** [MemberRegister::new] *)
Definition new (id addr : string) (inc hb : Z) : MemberRegister :=
  mkRegister id addr Active inc hb ∅ ∅ 0.

(** The setters; each [with_*] builder is the setter of the same field. *)
Definition set_state (s : MemberState) (r : MemberRegister) : MemberRegister :=
  mkRegister (node_id r) (address r) s (incarnation r) (heartbeat r) (labels r) (annotations r)
    (updated_at_ms r).
Definition set_incarnation (i : Z) (r : MemberRegister) : MemberRegister :=
  mkRegister (node_id r) (address r) (state r) i (heartbeat r) (labels r) (annotations r)
    (updated_at_ms r).
Definition set_labels (m : gmap string string) (r : MemberRegister) : MemberRegister :=
  mkRegister (node_id r) (address r) (state r) (incarnation r) (heartbeat r) m (annotations r)
    (updated_at_ms r).
Definition set_annotations (m : gmap string string) (r : MemberRegister) : MemberRegister :=
  mkRegister (node_id r) (address r) (state r) (incarnation r) (heartbeat r) (labels r) m
    (updated_at_ms r).
Definition set_updated_at_ms (t : Z) (r : MemberRegister) : MemberRegister :=
  mkRegister (node_id r) (address r) (state r) (incarnation r) (heartbeat r) (labels r)
    (annotations r) t.
Definition with_address (a : string) (r : MemberRegister) : MemberRegister :=
  mkRegister (node_id r) a (state r) (incarnation r) (heartbeat r) (labels r) (annotations r)
    (updated_at_ms r).

(** The heartbeat has no public setter; the transitions below assign it. *)
Definition assign_heartbeat (h : Z) (r : MemberRegister) : MemberRegister :=
  mkRegister (node_id r) (address r) (state r) (incarnation r) h (labels r) (annotations r)
    (updated_at_ms r).

Definition order_key (r : MemberRegister) : Z * Z * Z :=
  (incarnation r, rank (state r), heartbeat r).

Definition dominates (self other : MemberRegister) : bool :=
  ord_gtb (order_key self) (order_key other).

(** Entries of both maps sorted by key, then compared lexicographically. *)
Definition canonical_map_cmp (a b : gmap string string) : comparison :=
  ord_cmp (ord_sort (map_to_list a)) (ord_sort (map_to_list b)).

Definition canonical_map_max (self other : gmap string string) : gmap string string :=
  match canonical_map_cmp other self with Gt => other | _ => self end.

(** [MemberRegister::merge]: [self] after [self.merge(other)]. *)
Definition merge (self other : MemberRegister) : MemberRegister :=
  if dominates other self then other
  else if dominates self other then self
  else
    mkRegister (node_id self)
      (if ord_gtb (address other) (address self) then address other else address self)
      (state self) (incarnation self) (heartbeat self)
      (canonical_map_max (labels self) (labels other))
      (canonical_map_max (annotations self) (annotations other))
      (Z.max (updated_at_ms self) (updated_at_ms other)).

Definition bump_heartbeat (now_ms : Z) (r : MemberRegister) : MemberRegister :=
  let r := assign_heartbeat (u64_saturating_add (heartbeat r) 1) r in
  let r := match state r with Active | Suspected => set_state Active r | _ => r end in
  set_updated_at_ms now_ms r.

Definition suspect (now_ms : Z) (r : MemberRegister) : MemberRegister :=
  match state r with
  | Active =>
      set_updated_at_ms now_ms
        (assign_heartbeat (u64_saturating_add (heartbeat r) 1) (set_state Suspected r))
  | _ => r
  end.

Definition leave (now_ms : Z) (r : MemberRegister) : MemberRegister :=
  set_updated_at_ms now_ms
    (assign_heartbeat (u64_saturating_add (heartbeat r) 1) (set_state Leaving r)).

Definition offline (now_ms : Z) (r : MemberRegister) : MemberRegister :=
  set_updated_at_ms now_ms
    (assign_heartbeat (u64_saturating_add (heartbeat r) 1) (set_state Offline r)).

Definition rejoin (addr : string) (now_ms : Z) (r : MemberRegister) : MemberRegister :=
  let r := set_incarnation (u64_saturating_add (incarnation r) 1) r in
  let r := assign_heartbeat 0 r in
  let r := with_address addr r in
  set_updated_at_ms now_ms (set_state Active r).

Definition refute (now_ms : Z) (r : MemberRegister) : MemberRegister :=
  let r := set_incarnation (u64_saturating_add (incarnation r) 1) r in
  let r := assign_heartbeat (u64_saturating_add (heartbeat r) 1) r in
  set_updated_at_ms now_ms (set_state Active r).

(** ** The merge order *)

Lemma rank_inj s1 s2 : rank s1 = rank s2 → s1 = s2.
Proof. by destruct s1, s2. Qed.

Lemma order_key_eq a b :
  order_key a = order_key b ↔
    incarnation a = incarnation b ∧ state a = state b ∧ heartbeat a = heartbeat b.
Proof.
  unfold order_key. split; [|by intros (-> & -> & ->)].
  intros Heq. simplify_eq. naive_solver eauto using rank_inj.
Qed.

(** Comparing the key-sorted entries is a total order on maps. *)
#[export] Program Instance string_map_ord : Ord (gmap string string) :=
  {| ord_cmp := canonical_map_cmp |}.
Next Obligation.
  intros a b. unfold canonical_map_cmp. split; [|intros ->; apply ord_cmp_refl].
  intros Heq%ord_cmp_eq. apply map_to_list_inj.
  by rewrite <- (ord_sort_perm (map_to_list a)), Heq, ord_sort_perm.
Qed.
Next Obligation. intros a b. unfold canonical_map_cmp. apply ord_cmp_opp. Qed.
Next Obligation. intros a b c. unfold canonical_map_cmp. apply ord_cmp_lt_trans. Qed.

(** The order in which a [HashMap] yields its entries does not matter. *)
Lemma canonical_map_cmp_iter `{HashIter} a b :
  canonical_map_cmp a b = ord_cmp (ord_sort (hash_iter a)) (ord_sort (hash_iter b)).
Proof.
  unfold canonical_map_cmp. f_equal; apply ord_sort_perm_eq; by rewrite hash_iter_perm.
Qed.

Lemma canonical_map_max_ord a b : canonical_map_max a b = ord_max a b.
Proof.
  unfold canonical_map_max, ord_max, ord_gtb. simpl. by destruct (canonical_map_cmp b a).
Qed.

Lemma dominates_lt a b : dominates a b = true ↔ ord_lt (order_key b) (order_key a).
Proof. apply ord_gtb_spec. Qed.

Lemma dominates_false a b : dominates a b = false ↔ ord_le (order_key a) (order_key b).
Proof. apply ord_gtb_false. Qed.

Lemma dominates_asym a b : dominates a b = true → dominates b a = false.
Proof. rewrite dominates_lt, dominates_false. intros H. apply ord_le_lteq. by left. Qed.

Lemma dominates_trans a b c :
  dominates a b = true → dominates b c = true → dominates a c = true.
Proof. rewrite !dominates_lt. intros ??. by etrans. Qed.

(** Registers with equal keys merge field by field. *)
Definition tie_join (a b : MemberRegister) : MemberRegister :=
  mkRegister (node_id a) (ord_max (address a) (address b)) (state a) (incarnation a)
    (heartbeat a) (ord_max (labels a) (labels b)) (ord_max (annotations a) (annotations b))
    (Z.max (updated_at_ms a) (updated_at_ms b)).

Lemma merge_gt a b : dominates b a = true → merge a b = b.
Proof. intros H. unfold merge. by rewrite H. Qed.

Lemma merge_lt a b : dominates a b = true → merge a b = a.
Proof. intros H. unfold merge. by rewrite (dominates_asym _ _ H), H. Qed.

Lemma merge_tie a b : order_key a = order_key b → merge a b = tie_join a b.
Proof.
  intros Hk. unfold merge, dominates. rewrite Hk.
  assert (ord_gtb (order_key b) (order_key b) = false) as -> by by apply ord_gtb_false.
  unfold tie_join. rewrite !canonical_map_max_ord. done.
Qed.

(** The three ways two registers compare. *)
Lemma key_cases a b :
  dominates a b = true ∨ dominates b a = true ∨ order_key a = order_key b.
Proof.
  rewrite !dominates_lt. destruct (ord_cmp (order_key a) (order_key b)) eqn:E.
  - apply ord_cmp_eq in E. auto.
  - auto.
  - apply ord_cmp_gt_lt in E. auto.
Qed.

Lemma dominates_key_l a b c : order_key a = order_key b → dominates a c = dominates b c.
Proof. unfold dominates. by intros ->. Qed.
Lemma dominates_key_r a b c : order_key a = order_key b → dominates c a = dominates c b.
Proof. unfold dominates. by intros ->. Qed.

Lemma merge_key a b : order_key (merge a b) = ord_max (order_key a) (order_key b).
Proof.
  destruct (key_cases a b) as [H|[H|H]].
  - rewrite (merge_lt _ _ H). apply dominates_asym in H. unfold dominates in H.
    unfold ord_max. by rewrite H.
  - rewrite (merge_gt _ _ H). unfold dominates in H. unfold ord_max. by rewrite H.
  - rewrite (merge_tie _ _ H), <- H, ord_max_idemp. done.
Qed.

Lemma tie_join_key a b : order_key (tie_join a b) = order_key a.
Proof. done. Qed.

Lemma merge_node_id a b : node_id a = node_id b → node_id (merge a b) = node_id a.
Proof. intros H. unfold merge. by repeat case_match. Qed.

Lemma merge_comm a b : node_id a = node_id b → merge a b = merge b a.
Proof.
  intros Hid. destruct (key_cases a b) as [H|[H|H]].
  - by rewrite (merge_lt _ _ H), (merge_gt _ _ H).
  - by rewrite (merge_lt _ _ H), (merge_gt _ _ H).
  - rewrite !merge_tie by done. unfold tie_join. apply order_key_eq in H as (-> & -> & ->).
    rewrite Hid. f_equal; [apply ord_max_comm..|lia].
Qed.

Lemma merge_idemp a : merge a a = a.
Proof. rewrite merge_tie by done. destruct a. unfold tie_join; simpl. by rewrite !ord_max_idemp, Z.max_id. Qed.

Lemma merge_assoc a b c :
  merge a (merge b c) = merge (merge a b) c.
Proof.
  destruct (key_cases a b) as [Hab|[Hab|Hab]], (key_cases b c) as [Hbc|[Hbc|Hbc]].
  - rewrite (merge_lt b c), (merge_lt a b) by done.
    by rewrite (merge_lt a c) by eauto using dominates_trans.
  - by rewrite (merge_gt b c), (merge_lt a b) by done.
  - rewrite (merge_tie b c), (merge_lt a b) by done.
    assert (dominates a c = true) by by rewrite <- (dominates_key_r b c).
    rewrite (merge_lt a c), (merge_lt a (tie_join b c)); [done| |done].
    by rewrite (dominates_key_r _ b).
  - by rewrite (merge_lt b c), (merge_gt a b), (merge_lt b c) by done.
  - rewrite (merge_gt b c), (merge_gt a b), (merge_gt b c) by done.
    by rewrite (merge_gt a c) by eauto using dominates_trans.
  - rewrite (merge_tie b c), (merge_gt a b), (merge_tie b c) by done.
    rewrite merge_gt; [done|]. by rewrite (dominates_key_l _ b).
  - rewrite (merge_lt b c), (merge_tie a b) by done.
    rewrite merge_lt; [done|]. by rewrite (dominates_key_l _ a), (dominates_key_l _ b).
  - rewrite (merge_gt b c), (merge_tie a b) by done.
    rewrite (merge_gt a c), merge_gt; [done|..]; by rewrite ?(dominates_key_r _ a), (dominates_key_r a b).
  - rewrite (merge_tie b c), (merge_tie a b) by done. rewrite !merge_tie; [|by rewrite tie_join_key, Hab..].
    unfold tie_join; simpl. by rewrite !ord_max_assoc, Z.max_assoc.
Qed.

(** ** Well-formed registers: the Rust types of the integer fields *)

Definition wf_register (r : MemberRegister) : Prop :=
  is_u64 (incarnation r) ∧ is_u64 (heartbeat r) ∧ is_i64 (updated_at_ms r).

Lemma wf_merge a b : wf_register a → wf_register b → wf_register (merge a b).
Proof.
  unfold wf_register, is_i64. intros Ha Hb. unfold merge.
  destruct (dominates b a); [done|]. destruct (dominates a b); [done|]. simpl.
  destruct Ha as (?&?&?), Hb as (?&?&?). split; [done|]. split; [done|]. lia.
Qed.

Lemma wf_transitions r now :
  wf_register r → is_i64 now →
  wf_register (bump_heartbeat now r) ∧ wf_register (suspect now r) ∧ wf_register (leave now r) ∧
  wf_register (offline now r) ∧ wf_register (refute now r) ∧ ∀ a, wf_register (rejoin a now r).
Proof.
  intros (Hi & Hh & Ht) Hn.
  assert (∀ x, is_u64 x → is_u64 (u64_saturating_add x 1)) as Hsat.
  { intros x ?. by apply u64_saturating_add_range. }
  assert (is_u64 0) by (unfold is_u64, u64_max; lia).
  destruct r as [id ad s i h l n t]. simpl in *.
  destruct s; unfold wf_register; simpl; split_and!; eauto.
Qed.

#[export] Hint Resolve wf_merge : lycoris.

(** ** What the transitions do to the order *)

Lemma order_lt_incarnation a b : incarnation a < incarnation b → dominates b a = true.
Proof.
  intros H. apply dominates_lt. unfold ord_lt, order_key. simpl. unfold prod_cmp; simpl.
  unfold prod_cmp; simpl. by apply Z.compare_lt_iff in H as ->.
Qed.

Lemma order_lt_rank a b :
  incarnation a = incarnation b → rank (state a) < rank (state b) → dominates b a = true.
Proof.
  intros Hi H. apply dominates_lt. unfold ord_lt, order_key. simpl. unfold prod_cmp; simpl.
  unfold prod_cmp; simpl. rewrite Hi, Z.compare_refl. by apply Z.compare_lt_iff in H as ->.
Qed.

Lemma dominates_iff a b :
  dominates a b = true ↔
    incarnation b < incarnation a ∨
    incarnation b = incarnation a ∧ rank (state b) < rank (state a) ∨
    incarnation b = incarnation a ∧ state b = state a ∧ heartbeat b < heartbeat a.
Proof.
  rewrite dominates_lt. unfold ord_lt, order_key. simpl. unfold prod_cmp; simpl.
  unfold prod_cmp; simpl.
  destruct (Z.compare_spec (incarnation b) (incarnation a)); [|naive_solver lia..].
  destruct (Z.compare_spec (rank (state b)) (rank (state a))) as [Hr|Hr|Hr].
  - apply rank_inj in Hr. rewrite Z.compare_lt_iff. rewrite Hr. intuition lia.
  - naive_solver.
  - split; [done|]. intros [?|[[??]|(?&Hs&?)]]; [lia|lia|]. rewrite Hs in Hr. lia.
Qed.

Lemma refute_dominates r now :
  is_u64 (incarnation r) → incarnation r < u64_max → dominates (refute now r) r = true.
Proof.
  intros Hu Hm. apply order_lt_incarnation. simpl. rewrite u64_saturating_add_succ by done. lia.
Qed.

Lemma rejoin_dominates r addr now :
  is_u64 (incarnation r) → incarnation r < u64_max → dominates (rejoin addr now r) r = true.
Proof.
  intros Hu Hm. apply order_lt_incarnation. simpl. rewrite u64_saturating_add_succ by done. lia.
Qed.

(** Raising the severity within an incarnation dominates the register it started from. *)
Lemma severity_dominates r s h t :
  rank (state r) < rank s →
  dominates (set_updated_at_ms t (assign_heartbeat h (set_state s r))) r = true.
Proof. intros H. by apply order_lt_rank. Qed.

Lemma suspect_dominates r now : state r = Active → dominates (suspect now r) r = true.
Proof. intros H. unfold suspect. rewrite H. apply severity_dominates. by rewrite H. Qed.

Lemma offline_dominates r now : state r ≠ Offline → dominates (offline now r) r = true.
Proof. intros H. apply severity_dominates. by destruct (state r). Qed.

(** ** Merge as a join semilattice *)

#[export] Instance merge_semilattice_laws :
  JoinSemilattice merge (λ a b, node_id a = node_id b).
Proof.
  split; [apply merge_comm|intros; apply merge_assoc|apply merge_idemp].
Qed.

(** The order of the semilattice: [b] absorbs [a]. *)
Definition reg_le (a b : MemberRegister) : Prop := merge a b = b.

Lemma reg_le_refl a : reg_le a a.
Proof. apply merge_idemp. Qed.

Lemma reg_le_trans a b c : reg_le a b → reg_le b c → reg_le a c.
Proof. unfold reg_le. intros Hab Hbc. by rewrite <- Hbc, merge_assoc, Hab. Qed.

Lemma reg_le_antisym a b : node_id a = node_id b → reg_le a b → reg_le b a → a = b.
Proof. unfold reg_le. intros Hid Hab Hba. by rewrite <- Hba, merge_comm, Hab. Qed.

Lemma reg_le_merge_l a b : reg_le a (merge a b).
Proof. unfold reg_le. by rewrite merge_assoc, merge_idemp. Qed.

Lemma reg_le_merge_r a b : node_id a = node_id b → reg_le b (merge a b).
Proof. intros Hid. rewrite merge_comm by done. apply reg_le_merge_l. Qed.

Lemma reg_le_lub a b c : reg_le a c → reg_le b c → reg_le (merge a b) c.
Proof. unfold reg_le. intros Ha Hb. by rewrite <- merge_assoc, Hb. Qed.

Lemma dominates_reg_le a b : dominates b a = true → reg_le a b.
Proof. apply merge_gt. Qed.

Lemma reg_le_key a b : reg_le a b → ord_le (order_key a) (order_key b).
Proof. intros H. rewrite <- H, merge_key. apply ord_max_le_l. Qed.

#[export] Hint Resolve reg_le_refl reg_le_merge_l reg_le_merge_r reg_le_lub dominates_reg_le
  merge_node_id : lycoris.

(** ** Properties *)

(** The merge of two registers of one node is a join: commutative,
    associative and idempotent, its order key is the larger of the two, and
    when one register dominates the other it wins as a whole. *)
Theorem merge_is_join a b c :
  node_id a = node_id b → node_id b = node_id c →
  merge a b = merge b a ∧
  merge a (merge b c) = merge (merge a b) c ∧
  merge a a = a ∧
  order_key (merge a b) = ord_max (order_key a) (order_key b) ∧
  (dominates a b = true → merge a b = a ∧ merge b a = a).
Proof.
  intros Hab Hbc. split_and!; auto using merge_comm, merge_assoc, merge_idemp, merge_key.
  intros Hd. auto using merge_lt, merge_gt.
Qed.

Definition wit_x : MemberRegister := set_labels {["zone" := "a"]} (new "x" "127.0.0.1:1" 1 10).
Definition wit_y : MemberRegister := set_labels {["zone" := "b"]} (new "x" "127.0.0.1:2" 1 10).

Lemma merge_is_join_witness :
  merge wit_x wit_y = merge wit_y wit_x ∧
  labels (merge wit_x wit_y) !! "zone" = Some "b" ∧
  merge wit_x (suspect 5 wit_y) = suspect 5 wit_y.
Proof.
  split; [|split; [vm_compute; reflexivity|]].
  - apply (merge_is_join wit_x wit_y wit_x); reflexivity.
  - apply (merge_is_join (suspect 5 wit_y) wit_x wit_x); [reflexivity..|vm_compute; reflexivity].
Defined.

(** Refuting raises the incarnation, so below the saturation point the
    refuted register strictly dominates the one it came from and every rumor
    whose incarnation is not above the local one; a rumor two or more
    incarnations ahead survives the refutation, and at [u64::MAX] a refutation
    no longer dominates a suspicion. *)
Theorem refute_overrides r rumor now :
  wf_register r → wf_register rumor →
  (incarnation r < u64_max →
   dominates (refute now r) r = true ∧
   (incarnation rumor ≤ incarnation r → dominates (refute now r) rumor = true) ∧
   (incarnation r + 1 < incarnation rumor → dominates rumor (refute now r) = true)) ∧
  (incarnation r = u64_max → incarnation rumor = u64_max → state rumor ≠ Active →
   dominates rumor (refute now r) = true).
Proof.
  intros (Hr & _ & _) (Hu & _ & _). split; [|intros H1 H2 Hs].
  - intros Hm. split_and!.
    + by apply refute_dominates.
    + intros Hle. apply order_lt_incarnation. simpl. rewrite u64_saturating_add_succ by done. lia.
    + intros Hlt. apply order_lt_incarnation. simpl. rewrite u64_saturating_add_succ by done. lia.
  - apply order_lt_rank; simpl; [|by destruct (state rumor)].
    rewrite H1, H2. unfold u64_saturating_add. lia.
Qed.

Lemma refute_overrides_witness :
  dominates (refute 9 wit_x) (suspect 5 wit_x) = true ∧
  dominates (set_incarnation 3 (suspect 5 wit_x)) (refute 9 wit_x) = true.
Proof.
  assert (∀ i, 0 ≤ i ≤ 3 → wf_register (set_incarnation i (suspect 5 wit_x))) as Hwf.
  { intros i Hi. unfold wf_register, is_u64, is_i64, i64_min, i64_max. simpl.
    unfold u64_saturating_add, u64_max. lia. }
  assert (wf_register wit_x) as Hx.
  { unfold wf_register, is_u64, is_i64, u64_max, i64_min, i64_max. simpl. lia. }
  assert (incarnation wit_x < u64_max) as Hlt by reflexivity.
  split.
  - destruct (refute_overrides wit_x (set_incarnation 1 (suspect 5 wit_x)) 9 Hx) as [H _];
      [apply Hwf; lia|]. apply H; [done|]. simpl. lia.
  - destruct (refute_overrides wit_x (set_incarnation 3 (suspect 5 wit_x)) 9 Hx) as [H _];
      [apply Hwf; lia|]. apply H; [done|]. simpl. lia.
Defined.
