(* ===== verification/Membership.v ===== *)
(** * The membership CRDT ([crates/membership/src/membership.rs])

    A map from node id to register and the mutation counter callers use to
    cache structures derived from it. *)

From S2P Require Import Prelude.
From S2P Require Import Register.

Record Membership : Type := mkMembership {
  members : gmap string MemberRegister;
  version : Z;
}.

Definition new : Membership := mkMembership ∅ 0.

Definition bump_version (m : Membership) : Membership :=
  mkMembership (members m) (u64_wrap (version m + 1)).

(** The value written by the entry API: merged into the register present, or inserted. *)
Definition merge_entry (existing : option MemberRegister) (r : MemberRegister) : MemberRegister :=
  match existing with Some e => Register.merge e r | None => r end.

Definition merge_register (m : Membership) (r : MemberRegister) : Membership :=
  bump_version
    (mkMembership (<[node_id r := merge_entry (members m !! node_id r) r]> (members m)) (version m)).

Definition get (m : Membership) (id : string) : option MemberRegister := members m !! id.

Section iterating.
Context `{!HashIter}.

Definition all (m : Membership) : list MemberRegister := hash_values (members m).

Definition active (m : Membership) : list MemberRegister :=
  filter (λ r, is_active (state r) = true) (all m).

Definition merge (m other : Membership) : Membership := foldl merge_register m (all other).
End iterating.

(** [members.get_mut(id)] followed by an update of the register in place. *)
Definition put (m : Membership) (id : string) (r : MemberRegister) : Membership :=
  mkMembership (<[id := r]> (members m)) (version m).

(** Each mutator returns the new state and the value the method returns. *)
Definition heartbeat (m : Membership) (id : string) (now_ms : Z) : Membership * bool :=
  match members m !! id with
  | Some r =>
      let state_before := state r in
      let r' := bump_heartbeat now_ms r in
      let m' := put m id r' in
      (if bool_decide (state r' ≠ state_before) then bump_version m' else m', true)
  | None => (m, false)
  end.

Definition suspect (m : Membership) (id : string) (now_ms : Z) : Membership * option Z :=
  match members m !! id with
  | None => (m, None)
  | Some r =>
      let previous := state r in
      let r' := Register.suspect now_ms r in
      let m' := put m id r' in
      if bool_decide (previous = Active ∧ state r' = Suspected)
      then (bump_version m', Some (incarnation r'))
      else (m', None)
  end.

Definition offline (m : Membership) (id : string) (now_ms : Z) : Membership * bool :=
  match members m !! id with
  | Some r => (bump_version (put m id (Register.offline now_ms r)), true)
  | None => (m, false)
  end.

Definition leave (m : Membership) (id : string) (now_ms : Z) : Membership * bool :=
  match members m !! id with
  | Some r => (bump_version (put m id (Register.leave now_ms r)), true)
  | None => (m, false)
  end.

Definition refute (m : Membership) (id : string) (now_ms : Z) : Membership * bool :=
  match members m !! id with
  | Some r => (bump_version (put m id (Register.refute now_ms r)), true)
  | None => (m, false)
  end.

(** ** Equality compares the replicated state only *)

#[export] Instance membership_equiv : Equiv Membership := λ a b, members a = members b.

#[export] Instance membership_equivalence : Equivalence (≡@{Membership}).
Proof. split; unfold equiv, membership_equiv; repeat intro; congruence. Qed.

#[export] Instance merge_register_proper : Proper ((≡) ==> (=) ==> (≡)) merge_register.
Proof. intros a b Hab r ? <-. unfold equiv, membership_equiv in *. simpl. by rewrite Hab. Qed.

#[export] Instance get_proper : Proper ((≡) ==> (=) ==> (=)) get.
Proof. intros a b Hab id ? <-. unfold get. by rewrite Hab. Qed.

(** ** Keys and node ids agree *)

Definition keyed (m : Membership) : Prop := ∀ id r, members m !! id = Some r → node_id r = id.

Lemma keyed_new : keyed new.
Proof. intros id r H. simpl in H. by rewrite lookup_empty in H. Qed.

Lemma keyed_insert m id r v :
  keyed m → node_id r = id → keyed (mkMembership (<[id := r]> (members m)) v).
Proof. intros Hm Hr id' r' H. simpl in H. apply lookup_insert_Some in H as [[<- <-]|[_ H]]; auto. Qed.

Lemma merge_entry_node_id m r : keyed m → node_id (merge_entry (members m !! node_id r) r) = node_id r.
Proof.
  intros Hm. destruct (members m !! node_id r) as [e|] eqn:E; simpl; [|done].
  rewrite merge_node_id; by apply Hm in E.
Qed.

Lemma keyed_merge_register m r : keyed m → keyed (merge_register m r).
Proof. intros Hm. apply keyed_insert; auto using merge_entry_node_id. Qed.

#[export] Hint Resolve keyed_new keyed_insert keyed_merge_register : lycoris.

Lemma node_id_transitions r now :
  node_id (bump_heartbeat now r) = node_id r ∧ node_id (Register.suspect now r) = node_id r ∧
  node_id (Register.offline now r) = node_id r ∧ node_id (Register.leave now r) = node_id r ∧
  node_id (Register.refute now r) = node_id r.
Proof. unfold bump_heartbeat, Register.suspect. destruct r as [? ? []]; done. Qed.

Lemma keyed_ops m id now :
  keyed m →
  keyed (heartbeat m id now).1 ∧ keyed (suspect m id now).1 ∧ keyed (offline m id now).1 ∧
  keyed (leave m id now).1 ∧ keyed (refute m id now).1.
Proof.
  intros Hm. unfold heartbeat, suspect, offline, leave, refute.
  destruct (members m !! id) as [r|] eqn:E; [|by repeat split].
  pose proof (node_id_transitions r now) as (H1 & H2 & H3 & H4 & H5).
  apply Hm in E. split_and!; repeat case_match; simpl; apply keyed_insert; first [done|congruence].
Qed.

(** ** Merging

    The register stored under a key after any sequence of deliveries is the
    least upper bound of the delivered registers with that node id. *)

Definition is_lub (l : list MemberRegister) (id : string) (o : option MemberRegister) : Prop :=
  match o with
  | None => ∀ x, x ∈ l → node_id x ≠ id
  | Some r =>
      node_id r = id ∧ (∃ x, x ∈ l ∧ node_id x = id) ∧
      (∀ x, x ∈ l → node_id x = id → reg_le x r) ∧
      (∀ u, node_id u = id → (∀ x, x ∈ l → node_id x = id → reg_le x u) → reg_le r u)
  end.

Lemma is_lub_ext l1 l2 id o1 o2 :
  (∀ x, x ∈ l1 ↔ x ∈ l2) → is_lub l1 id o1 → is_lub l2 id o2 → o1 = o2.
Proof.
  intros Hl. destruct o1 as [a|], o2 as [b|]; simpl; [|naive_solver..].
  intros (Ha & _ & Hua & Hla) (Hb & _ & Hub & Hlb). f_equal.
  apply reg_le_antisym; [congruence| |]; [apply Hla|apply Hlb]; naive_solver.
Qed.

Lemma is_lub_nil id : is_lub [] id None.
Proof. intros x. by rewrite elem_of_nil. Qed.

Definition join_opt (a b : option MemberRegister) : option MemberRegister :=
  union_with (λ x y, Some (Register.merge x y)) a b.

Lemma is_lub_app l1 l2 id o1 o2 :
  is_lub l1 id o1 → is_lub l2 id o2 → is_lub (l1 ++ l2) id (join_opt o1 o2).
Proof.
  destruct o1 as [a|], o2 as [b|]; simpl; setoid_rewrite elem_of_app.
  - intros (Ha & Hea & Hua & Hla) (Hb & _ & Hub & Hlb). split_and!.
    + rewrite merge_node_id; congruence.
    + naive_solver.
    + intros x [Hx|Hx] Hid; (eapply reg_le_trans; [by auto|]).
      * apply reg_le_merge_l.
      * apply reg_le_merge_r. congruence.
    + intros u Hu Hx. apply reg_le_lub; naive_solver.
  - intros (Ha & Hea & Hua & Hla) Hb. split_and!; naive_solver.
  - intros Ha (Hb & Heb & Hub & Hlb). split_and!; naive_solver.
  - naive_solver.
Qed.

Lemma is_lub_singleton r id : is_lub [r] id (if decide (node_id r = id) then Some r else None).
Proof.
  case_decide as Hid; simpl; setoid_rewrite list_elem_of_singleton; [|naive_solver].
  split_and!; [done|eauto| |]; [|naive_solver].
  intros x -> _. apply reg_le_refl.
Qed.

(** Pointwise description of the two merges. *)
Lemma merge_register_lookup m r id :
  get (merge_register m r) id
  = join_opt (get m id) (if decide (node_id r = id) then Some r else None).
Proof.
  unfold get, merge_register; simpl. rewrite lookup_insert.
  case_decide as Hid; [subst id|]; by destruct (members m !! _).
Qed.

Lemma foldl_merge_register_lookup l m id :
  get (foldl merge_register m l) id
  = foldl join_opt (get m id)
      ((λ r, if decide (node_id r = id) then Some r else None) <$> l).
Proof. revert m. induction l as [|r l IH]; intros m; simpl; [done|]. by rewrite IH, merge_register_lookup. Qed.

Lemma is_lub_foldl l0 m l id :
  is_lub l0 id (get m id) → is_lub (l0 ++ l) id (get (foldl merge_register m l) id).
Proof.
  revert l0 m. induction l as [|r l IH]; intros l0 m Hm; simpl; [by rewrite app_nil_r|].
  rewrite cons_middle, app_assoc. apply IH. rewrite merge_register_lookup.
  apply is_lub_app; auto using is_lub_singleton.
Qed.

Section merging.
Context `{!HashIter}.

Lemma elem_of_all m r : keyed m → r ∈ all m ↔ members m !! node_id r = Some r.
Proof.
  intros Hm. unfold all. rewrite elem_of_hash_values. split; [|eauto].
  intros [id Hid]. by rewrite (Hm _ _ Hid).
Qed.

Lemma all_NoDup_ids m : keyed m → NoDup (node_id <$> all m).
Proof.
  intros Hm. assert (node_id <$> all m = (hash_iter (members m)).*1) as ->; [|apply hash_iter_NoDup_keys].
  unfold all, hash_values. rewrite <- list_fmap_compose. apply list_fmap_ext.
  intros j [k r] Hj. apply Hm, elem_of_hash_iter, list_elem_of_lookup. eauto.
Qed.

Lemma all_lub m id : keyed m → is_lub (all m) id (get m id).
Proof.
  intros Hm. unfold get. destruct (members m !! id) as [r|] eqn:E; simpl.
  - pose proof (Hm _ _ E) as Hid. split_and!; [done|..].
    + exists r. split; [|done]. apply elem_of_all; [done|]. by rewrite Hid.
    + intros x Hx Hxid. apply elem_of_all in Hx; [|done]. rewrite Hxid, E in Hx.
      injection Hx as <-. apply reg_le_refl.
    + intros u _ Hu. apply Hu; [|done]. apply elem_of_all; [done|]. by rewrite Hid.
  - intros x Hx <-. apply elem_of_all in Hx; [|done]. congruence.
Qed.

(** Merging a whole membership joins the two maps key by key, in whatever
    order the other map is enumerated. *)
Lemma merge_lookup m o id :
  keyed m → keyed o → get (merge m o) id = join_opt (get m id) (get o id).
Proof.
  intros Hm Ho. eapply (is_lub_ext (all m ++ all o)); [done| |].
  - apply is_lub_foldl. by apply all_lub.
  - apply is_lub_app; by apply all_lub.
Qed.

Lemma keyed_merge m o : keyed m → keyed (merge m o).
Proof.
  unfold merge. generalize (all o). intros l. revert m.
  induction l as [|r l IH]; intros m Hm; simpl; auto with lycoris.
Qed.

(** The states a replica can reach by receiving registers and whole
    memberships, with the registers that went into each. *)
Inductive delivered : list MemberRegister → Membership → Prop :=
| delivered_new : delivered [] new
| delivered_register l m r : delivered l m → delivered (l ++ [r]) (merge_register m r)
| delivered_merge l1 l2 m1 m2 :
    delivered l1 m1 → delivered l2 m2 → delivered (l1 ++ l2) (merge m1 m2).

Lemma delivered_keyed l m : delivered l m → keyed m.
Proof. induction 1; auto using keyed_merge with lycoris. Qed.

Lemma delivered_lub l m id : delivered l m → is_lub l id (get m id).
Proof.
  induction 1 as [|l m r Hd IH|l1 l2 m1 m2 Hd1 IH1 Hd2 IH2].
  - unfold get. simpl. rewrite lookup_empty. apply is_lub_nil.
  - by apply (is_lub_foldl l m [r]).
  - rewrite merge_lookup by eauto using delivered_keyed. by apply is_lub_app.
Qed.
End merging.

(** ** Properties *)

(** C1: strong eventual consistency. Two replicas that received the same set
    of registers — in any order, any number of times, one by one or through
    merges of whole memberships, and whatever order the hash maps are
    enumerated in — hold the same replicated state. *)
Theorem replicas_converge `{!HashIter} l1 l2 m1 m2 :
  delivered l1 m1 → delivered l2 m2 → (∀ r, r ∈ l1 ↔ r ∈ l2) → m1 ≡ m2.
Proof.
  intros H1 H2 Hl. apply map_eq. intros id.
  apply (is_lub_ext l1 l2 id); [done| |]; by apply delivered_lub.
Qed.

Definition wit_a : MemberRegister := Register.new "a" "127.0.0.1:1" 1 0.
Definition wit_a' : MemberRegister := Register.suspect 7 wit_a.
Definition wit_b : MemberRegister := Register.new "b" "127.0.0.1:2" 3 9.

Lemma replicas_converge_witness :
  let i := gmap_hash_iter in
  merge (merge_register (merge_register new wit_a) wit_a') (merge_register new wit_b)
  ≡ merge_register (merge_register (merge_register new wit_b) wit_a') wit_a.
Proof.
  intros i.
  apply (replicas_converge (([] ++ [wit_a]) ++ [wit_a'] ++ []  ++ [wit_b])
           ((([] ++ [wit_b]) ++ [wit_a']) ++ [wit_a])).
  - apply (delivered_merge (([] ++ [wit_a]) ++ [wit_a']) ([] ++ [wit_b])); repeat constructor.
  - repeat constructor.
  - intros r. simpl. rewrite !elem_of_cons. naive_solver.
Defined.

(** Merging is total, and a merge never loses information: every register
    the other replica holds is absorbed, and every register already present
    only moves up in the merge order. *)
Theorem merge_absorbs_both `{!HashIter} m o id :
  keyed m → keyed o →
  keyed (merge m o) ∧
  (∀ r, get m id = Some r → ∃ r', get (merge m o) id = Some r' ∧ reg_le r r') ∧
  (∀ r, get o id = Some r → ∃ r', get (merge m o) id = Some r' ∧ reg_le r r') ∧
  (get m id = None → get o id = None → get (merge m o) id = None).
Proof.
  intros Hm Ho. split; [by apply keyed_merge|].
  assert (∀ x r, keyed x → get x id = Some r → node_id r = id) as Hk by (intros x r Hx; apply Hx).
  rewrite merge_lookup by done. split_and!.
  - intros r Hr. rewrite Hr. destruct (get o id); simpl; eauto using reg_le_refl, reg_le_merge_l.
  - intros r Hr. rewrite Hr. destruct (get m id) as [s|] eqn:E; simpl; [|eauto using reg_le_refl].
    eexists. split; [done|]. apply reg_le_merge_r. rewrite (Hk m s), (Hk o r) by done. done.
  - by intros -> ->.
Qed.

Lemma merge_absorbs_both_witness :
  let i := gmap_hash_iter in
  let m := merge_register new wit_a in
  let o := merge_register new wit_a' in
  ∃ r', get (merge m o) "a" = Some r' ∧ reg_le wit_a' r'.
Proof.
  intros i m o.
  apply (merge_absorbs_both m o "a").
  - apply keyed_merge_register, keyed_new.
  - apply keyed_merge_register, keyed_new.
  - reflexivity.
Defined.
