(* ===== verification/Merkle.v ===== *)
(** * The Merkle tree over the membership ([crates/membership/src/merkle.rs])

    A fixed-depth complete binary tree in a flat vector. The hash function
    [blake3] is a parameter; the tree's depth is a field of [MerkleShape],
    whose instance [lycoris_shape] holds the constants of the source. *)

From S2P Require Import Prelude.
From S2P Require Import Register.
From S2P Require Import Membership.

(** [MERKLE_TREE_DEPTH] (merkle.rs) and [SPLIT_DEPTH] (sync.rs), with the
    compile-time assertion that relates them. *)
Class MerkleShape := {
  MERKLE_TREE_DEPTH : nat;
  SPLIT_DEPTH : nat;
  split_depth_le : (SPLIT_DEPTH <= MERKLE_TREE_DEPTH)%nat;
}.

Definition lycoris_shape : MerkleShape :=
  {| MERKLE_TREE_DEPTH := 16; SPLIT_DEPTH := 8; split_depth_le := ltac:(lia) |}.

(** The 32-byte digests, as byte strings. *)
Abbreviation Hash := string.

Definition LEAF_PREFIX : string := "L".
Definition INNER_PREFIX : string := "I".
Definition EMPTY_PREFIX : string := "E".
Definition NUL : string := String Ascii.zero EmptyString.
Definition NL : string := String (Ascii.ascii_of_N 10) EmptyString.

(** A [blake3::Hasher] holds the bytes it has been fed; [finalize] hashes them. *)
Definition update (hasher bytes : string) : string := String.append hasher bytes.

Definition update_entry (hasher : string) (kv : string * string) : string :=
  update (update (update (update hasher kv.1) "=") kv.2) NL.

Record MerkleTree : Type := mkMerkleTree {
  nodes : list Hash;
  buckets : list (list (string * Hash));
  empty_hashes : list Hash;
}.

(** [((1u64 << depth) + index) as usize] *)
Definition flat_index (depth index : nat) : nat := (2 ^ depth + index)%nat.

(** [slice[start..start + len].fill(x)] *)
Definition fill_range (start len : nat) (x : Hash) (l : list Hash) : list Hash :=
  take start l ++ replicate len x ++ drop (start + len) l.

Section merkle.
Context `{!HashIter} `{!MerkleShape} (blake3 : string → Hash).

Definition hash_register_input (register : MemberRegister) : string :=
  let hasher := update "" LEAF_PREFIX in
  let hasher := update hasher (node_id register) in
  let hasher := update hasher NUL in
  let hasher := update hasher (address register) in
  let hasher := update hasher NUL in
  let hasher := update hasher (String (byte_ascii (as_u8 (state register))) EmptyString) in
  let hasher := update hasher (u64_to_be_bytes (incarnation register)) in
  let hasher := foldl update_entry hasher (sort_by_key fst (hash_iter (labels register))) in
  foldl update_entry hasher (sort_by_key fst (hash_iter (annotations register))).

Definition hash_register (register : MemberRegister) : Hash :=
  blake3 (hash_register_input register).

Definition leaf_bucket_input (bucket : list (string * Hash)) : string :=
  match bucket with
  | [] => update "" EMPTY_PREFIX
  | _ => foldl (λ hasher '(id, h), update (update (update hasher id) NUL) h)
           (update "" LEAF_PREFIX) bucket
  end.

Definition hash_empty : Hash := blake3 (update "" EMPTY_PREFIX).

(** The code returns [hash_empty()] for an empty bucket. *)
Definition hash_leaf_bucket (bucket : list (string * Hash)) : Hash :=
  match bucket with
  | [] => hash_empty
  | _ => blake3 (leaf_bucket_input bucket)
  end.

Definition inner_input (left right : Hash) : string :=
  update (update (update "" INNER_PREFIX) left) right.

Definition hash_inner (left right : Hash) : Hash := blake3 (inner_input left right).

(** The first [MERKLE_TREE_DEPTH] bits of [blake3(node_id)], big-endian. *)
Definition leaf_index (node_id : string) : nat :=
  let bytes := String.list_ascii_of_string (blake3 node_id) in
  let byte_count := (MERKLE_TREE_DEPTH / 8)%nat in
  let extra_bits := (MERKLE_TREE_DEPTH mod 8)%nat in
  let idx := foldl (λ idx byte, N.lor (N.shiftl idx 8) (Ascii.N_of_ascii byte)) 0%N
               (take byte_count bytes) in
  N.to_nat
    (if decide (0 < extra_bits)%nat then
       N.lor (N.shiftl idx (N.of_nat extra_bits))
         (N.shiftr (Ascii.N_of_ascii (default Ascii.zero (bytes !! byte_count)))
            (8 - N.of_nat extra_bits))
     else idx).

(** The loop that pushes the hash of the empty subtree of each height. *)
Fixpoint push_empty_hashes (n : nat) (current : Hash) (acc : list Hash) : list Hash :=
  match n with
  | O => acc
  | S n' => let current := hash_inner current current in
            push_empty_hashes n' current (acc ++ [current])
  end.

Definition build_empty_hashes : list Hash :=
  reverse (push_empty_hashes MERKLE_TREE_DEPTH hash_empty [hash_empty]).

Definition prefill_nodes (empties : list Hash) : list Hash :=
  foldl (λ nodes depth, fill_range (2 ^ depth) (2 ^ depth) (empties !!! depth) nodes)
    (replicate (2 ^ S MERKLE_TREE_DEPTH) hash_empty)
    (seq 0 MERKLE_TREE_DEPTH).

Definition push_register (bs : list (list (string * Hash))) (register : MemberRegister)
    : list (list (string * Hash)) :=
  alter (λ b, b ++ [(node_id register, hash_register register)])
    (leaf_index (node_id register)) bs.

Definition fill_buckets (m : Membership) : list (list (string * Hash)) :=
  foldl push_register (replicate (2 ^ MERKLE_TREE_DEPTH) []) (all m).

(** One bucket of the leaf pass: empty buckets are skipped. *)
Definition write_leaf (nodes : list Hash) (ib : nat * list (string * Hash)) : list Hash :=
  match ib.2 with
  | [] => nodes
  | _ => <[flat_index MERKLE_TREE_DEPTH ib.1 := hash_leaf_bucket ib.2]> nodes
  end.

(** One node of the bottom-up pass. *)
Definition write_inner (empty_child : Hash) (depth : nat) (nodes : list Hash) (i : nat)
    : list Hash :=
  let left := nodes !!! flat_index (S depth) (2 * i) in
  let right := nodes !!! flat_index (S depth) (2 * i + 1) in
  if decide (left = empty_child ∧ right = empty_child) then nodes
  else <[flat_index depth i := hash_inner left right]> nodes.

Definition write_level (empties : list Hash) (nodes : list Hash) (depth : nat) : list Hash :=
  foldl (write_inner (empties !!! S depth) depth) nodes (seq 0 (2 ^ depth)).

Definition from_membership (m : Membership) : MerkleTree :=
  let empties := build_empty_hashes in
  let nodes := prefill_nodes empties in
  let sorted := sort_by_key fst <$> fill_buckets m in
  let nodes := foldl write_leaf nodes (imap pair sorted) in
  let nodes := foldl (write_level empties) nodes (reverse (seq 0 MERKLE_TREE_DEPTH)) in
  mkMerkleTree nodes sorted empties.

Definition empty_subtree_hash (t : MerkleTree) (depth : nat) : option Hash :=
  empty_hashes t !! depth.

Definition root_hash (t : MerkleTree) : Hash := nodes t !!! 1%nat.

Definition node_hash (t : MerkleTree) (depth index : nat) : option Hash :=
  if decide (MERKLE_TREE_DEPTH < depth)%nat then None
  else if decide (2 ^ depth <= index)%nat then None
  else Some (nodes t !!! flat_index depth index).

Definition leaf_entries (t : MerkleTree) (index : nat) : option (list (string * Hash)) :=
  if decide (2 ^ MERKLE_TREE_DEPTH <= index)%nat then None
  else Some (buckets t !!! index).

(** The recursion of [collect_node_ids] descends one level per call; [height]
    is the number of levels left below [depth]. *)
Fixpoint collect_below (height : nat) (t : MerkleTree) (index : nat) : list string :=
  match height with
  | O => match leaf_entries t index with Some entries => entries.*1 | None => [] end
  | S h => collect_below h t (2 * index) ++ collect_below h t (2 * index + 1)
  end.

Definition collect_node_ids (t : MerkleTree) (depth index : nat) : list string :=
  if decide (MERKLE_TREE_DEPTH < depth)%nat then []
  else collect_below (MERKLE_TREE_DEPTH - depth) t index.
End merkle.

(** ** Vectors *)

Lemma foldl_length {A B} (f : list A → B → list A) (l : list A) (k : list B) :
  (∀ l x, length (f l x) = length l) → length (foldl f l k) = length l.
Proof. intros Hf. revert l. induction k as [|x k IH]; intros l; simpl; [done|]. by rewrite IH. Qed.

Lemma pow2_pos n : (0 < 2 ^ n)%nat.
Proof. apply Nat.neq_0_lt_0, Nat.pow_nonzero. lia. Qed.

Lemma flat_index_inj d d' i i' :
  (i < 2 ^ d)%nat → (i' < 2 ^ d')%nat → flat_index d i = flat_index d' i' → d = d' ∧ i = i'.
Proof.
  unfold flat_index. intros Hi Hi' Heq.
  assert (d = d') as ->; [|lia].
  destruct (lt_eq_lt_dec d d') as [[Hd|Hd]|Hd]; [|done|]; exfalso.
  - pose proof (Nat.pow_le_mono_r 2 (S d) d'). simpl in *. lia.
  - pose proof (Nat.pow_le_mono_r 2 (S d') d). simpl in *. lia.
Qed.

Lemma flat_index_bound d i D : (d <= D)%nat → (i < 2 ^ d)%nat → (flat_index d i < 2 ^ S D)%nat.
Proof.
  unfold flat_index. intros Hd Hi. pose proof (Nat.pow_le_mono_r 2 (S d) (S D)). simpl in *. lia.
Qed.

Lemma fill_range_length start len x l :
  (start + len <= length l)%nat → length (fill_range start len x l) = length l.
Proof.
  intros H. unfold fill_range. rewrite !length_app, length_take, length_replicate, length_drop. lia.
Qed.

Lemma fill_range_lookup start len x l i :
  (start + len <= length l)%nat →
  fill_range start len x l !! i
  = if decide (start <= i < start + len)%nat then Some x else l !! i.
Proof.
  intros H. unfold fill_range. case_decide as Hi.
  - rewrite lookup_app_r by (rewrite length_take; lia).
    rewrite length_take, Nat.min_l by lia.
    rewrite lookup_app_l by (rewrite length_replicate; lia).
    apply lookup_replicate_2. lia.
  - destruct (decide (i < start)%nat).
    + rewrite lookup_app_l by (rewrite length_take; lia). apply lookup_take_lt. lia.
    + rewrite lookup_app_r by (rewrite length_take; lia).
      rewrite length_take, Nat.min_l by lia.
      rewrite lookup_app_r by (rewrite length_replicate; lia).
      rewrite length_replicate, lookup_drop. f_equal. lia.
Qed.

(** ** The reference tree

    What the source says the flat vector holds: the hash of every node,
    computed by recursion from the sorted buckets of the members. *)
Section reference.
Context `{!HashIter} `{!MerkleShape} (blake3 : string → Hash).

Definition entry_of (r : MemberRegister) : string * Hash := (node_id r, hash_register blake3 r).

Definition bucket_of (m : Membership) (i : nat) : list (string * Hash) :=
  sort_by_key fst (entry_of <$> filter (λ r, leaf_index blake3 (node_id r) = i) (all m)).

(** [subtree m h i]: the hash of the node of height [h] and index [i] of its level. *)
Fixpoint subtree (m : Membership) (h i : nat) : Hash :=
  match h with
  | O => hash_leaf_bucket blake3 (bucket_of m i)
  | S h' => hash_inner blake3 (subtree m h' (2 * i)) (subtree m h' (2 * i + 1))
  end.

(** The hash of an empty subtree of height [h]. *)
Fixpoint empty_subtree (h : nat) : Hash :=
  match h with
  | O => hash_empty blake3
  | S h' => hash_inner blake3 (empty_subtree h') (empty_subtree h')
  end.

Lemma push_empty_hashes_spec n h acc :
  push_empty_hashes blake3 n (empty_subtree h) acc
  = acc ++ (empty_subtree <$> seq (S h) n).
Proof.
  revert h acc. induction n as [|n IH]; intros h acc; simpl; [by rewrite app_nil_r|].
  rewrite (IH (S h)). by rewrite <- app_assoc.
Qed.

Lemma build_empty_hashes_spec :
  build_empty_hashes blake3 = reverse (empty_subtree <$> seq 0 (S MERKLE_TREE_DEPTH)).
Proof.
  unfold build_empty_hashes. f_equal.
  by rewrite (push_empty_hashes_spec MERKLE_TREE_DEPTH 0 [empty_subtree 0]).
Qed.

Lemma build_empty_hashes_lookup d :
  (d <= MERKLE_TREE_DEPTH)%nat →
  build_empty_hashes blake3 !! d = Some (empty_subtree (MERKLE_TREE_DEPTH - d)).
Proof.
  intros Hd. rewrite build_empty_hashes_spec.
  rewrite reverse_lookup by (rewrite length_fmap, length_seq; lia).
  rewrite length_fmap, length_seq, list_lookup_fmap, lookup_seq_lt by lia. simpl. do 2 f_equal; lia.
Qed.

Lemma build_empty_hashes_lookup_total d :
  (d <= MERKLE_TREE_DEPTH)%nat →
  build_empty_hashes blake3 !!! d = empty_subtree (MERKLE_TREE_DEPTH - d).
Proof. intros Hd. by apply list_lookup_total_correct, build_empty_hashes_lookup. Qed.

(** *** Buckets *)

Lemma push_register_lookup l bs i b :
  bs !! i = Some b →
  foldl (push_register blake3) bs l !! i
  = Some (b ++ (entry_of <$> filter (λ r, leaf_index blake3 (node_id r) = i) l)).
Proof.
  revert bs b. induction l as [|r l IH]; intros bs b Hb; simpl; [by rewrite app_nil_r|].
  rewrite filter_cons. unfold push_register at 2. case_decide as Hi.
  - erewrite IH; [|subst i; rewrite list_lookup_alter_eq, Hb; done].
    simpl. by rewrite <- app_assoc.
  - erewrite IH; [done|]. by rewrite list_lookup_alter_ne.
Qed.

Lemma fill_buckets_length m : length (fill_buckets blake3 m) = (2 ^ MERKLE_TREE_DEPTH)%nat.
Proof.
  unfold fill_buckets. rewrite foldl_length, length_replicate; [done|].
  intros l r. apply length_alter.
Qed.

Lemma sorted_buckets_lookup m i :
  (i < 2 ^ MERKLE_TREE_DEPTH)%nat →
  (sort_by_key fst <$> fill_buckets blake3 m) !! i = Some (bucket_of m i).
Proof.
  intros Hi. rewrite list_lookup_fmap. unfold fill_buckets.
  erewrite push_register_lookup; [|by apply lookup_replicate_2]. done.
Qed.

(** *** Levels *)

Abbreviation D := MERKLE_TREE_DEPTH.

(** Levels from [d] down hold the reference hashes, the levels above the
    hash of an empty subtree. *)
Definition levels_done (m : Membership) (d : nat) (ns : list Hash) : Prop :=
  length ns = (2 ^ S D)%nat ∧
  ∀ depth i, (depth <= D)%nat → (i < 2 ^ depth)%nat →
    ns !! flat_index depth i
    = Some (if decide (d <= depth)%nat then subtree m (D - depth) i
            else empty_subtree (D - depth)).

(** The state before the leaf pass: every level is prefilled. *)
Definition prefilled (ns : list Hash) : Prop :=
  length ns = (2 ^ S D)%nat ∧
  ∀ depth i, (depth <= D)%nat → (i < 2 ^ depth)%nat →
    ns !! flat_index depth i = Some (empty_subtree (D - depth)).

Lemma prefill_upto k :
  (k <= D)%nat →
  let ns := foldl (λ nodes depth, fill_range (2 ^ depth) (2 ^ depth)
                     (build_empty_hashes blake3 !!! depth) nodes)
              (replicate (2 ^ S D) (hash_empty blake3)) (seq 0 k) in
  length ns = (2 ^ S D)%nat ∧
  ∀ depth i, (depth <= D)%nat → (i < 2 ^ depth)%nat →
    ns !! flat_index depth i
    = Some (if decide (depth < k)%nat then empty_subtree (D - depth) else empty_subtree 0).
Proof.
  induction k as [|k IH]; intros Hk.
  - cbn [seq foldl]. split; [by rewrite length_replicate|]. intros depth i Hd Hi.
    rewrite decide_False by lia. apply lookup_replicate_2. by apply flat_index_bound.
  - destruct IH as [Hlen IH]; [lia|]. rewrite seq_S, foldl_snoc. change (0 + k)%nat with k.
    cbv zeta. set (ns := foldl _ _ _) in *.
    pose proof (Nat.pow_le_mono_r 2 (S k) (S D)) as Hpow. rewrite Nat.pow_succ_r' in Hpow.
    rewrite fill_range_length by lia.
    split; [done|]. intros depth i Hd Hi.
    rewrite fill_range_lookup by lia.
    unfold flat_index in *. case_decide as Hr.
    + assert (depth = k) as ->.
      { destruct (flat_index_inj depth k i (2 ^ depth + i - 2 ^ k)); unfold flat_index; lia. }
      rewrite decide_True by lia. by rewrite build_empty_hashes_lookup_total by lia.
    + assert (depth ≠ k) by (intros ->; lia). rewrite IH by done.
      repeat case_decide; try lia; done.
Qed.

Lemma prefill_nodes_spec : prefilled (prefill_nodes blake3 (build_empty_hashes blake3)).
Proof.
  destruct (prefill_upto D) as [Hlen Hns]; [done|]. split; [done|].
  intros depth i Hd Hi. unfold prefill_nodes. rewrite Hns by done. case_decide; [done|].
  by replace (D - depth)%nat with 0%nat by lia.
Qed.

Lemma write_leaf_length ns ib : length (write_leaf blake3 ns ib) = length ns.
Proof. unfold write_leaf. destruct ib.2; [done|]. apply length_insert. Qed.

Lemma leaf_pass_spec bs ns :
  length ns = (2 ^ S D)%nat → (length bs <= 2 ^ D)%nat →
  let ns' := foldl (write_leaf blake3) ns (imap pair bs) in
  length ns' = (2 ^ S D)%nat ∧
  ∀ depth i, (depth <= D)%nat → (i < 2 ^ depth)%nat →
    ns' !! flat_index depth i
    = match (if decide (depth = D) then bs !! i else None) with
      | Some (e :: b) => Some (hash_leaf_bucket blake3 (e :: b))
      | _ => ns !! flat_index depth i
      end.
Proof.
  intros Hns. induction bs as [|b bs IH] using rev_ind; intros Hlen; cbv zeta.
  - split; [done|]. intros depth i Hd Hi. simpl. by case_decide.
  - rewrite length_app in Hlen. cbn [length] in Hlen. destruct IH as [Hl IH]; [lia|].
    rewrite imap_app. cbn [imap]. rewrite foldl_app. cbn [foldl].
    set (ns' := foldl _ ns (imap pair bs)) in *. rewrite Nat.add_0_r.
    split; [by rewrite write_leaf_length|]. intros depth i Hd Hi.
    unfold write_leaf. simpl.
    assert (∀ x : Hash, <[flat_index D (length bs) := x]> ns' !! flat_index depth i
      = if decide (depth = D ∧ i = length bs) then Some x else ns' !! flat_index depth i) as Hins.
    { intros x. case_decide as Hdi.
      - destruct Hdi as [-> ->]. apply list_lookup_insert_eq. rewrite Hl. by apply flat_index_bound.
      - apply list_lookup_insert_ne. intros Heq. apply Hdi.
        apply flat_index_inj in Heq as [-> ->]; [done|lia|done]. }
    destruct (decide (depth = D ∧ i = length bs)) as [[-> ->]|Hne].
    + rewrite decide_True, lookup_app_r, Nat.sub_diag by done. cbn [lookup list_lookup].
      destruct b as [|e b]; [rewrite IH by done|by rewrite Hins].
      rewrite decide_True by done. by rewrite lookup_ge_None_2.
    + assert (match b with [] => ns' | _ => <[flat_index D (length bs):=hash_leaf_bucket blake3 b]> ns' end
        !! flat_index depth i = ns' !! flat_index depth i) as ->.
      { destruct b; [done|]. apply Hins. }
      rewrite IH by done. case_decide; [|done]. subst depth.
      destruct (decide (i < length bs)%nat); [by rewrite lookup_app_l|].
      rewrite (lookup_ge_None_2 bs) by lia.
      rewrite (lookup_ge_None_2 (bs ++ [b])) by (rewrite length_app; simpl; lia). done.
Qed.

Lemma write_inner_length ec d ns i : length (write_inner blake3 ec d ns i) = length ns.
Proof. unfold write_inner. case_decide; [done|]. apply length_insert. Qed.

Lemma level_pass_spec ec d k ns :
  (d < D)%nat → (k <= 2 ^ d)%nat → length ns = (2 ^ S D)%nat →
  (∀ i, (i < 2 ^ d)%nat → ns !! flat_index d i = Some (hash_inner blake3 ec ec)) →
  let ns' := foldl (write_inner blake3 ec d) ns (seq 0 k) in
  length ns' = (2 ^ S D)%nat ∧
  ∀ depth i, (depth <= D)%nat → (i < 2 ^ depth)%nat →
    ns' !! flat_index depth i
    = if decide (depth = d ∧ i < k)%nat
      then Some (hash_inner blake3 (ns !!! flat_index (S d) (2 * i)) (ns !!! flat_index (S d) (2 * i + 1)))
      else ns !! flat_index depth i.
Proof.
  intros Hd Hk Hlen Hpre. induction k as [|k IH]; cbv zeta.
  - split; [done|]. intros depth i ??. rewrite decide_False by lia. done.
  - destruct IH as [Hl IH]; [lia|]. rewrite seq_S, foldl_snoc. change (0 + k)%nat with k.
    set (ns' := foldl _ ns (seq 0 k)) in *.
    split; [by rewrite write_inner_length|]. intros depth i Hdepth Hi.
    pose proof (Nat.pow_succ_r' 2 d) as Hpow.
    assert (∀ j, (j < 2 ^ S d)%nat → ns' !!! flat_index (S d) j = ns !!! flat_index (S d) j) as Hch.
    { intros j Hj. apply list_lookup_total_correct. rewrite IH by lia. rewrite decide_False by lia.
      apply list_lookup_lookup_total_lt. rewrite Hlen. apply flat_index_bound; lia. }
    unfold write_inner. rewrite !Hch by lia.
    destruct (decide (depth = d ∧ i = k)) as [[-> ->]|Hne].
    + rewrite (decide_True (P := d = d ∧ (k < S k)%nat)) by lia.
      case_decide as Hec.
      * rewrite IH by done. rewrite decide_False by lia. destruct Hec as [-> ->]. by apply Hpre.
      * apply list_lookup_insert_eq. rewrite Hl. by apply flat_index_bound.
    + transitivity (ns' !! flat_index depth i).
      { case_decide; [done|]. apply list_lookup_insert_ne. intros Heq. apply Hne.
        apply flat_index_inj in Heq as [-> ->]; [done|lia|done]. }
      rewrite IH by done. repeat case_decide; try done; lia.
Qed.

Lemma write_level_spec m d ns :
  (d < D)%nat → levels_done m (S d) ns →
  levels_done m d (write_level blake3 (build_empty_hashes blake3) ns d).
Proof.
  intros Hd [Hlen Hns]. unfold write_level. rewrite build_empty_hashes_lookup_total by lia.
  assert (D - d = S (D - S d))%nat as Hh by lia.
  pose proof (Nat.pow_succ_r' 2 d) as Hpow.
  destruct (level_pass_spec (empty_subtree (D - S d)) d (2 ^ d) ns) as [Hl Hlev]; [done..| |].
  { intros i Hi. rewrite Hns by lia. rewrite decide_False by lia. by rewrite Hh. }
  split; [done|]. intros depth i Hdepth Hi. rewrite Hlev by done.
  destruct (decide (depth = d)) as [->|Hne].
  - rewrite !decide_True by lia. rewrite Hh. simpl. do 2 f_equal;
      apply list_lookup_total_correct; rewrite Hns by lia; by rewrite decide_True by lia.
  - rewrite decide_False by lia. rewrite Hns by done. repeat case_decide; try done; lia.
Qed.

Lemma levels_pass_spec m k ns :
  (k <= D)%nat → levels_done m k ns →
  levels_done m 0 (foldl (write_level blake3 (build_empty_hashes blake3)) ns (reverse (seq 0 k))).
Proof.
  revert ns. induction k as [|k IH]; intros ns Hk Hns; [done|].
  rewrite seq_S, reverse_snoc. simpl. apply IH; [lia|]. by apply write_level_spec.
Qed.

Lemma from_membership_levels m : levels_done m 0 (nodes (from_membership blake3 m)).
Proof.
  unfold from_membership. cbn [nodes]. apply levels_pass_spec; [done|].
  destruct prefill_nodes_spec as [Hlen Hpre].
  destruct (leaf_pass_spec (sort_by_key fst <$> fill_buckets blake3 m) (prefill_nodes blake3 (build_empty_hashes blake3)))
    as [Hl Hns]; [done|by rewrite length_fmap, fill_buckets_length|].
  split; [done|]. intros depth i Hd Hi. rewrite Hns by done. rewrite Hpre by done.
  destruct (decide (depth = D)) as [->|Hne]; [|by rewrite decide_False by lia].
  rewrite sorted_buckets_lookup by done. rewrite decide_True by lia.
  replace (D - D)%nat with 0%nat by lia. simpl.
  destruct (bucket_of m i); done.
Qed.

(** *** What the queries answer *)

Lemma node_hash_spec m depth i :
  node_hash (from_membership blake3 m) depth i
  = if decide (depth <= D ∧ i < 2 ^ depth)%nat then Some (subtree m (D - depth) i) else None.
Proof.
  destruct (from_membership_levels m) as [_ Hns]. unfold node_hash.
  repeat case_decide; try done; try lia. f_equal. apply list_lookup_total_correct.
  rewrite Hns by lia. by rewrite decide_True by lia.
Qed.

Lemma leaf_entries_spec m i :
  leaf_entries (from_membership blake3 m) i
  = if decide (i < 2 ^ D)%nat then Some (bucket_of m i) else None.
Proof.
  unfold leaf_entries. repeat case_decide; try done; try lia. f_equal.
  apply list_lookup_total_correct. by apply sorted_buckets_lookup.
Qed.

Lemma root_hash_spec m : root_hash (from_membership blake3 m) = subtree m D 0.
Proof.
  destruct (from_membership_levels m) as [_ Hns]. unfold root_hash.
  apply list_lookup_total_correct. change 1%nat with (flat_index 0 0).
  rewrite Hns by (simpl; lia). rewrite decide_True by lia. by rewrite Nat.sub_0_r.
Qed.

Lemma empty_subtree_hash_spec m d :
  empty_subtree_hash (from_membership blake3 m) d
  = if decide (d <= D)%nat then Some (empty_subtree (D - d)) else None.
Proof.
  unfold empty_subtree_hash. cbn [from_membership empty_hashes]. case_decide.
  - by apply build_empty_hashes_lookup.
  - apply lookup_ge_None_2. rewrite build_empty_hashes_spec, length_reverse, length_fmap, length_seq. lia.
Qed.

Lemma elem_of_bucket m i id h :
  keyed m →
  (id, h) ∈ bucket_of m i ↔
    ∃ r, get m id = Some r ∧ h = hash_register blake3 r ∧ leaf_index blake3 id = i.
Proof.
  intros Hm. unfold bucket_of. rewrite sort_by_key_perm, list_elem_of_fmap.
  setoid_rewrite list_elem_of_filter. setoid_rewrite (elem_of_all m); [|done]. split.
  - intros (r & Heq & Hi & Hr). unfold entry_of in Heq. simplify_eq. eauto.
  - intros (r & Hr & -> & Hi). exists r. unfold entry_of.
    assert (node_id r = id) as Hid by by apply Hm. unfold get in Hr. rewrite Hid. eauto.
Qed.

Lemma bucket_NoDup_keys m i : keyed m → NoDup (bucket_of m i).*1.
Proof.
  intros Hm. unfold bucket_of. rewrite sort_by_key_perm, <- list_fmap_compose.
  change (fst ∘ entry_of) with node_id. by apply NoDup_fmap_filter, all_NoDup_ids.
Qed.

Lemma bucket_sorted m i : StronglySorted (key_le fst) (bucket_of m i).
Proof. apply sort_by_key_sorted. Qed.
End reference.

(** ** The tree depends only on the hashed fields of the members *)

Definition hashed_fields (r : MemberRegister) :=
  (node_id r, address r, state r, incarnation r, labels r, annotations r).

Lemma hash_register_fields (i1 i2 : HashIter) blake3 r1 r2 :
  hashed_fields r1 = hashed_fields r2 →
  @hash_register i1 blake3 r1 = @hash_register i2 blake3 r2.
Proof.
  unfold hashed_fields, hash_register, hash_register_input. intros Heq. simplify_eq.
  repeat rewrite sort_hash_iter. congruence.
Qed.

Definition same_hashed (m1 m2 : Membership) : Prop :=
  ∀ id, hashed_fields <$> get m1 id = hashed_fields <$> get m2 id.

Section same_hashed.
Context (i1 i2 : HashIter) `{!MerkleShape} (blake3 : string → Hash).

Lemma bucket_of_incl (j1 j2 : HashIter) m1 m2 i e :
  keyed m1 → keyed m2 → same_hashed m1 m2 →
  e ∈ @bucket_of j1 _ blake3 m1 i → e ∈ @bucket_of j2 _ blake3 m2 i.
Proof.
  intros H1 H2 Hs. destruct e as [id h]. rewrite !elem_of_bucket by done.
  intros (r & Hr & -> & Hi). specialize (Hs id). rewrite Hr in Hs.
  destruct (get m2 id) as [r'|] eqn:E; [|done]. exists r'. split_and!; [done| |done].
  apply hash_register_fields. simpl in Hs. congruence.
Qed.

Lemma bucket_of_same m1 m2 i :
  keyed m1 → keyed m2 → same_hashed m1 m2 →
  @bucket_of i1 _ blake3 m1 i = @bucket_of i2 _ blake3 m2 i.
Proof.
  intros H1 H2 Hs. apply (sorted_by_key_unique fst); auto using bucket_sorted, bucket_NoDup_keys.
  apply NoDup_Permutation; [by eapply NoDup_fmap_1, bucket_NoDup_keys..|].
  intros e. split; apply bucket_of_incl; try done. intros id. by rewrite Hs.
Qed.

Lemma from_membership_same m1 m2 :
  keyed m1 → keyed m2 → same_hashed m1 m2 →
  @from_membership i1 _ blake3 m1 = @from_membership i2 _ blake3 m2.
Proof.
  intros H1 H2 Hs. unfold from_membership.
  assert (sort_by_key fst <$> @fill_buckets i1 _ blake3 m1
          = sort_by_key fst <$> @fill_buckets i2 _ blake3 m2) as ->; [|done].
  apply list_eq. intros i. destruct (decide (i < 2 ^ MERKLE_TREE_DEPTH)%nat).
  - rewrite !sorted_buckets_lookup by done. f_equal. by apply bucket_of_same.
  - rewrite !lookup_ge_None_2; [done|rewrite length_fmap, fill_buckets_length; lia..].
Qed.
End same_hashed.

(** Every mutation of a membership. *)
Inductive mutates `{!HashIter} : Membership → Membership → Prop :=
| mutates_register m r : mutates m (merge_register m r)
| mutates_heartbeat m id now : mutates m (heartbeat m id now).1
| mutates_suspect m id now : mutates m (suspect m id now).1
| mutates_offline m id now : mutates m (offline m id now).1
| mutates_leave m id now : mutates m (leave m id now).1
| mutates_refute m id now : mutates m (refute m id now).1.

Lemma u64_wrap_succ_neq v : u64_wrap (v + 1) ≠ v.
Proof.
  unfold u64_wrap. intros H. pose proof (Z.mod_pos_bound (v + 1) (2 ^ 64)).
  destruct (decide (v + 1 < 2 ^ 64)).
  - rewrite Z.mod_small in H; lia.
  - assert (v + 1 = 2 ^ 64) as Hv by lia. rewrite Hv, Z.mod_same in H; lia.
Qed.

Lemma keyed_mutates `{!HashIter} m m' : keyed m → mutates m m' → keyed m'.
Proof.
  intros Hm Hs. destruct Hs as [m r|m id now|m id now|m id now|m id now|m id now];
    [auto with lycoris|apply keyed_ops..]; done.
Qed.

Lemma same_hashed_put m id r r' :
  get m id = Some r → hashed_fields r = hashed_fields r' → same_hashed (put m id r') m.
Proof.
  intros Hr Hh id'. unfold get, put in *. simpl. rewrite lookup_insert.
  case_decide; [subst|done]. rewrite Hr. change (Some (hashed_fields r') = Some (hashed_fields r)).
  by rewrite Hh.
Qed.

Lemma mutates_same_version `{!HashIter} m m' :
  mutates m m' → version m' = version m → same_hashed m' m.
Proof.
  intros Hs. destruct Hs as [m r|m id now|m id now|m id now|m id now|m id now]; intros Hv;
    try (unfold heartbeat, suspect, offline, leave, refute in *;
         destruct (members m !! id) as [r|] eqn:E; [|done]);
    try (exfalso; by apply u64_wrap_succ_neq in Hv).
  - case_bool_decide as Hst; [exfalso; by apply u64_wrap_succ_neq in Hv|].
    apply (same_hashed_put m id r); [done|].
    unfold bump_heartbeat in *. destruct r as [? ? []]; unfold hashed_fields; simpl in *; congruence.
  - cbv zeta in *. case_bool_decide as Hst; [exfalso; by apply u64_wrap_succ_neq in Hv|].
    apply (same_hashed_put m id r); [done|].
    unfold Register.suspect in *. destruct r as [? ? []]; simpl in *; [|done..].
    exfalso. by apply Hst.
Qed.

(** ** What the hashed byte strings determine *)

(** No zero byte: the terminator of the variable-length fields. *)
Fixpoint no_nul (s : string) : bool :=
  match s with
  | EmptyString => true
  | String c s' => negb (Ascii.eqb c Ascii.zero) && no_nul s'
  end.

Lemma append_nul_inj s1 s2 t1 t2 :
  no_nul s1 = true → no_nul s2 = true →
  String.append s1 (String.append NUL t1) = String.append s2 (String.append NUL t2) →
  s1 = s2 ∧ t1 = t2.
Proof.
  revert s2. induction s1 as [|c1 s1 IH]; intros [|c2 s2] H1 H2 Heq;
    cbn in H1, H2; apply andb_true_iff in H1 as [Hc1 H1] || clear H1;
    try (apply andb_true_iff in H2 as [Hc2 H2]).
  - injection Heq as Heq. split; [done|exact Heq].
  - injection Heq as <- _. done.
  - injection Heq as -> _. done.
  - injection Heq as -> Heq. by destruct (IH s2 H1 H2 Heq) as [-> ->].
Qed.

Lemma foldl_update_entry h l :
  foldl update_entry h l = String.append h (foldl update_entry "" l).
Proof.
  assert (∀ x y, foldl update_entry (String.append x y) l = String.append x (foldl update_entry y l)) as H.
  { induction l as [|kv l IH]; intros x y; [done|]. cbn [foldl].
    unfold update_entry at 2 4, update. by rewrite !string_app_assoc, IH. }
  rewrite <- (H h ""). f_equal. clear H. induction h as [|c h IH]; [done|]. exact (f_equal (String c) IH).
Qed.

(** The part of a register's serialization after its address. *)
Definition register_tail `{HashIter} (r : MemberRegister) : string :=
  String.append (String (byte_ascii (as_u8 (state r))) EmptyString)
    (String.append (u64_to_be_bytes (incarnation r))
      (String.append (foldl update_entry "" (sort_by_key fst (hash_iter (labels r))))
        (foldl update_entry "" (sort_by_key fst (hash_iter (annotations r)))))).

Lemma hash_register_input_shape `{HashIter} r :
  hash_register_input r
  = String.append LEAF_PREFIX (String.append (node_id r) (String.append NUL
      (String.append (address r) (String.append NUL (register_tail r))))).
Proof.
  unfold hash_register_input, register_tail, update. cbv zeta.
  rewrite (foldl_update_entry _ (sort_by_key fst (hash_iter (annotations r)))).
  rewrite (foldl_update_entry _ (sort_by_key fst (hash_iter (labels r)))).
  rewrite !string_app_assoc. done.
Qed.

Lemma hash_register_input_inj `{HashIter} r1 r2 :
  no_nul (node_id r1) = true → no_nul (node_id r2) = true →
  no_nul (address r1) = true → no_nul (address r2) = true →
  is_u64 (incarnation r1) → is_u64 (incarnation r2) →
  hash_register_input r1 = hash_register_input r2 →
  node_id r1 = node_id r2 ∧ address r1 = address r2 ∧ state r1 = state r2 ∧
  incarnation r1 = incarnation r2.
Proof.
  intros Hn1 Hn2 Ha1 Ha2 Hi1 Hi2 Heq. rewrite !hash_register_input_shape in Heq.
  apply string_app_inj_r_length in Heq as [_ Heq]; [|done].
  apply append_nul_inj in Heq as [Hid Heq]; [|done..].
  apply append_nul_inj in Heq as [Had Heq]; [|done..].
  unfold register_tail in Heq. apply string_app_inj_r_length in Heq as [Hst Heq]; [|done].
  apply string_app_inj_r_length in Heq as [Hinc _];
    [|unfold u64_to_be_bytes; by rewrite !be_bytes_length].
  split_and!; [done|done| |by apply u64_to_be_bytes_inj].
  injection Hst as Hst. apply rank_inj, byte_ascii_inj; [by destruct (state r1)|by destruct (state r2)|done].
Qed.

(** ** Properties *)

(** C21: the tree built with prefilled empty subtrees and a bottom-up pass that
    skips empty nodes is the tree obtained by hashing every node: each query of
    it — the root, any inner node, a leaf bucket, the hash of an empty subtree —
    answers what the recursive definition computes, and [None] out of range. *)
Theorem from_membership_reference `{!HashIter, !MerkleShape} blake3 m depth index :
  let t := from_membership blake3 m in
  root_hash t = subtree blake3 m MERKLE_TREE_DEPTH 0 ∧
  node_hash t depth index
  = (if decide (depth <= MERKLE_TREE_DEPTH ∧ index < 2 ^ depth)%nat
     then Some (subtree blake3 m (MERKLE_TREE_DEPTH - depth) index) else None) ∧
  leaf_entries t index
  = (if decide (index < 2 ^ MERKLE_TREE_DEPTH)%nat then Some (bucket_of blake3 m index) else None) ∧
  empty_subtree_hash t depth
  = (if decide (depth <= MERKLE_TREE_DEPTH)%nat
     then Some (empty_subtree blake3 (MERKLE_TREE_DEPTH - depth)) else None).
Proof.
  split_and!;
    [apply root_hash_spec|apply node_hash_spec|apply leaf_entries_spec|apply empty_subtree_hash_spec].
Qed.

(** The mutation counter guards every structure derived from the tree: if a
    mutation of the membership leaves the counter where it was, the tree it
    would build is the same, node for node, whatever order the maps are
    enumerated in before and after. In particular a pure heartbeat does not
    perturb it. *)
Theorem version_guards_tree (i1 i2 : HashIter) `{!MerkleShape} blake3 m m' :
  keyed m → mutates m m' → version m' = version m →
  @from_membership i1 _ blake3 m' = @from_membership i2 _ blake3 m.
Proof.
  intros Hm Hs Hv. apply from_membership_same; [by eapply keyed_mutates|done|].
  by apply mutates_same_version.
Qed.

Lemma version_guards_tree_witness :
  let i := gmap_hash_iter in
  let m := merge_register Membership.new wit_b in
  @from_membership i lycoris_shape id (heartbeat m "b" 1000).1
  = @from_membership i lycoris_shape id m.
Proof.
  intros i m.
  apply (version_guards_tree i i id m (heartbeat m "b" 1000).1).
  - apply keyed_merge_register, keyed_new.
  - apply mutates_heartbeat.
  - vm_compute. reflexivity.
Defined.

(** The serialization hashed for a register is not injective on its
    metadata: moving an entry from the labels to the annotations, or replacing
    two labels by one whose value contains a separator, leaves the hash
    unchanged for every hash function, although the registers differ. *)
Theorem hash_register_metadata_ambiguous `{!HashIter} blake3 id addr inc hb :
  let base := Register.new id addr inc hb in
  let two := set_labels {["a" := "b"; "c" := "d"]} base in
  let one := set_labels {["a" := String.append "b" (String.append NL "c=d")]} base in
  let in_labels := set_labels {["a" := "b"]} base in
  let in_annotations := set_annotations {["a" := "b"]} base in
  hash_register blake3 two = hash_register blake3 one ∧ two ≠ one ∧
  hash_register blake3 in_labels = hash_register blake3 in_annotations ∧
  in_labels ≠ in_annotations.
Proof.
  intros base two one in_labels in_annotations.
  assert (∀ k v : string, btree_iter {[k := v]} = [(k, v)]) as H1.
  { intros k v. unfold btree_iter. by rewrite map_to_list_singleton. }
  assert (btree_iter {["a" := "b"; "c" := "d"]} = [("a", "b"); ("c", "d")]) as H2 by (vm_compute; done).
  unfold hash_register, hash_register_input. repeat rewrite sort_hash_iter.
  subst two one in_labels in_annotations. simpl labels. simpl annotations.
  rewrite H2, !H1. split_and!.
  - f_equal. f_equal. unfold update_entry, update. cbn [foldl fst snd].
    rewrite !string_app_assoc. done.
  - intros Heq. apply (f_equal (λ r, labels r !! "c")) in Heq. by vm_compute in Heq.
  - f_equal.
  - intros Heq. apply (f_equal (λ r, labels r !! "a")) in Heq. by vm_compute in Heq.
Qed.

(** Away from the metadata the serialization is faithful: two registers
    whose ids and addresses hold no zero byte, and which do not collide under
    the hash, have the same hash only if id, address, state and incarnation
    agree; so every transition the failure detector makes is visible in the
    tree. *)
Theorem hash_register_distinguishes `{!HashIter} blake3 r1 r2 :
  no_nul (node_id r1) = true → no_nul (node_id r2) = true →
  no_nul (address r1) = true → no_nul (address r2) = true →
  is_u64 (incarnation r1) → is_u64 (incarnation r2) →
  (blake3 (hash_register_input r1) = blake3 (hash_register_input r2) →
   hash_register_input r1 = hash_register_input r2) →
  hash_register blake3 r1 = hash_register blake3 r2 →
  node_id r1 = node_id r2 ∧ address r1 = address r2 ∧ state r1 = state r2 ∧
  incarnation r1 = incarnation r2.
Proof. intros ?????? Hcoll Hh. apply hash_register_input_inj; auto. Qed.

Lemma hash_register_distinguishes_witness :
  let i := gmap_hash_iter in
  hash_register id wit_a ≠ hash_register id wit_a'.
Proof.
  intros i Hh.
  assert (state wit_a = state wit_a') as Hs; [|by vm_compute in Hs].
  apply (hash_register_distinguishes id wit_a wit_a');
    [reflexivity..|unfold is_u64, u64_max; simpl; lia|unfold is_u64, u64_max; simpl; lia
    |done|exact Hh].
Defined.
