(* ===== verification/MerkleDiff.v ===== *)
(** * The Merkle diff protocol ([crates/membership/src/sync.rs])

    The two-round exchange that locates the members on which two trees
    disagree, both sides of it: the session that drives it and the answers
    served to it. *)

From S2P Require Import Prelude.
From S2P Require Import Register.
From S2P Require Import Membership.
From S2P Require Import Merkle.

Record NodeRef : Type := mkNodeRef { ref_depth : nat; ref_index : nat }.

#[export] Instance NodeRef_eq_dec : EqDecision NodeRef.
Proof. solve_decision. Defined.

Record RemoteNode : Type := mkRemoteNode {
  rn_depth : nat;
  rn_index : nat;
  rn_hash : Hash;
  rn_entries : option (list (string * Hash));
}.

Record DiffResult : Type := mkDiffResult {
  dr_need_from_remote : list string;
  dr_need_from_local : list string;
}.

(** A session; the code borrows the local tree. *)
Record MerkleDiff : Type := mkMerkleDiff {
  md_tree : MerkleTree;
  md_need_from_local : list string;
  md_divergent : list nat;
}.

Definition new (t : MerkleTree) : MerkleDiff := mkMerkleDiff t [] [].

(** The two-pointer walk: each call looks at the unread suffixes of both
    buckets; the results are [(need_from_remote, need_from_local)]. *)
Fixpoint walk (local : list (string * Hash)) : list (string * Hash) → list string * list string :=
  fix walk_remote remote :=
    match local, remote with
    | l :: local', r :: remote' =>
        match ord_cmp l.1 r.1 with
        | Lt => let res := walk local' remote in (res.1, l.1 :: res.2)
        | Gt => let res := walk_remote remote' in (r.1 :: res.1, res.2)
        | Eq =>
            let res := walk local' remote' in
            if decide (l.2 ≠ r.2) then (l.1 :: res.1, l.1 :: res.2) else res
        end
    | _, _ => (remote.*1, local.*1)
    end.

Definition diff_leaf_buckets (local remote : list (string * Hash)) : list string * list string :=
  let remote_sorted := sort_by_key fst remote in
  walk local remote_sorted.

Section diff.
Context `{!HashIter} `{!MerkleShape} (blake3 : string → Hash).

Definition top_refs : list NodeRef :=
  depth ← seq 0 (S SPLIT_DEPTH); mkNodeRef depth <$> seq 0 (2 ^ depth).

(** [(index << (MERKLE_TREE_DEPTH - SPLIT_DEPTH)) | leaf] *)
Definition leaf_of (index leaf : nat) : nat :=
  Nat.lor (Nat.shiftl index (MERKLE_TREE_DEPTH - SPLIT_DEPTH)) leaf.

Definition leaves_of (index : nat) : list nat :=
  leaf_of index <$> seq 0 (2 ^ (MERKLE_TREE_DEPTH - SPLIT_DEPTH)).

Definition collect_hashes (remote : list RemoteNode) : gmap (nat * nat) Hash :=
  foldl (λ m node, <[(rn_depth node, rn_index node) := rn_hash node]> m) ∅ remote.

(** One iteration of the loop over the subtrees at [SPLIT_DEPTH]. *)
Definition plan_subtree (remote_hashes : gmap (nat * nat) Hash) (empty_split : Hash)
    (acc : MerkleDiff * list NodeRef) (index : nat) : MerkleDiff * list NodeRef :=
  let '(self, refs) := acc in
  let local_hash := default empty_split (node_hash (md_tree self) SPLIT_DEPTH index) in
  let remote_hash := default empty_split (remote_hashes !! (SPLIT_DEPTH, index)) in
  if decide (local_hash = remote_hash) then (self, refs)
  else if decide (remote_hash = empty_split) then
    (mkMerkleDiff (md_tree self)
       (md_need_from_local self ++ collect_node_ids (md_tree self) SPLIT_DEPTH index)
       (md_divergent self), refs)
  else
    (mkMerkleDiff (md_tree self) (md_need_from_local self) (md_divergent self ++ [index]),
     refs ++ (mkNodeRef MERKLE_TREE_DEPTH <$> leaves_of index)).

Definition plan_leaf_refs (self : MerkleDiff) (remote : list RemoteNode)
    : MerkleDiff * list NodeRef :=
  let remote_hashes := collect_hashes remote in
  let empty_split := default (hash_empty blake3) (empty_subtree_hash (md_tree self) SPLIT_DEPTH) in
  foldl (plan_subtree remote_hashes empty_split) (self, []) (seq 0 (2 ^ SPLIT_DEPTH)).

(** Round two: the leaf hashes and the leaf entries of the reply. *)
Definition collect_leaves (remote : list RemoteNode)
    : gmap nat Hash * gmap nat (list (string * Hash)) :=
  foldl (λ acc node,
      if decide (rn_depth node ≠ MERKLE_TREE_DEPTH) then acc
      else (<[rn_index node := rn_hash node]> acc.1,
            match rn_entries node with
            | Some entries => <[rn_index node := entries]> acc.2
            | None => acc.2
            end))
    (∅, ∅) remote.

Definition finish_leaf (t : MerkleTree) (leaf_hashes : gmap nat Hash)
    (leaf_entries_of : gmap nat (list (string * Hash)))
    (acc : list string * list string) (index : nat) : list string * list string :=
  let '(need_from_remote, need_from_local) := acc in
  let local_hash := default (hash_empty blake3) (node_hash t MERKLE_TREE_DEPTH index) in
  let remote_hash := default (hash_empty blake3) (leaf_hashes !! index) in
  if decide (local_hash = remote_hash) then acc
  else
    let local_bucket := default [] (leaf_entries t index) in
    match leaf_entries_of !! index with
    | Some remote_bucket =>
        let '(pull, push) := diff_leaf_buckets local_bucket remote_bucket in
        (need_from_remote ++ pull, need_from_local ++ push)
    | None => (need_from_remote, need_from_local ++ local_bucket.*1)
    end.

Definition finish (self : MerkleDiff) (remote : list RemoteNode) : DiffResult :=
  let '(leaf_hashes, leaf_entries_of) := collect_leaves remote in
  let '(need_from_remote, need_from_local) :=
    foldl (finish_leaf (md_tree self) leaf_hashes leaf_entries_of)
      ([], md_need_from_local self)
      (split_index ← md_divergent self; leaves_of split_index) in
  mkDiffResult (dedup (ord_sort need_from_remote)) (dedup (ord_sort need_from_local)).

(** The serving side. *)
Definition answer_ref (t : MerkleTree) (r : NodeRef) : option RemoteNode :=
  match node_hash t (ref_depth r) (ref_index r) with
  | None => None
  | Some hash =>
      let entries :=
        if decide (ref_depth r = MERKLE_TREE_DEPTH)
        then Some (default [] (leaf_entries t (ref_index r))) else None in
      Some (mkRemoteNode (ref_depth r) (ref_index r) hash entries)
  end.

Definition answer_refs (t : MerkleTree) (refs : list NodeRef) : list RemoteNode :=
  omap (answer_ref t) refs.

(** [ClusterSync::merkle_diff_with_peer] (daemon/src/sync/antientropy.rs) with a
    peer that answers from the tree [remote]. *)
Definition merkle_diff_with_peer (local remote : MerkleTree) : DiffResult :=
  let diff := new local in
  let top := answer_refs remote top_refs in
  let '(diff, leaf_refs) := plan_leaf_refs diff top in
  let bottom := if decide (leaf_refs = []) then [] else answer_refs remote leaf_refs in
  finish diff bottom.
End diff.

(** ** The two-pointer walk *)

Abbreviation entry_lt := (λ e1 e2 : string * Hash, ord_lt e1.1 e2.1).

Lemma walk_spec local remote id :
  StronglySorted entry_lt local → StronglySorted entry_lt remote →
  (id ∈ (walk local remote).1 ↔ ∃ h, (id, h) ∈ remote ∧ (id, h) ∉ local) ∧
  (id ∈ (walk local remote).2 ↔ ∃ h, (id, h) ∈ local ∧ (id, h) ∉ remote).
Proof.
  intros Hl. revert remote. induction Hl as [|[a ha] local Hl IHl Hall]; intros remote Hr.
  - assert ((walk [] remote) = (remote.*1, [])) as -> by by destruct remote.
    setoid_rewrite elem_of_nil. simpl. rewrite elem_of_fst. set_solver.
  - induction Hr as [|[b hb] remote Hr IHr Hallr].
    + change (walk ((a, ha) :: local) []) with ([] : list string, ((a, ha) :: local).*1).
      setoid_rewrite elem_of_nil. cbn [fst snd]. rewrite elem_of_fst. set_solver.
    + cbn -[ord_cmp decide]. change (fst (a, ha)) with a. change (fst (b, hb)) with b.
      rewrite Forall_forall in Hall, Hallr. simpl in Hall, Hallr.
      assert (∀ h, (a, h) ∉ local) as Ha.
      { intros h Hin. apply Hall in Hin. by apply (irreflexivity ord_lt) in Hin. }
      assert (∀ h, (b, h) ∉ remote) as Hb.
      { intros h Hin. apply Hallr in Hin. by apply (irreflexivity ord_lt) in Hin. }
      destruct (ord_cmp a b) eqn:E.
      * apply ord_cmp_eq in E as ->. destruct (IHl remote Hr) as [IH1 IH2].
        case_decide as Hh; simpl; rewrite ?elem_of_cons, IH1, IH2; set_solver.
      * destruct (IHl ((b, hb) :: remote)) as [IH1 IH2]; [by constructor; [|rewrite Forall_forall]|].
        assert (∀ h, (a, h) ∉ (b, hb) :: remote) as Hna.
        { intros h [Heq|Hin]%elem_of_cons; [simplify_eq; by apply (irreflexivity ord_lt) in E|].
          apply Hallr in Hin. simpl in Hin. apply (irreflexivity ord_lt a). by etrans. }
        simpl. rewrite elem_of_cons, IH1, IH2. set_solver.
      * apply ord_cmp_gt_lt in E. destruct IHr as [IH1 IH2].
        assert (∀ h, (b, h) ∉ (a, ha) :: local) as Hnb.
        { intros h [Heq|Hin]%elem_of_cons; [simplify_eq; by apply (irreflexivity ord_lt) in E|].
          apply Hall in Hin. simpl in Hin. apply (irreflexivity ord_lt b). by etrans. }
        split; [change (id ∈ b :: (walk ((a, ha) :: local) remote).1 ↔ ∃ h, (id, h) ∈ (b, hb) :: remote ∧ (id, h) ∉ (a, ha) :: local)
               |change (id ∈ (walk ((a, ha) :: local) remote).2 ↔ ∃ h, (id, h) ∈ (a, ha) :: local ∧ (id, h) ∉ (b, hb) :: remote)].
        -- rewrite elem_of_cons, IH1. set_solver.
        -- rewrite IH2. set_solver.
Qed.

Lemma key_sorted_strict (l : list (string * Hash)) :
  StronglySorted (key_le fst) l → NoDup l.*1 → StronglySorted entry_lt l.
Proof.
  induction 1 as [|[k h] l Hs IH Hall]; intros Hnd; [constructor|].
  rewrite fmap_cons, NoDup_cons in Hnd. destruct Hnd as [Hk Hnd]. constructor; [auto|].
  rewrite Forall_forall in *. intros [k' h'] Hin. pose proof (Hall _ Hin) as Hle.
  unfold key_le in Hle. apply ord_le_lteq in Hle as [Hlt|Heq]; [done|].
  simpl in Heq. subst. exfalso. apply Hk, elem_of_fst. eauto.
Qed.

(** The reconciliation of two buckets: [local] must be sorted, [remote] need not be. *)
Lemma diff_leaf_buckets_spec local remote id :
  StronglySorted (key_le fst) local → NoDup local.*1 → NoDup remote.*1 →
  (id ∈ (diff_leaf_buckets local remote).1 ↔ ∃ h, (id, h) ∈ remote ∧ (id, h) ∉ local) ∧
  (id ∈ (diff_leaf_buckets local remote).2 ↔ ∃ h, (id, h) ∈ local ∧ (id, h) ∉ remote).
Proof.
  intros Hl Hndl Hndr. unfold diff_leaf_buckets.
  destruct (walk_spec local (sort_by_key fst remote) id) as [H1 H2].
  - by apply key_sorted_strict.
  - apply key_sorted_strict; [apply sort_by_key_sorted|]. by rewrite sort_by_key_perm.
  - rewrite H1, H2. by setoid_rewrite (sort_by_key_perm fst remote).
Qed.

(** ** Reading the replies *)

Section replies.
Context `{!HashIter} `{!MerkleShape} (blake3 : string → Hash).
Abbreviation D := MERKLE_TREE_DEPTH.

(** Later results for a node overwrite earlier ones; when the results are
    consistent the order does not matter. *)
Lemma collect_hashes_lookup (f : nat * nat → Hash) (l : list RemoteNode) (m : gmap (nat * nat) Hash) k :
  (∀ n, n ∈ l → rn_hash n = f (rn_depth n, rn_index n)) →
  foldl (λ m node, <[(rn_depth node, rn_index node) := rn_hash node]> m) m l !! k
  = if decide (k ∈ (λ n, (rn_depth n, rn_index n)) <$> l) then Some (f k) else m !! k.
Proof.
  revert m. induction l as [|n l IH]; intros m Hf.
  - case_decide as Hk; [by apply elem_of_nil in Hk|done].
  - cbn [foldl]. rewrite fmap_cons, IH by (intros; apply Hf; by right). rewrite lookup_insert, (Hf n) by by left.
    repeat case_decide; rewrite ?elem_of_cons in *; naive_solver.
Qed.

Lemma collect_leaves_lookup (f : nat → Hash) (g : nat → list (string * Hash)) (l : list RemoteNode)
    (acc : gmap nat Hash * gmap nat (list (string * Hash))) i :
  (∀ n, n ∈ l → rn_depth n = D ∧ rn_hash n = f (rn_index n) ∧ rn_entries n = Some (g (rn_index n))) →
  let acc' := foldl (λ acc node,
      if decide (rn_depth node ≠ D) then acc
      else (<[rn_index node := rn_hash node]> acc.1,
            match rn_entries node with
            | Some entries => <[rn_index node := entries]> acc.2
            | None => acc.2
            end)) acc l in
  acc'.1 !! i = (if decide (i ∈ rn_index <$> l) then Some (f i) else acc.1 !! i) ∧
  acc'.2 !! i = (if decide (i ∈ rn_index <$> l) then Some (g i) else acc.2 !! i).
Proof.
  revert acc. induction l as [|n l IH]; intros acc Hf; cbv zeta.
  - case_decide as Hk; [by apply elem_of_nil in Hk|done].
  - cbn [foldl]. rewrite fmap_cons. destruct (Hf n) as (Hd & Hh & He); [by left|]. rewrite decide_False by naive_solver.
    destruct (IH (<[rn_index n:=rn_hash n]> acc.1, <[rn_index n:=g (rn_index n)]> acc.2)) as [H1 H2];
      [intros; apply Hf; by right|].
    rewrite He, H1, H2. cbn [fst snd]. rewrite !lookup_insert, Hh.
    split; repeat case_decide; rewrite ?elem_of_cons in *; naive_solver.
Qed.

Lemma answer_refs_index m refs :
  (∀ r, r ∈ refs → (ref_depth r <= D)%nat ∧ (ref_index r < 2 ^ ref_depth r)%nat) →
  (λ n, mkNodeRef (rn_depth n) (rn_index n)) <$> answer_refs (from_membership blake3 m) refs = refs.
Proof.
  induction refs as [|r refs IH]; intros Hr; [done|].
  unfold answer_refs, answer_ref in *. cbn [omap list_omap]. rewrite node_hash_spec.
  rewrite decide_True by (apply Hr; by left). cbn [fmap list_fmap]. cbn.
  f_equal; [by destruct r|]. apply IH. intros; apply Hr. by right.
Qed.

Lemma elem_of_answer_refs m refs n :
  n ∈ answer_refs (from_membership blake3 m) refs →
  mkNodeRef (rn_depth n) (rn_index n) ∈ refs ∧
  (rn_depth n <= D ∧ rn_index n < 2 ^ rn_depth n)%nat ∧
  rn_hash n = subtree blake3 m (D - rn_depth n) (rn_index n) ∧
  rn_entries n = if decide (rn_depth n = D) then Some (bucket_of blake3 m (rn_index n)) else None.
Proof.
  unfold answer_refs. rewrite list_elem_of_omap. intros (r & Hr & Ha). unfold answer_ref in Ha.
  rewrite node_hash_spec in Ha. case_decide as Hrange; [|done].
  rewrite leaf_entries_spec in Ha. injection Ha as <-. simpl.
  split_and!; try naive_solver; [by destruct r|]. case_decide as Hd; [|done].
  rewrite decide_True; [done|]. rewrite <- Hd. naive_solver.
Qed.

Lemma elem_of_top_refs d i :
  mkNodeRef d i ∈ top_refs ↔ (d <= SPLIT_DEPTH ∧ i < 2 ^ d)%nat.
Proof.
  unfold top_refs. rewrite list_elem_of_bind. split.
  - intros (d' & Hin & Hd). apply list_elem_of_fmap in Hin as (i' & Heq & Hi).
    rewrite elem_of_seq in Hd, Hi. simplify_eq. lia.
  - intros [Hd Hi]. exists d. rewrite elem_of_seq. split; [|lia].
    apply list_elem_of_fmap_2, elem_of_seq. lia.
Qed.

Lemma lor_shiftl_add a b n : (b < 2 ^ n)%nat → Nat.lor (Nat.shiftl a n) b = (a * 2 ^ n + b)%nat.
Proof.
  intros Hb. rewrite Nat.shiftl_mul_pow2.
  assert (Nat.land (a * 2 ^ n) b = 0)%nat as Hland.
  { apply Nat.bits_inj. intros k. rewrite Nat.land_spec, Nat.bits_0.
    destruct (decide (k < n)%nat); [by rewrite Nat.mul_pow2_bits_low|].
    rewrite <- (Nat.mod_small b (2 ^ n)) by done.
    rewrite Nat.mod_pow2_bits_high by lia. apply andb_false_r. }
  by rewrite <- Nat.lxor_lor, <- Nat.add_nocarry_lxor by done.
Qed.

Lemma leaf_of_spec index leaf :
  (leaf < 2 ^ (D - SPLIT_DEPTH))%nat →
  leaf_of index leaf = (index * 2 ^ (D - SPLIT_DEPTH) + leaf)%nat.
Proof. apply lor_shiftl_add. Qed.

(** The leaves below a subtree at the split depth. *)
Lemma elem_of_leaves_of index i :
  i ∈ leaves_of index ↔ (i / 2 ^ (D - SPLIT_DEPTH) = index)%nat.
Proof.
  unfold leaves_of. rewrite list_elem_of_fmap. pose proof (pow2_pos (D - SPLIT_DEPTH)) as Hpos.
  split.
  - intros (leaf & -> & Hl). apply elem_of_seq in Hl. rewrite leaf_of_spec by lia.
    rewrite Nat.div_add_l, Nat.div_small by lia. lia.
  - intros <-. exists (i mod 2 ^ (D - SPLIT_DEPTH))%nat.
    pose proof (Nat.mod_upper_bound i (2 ^ (D - SPLIT_DEPTH))).
    rewrite elem_of_seq, leaf_of_spec by lia. split; [|lia].
    rewrite (Nat.mul_comm (i / _)). apply Nat.div_mod_eq.
Qed.

Lemma pow_split : (2 ^ D = 2 ^ SPLIT_DEPTH * 2 ^ (D - SPLIT_DEPTH))%nat.
Proof. rewrite <- Nat.pow_add_r. f_equal. pose proof split_depth_le. lia. Qed.

Lemma leaf_in_split i : (i < 2 ^ D)%nat → (i / 2 ^ (D - SPLIT_DEPTH) < 2 ^ SPLIT_DEPTH)%nat.
Proof. intros Hi. apply Nat.Div0.div_lt_upper_bound. rewrite Nat.mul_comm, <- pow_split. done. Qed.

Lemma leaf_bound index i :
  (index < 2 ^ SPLIT_DEPTH)%nat → i ∈ leaves_of index → (i < 2 ^ D)%nat.
Proof.
  rewrite elem_of_leaves_of, pow_split. intros Hi <-. pose proof (pow2_pos (D - SPLIT_DEPTH)).
  pose proof (Nat.mul_succ_div_gt i (2 ^ (D - SPLIT_DEPTH))). nia.
Qed.

(** [collect_node_ids] lists the ids of the buckets below a node. *)
Lemma elem_of_collect_below m h i id :
  (i < 2 ^ (D - h))%nat → (h <= D)%nat →
  id ∈ collect_below h (from_membership blake3 m) i ↔
    ∃ j, (j / 2 ^ h = i)%nat ∧ id ∈ (bucket_of blake3 m j).*1.
Proof.
  revert i. induction h as [|h IH]; intros i Hi Hh; cbn [collect_below].
  - rewrite Nat.sub_0_r in Hi. rewrite leaf_entries_spec, decide_True by done.
    setoid_rewrite Nat.div_1_r. naive_solver.
  - assert (2 ^ (D - h) = 2 * 2 ^ (D - S h))%nat as Hpow.
    { rewrite <- Nat.pow_succ_r'. f_equal. lia. }
    rewrite elem_of_app, !IH by lia. rewrite Nat.pow_succ_r'. split.
    + intros [(j & Hj & Hin)|(j & Hj & Hin)]; exists j; (split; [|done]);
        rewrite Nat.mul_comm, <- Nat.Div0.div_div, Hj;
        [rewrite Nat.mul_comm|rewrite (Nat.mul_comm 2)]; [by rewrite Nat.div_mul|].
      by rewrite Nat.div_add_l, Nat.add_0_r.
    + intros (j & Hj & Hin). rewrite Nat.mul_comm, <- Nat.Div0.div_div in Hj.
      pose proof (Nat.div_mod_eq (j / 2 ^ h) 2). pose proof (Nat.mod_upper_bound (j / 2 ^ h) 2).
      destruct (decide (j / 2 ^ h = 2 * i)%nat); [left; eauto|right; exists j; split; [lia|done]].
Qed.
End replies.

(** ** Injectivity of the hashed byte strings *)

Definition concat_entries (bucket : list (string * Hash)) : string :=
  foldr (λ e acc, String.append e.1 (String.append NUL (String.append e.2 acc))) "" bucket.

Definition entry_wf (e : string * Hash) : Prop := no_nul e.1 = true ∧ String.length e.2 = 32%nat.

Lemma foldl_entries_concat bucket acc :
  foldl (λ hasher '(id, h), update (update (update hasher id) NUL) h) acc bucket
  = String.append acc (concat_entries bucket).
Proof.
  revert acc. induction bucket as [|[id h] bucket IH]; intros acc; cbn [foldl].
  - induction acc as [|c acc IHa]; [done|]. exact (f_equal (String c) IHa).
  - rewrite IH. unfold update. cbn [concat_entries foldr fst snd]. by rewrite !string_app_assoc.
Qed.

Lemma concat_entries_inj b1 b2 :
  Forall entry_wf b1 → Forall entry_wf b2 → concat_entries b1 = concat_entries b2 → b1 = b2.
Proof.
  intros H1. revert b2. induction H1 as [|[id1 h1] b1 [Hn1 Hl1] H1 IH]; intros b2 H2 Heq.
  - destruct H2 as [|[id2 h2] b2 _ _]; [done|]. by destruct id2.
  - destruct H2 as [|[id2 h2] b2 [Hn2 Hl2] H2]; [by destruct id1|].
    cbn [concat_entries foldr fst snd] in *. apply append_nul_inj in Heq as [-> Heq]; [|done..].
    apply string_app_inj_r_length in Heq as [-> Heq]; [|congruence].
    by rewrite (IH b2 H2 Heq).
Qed.

Lemma leaf_bucket_input_inj b1 b2 :
  Forall entry_wf b1 → Forall entry_wf b2 → leaf_bucket_input b1 = leaf_bucket_input b2 → b1 = b2.
Proof.
  intros H1 H2. destruct b1 as [|e1 b1], b2 as [|e2 b2]; [done|..];
    unfold leaf_bucket_input; rewrite ?foldl_entries_concat; [done..|].
  intros Heq. by apply concat_entries_inj; [..|injection Heq].
Qed.

Lemma inner_input_inj l1 r1 l2 r2 :
  String.length l1 = String.length l2 → inner_input l1 r1 = inner_input l2 r2 → l1 = l2 ∧ r1 = r2.
Proof.
  unfold inner_input, update. rewrite !string_app_assoc. intros Hl Heq.
  apply string_app_inj_r_length; [done|]. by injection Heq.
Qed.

Lemma N_lor_shiftl_bound a b k n :
  (a < 2 ^ k)%N → (b < 2 ^ n)%N → (N.lor (N.shiftl a n) b < 2 ^ (k + n))%N.
Proof.
  intros Ha Hb. rewrite N.shiftl_mul_pow2.
  assert (N.land (a * 2 ^ n) b = 0)%N as Hland.
  { apply N.bits_inj. intros j. rewrite N.land_spec, N.bits_0.
    destruct (decide (j < n)%N); [by rewrite N.mul_pow2_bits_low|].
    rewrite <- (N.mod_small b (2 ^ n)) by done.
    rewrite N.mod_pow2_bits_high by lia. apply andb_false_r. }
  rewrite <- N.lxor_lor, <- N.add_nocarry_lxor by done. rewrite N.pow_add_r. nia.
Qed.

Lemma foldl_bits_bound (l : list Ascii.ascii) acc k :
  (acc < 2 ^ k)%N →
  (foldl (λ idx byte, N.lor (N.shiftl idx 8) (Ascii.N_of_ascii byte)) acc l
   < 2 ^ (k + 8 * N.of_nat (length l)))%N.
Proof.
  revert acc k. induction l as [|c l IH]; intros acc k Hacc; cbn [foldl length].
  - by rewrite N.mul_0_r, N.add_0_r.
  - eapply N.lt_le_trans; [apply (IH _ (k + 8)%N)|apply N.pow_le_mono_r; lia].
    apply N_lor_shiftl_bound; [done|]. apply Ascii.N_ascii_bounded.
Qed.

(** The index of a bucket is always within the tree. *)
Lemma leaf_index_bound `{!MerkleShape} blake3 id :
  (leaf_index blake3 id < 2 ^ MERKLE_TREE_DEPTH)%nat.
Proof.
  unfold leaf_index. cbv zeta.
  set (D := MERKLE_TREE_DEPTH). set (l := take (D / 8) _).
  pose proof (foldl_bits_bound l 0 0 ltac:(done)) as Hb. rewrite N.add_0_l in Hb.
  assert (length l <= D / 8)%nat as Hl by (subst l; rewrite length_take; lia).
  pose proof (Nat.div_mod_eq D 8) as HD. pose proof (Nat.mod_upper_bound D 8) as Hm.
  set (idx := foldl _ _ l) in *.
  assert (idx < 2 ^ (8 * N.of_nat (D / 8)))%N as Hidx.
  { eapply N.lt_le_trans; [exact Hb|]. apply N.pow_le_mono_r; lia. }
  assert (2 ^ D = N.to_nat (2 ^ N.of_nat D))%nat as HN by (by rewrite N2Nat.inj_pow, Nat2N.id).
  rewrite HN. case_decide as He.
  - set (b := default _ _). pose proof (Ascii.N_ascii_bounded b) as Hbb.
    set (e := (D mod 8)%nat) in *.
    assert (N.shiftr (Ascii.N_of_ascii b) (8 - N.of_nat e) < 2 ^ N.of_nat e)%N as Hs.
    { rewrite N.shiftr_div_pow2. apply N.Div0.div_lt_upper_bound. rewrite <- N.pow_add_r.
      replace (8 - N.of_nat e + N.of_nat e)%N with 8%N by lia. exact Hbb. }
    pose proof (N_lor_shiftl_bound _ _ _ _ Hidx Hs) as Hlor.
    replace (8 * N.of_nat (D / 8) + N.of_nat e)%N with (N.of_nat D) in Hlor by lia. lia.
  - replace (8 * N.of_nat (D / 8))%N with (N.of_nat D) in Hidx by lia. lia.
Qed.

(** ** Hashes that determine what they cover *)

Section exact.
Context `{!HashIter} `{!MerkleShape} (blake3 : string → Hash).
Abbreviation D := MERKLE_TREE_DEPTH.

(** Every byte string that is hashed to build the nodes of a tree. *)
Definition tree_inputs (m : Membership) : list string :=
  ((λ i, leaf_bucket_input (bucket_of blake3 m i)) <$> seq 0 (2 ^ D)) ++
  (h ← seq 0 D;
   (λ i, inner_input (subtree blake3 m h (2 * i)) (subtree blake3 m h (2 * i + 1)))
     <$> seq 0 (2 ^ (D - S h))).

(** The hash does not collide on the given inputs. *)
Definition collision_free (inputs : list string) : Prop :=
  ∀ s1 s2, s1 ∈ inputs → s2 ∈ inputs → blake3 s1 = blake3 s2 → s1 = s2.

Definition ids_without_nul (m : Membership) : Prop :=
  ∀ id r, get m id = Some r → no_nul id = true.

Lemma leaf_input_in m i :
  (i < 2 ^ D)%nat → leaf_bucket_input (bucket_of blake3 m i) ∈ tree_inputs m.
Proof.
  intros Hi. apply elem_of_app. left.
  apply (list_elem_of_fmap_2 (λ i, leaf_bucket_input (bucket_of blake3 m i))), elem_of_seq. lia.
Qed.

Lemma inner_input_in m h i :
  (h < D)%nat → (i < 2 ^ (D - S h))%nat →
  inner_input (subtree blake3 m h (2 * i)) (subtree blake3 m h (2 * i + 1)) ∈ tree_inputs m.
Proof.
  intros Hh Hi. apply elem_of_app. right. apply list_elem_of_bind. exists h.
  split; [|apply elem_of_seq; lia]. apply list_elem_of_fmap. exists i.
  split; [done|apply elem_of_seq; lia].
Qed.

Lemma hash_leaf_bucket_input b : hash_leaf_bucket blake3 b = blake3 (leaf_bucket_input b).
Proof. by destruct b. Qed.

Lemma bucket_of_new i : bucket_of blake3 Membership.new i = [].
Proof.
  destruct (bucket_of blake3 Membership.new i) as [|[id h] b] eqn:E; [done|].
  assert ((id, h) ∈ bucket_of blake3 Membership.new i) as Hin by (rewrite E; by left).
  apply elem_of_bucket in Hin as (r & Hr & _); [|apply keyed_new]. done.
Qed.

Lemma empty_subtree_new h i : empty_subtree blake3 h = subtree blake3 Membership.new h i.
Proof.
  revert i. induction h as [|h IH]; intros i; cbn [empty_subtree subtree].
  - by rewrite bucket_of_new.
  - by rewrite <- !IH.
Qed.

Context (blake3_length : ∀ s, String.length (blake3 s) = 32%nat).

Lemma subtree_length m h i : String.length (subtree blake3 m h i) = 32%nat.
Proof. destruct h; cbn [subtree]; [rewrite hash_leaf_bucket_input|]; apply blake3_length. Qed.

Lemma bucket_wf m i : keyed m → ids_without_nul m → Forall entry_wf (bucket_of blake3 m i).
Proof.
  intros Hm Hn. apply Forall_forall. intros [id h] Hin.
  apply elem_of_bucket in Hin as (r & Hr & -> & _); [|done].
  split; [by eapply Hn|apply blake3_length].
Qed.

(** Two nodes with one hash cover the same entries. *)
Lemma subtree_inj m1 m2 h i j :
  keyed m1 → keyed m2 → ids_without_nul m1 → ids_without_nul m2 →
  collision_free (tree_inputs m1 ++ tree_inputs m2) →
  (h <= D)%nat → (i < 2 ^ (D - h))%nat →
  subtree blake3 m1 h i = subtree blake3 m2 h i → (j / 2 ^ h = i)%nat →
  bucket_of blake3 m1 j = bucket_of blake3 m2 j.
Proof.
  intros Hk1 Hk2 Hn1 Hn2 Hcf. revert i. induction h as [|h IH]; intros i Hh Hi Heq Hj.
  - rewrite Nat.div_1_r in Hj. subst j. cbn [subtree] in Heq. rewrite Nat.sub_0_r in Hi.
    rewrite !hash_leaf_bucket_input in Heq. apply leaf_bucket_input_inj; [by apply bucket_wf..|].
    apply Hcf; [apply elem_of_app; left|apply elem_of_app; right|done]; by apply leaf_input_in.
  - cbn [subtree] in Heq. apply Hcf in Heq;
      [|apply elem_of_app; left; apply inner_input_in; lia
       |apply elem_of_app; right; apply inner_input_in; lia].
    apply inner_input_inj in Heq as [Hl Hr]; [|by rewrite !subtree_length].
    rewrite Nat.pow_succ_r', Nat.mul_comm, <- Nat.Div0.div_div in Hj.
    pose proof (Nat.div_mod_eq (j / 2 ^ h) 2). pose proof (Nat.mod_upper_bound (j / 2 ^ h) 2).
    assert (2 ^ (D - h) = 2 * 2 ^ (D - S h))%nat as Hpow.
    { rewrite <- Nat.pow_succ_r'. f_equal. lia. }
    destruct (decide (j / 2 ^ h = 2 * i)%nat).
    + apply (IH (2 * i)%nat); [lia|lia|done|done].
    + apply (IH (2 * i + 1)%nat); [lia|lia|done|lia].
Qed.
End exact.

Lemma exists_in_cons {A} (x : A) (l : list A) (P : A → Prop) :
  (∃ y, y ∈ x :: l ∧ P y) ↔ P x ∨ ∃ y, y ∈ l ∧ P y.
Proof. setoid_rewrite elem_of_cons. naive_solver. Qed.

(** ** Round one *)

Section rounds.
Context `{!HashIter} `{!MerkleShape} (blake3 : string → Hash).
Abbreviation D := MERKLE_TREE_DEPTH.
Abbreviation H := (D - SPLIT_DEPTH)%nat.

Lemma plan_fold (t : MerkleTree) hashes E (L R : nat → Hash) :
  ∀ l need0 div0 refs0 self refs,
  (∀ i, i ∈ l → default E (node_hash t SPLIT_DEPTH i) = L i ∧
                default E (hashes !! (SPLIT_DEPTH, i)) = R i) →
  foldl (plan_subtree hashes E) (mkMerkleDiff t need0 div0, refs0) l = (self, refs) →
  md_tree self = t ∧
  (∀ i, i ∈ md_divergent self ↔ i ∈ div0 ∨ (i ∈ l ∧ L i ≠ R i ∧ R i ≠ E)) ∧
  (∀ id, id ∈ md_need_from_local self ↔ id ∈ need0 ∨
     ∃ i, i ∈ l ∧ L i ≠ R i ∧ R i = E ∧ id ∈ collect_node_ids t SPLIT_DEPTH i) ∧
  (∀ r, r ∈ refs ↔ r ∈ refs0 ∨
     ∃ i, i ∈ l ∧ L i ≠ R i ∧ R i ≠ E ∧ ∃ j, r = mkNodeRef D j ∧ j ∈ leaves_of i).
Proof.
  intros l. induction l as [|i l IH]; intros need0 div0 refs0 self refs Hl Heq.
  - cbn [foldl] in Heq. simplify_eq. cbn.
    split_and!; [done|..]; intros ?; setoid_rewrite elem_of_nil; naive_solver.
  - destruct (Hl i) as [HL HR]; [by left|].
    cbn [foldl] in Heq. unfold plan_subtree at 2 in Heq.
    cbn [md_tree md_need_from_local md_divergent] in Heq. rewrite HL, HR in Heq.
    destruct (decide (L i = R i)) as [HLR|HLR]; [|destruct (decide (R i = E)) as [HE|HE]];
      (apply IH in Heq as (Ht & Hd & Hn & Hr); [|intros j Hj; apply Hl; by right]);
      (split_and!; [done|intros k; rewrite Hd|intros k; rewrite Hn|intros k; rewrite Hr]);
      rewrite ?exists_in_cons, ?elem_of_app, ?elem_of_cons, ?elem_of_nil, ?list_elem_of_fmap;
      first [tauto|clear IH Hl; naive_solver].
Qed.

(** ** Round two *)

Lemma finish_fold ml mr lh le :
  ∀ l from0 local0 from local,
  (∀ i, i ∈ l → (i < 2 ^ D)%nat ∧ lh !! i = Some (subtree blake3 mr 0 i) ∧
                le !! i = Some (bucket_of blake3 mr i)) →
  foldl (finish_leaf blake3 (from_membership blake3 ml) lh le) (from0, local0) l = (from, local) →
  (∀ id, id ∈ from ↔ id ∈ from0 ∨ ∃ i, i ∈ l ∧ subtree blake3 ml 0 i ≠ subtree blake3 mr 0 i ∧
     id ∈ (diff_leaf_buckets (bucket_of blake3 ml i) (bucket_of blake3 mr i)).1) ∧
  (∀ id, id ∈ local ↔ id ∈ local0 ∨ ∃ i, i ∈ l ∧ subtree blake3 ml 0 i ≠ subtree blake3 mr 0 i ∧
     id ∈ (diff_leaf_buckets (bucket_of blake3 ml i) (bucket_of blake3 mr i)).2).
Proof.
  intros l. induction l as [|i l IH]; intros from0 local0 from local Hl Heq.
  - cbn [foldl] in Heq. simplify_eq.
    split; intros ?; setoid_rewrite elem_of_nil; naive_solver.
  - destruct (Hl i) as (Hi & Hlh & Hle); [by left|].
    cbn [foldl] in Heq. unfold finish_leaf at 2 in Heq.
    rewrite node_hash_spec, leaf_entries_spec, Hlh, Hle, Nat.sub_diag in Heq.
    rewrite (decide_True (P := (D <= D ∧ i < 2 ^ D)%nat)) in Heq by lia.
    rewrite (decide_True (P := (i < 2 ^ D)%nat)) in Heq by done.
    cbn [default from_option id] in Heq.
    destruct (decide (subtree blake3 ml 0 i = subtree blake3 mr 0 i)) as [He|He];
      [|destruct (diff_leaf_buckets (bucket_of blake3 ml i) (bucket_of blake3 mr i))
          as [pull push] eqn:Ediff];
      (apply IH in Heq as (Hf & Hloc); [|intros j Hj; apply Hl; by right]);
      (split; intros k; rewrite ?Hf, ?Hloc);
      rewrite exists_in_cons, ?Ediff, ?elem_of_app; cbn [fst snd]; tauto.
Qed.

(** The refs of round two ask for leaves only. *)
Lemma bottom_lookup mr refs i :
  (∀ r, r ∈ refs → ref_depth r = D ∧ (ref_index r < 2 ^ D)%nat) →
  mkNodeRef D i ∈ refs →
  (collect_leaves (answer_refs (from_membership blake3 mr) refs)).1 !! i
  = Some (subtree blake3 mr 0 i) ∧
  (collect_leaves (answer_refs (from_membership blake3 mr) refs)).2 !! i
  = Some (bucket_of blake3 mr i).
Proof.
  intros Hrefs Hi. unfold collect_leaves.
  destruct (collect_leaves_lookup (subtree blake3 mr 0) (bucket_of blake3 mr)
    (answer_refs (from_membership blake3 mr) refs) (∅, ∅) i) as [H1 H2].
  - intros n Hn. apply elem_of_answer_refs in Hn as (Hr & _ & Hh & He).
    destruct (Hrefs _ Hr) as [Hd _]. cbn in Hd. rewrite Hd in Hh, He.
    rewrite Nat.sub_diag in Hh. rewrite decide_True in He by done. done.
  - assert (i ∈ rn_index <$> answer_refs (from_membership blake3 mr) refs) as Hin;
      [|by rewrite H1, H2, !decide_True].
    rewrite <- (answer_refs_index blake3 mr refs) in Hi.
    + apply list_elem_of_fmap in Hi as (n & Heq & Hn). injection Heq as _ ->.
      by apply list_elem_of_fmap_2.
    + intros r Hr. destruct (Hrefs r Hr) as [-> ?]. done.
Qed.

Lemma top_lookup mr i :
  (i < 2 ^ SPLIT_DEPTH)%nat →
  collect_hashes (answer_refs (from_membership blake3 mr) top_refs) !! (SPLIT_DEPTH, i)
  = Some (subtree blake3 mr (D - SPLIT_DEPTH) i).
Proof.
  intros Hi. unfold collect_hashes.
  rewrite (collect_hashes_lookup (λ k, subtree blake3 mr (D - k.1) k.2)).
  - rewrite decide_True; [done|].
    assert (mkNodeRef SPLIT_DEPTH i ∈ top_refs) as Hr by (apply elem_of_top_refs; lia).
    rewrite <- (answer_refs_index blake3 mr) in Hr.
    + apply list_elem_of_fmap in Hr as (n & Heq & Hn). injection Heq as -> ->.
      apply (list_elem_of_fmap_2 (λ n, (rn_depth n, rn_index n))), Hn.
    + intros [d j] Hd. apply elem_of_top_refs in Hd. pose proof split_depth_le. cbn. lia.
  - intros n Hn. by apply elem_of_answer_refs in Hn as (_ & _ & -> & _).
Qed.
End rounds.

(** ** The whole exchange *)

Section exchange.
Context `{!HashIter} `{!MerkleShape} (blake3 : string → Hash).
Abbreviation D := MERKLE_TREE_DEPTH.

(** What the theorems about the exchange assume of the two memberships. *)
Record comparable (ml mr : Membership) : Prop := {
  cmp_length : ∀ s, String.length (blake3 s) = 32%nat;
  cmp_keyed_l : keyed ml;
  cmp_keyed_r : keyed mr;
  cmp_ids_l : ids_without_nul ml;
  cmp_ids_r : ids_without_nul mr;
  cmp_collisions : collision_free blake3
    (tree_inputs blake3 ml ++ tree_inputs blake3 mr ++ tree_inputs blake3 Membership.new);
}.

Lemma collision_free_incl l1 l2 :
  l2 ⊆ l1 → collision_free blake3 l1 → collision_free blake3 l2.
Proof. intros Hl Hc s1 s2 H1 H2. apply Hc; by apply Hl. Qed.

Lemma comparable_subtree ml mr h i j :
  comparable ml mr → (h <= D)%nat → (i < 2 ^ (D - h))%nat → (j / 2 ^ h = i)%nat →
  subtree blake3 ml h i = subtree blake3 mr h i →
  bucket_of blake3 ml j = bucket_of blake3 mr j.
Proof.
  intros [Hlen Hkl Hkr Hnl Hnr Hc] Hh Hi Hj Heq.
  apply (subtree_inj blake3 Hlen ml mr h i j); [done..| |done|done|done|done].
  eapply collision_free_incl; [|exact Hc]. intros x. rewrite !elem_of_app. tauto.
Qed.

(** A peer's subtree with the empty hash holds nothing. *)
Lemma comparable_empty ml mr h i j :
  comparable ml mr → (h <= D)%nat → (i < 2 ^ (D - h))%nat → (j / 2 ^ h = i)%nat →
  subtree blake3 mr h i = empty_subtree blake3 h → bucket_of blake3 mr j = [].
Proof.
  intros [Hlen Hkl Hkr Hnl Hnr Hc] Hh Hi Hj Heq. rewrite <- (bucket_of_new blake3 j).
  rewrite (empty_subtree_new blake3 h i) in Heq.
  apply (subtree_inj blake3 Hlen mr Membership.new h i j);
    [done|apply keyed_new|done|by intros ? ? ?| |done|done|done|done].
  eapply collision_free_incl; [|exact Hc]. intros x. rewrite !elem_of_app. tauto.
Qed.

Lemma diff_bucket_spec m1 m2 i id :
  keyed m1 → keyed m2 →
  (id ∈ (diff_leaf_buckets (bucket_of blake3 m1 i) (bucket_of blake3 m2 i)).1 ↔
     ∃ h, (id, h) ∈ bucket_of blake3 m2 i ∧ (id, h) ∉ bucket_of blake3 m1 i) ∧
  (id ∈ (diff_leaf_buckets (bucket_of blake3 m1 i) (bucket_of blake3 m2 i)).2 ↔
     ∃ h, (id, h) ∈ bucket_of blake3 m1 i ∧ (id, h) ∉ bucket_of blake3 m2 i).
Proof. intros H1 H2. apply diff_leaf_buckets_spec; auto using bucket_sorted, bucket_NoDup_keys. Qed.

Lemma split_tree_facts ml mr i :
  (i < 2 ^ SPLIT_DEPTH)%nat →
  let E := default (hash_empty blake3) (empty_subtree_hash (from_membership blake3 ml) SPLIT_DEPTH) in
  E = empty_subtree blake3 (D - SPLIT_DEPTH) ∧
  default E (node_hash (from_membership blake3 ml) SPLIT_DEPTH i)
  = subtree blake3 ml (D - SPLIT_DEPTH) i ∧
  default E (collect_hashes (answer_refs (from_membership blake3 mr) top_refs) !! (SPLIT_DEPTH, i))
  = subtree blake3 mr (D - SPLIT_DEPTH) i.
Proof.
  intros Hi E. pose proof split_depth_le. split_and!.
  - unfold E. rewrite empty_subtree_hash_spec. by rewrite decide_True.
  - rewrite node_hash_spec. by rewrite decide_True.
  - by rewrite top_lookup.
Qed.

(** The two rounds, from the buckets they visit; no assumption on the hash. *)
Lemma exchange_rounds ml mr :
  let K := (D - SPLIT_DEPTH)%nat in
  let L := subtree blake3 ml K in
  let R := subtree blake3 mr K in
  let E := empty_subtree blake3 K in
  let res := merkle_diff_with_peer blake3 (from_membership blake3 ml) (from_membership blake3 mr) in
  ∃ leaves : list nat,
  (∀ i, i ∈ leaves ↔ (i < 2 ^ D)%nat ∧ L (i / 2 ^ K)%nat ≠ R (i / 2 ^ K)%nat ∧ R (i / 2 ^ K)%nat ≠ E) ∧
  (∀ id, id ∈ dr_need_from_remote res ↔ ∃ i, i ∈ leaves ∧ subtree blake3 ml 0 i ≠ subtree blake3 mr 0 i ∧
     id ∈ (diff_leaf_buckets (bucket_of blake3 ml i) (bucket_of blake3 mr i)).1) ∧
  (∀ id, id ∈ dr_need_from_local res ↔
     (∃ i, (i < 2 ^ D)%nat ∧ L (i / 2 ^ K)%nat ≠ R (i / 2 ^ K)%nat ∧ R (i / 2 ^ K)%nat = E ∧
           id ∈ (bucket_of blake3 ml i).*1) ∨
     ∃ i, i ∈ leaves ∧ subtree blake3 ml 0 i ≠ subtree blake3 mr 0 i ∧
       id ∈ (diff_leaf_buckets (bucket_of blake3 ml i) (bucket_of blake3 mr i)).2).
Proof.
  intros K L R E res. subst res. pose proof split_depth_le as HSD. unfold merkle_diff_with_peer.
  destruct (plan_leaf_refs _ _ _) as [self refs] eqn:Eplan.
  assert ((if decide (refs = []) then [] else answer_refs (from_membership blake3 mr) refs)
    = answer_refs (from_membership blake3 mr) refs) as -> by (case_decide as Hr; [by rewrite Hr|done]).
  unfold plan_leaf_refs, new in Eplan. cbn [md_tree] in Eplan.
  assert (default (hash_empty blake3) (empty_subtree_hash (from_membership blake3 ml) SPLIT_DEPTH) = E)
    as HE by (eapply (split_tree_facts ml mr 0), pow2_pos).
  apply (plan_fold blake3 _ _ _ L R) in Eplan as (Ht & Hd & Hn & Hr);
    [|intros i Hi; apply elem_of_seq in Hi; apply split_tree_facts; lia].
  rewrite HE in Hd, Hn, Hr. setoid_rewrite elem_of_nil in Hd.
  setoid_rewrite elem_of_nil in Hn. setoid_rewrite elem_of_nil in Hr.
  setoid_rewrite elem_of_seq in Hd. setoid_rewrite elem_of_seq in Hn. setoid_rewrite elem_of_seq in Hr.
  set (leaves := split_index ← md_divergent self; leaves_of split_index).
  assert (∀ i, i ∈ leaves ↔ (i < 2 ^ D)%nat ∧ L (i / 2 ^ K)%nat ≠ R (i / 2 ^ K)%nat ∧
    R (i / 2 ^ K)%nat ≠ E) as Hleaves.
  { intros i. unfold leaves. rewrite list_elem_of_bind. split.
    - intros (s & Hi & Hs). apply Hd in Hs as [[]|(Hs & ?)].
      pose proof (leaf_bound s i ltac:(lia) Hi). apply elem_of_leaves_of in Hi. by subst s.
    - intros (Hi & ?). exists (i / 2 ^ K)%nat. split; [by apply elem_of_leaves_of|].
      apply Hd. right. pose proof (leaf_in_split i Hi). split_and!; [lia|subst K; lia|tauto..]. }
  exists leaves. split; [done|]. unfold finish. rewrite Ht.
  destruct (collect_leaves _) as [lh le] eqn:Ecl.
  destruct (foldl _ _ _) as [from local] eqn:Efin.
  apply (finish_fold blake3 ml mr lh le) in Efin as [Hf Hl]; last first.
  { intros i Hi. apply Hleaves in Hi as (Hi & HLR & HRE). split; [done|].
    destruct (bottom_lookup blake3 mr refs i) as [H1 H2].
    - intros r Hr'. apply Hr in Hr' as [[]|(s & Hs & _ & _ & j & -> & Hj)]. split; [done|].
      apply (leaf_bound s); [lia|done].
    - apply Hr. right. exists (i / 2 ^ K)%nat. pose proof (leaf_in_split i Hi).
      split_and!; [lia|subst K; lia|done|done|exists i; by rewrite elem_of_leaves_of].
    - by rewrite Ecl in H1, H2. }
  cbn [dr_need_from_remote dr_need_from_local]. setoid_rewrite elem_of_nil in Hf.
  split; intros id; rewrite elem_of_dedup_sort; [rewrite Hf; tauto|].
  rewrite Hl, Hn. apply or_iff_compat_r. split.
  - intros [[]|(s & Hs & HLR & HRE & Hin)]. unfold collect_node_ids in Hin.
    rewrite decide_False in Hin by lia. fold K in Hin.
    apply elem_of_collect_below in Hin as (i & Hi & Hin); [|subst K; replace (D - (D - SPLIT_DEPTH))%nat with SPLIT_DEPTH by lia; lia|lia].
    exists i. rewrite Hi. split_and!; [|done..].
    apply (leaf_bound s); [lia|by apply elem_of_leaves_of].
  - intros (i & Hi & HLR & HRE & Hin). right. exists (i / 2 ^ K)%nat. pose proof (leaf_in_split i Hi).
    split_and!; [lia|subst K; lia|done|done|]. unfold collect_node_ids.
    rewrite decide_False by lia. fold K. apply elem_of_collect_below; [|lia|eauto].
    subst K. replace (D - (D - SPLIT_DEPTH))%nat with SPLIT_DEPTH by lia. done.
Qed.

(** The outcome of the exchange in terms of the buckets. *)
Lemma exchange_buckets ml mr id :
  comparable ml mr →
  let res := merkle_diff_with_peer blake3 (from_membership blake3 ml) (from_membership blake3 mr) in
  (id ∈ dr_need_from_remote res ↔ ∃ i h, (i < 2 ^ D)%nat ∧
     (id, h) ∈ bucket_of blake3 mr i ∧ (id, h) ∉ bucket_of blake3 ml i) ∧
  (id ∈ dr_need_from_local res ↔ ∃ i h, (i < 2 ^ D)%nat ∧
     (id, h) ∈ bucket_of blake3 ml i ∧ (id, h) ∉ bucket_of blake3 mr i).
Proof.
  intros Hc res. subst res. pose proof split_depth_le as HSD.
  pose proof (cmp_keyed_l _ _ Hc) as Hkl. pose proof (cmp_keyed_r _ _ Hc) as Hkr.
  destruct (exchange_rounds ml mr) as (divergent & Hd & Hf & Hl).
  set (L := subtree blake3 ml (D - SPLIT_DEPTH)) in *.
  set (R := subtree blake3 mr (D - SPLIT_DEPTH)) in *.
  assert (∀ i, (i < 2 ^ D)%nat → bucket_of blake3 ml i ≠ bucket_of blake3 mr i →
    L (i / 2 ^ (D - SPLIT_DEPTH))%nat ≠ R (i / 2 ^ (D - SPLIT_DEPTH))%nat ∧
    subtree blake3 ml 0 i ≠ subtree blake3 mr 0 i) as Hdiff.
  { intros i Hi Hne. pose proof (leaf_in_split i Hi). split; intros Heq; apply Hne.
    - eapply comparable_subtree; [done| | |done|exact Heq]; [lia|].
      by replace (D - (D - SPLIT_DEPTH))%nat with SPLIT_DEPTH by lia.
    - apply (comparable_subtree ml mr 0 i); [done|lia|by rewrite Nat.sub_0_r|apply Nat.div_1_r|done]. }
  assert (∀ i, (i < 2 ^ D)%nat →
    R (i / 2 ^ (D - SPLIT_DEPTH))%nat = empty_subtree blake3 (D - SPLIT_DEPTH) →
    bucket_of blake3 mr i = []) as Hempty.
  { intros i Hi Heq. pose proof (leaf_in_split i Hi).
    apply (comparable_empty ml mr (D - SPLIT_DEPTH) (i / 2 ^ (D - SPLIT_DEPTH)));
      [done|lia| |done|exact Heq].
    by replace (D - (D - SPLIT_DEPTH))%nat with SPLIT_DEPTH by lia. }
  split; [rewrite Hf|rewrite Hl].
  - split.
    + intros (i & Hi & _ & Hin). apply Hd in Hi as (Hi & _).
      apply diff_bucket_spec in Hin as (h & ? & ?); eauto.
    + intros (i & h & Hi & Hr & Hnl). destruct (Hdiff i Hi) as [HLR Hleaf]; [congruence|].
      exists i. split_and!; [apply Hd|done|apply diff_bucket_spec; eauto].
      split_and!; [done..|]. intros HE. apply Hempty in HE; [|done]. rewrite HE in Hr. by apply elem_of_nil in Hr.
  - split.
    + intros [(i & Hi & _ & HE & Hin)|(i & Hi & _ & Hin)].
      * apply list_elem_of_fmap in Hin as ([id' h] & -> & Hin). exists i, h. split_and!; [done..|].
        rewrite (Hempty i Hi HE). apply not_elem_of_nil.
      * apply Hd in Hi as (Hi & _). apply diff_bucket_spec in Hin as (h & ? & ?); eauto.
    + intros (i & h & Hi & Hin & Hnr). destruct (Hdiff i Hi) as [HLR Hleaf]; [congruence|].
      destruct (decide (R (i / 2 ^ (D - SPLIT_DEPTH)) = empty_subtree blake3 (D - SPLIT_DEPTH))%nat)
        as [HE|HE].
      * left. exists i. split_and!; [done..|]. by apply (list_elem_of_fmap_2 fst _ (id, h)).
      * right. exists i. split_and!; [by apply Hd|done|apply diff_bucket_spec; eauto].
Qed.
End exchange.

(** ** Properties *)

Lemma bucket_diff_members `{!HashIter, !MerkleShape} blake3 m1 m2 id :
  keyed m1 → keyed m2 →
  (∃ i h, (i < 2 ^ MERKLE_TREE_DEPTH)%nat ∧
     (id, h) ∈ bucket_of blake3 m2 i ∧ (id, h) ∉ bucket_of blake3 m1 i) ↔
  ∃ r, get m2 id = Some r ∧ hash_register blake3 <$> get m1 id ≠ Some (hash_register blake3 r).
Proof.
  intros H1 H2. split.
  - intros (i & h & Hi & Hin & Hnin). apply elem_of_bucket in Hin as (r & Hr & -> & <-); [|done].
    exists r. split; [done|]. intros Heq. apply Hnin.
    destruct (get m1 id) as [s|] eqn:Hs; [|done]. injection Heq as Heq.
    apply elem_of_bucket; eauto.
  - intros (r & Hr & Hne). exists (leaf_index blake3 id), (hash_register blake3 r).
    split_and!; [apply leaf_index_bound|apply elem_of_bucket; eauto|].
    intros (s & Hs & Heq & _)%elem_of_bucket; [|done]. rewrite Hs in Hne. simpl in Hne. congruence.
Qed.

Lemma finish_sorted `{!MerkleShape} blake3 self remote :
  StronglySorted ord_lt (dr_need_from_remote (finish blake3 self remote)) ∧
  StronglySorted ord_lt (dr_need_from_local (finish blake3 self remote)).
Proof.
  unfold finish. destruct (collect_leaves remote) as [lh le].
  destruct (foldl _ _ _) as [from local]. split; apply dedup_sorted.
Qed.

Lemma exchange_sorted `{!MerkleShape} blake3 local remote :
  StronglySorted ord_lt (dr_need_from_remote (merkle_diff_with_peer blake3 local remote)) ∧
  StronglySorted ord_lt (dr_need_from_local (merkle_diff_with_peer blake3 local remote)).
Proof.
  unfold merkle_diff_with_peer. destruct (plan_leaf_refs _ _ _) as [self refs]. apply finish_sorted.
Qed.

Lemma merge_fetched_lookup m o ids id :
  keyed o → NoDup ids →
  get (foldl merge_register m (omap (get o) ids)) id
  = join_opt (get m id) (if decide (id ∈ ids) then get o id else None).
Proof.
  intros Ho Hnd. revert m. induction Hnd as [|x ids Hx Hnd IH]; intros m; cbn [omap list_omap foldl].
  - case_decide as Hin; [by apply elem_of_nil in Hin|]. by destruct (get m id).
  - destruct (get o x) as [r|] eqn:Er; cbn [foldl]; rewrite IH.
    + rewrite merge_register_lookup, (Ho _ _ Er). destruct (decide (x = id)) as [->|Hne].
      * rewrite (decide_False (P := id ∈ ids)), decide_True by (done || by left).
        rewrite Er. by destruct (get m id).
      * assert ((if decide (id ∈ ids) then get o id else None)
          = (if decide (id ∈ x :: ids) then get o id else None)) as ->
          by (repeat case_decide; rewrite ?elem_of_cons in *; naive_solver).
        f_equal. by destruct (get m id).
    + f_equal. repeat case_decide; rewrite ?elem_of_cons in *; naive_solver.
Qed.


(** The reconciliation of two leaf buckets never loses or invents an id:
    for a sorted local bucket and a remote bucket in any order, an id is pulled
    exactly when the remote side holds an entry that the local side does not,
    pushed exactly in the mirrored case, and the order of the remote bucket is
    immaterial. *)
Theorem diff_leaf_buckets_exact local remote remote' id :
  StronglySorted (key_le fst) local → NoDup local.*1 → NoDup remote.*1 → remote ≡ₚ remote' →
  (id ∈ (diff_leaf_buckets local remote).1 ↔ ∃ h, (id, h) ∈ remote ∧ (id, h) ∉ local) ∧
  (id ∈ (diff_leaf_buckets local remote).2 ↔ ∃ h, (id, h) ∈ local ∧ (id, h) ∉ remote) ∧
  diff_leaf_buckets local remote' = diff_leaf_buckets local remote.
Proof.
  intros Hl Hndl Hndr Hp. destruct (diff_leaf_buckets_spec local remote id) as [H1 H2]; [done..|].
  split_and!; [done|done|]. unfold diff_leaf_buckets. f_equal.
  symmetry. by apply sort_by_key_perm_eq.
Qed.

Lemma diff_leaf_buckets_exact_witness :
  "b" ∈ (diff_leaf_buckets [("a", "1"); ("b", "2")] [("c", "3"); ("b", "4")]).1.
Proof.
  apply (diff_leaf_buckets_exact [("a", "1"); ("b", "2")] [("c", "3"); ("b", "4")]
           [("c", "3"); ("b", "4")] "b").
  - repeat constructor; done.
  - by apply (bool_decide_unpack _); vm_compute.
  - by apply (bool_decide_unpack _); vm_compute.
  - done.
  - exists "4". split; [by right; left|]. rewrite !elem_of_cons, elem_of_nil. naive_solver.
Defined.

(** Anti-entropy heals: when both sides merge the registers the exchange
    named (the local node those it fetched, the peer those it was pushed), the
    two memberships agree on the hash of every member afterwards, so the next
    comparison of the trees finds nothing. *)
Theorem exchange_heals `{!HashIter, !MerkleShape} blake3 ml mr id :
  comparable blake3 ml mr →
  let res := merkle_diff_with_peer blake3 (from_membership blake3 ml) (from_membership blake3 mr) in
  let ml' := foldl merge_register ml (omap (get mr) (dr_need_from_remote res)) in
  let mr' := foldl merge_register mr (omap (get ml) (dr_need_from_local res)) in
  hash_register blake3 <$> get ml' id = hash_register blake3 <$> get mr' id.
Proof.
  intros Hc res ml' mr'. pose proof (cmp_keyed_l _ _ _ Hc) as Hl. pose proof (cmp_keyed_r _ _ _ Hc) as Hr.
  assert (∀ id, id ∈ dr_need_from_remote res ↔ _) as Hpull
    by (intros i; etrans; [by apply exchange_buckets|by apply bucket_diff_members]).
  assert (∀ id, id ∈ dr_need_from_local res ↔ _) as Hpush
    by (intros i; etrans; [by apply exchange_buckets|by apply bucket_diff_members]).
  unfold ml', mr'.
  rewrite (merge_fetched_lookup ml mr), (merge_fetched_lookup mr ml) by (done || apply strictly_sorted_NoDup, exchange_sorted).
  fold res. specialize (Hpull id). specialize (Hpush id). fold res in Hpull, Hpush.
  assert (∀ r s, get ml id = Some r → get mr id = Some s → node_id r = node_id s) as Hids.
  { intros r s Er Es. by rewrite (Hl _ _ Er), (Hr _ _ Es). }
  destruct (get ml id) as [r|] eqn:E1, (get mr id) as [s|] eqn:E2.
  - destruct (decide (hash_register blake3 r = hash_register blake3 s)) as [Heq|Hne].
    + rewrite !decide_False; [simpl; by rewrite Heq|rewrite Hpush|rewrite Hpull];
        intros (? & ? & Hn); simplify_eq/=; congruence.
    + rewrite !decide_True; [simpl; by rewrite merge_comm by auto|apply Hpush|apply Hpull];
        eexists; split; [done| |done|]; simpl; congruence.
  - rewrite (decide_True (P := id ∈ dr_need_from_local res)); [by case_decide|]. apply Hpush. eauto.
  - rewrite (decide_True (P := id ∈ dr_need_from_remote res)); [by case_decide|]. apply Hpull. eauto.
  - by repeat case_decide.
Qed.

(** *** A concrete exchange

    A tree of depth 2, split at depth 1, and a 32-byte hash that does not
    collide on the inputs of two memberships that disagree on every member. *)

Definition small_shape : MerkleShape :=
  {| MERKLE_TREE_DEPTH := 2; SPLIT_DEPTH := 1; split_depth_le := ltac:(lia) |}.

Definition toy_blake3 (s : string) : Hash :=
  String.append
    (be_bytes 4 (foldl (λ acc c,
        Z.land (acc * 40503 + 7 + Z.of_N (Ascii.N_of_ascii c)) (2 ^ 32 - 1)) 11
      (String.list_ascii_of_string s)))
    (be_bytes 28 0).

Definition collision_freeb (blake3 : string → Hash) (inputs : list string) : bool :=
  let hashed := (λ s, (s, blake3 s)) <$> inputs in
  forallb (λ p, forallb (λ q,
    negb (String.eqb p.2 q.2) || String.eqb p.1 q.1) hashed) hashed.

Lemma collision_freeb_correct blake3 inputs :
  collision_freeb blake3 inputs = true → collision_free blake3 inputs.
Proof.
  unfold collision_freeb. cbv zeta. intros Hb s1 s2 H1 H2 Heq. rewrite forallb_forall in Hb.
  assert (∀ s, s ∈ inputs → In (s, blake3 s) ((λ s, (s, blake3 s)) <$> inputs)) as Hin.
  { intros s Hs. by apply list_elem_of_In, (list_elem_of_fmap_2 (λ s, (s, blake3 s))). }
  specialize (Hb _ (Hin s1 H1)). rewrite forallb_forall in Hb. specialize (Hb _ (Hin s2 H2)).
  cbn [fst snd] in Hb. rewrite Heq, String.eqb_refl in Hb. by apply String.eqb_eq.
Qed.

Definition wit_l : Membership := merge_register (merge_register Membership.new wit_a) wit_b.
Definition wit_r : Membership :=
  merge_register (merge_register Membership.new wit_a') (Register.new "c" "127.0.0.1:3" 2 5).

Definition small_diff : DiffResult :=
  let i := gmap_hash_iter in
  let s := small_shape in
  merkle_diff_with_peer toy_blake3 (from_membership toy_blake3 wit_l) (from_membership toy_blake3 wit_r).

Example small_diff_result : small_diff = mkDiffResult ["a"; "c"] ["a"; "b"].
Proof. vm_compute. reflexivity. Qed.

Lemma ids_check m :
  forallb (λ '(id, _), no_nul id) (map_to_list (members m)) = true → ids_without_nul m.
Proof.
  intros Hb id r Hr. rewrite forallb_forall in Hb. apply (Hb (id, r)), list_elem_of_In.
  by apply elem_of_map_to_list.
Qed.

Lemma small_comparable :
  let i := gmap_hash_iter in let s := small_shape in comparable toy_blake3 wit_l wit_r.
Proof.
  intros i s. split.
  - intros x. unfold toy_blake3. by rewrite string_length_app, !be_bytes_length.
  - by repeat apply keyed_merge_register; apply keyed_new.
  - by repeat apply keyed_merge_register; apply keyed_new.
  - apply ids_check. vm_compute. reflexivity.
  - apply ids_check. vm_compute. reflexivity.
  - apply collision_freeb_correct. vm_compute. reflexivity.
Qed.


Lemma exchange_heals_witness :
  let i := gmap_hash_iter in
  hash_register toy_blake3 <$>
    get (foldl merge_register wit_l (omap (get wit_r) (dr_need_from_remote small_diff))) "a"
  = hash_register toy_blake3 <$>
    get (foldl merge_register wit_r (omap (get wit_l) (dr_need_from_local small_diff))) "a".
Proof.
  intros i. exact (exchange_heals (H0 := small_shape) toy_blake3 wit_l wit_r "a" small_comparable).
Defined.
