(* ===== verification/Swim.v ===== *)
(** * The SWIM failure detector ([crates/membership/src/swim.rs])

    A transport-agnostic state machine over the membership CRDT: it consumes
    messages and clock ticks and emits actions. Every operation takes the state
    and returns the next state with the actions of the method. *)

From S2P Require Import Prelude.
From S2P Require Import Register.
From S2P Require Import Membership.

Record SwimConfig : Type := mkSwimConfig {
  ping_interval_ms : Z;
  ping_timeout_ms : Z;
  failure_threshold : Z;
  suspect_timeout_ms : Z;
}.

Definition default_config : SwimConfig := mkSwimConfig 1000 3000 3 30000.

Inductive SwimMessage : Type :=
| Ping (seq : Z)
| Ack (seq : Z)
| Suspect (node_id : string) (incarnation : Z)
| Alive (register : MemberRegister)
| Leave (node_id : string) (incarnation : Z).

Inductive SwimAction : Type :=
| SendPing (target : string) (seq : Z)
| SendAck (to : string) (seq : Z)
| Broadcast (message : SwimMessage).

Record PendingPing : Type := mkPendingPing { target : string; sent_at : Z }.

Record Swim : Type := mkSwim {
  local_node_id : string;
  config : SwimConfig;
  membership : Membership;
  consecutive_failures : gmap string Z;
  sequence : Z;
  pending_pings : gmap Z PendingPing;
  last_probe_ms : gmap string Z;
  suspected_since_ms : gmap string Z;
}.

(** Assignments to one field. *)
Definition set_membership (m : Membership) (s : Swim) : Swim :=
  mkSwim (local_node_id s) (config s) m (consecutive_failures s) (sequence s) (pending_pings s)
    (last_probe_ms s) (suspected_since_ms s).
Definition set_failures (f : gmap string Z) (s : Swim) : Swim :=
  mkSwim (local_node_id s) (config s) (membership s) f (sequence s) (pending_pings s)
    (last_probe_ms s) (suspected_since_ms s).
Definition set_pending (p : gmap Z PendingPing) (s : Swim) : Swim :=
  mkSwim (local_node_id s) (config s) (membership s) (consecutive_failures s) (sequence s) p
    (last_probe_ms s) (suspected_since_ms s).
Definition set_suspected_since (u : gmap string Z) (s : Swim) : Swim :=
  mkSwim (local_node_id s) (config s) (membership s) (consecutive_failures s) (sequence s)
    (pending_pings s) (last_probe_ms s) u.

(** [Swim::new] *)
Definition new (id : string) (cfg : SwimConfig) (local : MemberRegister) : Swim :=
  mkSwim id cfg (merge_register Membership.new local) ∅ 0 ∅ ∅ ∅.

Definition handle_ack (self : Swim) (seq : Z) : Swim :=
  match pending_pings self !! seq with
  | Some pending =>
      let self := set_pending (delete seq (pending_pings self)) self in
      set_failures (delete (target pending) (consecutive_failures self)) self
  | None => self
  end.

Definition refute_and_broadcast (self : Swim) (now_ms : Z) : Swim * list SwimAction :=
  let self := set_membership (refute (membership self) (local_node_id self) now_ms).1 self in
  match get (membership self) (local_node_id self) with
  | Some register => (self, [Broadcast (Alive register)])
  | None => (self, [])
  end.

Definition handle_suspect_state (self : Swim) (id : string) (inc : Z) (now_ms : Z)
    : Swim * list SwimAction :=
  if decide (id = local_node_id self) then
    let dominated :=
      match get (membership self) id with
      | Some local => bool_decide (state local ≠ Leaving ∧ incarnation local ≤ inc)
      | None => false
      end in
    if dominated then refute_and_broadcast self now_ms else (self, [])
  else
    match get (membership self) id with
    | Some existing =>
        if decide (inc < incarnation existing) then (self, [])
        else
          let register := Register.suspect now_ms (set_incarnation inc existing) in
          (set_membership (merge_register (membership self) register) self, [])
    | None => (self, [])
    end.

Definition refute_if_dominated (self : Swim) (rumor : MemberRegister) (now_ms : Z)
    : Swim * list SwimAction :=
  if decide (state rumor = Active) then (self, [])
  else
    match get (membership self) (local_node_id self) with
    | None => (self, [])
    | Some local =>
        if bool_decide (state local = Leaving) || dominates local rumor then (self, [])
        else refute_and_broadcast self now_ms
    end.

Definition handle_alive_state (self : Swim) (register : MemberRegister) (now_ms : Z)
    : Swim * list SwimAction :=
  if decide (node_id register = local_node_id self) then refute_if_dominated self register now_ms
  else (set_membership (merge_register (membership self) register) self, []).

Definition handle_leave_state (self : Swim) (id : string) (inc : Z) (now_ms : Z) : Swim :=
  if decide (id = local_node_id self) then self
  else
    match get (membership self) id with
    | None => self
    | Some existing =>
        if decide (inc < incarnation existing) then self
        else
          let register := Register.leave now_ms (set_incarnation inc existing) in
          set_membership (merge_register (membership self) register) self
    end.

Definition on_message (self : Swim) (from : string) (message : SwimMessage) (now_ms : Z)
    : Swim * list SwimAction :=
  match message with
  | Ping seq => (self, [SendAck from seq])
  | Ack seq => (handle_ack self seq, [])
  | Suspect id inc => handle_suspect_state self id inc now_ms
  | Alive register => handle_alive_state self register now_ms
  | Leave id inc => (handle_leave_state self id inc now_ms, [])
  end.

(** The counter is a [u32]; [+= 1] is written with the wrap-around of a release build. *)
Definition mark_suspected (self : Swim) (target : string) (now_ms : Z) : Swim * list SwimAction :=
  let failures :=
    match consecutive_failures self !! target with
    | Some count => u32_wrap (count + 1)
    | None => 1
    end in
  let self := set_failures (<[target := failures]> (consecutive_failures self)) self in
  if decide (failures < failure_threshold (config self)) then (self, [])
  else
    let self := set_failures (delete target (consecutive_failures self)) self in
    let '(m, suspected) := suspect (membership self) target now_ms in
    (set_membership m self,
     match suspected with
     | Some inc => [Broadcast (Suspect target inc)]
     | None => []
     end).

Definition send_ping_to (self : Swim) (tgt : string) (now_ms : Z) : Swim * option SwimAction :=
  let now_u64 := u64_try_from_or_0 now_ms in
  let seq := u64_wrap (sequence self + 1) in
  (mkSwim (local_node_id self) (config self) (membership self) (consecutive_failures self) seq
     (<[seq := mkPendingPing tgt now_u64]> (pending_pings self))
     (<[tgt := now_u64]> (last_probe_ms self)) (suspected_since_ms self),
   Some (SendPing tgt seq)).

Section ticking.
Context `{!HashIter}.

Definition expire_ping (now_ms : Z) (acc : Swim * list SwimAction) (seq : Z)
    : Swim * list SwimAction :=
  let '(self, actions) := acc in
  match pending_pings self !! seq with
  | Some pending =>
      let self := set_pending (delete seq (pending_pings self)) self in
      let '(self, more) := mark_suspected self (target pending) now_ms in
      (self, actions ++ more)
  | None => (self, actions)
  end.

Definition timed_out (self : Swim) (now_u64 : Z) : list Z :=
  fst <$> filter (λ kv, ping_timeout_ms (config self) ≤ u64_saturating_sub now_u64 (sent_at kv.2))
            (hash_iter (pending_pings self)).

Definition check_timeouts (self : Swim) (now_u64 now_ms : Z) : Swim * list SwimAction :=
  foldl (expire_ping now_ms) (self, []) (timed_out self now_u64).

Definition suspected_ids (self : Swim) : list string :=
  node_id <$> filter (λ r, node_id r ≠ local_node_id self ∧ state r = Suspected)
                (active (membership self)).

(** [entry(node_id).or_insert(now_ms)] and the comparison with the timeout. *)
Definition observe_suspected (now_ms timeout : Z) (acc : gmap string Z * list string) (id : string)
    : gmap string Z * list string :=
  let '(since_map, expired) := acc in
  let since := default now_ms (since_map !! id) in
  (<[id := since]> since_map,
   if decide (timeout ≤ i64_saturating_sub now_ms since) then expired ++ [id] else expired).

Definition expire_suspect (now_ms : Z) (acc : Swim * list SwimAction) (id : string)
    : Swim * list SwimAction :=
  let '(self, actions) := acc in
  let '(m, changed) := offline (membership self) id now_ms in
  let self := set_membership m self in
  if changed then
    match get (membership self) id with
    | Some register => (self, actions ++ [Broadcast (Alive register)])
    | None => (self, actions)
    end
  else (self, actions).

Definition check_suspect_timeouts (self : Swim) (now_ms : Z) : Swim * list SwimAction :=
  let timeout := i64_try_from_or_max (suspect_timeout_ms (config self)) in
  let suspected := suspected_ids self in
  let retained := filter (λ kv, kv.1 ∈ suspected) (suspected_since_ms self) in
  let '(since_map, expired) := foldl (observe_suspected now_ms timeout) (retained, []) suspected in
  foldl (expire_suspect now_ms) (set_suspected_since since_map self, []) expired.

Definition is_pending (self : Swim) (tgt : string) : bool :=
  existsb (λ pending, bool_decide (target pending = tgt)) (hash_values (pending_pings self)).

Definition probe_gap (self : Swim) (now_u64 : Z) (tgt : string) : Z :=
  u64_saturating_sub now_u64 (default 0 (last_probe_ms self !! tgt)).

Definition consider_target (self : Swim) (now_u64 : Z) (acc : option string * Z) (tgt : string)
    : option string * Z :=
  let '(candidate, oldest_gap) := acc in
  if is_pending self tgt then acc
  else
    let gap := probe_gap self now_u64 tgt in
    if decide (ping_interval_ms (config self) ≤ gap ∧ oldest_gap < gap) then (Some tgt, gap)
    else acc.

Definition generate_probes (self : Swim) (now_u64 now_ms : Z) : Swim * list SwimAction :=
  let targets :=
    node_id <$> filter (λ r, node_id r ≠ local_node_id self) (active (membership self)) in
  let '(candidate, _) := foldl (consider_target self now_u64) (None, 0) targets in
  match candidate with
  | Some tgt => let '(self, action) := send_ping_to self tgt now_ms in (self, option_list action)
  | None => (self, [])
  end.

Definition tick (self : Swim) (now_ms : Z) : Swim * list SwimAction :=
  let self := set_membership (heartbeat (membership self) (local_node_id self) now_ms).1 self in
  let now_u64 := u64_try_from_or_0 now_ms in
  let '(self, actions) := check_timeouts self now_u64 now_ms in
  let '(self, more) := check_suspect_timeouts self now_ms in
  let actions := actions ++ more in
  let '(self, more) := generate_probes self now_u64 now_ms in
  (self, actions ++ more).
End ticking.

(** ** Members only move up the merge order *)

Definition advances (m m' : Membership) : Prop :=
  ∀ id r, get m id = Some r → ∃ r', get m' id = Some r' ∧ ord_le (order_key r) (order_key r').

#[export] Instance advances_preorder : PreOrder advances.
Proof.
  split.
  - intros m id r Hr. exists r. split; [done|]. reflexivity.
  - intros m1 m2 m3 H12 H23 id r Hr. destruct (H12 id r Hr) as (r2 & Hr2 & Hle).
    destruct (H23 id r2 Hr2) as (r3 & Hr3 & Hle'). exists r3. split; [done|]. by etrans.
Qed.

Lemma advances_bump m m' : advances m m' → advances m (bump_version m').
Proof. done. Qed.

Lemma advances_put m id r r' :
  get m id = Some r → ord_le (order_key r) (order_key r') → advances m (put m id r').
Proof.
  intros Hr Hle id' r1 Hr1. unfold put, get in *. simpl. rewrite lookup_insert.
  case_decide; [simplify_eq; eauto|]. exists r1. split; [done|]. reflexivity.
Qed.

Lemma advances_merge_register m r : advances m (merge_register m r).
Proof.
  intros id r1 Hr1. rewrite merge_register_lookup, Hr1. case_decide; simpl.
  - eexists. split; [done|]. apply reg_le_key, reg_le_merge_l.
  - exists r1. split; [done|]. reflexivity.
Qed.

#[export] Hint Resolve advances_merge_register advances_bump : lycoris.

Lemma suspect_key_le r now : ord_le (order_key r) (order_key (Register.suspect now r)).
Proof.
  destruct (decide (state r = Active)) as [Ha|Ha].
  - apply reg_le_key, dominates_reg_le. by apply suspect_dominates.
  - unfold Register.suspect. destruct (state r); [done|reflexivity..].
Qed.

Lemma advances_suspect m id now : advances m (suspect m id now).1.
Proof.
  unfold suspect. destruct (members m !! id) as [r|] eqn:Hr; [|reflexivity].
  case_bool_decide; simpl; [apply advances_bump|];
    apply (advances_put m id r); auto using suspect_key_le.
Qed.

Lemma key_le_iff a b :
  ord_le (order_key a) (order_key b) ↔
    incarnation a < incarnation b ∨
    incarnation a = incarnation b ∧ rank (state a) < rank (state b) ∨
    incarnation a = incarnation b ∧ state a = state b ∧ Register.heartbeat a ≤ Register.heartbeat b.
Proof.
  rewrite <- dominates_false. destruct (dominates a b) eqn:E.
  - apply dominates_iff in E. split; [done|].
    intros [?|[[? ?]|(? & Hs & ?)]]; destruct E as [?|[[? ?]|(? & Hs' & ?)]]; rewrite ?Hs, ?Hs' in *; lia.
  - split; [intros _|done].
    destruct (Z.lt_total (incarnation a) (incarnation b)) as [?|[Hi|?]]; [by left| |].
    + destruct (Z.lt_total (rank (state a)) (rank (state b))) as [?|[Hs|?]]; [by right; left| |].
      * right; right. apply rank_inj in Hs. split_and!; [done|done|].
        apply Z.nlt_ge. intros Hlt. assert (dominates a b = true) as Hd by (apply dominates_iff; right; right; by rewrite Hi, Hs).
        congruence.
      * assert (dominates a b = true) as Hd by (apply dominates_iff; right; left; split; [by rewrite Hi|lia]). congruence.
    + assert (dominates a b = true) as Hd by (apply dominates_iff; left; lia). congruence.
Qed.

Lemma refute_key_le r now :
  wf_register r → state r = Active → ord_le (order_key r) (order_key (Register.refute now r)).
Proof.
  intros (Hi & Hh & _) Hs. apply key_le_iff. simpl. rewrite Hs. unfold u64_saturating_add, is_u64 in *.
  destruct (decide (incarnation r = u64_max)); [right; right|left; lia].
  split_and!; [lia|done|lia].
Qed.

Lemma bump_key_le r now :
  wf_register r → state r ≠ Suspected → ord_le (order_key r) (order_key (bump_heartbeat now r)).
Proof.
  intros (Hi & Hh & _) Hs. apply key_le_iff. right; right.
  unfold u64_saturating_add, is_u64 in *. unfold bump_heartbeat.
  destruct r as [? ? []]; simpl in *; split_and!; (done || unfold u64_saturating_add; lia).
Qed.

Lemma advances_refute m id now r :
  get m id = Some r → state r = Active → wf_register r → advances m (refute m id now).1.
Proof.
  intros Hr Hs Hw. unfold refute, get in *. rewrite Hr. simpl.
  apply advances_bump, (advances_put m id r); auto using refute_key_le.
Qed.

Lemma advances_heartbeat m id now r :
  get m id = Some r → state r ≠ Suspected → wf_register r → advances m (heartbeat m id now).1.
Proof.
  intros Hr Hs Hw. unfold heartbeat, get in *. rewrite Hr. simpl.
  case_bool_decide; [apply advances_bump|]; apply (advances_put m id r); auto using bump_key_le.
Qed.

(** ** The invariant of the state machine *)

Definition wf_membership (m : Membership) : Prop := ∀ id r, get m id = Some r → wf_register r.

Definition wf_config (c : SwimConfig) : Prop :=
  is_u64 (ping_interval_ms c) ∧ is_u64 (ping_timeout_ms c) ∧ is_u32 (failure_threshold c) ∧
  is_u64 (suspect_timeout_ms c).

Definition wf_message (m : SwimMessage) : Prop :=
  match m with
  | Alive r => wf_register r
  | Suspect _ i | Leave _ i | Ping i | Ack i => is_u64 i
  end.

(** The local register is never suspected nor offline: only its own node
    writes it. *)
Definition local_ok (id : string) (m : Membership) : Prop :=
  ∃ r, get m id = Some r ∧ (state r = Active ∨ state r = Leaving).

Definition pings_ok (id : string) (m : Membership) (p : gmap Z PendingPing) : Prop :=
  ∀ seq ping, p !! seq = Some ping → target ping ≠ id ∧ is_Some (get m (target ping)).

Definition one_ping_per_target (p : gmap Z PendingPing) : Prop :=
  ∀ s1 s2 p1 p2, p !! s1 = Some p1 → p !! s2 = Some p2 → target p1 = target p2 → s1 = s2.

Record swim_inv (s : Swim) : Prop := {
  inv_config : wf_config (config s);
  inv_keyed : keyed (membership s);
  inv_wf : wf_membership (membership s);
  inv_local : local_ok (local_node_id s) (membership s);
  inv_failures : ∀ id c, consecutive_failures s !! id = Some c → 1 ≤ c < failure_threshold (config s);
  inv_pings : pings_ok (local_node_id s) (membership s) (pending_pings s);
  inv_one_ping : one_ping_per_target (pending_pings s);
}.

Lemma wf_merge_register m r : wf_membership m → wf_register r → wf_membership (merge_register m r).
Proof.
  intros Hm Hr id r'. rewrite merge_register_lookup.
  destruct (get m id) as [e|] eqn:E; case_decide; simpl; intros [= <-]; eauto with lycoris.
Qed.

Lemma wf_put m id r : wf_membership m → wf_register r → wf_membership (put m id r).
Proof.
  intros Hm Hr id' r'. unfold put, get. simpl. rewrite lookup_insert. case_decide; [by intros [= <-]|apply Hm].
Qed.

Lemma wf_ops m id now :
  wf_membership m → is_i64 now →
  wf_membership (heartbeat m id now).1 ∧ wf_membership (suspect m id now).1 ∧
  wf_membership (offline m id now).1 ∧ wf_membership (leave m id now).1 ∧
  wf_membership (refute m id now).1.
Proof.
  intros Hm Hn. unfold heartbeat, suspect, offline, leave, refute.
  destruct (members m !! id) as [r|] eqn:E; [|done].
  destruct (wf_transitions r now (Hm _ _ E) Hn) as (?&?&?&?&?&_).
  split_and!; simpl; try case_bool_decide; by apply (wf_put m).
Qed.

Lemma offline_key_le r now :
  wf_register r → ord_le (order_key r) (order_key (Register.offline now r)).
Proof.
  intros (Hi & Hh & _). destruct (decide (state r = Offline)) as [Hs|Hs].
  - apply key_le_iff. right; right. simpl. split_and!; [done|done|]. by apply u64_saturating_add_ge.
  - by apply reg_le_key, dominates_reg_le, offline_dominates.
Qed.

Lemma advances_offline m id now : wf_membership m → advances m (offline m id now).1.
Proof.
  intros Hm. unfold offline. destruct (members m !! id) as [r|] eqn:E; [|reflexivity].
  apply advances_bump, (advances_put m id r); [done|]. by apply offline_key_le, (Hm id).
Qed.

Lemma get_ops_ne m id id' now :
  id ≠ id' →
  get (suspect m id now).1 id' = get m id' ∧ get (offline m id now).1 id' = get m id'.
Proof.
  intros Hne. unfold suspect, offline, get.
  destruct (members m !! id); [|done]. split; [case_bool_decide|]; simpl; by rewrite lookup_insert_ne.
Qed.

(** One step of the machine: the identity and the configuration stay, members
    only advance, and the invariant holds again. *)
Record evolves (s s' : Swim) : Prop := {
  ev_id : local_node_id s' = local_node_id s;
  ev_config : config s' = config s;
  ev_advances : advances (membership s) (membership s');
  ev_inv : swim_inv s';
}.

Lemma evolves_refl s : swim_inv s → evolves s s.
Proof. intros H. by split. Qed.

Lemma evolves_trans s1 s2 s3 : evolves s1 s2 → evolves s2 s3 → evolves s1 s3.
Proof. intros [? ? ? ?] [? ? ? ?]. split; [congruence|congruence|by etrans|done]. Qed.

Lemma pings_ok_advances id m m' p : advances m m' → pings_ok id m p → pings_ok id m' p.
Proof.
  intros Ha Hp seq ping Hs. destruct (Hp seq ping Hs) as [Ht [r Hr]]. split; [done|].
  destruct (Ha _ _ Hr) as (r' & -> & _). eauto.
Qed.

Lemma evolves_membership s m :
  swim_inv s → keyed m → wf_membership m → advances (membership s) m →
  local_ok (local_node_id s) m → evolves s (set_membership m s).
Proof.
  intros [] Hk Hw Ha Hl. split; [done..|]. split; simpl; eauto using pings_ok_advances.
Qed.

Lemma evolves_merge s r :
  swim_inv s → wf_register r → node_id r ≠ local_node_id s →
  evolves s (set_membership (merge_register (membership s) r) s).
Proof.
  intros Hinv Hr Hne. pose proof Hinv as [? ? ? (l & Hl & ?) ? ? ?].
  apply evolves_membership; auto using wf_merge_register with lycoris.
  exists l. rewrite merge_register_lookup, decide_False by done. by rewrite Hl.
Qed.

Lemma evolves_suspect_offline s id now :
  swim_inv s → is_i64 now → id ≠ local_node_id s →
  evolves s (set_membership (suspect (membership s) id now).1 s) ∧
  evolves s (set_membership (offline (membership s) id now).1 s).
Proof.
  intros Hinv Hn Hne. pose proof Hinv as [? Hk Hw (l & Hl & ?) ? ? ?].
  destruct (keyed_ops _ id now Hk) as (?&?&?&?&?). destruct (wf_ops _ id now Hw Hn) as (?&?&?&?&?).
  destruct (get_ops_ne (membership s) id (local_node_id s) now Hne) as [E1 E2].
  split; apply evolves_membership; auto using advances_suspect, advances_offline;
    exists l; by rewrite ?E1, ?E2.
Qed.

Lemma evolves_refute s now r :
  swim_inv s → is_i64 now → get (membership s) (local_node_id s) = Some r → state r = Active →
  evolves s (set_membership (refute (membership s) (local_node_id s) now).1 s).
Proof.
  intros Hinv Hn Hr Hs. pose proof Hinv as [? Hk Hw (l & Hl & ?) ? ? ?].
  destruct (keyed_ops _ (local_node_id s) now Hk) as (?&?&?&?&?).
  destruct (wf_ops _ (local_node_id s) now Hw Hn) as (?&?&?&?&?).
  apply evolves_membership; eauto using advances_refute.
  exists (Register.refute now r). unfold refute, get in *. rewrite Hr. simpl.
  rewrite lookup_insert_eq. by split; [|left].
Qed.

Lemma evolves_heartbeat s now :
  swim_inv s → is_i64 now →
  evolves s (set_membership (heartbeat (membership s) (local_node_id s) now).1 s).
Proof.
  intros Hinv Hn. pose proof Hinv as [? Hk Hw (l & Hl & Hs) ? ? ?].
  destruct (keyed_ops _ (local_node_id s) now Hk) as (?&?&?&?&?).
  destruct (wf_ops _ (local_node_id s) now Hw Hn) as (?&?&?&?&?).
  apply evolves_membership; auto.
  - apply (advances_heartbeat _ _ _ l); [done| |by eapply Hw]. by destruct Hs as [-> | ->].
  - exists (bump_heartbeat now l). unfold heartbeat, get in *. rewrite Hl.
    assert (state (bump_heartbeat now l) = Active ∨ state (bump_heartbeat now l) = Leaving).
    { unfold bump_heartbeat. destruct l as [? ? []]; simpl in *; naive_solver. }
    cbv zeta. case_bool_decide; simpl; by rewrite lookup_insert_eq.
Qed.

Lemma evolves_pending s p :
  swim_inv s → pings_ok (local_node_id s) (membership s) p → one_ping_per_target p →
  evolves s (set_pending p s).
Proof. intros [] Hp H1. split; [done..|reflexivity|]. by split. Qed.

Lemma evolves_failures s f :
  swim_inv s → (∀ id c, f !! id = Some c → 1 ≤ c < failure_threshold (config s)) →
  evolves s (set_failures f s).
Proof. intros [] Hf. split; [done..|reflexivity|]. by split. Qed.

Lemma evolves_since s u : swim_inv s → evolves s (set_suspected_since u s).
Proof. intros []. split; [done..|reflexivity|]. by split. Qed.

Lemma pings_delete s seq :
  swim_inv s →
  pings_ok (local_node_id s) (membership s) (delete seq (pending_pings s)) ∧
  one_ping_per_target (delete seq (pending_pings s)).
Proof.
  intros [? ? ? ? ? Hp H1]. split.
  - intros k p [_ Hk]%lookup_delete_Some. by apply (Hp k).
  - intros k1 k2 p1 p2 [_ Hk1]%lookup_delete_Some [_ Hk2]%lookup_delete_Some. by apply H1.
Qed.

Lemma failures_delete s id :
  swim_inv s → ∀ i c, delete id (consecutive_failures s) !! i = Some c → 1 ≤ c < failure_threshold (config s).
Proof. intros [] i c [_ Hk]%lookup_delete_Some. eauto. Qed.

(** *** Messages *)

Lemma evolves_ack s seq : swim_inv s → evolves s (handle_ack s seq).
Proof.
  intros Hinv. unfold handle_ack. destruct (pending_pings s !! seq) as [p|]; [|by apply evolves_refl].
  eapply evolves_trans; [by apply evolves_pending; [|apply pings_delete..]|].
  destruct (pings_delete s seq Hinv).
  pose proof (ev_inv _ _ (evolves_pending s _ Hinv H H0)) as Hinv'.
  apply evolves_failures; [done|]. by apply failures_delete.
Qed.

Lemma evolves_refute_and_broadcast s now r :
  swim_inv s → is_i64 now → get (membership s) (local_node_id s) = Some r → state r = Active →
  evolves s (refute_and_broadcast s now).1.
Proof.
  intros Hinv Hn Hr Hs. unfold refute_and_broadcast. case_match; by eapply evolves_refute.
Qed.

Lemma local_not_leaving s r :
  swim_inv s → get (membership s) (local_node_id s) = Some r → state r ≠ Leaving → state r = Active.
Proof. intros [? ? ? (l & Hl & [?|?]) ? ? ?] Hr Hs; congruence. Qed.

Lemma wf_set_incarnation i r : is_u64 i → wf_register r → wf_register (set_incarnation i r).
Proof. intros ? (? & ? & ?). by split. Qed.

Lemma evolves_message s from msg now :
  swim_inv s → wf_message msg → is_i64 now → evolves s (on_message s from msg now).1.
Proof.
  intros Hinv Hmsg Hn. destruct msg as [seq|seq|id inc|r|id inc]; simpl in *.
  - by apply evolves_refl.
  - by apply evolves_ack.
  - unfold handle_suspect_state. case_decide as Hid.
    + subst id. destruct (get (membership s) (local_node_id s)) as [l|] eqn:El; [|by apply evolves_refl].
      case_bool_decide as Hd; [|by apply evolves_refl]. destruct Hd as [Hs _].
      eapply evolves_refute_and_broadcast; eauto using local_not_leaving.
    + destruct (get (membership s) id) as [e|] eqn:Ee; [|by apply evolves_refl].
      case_decide; [by apply evolves_refl|]. pose proof (inv_wf s Hinv _ _ Ee).
      pose proof (inv_keyed s Hinv _ _ Ee) as Hk.
      destruct (wf_transitions (set_incarnation inc e) now) as (_&?&_); [by apply wf_set_incarnation|done|].
      apply evolves_merge; [done..|].
      destruct (node_id_transitions (set_incarnation inc e) now) as (_&->&_). simpl. congruence.
  - unfold handle_alive_state. case_decide; [|by apply evolves_merge].
    unfold refute_if_dominated. case_decide; [by apply evolves_refl|].
    destruct (get (membership s) (local_node_id s)) as [l|] eqn:El; [|by apply evolves_refl].
    case_bool_decide as Hl; [by apply evolves_refl|]. simpl.
    destruct (dominates l r); [by apply evolves_refl|].
    eapply evolves_refute_and_broadcast; eauto using local_not_leaving.
  - unfold handle_leave_state. case_decide as Hid; [by apply evolves_refl|].
    destruct (get (membership s) id) as [e|] eqn:Ee; [|by apply evolves_refl].
    case_decide; [by apply evolves_refl|]. pose proof (inv_wf s Hinv _ _ Ee).
    pose proof (inv_keyed s Hinv _ _ Ee) as Hk.
    destruct (wf_transitions (set_incarnation inc e) now) as (_&_&?&_); [by apply wf_set_incarnation|done|].
    apply evolves_merge; [done..|].
    destruct (node_id_transitions (set_incarnation inc e) now) as (_&_&_&->&_). simpl. congruence.
Qed.

(** *** Ticks *)

Lemma failures_insert s id c :
  swim_inv s → 1 ≤ c < failure_threshold (config s) →
  ∀ i d, <[id := c]> (consecutive_failures s) !! i = Some d → 1 ≤ d < failure_threshold (config s).
Proof. intros Hinv Hc i d [[_ <-]|[_ Hd]]%lookup_insert_Some; [done|]. by apply (inv_failures s Hinv i). Qed.

(** The counter written by [mark_suspected]. *)
Definition next_failures (s : Swim) (tgt : string) : Z :=
  match consecutive_failures s !! tgt with Some count => count + 1 | None => 1 end.

Lemma next_failures_spec s tgt :
  swim_inv s →
  match consecutive_failures s !! tgt with Some count => u32_wrap (count + 1) | None => 1 end
  = next_failures s tgt ∧ 1 ≤ next_failures s tgt ∧ is_u32 (next_failures s tgt).
Proof.
  intros Hinv. unfold next_failures. pose proof (inv_config s Hinv) as (_ & _ & Ht & _).
  destruct (consecutive_failures s !! tgt) as [c|] eqn:E.
  - apply (inv_failures s Hinv) in E. unfold is_u32, u32_max, u32_wrap in *.
    rewrite Z.mod_small by lia. lia.
  - unfold is_u32, u32_max. lia.
Qed.

Lemma evolves_mark_suspected s tgt now :
  swim_inv s → is_i64 now → tgt ≠ local_node_id s → evolves s (mark_suspected s tgt now).1.
Proof.
  intros Hinv Hn Hne. unfold mark_suspected.
  destruct (next_failures_spec s tgt Hinv) as (-> & H1 & Hu). cbv zeta. cbn [config set_failures].
  case_decide as Hlt.
  - apply evolves_failures; [done|]. apply failures_insert; [done|]. lia.
  - cbn [membership consecutive_failures set_failures]. rewrite delete_insert_eq.
    pose proof (evolves_failures s (delete tgt (consecutive_failures s)) Hinv
      (failures_delete s tgt Hinv)) as He.
    destruct (suspect (membership s) tgt now) as [m o] eqn:Es. cbn [fst].
    eapply evolves_trans; [exact He|].
    destruct (evolves_suspect_offline (set_failures (delete tgt (consecutive_failures s)) s) tgt now)
      as [Hsus _]; [apply He|done|done|].
    cbn [membership set_failures] in Hsus. by rewrite Es in Hsus.
Qed.

Lemma evolves_fold {X} (f : Swim * list SwimAction → X → Swim * list SwimAction) l s acts :
  (∀ s' acts x, x ∈ l → evolves s s' → evolves s' (f (s', acts) x).1) →
  swim_inv s → evolves s (foldl f (s, acts) l).1.
Proof.
  revert s acts. induction l as [|x l IH]; intros s acts Hf Hinv; cbn [foldl]; [by apply evolves_refl|].
  pose proof (Hf s acts x ltac:(by left) (evolves_refl s Hinv)) as He.
  destruct (f (s, acts) x) as [s' acts']. cbn [fst] in He.
  eapply evolves_trans; [exact He|]. apply IH; [|apply He]. intros s2 acts2 y Hy He2.
  apply Hf; [by right|]. by eapply evolves_trans.
Qed.

Section ticking_inv.
Context `{!HashIter}.

Lemma evolves_expire_ping s acts seq now :
  swim_inv s → is_i64 now → evolves s (expire_ping now (s, acts) seq).1.
Proof.
  intros Hinv Hn. unfold expire_ping.
  destruct (pending_pings s !! seq) as [p|] eqn:Ep; [|by apply evolves_refl].
  destruct (pings_delete s seq Hinv) as [Hp1 Hp2].
  pose proof (evolves_pending s _ Hinv Hp1 Hp2) as He.
  destruct (mark_suspected _ _ _) as [s' more] eqn:Em. cbn [fst].
  eapply evolves_trans; [exact He|].
  pose proof (evolves_mark_suspected (set_pending (delete seq (pending_pings s)) s) (target p) now)
    as Hm. rewrite Em in Hm. apply Hm; [apply He|done|]. by apply (inv_pings s Hinv seq p).
Qed.

Lemma evolves_check_timeouts s now_u64 now :
  swim_inv s → is_i64 now → evolves s (check_timeouts s now_u64 now).1.
Proof. intros Hinv Hn. apply evolves_fold; [|done]. intros s' acts x _ He. apply evolves_expire_ping; [apply He|done]. Qed.

Lemma elem_of_suspected_ids s id :
  keyed (membership s) →
  id ∈ suspected_ids s ↔
    id ≠ local_node_id s ∧ ∃ r, get (membership s) id = Some r ∧ state r = Suspected.
Proof.
  intros Hk. unfold suspected_ids, active. rewrite list_elem_of_fmap.
  setoid_rewrite list_elem_of_filter. setoid_rewrite list_elem_of_filter.
  setoid_rewrite elem_of_all; [|done]. split.
  - intros (r & -> & (Hne & Hs) & _ & Hr). eauto.
  - intros (Hne & r & Hr & Hs). exists r. pose proof (Hk _ _ Hr) as Hid. unfold get in Hr.
    rewrite Hid, Hs. done.
Qed.

Lemma observe_suspected_fold now timeout (f : string → Z) l since0 exp0 :
  NoDup l → (∀ id, id ∈ l → default now (since0 !! id) = f id) →
  ∃ since', foldl (observe_suspected now timeout) (since0, exp0) l
    = (since', exp0 ++ filter (λ id, timeout ≤ i64_saturating_sub now (f id)) l) ∧
    ∀ id, since' !! id = if decide (id ∈ l) then Some (f id) else since0 !! id.
Proof.
  intros Hnd. revert since0 exp0. induction Hnd as [|x l Hx Hnd IH]; intros since0 exp0 Hf.
  - exists since0. split; [by rewrite app_nil_r|].
    intros id. case_decide as Hin; [by apply elem_of_nil in Hin|done].
  - cbn [foldl]. unfold observe_suspected at 2. rewrite (Hf x) by by left.
    edestruct (IH (<[x := f x]> since0)) as (since' & -> & Hs).
    { intros id Hid. rewrite lookup_insert_ne by (intros ->; done). apply Hf. by right. }
    exists since'. split.
    + f_equal. rewrite filter_cons. case_decide; [by rewrite <- app_assoc|done].
    + intros id. rewrite Hs, lookup_insert.
      repeat case_decide; rewrite ?elem_of_cons in *; naive_solver.
Qed.

Lemma suspected_ids_NoDup s : keyed (membership s) → NoDup (suspected_ids s).
Proof.
  intros Hk. unfold suspected_ids, active. by do 2 apply NoDup_fmap_filter; apply all_NoDup_ids.
Qed.

(** The clock value at which the timer of a suspected member started. *)
Definition since_of (s : Swim) (now : Z) (id : string) : Z :=
  default now (suspected_since_ms s !! id).

Definition suspect_expired (s : Swim) (now : Z) (id : string) : Prop :=
  i64_try_from_or_max (suspect_timeout_ms (config s)) ≤ i64_saturating_sub now (since_of s now id).

#[export] Instance suspect_expired_dec s now id : Decision (suspect_expired s now id).
Proof. unfold suspect_expired. apply _. Defined.

Definition expired_ids (s : Swim) (now : Z) : list string :=
  filter (suspect_expired s now) (suspected_ids s).

Lemma check_suspect_timeouts_unfold s now :
  keyed (membership s) →
  ∃ since', check_suspect_timeouts s now
    = foldl (expire_suspect now) (set_suspected_since since' s, []) (expired_ids s now) ∧
    ∀ id, since' !! id = if decide (id ∈ suspected_ids s) then Some (since_of s now id) else None.
Proof.
  intros Hk. unfold check_suspect_timeouts. cbv zeta.
  edestruct (observe_suspected_fold now (i64_try_from_or_max (suspect_timeout_ms (config s)))
    (since_of s now) (suspected_ids s)) as (since' & -> & Hs); [by apply suspected_ids_NoDup| |].
  - intros id Hid. unfold since_of. f_equal.
    destruct (suspected_since_ms s !! id) eqn:E; rewrite map_lookup_filter, E; simpl; [|done].
    by rewrite option_guard_True.
  - exists since'. split; [done|]. intros id. rewrite Hs. case_decide as Hin; [done|].
    rewrite map_lookup_filter. destruct (suspected_since_ms s !! id); simpl; [|done].
    by rewrite option_guard_False.
Qed.

Lemma evolves_check_suspect_timeouts s now :
  swim_inv s → is_i64 now → evolves s (check_suspect_timeouts s now).1.
Proof.
  intros Hinv Hn. pose proof (inv_keyed s Hinv) as Hk.
  destruct (check_suspect_timeouts_unfold s now Hk) as (since' & -> & _).
  pose proof (evolves_since s since' Hinv) as He. eapply evolves_trans; [exact He|].
  apply (evolves_fold (expire_suspect now)); [|apply He]. intros s' acts id Hid He'.
  apply list_elem_of_filter in Hid as [_ Hid]. apply elem_of_suspected_ids in Hid as [Hne _]; [|done].
  assert (id ≠ local_node_id s') as Hne' by (by rewrite (ev_id _ _ He')).
  destruct (evolves_suspect_offline s' id now (ev_inv _ _ He') Hn Hne') as [_ Hoff].
  unfold expire_suspect. destruct (offline (membership s') id now) as [m changed]. cbn [fst] in Hoff.
  destruct changed; [case_match|]; exact Hoff.
Qed.

(** *** Probes *)

(** A fold that keeps the best candidate: the result is a candidate that no
    other one beats. *)
Lemma consider_fold s now_u64 l acc :
  let res := foldl (consider_target s now_u64) acc l in
  acc.2 ≤ res.2 ∧
  (∀ t, res.1 = Some t → res.1 = acc.1 ∧ res.2 = acc.2 ∨
     t ∈ l ∧ is_pending s t = false ∧ ping_interval_ms (config s) ≤ probe_gap s now_u64 t ∧
     acc.2 < probe_gap s now_u64 t ∧ res.2 = probe_gap s now_u64 t) ∧
  (res.1 = None → acc.1 = None ∧ res.2 = acc.2) ∧
  (∀ t, t ∈ l → is_pending s t = false → ping_interval_ms (config s) ≤ probe_gap s now_u64 t →
     probe_gap s now_u64 t ≤ res.2).
Proof.
  revert acc. induction l as [|t l IH]; intros [c g]; cbv zeta.
  - cbn [foldl fst snd]. split_and!; [done|auto|done|]. intros t Ht. by apply elem_of_nil in Ht.
  - cbn [foldl]. destruct (IH (consider_target s now_u64 (c, g) t)) as (I1 & I2 & I3 & I4).
    cbv zeta in I1, I2, I3, I4. set (res := foldl _ _ l) in *. clearbody res.
    unfold consider_target in I1, I2, I3, I4.
    destruct (is_pending s t) eqn:Ep; [|case_decide as Hg]; cbn [fst snd] in *.
    + split_and!; [done| |done|].
      * intros t' Ht'. destruct (I2 t' Ht') as [?|(?&?)]; [by left|right; split; [by right|done]].
      * intros t' [->|Ht']%elem_of_cons Hp Hi; [congruence|auto].
    + destruct Hg as [Hg1 Hg2]. split_and!; [lia| | |].
      * intros t' Ht'. destruct (I2 t' Ht') as [[Hc Hr]|(?&?&?&?&?)].
        -- right. rewrite Hc in Ht'. injection Ht' as <-. split_and!; [by left|done|lia..].
        -- right. split_and!; [by right|done|lia..].
      * intros Hn. by destruct (I3 Hn).
      * intros t' [->|Ht']%elem_of_cons Hp Hi; [lia|auto].
    + split_and!; [done| |done|].
      * intros t' Ht'. destruct (I2 t' Ht') as [?|(?&?)]; [by left|right; split; [by right|done]].
      * intros t' [->|Ht']%elem_of_cons Hp Hi; [lia|auto].
Qed.

Definition probe_targets (s : Swim) : list string :=
  node_id <$> filter (λ r, node_id r ≠ local_node_id s) (active (membership s)).

Lemma elem_of_probe_targets s id :
  keyed (membership s) →
  id ∈ probe_targets s ↔
    id ≠ local_node_id s ∧ ∃ r, get (membership s) id = Some r ∧ is_active (state r) = true.
Proof.
  intros Hk. unfold probe_targets, active. rewrite list_elem_of_fmap.
  setoid_rewrite list_elem_of_filter. setoid_rewrite list_elem_of_filter.
  setoid_rewrite elem_of_all; [|done]. split.
  - intros (r & -> & Hne & Hs & Hr). eauto.
  - intros (Hne & r & Hr & Hs). exists r. pose proof (Hk _ _ Hr) as Hid. unfold get in Hr.
    by rewrite Hid.
Qed.

Lemma is_pending_spec s t :
  is_pending s t = true ↔ ∃ seq p, pending_pings s !! seq = Some p ∧ target p = t.
Proof.
  unfold is_pending. rewrite existsb_exists. setoid_rewrite <- list_elem_of_In.
  setoid_rewrite elem_of_hash_values. setoid_rewrite bool_decide_eq_true. naive_solver.
Qed.

Lemma evolves_generate_probes s now_u64 now :
  swim_inv s → evolves s (generate_probes s now_u64 now).1.
Proof.
  intros Hinv. unfold generate_probes. fold (probe_targets s).
  destruct (consider_fold s now_u64 (probe_targets s) (None, 0)) as (_ & H2 & _ & _).
  cbv zeta in H2. destruct (foldl _ _ _) as [c g]. cbn [fst snd] in H2.
  destruct c as [t|]; [|by apply evolves_refl]. destruct (H2 t eq_refl) as [[? _]|(Ht & Hp & _)]; [done|].
  apply elem_of_probe_targets in Ht as (Hne & r & Hr & _); [|apply Hinv].
  unfold send_ping_to. cbn [fst]. split; [done|done|reflexivity|]. destruct Hinv. split; try done; cbn.
  - intros seq p [[_ <-]|[_ Hs]]%lookup_insert_Some; [by split|]. by apply (inv_pings0 seq).
  - intros s1 s2 p1 p2 [[<- <-]|[? Hs1]]%lookup_insert_Some [[<- <-]|[? Hs2]]%lookup_insert_Some Heq;
      [done| | |by apply (inv_one_ping0 s1 s2 p1 p2)]; exfalso;
      assert (is_pending s t = true) by (apply is_pending_spec; eauto); congruence.
Qed.

Lemma evolves_tick s now : swim_inv s → is_i64 now → evolves s (tick s now).1.
Proof.
  intros Hinv Hn. unfold tick.
  pose proof (evolves_heartbeat s now Hinv Hn) as H1.
  set (s1 := set_membership _ s) in *. cbv zeta.
  pose proof (evolves_check_timeouts s1 (u64_try_from_or_0 now) now (ev_inv _ _ H1) Hn) as H2.
  destruct (check_timeouts s1 _ now) as [s2 a2]. cbn [fst] in H2.
  pose proof (evolves_check_suspect_timeouts s2 now (ev_inv _ _ H2) Hn) as H3.
  destruct (check_suspect_timeouts s2 now) as [s3 a3]. cbn [fst] in H3.
  pose proof (evolves_generate_probes s3 (u64_try_from_or_0 now) now (ev_inv _ _ H3)) as H4.
  destruct (generate_probes s3 _ now) as [s4 a4]. cbn [fst] in H4 |- *.
  eauto using evolves_trans.
Qed.
End ticking_inv.

(** ** What the timeouts do, exactly *)

Lemma offline_lookup m id id' now :
  get (offline m id now).1 id'
  = if decide (id = id') then Register.offline now <$> get m id' else get m id'.
Proof.
  unfold offline, get. destruct (members m !! id) as [r|] eqn:E.
  - simpl. rewrite lookup_insert. case_decide; [|done]. subst. by rewrite E.
  - case_decide; [|done]. subst. simpl. by rewrite E.
Qed.

Lemma expire_suspect_fold now l s acts :
  NoDup l → (∀ id, id ∈ l → is_Some (get (membership s) id)) →
  ∃ m, foldl (expire_suspect now) (s, acts) l
       = (set_membership m s,
          acts ++ (Broadcast ∘ Alive ∘ Register.offline now <$> omap (get (membership s)) l)) ∧
    ∀ id, get m id = if decide (id ∈ l) then Register.offline now <$> get (membership s) id
                     else get (membership s) id.
Proof.
  intros Hnd. revert s acts. induction Hnd as [|x l Hx Hnd IH]; intros s acts Hin.
  - exists (membership s). cbn [foldl omap list_omap fmap list_fmap].
    rewrite app_nil_r. split; [by destruct s|].
    intros id. case_decide as Hi; [by apply elem_of_nil in Hi|done].
  - destruct (Hin x ltac:(by left)) as [r Hr]. cbn [foldl].
    pose proof (λ id, offline_lookup (membership s) x id now) as Hoff.
    assert ((offline (membership s) x now).2 = true) as Hch.
    { unfold offline, get in *. by rewrite Hr. }
    unfold expire_suspect at 2. destruct (offline (membership s) x now) as [m1 changed]. cbn [fst snd] in *.
    subst changed. cbn [membership set_membership]. rewrite (Hoff x), decide_True, Hr by done. cbn [fmap option_fmap option_map].
    edestruct (IH (set_membership m1 s)) as (m & -> & Hm).
    { intros id Hid. cbn. rewrite Hoff. rewrite decide_False by (intros ->; done). apply Hin. by right. }
    exists m. cbn [membership set_membership] in *. split.
    + f_equal. cbn [omap list_omap]. rewrite Hr. cbn [fmap list_fmap]. rewrite <- app_assoc. cbn. do 3 f_equal.
      apply list_omap_ext, Forall2_same_length_lookup_2; [done|]. intros i y z Hy Hz. simplify_eq.
      rewrite Hoff, decide_False; [done|]. intros ->. apply Hx. by eapply list_elem_of_lookup_2.
    + intros id. rewrite Hm, Hoff.
      repeat case_decide; rewrite ?elem_of_cons in *; naive_solver.
Qed.

(** A member's register across the probe timeouts: untouched, or suspected. *)
Record probe_frame (now : Z) (s s' : Swim) : Prop := {
  pf_id : local_node_id s' = local_node_id s;
  pf_config : config s' = config s;
  pf_since : suspected_since_ms s' = suspected_since_ms s;
  pf_members : ∀ id, get (membership s') id = get (membership s) id ∨
    ∃ r, get (membership s) id = Some r ∧ state r = Active ∧
         get (membership s') id = Some (Register.suspect now r);
}.

Lemma probe_frame_refl now s : probe_frame now s s.
Proof. split; auto. Qed.

Lemma suspect_not_active now r : state (Register.suspect now r) ≠ Active.
Proof. unfold Register.suspect. by destruct r as [? ? []]. Qed.

Lemma probe_frame_trans now s1 s2 s3 :
  probe_frame now s1 s2 → probe_frame now s2 s3 → probe_frame now s1 s3.
Proof.
  intros [I1 C1 S1 M1] [I2 C2 S2 M2]. split; [congruence..|]. intros id.
  destruct (M1 id) as [E1|(r & Hr & Ha & E1)], (M2 id) as [E2|(r2 & Hr2 & Ha2 & E2)].
  - left. congruence.
  - right. exists r2. split_and!; congruence.
  - right. exists r. split_and!; congruence.
  - exfalso. rewrite E1 in Hr2. injection Hr2 as <-. by apply suspect_not_active in Ha2.
Qed.

Lemma suspect_lookup m id id' now :
  get (suspect m id now).1 id'
  = if decide (id = id') then Register.suspect now <$> get m id' else get m id'.
Proof.
  unfold suspect, get. destruct (members m !! id) as [r|] eqn:E.
  - case_bool_decide; simpl; rewrite lookup_insert; (case_decide; [|done]); subst; by rewrite E.
  - case_decide; [|done]. subst. simpl. by rewrite E.
Qed.

Lemma mark_suspected_frame s tgt now : probe_frame now s (mark_suspected s tgt now).1.
Proof.
  unfold mark_suspected. cbv zeta. case_decide; [by split; auto|].
  cbn [membership set_failures]. pose proof (λ id, suspect_lookup (membership s) tgt id now) as Hs.
  destruct (suspect (membership s) tgt now) as [m o]. cbn [fst] in *.
  split; [done..|]. intros id. cbn. rewrite Hs. case_decide; [|by left].
  destruct (get (membership s) id) as [r|] eqn:Er; [|by left]. simpl.
  destruct (decide (state r = Active)) as [Ha|Ha]; [right; by exists r|left].
  unfold Register.suspect. by destruct r as [? ? []].
Qed.

Section exact_ticks.
Context `{!HashIter}.

Lemma check_timeouts_frame s now_u64 now : probe_frame now s (check_timeouts s now_u64 now).1.
Proof.
  unfold check_timeouts. generalize (timed_out s now_u64), ([] : list SwimAction). intros l. revert s.
  induction l as [|seq l IH]; intros s acts; cbn [foldl]; [apply probe_frame_refl|].
  unfold expire_ping at 2. destruct (pending_pings s !! seq) as [p|]; [|apply IH].
  pose proof (mark_suspected_frame (set_pending (delete seq (pending_pings s)) s) (target p) now) as Hm.
  destruct (mark_suspected _ _ _) as [s2 more]. cbn [fst] in Hm.
  eapply probe_frame_trans; [|apply IH].
  eapply probe_frame_trans; [|exact Hm]. split; auto.
Qed.

Lemma check_suspect_timeouts_spec s now :
  keyed (membership s) →
  let '(s', actions) := check_suspect_timeouts s now in
  (∀ id, get (membership s') id =
     if decide (id ∈ expired_ids s now) then Register.offline now <$> get (membership s) id
     else get (membership s) id) ∧
  (∀ id, suspected_since_ms s' !! id =
     if decide (id ∈ suspected_ids s) then Some (since_of s now id) else None) ∧
  actions = Broadcast ∘ Alive ∘ Register.offline now <$> omap (get (membership s)) (expired_ids s now) ∧
  local_node_id s' = local_node_id s.
Proof.
  intros Hk. destruct (check_suspect_timeouts_unfold s now Hk) as (since' & -> & Hs).
  edestruct (expire_suspect_fold now (expired_ids s now) (set_suspected_since since' s) [])
    as (m & -> & Hm).
  - apply NoDup_filter. by apply suspected_ids_NoDup.
  - intros id Hid. apply list_elem_of_filter in Hid as [_ Hid].
    apply elem_of_suspected_ids in Hid as (_ & r & Hr & _); [|done]. cbn. eauto.
  - by split_and!.
Qed.

Lemma generate_probes_frame s now_u64 now :
  membership (generate_probes s now_u64 now).1 = membership s ∧
  suspected_since_ms (generate_probes s now_u64 now).1 = suspected_since_ms s.
Proof. unfold generate_probes. destruct (foldl _ _ _) as [[t|] g]; done. Qed.

(** A tick, for a member other than the local node: the register [r1] the
    probe timeouts left, then the verdict of the suspicion timer. *)
Lemma tick_member s now id :
  swim_inv s → is_i64 now → id ≠ local_node_id s →
  ∃ r1, (r1 = get (membership s) id ∨
         ∃ r, get (membership s) id = Some r ∧ state r = Active ∧ r1 = Some (Register.suspect now r)) ∧
  let suspected := r1 ≫= λ r, if decide (state r = Suspected) then Some r else None in
  get (membership (tick s now).1) id =
    match suspected with
    | Some r => if decide (suspect_expired s now id) then Some (Register.offline now r) else Some r
    | None => r1
    end ∧
  suspected_since_ms (tick s now).1 !! id = (λ _, since_of s now id) <$> suspected ∧
  (∀ r, suspected = Some r → suspect_expired s now id →
     Broadcast (Alive (Register.offline now r)) ∈ (tick s now).2).
Proof.
  intros Hinv Hn Hne. unfold tick.
  pose proof (evolves_heartbeat s now Hinv Hn) as H1.
  assert (get (heartbeat (membership s) (local_node_id s) now).1 id = get (membership s) id) as Hhb.
  { unfold heartbeat, get. destruct (members (membership s) !! local_node_id s); [|done].
    cbv zeta. case_bool_decide; simpl; by rewrite lookup_insert_ne. }
  cbv zeta. set (s1 := set_membership _ s) in *.
  pose proof (evolves_check_timeouts s1 (u64_try_from_or_0 now) now (ev_inv _ _ H1) Hn) as H2.
  pose proof (check_timeouts_frame s1 (u64_try_from_or_0 now) now) as [Fi Fc Fs Fm].
  destruct (check_timeouts s1 _ now) as [s2 a2]. cbn [fst] in H2, Fi, Fc, Fs, Fm.
  pose proof (inv_keyed s2 (ev_inv _ _ H2)) as Hk2.
  pose proof (check_suspect_timeouts_spec s2 now Hk2) as H3.
  destruct (check_suspect_timeouts s2 now) as [s3 a3]. destruct H3 as (Hm & Hs & Ha & _).
  pose proof (generate_probes_frame s3 (u64_try_from_or_0 now) now) as [G1 G2].
  destruct (generate_probes s3 _ now) as [s4 a4]. cbn [fst snd] in G1, G2 |- *.
  exists (get (membership s2) id). split.
  { specialize (Fm id). cbn [membership s1 set_membership] in Fm. rewrite Hhb in Fm.
    destruct Fm as [->|(r & ? & ? & ->)]; eauto. }
  assert (since_of s2 now id = since_of s now id) as Hso by (unfold since_of; by rewrite Fs).
  assert (suspect_expired s2 now id ↔ suspect_expired s now id) as Hexp
    by (unfold suspect_expired; rewrite Hso, Fc; done).
  assert (id ∈ suspected_ids s2 ↔ ∃ r, get (membership s2) id = Some r ∧ state r = Suspected) as Hsus.
  { rewrite elem_of_suspected_ids by done. rewrite Fi. cbn. naive_solver. }
  assert (id ∈ expired_ids s2 now ↔ suspect_expired s now id ∧ id ∈ suspected_ids s2) as Hex.
  { unfold expired_ids. by rewrite list_elem_of_filter, Hexp. }
  cbv zeta. rewrite G1, G2, Hm, Hs, Hso. destruct (get (membership s2) id) as [r|] eqn:Er; simpl.
  - destruct (decide (state r = Suspected)) as [Hr|Hr]; simpl.
    + rewrite (decide_True (P := id ∈ suspected_ids s2)) by (apply Hsus; eauto). split_and!; [|done|].
      * repeat case_decide; naive_solver.
      * intros r' [= <-] He. rewrite !elem_of_app, Ha. left; right.
        apply list_elem_of_fmap. exists r. split; [done|]. apply list_elem_of_omap. exists id.
        split; [|done]. apply Hex. split; [done|]. apply Hsus. eauto.
    + rewrite !decide_False by naive_solver. done.
  - rewrite !decide_False by naive_solver. done.
Qed.
End exact_ticks.

(** ** Runs *)

Inductive event : Type :=
| Received (from : string) (message : SwimMessage) (now_ms : Z)
| Ticked (now_ms : Z).

Definition wf_event (e : event) : Prop :=
  match e with Received _ m now => wf_message m ∧ is_i64 now | Ticked now => is_i64 now end.

Section runs.
Context `{!HashIter}.

Definition handle (s : Swim) (e : event) : Swim :=
  match e with
  | Received from m now => (on_message s from m now).1
  | Ticked now => (tick s now).1
  end.

Definition run (s : Swim) (es : list event) : Swim := foldl handle s es.

Lemma evolves_handle s e : swim_inv s → wf_event e → evolves s (handle s e).
Proof. destruct e; simpl; [intros ? []; by apply evolves_message|apply evolves_tick]. Qed.

Lemma evolves_run s es : swim_inv s → Forall wf_event es → evolves s (run s es).
Proof.
  intros Hinv Hes. revert s Hinv. induction Hes as [|e es He Hes IH]; intros s Hinv; [by apply evolves_refl|].
  pose proof (evolves_handle s e Hinv He) as H1. cbn [run foldl].
  eapply evolves_trans; [exact H1|]. apply IH, H1.
Qed.
End runs.

Lemma swim_inv_new id cfg local :
  wf_config cfg → wf_register local → node_id local = id → state local = Active →
  swim_inv (new id cfg local).
Proof.
  intros Hc Hw <- Hs. split; cbn [new membership config local_node_id pending_pings consecutive_failures];
    [done|apply keyed_merge_register, keyed_new|apply wf_merge_register; done| |done|done|done].
  exists local. rewrite merge_register_lookup, decide_True by done. by split; [|left].
Qed.

(** ** Properties *)


Lemma wf_default_config : wf_config default_config.
Proof. unfold wf_config, is_u64, is_u32, u64_max, u32_max. simpl. lia. Qed.

Definition wit_local : MemberRegister := Register.new "me" "127.0.0.1:9" 1 0.
Definition wit_run : list event :=
  [Received "a" (Alive wit_a) 1000; Received "a" (Suspect "me" 1) 1500; Ticked 2000; Ticked 5000].

Lemma wit_wf : wf_register wit_local ∧ wf_register wit_a ∧ Forall wf_event wit_run.
Proof.
  unfold wf_register, wf_event, is_u64, is_i64, u64_max, i64_min, i64_max, wit_run.
  split_and!; try (repeat constructor; simpl; unfold wf_register, is_u64, is_i64, u64_max, i64_min, i64_max; simpl); lia.
Qed.


(** The verdict on a suspected member is a function of the local clock and
    of the time this node first saw it suspected, and of nothing in the
    register: at a tick it is declared offline, and the verdict broadcast, if
    that time is at least the timeout ago; otherwise its register is untouched
    and the timer keeps its start. *)
Theorem tick_verdict `{!HashIter} s now id r :
  swim_inv s → is_i64 now → id ≠ local_node_id s →
  get (membership s) id = Some r → state r = Suspected →
  (suspect_expired s now id →
     get (membership (tick s now).1) id = Some (Register.offline now r) ∧
     Broadcast (Alive (Register.offline now r)) ∈ (tick s now).2) ∧
  (¬ suspect_expired s now id → get (membership (tick s now).1) id = Some r) ∧
  suspected_since_ms (tick s now).1 !! id = Some (since_of s now id).
Proof.
  intros Hinv Hn Hne Hr Hs.
  destruct (tick_member s now id Hinv Hn Hne) as (r1 & Hr1 & Hget & Hsince & Hact).
  assert (r1 = Some r) as -> by (destruct Hr1 as [->|(r' & ? & ? & _)]; [done|congruence]).
  simpl in *. rewrite decide_True in * by done. rewrite Hget, Hsince.
  split_and!; [|by intros; rewrite decide_False|done].
  intros He. rewrite decide_True by done. split; [done|by apply Hact].
Qed.

(** No tick declares a member offline unless the timer, whose start is
    read from the suspicions recorded by the previous ticks, has run out; and a
    member that was not suspected before the tick can only be declared offline
    by it if its own timer entry was left over or the timeout is zero. *)
Theorem offline_only_after_timeout `{!HashIter} s now id r r' :
  swim_inv s → is_i64 now → id ≠ local_node_id s →
  get (membership s) id = Some r → state r ≠ Offline →
  get (membership (tick s now).1) id = Some r' → state r' = Offline →
  suspect_expired s now id ∧ (state r = Suspected ∨ state r = Active) ∧
  (suspected_since_ms s !! id = None → suspect_timeout_ms (config s) = 0).
Proof.
  intros Hinv Hn Hne Hr Hs Hr' Hs'.
  destruct (tick_member s now id Hinv Hn Hne) as (r1 & Hr1 & Hget & _ & _).
  assert (suspect_expired s now id ∧ (state r = Suspected ∨ state r = Active)) as [He Hst].
  { rewrite Hr' in Hget. destruct Hr1 as [->|(r2 & Hr2 & Ha & ->)].
    - rewrite Hr in Hget. simpl in Hget. case_decide; [|congruence].
      case_decide; [auto|congruence].
    - rewrite Hr in Hr2. injection Hr2 as <-. cbn [mbind option_bind] in Hget.
      assert (state (Register.suspect now r) = Suspected) as Hsus
        by (unfold Register.suspect; by rewrite Ha).
      rewrite decide_True in Hget by done. case_decide; [auto|congruence]. }
  split_and!; [done|done|]. intros Hnone. unfold suspect_expired, since_of in He.
  rewrite Hnone in He. simpl in He. pose proof (inv_config s Hinv) as (_ & _ & _ & Hcfg).
  unfold i64_try_from_or_max, i64_saturating_sub, is_u64, u64_max, i64_max, i64_min in *.
  case_decide; lia.
Qed.

Ltac small_int :=
  simpl; unfold is_u64, is_i64, u64_max, i64_min, i64_max; lia.

(** A detector that has suspected the member ["a"]. *)
Definition wit_swim : Swim :=
  run (H := gmap_hash_iter) (new "me" default_config wit_local)
    [Received "a" (Alive wit_a) 1000; Received "b" (Suspect "a" 1) 1000].
Definition wit_suspected : MemberRegister := Register.suspect 1000 wit_a.

Lemma wit_swim_inv : swim_inv wit_swim.
Proof.
  destruct wit_wf as (Hl & Ha & _).
  apply evolves_run; [by apply swim_inv_new; [apply wf_default_config|..]|].
  apply Forall_cons_2; [|apply Forall_cons_2; [|apply Forall_nil_2]]; split; (exact Ha || small_int).
Qed.

Lemma tick_verdict_witness :
  let i := gmap_hash_iter in
  get (membership (tick (tick wit_swim 2000).1 40000).1) "a" = Some (Register.offline 40000 wit_suspected).
Proof.
  intros i. destruct (evolves_tick wit_swim 2000 wit_swim_inv) as [? ? ? Hinv]; [small_int|].
  eapply (tick_verdict (tick wit_swim 2000).1 40000 "a" wit_suspected);
    [exact Hinv|small_int|done|vm_compute; reflexivity|reflexivity|].
  apply (bool_decide_unpack _). vm_compute. done.
Defined.

Lemma offline_only_after_timeout_witness :
  let i := gmap_hash_iter in suspect_expired (tick wit_swim 2000).1 40000 "a".
Proof.
  intros i. destruct (evolves_tick wit_swim 2000 wit_swim_inv) as [? ? ? Hinv]; [small_int|].
  apply (offline_only_after_timeout (tick wit_swim 2000).1 40000 "a" wit_suspected
    (Register.offline 40000 wit_suspected));
    [exact Hinv|small_int|done|vm_compute; reflexivity|done|vm_compute; reflexivity|reflexivity].
Defined.

Lemma ticks_keep_suspicion `{!HashIter} s id r t0 ts :
  swim_inv s → id ≠ local_node_id s → get (membership s) id = Some r → state r = Suspected →
  suspected_since_ms s !! id = Some t0 → Forall is_i64 ts →
  Forall (λ t, i64_saturating_sub t t0 < i64_try_from_or_max (suspect_timeout_ms (config s))) ts →
  let s' := run s (Ticked <$> ts) in
  swim_inv s' ∧ local_node_id s' = local_node_id s ∧ config s' = config s ∧
  get (membership s') id = Some r ∧ suspected_since_ms s' !! id = Some t0.
Proof.
  intros Hinv Hne Hr Hs Ht0 Hts. revert s Hinv Hne Hr Ht0.
  induction Hts as [|t ts Ht Hts IH]; intros s Hinv Hne Hr Ht0 Hexp; [done|].
  apply Forall_cons in Hexp as [He Hexp]. cbn [fmap list_fmap run foldl].
  destruct (evolves_tick s t Hinv Ht) as [Hid Hc _ Hinv'].
  destruct (tick_member s t id Hinv Ht Hne) as (r1 & Hr1 & Hget & Hsince & _).
  assert (r1 = Some r) as -> by (destruct Hr1 as [->|(r' & ? & ? & _)]; [done|congruence]).
  assert (since_of s t id = t0) as Hso by (unfold since_of; by rewrite Ht0).
  assert (¬ suspect_expired s t id) as Hnot by (unfold suspect_expired; rewrite Hso; lia).
  simpl in Hget, Hsince. rewrite decide_True in Hget, Hsince by done. simpl in Hget, Hsince.
  rewrite decide_False in Hget by done. rewrite Hso in Hsince.
  destruct (IH (tick s t).1 Hinv') as (?&?&?&?&?); rewrite ?Hid, ?Hc in *; done.
Qed.

(** C22: suspicion is not forever: a member that is suspected and does not
    refute is kept suspected, its register untouched, by every tick until the
    timeout has elapsed since the first tick that saw it suspected, and is
    declared offline by the first tick after that. *)
Theorem suspicion_runs_out `{!HashIter} s id r t0 ts t :
  swim_inv s → id ≠ local_node_id s → get (membership s) id = Some r → state r = Suspected →
  suspected_since_ms s !! id = None → Forall is_i64 (t0 :: ts ++ [t]) →
  Forall (λ u, i64_saturating_sub u t0 < i64_try_from_or_max (suspect_timeout_ms (config s))) (t0 :: ts) →
  i64_try_from_or_max (suspect_timeout_ms (config s)) ≤ i64_saturating_sub t t0 →
  get (membership (run s (Ticked <$> t0 :: ts))) id = Some r ∧
  get (membership (run s (Ticked <$> t0 :: ts ++ [t]))) id = Some (Register.offline t r).
Proof.
  intros Hinv Hne Hr Hs Hnone Hints Hexp Ht.
  apply Forall_cons in Hints as [Hi0 Hints]. apply Forall_app in Hints as [Hits Hit].
  rewrite Forall_singleton in Hit. apply Forall_cons in Hexp as [He0 Hexp].
  destruct (tick_verdict s t0 id r Hinv Hi0 Hne Hr Hs) as (_ & Hkeep & Hsince).
  destruct (evolves_tick s t0 Hinv Hi0) as [Hid Hc _ Hinv'].
  assert (since_of s t0 id = t0) as Hso by (unfold since_of; by rewrite Hnone).
  rewrite Hso in Hsince. unfold suspect_expired in Hkeep. rewrite Hso in Hkeep.
  destruct (ticks_keep_suspicion (tick s t0).1 id r t0 ts Hinv') as (Hinv2 & Hid2 & Hc2 & Hr2 & Hs2);
    [by rewrite Hid|apply Hkeep; lia|done|done|done|by rewrite Hc|].
  split; [exact Hr2|].
  assert (Ticked <$> t0 :: ts ++ [t] = (Ticked <$> t0 :: ts) ++ [Ticked t]) as ->
    by (by rewrite !fmap_cons, fmap_app).
  destruct (tick_verdict (run (tick s t0).1 (Ticked <$> ts)) t id r Hinv2 Hit) as (Hoff & _ & _);
    [congruence|done|done|].
  unfold run in *. rewrite foldl_app. apply Hoff.
  unfold suspect_expired, since_of. rewrite Hs2, Hc2, Hc. done.
Qed.

Lemma suspicion_runs_out_witness :
  let i := gmap_hash_iter in
  get (membership (run wit_swim (Ticked <$> [2000; 3000; 31999; 32000]))) "a"
  = Some (Register.offline 32000 wit_suspected).
Proof.
  intros i.
  apply (suspicion_runs_out wit_swim "a" wit_suspected 2000 [3000; 31999] 32000 wit_swim_inv);
    [done|vm_compute; reflexivity|reflexivity|vm_compute; reflexivity
    |repeat (apply Forall_cons_2; [small_int|]); apply Forall_nil_2
    |repeat (apply Forall_cons_2; [vm_compute; reflexivity|]); apply Forall_nil_2
    |apply (bool_decide_unpack _); vm_compute; done].
Defined.

Lemma on_message_since s from m now :
  suspected_since_ms (on_message s from m now).1 = suspected_since_ms s.
Proof.
  destruct m; simpl; unfold handle_ack, handle_suspect_state, handle_alive_state, handle_leave_state,
    refute_if_dominated, refute_and_broadcast; repeat case_match; done.
Qed.

(** The timer of a suspicion outlives a recovery that falls between two
    ticks. If a suspected member refutes with a higher incarnation and a rumor
    about the new incarnation arrives before the next tick, that tick counts
    the timeout from the start of the earlier suspicion and declares the member
    offline, however recent the new suspicion is. *)
Theorem suspicion_timer_survives_recovery `{!HashIter} s id r t0 r2 from from' u v now :
  swim_inv s → id ≠ local_node_id s → get (membership s) id = Some r →
  suspected_since_ms s !! id = Some t0 →
  node_id r2 = id → wf_register r2 → state r2 = Active → incarnation r < incarnation r2 →
  is_i64 u → is_i64 v → is_i64 now →
  i64_try_from_or_max (suspect_timeout_ms (config s)) ≤ i64_saturating_sub now t0 →
  let recovered := run s [Received from (Alive r2) u] in
  let suspected := run recovered [Received from' (Suspect id (incarnation r2)) v] in
  get (membership recovered) id = Some r2 ∧
  get (membership suspected) id = Some (Register.suspect v r2) ∧
  get (membership (run suspected [Ticked now])) id
  = Some (Register.offline now (Register.suspect v r2)).
Proof.
  intros Hinv Hne Hr Ht0 Hid2 Hw2 Ha2 Hlt Hu Hv Hn Hexp recovered suspected.
  assert (get (membership recovered) id = Some r2) as Hrec.
  { unfold recovered, run. cbn [foldl handle on_message fst]. unfold handle_alive_state.
    rewrite decide_False by congruence. cbn [fst membership set_membership].
    rewrite merge_register_lookup, decide_True, Hr by done. cbn.
    by rewrite merge_gt by by apply order_lt_incarnation. }
  assert (state (Register.suspect v r2) = Suspected) as Hss by (unfold Register.suspect; by rewrite Ha2).
  assert (swim_inv recovered) as Hinv1.
  { apply (evolves_run s [Received from (Alive r2) u] Hinv). apply Forall_cons_2; [by split|apply Forall_nil_2]. }
  pose proof (ev_id _ _ (evolves_handle s (Received from (Alive r2) u) Hinv (conj Hw2 Hu))) as Hl1.
  pose proof (ev_config _ _ (evolves_handle s (Received from (Alive r2) u) Hinv (conj Hw2 Hu))) as Hc1.
  change (handle s (Received from (Alive r2) u)) with recovered in Hl1, Hc1.
  assert (wf_event (Received from' (Suspect id (incarnation r2)) v)) as Hwf2 by (split; [apply Hw2|done]).
  destruct (evolves_handle recovered _ Hinv1 Hwf2) as [Hl2 Hc2 _ Hinv2].
  change (handle recovered _) with suspected in Hl2, Hc2, Hinv2.
  assert (get (membership suspected) id = Some (Register.suspect v r2)) as Hsus.
  { unfold suspected, run. cbn [foldl handle on_message]. unfold handle_suspect_state.
    rewrite decide_False by congruence. rewrite Hrec, decide_False by lia.
    cbn [fst membership set_membership].
    assert (set_incarnation (incarnation r2) r2 = r2) as -> by by destruct r2.
    destruct (node_id_transitions r2 v) as (_ & Hn2 & _).
    rewrite merge_register_lookup, Hrec, decide_True by congruence. cbn.
    by rewrite merge_gt by by apply suspect_dominates. }
  split_and!; [done|done|].
  destruct (tick_verdict suspected now id (Register.suspect v r2) Hinv2 Hn) as (Hoff & _ & _);
    [congruence|done|done|].
  apply Hoff. unfold suspect_expired, since_of. rewrite Hc2, Hc1.
  assert (suspected_since_ms suspected = suspected_since_ms s) as ->; [|by rewrite Ht0].
  unfold suspected, recovered, run. cbn [foldl handle]. by rewrite !on_message_since.
Qed.

Definition wit_a2 : MemberRegister := Register.new "a" "127.0.0.1:1" 2 0.

Lemma suspicion_timer_survives_recovery_witness :
  let i := gmap_hash_iter in
  let s := run wit_swim [Ticked 2000] in
  get (membership (run (run (run s [Received "a" (Alive wit_a2) 31000])
         [Received "b" (Suspect "a" 2) 31900]) [Ticked 32000])) "a"
  = Some (Register.offline 32000 (Register.suspect 31900 wit_a2)).
Proof.
  intros i s. destruct (evolves_tick wit_swim 2000 wit_swim_inv) as [? ? ? Hinv]; [small_int|].
  apply (suspicion_timer_survives_recovery s "a" wit_suspected 2000 wit_a2 "a" "b" 31000 31900 32000);
    [exact Hinv|done|vm_compute; reflexivity|vm_compute; reflexivity|reflexivity
    |split_and!; small_int|reflexivity|reflexivity|small_int|small_int|small_int
    |apply (bool_decide_unpack _); vm_compute; done].
Defined.

(** [n] consecutive probe failures of one target. *)
Fixpoint failures (n : nat) (tgt : string) (now : Z) (s : Swim) : Swim :=
  match n with O => s | S k => (mark_suspected (failures k tgt now s) tgt now).1 end.

Lemma failures_below s tgt now n :
  swim_inv s → consecutive_failures s !! tgt = None → Z.of_nat n < failure_threshold (config s) →
  failures n tgt now s =
    match n with
    | O => s
    | S _ => set_failures (<[tgt := Z.of_nat n]> (consecutive_failures s)) s
    end.
Proof.
  intros Hinv Hnone. pose proof (inv_config s Hinv) as (_ & _ & Hth & _).
  induction n as [|n IH]; intros Hn; [done|]. cbn [failures]. rewrite IH by lia.
  unfold mark_suspected. destruct n as [|n].
  - rewrite Hnone. cbv zeta. cbn [config set_failures]. rewrite decide_True by lia. done.
  - cbn [consecutive_failures set_failures config]. rewrite lookup_insert_eq. cbv zeta.
    assert (u32_wrap (Z.of_nat (S n) + 1) = Z.of_nat (S (S n))) as ->.
    { unfold u32_wrap, is_u32, u32_max in *. rewrite Z.mod_small by lia. lia. }
    rewrite decide_True by lia. cbn [fst]. unfold set_failures. cbn. by rewrite insert_insert_eq.
Qed.

(** Exactly the configured number of consecutive failures suspects an
    active member: fewer leave every register as it was and only count, the
    last one marks it suspected, broadcasts the rumor with its incarnation and
    clears the counter. *)
Theorem failure_threshold_exact s tgt now r n :
  swim_inv s → get (membership s) tgt = Some r → state r = Active →
  consecutive_failures s !! tgt = None → Z.of_nat (S n) ≤ failure_threshold (config s) →
  let res := mark_suspected (failures n tgt now s) tgt now in
  if decide (Z.of_nat (S n) = failure_threshold (config s)) then
    res.2 = [Broadcast (Suspect tgt (incarnation r))] ∧
    get (membership res.1) tgt = Some (Register.suspect now r) ∧
    consecutive_failures res.1 = consecutive_failures s
  else
    res.2 = [] ∧ membership res.1 = membership s ∧
    consecutive_failures res.1 = <[tgt := Z.of_nat (S n)]> (consecutive_failures s).
Proof.
  intros Hinv Hr Ha Hnone Hn res. pose proof (inv_config s Hinv) as (_ & _ & Hth & _).
  assert (∃ f, failures n tgt now s = set_failures f s ∧ delete tgt f = consecutive_failures s ∧
    match f !! tgt with Some c => u32_wrap (c + 1) | None => 1 end = Z.of_nat (S n) ∧
    <[tgt := Z.of_nat (S n)]> f = <[tgt := Z.of_nat (S n)]> (consecutive_failures s)) as (f & Hf & Hdel & Hc & Hins).
  { rewrite failures_below by (done || lia). destruct n as [|n].
    - exists (consecutive_failures s). rewrite Hnone. split_and!; [by destruct s| |done|done].
      by apply delete_id.
    - exists (<[tgt := Z.of_nat (S n)]> (consecutive_failures s)). rewrite lookup_insert_eq.
      split_and!; [done|rewrite delete_insert_eq; by apply delete_id| |by rewrite insert_insert_eq].
      unfold u32_wrap, is_u32, u32_max in *. rewrite Z.mod_small by lia. lia. }
  unfold res. rewrite Hf. unfold mark_suspected. cbn [consecutive_failures set_failures config].
  rewrite Hc. cbv zeta. case_decide as Heq.
  - rewrite decide_False by lia. cbn [membership set_failures consecutive_failures].
    rewrite delete_insert_eq, Hdel. unfold suspect, get in *. rewrite Hr.
    assert (state (Register.suspect now r) = Suspected) as Hss by (unfold Register.suspect; by rewrite Ha).
    rewrite bool_decide_true by done. cbn. rewrite lookup_insert_eq. split_and!; [|done|done].
    do 3 f_equal. unfold Register.suspect. by rewrite Ha.
  - rewrite decide_True by lia. done.
Qed.

Lemma failure_threshold_exact_witness :
  (mark_suspected (failures 2 "a" 9 (run (H := gmap_hash_iter) (new "me" default_config wit_local)
     [Received "a" (Alive wit_a) 1000])) "a" 9).2 = [Broadcast (Suspect "a" 1)].
Proof.
  destruct wit_wf as (Hl & Ha & _).
  assert (swim_inv (run (H := gmap_hash_iter) (new "me" default_config wit_local)
     [Received "a" (Alive wit_a) 1000])) as Hinv.
  { apply evolves_run; [by apply swim_inv_new; [apply wf_default_config|..]|].
    apply Forall_cons_2; [|apply Forall_nil_2]. split; [exact Ha|small_int]. }
  apply (failure_threshold_exact _ "a" 9 wit_a 2 Hinv); [vm_compute; reflexivity|reflexivity|reflexivity|].
  vm_compute. done.
Defined.

(** A probe round pings at most one peer: an active or suspected member
    other than the local node, with no probe in flight, not probed for at least
    the interval, and among all such peers one that has waited longest; and it
    sends nothing only if no peer qualifies. The ping carries a fresh sequence
    number and is recorded as pending under it. *)
Theorem probe_longest_waiting `{!HashIter} s now_u64 now :
  keyed (membership s) →
  let eligible t := t ≠ local_node_id s ∧
    (∃ r, get (membership s) t = Some r ∧ is_active (state r) = true) ∧
    (∀ seq p, pending_pings s !! seq = Some p → target p ≠ t) ∧
    ping_interval_ms (config s) ≤ probe_gap s now_u64 t ∧ 0 < probe_gap s now_u64 t in
  let '(s', actions) := generate_probes s now_u64 now in
  (actions = [] ∧ s' = s ∧ ∀ t, ¬ eligible t) ∨
  ∃ t, let seq := u64_wrap (sequence s + 1) in
    eligible t ∧ (∀ t', eligible t' → probe_gap s now_u64 t' ≤ probe_gap s now_u64 t) ∧
    actions = [SendPing t seq] ∧ sequence s' = seq ∧ membership s' = membership s ∧
    pending_pings s' = <[seq := mkPendingPing t (u64_try_from_or_0 now)]> (pending_pings s) ∧
    last_probe_ms s' = <[t := u64_try_from_or_0 now]> (last_probe_ms s).
Proof.
  intros Hk eligible. unfold generate_probes. fold (probe_targets s).
  destruct (consider_fold s now_u64 (probe_targets s) (None, 0)) as (_ & H2 & H3 & H4).
  cbv zeta in H2, H3, H4. destruct (foldl _ _ _) as [c g]. cbn [fst snd] in H2, H3, H4.
  assert (∀ t, is_pending s t = false ↔ ∀ seq p, pending_pings s !! seq = Some p → target p ≠ t) as Hp.
  { intros t. rewrite <- not_true_iff_false, is_pending_spec. naive_solver. }
  assert (∀ t, eligible t → probe_gap s now_u64 t ≤ g) as Hbest.
  { intros t (Hne & Hact & Hpen & Hi & _). apply H4; [|by apply Hp|done].
    apply elem_of_probe_targets; [done|]. by split. }
  destruct c as [t|].
  - right. exists t. destruct (H2 t eq_refl) as [[? _]|(Ht & Hpen & Hi & Hg & ->)]; [done|].
    apply elem_of_probe_targets in Ht as (Hne & Hact); [|done]. rewrite Hp in Hpen. done.
  - left. destruct H3 as [_ Hg0]; [done|]. split_and!; [done|done|].
    intros t Ht. pose proof (Hbest t Ht). destruct Ht as (_ & _ & _ & _ & Hpos). lia.
Qed.

Lemma probe_longest_waiting_witness :
  let i := gmap_hash_iter in
  (generate_probes wit_swim 2000 2000).2 = [] ∨
  ∃ t, (generate_probes wit_swim 2000 2000).2 = [SendPing t 1].
Proof.
  intros i. pose proof (probe_longest_waiting wit_swim 2000 2000 (inv_keyed _ wit_swim_inv)) as H.
  destruct (generate_probes wit_swim 2000 2000) as [s' acts].
  destruct H as [(H & _)|(t & _ & _ & H & _)]; [left|right; exists t]; exact H.
Defined.

(** The local node defends itself and nothing else changes its register: a
    suspicion of the local node is answered, unless it is about an older
    incarnation or the node is leaving, by raising the incarnation and
    broadcasting the fresh active register; any other suspicion of it is
    ignored. If the rumor is about the current incarnation and the counter is
    not exhausted, the refutation dominates every register of that incarnation,
    and hearing the rumor again has no effect. *)
Theorem refutation_settles s from from' inc now now' l :
  swim_inv s → get (membership s) (local_node_id s) = Some l →
  let rumor := Suspect (local_node_id s) inc in
  let res := on_message s from rumor now in
  if decide (state l ≠ Leaving ∧ incarnation l ≤ inc) then
    get (membership res.1) (local_node_id s) = Some (Register.refute now l) ∧
    (∀ id, id ≠ local_node_id s → get (membership res.1) id = get (membership s) id) ∧
    res.2 = [Broadcast (Alive (Register.refute now l))] ∧
    (inc = incarnation l → inc < u64_max →
       (∀ r, incarnation r ≤ inc → dominates (Register.refute now l) r = true) ∧
       on_message res.1 from' rumor now' = (res.1, []))
  else res = (s, []).
Proof.
  intros Hinv Hl rumor res. pose proof (inv_wf s Hinv _ _ Hl) as (Hu & _).
  assert (res = if decide (state l ≠ Leaving ∧ incarnation l ≤ inc)
    then refute_and_broadcast s now else (s, [])) as Hres.
  { unfold res, rumor. cbn [on_message]. unfold handle_suspect_state. rewrite decide_True, Hl by done.
    destruct (decide (state l ≠ Leaving ∧ incarnation l ≤ inc)) as [Hd|Hd];
      [by rewrite bool_decide_true|by rewrite bool_decide_false]. }
  case_decide as Hd; [|done].
  assert (∀ id, get (refute (membership s) (local_node_id s) now).1 id
    = if decide (local_node_id s = id) then Some (Register.refute now l) else get (membership s) id) as Hget.
  { intros id. unfold refute, get in *. rewrite Hl. simpl. rewrite lookup_insert. done. }
  assert (res = (set_membership (refute (membership s) (local_node_id s) now).1 s,
    [Broadcast (Alive (Register.refute now l))])) as ->.
  { rewrite Hres. unfold refute_and_broadcast. cbn [membership set_membership local_node_id].
    by rewrite Hget, decide_True. }
  cbn [fst snd membership set_membership]. split_and!;
    [by rewrite Hget, decide_True|intros id Hne; by rewrite Hget, decide_False|done|].
  intros -> Hmax. split.
  - intros r Hr. apply order_lt_incarnation. simpl. rewrite u64_saturating_add_succ by done. lia.
  - unfold rumor. cbn [on_message]. unfold handle_suspect_state.
    cbn [membership set_membership local_node_id]. rewrite decide_True, Hget, decide_True by done.
    rewrite bool_decide_false; [done|]. simpl. rewrite u64_saturating_add_succ by done. lia.
Qed.

Lemma refutation_settles_witness :
  (on_message wit_swim "a" (Suspect "me" 1) 1500).2 = [Broadcast (Alive (Register.refute 1500 wit_local))] ∧
  on_message (on_message wit_swim "a" (Suspect "me" 1) 1500).1 "b" (Suspect "me" 1) 1600
  = ((on_message wit_swim "a" (Suspect "me" 1) 1500).1, []).
Proof.
  destruct (refutation_settles wit_swim "a" "b" 1 1500 1600 wit_local wit_swim_inv) as (_ & _ & H1 & H2);
    [vm_compute; reflexivity|].
  split; [exact H1|]. by apply H2.
Defined.

(** Liveness evidence never rewrites the replicated state: a ping is
    answered with its own sequence number and changes nothing; an ack removes
    the probe it answers and the failures of that probe's target, leaving the
    target with no probe in flight, and no message about probes touches the
    membership or the suspicion timers. *)
Theorem acks_only_bookkeeping s from seq now :
  swim_inv s →
  on_message s from (Ping seq) now = (s, [SendAck from seq]) ∧
  let s' := (on_message s from (Ack seq) now).1 in
  (on_message s from (Ack seq) now).2 = [] ∧
  membership s' = membership s ∧ suspected_since_ms s' = suspected_since_ms s ∧
  (pending_pings s !! seq = None → s' = s) ∧
  (∀ p, pending_pings s !! seq = Some p →
     pending_pings s' = delete seq (pending_pings s) ∧
     consecutive_failures s' = delete (target p) (consecutive_failures s) ∧
     ∀ seq' p', pending_pings s' !! seq' = Some p' → target p' ≠ target p).
Proof.
  intros Hinv. split; [done|]. cbn [on_message fst snd]. unfold handle_ack.
  destruct (pending_pings s !! seq) as [p|] eqn:Ep; [|by split_and!].
  split_and!; [done..|]. intros p' [= <-]. split_and!; [done|done|].
  intros seq' p' Hp' Ht. cbn in Hp'. apply lookup_delete_Some in Hp' as [Hne Hs']. apply Hne. by eapply (inv_one_ping s Hinv).
Qed.

Lemma acks_only_bookkeeping_witness :
  membership (on_message wit_swim "a" (Ack 7) 5).1 = membership wit_swim.
Proof. apply (acks_only_bookkeeping wit_swim "a" 7 5 wit_swim_inv). Defined.
