(* ===== verification/Identity.v ===== *)
(** * Identifiers and node identities ([crates/overlay/src/id.rs], [identity.rs])

    Fixed-size identifiers derived by domain-separated hashing, and the key
    material behind a node. Key pairs, signatures and the serializer are
    third-party code: the class [Crypto] holds them as parameters, the class
    [CryptoLaws] the documented behaviour the theorems rely on. *)

From S2P Require Import Prelude.

(** [Vec<u8>], [[u8; n]] and [&[u8]] *)
Abbreviation bytes := string.
Abbreviation ClusterId := string.
Abbreviation NodeId := string.
Abbreviation RecordId := string.
Abbreviation RequestId := string.
Abbreviation PeerId := string.

Definition NUL : bytes := String Ascii.zero EmptyString.

(** What [libp2p_identity], [blake3] and [postcard] provide. [PeerId] values
    are taken in their byte form. *)
Class Crypto := {
  blake3 : bytes → bytes;
  PublicKey : Type;
  Keypair : Type;
  try_decode_protobuf : bytes → result PublicKey string;
  encode_protobuf : PublicKey → bytes;
  to_peer_id : PublicKey → PeerId;
  verify_signature : PublicKey → bytes → bytes → bool;
  public : Keypair → PublicKey;
  sign_message : Keypair → bytes → result bytes string;
  to_protobuf_encoding : Keypair → result bytes string;
  from_protobuf_encoding : bytes → result Keypair string;
  document_to_stdvec : NodeId * bytes * bytes → result bytes string;
  document_from_bytes : bytes → result (NodeId * bytes * bytes) string;
}.

Class CryptoLaws `{!Crypto} : Prop := {
  decode_encode : ∀ pk, try_decode_protobuf (encode_protobuf pk) = Ok pk;
  verify_sign : ∀ kp msg sig,
    sign_message kp msg = Ok sig → verify_signature (public kp) msg sig = true;
  keypair_round_trip : ∀ kp b, to_protobuf_encoding kp = Ok b → from_protobuf_encoding b = Ok kp;
  document_round_trip : ∀ d b, document_to_stdvec d = Ok b → document_from_bytes b = Ok d;
}.

(** ** The text form of identifiers

    [hex::encode] and [hex::decode_to_slice] are third-party code. *)

Class Hex := {
  hex_encode : bytes → string;
  hex_decode : string → result bytes string;
}.

Class HexLaws `{!Hex} : Prop := {
  hex_length : ∀ b, String.length (hex_encode b) = (String.length b * 2)%nat;
  hex_round_trip : ∀ b, hex_decode (hex_encode b) = Ok b;
}.

Inductive ParseIdentifierError : Type :=
| IdentifierLength (expected actual : nat)
| IdentifierHex (error : string).

(** [Display::fmt] and [FromStr::from_str] of the identifiers of [n] bytes. *)
Definition identifier_text `{!Hex} (i : bytes) : string := hex_encode i.

Definition identifier_from_str `{!Hex} (n : nat) (value : string) : result bytes ParseIdentifierError :=
  let expected := (n * 2)%nat in
  if decide (String.length value ≠ expected) then Err (IdentifierLength expected (String.length value))
  else map_err IdentifierHex (hex_decode value).

Inductive IdentityError : Type :=
| IdSerialization (error : string)
| KeyEncoding (error : string)
| Signing (error : string)
| PeerIdMismatch
| NodeIdMismatch (expected derived : NodeId)
| IdIo (error : IoFailure).

Record PublicIdentity : Type := mkPublicIdentity {
  pi_node_id : NodeId;
  pi_peer_id : bytes;
  pi_public_key : bytes;
  pi_initial_public_key : bytes;
}.

Section identity.
Context `{!Crypto}.

Definition domain_hash (domain value : bytes) : bytes :=
  blake3 (String.append (String.append domain NUL) value).

(** [ClusterId::from_genesis] *)
Definition from_genesis (id : NodeId) : ClusterId := domain_hash "lycoris/cluster-id/1" id.

(** [NodeId::from_initial_public_key] *)
Definition from_initial_public_key (key : bytes) : NodeId := domain_hash "lycoris/node-id/1" key.

(** [RecordId::from_signed_record] *)
Definition from_signed_record (record : bytes) : RecordId :=
  domain_hash "lycoris/authorization-record/1" record.

(** [RequestId::derive]: the first sixteen bytes of the digest. *)
Definition derive_request_id (id : NodeId) (boot_id : bytes) (sequence : Z) : RequestId :=
  String.substring 0 16
    (blake3 (String.append "lycoris/request-id/2" (String.append NUL
      (String.append id (String.append boot_id (u64_to_be_bytes sequence)))))).

Definition decode_public_key (key : bytes) : result PublicKey IdentityError :=
  map_err KeyEncoding (try_decode_protobuf key).

Definition validate_initial_key (id : NodeId) (initial_public_key : bytes) : result unit IdentityError :=
  let? _ := decode_public_key initial_public_key in
  let derived := from_initial_public_key initial_public_key in
  if decide (derived ≠ id) then Err (NodeIdMismatch id derived) else Ok tt.

(** [PublicIdentity::new] *)
Definition new_public_identity (id : NodeId) (peer_id public_key initial_public_key : bytes)
    : result PublicIdentity IdentityError :=
  let? _ := validate_initial_key id initial_public_key in
  let? decoded := decode_public_key public_key in
  if decide (to_peer_id decoded ≠ peer_id) then Err PeerIdMismatch
  else Ok (mkPublicIdentity id peer_id public_key initial_public_key).

Definition is_initial_identity (i : PublicIdentity) : bool :=
  bool_decide (pi_public_key i = pi_initial_public_key i).

Record NodeIdentity : Type := mkNodeIdentity {
  ni_node_id : NodeId;
  ni_initial_public_key : bytes;
  keypair : Keypair;
}.

Definition peer_id_bytes (i : NodeIdentity) : bytes := to_peer_id (public (keypair i)).
Definition public_key_bytes (i : NodeIdentity) : bytes := encode_protobuf (public (keypair i)).

Definition public_identity (i : NodeIdentity) : PublicIdentity :=
  mkPublicIdentity (ni_node_id i) (peer_id_bytes i) (public_key_bytes i) (ni_initial_public_key i).

Definition sign (i : NodeIdentity) (message : bytes) : result bytes IdentityError :=
  map_err Signing (sign_message (keypair i) message).

Definition verify (i : NodeIdentity) (message signature : bytes) : bool :=
  verify_signature (public (keypair i)) message signature.

(** [NodeIdentity::generate] with the key pair the generator drew. *)
Definition generate (kp : Keypair) : NodeIdentity :=
  let initial_public_key := encode_protobuf (public kp) in
  mkNodeIdentity (from_initial_public_key initial_public_key) initial_public_key kp.

Definition generate_successor (id : NodeId) (initial_public_key : bytes) (kp : Keypair)
    : result NodeIdentity IdentityError :=
  let? _ := validate_initial_key id initial_public_key in
  Ok (mkNodeIdentity id initial_public_key kp).

Definition encode_document (i : NodeIdentity) : result bytes IdentityError :=
  let? private_key := map_err KeyEncoding (to_protobuf_encoding (keypair i)) in
  map_err IdSerialization (document_to_stdvec (ni_node_id i, ni_initial_public_key i, private_key)).

Definition decode (b : bytes) : result NodeIdentity IdentityError :=
  let? document := map_err IdSerialization (document_from_bytes b) in
  let '(id, initial_public_key, private_key) := document in
  let? _ := validate_initial_key id initial_public_key in
  let? kp := map_err KeyEncoding (from_protobuf_encoding private_key) in
  Ok (mkNodeIdentity id initial_public_key kp).

(** An identity as the constructors build it. *)
Definition wf_identity (i : NodeIdentity) : Prop :=
  validate_initial_key (ni_node_id i) (ni_initial_public_key i) = Ok tt.

Context `{!CryptoLaws}.

Lemma decode_public_key_encode pk : decode_public_key (encode_protobuf pk) = Ok pk.
Proof. unfold decode_public_key. by rewrite decode_encode. Qed.

Lemma wf_generate kp : wf_identity (generate kp).
Proof.
  unfold wf_identity, validate_initial_key. simpl. rewrite decode_public_key_encode. simpl.
  by rewrite decide_False by auto.
Qed.

Lemma wf_generate_successor id key kp i :
  generate_successor id key kp = Ok i → wf_identity i.
Proof.
  unfold generate_successor. rewrite result_bind_Ok. intros ([] & Hv & [= <-]). exact Hv.
Qed.
End identity.

(** ** Properties *)

(** An identifier prints and parses back to itself, and parses at no other length. *)
Lemma identifier_round_trip `{!Hex, !HexLaws} n i :
  String.length i = n →
  identifier_from_str n (identifier_text i) = Ok i ∧
  ∀ m, m ≠ n → identifier_from_str m (identifier_text i) = Err (IdentifierLength (m * 2) (n * 2)).
Proof.
  intros Hn. unfold identifier_from_str, identifier_text. rewrite hex_length, Hn. split.
  - rewrite decide_False by auto. by rewrite hex_round_trip.
  - intros m Hm. by rewrite decide_True by lia.
Qed.

(** An identity survives a reload: the document written for an identity
    decodes to the same identity, for identities the constructors produce; and
    whatever decodes is well formed, so a document whose node id does not
    derive from its initial key is refused. *)
Theorem identity_document_round_trip `{!Crypto, !CryptoLaws} i b :
  encode_document i = Ok b →
  (wf_identity i → decode b = Ok i) ∧ (∀ j, decode b = Ok j → wf_identity j ∧ j = i).
Proof.
  unfold encode_document. rewrite result_bind_Ok. intros (priv & Hpriv & Hdoc).
  destruct (to_protobuf_encoding (keypair i)) as [p|] eqn:Ep; [|done]. injection Hpriv as ->.
  destruct (document_to_stdvec _) as [d|] eqn:Ed; [|done]. injection Hdoc as ->.
  apply document_round_trip in Ed. apply keypair_round_trip in Ep.
  assert (decode b = let? _ := validate_initial_key (ni_node_id i) (ni_initial_public_key i) in Ok i) as ->.
  { unfold decode. rewrite Ed. simpl. rewrite Ep. by destruct i. }
  split; [by intros ->|]. intros j. rewrite result_bind_Ok. by intros ([] & Hv & [= <-]).
Qed.

(** ** A concrete instance

    Keys are names, a signature is the signer's name followed by the message;
    the instance shows that the laws can hold and lets the witnesses compute. *)

Fixpoint split_nul (s : string) : string * string :=
  match s with
  | EmptyString => ("", "")
  | String c s' =>
      if Ascii.eqb c Ascii.zero then ("", s') else let '(a, b) := split_nul s' in (String c a, b)
  end.

Fixpoint nul_free (s : string) : bool :=
  match s with
  | EmptyString => true
  | String c s' => negb (Ascii.eqb c Ascii.zero) && nul_free s'
  end.

Lemma split_nul_append a b : nul_free a = true → split_nul (String.append a (String.append NUL b)) = (a, b).
Proof.
  induction a as [|c a IH]; intros Ha; [done|]. simpl in Ha. apply andb_true_iff in Ha as [Hc Ha].
  change (String.append (String c a) (String.append NUL b))
    with (String c (String.append a (String.append NUL b))).
  cbn [split_nul]. apply negb_true_iff in Hc. by rewrite Hc, IH.
Qed.

Definition toy_document (d : NodeId * bytes * bytes) : result bytes string :=
  let '(a, b, c) := d in
  if nul_free a && nul_free b
  then Ok (String.append a (String.append NUL (String.append b (String.append NUL c))))
  else Err "nul".

(** Keeps the input readable, without zero bytes. *)
Fixpoint toy_digest (s : string) : string :=
  match s with
  | EmptyString => EmptyString
  | String c s' => String (if Ascii.eqb c Ascii.zero then Ascii.ascii_of_N 35 else c) (toy_digest s')
  end.

Definition toy_crypto : Crypto := {|
  blake3 := toy_digest;
  PublicKey := string;
  Keypair := string;
  try_decode_protobuf := λ b,
    match b with
    | String c pk => if Ascii.eqb c (Ascii.ascii_of_N 107) then Ok pk else Err "not a key"
    | EmptyString => Err "not a key"
    end;
  encode_protobuf := λ pk, String.append "k" pk;
  to_peer_id := λ pk, String.append "p" pk;
  verify_signature := λ pk msg sig, String.eqb sig (String.append pk msg);
  public := λ kp, kp;
  sign_message := λ kp msg, Ok (String.append kp msg);
  to_protobuf_encoding := λ kp, Ok kp;
  from_protobuf_encoding := λ b, Ok b;
  document_to_stdvec := toy_document;
  document_from_bytes := λ b,
    let '(x, r) := split_nul b in let '(y, z) := split_nul r in Ok (x, y, z);
|}.

Lemma toy_crypto_laws : @CryptoLaws toy_crypto.
Proof.
  split; simpl.
  - done.
  - intros kp msg sig [= <-]. apply String.eqb_refl.
  - by intros kp b [= <-].
  - intros [[a b] c] d. unfold toy_document. destruct (nul_free a) eqn:Ea, (nul_free b) eqn:Eb; intros [= <-].
    by rewrite !split_nul_append.
Qed.

#[export] Existing Instance toy_crypto_laws.

Definition toy_keypair (name : string) : @Keypair toy_crypto := name.

Lemma identity_document_round_trip_witness :
  match @encode_document toy_crypto (generate (toy_keypair "x")) with
  | Ok b => @decode toy_crypto b = Ok (generate (toy_keypair "x"))
  | Err _ => False
  end.
Proof.
  destruct (encode_document (generate (toy_keypair "x"))) as [b|e] eqn:E; [|by vm_compute in E].
  apply (@identity_document_round_trip toy_crypto toy_crypto_laws (generate (toy_keypair "x")) b E).
  apply (@wf_generate toy_crypto toy_crypto_laws).
Defined.
