(* ===== verification/Authorization.v ===== *)
(** * Authorization records and their registry
    ([crates/overlay/src/authorization/])

    Signed records that admit, rotate, recover and revoke node identities, and
    the append-only registry that derives from them who is authorized. The
    registry's unbounded loops take a fuel argument; [Effective.v] proves that
    the fuel used here always suffices. *)

From S2P Require Import Prelude.
From S2P Require Import Identity.

Inductive AuthorizationKind : Type := Admit | Rotate | Recover | Revoke.
Inductive KeyState : Type := KActive | KRevoked.

#[export] Instance AuthorizationKind_eq_dec : EqDecision AuthorizationKind.
Proof. solve_decision. Defined.
#[export] Instance KeyState_eq_dec : EqDecision KeyState.
Proof. solve_decision. Defined.

Record RetiredAuthorization : Type := mkRetired {
  retired_identity : RecordId;
  action_head : RecordId;
}.

#[export] Instance RetiredAuthorization_eq_dec : EqDecision RetiredAuthorization.
Proof. solve_decision. Defined.

Record AuthorizationBody : Type := mkBody {
  b_cluster_id : ClusterId;
  b_node_id : NodeId;
  b_peer_id : bytes;
  b_public_key : bytes;
  b_initial_public_key : bytes;
  b_epoch : Z;
  b_kind : AuthorizationKind;
  b_state : KeyState;
  b_predecessor : option RecordId;
  b_authorizer : option RecordId;
  b_authorization_predecessor : option RecordId;
  b_retires : option RetiredAuthorization;
}.

#[export] Instance AuthorizationBody_eq_dec : EqDecision AuthorizationBody.
Proof. solve_decision. Defined.

Record AuthorizationRecord : Type := mkRecord {
  id : RecordId;
  body : AuthorizationBody;
  signature : bytes;
}.

#[export] Instance AuthorizationRecord_eq_dec : EqDecision AuthorizationRecord.
Proof. solve_decision. Defined.

(** The accessors of [AuthorizationRecord]. *)
Definition cluster_id (r : AuthorizationRecord) := b_cluster_id (body r).
Definition node_id (r : AuthorizationRecord) := b_node_id (body r).
Definition peer_id (r : AuthorizationRecord) := b_peer_id (body r).
Definition public_key (r : AuthorizationRecord) := b_public_key (body r).
Definition initial_public_key (r : AuthorizationRecord) := b_initial_public_key (body r).
Definition epoch (r : AuthorizationRecord) := b_epoch (body r).
Definition kind (r : AuthorizationRecord) := b_kind (body r).
Definition state (r : AuthorizationRecord) := b_state (body r).
Definition predecessor (r : AuthorizationRecord) := b_predecessor (body r).
Definition authorizer (r : AuthorizationRecord) := b_authorizer (body r).
Definition authorization_predecessor (r : AuthorizationRecord) :=
  b_authorization_predecessor (body r).
Definition retires (r : AuthorizationRecord) := b_retires (body r).

Inductive AuthorizationError : Type :=
| Identity (error : IdentityError)
| Serialization (error : string)
| ForeignCluster (expected actual : ClusterId)
| InvalidSignature (record : RecordId)
| InvalidRecord (reason : string)
| MissingDependency (record : RecordId)
| ConflictedAuthorizer (identity : RecordId)
| RetiredAuthorizer (identity : RecordId).

(** [postcard::to_stdvec] on a body and on a signed body. *)
Class Postcard := {
  body_to_stdvec : AuthorizationBody → result bytes string;
  signed_to_stdvec : AuthorizationBody * bytes → result bytes string;
}.

(** ** Records *)

Section records.
Context `{!Crypto} `{!Postcard}.

Definition record_id (b : AuthorizationBody) (sig : bytes) : result RecordId AuthorizationError :=
  let? encoded := map_err Serialization (signed_to_stdvec (b, sig)) in
  Ok (from_signed_record encoded).

Definition signing_bytes (r : AuthorizationRecord) : result bytes AuthorizationError :=
  map_err Serialization (body_to_stdvec (body r)).

Definition expected_id (r : AuthorizationRecord) : result RecordId AuthorizationError :=
  record_id (body r) (signature r).

(** [AuthorizationBody::active] *)
Definition active_body (cluster : ClusterId) (identity : PublicIdentity) (ep : Z)
    (k : AuthorizationKind) : AuthorizationBody :=
  mkBody cluster (pi_node_id identity) (pi_peer_id identity) (pi_public_key identity)
    (pi_initial_public_key identity) ep k KActive None None None None.

Definition set_authorizer (identity head : AuthorizationRecord) (b : AuthorizationBody)
    : AuthorizationBody :=
  mkBody (b_cluster_id b) (b_node_id b) (b_peer_id b) (b_public_key b) (b_initial_public_key b)
    (b_epoch b) (b_kind b) (b_state b) (b_predecessor b) (Some (id identity)) (Some (id head))
    (b_retires b).

Definition set_predecessor (p : RecordId) (b : AuthorizationBody) : AuthorizationBody :=
  mkBody (b_cluster_id b) (b_node_id b) (b_peer_id b) (b_public_key b) (b_initial_public_key b)
    (b_epoch b) (b_kind b) (b_state b) (Some p) (b_authorizer b) (b_authorization_predecessor b)
    (b_retires b).

Definition set_retires (r : RetiredAuthorization) (b : AuthorizationBody) : AuthorizationBody :=
  mkBody (b_cluster_id b) (b_node_id b) (b_peer_id b) (b_public_key b) (b_initial_public_key b)
    (b_epoch b) (b_kind b) (b_state b) (b_predecessor b) (b_authorizer b)
    (b_authorization_predecessor b) (Some r).

(** [AuthorizationRecord::sign] *)
Definition sign_record (b : AuthorizationBody) (signer : NodeIdentity)
    : result AuthorizationRecord AuthorizationError :=
  let? encoded := map_err Serialization (body_to_stdvec b) in
  let? sig := map_err Identity (sign signer encoded) in
  let? rid := record_id b sig in
  Ok (mkRecord rid b sig).

Definition genesis (identity : NodeIdentity)
    : result (ClusterId * AuthorizationRecord) AuthorizationError :=
  let cluster := from_genesis (ni_node_id identity) in
  let b := active_body cluster (public_identity identity) 0 Admit in
  let? r := sign_record b identity in
  Ok (cluster, r).

(** [AuthorizationRecord::admit] *)
Definition admit_record (cluster : ClusterId) (identity : PublicIdentity)
    (authorizer authorizer_head : AuthorizationRecord) (signer : NodeIdentity)
    : result AuthorizationRecord AuthorizationError :=
  sign_record (set_authorizer authorizer authorizer_head (active_body cluster identity 0 Admit)) signer.

(** [previous.epoch() + 1] on a [u64], as a release build computes it. *)
Definition successor_body (previous : AuthorizationRecord) (successor : NodeIdentity)
    (k : AuthorizationKind) : AuthorizationBody :=
  set_predecessor (id previous)
    (active_body (cluster_id previous) (public_identity successor) (u64_wrap (epoch previous + 1)) k).

Definition rotate (previous previous_action_head : AuthorizationRecord) (successor signer : NodeIdentity)
    : result AuthorizationRecord AuthorizationError :=
  sign_record (set_authorizer previous previous_action_head (successor_body previous successor Rotate))
    signer.

Definition recover (previous previous_action_head : AuthorizationRecord) (successor : NodeIdentity)
    (authorizer authorizer_head : AuthorizationRecord) (signer : NodeIdentity)
    : result AuthorizationRecord AuthorizationError :=
  sign_record
    (set_retires (mkRetired (id previous) (id previous_action_head))
      (set_authorizer authorizer authorizer_head (successor_body previous successor Recover)))
    signer.

Definition revoke (previous previous_action_head authorizer authorizer_head : AuthorizationRecord)
    (signer : NodeIdentity) : result AuthorizationRecord AuthorizationError :=
  let b :=
    mkBody (cluster_id previous) (node_id previous) (peer_id previous) (public_key previous)
      (initial_public_key previous) (u64_wrap (epoch previous + 1)) Revoke KRevoked
      (Some (id previous)) None None (Some (mkRetired (id previous) (id previous_action_head))) in
  sign_record (set_authorizer authorizer authorizer_head b) signer.
End records.

(** ** The registry *)

Record AuthorizationRegistry : Type := mkRegistry {
  reg_cluster_id : ClusterId;
  records : gmap RecordId AuthorizationRecord;
}.

Inductive AuthorizationStatus : Type :=
| Unknown
| Active (record : AuthorizationRecord)
| Revoked (record : AuthorizationRecord)
| Conflicted (ids : list RecordId).

(** [AuthorizationRegistry::new] *)
Definition new (cluster : ClusterId) : AuthorizationRegistry := mkRegistry cluster ∅.

(** [self.records.values()], in key order. *)
Definition values (reg : AuthorizationRegistry) : list AuthorizationRecord := btree_values (records reg).

Definition record (reg : AuthorizationRegistry) (rid : RecordId)
    : result AuthorizationRecord AuthorizationError :=
  ok_or (records reg !! rid) (MissingDependency rid).

(** A loop over a registry visits each record at most once. *)
Definition loop_fuel (reg : AuthorizationRegistry) : nat := S (size (records reg)).

Definition acts_on (identity action : RecordId) (r : AuthorizationRecord) : Prop :=
  (authorizer r = Some identity ∧ authorization_predecessor r = Some action) ∨
  retires r = Some (mkRetired identity action).

#[export] Instance acts_on_dec identity action r : Decision (acts_on identity action r).
Proof. unfold acts_on. apply _. Defined.

(** The ids are collected in a [BTreeSet], then looked up. *)
Definition action_successors (reg : AuthorizationRegistry) (identity action : RecordId)
    : list AuthorizationRecord :=
  omap (λ i, records reg !! i)
    (dedup (ord_sort (id <$> filter (acts_on identity action) (values reg)))).

Definition terminates_identity (r : AuthorizationRecord) (identity : RecordId) : bool :=
  bool_decide (kind r = Rotate ∧ predecessor r = Some identity ∧ authorizer r = Some identity)
  || match retires r with
     | Some retired => bool_decide (retired_identity retired = identity)
     | None => false
     end.

Fixpoint authorizer_head_loop (fuel : nat) (reg : AuthorizationRegistry) (identity_id : RecordId)
    (current : AuthorizationRecord) : option (result AuthorizationRecord AuthorizationError) :=
  match fuel with
  | O => None
  | S fuel' =>
      match action_successors reg identity_id (id current) with
      | [] => Some (Ok current)
      | [next] =>
          if terminates_identity next identity_id then Some (Err (RetiredAuthorizer identity_id))
          else authorizer_head_loop fuel' reg identity_id next
      | _ => Some (Err (ConflictedAuthorizer identity_id))
      end
  end.

Definition authorizer_head (reg : AuthorizationRegistry) (identity : AuthorizationRecord)
    : option (result AuthorizationRecord AuthorizationError) :=
  match record reg (id identity) with
  | Ok current => authorizer_head_loop (loop_fuel reg) reg (id identity) current
  | Err e => Some (Err e)
  end.

Fixpoint action_path_loop (fuel : nat) (reg : AuthorizationRegistry)
    (identity target current : RecordId) : option bool :=
  match fuel with
  | O => None
  | S fuel' =>
      match action_successors reg identity current with
      | [next] =>
          if decide (id next = target) then Some true
          else if terminates_identity next identity then Some false
          else action_path_loop fuel' reg identity target (id next)
      | _ => Some false
      end
  end.

Definition action_path_contains (reg : AuthorizationRegistry) (identity target : RecordId)
    : option bool :=
  if decide (identity = target) then Some true
  else action_path_loop (loop_fuel reg) reg identity target identity.

Definition roots (reg : AuthorizationRegistry) (n : NodeId) : list AuthorizationRecord :=
  filter (λ r, node_id r = n ∧ predecessor r = None) (values reg).

Definition children (reg : AuthorizationRegistry) (r : AuthorizationRecord)
    : list AuthorizationRecord :=
  filter (λ c, predecessor c = Some (id r)) (values reg).

(** [&&] on values that may have run out of fuel: the right operand is
    evaluated only if the left one is true. *)
Definition and_then (a : option bool) (b : unit → option bool) : option bool :=
  match a with
  | Some true => b tt
  | Some false => Some false
  | None => None
  end.

(** The walk of [identity_record_is_effective] from a root towards [identity];
    [effective] is [record_is_effective]. *)
Fixpoint identity_walk (effective : AuthorizationRecord → option bool) (fuel : nat)
    (reg : AuthorizationRegistry) (identity current : AuthorizationRecord) : option bool :=
  match fuel with
  | O => None
  | S fuel' =>
      match effective current with
      | Some true =>
          if decide (id current = id identity) then Some true
          else
            match children reg current with
            | [next] => identity_walk effective fuel' reg identity next
            | _ => Some false
            end
      | Some false => Some false
      | None => None
      end
  end.

Definition identity_record_is_effective (effective : AuthorizationRecord → option bool)
    (reg : AuthorizationRegistry) (identity : AuthorizationRecord) : option bool :=
  if decide (state identity ≠ KActive) then Some false
  else
    match roots reg (node_id identity) with
    | [root] => identity_walk effective (loop_fuel reg) reg identity root
    | _ => Some false
    end.

Fixpoint record_is_effective_fuel (fuel : nat) (reg : AuthorizationRegistry)
    (r : AuthorizationRecord) : option bool :=
  match fuel with
  | O => None
  | S fuel' =>
      let signed_on_unique_chain :=
        match authorizer r with
        | Some identity_id =>
            and_then (action_path_contains reg identity_id (id r)) (λ _,
              match records reg !! identity_id with
              | Some identity =>
                  identity_record_is_effective (record_is_effective_fuel fuel' reg) reg identity
              | None => Some false
              end)
        | None => Some true
        end in
      and_then signed_on_unique_chain (λ _,
        match retires r with
        | Some retired => action_path_contains reg (retired_identity retired) (id r)
        | None => Some true
        end)
  end.

Definition record_is_effective (reg : AuthorizationRegistry) (r : AuthorizationRecord)
    : option bool :=
  record_is_effective_fuel (loop_fuel reg) reg r.

Fixpoint status_loop (fuel : nat) (reg : AuthorizationRegistry) (current : AuthorizationRecord)
    : option AuthorizationStatus :=
  match fuel with
  | O => None
  | S fuel' =>
      match record_is_effective reg current with
      | None => None
      | Some false => Some (Conflicted [id current])
      | Some true =>
          match children reg current with
          | [] => Some (match state current with
                        | KActive => Active current
                        | KRevoked => Revoked current
                        end)
          | [next] => status_loop fuel' reg next
          | conflicts => Some (Conflicted (id <$> conflicts))
          end
      end
  end.

Definition status (reg : AuthorizationRegistry) (n : NodeId) : option AuthorizationStatus :=
  match roots reg n with
  | [root] => status_loop (loop_fuel reg) reg root
  | [] => Some Unknown
  | conflicts => Some (Conflicted (id <$> conflicts))
  end.

Definition active_record_for_node (reg : AuthorizationRegistry) (n : NodeId)
    : option AuthorizationRecord :=
  match status reg n with Some (Active r) => Some r | _ => None end.

(** The [BTreeSet] of the nodes whose active record holds the peer id. *)
Definition matching_nodes (reg : AuthorizationRegistry) (peer : PeerId) : list NodeId :=
  dedup (ord_sort (omap (λ r,
    match status reg (node_id r) with
    | Some (Active active) => if decide (peer_id active = peer) then Some (node_id active) else None
    | _ => None
    end) (values reg))).

Definition node_for_peer (reg : AuthorizationRegistry) (peer : PeerId) : option NodeId :=
  match matching_nodes reg peer with [n] => Some n | _ => None end.

(** ** Validation and insertion *)

Section validation.
Context `{!Crypto} `{!Postcard}.

(** [peer_id_from_bytes] is [PeerId::from_bytes] composed with [to_bytes]. *)
Definition active_peer_for_node (peer_id_from_bytes : bytes → option PeerId)
    (reg : AuthorizationRegistry) (n : NodeId) : option PeerId :=
  r ← active_record_for_node reg n;
  peer ← peer_id_from_bytes (peer_id r);
  if decide (node_for_peer reg peer = Some n) then Some peer else None.

Definition validate_action_predecessor (reg : AuthorizationRegistry) (identity : AuthorizationRecord)
    (action_id : RecordId) : result unit AuthorizationError :=
  if decide (action_id = id identity) then Ok tt
  else
    let? action := record reg action_id in
    if decide (authorizer action ≠ Some (id identity))
    then Err (InvalidRecord "authorization action belongs to another identity")
    else Ok tt.

Definition validate_retirement (reg : AuthorizationRegistry) (r : AuthorizationRecord)
    : result unit AuthorizationError :=
  let? retired := ok_or (retires r) (InvalidRecord "missing retired authorization chain") in
  let? identity := record reg (retired_identity retired) in
  validate_action_predecessor reg identity (action_head retired).

Definition validate_successor (reg : AuthorizationRegistry) (r predecessor : AuthorizationRecord)
    : result unit AuthorizationError :=
  let retires_predecessor :=
    match retires r with
    | Some retired => bool_decide (retired_identity retired = id predecessor)
    | None => false
    end in
  match kind r, state r with
  | Rotate, KActive =>
      if decide (authorizer r = Some (id predecessor) ∧ retires r = None) then Ok tt
      else Err (InvalidRecord "authorization kind and state disagree")
  | Recover, KActive =>
      if retires_predecessor then validate_retirement reg r
      else Err (InvalidRecord "authorization kind and state disagree")
  | Revoke, KRevoked =>
      if retires_predecessor then validate_retirement reg r
      else Err (InvalidRecord "authorization kind and state disagree")
  | _, _ => Err (InvalidRecord "authorization kind and state disagree")
  end.

Definition validate_admission (r : AuthorizationRecord) : result unit AuthorizationError :=
  if decide (kind r ≠ Admit ∨ state r ≠ KActive ∨ epoch r ≠ 0 ∨ retires r ≠ None ∨
             public_key r ≠ initial_public_key r)
  then Err (InvalidRecord "invalid admission record")
  else if decide (authorizer r = None ∧ from_genesis (node_id r) ≠ cluster_id r)
  then Err (InvalidRecord "invalid self-signed genesis")
  else Ok tt.

(** [predecessor.epoch().checked_add(1)] *)
Definition u64_checked_add (a b : Z) : option Z := if decide (a + b ≤ u64_max) then Some (a + b) else None.

Definition validate_lineage (reg : AuthorizationRegistry) (r : AuthorizationRecord)
    : result unit AuthorizationError :=
  match predecessor r with
  | None => validate_admission r
  | Some predecessor_id =>
      let? p := record reg predecessor_id in
      if decide (node_id p ≠ node_id r ∨ cluster_id p ≠ cluster_id r ∨
                 u64_checked_add (epoch p) 1 ≠ Some (epoch r))
      then Err (InvalidRecord "invalid predecessor chain")
      else validate_successor reg r p
  end.

Definition validate (reg : AuthorizationRegistry) (r : AuthorizationRecord)
    : result unit AuthorizationError :=
  if decide (cluster_id r ≠ reg_cluster_id reg)
  then Err (ForeignCluster (reg_cluster_id reg) (cluster_id r))
  else
    let? expected := expected_id r in
    if decide (expected ≠ id r) then Err (InvalidRecord "record id does not match its signed body")
    else
      let? key := map_err Identity (decode_public_key (public_key r)) in
      if decide (to_peer_id key ≠ peer_id r) then Err (InvalidRecord "peer id does not match public key")
      else if decide (from_initial_public_key (initial_public_key r) ≠ node_id r)
      then Err (InvalidRecord "initial public key does not match node id")
      else
        let? _ := validate_lineage reg r in
        let? signing_key :=
          match authorizer r, authorization_predecessor r with
          | Some identity_id, Some action_id =>
              let? identity := record reg identity_id in
              let? _ := validate_action_predecessor reg identity action_id in
              map_err Identity (decode_public_key (public_key identity))
          | None, None => Ok key
          | _, _ => Err (InvalidRecord "incomplete authorizer chain")
          end in
        let? message := signing_bytes r in
        if verify_signature signing_key message (signature r) then Ok tt
        else Err (InvalidSignature (id r)).

(** Operations on a registry return the new registry and the result; an error
    leaves what was inserted before it. *)
Definition insert (reg : AuthorizationRegistry) (r : AuthorizationRecord)
    : AuthorizationRegistry * result bool AuthorizationError :=
  match records reg !! id r with
  | Some _ => (reg, Ok false)
  | None =>
      match validate reg r with
      | Ok _ => (mkRegistry (reg_cluster_id reg) (<[id r := r]> (records reg)), Ok true)
      | Err e => (reg, Err e)
      end
  end.

(** One pass over the pending records: the state of the [for] loop. *)
Record MergePass : Type := mkPass {
  mp_registry : AuthorizationRegistry;
  mp_inserted : nat;
  mp_deferred : list AuthorizationRecord;
  mp_missing : option RecordId;
}.

Fixpoint merge_pass (pass : MergePass) (pending : list AuthorizationRecord)
    : MergePass * option AuthorizationError :=
  match pending with
  | [] => (pass, None)
  | r :: pending' =>
      match insert (mp_registry pass) r with
      | (reg, Ok was_inserted) =>
          merge_pass (mkPass reg (mp_inserted pass + if was_inserted then 1 else 0)
                        (mp_deferred pass) (mp_missing pass)) pending'
      | (reg, Err (MissingDependency rid)) =>
          merge_pass (mkPass reg (mp_inserted pass) (mp_deferred pass ++ [r]) (Some rid)) pending'
      | (reg, Err e) => (mkPass reg (mp_inserted pass) (mp_deferred pass) (mp_missing pass), Some e)
      end
  end.

Fixpoint merge_loop (fuel : nat) (reg : AuthorizationRegistry) (inserted : nat)
    (pending : list AuthorizationRecord)
    : option (AuthorizationRegistry * result nat AuthorizationError) :=
  match pending with
  | [] => Some (reg, Ok inserted)
  | _ =>
      match fuel with
      | O => None
      | S fuel' =>
          match merge_pass (mkPass reg inserted [] None) pending with
          | (pass, Some e) => Some (mp_registry pass, Err e)
          | (pass, None) =>
              if decide (length (mp_deferred pass) = length pending) then
                Some (mp_registry pass,
                      Err (match mp_missing pass with
                           | Some rid => MissingDependency rid
                           | None => InvalidRecord "unresolvable authorization graph"
                           end))
              else merge_loop fuel' (mp_registry pass) (mp_inserted pass) (mp_deferred pass)
          end
      end
  end.

(** Every pass but the last shortens the pending list. *)
Definition merge (reg : AuthorizationRegistry) (rs : list AuthorizationRecord)
    : option (AuthorizationRegistry * result nat AuthorizationError) :=
  merge_loop (length rs) reg 0 rs.

Definition from_records (cluster : ClusterId) (rs : list AuthorizationRecord)
    : option (result AuthorizationRegistry AuthorizationError) :=
  match merge (new cluster) rs with
  | Some (reg, Ok _) => Some (Ok reg)
  | Some (_, Err e) => Some (Err e)
  | None => None
  end.
End validation.

(** ** A concrete registry

    Records over [toy_crypto]: a founder, a member it admits, and the registry
    holding both; for the witnesses. *)

Definition toy_option (o : option string) : string :=
  match o with Some s => String.append "+" s | None => "-" end.

Definition toy_body (b : AuthorizationBody) : string :=
  String.concat ","
    [b_node_id b; b_public_key b;
     match b_kind b with Admit => "admit" | Rotate => "rotate" | Recover => "recover" | Revoke => "revoke" end;
     toy_option (b_predecessor b); toy_option (b_authorizer b); toy_option (b_authorization_predecessor b);
     match b_retires b with Some x => String.append (retired_identity x) (action_head x) | None => "" end].

Definition toy_postcard : Postcard := {|
  body_to_stdvec := λ b, Ok (toy_body b);
  signed_to_stdvec := λ '(b, sig), Ok (String.append (toy_body b) sig);
|}.

Definition no_record : AuthorizationRecord :=
  mkRecord "" (mkBody "" "" "" "" "" 0 Admit KActive None None None None) "".

Definition force {E} (m : result AuthorizationRecord E) : AuthorizationRecord :=
  match m with Ok r => r | Err _ => no_record end.

Definition toy_identity (name : string) : @NodeIdentity toy_crypto :=
  @generate toy_crypto (toy_keypair name).

Definition toy_genesis : AuthorizationRecord :=
  force (match @genesis toy_crypto toy_postcard (toy_identity "x") with Ok p => Ok p.2 | Err e => Err e end).

Definition toy_cluster : ClusterId := cluster_id toy_genesis.

Definition toy_member : AuthorizationRecord :=
  force (@admit_record toy_crypto toy_postcard toy_cluster (@public_identity toy_crypto (toy_identity "y"))
           toy_genesis toy_genesis (toy_identity "x")).

Definition toy_registry : AuthorizationRegistry :=
  (@insert toy_crypto toy_postcard (@insert toy_crypto toy_postcard (new toy_cluster) toy_genesis).1 toy_member).1.

Example toy_registry_active :
  (size (records toy_registry),
   status toy_registry (node_id toy_member), status toy_registry (node_id toy_genesis),
   authorizer_head toy_registry toy_genesis, authorizer_head toy_registry toy_member)
  = (2%nat, Some (Active toy_member), Some (Active toy_genesis),
     Some (Ok toy_member), Some (Ok toy_member)).
Proof. vm_compute. reflexivity. Qed.
