(* ===== verification/Effective.v ===== *)
(** * What the authorization registry promises

    A declarative reading of the registry — which records are effective, which
    one a node's identity chain ends in — and the proof that the executable
    definitions of [Authorization.v] compute it on every registry built by
    validated insertions, with the fuel they use. *)

From S2P Require Import Prelude.
From S2P Require Import Identity.
From S2P Require Import Authorization.

(** [x] is the one and only element satisfying [P]. *)
Definition only {A} (P : A → Prop) (x : A) : Prop := P x ∧ ∀ y, P y → y = x.

Lemma only_unique {A} (P : A → Prop) x y : only P x → only P y → x = y.
Proof. intros [Hx _] [_ Hy]. auto. Qed.

Lemma NoDup_singleton {A} (l : list A) (P : A → Prop) x :
  NoDup l → (∀ y, y ∈ l ↔ P y) → l = [x] ↔ only P x.
Proof.
  intros Hnd HP. split.
  - intros ->. split; [apply HP; by left|]. intros y Hy. apply HP in Hy. by apply list_elem_of_singleton in Hy.
  - intros [Hx Ho]. apply HP in Hx. destruct l as [|a [|b l]]; [by apply elem_of_nil in Hx|..].
    + f_equal. apply Ho, HP. by left.
    + exfalso. assert (a = b) as ->.
      { transitivity x; [|symmetry]; apply Ho, HP; [by left|by right; left]. }
      apply NoDup_cons in Hnd as [Hb _]. apply Hb. by left.
Qed.

(** ** Well-formed registries *)

Definition deps (r : AuthorizationRecord) : list RecordId :=
  option_list (predecessor r) ++ option_list (authorizer r) ++
  option_list (authorization_predecessor r) ++
  match retires r with Some x => [retired_identity x; action_head x] | None => [] end.

Section wellformed.
Context `{!Crypto} `{!Postcard}.

Record wf_registry (reg : AuthorizationRegistry) (rank : RecordId → nat) : Prop := {
  wf_key : ∀ i r, records reg !! i = Some r → id r = i;
  wf_valid : ∀ i r, records reg !! i = Some r → validate reg r = Ok tt;
  wf_rank : ∀ i r, records reg !! i = Some r → (rank i < size (records reg))%nat;
  wf_deps : ∀ i r d, records reg !! i = Some r → d ∈ deps r →
    is_Some (records reg !! d) ∧ (rank d < rank i)%nat;
}.

(** What a validated record satisfies, and what it depends on. *)
Lemma record_Ok reg i r : record reg i = Ok r ↔ records reg !! i = Some r.
Proof. unfold record. apply ok_or_Ok. Qed.

Lemma validate_action_predecessor_Ok reg identity a :
  (∀ i r, records reg !! i = Some r → id r = i) → records reg !! id identity = Some identity →
  validate_action_predecessor reg identity a = Ok tt → is_Some (records reg !! a).
Proof.
  intros Hk Hi. unfold validate_action_predecessor. case_decide as Ha; [subst; eauto|].
  rewrite result_bind_Ok. intros (act & Hact%record_Ok & _). eauto.
Qed.

Lemma validate_retirement_Ok reg r :
  (∀ i r, records reg !! i = Some r → id r = i) →
  validate_retirement reg r = Ok tt →
  ∃ x, retires r = Some x ∧ is_Some (records reg !! retired_identity x) ∧ is_Some (records reg !! action_head x).
Proof.
  intros Hk. unfold validate_retirement. rewrite result_bind_Ok. intros (x & Hx%ok_or_Ok & Hv).
  rewrite result_bind_Ok in Hv. destruct Hv as (identity & Hi%record_Ok & Hv).
  exists x. split_and!; [done|eauto|]. eapply validate_action_predecessor_Ok; [done| |exact Hv].
  by rewrite (Hk _ _ Hi).
Qed.

(** The facts [validate_lineage] establishes. *)
Record lineage_facts (reg : AuthorizationRegistry) (r : AuthorizationRecord) : Prop := {
  lf_root : predecessor r = None →
    kind r = Admit ∧ state r = KActive ∧ epoch r = 0 ∧ retires r = None ∧
    public_key r = initial_public_key r ∧
    (authorizer r = None → from_genesis (node_id r) = cluster_id r);
  lf_succ : ∀ p, predecessor r = Some p → ∃ pr, records reg !! p = Some pr ∧
    node_id pr = node_id r ∧ cluster_id pr = cluster_id r ∧ epoch r = epoch pr + 1 ∧
    (kind r = Rotate ∧ state r = KActive ∧ authorizer r = Some (id pr) ∧ retires r = None ∨
     (kind r = Recover ∧ state r = KActive ∨ kind r = Revoke ∧ state r = KRevoked) ∧
     ∃ x, retires r = Some x ∧ retired_identity x = id pr ∧ is_Some (records reg !! action_head x));
}.

Lemma validate_lineage_Ok reg r :
  (∀ i r, records reg !! i = Some r → id r = i) →
  validate_lineage reg r = Ok tt → lineage_facts reg r.
Proof.
  intros Hk. unfold validate_lineage. destruct (predecessor r) as [p|] eqn:Ep.
  - rewrite result_bind_Ok. intros (pr & Hpr%record_Ok & Hv). split; [congruence|].
    intros p' Hp'. assert (p' = p) as -> by congruence. clear Hp'. exists pr. case_decide as Hbad; [done|].
    assert (node_id pr = node_id r ∧ cluster_id pr = cluster_id r ∧
            u64_checked_add (epoch pr) 1 = Some (epoch r)) as (Hn & Hc & He).
    { split_and!; apply dec_stable; intros Hne; apply Hbad; auto. }
    unfold u64_checked_add in He. case_decide; [|done]. injection He as He.
    split_and!; [done..|]. pose proof (Hk _ _ Hpr) as Hid.
    unfold validate_successor in Hv. clear Hbad.
    destruct (kind r), (state r); try done.
    + case_decide as Hrot; [|done]. left. naive_solver.
    + destruct (retires r) as [x|] eqn:Ex; [|done]. case_bool_decide as Hx; [|done].
      apply validate_retirement_Ok in Hv as (x' & Hx' & _ & Hh); [|done]. simplify_eq.
      right. split; [by left|]. eauto.
    + destruct (retires r) as [x|] eqn:Ex; [|done]. case_bool_decide as Hx; [|done].
      apply validate_retirement_Ok in Hv as (x' & Hx' & _ & Hh); [|done]. simplify_eq.
      right. split; [by right|]. eauto.
  - unfold validate_admission. case_decide as Hbad; [done|]. case_decide as Hgen; [done|]. intros _.
    split; [intros _|intros; congruence].
    split_and!; try (apply dec_stable; intros Hne; apply Hbad; tauto).
Qed.

Record valid_facts (reg : AuthorizationRegistry) (r : AuthorizationRecord) : Prop := {
  vf_cluster : cluster_id r = reg_cluster_id reg;
  vf_id : expected_id r = Ok (id r);
  vf_key : ∃ key, decode_public_key (public_key r) = Ok key ∧ to_peer_id key = peer_id r;
  vf_node : from_initial_public_key (initial_public_key r) = node_id r;
  vf_lineage : lineage_facts reg r;
  vf_signed : ∃ signing_key message, signing_bytes r = Ok message ∧
    verify_signature signing_key message (signature r) = true ∧
    ((authorizer r = None ∧ authorization_predecessor r = None ∧
      decode_public_key (public_key r) = Ok signing_key) ∨
     ∃ i a identity, authorizer r = Some i ∧ authorization_predecessor r = Some a ∧
       records reg !! i = Some identity ∧ is_Some (records reg !! a) ∧
       decode_public_key (public_key identity) = Ok signing_key);
}.

Lemma validate_Ok reg r :
  (∀ i r, records reg !! i = Some r → id r = i) → validate reg r = Ok tt → valid_facts reg r.
Proof.
  intros Hk. unfold validate. case_decide as Hc; [done|].
  rewrite result_bind_Ok. intros (ex & Hex & Hv). case_decide as Hid; [done|]. subst ex.
  rewrite result_bind_Ok in Hv. destruct Hv as (key & Hkey%map_err_Ok & Hv).
  case_decide as Hp; [done|]. case_decide as Hn; [done|].
  rewrite result_bind_Ok in Hv. destruct Hv as ([] & Hlin%validate_lineage_Ok & Hv); [|done].
  rewrite result_bind_Ok in Hv. destruct Hv as (sk & Hsk & Hv).
  rewrite result_bind_Ok in Hv. destruct Hv as (msg & Hmsg & Hv).
  destruct (verify_signature _ _ _) eqn:Hver; [|done].
  split; [done|done|eauto|done|done|]. exists sk, msg. split_and!; [done|done|].
  destruct (authorizer r) as [i|], (authorization_predecessor r) as [a|]; try done.
  - right. rewrite result_bind_Ok in Hsk. destruct Hsk as (identity & Hi%record_Ok & Hsk).
    rewrite result_bind_Ok in Hsk. destruct Hsk as ([] & Hact & Hsk%map_err_Ok).
    exists i, a, identity. split_and!; [done..| |done].
    eapply validate_action_predecessor_Ok; [done| |exact Hact]. by rewrite (Hk _ _ Hi).
  - left. injection Hsk as ->. done.
Qed.

Lemma validate_deps reg r d :
  (∀ i r, records reg !! i = Some r → id r = i) → validate reg r = Ok tt →
  d ∈ deps r → is_Some (records reg !! d).
Proof.
  intros Hk Hv Hd. destruct (validate_Ok reg r Hk Hv) as [_ _ _ _ [Hroot Hsucc] (sk & msg & _ & _ & Hauth)].
  unfold deps in Hd. rewrite !elem_of_app in Hd.
  destruct Hd as [Hd|[Hd|[Hd|Hd]]].
  - destruct (predecessor r) as [p|]; simpl in Hd; [|by apply elem_of_nil in Hd].
    apply list_elem_of_singleton in Hd as ->. destruct (Hsucc p eq_refl) as (? & -> & _). eauto.
  - destruct Hauth as [(Ha & _)|(i & a & identity & Ha & _ & Hi & _)]; rewrite Ha in Hd; simpl in Hd;
      [by apply elem_of_nil in Hd|]. apply list_elem_of_singleton in Hd as ->. rewrite Hi. eauto.
  - destruct Hauth as [(_ & Ha & _)|(i & a & identity & _ & Ha & _ & Hp & _)]; rewrite Ha in Hd; simpl in Hd;
      [by apply elem_of_nil in Hd|]. by apply list_elem_of_singleton in Hd as ->.
  - destruct (retires r) as [x|] eqn:Ex; [|by apply elem_of_nil in Hd].
    destruct (predecessor r) as [p|] eqn:Ep.
    + destruct (Hsucc p eq_refl) as (pr & Hpr & _ & _ & _ & [(_ & _ & _ & ?)|(_ & x' & [= <-] & Hx & Hh)]); [done|].
      apply elem_of_cons in Hd as [->|Hd]; [rewrite Hx, (Hk _ _ Hpr), Hpr; eauto|].
      by apply list_elem_of_singleton in Hd as ->.
    + destruct (Hroot eq_refl) as (_ & _ & _ & ? & _). done.
Qed.
End wellformed.

Lemma list_nil_iff {A} (l : list A) (P : A → Prop) :
  (∀ y, y ∈ l ↔ P y) → l = [] ↔ ∀ y, ¬ P y.
Proof.
  intros HP. split.
  - intros -> y Hy. apply HP in Hy. by apply elem_of_nil in Hy.
  - intros Hno. destruct l as [|y l]; [done|]. exfalso. apply (Hno y), HP. by left.
Qed.

(** ** The declarative reading *)

Definition in_reg (reg : AuthorizationRegistry) (r : AuthorizationRecord) : Prop :=
  records reg !! id r = Some r.

Definition succ (reg : AuthorizationRegistry) (identity action : RecordId) (r : AuthorizationRecord) : Prop :=
  in_reg reg r ∧ acts_on identity action r.
Definition child (reg : AuthorizationRegistry) (p r : AuthorizationRecord) : Prop :=
  in_reg reg r ∧ predecessor r = Some (id p).
Definition root_of (reg : AuthorizationRegistry) (n : NodeId) (r : AuthorizationRecord) : Prop :=
  in_reg reg r ∧ node_id r = n ∧ predecessor r = None.

(** The unforked chain of an identity's actions leads from [cur] to [target]. *)
Inductive reaches (reg : AuthorizationRegistry) (identity target : RecordId) : RecordId → Prop :=
| reach_hit cur next :
    only (succ reg identity cur) next → id next = target → reaches reg identity target cur
| reach_go cur next :
    only (succ reg identity cur) next → id next ≠ target → terminates_identity next identity = false →
    reaches reg identity target (id next) → reaches reg identity target cur.

Definition on_path (reg : AuthorizationRegistry) (identity target : RecordId) : Prop :=
  identity = target ∨ reaches reg identity target identity.

Definition retirement_ok (reg : AuthorizationRegistry) (r : AuthorizationRecord) : Prop :=
  ∀ x, retires r = Some x → on_path reg (retired_identity x) (id r).

(** A record is effective if its action lies on the unforked chain of an
    authorizer whose own identity is effective and active. *)
Inductive effective (reg : AuthorizationRegistry) : AuthorizationRecord → Prop :=
| eff_self r : authorizer r = None → retirement_ok reg r → effective reg r
| eff_by r i identity :
    authorizer r = Some i → on_path reg i (id r) → records reg !! i = Some identity →
    identity_effective reg identity → retirement_ok reg r → effective reg r
with identity_effective (reg : AuthorizationRegistry) : AuthorizationRecord → Prop :=
| ident_eff identity root :
    state identity = KActive → only (root_of reg (node_id identity)) root →
    walks reg identity root → identity_effective reg identity
with walks (reg : AuthorizationRegistry) : AuthorizationRecord → AuthorizationRecord → Prop :=
| walk_here identity cur : effective reg cur → id cur = id identity → walks reg identity cur
| walk_go identity cur next :
    effective reg cur → id cur ≠ id identity → only (child reg cur) next →
    walks reg identity next → walks reg identity cur.

Scheme effective_mut := Induction for effective Sort Prop
  with identity_effective_mut := Induction for identity_effective Sort Prop
  with walks_mut := Induction for walks Sort Prop.

(** A node's identity chain, all of it effective and unforked, from [cur] to
    its last record. *)
Inductive lineage (reg : AuthorizationRegistry) : AuthorizationRecord → AuthorizationRecord → Prop :=
| lin_end cur : effective reg cur → (∀ c, ¬ child reg cur c) → lineage reg cur cur
| lin_step cur next leaf :
    effective reg cur → only (child reg cur) next → lineage reg next leaf → lineage reg cur leaf.

Section reading.
Context `{!Crypto} `{!Postcard}.
Context (reg : AuthorizationRegistry) (rank : RecordId → nat) (Hwf : wf_registry reg rank).

Lemma elem_of_values r : r ∈ values reg ↔ in_reg reg r.
Proof.
  unfold values, in_reg. rewrite elem_of_btree_values. split; [|eauto].
  intros [i Hi]. by rewrite (wf_key _ _ Hwf _ _ Hi).
Qed.

Lemma values_NoDup : NoDup (values reg).
Proof.
  apply (NoDup_fmap_1 id).
  assert (id <$> values reg = (btree_iter (records reg)).*1) as ->; [|apply btree_iter_NoDup_keys].
  unfold values, btree_values. rewrite <- list_fmap_compose. apply list_fmap_ext.
  intros j [i r] Hj. apply (wf_key _ _ Hwf), elem_of_btree_iter, list_elem_of_lookup. eauto.
Qed.

Lemma elem_of_filter_values (P : AuthorizationRecord → Prop) `{!∀ x, Decision (P x)} r :
  r ∈ filter P (values reg) ↔ in_reg reg r ∧ P r.
Proof. rewrite list_elem_of_filter, elem_of_values. tauto. Qed.

Lemma elem_of_children p c : c ∈ children reg p ↔ child reg p c.
Proof. unfold children. by rewrite elem_of_filter_values. Qed.

Lemma elem_of_roots n r : r ∈ roots reg n ↔ root_of reg n r.
Proof. unfold roots. by rewrite elem_of_filter_values. Qed.

Lemma elem_of_action_successors i a r : r ∈ action_successors reg i a ↔ succ reg i a r.
Proof.
  unfold action_successors, succ. rewrite list_elem_of_omap. setoid_rewrite elem_of_dedup_sort.
  setoid_rewrite list_elem_of_fmap. setoid_rewrite elem_of_filter_values. split.
  - intros (j & (x & -> & Hx & Ha) & Hr). unfold in_reg in *. split.
    + rewrite (wf_key _ _ Hwf _ _ Hr). done.
    + by simplify_eq.
  - intros [Hr Ha]. exists (id r). split; [eauto|done].
Qed.

Lemma action_successors_NoDup i a : NoDup (action_successors reg i a).
Proof.
  unfold action_successors. generalize (strictly_sorted_NoDup _ (dedup_sorted (id <$> filter (acts_on i a) (values reg)))).
  generalize (dedup (ord_sort (id <$> filter (acts_on i a) (values reg)))). intros l.
  induction 1 as [|x l Hx Hnd IH]; [constructor|]. cbn [omap list_omap].
  destruct (records reg !! x) as [r|] eqn:E; [|done]. constructor; [|done].
  intros Hin. apply list_elem_of_omap in Hin as (y & Hy & Ey). apply Hx.
  by rewrite <- (wf_key _ _ Hwf _ _ E), (wf_key _ _ Hwf _ _ Ey).
Qed.

Lemma successors_only i a r : action_successors reg i a = [r] ↔ only (succ reg i a) r.
Proof. apply NoDup_singleton; [apply action_successors_NoDup|apply elem_of_action_successors]. Qed.

Lemma children_only p r : children reg p = [r] ↔ only (child reg p) r.
Proof.
  apply NoDup_singleton; [apply NoDup_filter, values_NoDup|apply elem_of_children].
Qed.

Lemma roots_only n r : roots reg n = [r] ↔ only (root_of reg n) r.
Proof.
  apply NoDup_singleton; [apply NoDup_filter, values_NoDup|apply elem_of_roots].
Qed.

Lemma children_nil p : children reg p = [] ↔ ∀ c, ¬ child reg p c.
Proof. apply list_nil_iff, elem_of_children. Qed.

Lemma successors_nil i a : action_successors reg i a = [] ↔ ∀ c, ¬ succ reg i a c.
Proof. apply list_nil_iff, elem_of_action_successors. Qed.

Lemma roots_nil n : roots reg n = [] ↔ ∀ c, ¬ root_of reg n c.
Proof. apply list_nil_iff, elem_of_roots. Qed.

(** *** Ranks *)

Lemma rank_dep r d : in_reg reg r → d ∈ deps r → (rank d < rank (id r))%nat.
Proof. intros Hr Hd. by apply (wf_deps _ _ Hwf (id r) r d). Qed.

Lemma rank_bound r : in_reg reg r → (rank (id r) < size (records reg))%nat.
Proof. apply (wf_rank _ _ Hwf). Qed.

Lemma acts_on_dep i a r : acts_on i a r → a ∈ deps r.
Proof.
  unfold deps. rewrite !elem_of_app. intros [[_ ->]| ->]; simpl.
  - right; right; left. by apply list_elem_of_singleton.
  - right; right; right. right. by left.
Qed.

Lemma predecessor_dep r p : predecessor r = Some p → p ∈ deps r.
Proof. unfold deps. intros ->. left. Qed.

Lemma authorizer_dep r i : authorizer r = Some i → i ∈ deps r.
Proof. unfold deps. intros ->. rewrite !elem_of_app. right; left. left. Qed.

(** *** Action paths *)

Lemma succ_rank i a r : succ reg i a r → (rank a < rank (id r) < size (records reg))%nat.
Proof. intros [Hr Ha]. split; [|by apply rank_bound]. by eapply rank_dep, acts_on_dep. Qed.

Lemma action_path_loop_spec i t n cur :
  (size (records reg) - rank cur < n)%nat →
  ∃ b, action_path_loop n reg i t cur = Some b ∧ (b = true ↔ reaches reg i t cur).
Proof.
  revert cur. induction n as [|n IH]; intros cur Hn; [lia|]. cbn [action_path_loop].
  destruct (action_successors reg i cur) as [|x [|y l]] eqn:E.
  - exists false. split; [done|]. split; [done|]. rewrite successors_nil in E.
    inversion 1 as [? x [Hx _]|? x [Hx _]]; subst; by apply E in Hx.
  - apply successors_only in E. pose proof (succ_rank i cur x (proj1 E)) as Hr.
    case_decide as Ht; [exists true; split; [done|]; split; [|done]; intros _; by eapply reach_hit|].
    destruct (terminates_identity x i) eqn:Eterm.
    + exists false. split; [done|]. split; [done|].
      inversion 1 as [? x' Hx' Heq|? x' Hx' Hne Hterm _]; subst; rewrite (only_unique _ _ _ E Hx') in *; congruence.
    + destruct (IH (id x)) as (b & Hb & Hspec); [lia|]. exists b. split; [done|]. rewrite Hspec. split.
      * intros Hreach. by eapply reach_go.
      * inversion 1 as [? x' Hx' Heq|? x' Hx' Hne Hterm Hreach]; subst;
          rewrite (only_unique _ _ _ E Hx') in *; [congruence|done].
  - exists false. split; [done|]. split; [done|].
    assert (∀ z, ¬ only (succ reg i cur) z) as Hno.
    { intros z Hz. apply successors_only in Hz. congruence. }
    inversion 1 as [? x' Hx'|? x' Hx']; subst; by apply Hno in Hx'.
Qed.

Lemma action_path_contains_spec i t :
  ∃ b, action_path_contains reg i t = Some b ∧ (b = true ↔ on_path reg i t).
Proof.
  unfold action_path_contains, on_path. case_decide as Hit; [exists true; naive_solver|].
  destruct (action_path_loop_spec i t (loop_fuel reg) i) as (b & Hb & Hspec); [unfold loop_fuel; lia|].
  exists b. split; [done|]. rewrite Hspec. naive_solver.
Qed.

(** *** Identity chains *)

(** [x] is on the predecessor chain of [y]. *)
Inductive ancestor : AuthorizationRecord → AuthorizationRecord → Prop :=
| anc_refl x : ancestor x x
| anc_step x c y : child reg x c → ancestor c y → ancestor x y.

Lemma ancestor_trans x y z : ancestor x y → ancestor y z → ancestor x z.
Proof. induction 1; [done|]. intros. eapply anc_step; eauto. Qed.

Lemma child_rank p c : child reg p c → (rank (id p) < rank (id c) < size (records reg))%nat.
Proof. intros [Hc Hp]. split; [|by apply rank_bound]. by apply rank_dep, predecessor_dep. Qed.

Lemma ancestor_rank x y : ancestor x y → (rank (id x) <= rank (id y))%nat.
Proof. induction 1 as [|x c y Hc _ IH]; [done|]. apply child_rank in Hc. lia. Qed.

Lemma predecessor_facts r p :
  in_reg reg r → predecessor r = Some p →
  ∃ pr, in_reg reg pr ∧ id pr = p ∧ node_id pr = node_id r ∧ child reg pr r.
Proof.
  intros Hr Hp. destruct (vf_lineage _ _ (validate_Ok reg r (wf_key _ _ Hwf) (wf_valid _ _ Hwf _ _ Hr))) as [_ Hs].
  destruct (Hs p Hp) as (pr & Hpr & Hn & _). pose proof (wf_key _ _ Hwf _ _ Hpr) as Hid.
  exists pr. unfold in_reg, child. rewrite Hid. by split_and!.
Qed.

Lemma root_exists r : in_reg reg r → ∃ x, root_of reg (node_id r) x ∧ ancestor x r.
Proof.
  remember (rank (id r)) as k eqn:Hk. revert r Hk. induction k as [k IH] using lt_wf_ind. intros r -> Hr.
  destruct (predecessor r) as [p|] eqn:Ep.
  - destruct (predecessor_facts r p Hr Ep) as (pr & Hpr & _ & Hn & Hc).
    destruct (IH (rank (id pr)) (proj1 (child_rank _ _ Hc)) pr eq_refl Hpr) as (x & Hx & Ha).
    exists x. rewrite <- Hn. split; [done|]. eapply ancestor_trans; [exact Ha|]. eapply anc_step; [done|constructor].
  - exists r. split; [done|constructor].
Qed.

(** *** Effectiveness *)

Lemma identity_walk_spec eff identity n cur :
  (∀ x, in_reg reg x → (rank (id x) <= rank (id identity))%nat →
     ∃ b, eff x = Some b ∧ (b = true ↔ effective reg x)) →
  in_reg reg cur → in_reg reg identity → ancestor cur identity →
  (size (records reg) - rank (id cur) < n)%nat →
  ∃ b, identity_walk eff n reg identity cur = Some b ∧ (b = true ↔ walks reg identity cur).
Proof.
  intros Heff. revert cur. induction n as [|n IH]; intros cur Hcur Hident Hanc Hn; [lia|]. cbn [identity_walk].
  destruct (Heff cur Hcur (ancestor_rank _ _ Hanc)) as (b & Hb & Hspec). rewrite Hb. destruct b; last first.
  { exists false. split; [done|]. split; [done|]. intros Hw. apply Hspec. by inversion Hw. }
  assert (effective reg cur) as Hecur by by apply Hspec.
  case_decide as Hid; [exists true; split; [done|]; split; [|done]; intros _; by apply walk_here|].
  inversion Hanc as [|x c y Hc Hanc']; subst; [done|].
  destruct (children reg cur) as [|x [|y l]] eqn:E.
  - rewrite children_nil in E. by apply E in Hc.
  - apply children_only in E. assert (c = x) as -> by by apply E.
    destruct (IH x) as (b & Hb' & Hspec'); [apply Hc|done|done| |].
    { apply child_rank in Hc. lia. }
    exists b. split; [done|]. rewrite Hspec'. split; [by apply walk_go|].
    intros Hw. inversion Hw as [|? ? x' _ _ Hx' Hw']; subst; [done|].
    by rewrite (only_unique _ _ _ E Hx').
  - exists false. split; [done|]. split; [done|]. intros Hw.
    inversion Hw as [|? ? x' _ _ Hx' _]; subst; [done|]. apply children_only in Hx'. congruence.
Qed.

Lemma identity_effective_spec eff identity :
  (∀ x, in_reg reg x → (rank (id x) <= rank (id identity))%nat →
     ∃ b, eff x = Some b ∧ (b = true ↔ effective reg x)) →
  in_reg reg identity →
  ∃ b, identity_record_is_effective eff reg identity = Some b ∧
       (b = true ↔ identity_effective reg identity).
Proof.
  intros Heff Hident. unfold identity_record_is_effective. case_decide as Hs.
  { exists false. split; [done|]. split; [done|]. intros Hi. by inversion Hi. }
  destruct (root_exists identity Hident) as (x & Hx & Hanc).
  destruct (roots reg (node_id identity)) as [|r [|r' l]] eqn:E.
  - rewrite roots_nil in E. by apply E in Hx.
  - apply roots_only in E. assert (x = r) as -> by by apply E.
    destruct (identity_walk_spec eff identity (loop_fuel reg) r Heff) as (b & Hb & Hspec);
      [apply Hx|done|done|unfold loop_fuel; lia|].
    exists b. split; [done|]. rewrite Hspec. split; [intros Hw; by eapply ident_eff|].
    intros Hi. inversion Hi as [? root' _ Hr' Hw]; subst. by rewrite (only_unique _ _ _ E Hr').
  - exists false. split; [done|]. split; [done|]. intros Hi. inversion Hi as [? root' _ Hr' _]; subst.
    apply roots_only in Hr'. congruence.
Qed.

Lemma record_is_effective_fuel_spec n r :
  in_reg reg r → (rank (id r) < n)%nat →
  ∃ b, record_is_effective_fuel n reg r = Some b ∧ (b = true ↔ effective reg r).
Proof.
  revert r. induction n as [|n IH]; intros r Hr Hn; [lia|]. cbn [record_is_effective_fuel].
  assert (∃ b, match retires r with
      | Some retired => action_path_contains reg (retired_identity retired) (id r)
      | None => Some true end = Some b ∧ (b = true ↔ retirement_ok reg r)) as (br & Hbr & Hret).
  { unfold retirement_ok. destruct (retires r) as [x|].
    - destruct (action_path_contains_spec (retired_identity x) (id r)) as (b & Hb & Hspec).
      exists b. split; [done|]. rewrite Hspec. naive_solver.
    - exists true. naive_solver. }
  destruct (authorizer r) as [i|] eqn:Ei; last first.
  { cbn [and_then]. exists br. split; [done|]. rewrite Hret. split; [by apply eff_self|].
    intros He. inversion He; [done|congruence]. }
  destruct (action_path_contains_spec i (id r)) as (bp & -> & Hpath).
  destruct bp; cbn [and_then]; last first.
  { exists false. split; [done|]. split; [done|]. intros He.
    inversion He as [|? i' ? Hi' Hp']; subst; [congruence|]. apply Hpath. congruence. }
  destruct (wf_deps _ _ Hwf (id r) r i Hr (authorizer_dep r i Ei)) as ([identity Hident] & Hlt).
  rewrite Hident. pose proof (wf_key _ _ Hwf _ _ Hident) as Hiid.
  assert (in_reg reg identity) as Hin by (unfold in_reg; by rewrite Hiid).
  destruct (identity_effective_spec (record_is_effective_fuel n reg) identity) as (b & -> & Hspec); [|done|].
  { intros x Hx Hle. apply IH; [done|]. rewrite Hiid in Hle. lia. }
  destruct b; cbn [and_then]; last first.
  { exists false. split; [done|]. split; [done|]. intros He.
    inversion He as [|? i' ident' Hi' _ Hid' Heff']; subst; [congruence|]. apply Hspec. congruence. }
  exists br. split; [done|]. rewrite Hret. split.
  - intros Hrok. eapply eff_by; [done|by apply Hpath|done|by apply Hspec|done].
  - intros He. by inversion He.
Qed.

Lemma record_is_effective_spec r :
  in_reg reg r → ∃ b, record_is_effective reg r = Some b ∧ (b = true ↔ effective reg r).
Proof.
  intros Hr. apply record_is_effective_fuel_spec; [done|]. unfold loop_fuel. pose proof (rank_bound r Hr). lia.
Qed.

(** *** Status *)

Lemma status_loop_spec n cur :
  in_reg reg cur → (size (records reg) - rank (id cur) < n)%nat →
  ∃ st, status_loop n reg cur = Some st ∧ st ≠ Unknown ∧
    (∀ r, st = Active r ↔ lineage reg cur r ∧ state r = KActive) ∧
    (∀ r, st = Revoked r ↔ lineage reg cur r ∧ state r = KRevoked).
Proof.
  revert cur. induction n as [|n IH]; intros cur Hcur Hn; [lia|]. cbn [status_loop].
  destruct (record_is_effective_spec cur Hcur) as (b & -> & Hspec). destruct b; last first.
  { eexists. split; [done|]. assert (¬ effective reg cur) as Hne by (intros He; by apply Hspec in He).
    split_and!; [done|..]; (intros r; split; [done|]); intros [Hl _]; inversion Hl; subst; contradiction. }
  assert (effective reg cur) as He by by apply Hspec.
  destruct (children reg cur) as [|x [|y l]] eqn:E.
  - rewrite children_nil in E. eexists. split; [done|].
    assert (∀ r, lineage reg cur r ↔ r = cur) as Hlin.
    { intros r. split; [|intros ->; by apply lin_end]. intros Hl. inversion Hl as [|? ? ? _ [Hx _]]; [done|].
      by apply E in Hx. }
    split_and!; [by destruct (state cur)|..]; intros r; rewrite Hlin;
      destruct (state cur) eqn:Es; naive_solver congruence.
  - apply children_only in E. destruct E as [Hx Ho]. pose proof (child_rank _ _ Hx) as Hr.
    destruct (IH x) as (st & -> & Hu & Ha & Hrv); [apply Hx|lia|].
    assert (∀ r, lineage reg cur r ↔ lineage reg x r) as Hlin.
    { intros r. split; [|intros Hl; eapply lin_step; [done|by split|done]].
      intros Hl. inversion Hl as [? ? Hno|? x' ? _ Hx' Hl']; subst; [by apply Hno in Hx|].
      by rewrite (only_unique _ _ _ (conj Hx Ho) Hx'). }
    exists st. split; [done|]. split; [done|]. setoid_rewrite Hlin. done.
  - eexists. split; [done|].
    assert (∀ r, ¬ lineage reg cur r) as Hno.
    { intros r Hl. inversion Hl as [? ? Hnone|? x' ? _ Hx' _]; subst.
      - apply children_nil in Hnone. congruence.
      - apply children_only in Hx'. congruence. }
    split_and!; [done|..]; (intros r; split; [done|]); intros [Hl _]; by apply Hno in Hl.
Qed.

(** The status of a node, read off the identity chain. *)
Lemma status_spec n :
  ∃ st, status reg n = Some st ∧
    (st = Unknown ↔ ∀ r, ¬ root_of reg n r) ∧
    (∀ r, st = Active r ↔ (∃ root, only (root_of reg n) root ∧ lineage reg root r) ∧ state r = KActive) ∧
    (∀ r, st = Revoked r ↔ (∃ root, only (root_of reg n) root ∧ lineage reg root r) ∧ state r = KRevoked).
Proof.
  unfold status. destruct (roots reg n) as [|x [|y l]] eqn:E.
  - rewrite roots_nil in E. exists Unknown. split; [done|]. split_and!; [done|..];
      (intros r; split; [done|]); intros [(root & [Hr _] & _) _]; by apply E in Hr.
  - apply roots_only in E. destruct (status_loop_spec (loop_fuel reg) x) as (st & -> & Hu & Ha & Hr);
      [apply E|unfold loop_fuel; lia|].
    assert (∀ r, (∃ root, only (root_of reg n) root ∧ lineage reg root r) ↔ lineage reg x r) as Hlin.
    { intros r. split; [|eauto]. intros (root & Hroot & Hl). by rewrite (only_unique _ _ _ E Hroot). }
    exists st. split; [done|]. setoid_rewrite Hlin. split_and!; [|done|done].
    split; [done|]. intros Hno. exfalso. by apply (Hno x), E.
  - exists (Conflicted (id <$> x :: y :: l)). split; [done|].
    assert (∀ z, ¬ only (root_of reg n) z) as Hno by (intros z Hz; apply roots_only in Hz; congruence).
    split_and!.
    + split; [done|]. intros Hn. exfalso. apply roots_nil in Hn. congruence.
    + intros r. split; [done|]. intros [(root & Hr & _) _]. by apply Hno in Hr.
    + intros r. split; [done|]. intros [(root & Hr & _) _]. by apply Hno in Hr.
Qed.
End reading.

(** ** Growth *)

Definition grows (reg reg' : AuthorizationRegistry) : Prop :=
  reg_cluster_id reg = reg_cluster_id reg' ∧ records reg ⊆ records reg'.

Section growth.
Context `{!Crypto} `{!Postcard}.

Lemma grows_lookup reg reg' i r : grows reg reg' → records reg !! i = Some r → records reg' !! i = Some r.
Proof. intros [_ Hsub] Hr. by eapply lookup_weaken. Qed.

Lemma record_grows reg reg' i r : grows reg reg' → record reg i = Ok r → record reg' i = Ok r.
Proof. rewrite !record_Ok. apply grows_lookup. Qed.

Lemma validate_action_predecessor_grows reg reg' identity a :
  grows reg reg' → validate_action_predecessor reg identity a = Ok tt →
  validate_action_predecessor reg' identity a = Ok tt.
Proof.
  intros Hg. unfold validate_action_predecessor. case_decide; [done|]. rewrite !result_bind_Ok.
  intros (act & Hact & Hv). exists act. split; [by eapply record_grows|done].
Qed.

Lemma validate_retirement_grows reg reg' r :
  grows reg reg' → validate_retirement reg r = Ok tt → validate_retirement reg' r = Ok tt.
Proof.
  intros Hg. unfold validate_retirement. rewrite !result_bind_Ok. intros (x & Hx & Hv).
  exists x. split; [done|]. rewrite result_bind_Ok in Hv |- *. destruct Hv as (identity & Hi & Hv).
  exists identity. split; [by eapply record_grows|by eapply validate_action_predecessor_grows].
Qed.

(** A validated record stays valid: validation only asks that its
    dependencies be present. *)
Lemma validate_grows reg reg' r : grows reg reg' → validate reg r = Ok tt → validate reg' r = Ok tt.
Proof.
  intros Hg. pose proof Hg as [Hc _]. unfold validate. rewrite <- Hc. case_decide; [done|].
  rewrite !result_bind_Ok. intros (ex & Hex & Hv). exists ex. split; [done|].
  case_decide; [done|]. rewrite result_bind_Ok in Hv |- *. destruct Hv as (key & Hkey & Hv).
  exists key. split; [done|]. case_decide; [done|]. case_decide; [done|].
  rewrite result_bind_Ok in Hv |- *. destruct Hv as ([] & Hlin & Hv). exists tt. split.
  { unfold validate_lineage in *. destruct (predecessor r) as [p|]; [|done].
    rewrite result_bind_Ok in Hlin |- *. destruct Hlin as (pr & Hpr & Hlin).
    exists pr. split; [by eapply record_grows|]. case_decide; [done|].
    unfold validate_successor in *. destruct (kind r), (state r); try done;
      destruct (match retires r with Some _ => _ | None => _ end); try done;
      by eapply validate_retirement_grows. }
  rewrite result_bind_Ok in Hv |- *. destruct Hv as (sk & Hsk & Hv). exists sk. split; [|done].
  destruct (authorizer r), (authorization_predecessor r); try done.
  rewrite result_bind_Ok in Hsk |- *. destruct Hsk as (identity & Hi & Hsk).
  exists identity. split; [by eapply record_grows|].
  rewrite result_bind_Ok in Hsk |- *. destruct Hsk as ([] & Ha & Hsk).
  exists tt. split; [by eapply validate_action_predecessor_grows|done].
Qed.

(** Inserting a validated record keeps the registry well formed. *)
Definition rank_with (reg : AuthorizationRegistry) (rank : RecordId → nat) (i : RecordId) (j : RecordId) : nat :=
  if decide (j = i) then size (records reg) else rank j.

Lemma insert_grows reg r : grows reg (insert reg r).1.
Proof.
  unfold insert, grows. destruct (records reg !! id r) eqn:E; [done|].
  destruct (validate reg r); [|done]. simpl. split; [done|]. by apply insert_subseteq.
Qed.

Lemma wf_insert reg rank r :
  wf_registry reg rank → ∃ rank', wf_registry (insert reg r).1 rank'.
Proof.
  intros Hwf. pose proof (insert_grows reg r) as Hg. unfold insert in *.
  destruct (records reg !! id r) eqn:E; [by exists rank|].
  destruct (validate reg r) as [[]|e] eqn:Hv; [|by exists rank]. cbn [fst] in *.
  exists (rank_with reg rank (id r)). unfold rank_with.
  assert (∀ d, is_Some (records reg !! d) → d ≠ id r) as Hne by (intros d [x Hx] ->; congruence).
  split; cbn [records].
  - intros i x [[<- <-]|[_ Hx]]%lookup_insert_Some; [done|by eapply wf_key].
  - intros i x [[<- <-]|[_ Hx]]%lookup_insert_Some; (eapply validate_grows; [exact Hg|]); [done|by eapply wf_valid].
  - intros i x Hx. rewrite map_size_insert_None by done.
    apply lookup_insert_Some in Hx as [[<- <-]|[Hi Hx]]; [rewrite decide_True by done; lia|].
    rewrite decide_False by done. pose proof (wf_rank _ _ Hwf _ _ Hx). lia.
  - intros i x d [[<- <-]|[Hi Hx]]%lookup_insert_Some Hd.
    + pose proof (validate_deps reg r d (wf_key _ _ Hwf) Hv Hd) as Hdep.
      rewrite lookup_insert_ne by (intros Heq; by apply (Hne d Hdep)). split; [done|].
      rewrite decide_False by auto. rewrite decide_True by done. destruct Hdep as [y Hy].
      by apply (wf_rank _ _ Hwf d y).
    + destruct (wf_deps _ _ Hwf _ _ _ Hx Hd) as [Hdep Hlt].
      rewrite lookup_insert_ne by (intros Heq; by apply (Hne d Hdep)). split; [done|].
      rewrite !decide_False by auto. done.
Qed.

Lemma wf_new cluster : wf_registry (new cluster) (λ _, 0%nat).
Proof. by split; intros *; simpl; rewrite ?lookup_empty. Qed.

(** *** What growth can take away, and what it cannot give back *)

Context (reg reg' : AuthorizationRegistry) (rank rank' : RecordId → nat).
Context (Hwf : wf_registry reg rank) (Hwf' : wf_registry reg' rank') (Hg : grows reg reg').

Lemma in_reg_grows r : in_reg reg r → in_reg reg' r.
Proof. by apply grows_lookup. Qed.

(** A record of the larger registry whose id the smaller one holds is the same record. *)
Lemma in_reg_shrinks r : in_reg reg' r → is_Some (records reg !! id r) → in_reg reg r.
Proof.
  unfold in_reg. intros Hr [x Hx]. pose proof (grows_lookup _ _ _ _ Hg Hx). congruence.
Qed.

Lemma dep_shrinks r d : in_reg reg r → d ∈ deps r → is_Some (records reg !! d).
Proof. intros Hr Hd. by apply (wf_deps _ _ Hwf (id r) r d). Qed.

Lemma succ_shrinks i a r : in_reg reg r → succ reg' i a r → succ reg i a r.
Proof. intros Hr [_ Ha]. by split. Qed.

Lemma only_succ_shrinks i a r : in_reg reg r → only (succ reg' i a) r → only (succ reg i a) r.
Proof.
  intros Hr [Hs Ho]. split; [by apply succ_shrinks|]. intros y [Hy Ha]. apply Ho. split; [by apply in_reg_grows|done].
Qed.

Lemma reaches_shrinks i t cur :
  is_Some (records reg !! t) → reaches reg' i t cur → is_Some (records reg !! cur) ∧ reaches reg i t cur.
Proof.
  intros Ht. induction 1 as [cur next Ho Heq|cur next Ho Hne Hterm Hreach [IH1 IH2]].
  - assert (in_reg reg next) as Hin by (apply in_reg_shrinks; [apply Ho|by rewrite Heq]).
    split; [by eapply dep_shrinks, acts_on_dep, Ho|].
    eapply reach_hit; [by apply only_succ_shrinks|done].
  - assert (in_reg reg next) as Hin by (apply in_reg_shrinks; [apply Ho|done]).
    split; [by eapply dep_shrinks, acts_on_dep, Ho|].
    eapply reach_go; [by apply only_succ_shrinks|done..].
Qed.

Lemma on_path_shrinks i t : is_Some (records reg !! t) → on_path reg' i t → on_path reg i t.
Proof. intros Ht [?|Hr]; [by left|right]. by apply reaches_shrinks. Qed.

Lemma retirement_ok_shrinks r : in_reg reg r → retirement_ok reg' r → retirement_ok reg r.
Proof. intros Hr Hok x Hx. apply on_path_shrinks; [rewrite Hr; eauto|by apply Hok]. Qed.

Lemma child_shrinks_parent p c : in_reg reg c → child reg' p c → child reg p c.
Proof. intros Hc [_ Hp]. by split. Qed.

Lemma only_child_shrinks p c : in_reg reg c → only (child reg' p) c → only (child reg p) c.
Proof.
  intros Hc [Hch Ho]. split; [by apply child_shrinks_parent|].
  intros y [Hy Hp]. apply Ho. split; [by apply in_reg_grows|done].
Qed.

Lemma only_root_shrinks n r : in_reg reg r → only (root_of reg' n) r → only (root_of reg n) r.
Proof.
  intros Hr [(_ & Hn & Hp) Ho]. split; [by split_and!|].
  intros y (Hy & ?). apply Ho. split; [by apply in_reg_grows|done].
Qed.

Lemma effective_shrinks r : effective reg' r → in_reg reg r → effective reg r.
Proof.
  intros He. revert He.
  apply (effective_mut reg'
    (λ r _, in_reg reg r → effective reg r)
    (λ identity _, in_reg reg identity → identity_effective reg identity)
    (λ identity cur _, in_reg reg identity → in_reg reg' cur → in_reg reg cur ∧ walks reg identity cur)).
  - intros x Ha Hret Hin. apply eff_self; [done|by apply retirement_ok_shrinks].
  - intros x i identity Ha Hp Hident _ IH Hret Hin.
    destruct (dep_shrinks x i Hin (authorizer_dep x i Ha)) as [y Hy].
    pose proof (grows_lookup _ _ _ _ Hg Hy) as Hy'. simplify_eq.
    eapply eff_by; [done| |exact Hy| |by apply retirement_ok_shrinks].
    + apply on_path_shrinks; [rewrite Hin; eauto|done].
    + apply IH. unfold in_reg. by rewrite (wf_key _ _ Hwf _ _ Hy).
  - intros identity root Hs Hroot _ IH Hin. destruct (IH Hin (proj1 (proj1 Hroot))) as [Hrin Hw].
    eapply ident_eff; [done|by apply only_root_shrinks|done].
  - intros identity cur Heff IH Hid Hin Hcur'.
    assert (in_reg reg cur) as Hcur by (apply in_reg_shrinks; [done|rewrite Hid, Hin; eauto]).
    split; [done|]. apply walk_here; auto.
  - intros identity cur next Heff IH Hid Hnext _ IHw Hin Hcur'.
    destruct (IHw Hin (proj1 (proj1 Hnext))) as [Hnin Hw].
    assert (in_reg reg cur) as Hcur.
    { apply in_reg_shrinks; [done|]. eapply dep_shrinks; [exact Hnin|]. apply predecessor_dep, Hnext. }
    split; [done|]. apply (walk_go reg identity cur next); [auto|done|by apply only_child_shrinks|done].
Qed.
End growth.

Section permanence.
Context `{!Crypto} `{!Postcard}.
Context (reg reg' : AuthorizationRegistry) (rank rank' : RecordId → nat).
Context (Hwf : wf_registry reg rank) (Hwf' : wf_registry reg' rank') (Hg : grows reg reg').

Lemma child_in_regs p c : child reg p c → child reg' p c.
Proof. intros [Hc Hp]. split; [by eapply in_reg_grows|done]. Qed.

(** An unforked, effective chain of the larger registry was one in the smaller. *)
Lemma lineage_shrinks cur leaf' :
  lineage reg' cur leaf' → in_reg reg cur → ∃ leaf, lineage reg cur leaf ∧ in_reg reg leaf.
Proof.
  induction 1 as [cur He Hno|cur next leaf He Ho _ IH]; intros Hcur;
    (assert (effective reg cur) as Hecur by by eapply effective_shrinks).
  - exists cur. split; [|done]. apply lin_end; [done|]. intros c Hc%child_in_regs. by apply (Hno c).
  - destruct (children reg cur) as [|x l] eqn:E.
    + exists cur. split; [|done]. apply lin_end; [done|]. by eapply children_nil.
    + assert (child reg cur x) as Hx.
      { apply (elem_of_children reg rank Hwf). rewrite E. by left. }
      assert (x = next) as -> by by apply Ho, child_in_regs.
      destruct IH as (leaf' & Hl & Hin); [apply Hx|]. exists leaf'. split; [|done].
      eapply lin_step; [done| |done]. eapply only_child_shrinks; [done|apply Hx|done].
Qed.

Lemma conflict_persists n l :
  status reg n = Some (Conflicted l) → ∃ l', status reg' n = Some (Conflicted l').
Proof.
  intros Hst.
  destruct (status_spec reg rank Hwf n) as (st & Hst1 & Hu & Ha & Hr). simplify_eq.
  destruct (status_spec reg' rank' Hwf' n) as (st' & Hst' & Hu' & Ha' & Hr'). rewrite Hst'.
  assert (∀ leaf, (∃ root, only (root_of reg' n) root ∧ lineage reg' root leaf) → False) as Hno.
  { intros leaf (root & Hroot & Hl).
    assert (∃ x, root_of reg n x) as [x Hx].
    { destruct (roots reg n) as [|x xs] eqn:E.
      - exfalso. assert (Conflicted l = Unknown) as [=]. apply Hu. by eapply roots_nil.
      - exists x. apply (elem_of_roots reg rank Hwf). rewrite E. by left. }
    assert (x = root) as ->.
    { apply Hroot. destruct Hx as (Hx & ?). split; [by eapply in_reg_grows|done]. }
    destruct (lineage_shrinks root leaf Hl) as (leaf0 & Hl0 & _); [apply Hx|].
    assert (∃ root, only (root_of reg n) root ∧ lineage reg root leaf0) as Hex.
    { exists root. split; [|done]. eapply only_root_shrinks; [done|apply Hx|done]. }
    destruct (state leaf0) eqn:Es.
    - assert (Conflicted l = Active leaf0) as [=]. by apply Ha.
    - assert (Conflicted l = Revoked leaf0) as [=]. by apply Hr. }
  destruct st' as [|r|r|l']; [| | |eauto]; exfalso.
  - assert (∀ r, ¬ root_of reg' n r) as Hnone by by apply Hu'.
    assert (Conflicted l = Unknown) as [=]. apply Hu. intros r (Hr0 & ?). apply (Hnone r).
    split; [by eapply in_reg_grows|done].
  - apply (Hno r). by apply Ha'.
  - apply (Hno r). by apply Hr'.
Qed.
End permanence.

(** ** Extending a registry at its leaves *)

Section extension.
Context `{!Crypto} `{!Postcard}.
Context (reg : AuthorizationRegistry) (rank : RecordId → nat) (Hwf : wf_registry reg rank).
Context (r : AuthorizationRecord) (Hfresh : records reg !! id r = None).

Definition extended : AuthorizationRegistry :=
  mkRegistry (reg_cluster_id reg) (<[id r := r]> (records reg)).

(** The new record forks nothing. *)
Record at_leaves : Prop := {
  leaf_actions : ∀ i a x, acts_on i a r → ¬ succ reg i a x;
  leaf_child : ∀ p x, predecessor r = Some p → in_reg reg x → predecessor x ≠ Some p;
  leaf_root : predecessor r = None → ∀ x, ¬ root_of reg (node_id r) x;
}.

Context (Hleaf : at_leaves).

Lemma in_extended x : in_reg extended x ↔ x = r ∨ in_reg reg x.
Proof.
  unfold in_reg, extended. simpl. rewrite lookup_insert. case_decide as Hid; [|naive_solver].
  split; [intros [= <-]; by left|]. intros [->|Hx]; [done|]. congruence.
Qed.

Lemma only_succ_extends i a x : only (succ reg i a) x → only (succ extended i a) x.
Proof.
  intros [[Hx Ha] Ho]. split; [split; [apply in_extended; by right|done]|].
  intros y [Hy Hay]. apply in_extended in Hy as [->|Hy]; [|by apply Ho].
  exfalso. by apply (leaf_actions Hleaf i a x).
Qed.

Lemma only_child_extends p x : only (child reg p) x → only (child extended p) x.
Proof.
  intros [[Hx Ha] Ho]. split; [split; [apply in_extended; by right|done]|].
  intros y [Hy Hay]. apply in_extended in Hy as [->|Hy]; [|by apply Ho].
  exfalso. by apply (leaf_child Hleaf (id p) x).
Qed.

Lemma only_root_extends n x : only (root_of reg n) x → only (root_of extended n) x.
Proof.
  intros [(Hx & Hn & Hp) Ho]. split; [split; [apply in_extended; by right|done]|].
  intros y (Hy & Hny & Hpy). apply in_extended in Hy as [->|Hy]; [|by apply Ho].
  exfalso. apply (leaf_root Hleaf Hpy x). subst n. by split_and!.
Qed.

Lemma reaches_extends i t cur : reaches reg i t cur → reaches extended i t cur.
Proof.
  induction 1 as [cur next Ho Heq|cur next Ho Hne Hterm _ IH];
    [eapply reach_hit|eapply reach_go]; eauto using only_succ_extends.
Qed.

Lemma on_path_extends i t : on_path reg i t → on_path extended i t.
Proof. intros [?|?]; [by left|right; by apply reaches_extends]. Qed.

Lemma retirement_ok_extends x : retirement_ok reg x → retirement_ok extended x.
Proof. intros Hok y Hy. by apply on_path_extends, Hok. Qed.

Lemma extended_lookup i x : records reg !! i = Some x → records extended !! i = Some x.
Proof. intros Hx. simpl. rewrite lookup_insert_ne; [done|]. intros <-. congruence. Qed.

Lemma extends_mut :
  (∀ x, effective reg x → effective extended x) ∧
  (∀ x, identity_effective reg x → identity_effective extended x) ∧
  (∀ x cur, walks reg x cur → walks extended x cur).
Proof.
  assert (∀ x (H : effective reg x), effective extended x) as H1.
  { apply (effective_mut reg (λ x _, effective extended x) (λ x _, identity_effective extended x)
      (λ x cur _, walks extended x cur)).
    - intros. apply eff_self; auto using retirement_ok_extends.
    - intros. eapply eff_by; eauto using retirement_ok_extends, on_path_extends, extended_lookup.
    - intros. eapply ident_eff; eauto using only_root_extends.
    - intros. by apply walk_here.
    - intros. eapply walk_go; eauto using only_child_extends. }
  assert (∀ x cur (H : walks reg x cur), walks extended x cur) as H3.
  { induction 1; [apply walk_here|eapply walk_go]; eauto using only_child_extends. }
  split_and!; [done| |done]. intros x Hx. destruct Hx. eapply ident_eff; eauto using only_root_extends.
Qed.

Lemma effective_extends x : effective reg x → effective extended x.
Proof. apply extends_mut. Qed.
Lemma identity_effective_extends x : identity_effective reg x → identity_effective extended x.
Proof. apply extends_mut. Qed.

(** The chain of an identity's actions, up to its head. *)
Inductive head_path (i : RecordId) : RecordId → AuthorizationRecord → Prop :=
| head_here cur : in_reg reg cur → (∀ x, ¬ succ reg i (id cur) x) → head_path i (id cur) cur
| head_go cur next h :
    only (succ reg i cur) next → terminates_identity next i = false →
    head_path i (id next) h → head_path i cur h.

Lemma head_path_leaf i cur h : head_path i cur h → ∀ x, ¬ succ reg i (id h) x.
Proof. by induction 1. Qed.

(** A record that acts on the head is on the unforked chain. *)
Lemma head_path_reaches i cur h :
  head_path i cur h → acts_on i (id h) r → reaches extended i (id r) cur.
Proof.
  intros Hp Ha. induction Hp as [cur _ Hno|cur next h Ho Hterm Hp IH].
  - eapply (reach_hit _ _ _ _ r); [|done]. split; [split; [apply in_extended; by left|done]|].
    intros y [Hy Hay]. apply in_extended in Hy as [->|Hy]; [done|]. exfalso. apply (Hno y). by split.
  - eapply reach_go; [by apply only_succ_extends| |done|auto].
    intros Heq. destruct Ho as [[Hin _] _]. unfold in_reg in Hin. congruence.
Qed.

Lemma head_path_in_reg i cur h : head_path i cur h → in_reg reg h.
Proof. by induction 1. Qed.

(** The head of an identity's actions is the identity or an action it signed. *)
Lemma head_path_action i cur h : head_path i cur h → id h = cur ∨ authorizer h = Some i.
Proof.
  induction 1 as [cur _ _|cur next h [[Hin Ha] _] Hterm Hp IH]; [by left|right].
  destruct IH as [Hid|?]; [|done]. pose proof (head_path_in_reg _ _ _ Hp) as Hh.
  assert (h = next) as -> by (unfold in_reg in *; congruence).
  destruct Ha as [[? _]|Hret]; [done|]. exfalso. unfold terminates_identity in Hterm.
  rewrite Hret in Hterm. simpl in Hterm. by rewrite (bool_decide_true (i = i)), orb_true_r in Hterm.
Qed.

Lemma authorizer_head_loop_spec n i cur h :
  in_reg reg cur → authorizer_head_loop n reg i cur = Some (Ok h) → head_path i (id cur) h.
Proof.
  revert cur. induction n as [|n IH]; intros cur Hin; [done|]. cbn [authorizer_head_loop].
  destruct (action_successors reg i (id cur)) as [|x [|y l]] eqn:E; [| |done].
  - intros [= ->]. apply head_here; [done|]. by eapply successors_nil.
  - destruct (terminates_identity x i) eqn:Et; [done|]. intros Hl.
    assert (only (succ reg i (id cur)) x) as Ho by by eapply successors_only.
    eapply head_go; [done|done|]. apply IH; [apply Ho|done].
Qed.

Lemma authorizer_head_spec identity h :
  in_reg reg identity → authorizer_head reg identity = Some (Ok h) → head_path (id identity) (id identity) h.
Proof.
  unfold authorizer_head, record. intros Hin. rewrite Hin. cbn [ok_or]. by apply authorizer_head_loop_spec.
Qed.

(** The identity chain of the extended registry. *)
Lemma lineage_extends_leaf cur leaf :
  lineage reg cur leaf → predecessor r = Some (id leaf) → effective extended r → in_reg reg leaf →
  lineage extended cur r.
Proof.
  induction 1 as [cur He Hno|cur next leaf He Ho _ IH]; intros Hp Her Hin.
  - eapply (lin_step _ cur r); [by apply effective_extends| |apply lin_end; [done|]].
    + split; [split; [apply in_extended; by left|done]|].
      intros y [Hy Hpy]. apply in_extended in Hy as [->|Hy]; [done|]. exfalso. apply (Hno y). by split.
    + intros c [Hc Hpc]. apply in_extended in Hc as [->|Hc].
      * rewrite Hp in Hpc. injection Hpc as Heq. unfold in_reg in Hin. congruence.
      * pose proof (dep_shrinks reg rank Hwf c (id r) Hc (predecessor_dep c (id r) Hpc)) as [z Hz]. congruence.
  - eapply lin_step; [by apply effective_extends|by apply only_child_extends|auto].
Qed.

Lemma lineage_extends cur leaf :
  lineage reg cur leaf → predecessor r ≠ Some (id leaf) → lineage extended cur leaf.
Proof.
  induction 1 as [cur He Hno|cur next leaf He Ho _ IH]; intros Hp.
  - apply lin_end; [by apply effective_extends|]. intros c [Hc Hpc].
    apply in_extended in Hc as [->|Hc]; [done|]. apply (Hno c). by split.
  - eapply lin_step; [by apply effective_extends|by apply only_child_extends|auto].
Qed.
End extension.

Section takes_effect.
Context `{!Crypto} `{!Postcard}.
Context (reg : AuthorizationRegistry) (rank : RecordId → nat) (Hwf : wf_registry reg rank).

Lemma lineage_in_reg cur leaf : lineage reg cur leaf → in_reg reg cur → in_reg reg leaf.
Proof. induction 1 as [|cur next leaf _ [Hn _] _ IH]; [done|]. intros _. apply IH, Hn. Qed.

Lemma lineage_leaf cur leaf : lineage reg cur leaf → effective reg leaf ∧ ∀ c, ¬ child reg leaf c.
Proof. by induction 1. Qed.

Lemma lineage_node cur leaf : lineage reg cur leaf → in_reg reg cur → node_id leaf = node_id cur.
Proof.
  induction 1 as [|cur next leaf _ [Hn _] _ IH]; [done|]. intros Hcur. rewrite IH by apply Hn.
  destruct Hn as [Hn Hp]. destruct (predecessor_facts reg rank Hwf next _ Hn Hp) as (pr & Hpr & Hid & Hnode & _).
  unfold in_reg in *. rewrite Hid in Hpr. congruence.
Qed.

(** The last record of an effective chain is an effective identity if it is active. *)
Lemma lineage_walks cur leaf : lineage reg cur leaf → walks reg leaf cur.
Proof.
  induction 1 as [cur He _|cur next leaf He Ho _ IH]; [by apply walk_here|].
  destruct (decide (id cur = id leaf)); [by apply walk_here|by eapply walk_go].
Qed.

(** What [status] tells of an active or revoked node. *)
Lemma status_chain n st r :
  status reg n = Some st → st = Active r ∨ st = Revoked r →
  in_reg reg r ∧ node_id r = n ∧ effective reg r ∧ (∀ c, ¬ child reg r c) ∧
  (state r = KActive ↔ st = Active r) ∧
  ∃ root, only (root_of reg n) root ∧ lineage reg root r.
Proof.
  intros Hst Hr. destruct (status_spec reg rank Hwf n) as (st' & Hst' & _ & Ha & Hrv). simplify_eq.
  assert ((∃ root, only (root_of reg n) root ∧ lineage reg root r)) as (root & Hroot & Hl).
  { destruct Hr as [Hr|Hr]; [by apply Ha in Hr as [? _]|by apply Hrv in Hr as [? _]]. }
  pose proof (lineage_in_reg _ _ Hl (proj1 (proj1 Hroot))) as Hin.
  destruct (lineage_leaf _ _ Hl) as [He Hno].
  split_and!; [done| |done|done| |eauto].
  - rewrite (lineage_node _ _ Hl) by apply Hroot. apply Hroot.
  - rewrite Ha. split; [|by intros [_ ?]]. intros Hs. split; [eauto|done].
Qed.

Lemma status_identity_effective n r : status reg n = Some (Active r) → identity_effective reg r.
Proof.
  intros Hst. destruct (status_chain n _ r Hst (or_introl eq_refl)) as (Hin & Hn & He & _ & Hs & root & Hroot & Hl).
  eapply (ident_eff _ r root); [by apply Hs|by rewrite Hn|by apply lineage_walks].
Qed.

Lemma status_of_lineage n root r :
  only (root_of reg n) root → lineage reg root r →
  status reg n = Some (match state r with KActive => Active r | KRevoked => Revoked r end).
Proof.
  intros Hroot Hl. destruct (status_spec reg rank Hwf n) as (st & -> & _ & Ha & Hr). f_equal.
  destruct (state r) eqn:Es; [apply Ha|apply Hr]; eauto.
Qed.

Context (r : AuthorizationRecord) (Hfresh : records reg !! id r = None) (Hvalid : validate reg r = Ok tt).

Lemma insert_extended : insert reg r = (extended reg r, Ok true).
Proof. unfold insert. by rewrite Hfresh, Hvalid. Qed.

Lemma wf_extended : ∃ rank', wf_registry (extended reg r) rank'.
Proof. destruct (wf_insert reg rank r Hwf) as [rank' H']. rewrite insert_extended in H'. eauto. Qed.

Context (Hleaf : at_leaves reg r).

Lemma extended_effective :
  (∀ i, authorizer r = Some i → ∃ identity h, records reg !! i = Some identity ∧
     identity_effective reg identity ∧ authorization_predecessor r = Some (id h) ∧ head_path reg i i h) →
  (∀ x, retires r = Some x → ∃ h, action_head x = id h ∧
     head_path reg (retired_identity x) (retired_identity x) h) →
  effective (extended reg r) r.
Proof.
  intros Hauth Hret.
  assert (retirement_ok (extended reg r) r) as Hrok.
  { intros x Hx. destruct (Hret x Hx) as (h & Hh & Hp). right.
    eapply head_path_reaches; [done|done|exact Hp|]. right. rewrite Hx, <- Hh. by destruct x. }
  destruct (authorizer r) as [i|] eqn:Ei; [|by apply eff_self].
  destruct (Hauth i eq_refl) as (identity & h & Hi & Hident & Ha & Hp).
  eapply eff_by; [done| |by apply extended_lookup|by apply identity_effective_extends|done].
  right. eapply head_path_reaches; [done|done|exact Hp|]. left. by split.
Qed.

(** The node of the new record ends in it, if it starts the node's chain or
    succeeds its last record. *)
Lemma extended_status :
  effective (extended reg r) r →
  (predecessor r = None ∨ ∃ v st, predecessor r = Some (id v) ∧
     status reg (node_id r) = Some st ∧ (st = Active v ∨ st = Revoked v)) →
  status (extended reg r) (node_id r)
  = Some (match state r with KActive => Active r | KRevoked => Revoked r end).
Proof.
  intros He Hpos. destruct wf_extended as [rank' Hwf'].
  assert (∃ root, only (root_of (extended reg r) (node_id r)) root ∧ lineage (extended reg r) root r)
    as (root & Hroot & Hl).
  { destruct Hpos as [Hnone|(v & st & Hp & Hst & Hv)].
    - exists r. split.
      + split; [split; [apply in_extended; [done|]; by left|by split]|].
        intros y (Hy & Hny & Hpy). apply in_extended in Hy as [->|Hy]; [done| |done].
        exfalso. by apply (leaf_root _ _ Hleaf Hnone y).
      + apply lin_end; [done|]. intros c [Hc Hpc]. apply in_extended in Hc as [->|Hc]; [congruence| |done].
        destruct (dep_shrinks reg rank Hwf c (id r) Hc (predecessor_dep c (id r) Hpc)). congruence.
    - destruct (status_chain _ _ v Hst Hv) as (Hin & _ & _ & _ & _ & root & Hroot & Hl).
      exists root. split; [by apply only_root_extends|].
      by eapply lineage_extends_leaf. }
  destruct (status_spec (extended reg r) rank' Hwf' (node_id r)) as (st & -> & _ & Ha & Hr). f_equal.
  destruct (state r) eqn:Es; [apply Ha|apply Hr]; eauto.
Qed.

(** Every other node keeps its status. *)
Lemma extended_others n st x :
  n ≠ node_id r → status reg n = Some st → st = Active x ∨ st = Revoked x →
  status (extended reg r) n = Some st.
Proof.
  intros Hn Hst Hx. destruct wf_extended as [rank' Hwf'].
  destruct (status_chain n st x Hst Hx) as (Hin & Hnx & _ & _ & Hs & root & Hroot & Hl).
  assert (predecessor r ≠ Some (id x)) as Hp.
  { intros Hp. destruct (validate_Ok reg r (wf_key _ _ Hwf) Hvalid) as [_ _ _ _ [_ Hsucc] _].
    destruct (Hsucc _ Hp) as (pr & Hpr & Hnode & _). unfold in_reg in Hin. congruence. }
  destruct (status_spec (extended reg r) rank' Hwf' n) as (st' & -> & _ & Ha & Hr). f_equal.
  assert (∃ root, only (root_of (extended reg r) n) root ∧ lineage (extended reg r) root x) as Hex.
  { exists root. split; [by apply only_root_extends|by apply lineage_extends]. }
  destruct (state x) eqn:Es.
  - destruct Hx as [->| ->]; [by apply Ha|]. exfalso. assert (Revoked x = Active x) as [=]. by apply Hs.
  - destruct Hx as [->| ->]; [|by apply Hr]. exfalso. assert (KRevoked = KActive) as [=]. by apply Hs.
Qed.
End takes_effect.

Lemma toy_registry_wf : ∃ rank, @wf_registry toy_crypto toy_postcard toy_registry rank.
Proof.
  destruct (@wf_insert toy_crypto toy_postcard _ _ toy_genesis
    (@wf_new toy_crypto toy_postcard toy_cluster)) as [rank H].
  exact (@wf_insert toy_crypto toy_postcard _ rank toy_member H).
Qed.
