(* ===== verification/Replication.v ===== *)
(** * Replicating the authorization registry

    Inserting and merging records: what a merge accepts, that it terminates,
    and that its outcome does not depend on the order in which records arrive. *)

From S2P Require Import Prelude.
From S2P Require Import Identity.
From S2P Require Import Authorization.
From S2P Require Import Effective.

Section replication.
Context `{!Crypto} `{!Postcard}.

(** ** Validation against a part of a registry *)

(** The check succeeds, or reports a dependency that is really missing. *)
Definition ok_or_missing {A} (cur : AuthorizationRegistry) (r : AuthorizationRecord)
    (m : result A AuthorizationError) (a : A) : Prop :=
  m = Ok a ∨ ∃ d, d ∈ deps r ∧ records cur !! d = None ∧ m = Err (MissingDependency d).

Lemma ok_or_missing_bind {A B} cur r (m : result A AuthorizationError) a
    (f : A → result B AuthorizationError) b :
  ok_or_missing cur r m a → ok_or_missing cur r (f a) b → ok_or_missing cur r (result_bind m f) b.
Proof. intros [->|(d & ? & ? & ->)] Hf; [done|]. right. by exists d. Qed.

Lemma ok_or_missing_ok {A} cur r (m : result A AuthorizationError) a : m = Ok a → ok_or_missing cur r m a.
Proof. by left. Qed.

Lemma record_ok_or_missing cur reg r i x :
  grows cur reg → i ∈ deps r → record reg i = Ok x → ok_or_missing cur r (record cur i) x.
Proof.
  intros Hg Hi Hx%record_Ok. unfold record, ok_or_missing. destruct (records cur !! i) as [y|] eqn:E; simpl.
  - left. pose proof (grows_lookup _ _ _ _ Hg E). congruence.
  - right. by exists i.
Qed.

Lemma action_predecessor_ok_or_missing cur reg r identity a :
  grows cur reg → a ∈ deps r → validate_action_predecessor reg identity a = Ok tt →
  ok_or_missing cur r (validate_action_predecessor cur identity a) tt.
Proof.
  intros Hg Ha. unfold validate_action_predecessor. case_decide; [by left|].
  rewrite result_bind_Ok. intros (act & Hact & Hv).
  eapply ok_or_missing_bind; [by eapply record_ok_or_missing|by left].
Qed.

Lemma retires_dep r x : retires r = Some x → retired_identity x ∈ deps r ∧ action_head x ∈ deps r.
Proof.
  intros Hx. unfold deps. rewrite Hx, !elem_of_app.
  split; right; right; right; [by left|by right; left].
Qed.

Lemma retirement_ok_or_missing cur reg r :
  grows cur reg → validate_retirement reg r = Ok tt →
  ok_or_missing cur r (validate_retirement cur r) tt.
Proof.
  intros Hg. unfold validate_retirement. rewrite result_bind_Ok. intros (x & Hx & Hv).
  rewrite Hx. simpl. apply ok_or_Ok in Hx. destruct (retires_dep r x Hx) as [Hi Ha].
  rewrite result_bind_Ok in Hv. destruct Hv as (identity & Hident & Hv).
  eapply ok_or_missing_bind; [by eapply record_ok_or_missing|by eapply action_predecessor_ok_or_missing].
Qed.

Lemma validate_ok_or_missing cur reg r :
  grows cur reg → validate reg r = Ok tt → ok_or_missing cur r (validate cur r) tt.
Proof.
  intros Hg. pose proof Hg as [Hc _]. unfold validate. rewrite Hc. case_decide; [done|].
  rewrite result_bind_Ok. intros (ex & -> & Hv). simpl. case_decide; [done|].
  rewrite result_bind_Ok in Hv. destruct Hv as (key & -> & Hv). simpl.
  case_decide; [done|]. case_decide; [done|].
  rewrite result_bind_Ok in Hv. destruct Hv as ([] & Hlin & Hv).
  eapply ok_or_missing_bind.
  { unfold validate_lineage in *. destruct (predecessor r) as [p|] eqn:Ep; [|by left].
    rewrite result_bind_Ok in Hlin. destruct Hlin as (pr & Hpr & Hlin).
    eapply ok_or_missing_bind; [eapply record_ok_or_missing; [done|by apply predecessor_dep|done]|].
    case_decide; [done|]. unfold validate_successor in *.
    destruct (kind r), (state r); try done; try (by left);
      (destruct (match retires r with Some _ => _ | None => _ end); [|done]);
      by eapply retirement_ok_or_missing. }
  rewrite result_bind_Ok in Hv. destruct Hv as (sk & Hsk & Hv).
  eapply (ok_or_missing_bind _ _ _ sk); [|by left].
  destruct (authorizer r) as [i|] eqn:Ei, (authorization_predecessor r) as [a|] eqn:Ea; try done; try (by left).
  rewrite result_bind_Ok in Hsk. destruct Hsk as (identity & Hi & Hsk).
  rewrite result_bind_Ok in Hsk. destruct Hsk as ([] & Hact & Hsk).
  assert (a ∈ deps r) as Had.
  { unfold deps. rewrite Ea, !elem_of_app. right; right; left. left. }
  eapply ok_or_missing_bind; [eapply record_ok_or_missing; [done|by apply authorizer_dep|done]|].
  eapply ok_or_missing_bind; [by eapply action_predecessor_ok_or_missing|by left].
Qed.

(** ** One pass over the pending records *)

Lemma grows_refl reg : grows reg reg.
Proof. by split. Qed.

Lemma grows_trans reg1 reg2 reg3 : grows reg1 reg2 → grows reg2 reg3 → grows reg1 reg3.
Proof. intros [? ?] [? ?]. split; [congruence|by etrans]. Qed.

(** What a pass or a merge from [reg] to [reg'] did with the records [rs]. *)
Record merged (reg reg' : AuthorizationRegistry) (rs : list AuthorizationRecord) (n : nat) : Prop := {
  mg_grows : grows reg reg';
  mg_wf : ∀ rank, wf_registry reg rank → ∃ rank', wf_registry reg' rank';
  mg_origin : ∀ i x, records reg' !! i = Some x → records reg !! i = Some x ∨ x ∈ rs;
  mg_count : size (records reg') = (size (records reg) + n)%nat;
}.

Lemma merged_trans reg1 reg2 reg3 rs rs' n m :
  merged reg1 reg2 rs n → merged reg2 reg3 rs' m → rs' ⊆ rs → merged reg1 reg3 rs (n + m).
Proof.
  intros [G1 W1 O1 C1] [G2 W2 O2 C2] Hsub. split.
  - by eapply grows_trans.
  - intros rank Hw. destruct (W1 rank Hw) as [rank2 Hw2]. by eapply W2.
  - intros i x Hx. destruct (O2 i x Hx) as [Hx2|Hin]; [by apply O1|right; by apply Hsub].
  - lia.
Qed.

Lemma merged_insert reg r b :
  (insert reg r).2 = Ok b →
  merged reg (insert reg r).1 [r] (if b then 1 else 0) ∧ is_Some (records (insert reg r).1 !! id r).
Proof.
  intros Hb. split.
  - split; [apply insert_grows|intros; by eapply wf_insert| |].
    + intros i x. unfold insert. destruct (records reg !! id r); [by left|].
      destruct (validate reg r); [|by left]. simpl.
      intros [[_ <-]|[_ ?]]%lookup_insert_Some; [right; by apply list_elem_of_singleton|by left].
    + unfold insert in *. destruct (records reg !! id r) eqn:E; [injection Hb as <-; simpl; lia|].
      destruct (validate reg r); [|done]. injection Hb as <-. simpl. rewrite map_size_insert_None by done. lia.
  - unfold insert in *. destruct (records reg !! id r) eqn:E; [simpl; rewrite E; eauto|].
    destruct (validate reg r); [|done]. simpl. rewrite lookup_insert_eq. eauto.
Qed.

Lemma merged_refl reg rs : merged reg reg rs 0.
Proof. split; [apply grows_refl|eauto|by left|lia]. Qed.

Lemma merge_pass_sound pending pass pass' :
  merge_pass pass pending = (pass', None) →
  ∃ n deferred, mp_deferred pass' = mp_deferred pass ++ deferred ∧
    mp_inserted pass' = (mp_inserted pass + n)%nat ∧
    merged (mp_registry pass) (mp_registry pass') pending n ∧ deferred ⊆ pending ∧
    (length deferred <= length pending)%nat ∧
    ∀ r, r ∈ pending → r ∈ deferred ∨ is_Some (records (mp_registry pass') !! id r).
Proof.
  revert pass. induction pending as [|r pending IH]; intros pass; cbn [merge_pass].
  - intros [= <-]. exists 0%nat, []. rewrite app_nil_r, Nat.add_0_r.
    split_and!; [done|done|apply merged_refl|done|done|]. intros r Hr. by apply elem_of_nil in Hr.
  - destruct (insert (mp_registry pass) r) as [reg' res] eqn:Ei.
    assert (grows (mp_registry pass) reg') as Hgi by (pose proof (insert_grows (mp_registry pass) r) as H'; by rewrite Ei in H').
    destruct res as [b|e].
    + intros Hp. apply IH in Hp as (n & deferred & Hd & Hn & Hm & Hsub & Hlen & Hall).
      cbn [mp_registry mp_inserted mp_deferred] in *.
      pose proof (merged_insert (mp_registry pass) r b) as Hmi. rewrite Ei in Hmi. cbn [fst snd] in Hmi.
      destruct (Hmi eq_refl) as [Hm1 Hin].
      exists ((if b then 1 else 0) + n)%nat, deferred. split_and!; [done|lia| | |simpl; lia|].
      * destruct Hm1 as [G1 W1 O1 C1], Hm as [G2 W2 O2 C2]. split.
        -- by eapply grows_trans.
        -- intros rank Hw. destruct (W1 rank Hw) as [rank2 Hw2]. by eapply W2.
        -- intros i x Hx. destruct (O2 i x Hx) as [Hx2|Hx2]; [|right; by right].
           destruct (O1 i x Hx2) as [Hx3|Hx3]; [by left|right]. apply list_elem_of_singleton in Hx3 as ->. by left.
        -- lia.
      * intros x Hx. right. by apply Hsub.
      * intros x [->|Hx]%elem_of_cons; [right|auto]. destruct Hin as [y Hy].
        eexists. eapply grows_lookup; [apply Hm|exact Hy].
    + destruct e; try done. intros Hp. apply IH in Hp as (n & deferred & Hd & Hn & Hm & Hsub & Hlen & Hall).
      cbn [mp_registry mp_inserted mp_deferred] in *.
      assert (reg' = mp_registry pass) as ->.
      { unfold insert in Ei. destruct (records (mp_registry pass) !! id r); [by injection Ei|].
        destruct (validate (mp_registry pass) r); [done|]. by injection Ei. }
      exists n, (r :: deferred). rewrite Hd, <- app_assoc. split_and!; [done|lia| | |simpl; lia|].
      * destruct Hm as [G2 W2 O2 C2]. split; [done|done| |done].
        intros i x Hx. destruct (O2 i x Hx) as [Hx2|Hx2]; [by left|right; by right].
      * intros x [->|Hx]%elem_of_cons; [by left|right; by apply Hsub].
      * intros x [->|Hx]%elem_of_cons; [left; by left|]. destruct (Hall x Hx); [left; by right|by right].
Qed.
(** ** The whole merge *)

Lemma merge_loop_sound fuel reg inserted pending reg' n :
  merge_loop fuel reg inserted pending = Some (reg', Ok n) →
  ∃ k, n = (inserted + k)%nat ∧ merged reg reg' pending k ∧
    ∀ r, r ∈ pending → is_Some (records reg' !! id r).
Proof.
  revert reg inserted pending. induction fuel as [|fuel IH]; intros reg inserted pending; cbn [merge_loop];
    (destruct pending as [|r0 pending0];
      [intros [= <- <-]; exists 0%nat; split_and!; [lia|apply merged_refl|intros r Hr; by apply elem_of_nil in Hr]|]);
    [done|].
  destruct (merge_pass _ _) as [pass [e|]] eqn:Ep; [done|].
  apply merge_pass_sound in Ep as (k & deferred & Hd & Hn & Hm & Hsub & Hlen & Hall).
  cbn [mp_registry mp_inserted mp_deferred app] in *. case_decide; [done|]. intros Hl.
  apply IH in Hl as (k' & -> & Hm' & Hall'). exists (k + k')%nat. split_and!; [lia| |].
  - rewrite Hd in Hm'. by eapply merged_trans.
  - intros r Hr. destruct (Hall r Hr) as [Hdef|[y Hy]]; [apply Hall'; by rewrite Hd|].
    eexists. eapply grows_lookup; [apply Hm'|exact Hy].
Qed.

Lemma merge_loop_total fuel reg inserted pending :
  (length pending <= fuel)%nat → merge_loop fuel reg inserted pending ≠ None.
Proof.
  revert reg inserted pending. induction fuel as [|fuel IH]; intros reg inserted pending Hlen; cbn [merge_loop];
    (destruct pending as [|r0 pending0]; [done|]); [simpl in Hlen; lia|].
  destruct (merge_pass _ _) as [pass [e|]] eqn:Ep; [done|].
  apply merge_pass_sound in Ep as (k & deferred & Hd & _ & _ & _ & Hlen' & _).
  cbn [mp_deferred app] in Hd. case_decide as Hne; [done|]. apply IH. rewrite Hd in *. simpl in *. lia.
Qed.

(** Whatever a merge reports, what it leaves behind is valid and has grown. *)
Definition valid_growth (reg reg' : AuthorizationRegistry) : Prop :=
  grows reg reg' ∧ ∀ rank, wf_registry reg rank → ∃ rank', wf_registry reg' rank'.

Lemma valid_growth_refl reg : valid_growth reg reg.
Proof. split; [apply grows_refl|eauto]. Qed.

Lemma valid_growth_trans reg1 reg2 reg3 :
  valid_growth reg1 reg2 → valid_growth reg2 reg3 → valid_growth reg1 reg3.
Proof.
  intros [G1 W1] [G2 W2]. split; [by eapply grows_trans|]. intros rank Hw. destruct (W1 rank Hw). eauto.
Qed.

Lemma insert_valid_growth reg r : valid_growth reg (insert reg r).1.
Proof. split; [apply insert_grows|]. intros rank Hw. by eapply wf_insert. Qed.

Lemma merge_pass_growth pending pass : valid_growth (mp_registry pass) (mp_registry (merge_pass pass pending).1).
Proof.
  revert pass. induction pending as [|r pending IH]; intros pass; cbn [merge_pass]; [apply valid_growth_refl|].
  pose proof (insert_valid_growth (mp_registry pass) r) as Hi.
  destruct (insert (mp_registry pass) r) as [reg [b|e]]; cbn [fst] in Hi.
  - eapply valid_growth_trans; [exact Hi|]. apply (IH (mkPass reg _ _ _)).
  - destruct e; try exact Hi. eapply valid_growth_trans; [exact Hi|]. apply (IH (mkPass reg _ _ _)).
Qed.

Lemma merge_loop_growth fuel reg inserted pending reg' res :
  merge_loop fuel reg inserted pending = Some (reg', res) → valid_growth reg reg'.
Proof.
  revert reg inserted pending. induction fuel as [|fuel IH]; intros reg inserted pending; cbn [merge_loop];
    (destruct pending as [|r0 pending0]; [intros [= <- <-]; apply valid_growth_refl|]); [done|].
  pose proof (merge_pass_growth (r0 :: pending0) (mkPass reg inserted [] None)) as Hp.
  destruct (merge_pass _ _) as [pass [e|]]; cbn [fst mp_registry] in Hp; [by intros [= <- <-]|].
  case_decide; [by intros [= <- <-]|]. intros Hl%IH. by eapply valid_growth_trans.
Qed.

Lemma merge_grows reg rank rs reg' res :
  wf_registry reg rank → merge reg rs = Some (reg', res) → grows reg reg' ∧ ∃ rank', wf_registry reg' rank'.
Proof. intros Hw Hm. destruct (merge_loop_growth _ _ _ _ _ _ Hm) as [Hg Hw']. eauto. Qed.

Context (target : AuthorizationRegistry) (rank : RecordId → nat) (Hwf : wf_registry target rank).

Lemma merge_pass_complete pending pass :
  grows (mp_registry pass) target →
  (∀ r, r ∈ pending → in_reg target r ∨ is_Some (records (mp_registry pass) !! id r)) →
  ∃ pass', merge_pass pass pending = (pass', None) ∧ grows (mp_registry pass') target ∧
    ∃ deferred, mp_deferred pass' = mp_deferred pass ++ deferred ∧ (length deferred <= length pending)%nat ∧
      ((∃ r, r ∈ pending ∧ (is_Some (records (mp_registry pass) !! id r) ∨
         ∀ d, d ∈ deps r → is_Some (records (mp_registry pass) !! d))) →
       (length deferred < length pending)%nat).
Proof.
  revert pass. induction pending as [|r pending IH]; intros pass Hg Hall; cbn [merge_pass].
  { exists pass. split_and!; [done|done|]. exists []. rewrite app_nil_r. split_and!; [done|done|].
    intros (r & Hr & _). by apply elem_of_nil in Hr. }
  pose proof (insert_grows (mp_registry pass) r) as Hgi.
  assert (∀ b (reg' : AuthorizationRegistry), insert (mp_registry pass) r = (reg', Ok b) → grows reg' target →
    ∃ pass', merge_pass (mkPass reg' (mp_inserted pass + if b then 1 else 0) (mp_deferred pass) (mp_missing pass)) pending
      = (pass', None) ∧ grows (mp_registry pass') target ∧
    ∃ deferred, mp_deferred pass' = mp_deferred pass ++ deferred ∧ (length deferred <= length pending)%nat) as Hok.
  { intros b reg' Ei Hg'. rewrite Ei in Hgi. cbn [fst] in Hgi.
    destruct (IH (mkPass reg' (mp_inserted pass + if b then 1 else 0) (mp_deferred pass) (mp_missing pass)))
      as (pass' & Hp & Hgp & deferred & Hd & Hlen & _); cbn [mp_registry] in *; [done| |].
    - intros x Hx. destruct (Hall x) as [?|[y Hy]]; [by right|by left|right].
      eexists. by eapply grows_lookup.
    - exists pass'. split_and!; [done|done|]. exists deferred. by split. }
  destruct (records (mp_registry pass) !! id r) as [x|] eqn:Ex.
  - assert (insert (mp_registry pass) r = (mp_registry pass, Ok false)) as Ei by (unfold insert; by rewrite Ex).
    destruct (Hok false (mp_registry pass) Ei Hg) as (pass' & Hp & Hgp & deferred & Hd & Hlen).
    rewrite Ei. exists pass'. split_and!; [done|done|]. exists deferred.
    split_and!; [done|simpl; lia|]. intros _. simpl. lia.
  - destruct (Hall r ltac:(by left)) as [Hin|[? ?]]; [|congruence].
    destruct (validate_ok_or_missing (mp_registry pass) target r Hg (wf_valid _ _ Hwf _ _ Hin)) as [Hv|(d & Hd & Hnone & Hv)].
    + assert (insert (mp_registry pass) r = (extended (mp_registry pass) r, Ok true)) as Ei
        by (unfold insert; by rewrite Ex, Hv).
      assert (grows (extended (mp_registry pass) r) target) as Hge.
      { destruct Hg as [Hc Hs]. split; [done|]. simpl. by apply insert_subseteq_l. }
      destruct (Hok true (extended (mp_registry pass) r) Ei Hge) as (pass' & Hp & Hgp & deferred & Hdf & Hlen).
      rewrite Ei. exists pass'. split_and!; [done|done|]. exists deferred.
      split_and!; [done|simpl; lia|]. intros _. simpl. lia.
    + assert (insert (mp_registry pass) r = (mp_registry pass, Err (MissingDependency d))) as Ei
        by (unfold insert; by rewrite Ex, Hv).
      rewrite Ei. destruct (IH (mkPass (mp_registry pass) (mp_inserted pass) (mp_deferred pass ++ [r]) (Some d)))
        as (pass' & Hp & Hgp & deferred & Hdf & Hlen & Hprog); cbn [mp_registry mp_deferred] in *; [done| |].
      { intros x Hx. apply Hall. by right. }
      exists pass'. split_and!; [done|done|]. exists (r :: deferred). rewrite Hdf, <- app_assoc.
      split_and!; [done|simpl; lia|]. intros (y & Hy & Hready). simpl. apply -> Nat.succ_lt_mono.
      apply Hprog. exists y. split; [|done]. apply elem_of_cons in Hy as [->|Hy]; [exfalso|done].
      destruct Hready as [[? ?]|Hready]; [congruence|]. destruct (Hready d Hd). congruence.
Qed.

(** Some pending record has all its dependencies. *)
Lemma ready_exists (cur : AuthorizationRegistry) (pending : list AuthorizationRecord) :
  pending ≠ [] →
  (∀ r, r ∈ pending → in_reg target r ∨ is_Some (records cur !! id r)) →
  (∀ i x, records target !! i = Some x → is_Some (records cur !! i) ∨ x ∈ pending) →
  ∃ r, r ∈ pending ∧ (is_Some (records cur !! id r) ∨ ∀ d, d ∈ deps r → is_Some (records cur !! d)).
Proof.
  intros Hne Hall Hcover.
  assert (∀ k r, r ∈ pending → (rank (id r) <= k)%nat →
    ∃ r, r ∈ pending ∧ (is_Some (records cur !! id r) ∨ ∀ d, d ∈ deps r → is_Some (records cur !! d))) as Hmin.
  { induction k as [|k IH]; intros r Hr Hk;
      (destruct (decide (Forall (λ d, is_Some (records cur !! d)) (deps r))) as [Hf|Hf];
        [exists r; split; [done|]; right; by apply Forall_forall|]);
      (destruct (Hall r Hr) as [Hin|?]; [|by exists r; split; [|left]]);
      apply not_Forall_Exists, Exists_exists in Hf as (d & Hd & Hmiss); try apply _;
      (destruct (wf_deps _ _ Hwf _ _ _ Hin Hd) as [[y Hy] Hlt]); [lia|].
    destruct (Hcover d y Hy) as [?|Hyp]; [done|]. apply (IH y Hyp).
    rewrite (wf_key _ _ Hwf _ _ Hy). lia. }
  destruct pending as [|r pending]; [done|]. apply (Hmin (rank (id r)) r); [by left|done].
Qed.

Lemma merge_loop_complete fuel cur inserted pending :
  (length pending <= fuel)%nat → grows cur target →
  (∀ r, r ∈ pending → in_reg target r ∨ is_Some (records cur !! id r)) →
  (∀ i x, records target !! i = Some x → is_Some (records cur !! i) ∨ x ∈ pending) →
  ∃ n, merge_loop fuel cur inserted pending = Some (target, Ok n).
Proof.
  revert cur inserted pending. induction fuel as [|fuel IH]; intros cur inserted pending Hlen Hg Hall Hcover;
    cbn [merge_loop]; (destruct pending as [|r0 pending0];
      [exists inserted; do 3 f_equal; destruct Hg as [Hc Hs]; destruct cur, target; simpl in *; f_equal; [done|];
       apply (anti_symm (⊆)); [done|]; apply map_subseteq_spec; intros i x Hx;
       destruct (Hcover i x Hx) as [[y Hy]|Hin]; [|by apply elem_of_nil in Hin];
       pose proof (lookup_weaken _ _ _ _ Hy Hs); congruence|]); [simpl in Hlen; lia|].
  set (pending := r0 :: pending0) in *.
  destruct (merge_pass_complete pending (mkPass cur inserted [] None) Hg Hall)
    as (pass & Hp & Hgp & deferred & Hd & Hlen' & Hprog).
  cbn [mp_registry mp_deferred app] in *. rewrite Hp.
  destruct (merge_pass_sound _ _ _ Hp) as (k & deferred' & Hd' & _ & Hm & Hsub & _ & Hacc).
  cbn [mp_registry mp_deferred app] in *. assert (deferred' = deferred) as -> by congruence.
  pose proof (Hprog (ready_exists cur pending ltac:(done) Hall Hcover)) as Hlt.
  rewrite decide_False by (rewrite Hd; lia). rewrite Hd. apply IH; [lia|done| |].
  - intros r Hr. destruct (Hall r (Hsub r Hr)) as [?|[y Hy]]; [by left|right].
    eexists. eapply grows_lookup; [apply Hm|exact Hy].
  - intros i x Hx. destruct (Hcover i x Hx) as [[y Hy]|Hin].
    + left. eexists. eapply grows_lookup; [apply Hm|exact Hy].
    + destruct (Hacc x Hin) as [?|Hs]; [by right|left]. by rewrite (wf_key _ _ Hwf _ _ Hx) in Hs.
Qed.
End replication.

(** ** Properties *)

(** A merge terminates, and a merge that succeeds accepts exactly the
    records it was given: it keeps every record the registry had, adds nothing
    that was not offered, holds every offered id afterwards, reports the number
    of records added, and leaves a registry all of whose records are valid. *)
Theorem merge_accepts_all `{!Crypto, !Postcard} reg rank rs :
  wf_registry reg rank →
  ∃ reg' res, merge reg rs = Some (reg', res) ∧
    ∀ n, res = Ok n →
      grows reg reg' ∧ (∃ rank', wf_registry reg' rank') ∧
      (∀ i x, records reg' !! i = Some x → records reg !! i = Some x ∨ x ∈ rs) ∧
      (∀ r, r ∈ rs → is_Some (records reg' !! id r)) ∧
      size (records reg') = (size (records reg) + n)%nat.
Proof.
  intros Hwf. destruct (merge reg rs) as [[reg' res]|] eqn:E; [|by apply merge_loop_total in E].
  exists reg', res. split; [done|]. intros n ->.
  apply merge_loop_sound in E as (k & -> & [G W O C] & Hall). split_and!; eauto.
Qed.

(** C25: replication is order independent: if merging some records succeeds,
    merging the same records in any order and with any repetitions succeeds,
    adds as many, and gives the same registry; so registries that exchange
    their records agree. *)
Theorem merge_order_independent `{!Crypto, !Postcard} reg rank rs rs' reg1 n :
  wf_registry reg rank →
  (∀ a b, a ∈ rs → b ∈ rs → id a = id b → a = b) →
  (∀ x, x ∈ rs ↔ x ∈ rs') →
  merge reg rs = Some (reg1, Ok n) → merge reg rs' = Some (reg1, Ok n).
Proof.
  intros Hwf Hids Hsame Hm.
  apply merge_loop_sound in Hm as (k & -> & [G W O C] & Hall). destruct (W rank Hwf) as [rank1 Hwf1].
  destruct (merge_loop_complete reg1 rank1 Hwf1 (length rs') reg 0 rs') as [m Hm]; [done|done| | |].
  - intros r Hr%Hsame. destruct (Hall r Hr) as [x Hx]. destruct (O _ _ Hx) as [?|Hin]; [right; eauto|left].
    assert (x = r) as -> by (apply Hids; [done..|]; by rewrite (wf_key _ _ Hwf1 _ _ Hx)). done.
  - intros i x Hx. destruct (O i x Hx) as [?|Hin]; [left; eauto|right; by apply Hsame].
  - unfold merge. rewrite Hm. do 3 f_equal.
    apply merge_loop_sound in Hm as (k' & -> & [_ _ _ C'] & _). lia.
Qed.

Lemma merge_accepts_all_witness :
  ∃ reg' res,
    @merge toy_crypto toy_postcard (new toy_cluster) [toy_member; toy_genesis] = Some (reg', res) ∧
    ∀ n, res = Ok n → size (records reg') = (size (records (new toy_cluster)) + n)%nat.
Proof.
  destruct (@merge_accepts_all toy_crypto toy_postcard (new toy_cluster) _ [toy_member; toy_genesis]
    (wf_new toy_cluster)) as (reg' & res & Hm & H).
  exists reg', res. split; [exact Hm|]. intros n Hn. destruct (H n Hn) as (_ & _ & _ & _ & Hs). exact Hs.
Defined.

(** The ids of the records of a list, compared by evaluation. *)
Definition ids_determine (rs : list AuthorizationRecord) : bool :=
  forallb (λ a, forallb (λ b, negb (String.eqb (id a) (id b)) || bool_decide (a = b)) rs) rs.

Lemma ids_determine_correct rs :
  ids_determine rs = true → ∀ a b, a ∈ rs → b ∈ rs → id a = id b → a = b.
Proof.
  unfold ids_determine. intros H a b Ha Hb Hid. rewrite forallb_forall in H.
  specialize (H a (proj1 (list_elem_of_In _ _) Ha)). rewrite forallb_forall in H.
  specialize (H b (proj1 (list_elem_of_In _ _) Hb)). rewrite Hid, String.eqb_refl in H.
  by apply bool_decide_eq_true in H.
Qed.

Lemma toy_ids_determine : ids_determine [toy_genesis; toy_member] = true.
Proof. vm_compute. reflexivity. Qed.

Lemma toy_merge :
  @merge toy_crypto toy_postcard (new toy_cluster) [toy_genesis; toy_member] = Some (toy_registry, Ok 2%nat).
Proof. vm_cast_no_check (@eq_refl _ (Some (toy_registry, @Ok nat AuthorizationError 2%nat))). Qed.

Lemma merge_order_independent_witness :
  @merge toy_crypto toy_postcard (new toy_cluster) [toy_member; toy_genesis; toy_member]
  = Some (toy_registry, Ok 2%nat).
Proof.
  refine (@merge_order_independent toy_crypto toy_postcard (new toy_cluster) (λ _, 0%nat)
    [toy_genesis; toy_member] [toy_member; toy_genesis; toy_member] toy_registry 2%nat
    (wf_new toy_cluster) (ids_determine_correct _ toy_ids_determine) _ toy_merge).
  intros x. rewrite !elem_of_cons. tauto.
Defined.
