(* ===== verification/Trust.v ===== *)
(** * Who is authorized

    The theorems about the authorization registry that the rest of the system
    relies on: what admitting, rotating, recovering and revoking an identity
    does to its status, what a conflict costs, where authority comes from. *)

From S2P Require Import Prelude.
From S2P Require Import Identity.
From S2P Require Import Authorization.
From S2P Require Import Effective.

(** ** Records as their constructors sign them *)

Section signing.
Context `{!Crypto} `{!CryptoLaws} `{!Postcard}.

Lemma sign_record_Ok b signer r :
  sign_record b signer = Ok r →
  body r = b ∧ expected_id r = Ok (id r) ∧
  ∃ msg, signing_bytes r = Ok msg ∧
    verify_signature (public (keypair signer)) msg (signature r) = true.
Proof.
  unfold sign_record, expected_id, signing_bytes. rewrite result_bind_Ok.
  intros (msg & Hmsg & Hs). rewrite result_bind_Ok in Hs. destruct Hs as (sig & Hsig%map_err_Ok & Hs).
  rewrite result_bind_Ok in Hs. destruct Hs as (rid & Hid & [= <-]). cbn.
  split_and!; [done|done|]. exists msg. split; [done|]. apply map_err_Ok in Hsig. by apply verify_sign.
Qed.

Context (reg : AuthorizationRegistry) (rank : RecordId → nat) (Hwf : wf_registry reg rank).

(** What [validate] checks of the key material of a record's subject. *)
Definition subject_ok (r : AuthorizationRecord) (key : PublicKey) : Prop :=
  cluster_id r = reg_cluster_id reg ∧ decode_public_key (public_key r) = Ok key ∧
  to_peer_id key = peer_id r ∧ from_initial_public_key (initial_public_key r) = node_id r.

(** A record signed by the holder of its authorizer's key, on the head of the
    authorizer's actions, is valid if its lineage is. *)
Lemma validate_signed b signer r key identity h :
  sign_record b signer = Ok r → subject_ok r key → validate_lineage reg r = Ok tt →
  authorizer r = Some (id identity) → authorization_predecessor r = Some (id h) →
  in_reg reg identity → authorizer_head reg identity = Some (Ok h) →
  public_key identity = public_key_bytes signer →
  validate reg r = Ok tt.
Proof.
  intros (Hb & Hid & msg & Hmsg & Hver)%sign_record_Ok (Hc & Hkey & Hpeer & Hnode) Hlin Ha Hp Hin Hhead Hpk.
  unfold validate. rewrite decide_False by auto. rewrite Hid. cbn [result_bind]. rewrite decide_False by auto.
  rewrite Hkey. cbn [map_err result_bind]. rewrite !decide_False by auto. rewrite Hlin, Ha, Hp. cbn [result_bind].
  unfold record at 1. rewrite Hin. cbn [ok_or result_bind].
  assert (validate_action_predecessor reg identity (id h) = Ok tt) as ->.
  { apply (authorizer_head_spec reg rank Hwf) in Hhead; [|done]. unfold validate_action_predecessor. case_decide as Hne; [done|].
    pose proof (head_path_in_reg _ _ _ _ Hhead) as Hh. unfold record. rewrite Hh. cbn [ok_or result_bind].
    destruct (head_path_action _ _ _ _ Hhead) as [?|Hauth]; [done|]. rewrite decide_False; [done|]. auto. }
  cbn [result_bind]. rewrite Hpk. unfold public_key_bytes. rewrite decode_public_key_encode.
  cbn [map_err result_bind]. rewrite Hmsg. cbn [result_bind]. by rewrite Hver.
Qed.

(** A record without authorizer is checked against its own key. *)
Lemma validate_self_signed b signer r :
  sign_record b signer = Ok r → subject_ok r (public (keypair signer)) → validate_lineage reg r = Ok tt →
  authorizer r = None → authorization_predecessor r = None → validate reg r = Ok tt.
Proof.
  intros (Hb & Hid & msg & Hmsg & Hver)%sign_record_Ok (Hc & Hkey & Hpeer & Hnode) Hlin Ha Hp.
  unfold validate. rewrite decide_False by auto. rewrite Hid. cbn [result_bind]. rewrite decide_False by auto.
  rewrite Hkey. cbn [map_err result_bind]. rewrite !decide_False by auto. rewrite Hlin, Ha, Hp. cbn [result_bind].
  rewrite Hmsg. cbn [result_bind]. by rewrite Hver.
Qed.
End signing.

(** ** Registrations that take effect *)

Section effect.
Context `{!Crypto} `{!CryptoLaws} `{!Postcard}.
Context (reg : AuthorizationRegistry) (rank : RecordId → nat) (Hwf : wf_registry reg rank).

(** What the operations of this part promise of inserting [r]: it is accepted,
    its node takes the status the record gives it, and no other node that was
    active or revoked changes. *)
Definition takes_effect (r : AuthorizationRecord) : Prop :=
  (insert reg r).2 = Ok true ∧
  status (insert reg r).1 (node_id r)
  = Some (match state r with KActive => Active r | KRevoked => Revoked r end) ∧
  ∀ n st x, n ≠ node_id r → status reg n = Some st → st = Active x ∨ st = Revoked x →
    status (insert reg r).1 n = Some st.

(** Where the record sits in its authorizer's and its predecessor's chains. *)
Definition signed_at_head (r : AuthorizationRecord) : Prop :=
  ∀ i, authorizer r = Some i → ∃ identity h, i = id identity ∧ in_reg reg identity ∧
    identity_effective reg identity ∧ authorization_predecessor r = Some (id h) ∧ head_path reg i i h.
Definition retires_head (r : AuthorizationRecord) : Prop :=
  ∀ x, retires r = Some x → ∃ h, action_head x = id h ∧
    head_path reg (retired_identity x) (retired_identity x) h.
Definition follows_last (r : AuthorizationRecord) : Prop :=
  match predecessor r with
  | None => status reg (node_id r) = Some Unknown
  | Some p => ∃ v st, p = id v ∧ status reg (node_id r) = Some st ∧ (st = Active v ∨ st = Revoked v)
  end.

Lemma heads_at_leaves r : signed_at_head r → retires_head r → follows_last r → at_leaves reg r.
Proof.
  intros Hs Hr Hf. split.
  - intros i a x [[Ha Hp]|Hret].
    + destruct (Hs i Ha) as (identity & h & _ & _ & _ & Hh & Hpath). rewrite Hp in Hh. injection Hh as ->.
      by eapply head_path_leaf.
    + destruct (Hr _ Hret) as (h & Hh & Hpath). simpl in *. subst a. by eapply head_path_leaf.
  - intros p x Hp Hx Hpx. unfold follows_last in Hf. rewrite Hp in Hf. destruct Hf as (v & st & -> & Hst & Hv).
    destruct (status_chain reg rank Hwf _ st v Hst Hv) as (_ & _ & _ & Hno & _). by apply (Hno x).
  - intros Hp x Hx. unfold follows_last in Hf. rewrite Hp in Hf.
    destruct (status_spec reg rank Hwf (node_id r)) as (st & Hst & Hu & _). rewrite Hf in Hst.
    injection Hst as <-. by apply (proj1 Hu eq_refl x).
Qed.

Lemma takes_effect_at_heads r :
  records reg !! id r = None → validate reg r = Ok tt →
  signed_at_head r → retires_head r → follows_last r → takes_effect r.
Proof.
  intros Hfresh Hvalid Hs Hr Hf. pose proof (heads_at_leaves r Hs Hr Hf) as Hleaf.
  unfold takes_effect. rewrite insert_extended by done. cbn [fst snd]. split_and!; [done|..].
  - apply (extended_status reg rank Hwf r Hfresh Hvalid Hleaf).
    + apply extended_effective; [done..| |done]. intros i Hi.
      destruct (Hs i Hi) as (identity & h & -> & ? & ? & ? & ?). by exists identity, h.
    + unfold follows_last in Hf. destruct (predecessor r) as [p|]; [right|by left].
      destruct Hf as (v & st & -> & ? & ?). eauto.
  - intros n st x Hn Hst Hx. by eapply extended_others.
Qed.

(** An active sponsor's head is where its next action goes. *)
Lemma sponsor_at_head r n sponsor h :
  status reg n = Some (Active sponsor) → authorizer_head reg sponsor = Some (Ok h) →
  authorizer r = Some (id sponsor) → authorization_predecessor r = Some (id h) → signed_at_head r.
Proof.
  intros Hst Hh Ha Hp i Hi. rewrite Ha in Hi. injection Hi as <-.
  destruct (status_chain reg rank Hwf _ _ _ Hst (or_introl eq_refl)) as (Hin & _).
  exists sponsor, h. split_and!; [done|done|by eapply status_identity_effective|done|].
  by eapply authorizer_head_spec.
Qed.
End effect.

(** ** Admission, succession, revocation *)

Section operations.
Context `{!Crypto} `{!CryptoLaws} `{!Postcard}.
Context (reg : AuthorizationRegistry) (rank : RecordId → nat) (Hwf : wf_registry reg rank).

Definition valid_public_identity (p : PublicIdentity) : Prop :=
  new_public_identity (pi_node_id p) (pi_peer_id p) (pi_public_key p) (pi_initial_public_key p) = Ok p.

Lemma valid_public_identity_facts p :
  valid_public_identity p →
  from_initial_public_key (pi_initial_public_key p) = pi_node_id p ∧
  ∃ key, decode_public_key (pi_public_key p) = Ok key ∧ to_peer_id key = pi_peer_id p.
Proof.
  unfold valid_public_identity, new_public_identity, validate_initial_key. rewrite result_bind_Ok.
  intros ([] & Hinit & Hkey). rewrite result_bind_Ok in Hinit. destruct Hinit as (k & _ & Hinit).
  case_decide as Hn; [done|]. rewrite result_bind_Ok in Hkey. destruct Hkey as (key & Hkey & Hpeer).
  case_decide as Hp; [done|]. split; [done|]. by exists key.
Qed.

Lemma wf_identity_node i : wf_identity i → from_initial_public_key (ni_initial_public_key i) = ni_node_id i.
Proof.
  unfold wf_identity, validate_initial_key. rewrite result_bind_Ok. intros (k & _ & Hv).
  by case_decide as Hn.
Qed.

Context (v vh : AuthorizationRecord) (Hhead : authorizer_head reg v = Some (Ok vh)).
Context (st : AuthorizationStatus) (Hst : status reg (node_id v) = Some st) (Hv : st = Active v ∨ st = Revoked v).

Lemma last_in_reg : in_reg reg v.
Proof. by destruct (status_chain reg rank Hwf _ st v Hst Hv). Qed.

Lemma last_cluster : cluster_id v = reg_cluster_id reg.
Proof.
  pose proof (validate_Ok reg v (wf_key _ _ Hwf) (wf_valid _ _ Hwf _ _ last_in_reg)) as Hf. apply Hf.
Qed.

(** The new record retires [v] with the head of its actions. *)
Lemma retires_last r : retires r = Some (mkRetired (id v) (id vh)) → retires_head reg r.
Proof.
  intros Hr x Hx. rewrite Hr in Hx. injection Hx as <-. exists vh. split; [done|].
  eapply authorizer_head_spec; [done|apply last_in_reg|done].
Qed.

Lemma follows_v r : predecessor r = Some (id v) → node_id r = node_id v → follows_last reg r.
Proof. intros Hp Hn. unfold follows_last. rewrite Hp, Hn. eauto. Qed.

Lemma retirement_valid r : retires r = Some (mkRetired (id v) (id vh)) → validate_retirement reg r = Ok tt.
Proof.
  intros Hr. unfold validate_retirement. rewrite Hr. cbn [ok_or result_bind retired_identity action_head].
  unfold record. rewrite last_in_reg. cbn [ok_or result_bind].
  unfold validate_action_predecessor. case_decide as Hne; [done|].
  pose proof (authorizer_head_spec reg rank Hwf v vh last_in_reg Hhead) as Hpath.
  pose proof (head_path_in_reg _ _ _ _ Hpath) as Hin. unfold record. rewrite Hin. cbn [ok_or result_bind].
  destruct (head_path_action _ _ _ _ Hpath) as [?|Ha]; [done|]. rewrite decide_False; auto.
Qed.

Lemma lineage_valid r :
  predecessor r = Some (id v) → node_id r = node_id v → cluster_id r = cluster_id v →
  epoch r = u64_wrap (epoch v + 1) → 0 ≤ epoch v < u64_max →
  (kind r = Rotate ∧ state r = KActive ∧ authorizer r = Some (id v) ∧ retires r = None ∨
   (kind r = Recover ∧ state r = KActive ∨ kind r = Revoke ∧ state r = KRevoked) ∧
   retires r = Some (mkRetired (id v) (id vh))) →
  validate_lineage reg r = Ok tt.
Proof.
  intros Hp Hn Hc He Hrange Hkind. unfold validate_lineage. rewrite Hp. unfold record. rewrite last_in_reg.
  cbn [ok_or result_bind]. rewrite decide_False; last first.
  { unfold u64_checked_add, u64_wrap, u64_max in *. rewrite He, Z.mod_small by lia.
    rewrite decide_True by lia. naive_solver. }
  unfold validate_successor. destruct Hkind as [(-> & -> & Ha & Hr)|([[-> ->]|[-> ->]] & Hr)].
  - by rewrite decide_True.
  - rewrite Hr. cbn [retired_identity]. rewrite bool_decide_true by done. by apply retirement_valid.
  - rewrite Hr. cbn [retired_identity]. rewrite bool_decide_true by done. by apply retirement_valid.
Qed.
End operations.

(** ** Retirement *)

Section retirement.
Context `{!Crypto} `{!Postcard}.
Context (reg : AuthorizationRegistry) (rank : RecordId → nat) (Hwf : wf_registry reg rank).
Context (r : AuthorizationRecord) (Hfresh : records reg !! id r = None) (Hvalid : validate reg r = Ok tt).
Context (Hleaf : at_leaves reg r).

(** Once [r] ends the actions of the identity [i], [i] has no head any more. *)
Lemma authorizer_head_loop_retired rank' i n cur h :
  wf_registry (extended reg r) rank' → head_path reg i (id cur) h → acts_on i (id h) r →
  terminates_identity r i = true → (size (records (extended reg r)) - rank' (id cur) < n)%nat →
  authorizer_head_loop n (extended reg r) i cur = Some (Err (RetiredAuthorizer i)).
Proof.
  intros Hwf' Hpath Hacts Hterm. remember (id cur) as c eqn:Ec. revert n cur Ec.
  induction Hpath as [x Hx Hno|x next h Ho Hnt Hpath IH]; intros n cur Ec Hn; (destruct n as [|n]; [lia|]);
    cbn [authorizer_head_loop]; rewrite <- Ec.
  - assert (only (succ (extended reg r) i (id x)) r) as Honly.
    { split; [split; [apply in_extended; auto|done]|]. intros y [Hy Hay].
      apply in_extended in Hy as [->|Hy]; [done| |done]. exfalso. by apply (Hno y). }
    apply (successors_only _ _ Hwf') in Honly. by rewrite Honly, Hterm.
  - pose proof (only_succ_extends reg r Hfresh Hleaf _ _ _ Ho) as Ho'.
    pose proof (succ_rank _ _ Hwf' _ _ _ (proj1 Ho')) as Hrk.
    apply (successors_only _ _ Hwf') in Ho'. rewrite Ho', Hnt. apply IH; [done|done|lia].
Qed.

Lemma authorizer_head_retired v h :
  in_reg reg v → head_path reg (id v) (id v) h → acts_on (id v) (id h) r →
  terminates_identity r (id v) = true →
  authorizer_head (extended reg r) v = Some (Err (RetiredAuthorizer (id v))).
Proof.
  intros Hin Hpath Hacts Hterm. destruct (wf_extended reg rank Hwf r Hfresh Hvalid) as [rank' Hwf'].
  unfold authorizer_head, record. rewrite (extended_lookup reg r Hfresh _ _ Hin). cbn [ok_or].
  eapply authorizer_head_loop_retired; [done..|]. unfold loop_fuel. lia.
Qed.
End retirement.

(** The three signed ways of succeeding the last record of a node. *)
Inductive succession `{!Crypto, !Postcard} (reg : AuthorizationRegistry) (v vh : AuthorizationRecord)
    (signer : NodeIdentity) (r : AuthorizationRecord) : Prop :=
| by_rotation successor :
    wf_identity successor → ni_node_id successor = node_id v →
    status reg (node_id v) = Some (Active v) → public_key v = public_key_bytes signer →
    rotate v vh successor signer = Ok r → succession reg v vh signer r
| by_recovery successor a ah :
    wf_identity successor → ni_node_id successor = node_id v →
    status reg (node_id a) = Some (Active a) → authorizer_head reg a = Some (Ok ah) →
    public_key a = public_key_bytes signer →
    recover v vh successor a ah signer = Ok r → succession reg v vh signer r
| by_revocation a ah :
    status reg (node_id a) = Some (Active a) → authorizer_head reg a = Some (Ok ah) →
    public_key a = public_key_bytes signer →
    revoke v vh a ah signer = Ok r → succession reg v vh signer r.

(** What the three constructors have in common. *)
Record succeeds `{!Crypto, !Postcard} (reg : AuthorizationRegistry) (v vh a ah : AuthorizationRecord)
    (signer : NodeIdentity) (r : AuthorizationRecord) : Prop := {
  su_active : status reg (node_id a) = Some (Active a);
  su_head : authorizer_head reg a = Some (Ok ah);
  su_key : public_key a = public_key_bytes signer;
  su_signed : ∃ b, sign_record b signer = Ok r;
  su_authorizer : authorizer r = Some (id a) ∧ authorization_predecessor r = Some (id ah);
  su_position : predecessor r = Some (id v) ∧ node_id r = node_id v ∧ cluster_id r = cluster_id v ∧
    epoch r = u64_wrap (epoch v + 1);
  su_subject : ∃ key, decode_public_key (public_key r) = Ok key ∧ to_peer_id key = peer_id r ∧
    from_initial_public_key (initial_public_key r) = node_id r;
  su_kind : a = v ∧ ah = vh ∧ kind r = Rotate ∧ state r = KActive ∧ retires r = None ∨
    (kind r = Recover ∧ state r = KActive ∨ kind r = Revoke ∧ state r = KRevoked) ∧
    retires r = Some (mkRetired (id v) (id vh));
}.

Section succession_facts.
Context `{!Crypto} `{!CryptoLaws} `{!Postcard}.
Context (reg : AuthorizationRegistry) (rank : RecordId → nat) (Hwf : wf_registry reg rank).

Lemma successor_subject successor :
  wf_identity successor →
  ∃ key, decode_public_key (public_key_bytes successor) = Ok key ∧ to_peer_id key = peer_id_bytes successor ∧
    from_initial_public_key (ni_initial_public_key successor) = ni_node_id successor.
Proof.
  intros Hw%wf_identity_node. exists (public (keypair successor)).
  unfold public_key_bytes. by rewrite decode_public_key_encode.
Qed.

Lemma succession_succeeds v vh signer r :
  in_reg reg v → authorizer_head reg v = Some (Ok vh) →
  succession reg v vh signer r → ∃ a ah, succeeds reg v vh a ah signer r.
Proof.
  intros Hin Hh [successor Hw Hn Hst Hk Hr|successor a ah Hw Hn Hst Ha Hk Hr|a ah Hst Ha Hk Hr];
    destruct (sign_record_Ok _ _ _ Hr) as (Hb & _).
  - destruct (successor_subject successor Hw) as (key & ? & ? & ?). exists v, vh.
    split; unfold authorizer, authorization_predecessor, predecessor, node_id, cluster_id, epoch, public_key,
      peer_id, initial_public_key, kind, state, retires in *; rewrite ?Hb; cbn; eauto 10.
  - destruct (successor_subject successor Hw) as (key & ? & ? & ?). exists a, ah.
    split; unfold authorizer, authorization_predecessor, predecessor, node_id, cluster_id, epoch, public_key,
      peer_id, initial_public_key, kind, state, retires in *; rewrite ?Hb; cbn; eauto 10.
  - pose proof (validate_Ok reg v (wf_key _ _ Hwf) (wf_valid _ _ Hwf _ _ Hin)) as [_ _ (key & ? & ?) ? _ _].
    exists a, ah.
    split; unfold authorizer, authorization_predecessor, predecessor, node_id, cluster_id, epoch, public_key,
      peer_id, initial_public_key, kind, state, retires in *; rewrite ?Hb; cbn; eauto 10.
Qed.

Lemma succeeds_ends v vh a ah signer r :
  succeeds reg v vh a ah signer r → acts_on (id v) (id vh) r ∧ terminates_identity r (id v) = true.
Proof.
  intros [_ _ _ _ [Ha Hp] (Hpre & _) _ [(-> & -> & Hk & _ & _)|(_ & Hr)]]; unfold acts_on, terminates_identity.
  - split; [by left|]. by rewrite bool_decide_true.
  - split; [by right|]. rewrite Hr. simpl. by rewrite (bool_decide_true (id v = id v)), orb_true_r.
Qed.
End succession_facts.

(** ** Where authority comes from *)

Section authority.
Context `{!Crypto} `{!Postcard}.

(** The signature of [r] verifies under the key [k] holds. *)
Definition signed_under (r k : AuthorizationRecord) : Prop :=
  ∃ key msg, decode_public_key (public_key k) = Ok key ∧ signing_bytes r = Ok msg ∧
    verify_signature key msg (signature r) = true.

Inductive authority (reg : AuthorizationRegistry) : AuthorizationRecord → Prop :=
| au_founder r :
    predecessor r = None → authorizer r = None → from_genesis (node_id r) = reg_cluster_id reg →
    signed_under r r → authority reg r
| au_signed r identity :
    in_reg reg identity → authorizer r = Some (id identity) → state identity = KActive →
    on_path reg (id identity) (id r) → signed_under r identity → authority reg identity → authority reg r
| au_self r p :
    predecessor r = Some p → authorizer r = None → kind r = Recover ∨ kind r = Revoke →
    signed_under r r → authority reg r.

Context (reg : AuthorizationRegistry) (rank : RecordId → nat) (Hwf : wf_registry reg rank).

Lemma walks_effective identity cur :
  in_reg reg identity → in_reg reg cur → walks reg identity cur → effective reg identity.
Proof.
  intros Hin Hcur Hw. induction Hw as [identity cur He Hid|identity cur next He Hne Ho Hw IH].
  - assert (cur = identity) as <- by (unfold in_reg in *; congruence). done.
  - apply IH; [done|apply Ho].
Qed.

Lemma identity_effective_effective identity :
  in_reg reg identity → identity_effective reg identity → effective reg identity.
Proof. intros Hin Hi. inversion Hi as [? root _ Ho Hw]; subst. eapply walks_effective; [done|apply Ho|done]. Qed.

Lemma effective_authority r : in_reg reg r → effective reg r → authority reg r.
Proof.
  remember (rank (id r)) as k eqn:Ek. revert r Ek. induction k as [k IH] using lt_wf_ind.
  intros r -> Hin He. pose proof (validate_Ok reg r (wf_key _ _ Hwf) (wf_valid _ _ Hwf _ _ Hin)) as
    [Hc _ _ _ [Hroot Hsucc] (key & msg & Hmsg & Hver & Hkey)].
  inversion He as [? Ha Hret|? i identity Ha Hp Hi Hident Hret]; subst.
  - destruct Hkey as [(_ & _ & Hkey)|(i & ? & ? & Hi & _)]; [|congruence].
    assert (signed_under r r) as Hsig by (exists key, msg; done).
    destruct (predecessor r) as [p|] eqn:Ep.
    + destruct (Hsucc p eq_refl) as (pr & Hpr & _ & _ & _ & [(_ & _ & Hau & _)|[Hkind _]]); [congruence|].
      apply (au_self _ r p); [done|done| |done]. naive_solver.
    + destruct (Hroot eq_refl) as (_ & _ & _ & _ & _ & Hg). apply au_founder; [done|done| |done].
      by rewrite Hg.
  - pose proof (wf_key _ _ Hwf _ _ Hi) as Hid. subst i. assert (in_reg reg identity) as Hin' by done.
    destruct Hkey as [(? & _)|(i & a & y & Hi' & _ & Hy & _ & Hkey)]; [congruence|].
    assert (y = identity) as -> by congruence.
    eapply (au_signed _ r identity); [done|done|by destruct Hident|done|by exists key, msg|].
    eapply (IH (rank (id identity))); [|done|done|by apply identity_effective_effective].
    apply (rank_dep reg rank Hwf r); [done|]. by apply authorizer_dep.
Qed.
End authority.

(** ** Totality, and what an extension leaves alone *)

Section totality.
Context `{!Crypto} `{!Postcard}.
Context (reg : AuthorizationRegistry) (rank : RecordId → nat) (Hwf : wf_registry reg rank).

Lemma authorizer_head_loop_total i n cur :
  (size (records reg) - rank (id cur) < n)%nat → authorizer_head_loop n reg i cur ≠ None.
Proof.
  revert cur. induction n as [|n IH]; intros cur Hn; [lia|]. cbn [authorizer_head_loop].
  destruct (action_successors reg i (id cur)) as [|x [|y l]] eqn:E; [done| |done].
  apply (successors_only reg rank Hwf) in E. pose proof (succ_rank reg rank Hwf _ _ _ (proj1 E)).
  destruct (terminates_identity x i); [done|]. apply IH. lia.
Qed.

Lemma authorizer_head_total identity : authorizer_head reg identity ≠ None.
Proof.
  unfold authorizer_head. destruct (record reg (id identity)); [|done].
  apply authorizer_head_loop_total. unfold loop_fuel. lia.
Qed.

Lemma status_total n : ∃ st, status reg n = Some st.
Proof. destruct (status_spec reg rank Hwf n) as (st & Hst & _). eauto. Qed.

Context (r : AuthorizationRecord) (Hfresh : records reg !! id r = None) (Hvalid : validate reg r = Ok tt).
Context (Hleaf : at_leaves reg r).

(** No other node becomes active by the insertion. *)
Lemma extended_active_inv n x :
  n ≠ node_id r → status (extended reg r) n = Some (Active x) → status reg n = Some (Active x).
Proof.
  intros Hn Hx. destruct (wf_extended reg rank Hwf r Hfresh Hvalid) as [rank' Hwf'].
  destruct (status_spec reg rank Hwf n) as (st & Hst & Hu & _).
  assert (∀ y, st = Active y ∨ st = Revoked y → status (extended reg r) n = Some st) as Hkeep.
  { intros y Hy. by eapply extended_others. }
  destruct st as [|y|y|l].
  - exfalso. destruct (status_chain _ _ Hwf' _ _ _ Hx (or_introl eq_refl)) as (_ & _ & _ & _ & _ & root & Hroot & _).
    destruct Hroot as [(Hin & Hnode & Hp) _]. apply in_extended in Hin as [->|Hin]; [done| |done].
    by apply (proj1 Hu eq_refl root).
  - rewrite (Hkeep y) in Hx by by left. congruence.
  - rewrite (Hkeep y) in Hx by by right. congruence.
  - exfalso. pose proof (insert_grows reg r) as Hg. rewrite insert_extended in Hg by done.
    destruct (conflict_persists reg _ rank rank' Hwf Hwf' Hg n l Hst) as [l' Hl']. cbn [fst] in Hl'. congruence.
Qed.
End totality.

(** ** Admission and peers *)

Lemma admission_effect `{!Crypto, !CryptoLaws, !Postcard} reg rank sponsor h newcomer signer r :
  wf_registry reg rank →
  status reg (node_id sponsor) = Some (Active sponsor) → authorizer_head reg sponsor = Some (Ok h) →
  public_key sponsor = public_key_bytes signer →
  valid_public_identity newcomer → is_initial_identity newcomer = true →
  status reg (pi_node_id newcomer) = Some Unknown →
  admit_record (reg_cluster_id reg) newcomer sponsor h signer = Ok r → records reg !! id r = None →
  validate reg r = Ok tt ∧ takes_effect reg r ∧ node_id r = pi_node_id newcomer ∧ state r = KActive ∧
  at_leaves reg r.
Proof.
  intros Hwf Hst Hh Hpk Hid Hinit Hunk Hr Hfresh.
  destruct (sign_record_Ok _ _ _ Hr) as (Hb & _).
  assert (node_id r = pi_node_id newcomer ∧ state r = KActive) as [Hn Hs] by (unfold node_id, state; by rewrite Hb).
  pose proof (status_chain reg rank Hwf _ _ _ Hst (or_introl eq_refl)) as (Hin & _).
  destruct (valid_public_identity_facts _ Hid) as (Hnode & key & Hkey & Hpeer).
  assert (validate reg r = Ok tt) as Hvalid.
  { eapply (validate_signed reg rank Hwf _ signer r key sponsor h Hr); [| | | |done..].
    - unfold subject_ok, cluster_id, public_key, peer_id, initial_public_key, node_id. rewrite Hb. by split_and!.
    - unfold validate_lineage, predecessor. rewrite Hb. cbn. unfold validate_admission, kind, state, epoch, retires,
        public_key, initial_public_key, authorizer. rewrite Hb. cbn. rewrite decide_False.
      + by rewrite decide_False by naive_solver.
      + apply bool_decide_eq_true in Hinit. naive_solver.
    - unfold authorizer. by rewrite Hb.
    - unfold authorization_predecessor. by rewrite Hb. }
  assert (signed_at_head reg r) as Hsig.
  { eapply sponsor_at_head; [done..| |]; unfold authorizer, authorization_predecessor; by rewrite Hb. }
  assert (retires_head reg r) as Hret by (intros x; unfold retires; by rewrite Hb).
  assert (follows_last reg r) as Hfol by (unfold follows_last, predecessor; rewrite Hb; cbn; by rewrite Hn).
  split_and!; [done| |done|done|by eapply heads_at_leaves]. by eapply takes_effect_at_heads.
Qed.

Lemma node_for_peer_spec `{!Crypto, !Postcard} reg rank peer n :
  wf_registry reg rank →
  node_for_peer reg peer = Some n ↔
  (∃ r, status reg n = Some (Active r) ∧ peer_id r = peer) ∧
  ∀ n' r', status reg n' = Some (Active r') → peer_id r' = peer → n' = n.
Proof.
  intros Hwf.
  assert (∀ m, m ∈ matching_nodes reg peer ↔ ∃ r, status reg m = Some (Active r) ∧ peer_id r = peer) as Hin.
  { intros m. unfold matching_nodes. rewrite elem_of_dedup_sort, list_elem_of_omap. split.
    - intros (x & Hx & Hm). destruct (status reg (node_id x)) as [[|a| |]|] eqn:Es; try done.
      case_decide as Hp; [|done]. injection Hm as <-.
      destruct (status_chain reg rank Hwf _ _ a Es (or_introl eq_refl)) as (_ & Hn & _). rewrite Hn. eauto.
    - intros (r & Hst & Hp). destruct (status_chain reg rank Hwf _ _ r Hst (or_introl eq_refl)) as (Hr & Hn & _).
      exists r. split; [by apply (elem_of_values reg rank Hwf)|]. rewrite Hn, Hst. cbn. rewrite decide_True by done. by rewrite Hn. }
  assert (NoDup (matching_nodes reg peer)) as Hnd by apply strictly_sorted_NoDup, dedup_sorted.
  assert (node_for_peer reg peer = Some n ↔ matching_nodes reg peer = [n]) as ->.
  { unfold node_for_peer. destruct (matching_nodes reg peer) as [|a [|b l]]; naive_solver. }
  rewrite (NoDup_singleton _ _ n Hnd Hin). unfold only. naive_solver.
Qed.

(** ** Properties *)

(** Admission works: when an active member signs, on the head of its own
    actions, an admission record for a valid initial identity nobody has
    registered, the registry accepts the record, the newcomer becomes active
    under it, and no other active or revoked node changes status. *)
Theorem admission_takes_effect `{!Crypto, !CryptoLaws, !Postcard} reg rank sponsor h newcomer signer r :
  wf_registry reg rank →
  status reg (node_id sponsor) = Some (Active sponsor) → authorizer_head reg sponsor = Some (Ok h) →
  public_key sponsor = public_key_bytes signer →
  valid_public_identity newcomer → is_initial_identity newcomer = true →
  status reg (pi_node_id newcomer) = Some Unknown →
  admit_record (reg_cluster_id reg) newcomer sponsor h signer = Ok r → records reg !! id r = None →
  (insert reg r).2 = Ok true ∧
  status (insert reg r).1 (pi_node_id newcomer) = Some (Active r) ∧
  ∀ n st x, n ≠ pi_node_id newcomer → status reg n = Some st → st = Active x ∨ st = Revoked x →
    status (insert reg r).1 n = Some st.
Proof.
  intros Hwf Hst Hh Hpk Hid Hinit Hunk Hr Hfresh.
  destruct (admission_effect reg rank sponsor h newcomer signer r) as (_ & (Hi & Hs & Ho) & Hn & Hact & _); [done..|].
  rewrite Hn, Hact in *. by split_and!.
Qed.


(** C23: succession works: a rotation signed by the identity itself, and a
    recovery or a revocation signed by an active member, each on the head of its
    signer's actions, is accepted; the node's status becomes the new record's
    (active, or revoked by a revocation); the record it succeeds can authorize
    nothing any more; and no other active or revoked node changes status. *)
Theorem succession_takes_effect `{!Crypto, !CryptoLaws, !Postcard} reg rank v vh st signer r :
  wf_registry reg rank →
  status reg (node_id v) = Some st → st = Active v ∨ st = Revoked v →
  authorizer_head reg v = Some (Ok vh) → 0 ≤ epoch v < u64_max →
  succession reg v vh signer r → records reg !! id r = None →
  (insert reg r).2 = Ok true ∧
  status (insert reg r).1 (node_id v)
  = Some (match state r with KActive => Active r | KRevoked => Revoked r end) ∧
  authorizer_head (insert reg r).1 v = Some (Err (RetiredAuthorizer (id v))) ∧
  ∀ n st' x, n ≠ node_id v → status reg n = Some st' → st' = Active x ∨ st' = Revoked x →
    status (insert reg r).1 n = Some st'.
Proof.
  intros Hwf Hst Hv Hhead Hrange Hsucc Hfresh.
  pose proof (last_in_reg reg rank Hwf v st Hst Hv) as Hin.
  destruct (succession_succeeds reg rank Hwf v vh signer r Hin Hhead Hsucc) as (a & ah & Hs).
  destruct (succeeds_ends _ _ _ _ _ _ _ Hs) as [Hacts Hterm].
  destruct Hs as [Hact Hah Hk (b & Hb) [Ha Hap] (Hp & Hn & Hc & He) (key & Hkey & Hpeer & Hini) Hkind].
  assert (validate reg r = Ok tt) as Hvalid.
  { eapply (validate_signed reg rank Hwf b signer r key a ah); [done| | |done|done| |done|done].
    - unfold subject_ok. rewrite Hc. by rewrite (last_cluster reg rank Hwf v st Hst Hv).
    - apply (lineage_valid reg rank Hwf v vh Hhead st Hst Hv); [done..|]. naive_solver.
    - by apply (last_in_reg reg rank Hwf a _ Hact); left. }
  assert (signed_at_head reg r) as Hsig by (eapply sponsor_at_head; eauto).
  assert (retires_head reg r) as Hret.
  { destruct Hkind as [(_ & _ & _ & _ & Hr)|(_ & Hr)]; [intros x Hx; congruence|by apply (retires_last reg rank Hwf v vh Hhead st Hst Hv)]. }
  assert (follows_last reg r) as Hfol by by apply (follows_v reg v st Hst Hv).
  destruct (takes_effect_at_heads reg rank Hwf r Hfresh Hvalid Hsig Hret Hfol) as (Hi & Hstat & Hothers).
  rewrite Hn in Hstat, Hothers. split_and!; [done|done| |done]. rewrite insert_extended by done.
  eapply authorizer_head_retired; [done..| |done|by eapply authorizer_head_spec|done|done].
  by eapply heads_at_leaves.
Qed.

(** C24: A recovery needs no authorizer: whoever knows the public records can
    take over any active node. A recovery record that names no authorizer is
    checked against the key it introduces itself, so one built from the victim's
    records and signed with a fresh key is accepted and becomes the node's
    active record. *)
Theorem self_signed_recovery_takes_over `{!Crypto, !CryptoLaws, !Postcard} reg rank v vh forger r :
  wf_registry reg rank →
  status reg (node_id v) = Some (Active v) → authorizer_head reg v = Some (Ok vh) →
  0 ≤ epoch v < u64_max → wf_identity forger → ni_node_id forger = node_id v →
  sign_record (set_retires (mkRetired (id v) (id vh)) (successor_body v forger Recover)) forger = Ok r →
  records reg !! id r = None →
  authorizer r = None ∧ (insert reg r).2 = Ok true ∧
  status (insert reg r).1 (node_id v) = Some (Active r) ∧ public_key r = public_key_bytes forger.
Proof.
  intros Hwf Hst Hhead Hrange Hforger Hname Hr Hfresh.
  destruct (sign_record_Ok _ _ _ Hr) as (Hb & _).
  assert (Active v = Active v ∨ Active v = Revoked v) as Hv by by left.
  assert (predecessor r = Some (id v) ∧ node_id r = node_id v ∧ cluster_id r = cluster_id v ∧
    epoch r = u64_wrap (epoch v + 1) ∧ kind r = Recover ∧ state r = KActive ∧ authorizer r = None ∧
    authorization_predecessor r = None ∧ retires r = Some (mkRetired (id v) (id vh)) ∧
    public_key r = public_key_bytes forger ∧ peer_id r = peer_id_bytes forger ∧
    initial_public_key r = ni_initial_public_key forger) as
    (Hp & Hn & Hc & He & Hkind & Hs & Ha & Hap & Hret & Hpk & Hpeer & Hini).
  { unfold predecessor, node_id, cluster_id, epoch, kind, state, authorizer, authorization_predecessor, retires,
      public_key, peer_id, initial_public_key in *. rewrite Hb. cbn. by split_and!. }
  split; [done|].
  assert (validate reg r = Ok tt) as Hvalid.
  { eapply (validate_self_signed reg _ forger r Hr); [| |done|done].
    - unfold subject_ok. rewrite Hc, Hpk, Hpeer, Hini, Hn. unfold public_key_bytes. rewrite decode_public_key_encode.
      split_and!; [by apply (last_cluster reg rank Hwf v _ Hst Hv)|done|done|].
      rewrite <- Hname. by apply wf_identity_node.
    - apply (lineage_valid reg rank Hwf v vh Hhead _ Hst Hv); auto 10. }
  destruct (takes_effect_at_heads reg rank Hwf r Hfresh Hvalid) as (Hi & Hstat & _).
  - intros i. by rewrite Ha.
  - by apply (retires_last reg rank Hwf v vh Hhead _ Hst Hv).
  - by apply (follows_v reg v _ Hst Hv).
  - rewrite Hn, Hs in Hstat. done.
Qed.

(** A conflict is permanent: once a node's chain is conflicted, no sequence
    of further records, whoever signs them, gives it another status. *)
Theorem conflict_is_permanent `{!Crypto, !Postcard} reg rank n l rs :
  wf_registry reg rank → status reg n = Some (Conflicted l) →
  ∃ l', status (foldl (λ g r, (insert g r).1) reg rs) n = Some (Conflicted l').
Proof.
  revert reg rank l. induction rs as [|r rs IH]; intros reg rank l Hwf Hst; [eauto|].
  destruct (wf_insert reg rank r Hwf) as [rank' Hwf'].
  destruct (conflict_persists reg _ rank rank' Hwf Hwf' (insert_grows reg r) n l Hst) as [l' Hst'].
  cbn [foldl]. by eapply IH.
Qed.

(** Peers are identified uniquely: [node_for_peer] names a node exactly if
    it is the only node whose active record holds the peer id; so a peer id that
    two active nodes claim authenticates neither, and no two nodes are given the
    same active peer. *)
Theorem node_for_peer_unique `{!Crypto, !Postcard} reg rank peer n :
  wf_registry reg rank →
  (node_for_peer reg peer = Some n ↔
   (∃ r, status reg n = Some (Active r) ∧ peer_id r = peer) ∧
   ∀ n' r', status reg n' = Some (Active r') → peer_id r' = peer → n' = n) ∧
  ∀ decode m, active_peer_for_node decode reg n = Some peer → active_peer_for_node decode reg m = Some peer → m = n.
Proof.
  intros Hwf. split; [by eapply node_for_peer_spec|]. intros decode m Hn Hm.
  assert (∀ x, active_peer_for_node decode reg x = Some peer → node_for_peer reg peer = Some x) as Hclaim.
  { intros x Hx. unfold active_peer_for_node in Hx. apply bind_Some in Hx as (r & _ & Hx).
    apply bind_Some in Hx as (q & _ & Hx). case_decide as Hq; [|done]. by injection Hx as ->. }
  apply Hclaim in Hn, Hm. congruence.
Qed.

(** Authority has a source: the active record of every node descends, by
    signatures checked under the keys of active identities, from the cluster's
    self-signed founder, or from a recovery or revocation that named no
    authorizer. *)
Theorem active_by_authority `{!Crypto, !Postcard} reg rank n r :
  wf_registry reg rank → status reg n = Some (Active r) → authority reg r.
Proof.
  intros Hwf Hst. destruct (status_chain reg rank Hwf _ _ r Hst (or_introl eq_refl)) as (Hin & _ & He & _).
  by eapply effective_authority.
Qed.

(** The registry decides who is authorized: on every well-formed registry
    the loops end within their fuel; a record counts as effective exactly if its
    action lies on the unforked chain of an effective, active authorizer; and a
    node is active, or revoked, exactly if its unforked chain of effective
    records ends in an active, or revoked, record, and unknown exactly if it has
    no first record. *)
Theorem status_decides `{!Crypto, !Postcard} reg rank :
  wf_registry reg rank →
  (∀ r, in_reg reg r → ∃ b, record_is_effective reg r = Some b ∧ (b = true ↔ effective reg r)) ∧
  ∀ n, ∃ st, status reg n = Some st ∧
    (st = Unknown ↔ ∀ r, ¬ root_of reg n r) ∧
    (∀ r, st = Active r ↔ (∃ root, only (root_of reg n) root ∧ lineage reg root r) ∧ state r = KActive) ∧
    (∀ r, st = Revoked r ↔ (∃ root, only (root_of reg n) root ∧ lineage reg root r) ∧ state r = KRevoked).
Proof.
  intros Hwf. split; [intros r Hr; by eapply record_is_effective_spec|]. intros n. by eapply status_spec.
Qed.

(** ** Witnesses *)

Lemma toy_member_active : status toy_registry (node_id toy_member) = Some (Active toy_member).
Proof. exact (f_equal (λ '(_, st, _, _, _), st) toy_registry_active). Qed.

Lemma toy_genesis_active : status toy_registry (node_id toy_genesis) = Some (Active toy_genesis).
Proof. exact (f_equal (λ '(_, _, st, _, _), st) toy_registry_active). Qed.

Lemma toy_genesis_head : authorizer_head toy_registry toy_genesis = Some (Ok toy_member).
Proof. exact (f_equal (λ '(_, _, _, h, _), h) toy_registry_active). Qed.

Lemma toy_member_head : authorizer_head toy_registry toy_member = Some (Ok toy_member).
Proof. exact (f_equal (λ '(_, _, _, _, h), h) toy_registry_active). Qed.

Definition toy_newcomer : PublicIdentity := @public_identity toy_crypto (toy_identity "z").

Definition toy_admission : AuthorizationRecord :=
  force (@admit_record toy_crypto toy_postcard (reg_cluster_id toy_registry) toy_newcomer toy_member toy_member
           (toy_identity "y")).

Lemma admission_takes_effect_witness :
  (@insert toy_crypto toy_postcard toy_registry toy_admission).2 = Ok true ∧
  status (@insert toy_crypto toy_postcard toy_registry toy_admission).1 (pi_node_id toy_newcomer)
  = Some (Active toy_admission).
Proof.
  destruct toy_registry_wf as [rank Hwf].
  destruct (@admission_takes_effect toy_crypto toy_crypto_laws toy_postcard toy_registry rank toy_member toy_member
    toy_newcomer (toy_identity "y") toy_admission Hwf toy_member_active toy_member_head) as (Hi & Hs & _).
  - vm_compute. reflexivity.
  - vm_compute. reflexivity.
  - vm_compute. reflexivity.
  - vm_compute. reflexivity.
  - vm_compute. reflexivity.
  - vm_compute. reflexivity.
  - exact (conj Hi Hs).
Defined.

(** The member rotates its key. *)
Definition toy_successor : @NodeIdentity toy_crypto :=
  mkNodeIdentity (node_id toy_member) (initial_public_key toy_member) (toy_keypair "w").

Definition toy_rotation : AuthorizationRecord :=
  force (@rotate toy_crypto toy_postcard toy_member toy_member toy_successor (toy_identity "y")).

Lemma succession_takes_effect_witness :
  (@insert toy_crypto toy_postcard toy_registry toy_rotation).2 = Ok true ∧
  status (@insert toy_crypto toy_postcard toy_registry toy_rotation).1 (node_id toy_member)
  = Some (Active toy_rotation).
Proof.
  destruct toy_registry_wf as [rank Hwf].
  destruct (@succession_takes_effect toy_crypto toy_crypto_laws toy_postcard toy_registry rank toy_member toy_member
    _ (toy_identity "y") toy_rotation Hwf toy_member_active (or_introl eq_refl) toy_member_head) as (Hi & Hs & _).
  - vm_compute. split; [discriminate|reflexivity].
  - apply (@by_rotation toy_crypto toy_postcard _ _ _ _ _ toy_successor); [..|vm_compute; reflexivity].
    + vm_compute. reflexivity.
    + reflexivity.
    + exact toy_member_active.
    + vm_compute. reflexivity.
  - vm_compute. reflexivity.
  - exact (conj Hi Hs).
Defined.

(** A stranger with the key [m] takes the founder's node over. *)
Definition toy_forger : @NodeIdentity toy_crypto :=
  mkNodeIdentity (node_id toy_genesis) (initial_public_key toy_genesis) (toy_keypair "m").

Definition toy_forgery : AuthorizationRecord :=
  force (@sign_record toy_crypto toy_postcard
    (set_retires (mkRetired (id toy_genesis) (id toy_member)) (successor_body toy_genesis toy_forger Recover))
    toy_forger).

Lemma self_signed_recovery_takes_over_witness :
  authorizer toy_forgery = None ∧
  status (@insert toy_crypto toy_postcard toy_registry toy_forgery).1 (node_id toy_genesis)
  = Some (Active toy_forgery) ∧ public_key toy_forgery = "km".
Proof.
  destruct toy_registry_wf as [rank Hwf].
  destruct (@self_signed_recovery_takes_over toy_crypto toy_crypto_laws toy_postcard toy_registry rank toy_genesis
    toy_member toy_forger toy_forgery Hwf toy_genesis_active toy_genesis_head) as (Ha & _ & Hs & Hk).
  - vm_compute. split; [discriminate|reflexivity].
  - vm_compute. reflexivity.
  - reflexivity.
  - vm_compute. reflexivity.
  - vm_compute. reflexivity.
  - exact (conj Ha (conj Hs Hk)).
Defined.

(** The founder signs two admissions on one head. *)
Definition toy_fork : AuthorizationRecord :=
  force (@admit_record toy_crypto toy_postcard toy_cluster toy_newcomer toy_genesis toy_genesis (toy_identity "x")).

Definition toy_forked : AuthorizationRegistry := (@insert toy_crypto toy_postcard toy_registry toy_fork).1.

Lemma toy_forked_conflict : status toy_forked (node_id toy_member) = Some (Conflicted [id toy_member]).
Proof. vm_compute. reflexivity. Qed.

Lemma conflict_is_permanent_witness :
  ∃ l, status (foldl (λ g r, (@insert toy_crypto toy_postcard g r).1) toy_forked [toy_rotation; toy_forgery])
         (node_id toy_member) = Some (Conflicted l).
Proof.
  destruct toy_registry_wf as [rank0 Hwf0].
  destruct (@wf_insert toy_crypto toy_postcard toy_registry rank0 toy_fork Hwf0) as [rank Hwf].
  exact (@conflict_is_permanent toy_crypto toy_postcard toy_forked rank (node_id toy_member) _
    [toy_rotation; toy_forgery] Hwf toy_forked_conflict).
Defined.

Lemma toy_member_peer : node_for_peer toy_registry (peer_id toy_member) = Some (node_id toy_member).
Proof. vm_compute. reflexivity. Qed.

Lemma node_for_peer_unique_witness :
  (∃ r, status toy_registry (node_id toy_member) = Some (Active r) ∧ peer_id r = peer_id toy_member) ∧
  node_for_peer toy_registry (peer_id toy_member) = Some (node_id toy_member).
Proof.
  destruct toy_registry_wf as [rank Hwf].
  destruct (proj1 (proj1 (@node_for_peer_unique toy_crypto toy_postcard toy_registry rank (peer_id toy_member)
    (node_id toy_member) Hwf)) toy_member_peer) as [Hex _].
  exact (conj Hex toy_member_peer).
Defined.

Lemma active_by_authority_witness : @authority toy_crypto toy_postcard toy_registry toy_member.
Proof.
  destruct toy_registry_wf as [rank Hwf].
  exact (@active_by_authority toy_crypto toy_postcard toy_registry rank (node_id toy_member) toy_member Hwf
    toy_member_active).
Defined.

Lemma status_decides_witness :
  ∃ st, status toy_registry "nobody" = Some st ∧ (st = Unknown ↔ ∀ r, ¬ root_of toy_registry "nobody" r).
Proof.
  destruct toy_registry_wf as [rank Hwf].
  destruct (@status_decides toy_crypto toy_postcard toy_registry rank Hwf) as [_ Hst].
  destruct (Hst "nobody") as (st & Hs & Hu & _). exists st. exact (conj Hs Hu).
Defined.
