(* ===== verification/Protocol.v ===== *)
(** * Envelopes and frames ([crates/overlay/src/protocol.rs], [codec.rs])

    What peers put on a link: envelopes with a header the routing layer reads,
    and frames bounded in size. The serializer is a parameter. *)

From S2P Require Import Prelude.
From S2P Require Import Identity.

Definition PROTOCOL_VERSION : Z := 1.
Definition MAX_FRAME_BYTES : Z := 8 * 1024 * 1024.
Definition MAX_PAYLOAD_BYTES : Z := MAX_FRAME_BYTES - 1024.

Definition len (b : bytes) : Z := Z.of_nat (String.length b).

Inductive ProtocolId : Type :=
| Admission
| Registry
| Membership
| Resource
| Extension
| Route.

#[export] Instance ProtocolId_eq_dec : EqDecision ProtocolId.
Proof. solve_decision. Defined.

Definition path (p : ProtocolId) : string :=
  match p with
  | Admission => "/lycoris/admission/1"
  | Registry => "/lycoris/registry/1"
  | Membership => "/lycoris/membership/1"
  | Resource => "/lycoris/resource/1"
  | Extension => "/lycoris/extension/1"
  | Route => "/lycoris/route/1"
  end.

Inductive MessageKind : Type := Request | Response | Event.

#[export] Instance MessageKind_eq_dec : EqDecision MessageKind.
Proof. solve_decision. Defined.

Record EnvelopeHeader : Type := mkHeader {
  version : Z;
  h_cluster_id : ClusterId;
  request_id : RequestId;
  source : NodeId;
  destination : NodeId;
  protocol : ProtocolId;
  h_kind : MessageKind;
  deadline_unix_ms : Z;
  remaining_hops : Z;
}.

#[export] Instance EnvelopeHeader_eq_dec : EqDecision EnvelopeHeader.
Proof. solve_decision. Defined.

Record Envelope : Type := mkEnvelope {
  header : EnvelopeHeader;
  payload : bytes;
}.

#[export] Instance Envelope_eq_dec : EqDecision Envelope.
Proof. solve_decision. Defined.

Inductive FrameError : Type :=
| PayloadTooLarge (actual maximum : Z)
| FrameTooLarge (actual maximum : Z)
| FrameSerialization (error : string).

(** [Envelope::new] *)
Definition new_envelope (h : EnvelopeHeader) (p : bytes) : result Envelope FrameError :=
  if decide (len p > MAX_PAYLOAD_BYTES) then Err (PayloadTooLarge (len p) MAX_PAYLOAD_BYTES)
  else Ok (mkEnvelope h p).

(** [postcard] on the values of a type. *)
Class Serialize (A : Type) := {
  to_stdvec : A → result bytes string;
  from_bytes : bytes → result A string;
}.

Class SerializeLaws (A : Type) `{!Serialize A} : Prop :=
  from_to_stdvec : ∀ (a : A) b, to_stdvec a = Ok b → from_bytes b = Ok a.

Section codec.
Context {A : Type} `{!Serialize A}.

Definition encode_frame (value : A) : result bytes FrameError :=
  let? frame := map_err FrameSerialization (to_stdvec value) in
  if decide (len frame > MAX_FRAME_BYTES) then Err (FrameTooLarge (len frame) MAX_FRAME_BYTES)
  else Ok frame.

Definition decode_frame (frame : bytes) : result A FrameError :=
  if decide (len frame > MAX_FRAME_BYTES) then Err (FrameTooLarge (len frame) MAX_FRAME_BYTES)
  else map_err FrameSerialization (from_bytes frame).
End codec.

Lemma path_inj : Inj (=) (=) path.
Proof. by intros [] []. Qed.

Lemma new_envelope_Ok h p e : new_envelope h p = Ok e ↔ e = mkEnvelope h p ∧ len p ≤ MAX_PAYLOAD_BYTES.
Proof.
  unfold new_envelope. case_decide; [|split; [intros [= <-]; split; [done|lia]|by intros [-> _]]].
  split; [done|lia].
Qed.

(** What a peer encodes, any peer decodes to the same value, and no frame
    above the limit is sent or read: encoding fails exactly if the serializer
    does or its output is too long, and decoding refuses a longer frame before
    it parses it. *)
Theorem frame_round_trip `{!Serialize A, !SerializeLaws A} (a : A) b :
  to_stdvec a = Ok b →
  (len b ≤ MAX_FRAME_BYTES ∧ encode_frame a = Ok b ∧ decode_frame b = Ok a) ∨
  (len b > MAX_FRAME_BYTES ∧ encode_frame a = Err (FrameTooLarge (len b) MAX_FRAME_BYTES) ∧
   decode_frame (A:=A) b = Err (FrameTooLarge (len b) MAX_FRAME_BYTES)).
Proof.
  intros Hb. unfold encode_frame, decode_frame. rewrite Hb. cbn [map_err result_bind].
  destruct (decide (len b > MAX_FRAME_BYTES)) as [Hl|Hl]; [by right|left].
  split_and!; [lia|done|]. by rewrite (from_to_stdvec a b Hb).
Qed.

#[export] Instance string_serialize : Serialize string := {|
  to_stdvec := λ s, Ok s;
  from_bytes := λ b, Ok b;
|}.

#[export] Instance string_serialize_laws : SerializeLaws string.
Proof. by intros a b [= <-]. Qed.

Lemma frame_round_trip_witness : encode_frame "page" = Ok "page" ∧ decode_frame "page" = Ok "page".
Proof.
  destruct (@frame_round_trip string string_serialize string_serialize_laws "page" "page" eq_refl)
    as [(_ & He & Hd)|(Hl & _ & _)].
  - exact (conj He Hd).
  - exfalso. revert Hl. vm_compute. discriminate.
Defined.
