(* ===== verification/Routing.v ===== *)
(** * Sparse routing ([crates/overlay/src/routing.rs])

    The link-state database of signed advertisements, the breadth-first choice
    of the next hop, and the bounded router with its replay window. *)

From S2P Require Import Prelude.
From S2P Require Import Identity.
From S2P Require Import Protocol.

Definition MAX_LINK_STATE_EDGES : nat := 256.
Definition MAX_ROUTE_BODY_BYTES : Z := 1024 * 1024.
Definition DEFAULT_SEEN_CAPACITY : nat := 1024.
Definition DEFAULT_MAX_INFLIGHT : nat := 256.

Inductive RoutingError : Type :=
| TooManyEdges
| UnauthorizedKey
| InvalidSignature
| RoutingIdentity (error : IdentityError)
| Encoding (error : string)
| RoutingFrame (error : FrameError).

Record LinkStateBody : Type := mkLinkStateBody {
  lb_node_id : NodeId;
  lb_public_key : bytes;
  lb_edges : list NodeId;
  lb_sequence : Z;
}.

Record LinkStateRecord : Type := mkLinkState {
  ls_body : LinkStateBody;
  ls_signature : bytes;
}.

Definition ls_node_id (r : LinkStateRecord) : NodeId := lb_node_id (ls_body r).
Definition sequence (r : LinkStateRecord) : Z := lb_sequence (ls_body r).
Definition edges (r : LinkStateRecord) : list NodeId := lb_edges (ls_body r).

(** ** Advertisements *)

Section records.
Context `{!Crypto} `{!Serialize LinkStateBody}.

(** [LinkStateRecord::sign] *)
Definition sign_link_state (identity : NodeIdentity) (es : list NodeId) (seq : Z)
    : result LinkStateRecord RoutingError :=
  let es := dedup (ord_sort (filter (λ e, e ≠ ni_node_id identity) es)) in
  if decide (MAX_LINK_STATE_EDGES < length es)%nat then Err TooManyEdges
  else
    let b := mkLinkStateBody (ni_node_id identity) (public_key_bytes identity) es seq in
    let? encoded := map_err Encoding (to_stdvec b) in
    let? sig := map_err RoutingIdentity (sign identity encoded) in
    Ok (mkLinkState b sig).

Definition verify_with (r : LinkStateRecord) (authorized_key : bytes) : result unit RoutingError :=
  if decide (MAX_LINK_STATE_EDGES < length (edges r))%nat then Err TooManyEdges
  else if decide (lb_public_key (ls_body r) ≠ authorized_key) then Err UnauthorizedKey
  else
    let? key := map_err RoutingIdentity (decode_public_key (lb_public_key (ls_body r))) in
    let? encoded := map_err Encoding (to_stdvec (ls_body r)) in
    if verify_signature key encoded (ls_signature r) then Ok tt else Err InvalidSignature.
End records.

(** ** The database *)

Definition LinkStateDb : Type := gmap NodeId LinkStateRecord.

Section database.
Context `{!Crypto} `{!Serialize LinkStateBody}.

(** [LinkStateDb::insert] *)
Definition insert_link_state (db : LinkStateDb) (r : LinkStateRecord) (authorized_key : bytes)
    : result (LinkStateDb * bool) RoutingError :=
  let? _ := verify_with r authorized_key in
  let stale :=
    match db !! ls_node_id r with
    | Some current => bool_decide (sequence r ≤ sequence current)
    | None => false
    end in
  if stale then Ok (db, false) else Ok (<[ls_node_id r := r]> db, true).
End database.

(** The advertised edges of a node. *)
Definition edges_of (db : LinkStateDb) (n : NodeId) : list NodeId :=
  match db !! n with Some r => edges r | None => [] end.

(** *** Breadth-first search *)

Record BfsState : Type := mkBfs {
  visited : gset NodeId;
  parent : gmap NodeId NodeId;
  queue : list NodeId;
}.

(** The [for] loop over one record's edges: stops early when it meets the
    destination. *)
Inductive ScanResult : Type :=
| Found (p : gmap NodeId NodeId)
| Continue (st : BfsState).

Fixpoint scan_edges (node dest : NodeId) (es : list NodeId) (st : BfsState) : ScanResult :=
  match es with
  | [] => Continue st
  | e :: es' =>
      if decide (e ∈ visited st) then scan_edges node dest es' st
      else
        let p := <[e := node]> (parent st) in
        if decide (e = dest) then Found p
        else scan_edges node dest es' (mkBfs ({[e]} ∪ visited st) p (queue st ++ [e]))
  end.

(** The walk back along the parents. *)
Fixpoint trace_back (fuel : nat) (p : gmap NodeId NodeId) (local hop : NodeId) : option (option NodeId) :=
  match fuel with
  | O => None
  | S fuel' =>
      match p !! hop with
      | None => Some None
      | Some previous => if decide (previous = local) then Some (Some hop)
                         else trace_back fuel' p local previous
      end
  end.

Fixpoint bfs (fuel : nat) (db : LinkStateDb) (local dest : NodeId) (st : BfsState)
    : option (option NodeId) :=
  match fuel with
  | O => None
  | S fuel' =>
      match queue st with
      | [] => Some None
      | node :: rest =>
          let st := mkBfs (visited st) (parent st) rest in
          match db !! node with
          | None => bfs fuel' db local dest st
          | Some r =>
              match scan_edges node dest (edges r) st with
              | Found p => trace_back (S (size p)) p local dest
              | Continue st' => bfs fuel' db local dest st'
              end
          end
      end
  end.

(** Every node the search can queue is the start or an advertised edge. *)
Definition universe (db : LinkStateDb) (local : NodeId) : gset NodeId :=
  {[local]} ∪ list_to_set (concat (edges <$> btree_values db)).

Definition next_hop (db : LinkStateDb) (local dest : NodeId) : option (option NodeId) :=
  if decide (local = dest) then Some (Some dest)
  else bfs (S (size (universe db local))) db local dest (mkBfs {[local]} ∅ [local]).

(** ** The router *)

Inductive DropReason : Type :=
| Expired
| Duplicate
| HopLimitExhausted
| Backpressure
| BodyTooLarge
| NoRoute.

Inductive RouteDecision : Type :=
| Deliver (e : Envelope)
| Forward (hop : NodeId) (e : Envelope)
| Drop (reason : DropReason).

Record Router : Type := mkRouter {
  local : NodeId;
  links : LinkStateDb;
  seen : list RequestId;
  seen_set : gset RequestId;
  seen_capacity : nat;
  inflight : nat;
  max_inflight : nat;
}.

Definition new (n : NodeId) : Router :=
  mkRouter n ∅ [] ∅ DEFAULT_SEEN_CAPACITY 0 DEFAULT_MAX_INFLIGHT.

Definition with_bounds (r : Router) (capacity bound : nat) : Router :=
  mkRouter (local r) (links r) (seen r) (seen_set r) capacity (inflight r) bound.

Definition with_links (r : Router) (db : LinkStateDb) : Router :=
  mkRouter (local r) db (seen r) (seen_set r) (seen_capacity r) (inflight r) (max_inflight r).

Definition complete_forward (r : Router) : Router :=
  mkRouter (local r) (links r) (seen r) (seen_set r) (seen_capacity r) (inflight r - 1) (max_inflight r).

(** The [while] loop that evicts the oldest ids. *)
Fixpoint evict (n : nat) (l : list RequestId) (s : gset RequestId) : list RequestId * gset RequestId :=
  match n, l with
  | S n', oldest :: l' => evict n' l' (s ∖ {[oldest]})
  | _, _ => (l, s)
  end.

Definition mark_seen (r : Router) (rid : RequestId) : Router * bool :=
  if decide (rid ∈ seen_set r) then (r, false)
  else
    let l := seen r ++ [rid] in
    let '(l, s) := evict (length l - seen_capacity r) l ({[rid]} ∪ seen_set r) in
    (mkRouter (local r) (links r) l s (seen_capacity r) (inflight r) (max_inflight r), true).

Definition with_hops (h : EnvelopeHeader) (hops : Z) : EnvelopeHeader :=
  mkHeader (version h) (h_cluster_id h) (request_id h) (source h) (destination h) (protocol h) (h_kind h)
    (deadline_unix_ms h) hops.

(** The search never runs out of fuel ([next_hop_shortest]); [None] stands for
    a run that did. *)
Definition handle (r : Router) (envelope : Envelope) (now_unix_ms : Z) : option (Router * RouteDecision) :=
  let h := header envelope in
  if decide (deadline_unix_ms h ≤ now_unix_ms) then Some (r, Drop Expired)
  else
    let '(r, fresh) := mark_seen r (request_id h) in
    if negb fresh then Some (r, Drop Duplicate)
    else if decide (destination h = local r) then Some (r, Deliver envelope)
    else if decide (remaining_hops h = 0) then Some (r, Drop HopLimitExhausted)
    else if decide (len (payload envelope) > MAX_ROUTE_BODY_BYTES) then Some (r, Drop BodyTooLarge)
    else if decide (max_inflight r <= inflight r)%nat then Some (r, Drop Backpressure)
    else
      match next_hop (links r) (local r) (destination h) with
      | None => None
      | Some None => Some (r, Drop NoRoute)
      | Some (Some hop) =>
          match new_envelope (with_hops h (remaining_hops h - 1)) (payload envelope) with
          | Err _ => Some (r, Drop BodyTooLarge)
          | Ok e =>
              Some (mkRouter (local r) (links r) (seen r) (seen_set r) (seen_capacity r)
                      (inflight r + 1) (max_inflight r), Forward hop e)
          end
      end.

(** ** Walks and distances *)

Inductive walk (db : LinkStateDb) : nat → NodeId → NodeId → Prop :=
| walk_nil a : walk db 0 a a
| walk_cons n a b c : b ∈ edges_of db a → walk db n b c → walk db (S n) a c.

(** [b] is [n] hops from [a] and no fewer. *)
Definition dist (db : LinkStateDb) (n : nat) (a b : NodeId) : Prop :=
  walk db n a b ∧ ∀ m, walk db m a b → (n <= m)%nat.

Section search.
Context (db : LinkStateDb).

Lemma walk_snoc n a b c : walk db n a b → c ∈ edges_of db b → walk db (S n) a c.
Proof.
  induction 1 as [a|n a b' b He Hw IH]; intros Hc; [eapply walk_cons; [done|constructor]|].
  eapply walk_cons; [done|auto].
Qed.

Lemma walk_last n a c : walk db (S n) a c → ∃ b, walk db n a b ∧ c ∈ edges_of db b.
Proof.
  revert a. induction n as [|n IH]; intros a Hw; inversion Hw as [|? ? b ? He Hw']; subst.
  - inversion Hw'; subst. exists a. split; [constructor|done].
  - destruct (IH b Hw') as (x & Hx & Hc). exists x. split; [by eapply walk_cons|done].
Qed.

Lemma dist_unique n m a b : dist db n a b → dist db m a b → n = m.
Proof. intros [H1 H2] [H3 H4]. apply H2 in H3. apply H4 in H1. lia. Qed.

Lemma dist_refl a : dist db 0 a a.
Proof. split; [constructor|lia]. Qed.

Lemma dist_0 a b : dist db 0 a b → b = a.
Proof. intros [Hw _]. by inversion Hw. Qed.

(** A walk out of a set crosses its border. *)
Lemma walk_crosses (S : gset NodeId) n a b :
  walk db n a b → a ∈ S → b ∉ S →
  ∃ k x y, walk db k a x ∧ x ∈ S ∧ y ∈ edges_of db x ∧ y ∉ S ∧ (k < n)%nat.
Proof.
  induction 1 as [a|n a b c He Hw IH]; intros Ha Hc; [done|].
  destruct (decide (b ∈ S)) as [Hb|Hb].
  - destruct (IH Hb Hc) as (k & x & y & Hk & Hx & Hy & HyS & Hlt).
    exists (Datatypes.S k), x, y. split_and!; [by eapply walk_cons|done..|lia].
  - exists 0%nat, a, b. split_and!; [constructor|done..|lia].
Qed.

Context (local dest : NodeId) (Hne : local ≠ dest).

(** Parents are one hop closer to the start, and lead back to it. *)
Definition tree_ok (p : gmap NodeId NodeId) : Prop :=
  ∀ x q, p !! x = Some q →
    x ∈ edges_of db q ∧ (q = local ∨ is_Some (p !! q)) ∧ ∃ j, dist db j local q ∧ dist db (S j) local x.

(** The state between two expansions: [front] are the queued nodes [k] hops
    away, [back] those one hop further. *)
Record bfs_inv (st : BfsState) (k : nat) (front back : list NodeId) : Prop := {
  bi_queue : queue st = front ++ back;
  bi_local : local ∈ visited st;
  bi_front : ∀ x, x ∈ front → dist db k local x;
  bi_back : ∀ x, x ∈ back → dist db (S k) local x;
  bi_queued : ∀ x, x ∈ queue st → x ∈ visited st;
  bi_universe : visited st ⊆ universe db local;
  bi_dest : dest ∉ visited st;
  bi_parent : tree_ok (parent st);
  bi_tree : ∀ x, x ∈ visited st → x = local ∨ is_Some (parent st !! x);
}.

(** Every visited node outside [open] has all its edges visited. *)
Definition closed (st : BfsState) (open : list NodeId) : Prop :=
  ∀ x y, x ∈ visited st → x ∉ open → y ∈ edges_of db x → y ∈ visited st.

(** What the search still has to do. *)
Definition bfs_work (st : BfsState) : nat :=
  length (queue st) + size (universe db local ∖ visited st).

Lemma edges_of_universe x y : y ∈ edges_of db x → y ∈ universe db local.
Proof.
  unfold edges_of, universe. destruct (db !! x) as [r|] eqn:E; [|by intros ?%elem_of_nil].
  intros Hy. apply elem_of_union_r, elem_of_list_to_set, list_elem_of_In, in_concat.
  exists (edges r). split; [|by apply list_elem_of_In].
  apply list_elem_of_In, list_elem_of_fmap. exists r. split; [done|]. apply elem_of_btree_values. eauto.
Qed.

Lemma queued_bound st k front back x m :
  bfs_inv st k front back → x ∈ queue st → walk db m local x → (k <= m)%nat.
Proof.
  intros Hi. rewrite (bi_queue _ _ _ _ Hi), elem_of_app. intros [Hx|Hx] Hw.
  - by apply (bi_front _ _ _ _ Hi x Hx).
  - apply (bi_back _ _ _ _ Hi x Hx) in Hw. lia.
Qed.

(** An edge from [node] to an unvisited node is one hop further than [node]. *)
Lemma new_dist st k front back node e :
  bfs_inv st k front back → closed st (node :: queue st) → dist db k local node →
  e ∈ edges_of db node → e ∉ visited st → dist db (S k) local e.
Proof.
  intros Hi Hc Hd He Hv. split; [by eapply walk_snoc; [apply Hd|]|]. intros n Hw.
  destruct (walk_crosses _ _ _ _ Hw (bi_local _ _ _ _ Hi) Hv) as (m & x & z & Hm & Hx & Hz & HzS & Hlt).
  destruct (decide (x ∈ node :: queue st)) as [Ho|Ho]; [|exfalso; by apply HzS, (Hc x z)].
  assert (k <= m)%nat; [|lia]. apply elem_of_cons in Ho as [->|Ho]; [by apply Hd|by eapply queued_bound].
Qed.

Lemma tree_ok_insert p e node k :
  tree_ok p → e ∈ edges_of db node → node = local ∨ is_Some (p !! node) →
  dist db k local node → dist db (S k) local e → tree_ok (<[e := node]> p).
Proof.
  intros Hp He Hnode Hd He' x q. rewrite lookup_insert_Some.
  assert (∀ q, q = local ∨ is_Some (p !! q) → q = local ∨ is_Some (<[e := node]> p !! q)) as Hmono.
  { intros q' [?|?]; [by left|right]. rewrite lookup_insert_is_Some'. by right. }
  intros [[<- <-]|[_ Hx]]; [split_and!; eauto|]. destruct (Hp x q Hx) as (? & ? & ?). split_and!; eauto.
Qed.

Lemma visit_inv st k front back node e :
  bfs_inv st k front back → closed st (node :: queue st) → dist db k local node → node ∈ visited st →
  e ∈ edges_of db node → e ∉ visited st → e ≠ dest →
  bfs_inv (mkBfs ({[e]} ∪ visited st) (<[e := node]> (parent st)) (queue st ++ [e])) k front (back ++ [e]).
Proof.
  intros Hi Hc Hd Hn He Hv Hdest. pose proof (new_dist _ _ _ _ _ _ Hi Hc Hd He Hv) as Hde.
  split; cbn [queue visited parent].
  - by rewrite (bi_queue _ _ _ _ Hi), app_assoc.
  - apply elem_of_union_r, Hi.
  - apply Hi.
  - intros x [Hx|Hx%list_elem_of_singleton]%elem_of_app; [by apply Hi|by subst].
  - intros x [Hx|Hx%list_elem_of_singleton]%elem_of_app; [apply elem_of_union_r; by apply Hi|].
    subst. by apply elem_of_union_l, elem_of_singleton.
  - apply union_subseteq. split; [|apply Hi]. apply singleton_subseteq_l. by eapply edges_of_universe.
  - rewrite elem_of_union, elem_of_singleton. intros [Heq|Hx]; [by apply Hdest|by apply (bi_dest _ _ _ _ Hi)].
  - apply (tree_ok_insert _ _ _ k); [apply Hi|done|by apply Hi|done|done].
  - intros x [->%elem_of_singleton|Hx]%elem_of_union; [right; by rewrite lookup_insert_eq|].
    destruct (bi_tree _ _ _ _ Hi x Hx) as [?|?]; [by left|right].
    rewrite lookup_insert_is_Some'. by right.
Qed.

Lemma visit_work st e node :
  e ∈ edges_of db node → e ∉ visited st →
  bfs_work (mkBfs ({[e]} ∪ visited st) (<[e := node]> (parent st)) (queue st ++ [e])) = bfs_work st.
Proof.
  intros He Hv. unfold bfs_work. cbn [queue visited]. rewrite length_app. cbn [length].
  assert (universe db local ∖ visited st = {[e]} ∪ universe db local ∖ ({[e]} ∪ visited st)) as ->.
  { apply set_eq. intros x. rewrite elem_of_union, !elem_of_difference, elem_of_union, elem_of_singleton.
    destruct (decide (x = e)) as [->|]; [|tauto]. pose proof (edges_of_universe _ _ He). tauto. }
  rewrite (size_union ({[e]} : gset NodeId)) by set_solver. rewrite size_singleton. lia.
Qed.

Lemma scan_edges_spec es st k front back node :
  bfs_inv st k front back → closed st (node :: queue st) → dist db k local node → node ∈ visited st →
  es ⊆ edges_of db node → (∀ y, y ∈ edges_of db node → y ∈ es ∨ y ∈ visited st) →
  match scan_edges node dest es st with
  | Found p => tree_ok p ∧ dist db (S k) local dest ∧ is_Some (p !! dest)
  | Continue st' => bfs_work st' = bfs_work st ∧ closed st' (queue st') ∧
      ∃ back', bfs_inv st' k front back'
  end.
Proof.
  revert st back. induction es as [|e es IH]; intros st back Hi Hc Hd Hn Hes Hall; cbn [scan_edges].
  - split; [done|]. split; [|eauto]. intros x y Hx Hq Hy.
    destruct (decide (x = node)) as [->|Hne'].
    + destruct (Hall y Hy) as [Hnil|?]; [by apply elem_of_nil in Hnil|done].
    + apply (Hc x y); [done| |done]. by intros [?|?]%elem_of_cons.
  - assert (e ∈ edges_of db node) as He by (apply Hes; by left).
    assert (es ⊆ edges_of db node) as Hes' by (intros x Hx; apply Hes; by right).
    case_decide as Hv.
    + apply (IH st back); [done..|]. intros y Hy. destruct (Hall y Hy) as [[->|?]%elem_of_cons|?]; auto.
    + pose proof (new_dist _ _ _ _ _ _ Hi Hc Hd He Hv) as Hde. case_decide as Hdest.
      * subst. split_and!; [|done|by rewrite lookup_insert_eq].
        eapply tree_ok_insert; [apply Hi|done|by eapply bi_tree|done|done].
      * pose proof (visit_inv _ _ _ _ _ _ Hi Hc Hd Hn He Hv Hdest) as Hi'.
        pose proof (visit_work st e node He Hv) as Hw. rewrite <- Hw.
        apply (IH _ (back ++ [e])); [exact Hi'| |done| |done|].
        -- intros x y Hx Hq Hy. cbn [visited queue] in *. rewrite not_elem_of_cons, not_elem_of_app in Hq.
           destruct Hq as (Hxn & Hxq & Hxe). apply elem_of_union_r.
           apply elem_of_union in Hx as [->%elem_of_singleton|Hx].
           { exfalso. apply Hxe. by apply list_elem_of_singleton. }
           apply (Hc x y); [done| |done]. by intros [?|?]%elem_of_cons.
        -- by apply elem_of_union_r.
        -- intros y Hy. cbn [visited]. destruct (Hall y Hy) as [[->|?]%elem_of_cons|?].
           ++ right. by apply elem_of_union_l, elem_of_singleton.
           ++ by left.
           ++ right. by apply elem_of_union_r.
Qed.

(** The parents of a node [S j] hops away give [S j] different keys. *)
Lemma tree_ok_depth p j hop :
  tree_ok p → dist db (S j) local hop → is_Some (p !! hop) → (S j <= size p)%nat.
Proof.
  intros Hp Hd Hs.
  assert (∃ l, NoDup l ∧ length l = S j ∧ ∀ x, x ∈ l → is_Some (p !! x) ∧ ∃ i, (i <= S j)%nat ∧ dist db i local x)
    as (l & Hnd & Hlen & Hl).
  { revert hop Hd Hs. induction j as [|j IH]; intros hop Hd Hs.
    - exists [hop]. split_and!; [apply NoDup_singleton|done|]. intros x ->%list_elem_of_singleton. eauto.
    - destruct Hs as [q Hq]. destruct (Hp hop q Hq) as (_ & Hq' & i & Hdq & Hdh).
      assert (i = S j) as -> by (pose proof (dist_unique _ _ _ _ Hdh Hd); lia).
      destruct Hq' as [->|Hq']; [pose proof (dist_unique _ _ _ _ Hdq (dist_refl local)); lia|].
      destruct (IH q Hdq Hq') as (l & Hnd & Hlen & Hl). exists (hop :: l). split_and!.
      + apply NoDup_cons. split; [|done]. intros Hin. destruct (Hl hop Hin) as (_ & i & Hle & Hi).
        pose proof (dist_unique _ _ _ _ Hi Hd). lia.
      + simpl. by rewrite Hlen.
      + intros x [->|Hx]%elem_of_cons; [split; eauto|]. destruct (Hl x Hx) as (? & i & ? & ?).
        split; [done|]. exists i. split; [lia|done]. }
  rewrite <- Hlen, <- (size_list_to_set (C:=gset NodeId) l) by done.
  rewrite <- (size_dom (D:=gset NodeId) p). apply subseteq_size. intros x Hx%elem_of_list_to_set.
  apply elem_of_dom, Hl, Hx.
Qed.

Lemma trace_back_spec fuel p j r hop :
  tree_ok p → dist db (S j) local hop → is_Some (p !! hop) → walk db r hop dest → (j < fuel)%nat →
  ∃ h, trace_back fuel p local hop = Some (Some h) ∧ h ∈ edges_of db local ∧ walk db (j + r) h dest.
Proof.
  intros Hp. revert j r hop. induction fuel as [|fuel IH]; intros j r hop Hd [q Hq] Hw Hf; [lia|].
  cbn [trace_back]. rewrite Hq. destruct (Hp hop q Hq) as (He & Hq' & i & Hdq & Hdh).
  assert (i = j) as -> by (pose proof (dist_unique _ _ _ _ Hdh Hd); lia).
  case_decide as Hl.
  - subst q. assert (j = 0%nat) as -> by apply (dist_unique _ _ _ _ Hdq (dist_refl local)). eauto.
  - destruct Hq' as [?|Hq']; [done|]. destruct j as [|j]; [apply dist_0 in Hdq; done|].
    destruct (IH j (S r) q Hdq Hq') as (h & Hh & Heh & Hwh); [by eapply walk_cons|lia|].
    exists h. split_and!; [done|done|]. by rewrite Nat.add_succ_r in Hwh.
Qed.

(** The head of the queue starts the level being expanded. *)
Lemma bfs_inv_head st k front back node rest :
  bfs_inv st k front back → queue st = node :: rest →
  ∃ k' front' back', bfs_inv st k' (node :: front') back' ∧ rest = front' ++ back'.
Proof.
  intros Hi Hq. pose proof (bi_queue _ _ _ _ Hi) as Hq'. rewrite Hq in Hq'.
  destruct front as [|x front]; simpl in Hq'.
  - exists (S k), rest, []. split; [|by rewrite app_nil_r]. destruct Hi as [_ H1 H2 H3 H4 H5 H6 H7 H8].
    subst back. split; try done; [by rewrite app_nil_r|by intros x ?%elem_of_nil].
  - injection Hq' as <- Hr. exists k, front, back. split; [|done]. done.
Qed.

Lemma bfs_spec fuel st k front back :
  bfs_inv st k front back → closed st (queue st) → (bfs_work st < fuel)%nat →
  ∃ res, bfs fuel db local dest st = Some res ∧
    match res with
    | None => ∀ n, ¬ walk db n local dest
    | Some h => h ∈ edges_of db local ∧ ∃ n, walk db n h dest ∧ dist db (S n) local dest
    end.
Proof.
  revert st k front back. induction fuel as [|fuel IH]; intros st k front back Hi Hc Hf; [lia|].
  cbn [bfs]. destruct (queue st) as [|node rest] eqn:Eq.
  - exists None. split; [done|]. intros n Hw.
    destruct (walk_crosses _ _ _ _ Hw (bi_local _ _ _ _ Hi) (bi_dest _ _ _ _ Hi)) as (m & x & y & _ & Hx & Hy & Hv & _).
    apply Hv, (Hc x y); [done|apply not_elem_of_nil|done].
  - destruct (bfs_inv_head _ _ _ _ _ _ Hi Eq) as (k' & f' & b' & Hi' & Hrest). clear Hi k front back.
    assert (dist db k' local node) as Hd by (apply (bi_front _ _ _ _ Hi'); by left).
    assert (node ∈ visited st) as Hn by (apply (bi_queued _ _ _ _ Hi'); rewrite Eq; by left).
    set (st0 := mkBfs (visited st) (parent st) rest).
    assert (bfs_inv st0 k' f' b') as Hi0.
    { destruct Hi' as [H0 H1 H2 H3 H4 H5 H6 H7 H8]. split; cbn; try done.
      - intros x Hx. apply H2. by right.
      - intros x Hx. apply H4. rewrite Eq. by right. }
    assert (closed st0 (node :: queue st0)) as Hc0 by (intros x y Hx Hq; by apply (Hc x y)).
    assert (bfs_work st0 < fuel)%nat as Hf0.
    { unfold bfs_work in *. cbn [queue visited st0]. rewrite Eq in Hf. cbn [length] in Hf. lia. }
    destruct (db !! node) as [r|] eqn:Er.
    + pose proof (scan_edges_spec (edges r) st0 k' f' b' node Hi0 Hc0 Hd Hn) as Hscan.
      assert (edges_of db node = edges r) as Hedges by (unfold edges_of; by rewrite Er).
      rewrite Hedges in Hscan. specialize (Hscan (reflexivity _) (λ y Hy, or_introl Hy)).
      destruct (scan_edges node dest (edges r) st0) as [p|st'].
      * destruct Hscan as (Htree & Hdd & Hs).
        destruct (trace_back_spec (S (size p)) p k' 0 dest Htree Hdd Hs) as (h & Hh & He & Hw);
          [apply walk_nil|pose proof (tree_ok_depth p k' dest Htree Hdd Hs); lia|].
        exists (Some h). split_and!; [done|done|]. exists k'. rewrite Nat.add_0_r in Hw. done.
      * destruct Hscan as (Hwork & Hc' & b'' & Hi''). eapply IH; [done|done|]. lia.
    + eapply IH; [exact Hi0| |done]. intros x y Hx Hq Hy. destruct (decide (x = node)) as [->|Hxn].
      * unfold edges_of in Hy. rewrite Er in Hy. by apply elem_of_nil in Hy.
      * apply (Hc0 x y); [done| |done]. by intros [?|?]%elem_of_cons.
Qed.
End search.

(** ** The router's window *)

Record wf_router (r : Router) : Prop := {
  wr_NoDup : NoDup (seen r);
  wr_set : ∀ x, x ∈ seen_set r ↔ x ∈ seen r;
  wr_seen : (length (seen r) <= seen_capacity r)%nat;
  wr_inflight : (inflight r <= max_inflight r)%nat;
}.

Lemma wf_router_new n : wf_router (new n).
Proof. split; cbn; [constructor|set_solver|lia|lia]. Qed.

Lemma evict_spec n l s : evict n l s = (drop n l, s ∖ list_to_set (take n l)).
Proof.
  revert l s. induction n as [|n IH]; intros [|x l] s; cbn; try by rewrite difference_empty_L.
  rewrite IH. f_equal. set_solver.
Qed.

(** Everything but the window is kept. *)
Definition same_config (r r' : Router) : Prop :=
  local r' = local r ∧ links r' = links r ∧ seen_capacity r' = seen_capacity r ∧
  max_inflight r' = max_inflight r.

Lemma mark_seen_fresh r rid :
  rid ∉ seen_set r →
  ∃ r', mark_seen r rid = (r', true) ∧ same_config r r' ∧ inflight r' = inflight r ∧
    seen r' = drop (length (seen r) + 1 - seen_capacity r) (seen r ++ [rid]) ∧
    seen_set r' = ({[rid]} ∪ seen_set r)
      ∖ list_to_set (take (length (seen r) + 1 - seen_capacity r) (seen r ++ [rid])).
Proof.
  intros Hr. unfold mark_seen. rewrite decide_False by done. rewrite evict_spec.
  eexists. split; [done|]. unfold same_config. cbn. rewrite length_app. by split_and!.
Qed.

Lemma mark_seen_stale r rid : rid ∈ seen_set r → mark_seen r rid = (r, false).
Proof. intros Hr. unfold mark_seen. by rewrite decide_True. Qed.

Lemma mark_seen_wf r rid : wf_router r → wf_router (mark_seen r rid).1.
Proof.
  intros Hwf. destruct (decide (rid ∈ seen_set r)) as [Hr|Hr]; [by rewrite mark_seen_stale|].
  destruct (mark_seen_fresh r rid Hr) as (r' & -> & (Hl & Hk & Hc & Hm) & Hi & Hseen & Hset). cbn [fst].
  pose proof Hwf as [H1 H2 H3 H4]. rewrite H2 in Hr.
  assert (NoDup (seen r ++ [rid])) as Hnd.
  { apply NoDup_app. split_and!; [done| |apply NoDup_singleton]. intros x Hx ->%list_elem_of_singleton. done. }
  set (n := (length (seen r) + 1 - seen_capacity r)%nat) in *.
  split; rewrite ?Hseen, ?Hi, ?Hm, ?Hc.
  - rewrite <- (take_drop n (seen r ++ [rid])) in Hnd. by apply NoDup_app in Hnd as (_ & _ & ?).
  - intros x. rewrite Hset, elem_of_difference, elem_of_union, elem_of_singleton, H2, elem_of_list_to_set.
    rewrite <- (take_drop n (seen r ++ [rid])) in Hnd.
    assert (x = rid ∨ x ∈ seen r ↔ x ∈ take n (seen r ++ [rid]) ∨ x ∈ drop n (seen r ++ [rid])) as ->.
    { rewrite <- elem_of_app, take_drop, elem_of_app, list_elem_of_singleton. tauto. }
    apply NoDup_app in Hnd as (_ & Hdis & _). specialize (Hdis x). tauto.
  - rewrite length_drop, length_app. cbn. lia.
  - done.
Qed.

(** Only forwarding takes a slot, and it needs a free one. *)
Lemma handle_wf r e now r' d : wf_router r → handle r e now = Some (r', d) → wf_router r' ∧ same_config r r'.
Proof.
  intros Hwf. pose proof (mark_seen_wf r (request_id (header e)) Hwf) as Hwf'.
  assert (same_config r (mark_seen r (request_id (header e))).1) as Hsame.
  { destruct (decide (request_id (header e) ∈ seen_set r)) as [Hr|Hr]; [by rewrite mark_seen_stale|].
    by destruct (mark_seen_fresh r _ Hr) as (? & -> & ? & _). }
  unfold handle. case_decide; [by intros [= <- <-]|].
  destruct (mark_seen r _) as [r1 []]; cbn [negb fst] in *; [|by intros [= <- <-]].
  case_decide; [by intros [= <- <-]|]. case_decide; [by intros [= <- <-]|].
  case_decide; [by intros [= <- <-]|]. case_decide; [by intros [= <- <-]|].
  destruct (next_hop _ _ _) as [[hop|]|]; [|by intros [= <- <-]|done].
  destruct (new_envelope _ _); [|by intros [= <- <-]]. intros [= <- <-].
  split; [|done]. destruct Hwf' as [Q1 Q2 Q3 Q4]. split; cbn; [done..|lia].
Qed.

Lemma complete_forward_wf r : wf_router r → wf_router (complete_forward r).
Proof. intros [H1 H2 H3 H4]. split; cbn; [done..|lia]. Qed.

(** [rid] is in the window, with at most [m] ids after it. *)
Definition recent (r : Router) (rid : RequestId) (m : nat) : Prop :=
  ∃ l1 l2, seen r = l1 ++ rid :: l2 ∧ (length l2 <= m)%nat.

Lemma mark_seen_recent r rid m x :
  wf_router r → recent r rid m → (m + 1 < seen_capacity r)%nat → recent (mark_seen r x).1 rid (m + 1).
Proof.
  intros Hwf (l1 & l2 & Hs & Hm) Hcap. destruct (decide (x ∈ seen_set r)) as [Hx|Hx].
  - rewrite mark_seen_stale by done. exists l1, l2. split; [done|lia].
  - destruct (mark_seen_fresh r x Hx) as (r' & -> & _ & _ & Hseen & _). cbn [fst].
    pose proof (wr_seen _ Hwf) as Hlen. rewrite Hs, length_app in Hlen. cbn [length] in Hlen.
    exists (drop (length (seen r) + 1 - seen_capacity r) l1), (l2 ++ [x]). split.
    + rewrite Hseen, Hs, <- app_assoc, length_app. cbn [length app].
      rewrite drop_app_le by lia. done.
    + rewrite length_app. cbn. lia.
Qed.

Lemma next_hop_spec db from dest :
  ∃ res, next_hop db from dest = Some res ∧
    match res with
    | None => from ≠ dest ∧ ∀ n, ¬ walk db n from dest
    | Some hop => from = dest ∧ hop = dest ∨
        from ≠ dest ∧ hop ∈ edges_of db from ∧ ∃ n, dist db n hop dest ∧ dist db (S n) from dest
    end.
Proof.
  unfold next_hop. case_decide as Hne; [exists (Some dest); split; [done|by left]|].
  destruct (bfs_spec db from dest Hne (S (size (universe db from))) (mkBfs {[from]} ∅ [from]) 0 [from] [])
    as (res & -> & Hres).
  - split; cbn; try set_solver.
    + intros x ->%list_elem_of_singleton. apply dist_refl.
    + unfold universe. set_solver.
    + intros x q Hx. by apply lookup_empty_Some in Hx.
  - intros x y Hx Hq. cbn in *. set_solver.
  - unfold bfs_work. cbn [queue visited length].
    assert (from ∈ universe db from) as Hin by (unfold universe; set_solver).
    rewrite (size_difference (C:=gset NodeId)) by set_solver. rewrite size_singleton.
    assert (size (universe db from) ≠ 0%nat) by (apply size_non_empty_iff; set_solver). lia.
  - exists res. split; [done|]. destruct res as [hop|]; [|done]. right. destruct Hres as (He & n & Hw & Hd).
    split_and!; [done|done|]. exists n. split; [|done]. split; [done|]. intros m Hm.
    assert (S n <= S m)%nat; [|lia]. apply Hd. by eapply walk_cons.
Qed.

Lemma handle_total r e now : ∃ r' d, handle r e now = Some (r', d).
Proof.
  unfold handle. case_decide; [eauto|]. destruct (mark_seen r _) as [r1 []]; cbn [negb]; [|eauto].
  do 4 (case_decide; [eauto|]).
  destruct (next_hop_spec (links r1) (local r1) (destination (header e))) as (res & -> & _).
  destruct res; [|eauto]. destruct (new_envelope _ _); eauto.
Qed.

(** The envelopes a router handles, each at its own time. *)
Fixpoint handle_all (r : Router) (es : list (Envelope * Z)) : option Router :=
  match es with
  | [] => Some r
  | (e, now) :: es' =>
      match handle r e now with
      | Some (r', _) => handle_all r' es'
      | None => None
      end
  end.

Lemma handle_seen r e now r' d :
  handle r e now = Some (r', d) →
  seen r' = seen r ∧ seen_set r' = seen_set r ∧ (d = Drop Expired ∨ d = Drop Duplicate) ∨
  seen r' = seen (mark_seen r (request_id (header e))).1 ∧
  seen_set r' = seen_set (mark_seen r (request_id (header e))).1 ∧ request_id (header e) ∉ seen_set r.
Proof.
  unfold handle. case_decide; [intros [= <- <-]; left; auto|].
  destruct (decide (request_id (header e) ∈ seen_set r)) as [Hr|Hr].
  { rewrite mark_seen_stale by done. cbn. intros [= <- <-]. left; auto. }
  destruct (mark_seen_fresh r _ Hr) as (r1 & -> & _). cbn [negb fst]. intros Hh. right.
  repeat case_decide; try (by injection Hh as <- <-).
  destruct (next_hop _ _ _) as [[hop|]|]; [|by injection Hh as <- <-|done].
  destruct (new_envelope _ _); by injection Hh as <- <-.
Qed.

Lemma handle_recent r e now r' d rid m :
  wf_router r → handle r e now = Some (r', d) → recent r rid m → (m + 1 < seen_capacity r)%nat →
  recent r' rid (m + 1).
Proof.
  intros Hwf Hh Hrec Hcap. pose proof (mark_seen_recent _ _ _ (request_id (header e)) Hwf Hrec Hcap) as Hrec'.
  unfold recent in *. destruct (handle_seen _ _ _ _ _ Hh) as [(-> & _ & _)|(-> & _ & _)]; [|done].
  destruct Hrec as (l1 & l2 & ? & ?). exists l1, l2. split; [done|lia].
Qed.

Lemma handle_all_recent es r rid m :
  wf_router r → recent r rid m → (m + length es < seen_capacity r)%nat →
  ∃ r', handle_all r es = Some r' ∧ wf_router r' ∧ recent r' rid (m + length es).
Proof.
  revert r m. induction es as [|[e now] es IH]; intros r m Hwf Hrec Hcap; cbn [handle_all length] in *.
  - exists r. by rewrite Nat.add_0_r.
  - destruct (handle_total r e now) as (r' & d & Hh). rewrite Hh.
    destruct (handle_wf _ _ _ _ _ Hwf Hh) as (Hwf' & _ & _ & Hc & _).
    destruct (IH r' (m + 1)%nat) as (r2 & Hr2 & Hw2 & Hrec2); [done|eapply (handle_recent r); [done..|lia]|lia|].
    exists r2. split_and!; [done|done|]. by replace (m + S (length es))%nat with (m + 1 + length es)%nat by lia.
Qed.

(** ** Relaying across routers

    An envelope on its way: each router handles it and hands it to the next
    hop it names. *)

Inductive RelayResult : Type :=
| Delivered (at_node : NodeId) (e : Envelope)
| Lost (at_node : NodeId).

Fixpoint relay (fuel : nat) (net : gmap NodeId Router) (node : NodeId) (e : Envelope) (now : Z)
    : option RelayResult :=
  match fuel with
  | O => None
  | S fuel' =>
      match net !! node with
      | None => Some (Lost node)
      | Some r =>
          match handle r e now with
          | None => None
          | Some (_, Drop _) => Some (Lost node)
          | Some (_, Deliver e') => Some (Delivered node e')
          | Some (r', Forward hop e') => relay fuel' (<[node := r']> net) hop e' now
          end
      end
  end.

(** A router that shares [db] and has room for a request it has not seen. *)
Definition ready (db : LinkStateDb) (rid : RequestId) (n : NodeId) (r : Router) : Prop :=
  local r = n ∧ links r = db ∧ rid ∉ seen_set r ∧ (inflight r < max_inflight r)%nat.

Definition hops_taken (e : Envelope) (k : nat) : Envelope :=
  mkEnvelope (with_hops (header e) (remaining_hops (header e) - Z.of_nat k)) (payload e).

Lemma handle_at_dest r e now n :
  local r = n → destination (header e) = n → request_id (header e) ∉ seen_set r →
  now < deadline_unix_ms (header e) → ∃ r', handle r e now = Some (r', Deliver e).
Proof.
  intros Hl Hd Hs Hnow. unfold handle. rewrite decide_False by lia.
  destruct (mark_seen_fresh r _ Hs) as (r' & -> & (Hl' & _) & _). cbn [negb].
  rewrite decide_True by congruence. eauto.
Qed.

Lemma handle_forwards db r e now n hop :
  ready db (request_id (header e)) n r → next_hop db n (destination (header e)) = Some (Some hop) →
  destination (header e) ≠ n → now < deadline_unix_ms (header e) → remaining_hops (header e) ≠ 0 →
  len (payload e) ≤ MAX_ROUTE_BODY_BYTES →
  ∃ r', handle r e now = Some (r', Forward hop (hops_taken e 1)).
Proof.
  intros (Hl & Hdb & Hs & Hi) Hhop Hd Hnow Hr Hp. unfold handle. rewrite decide_False by lia.
  destruct (mark_seen_fresh r _ Hs) as (r' & -> & (Hl' & Hk' & _ & Hm') & Hi' & _). cbn [negb].
  rewrite decide_False by congruence. rewrite decide_False by done. rewrite decide_False by lia.
  rewrite decide_False by lia. rewrite Hl', Hk', Hl, Hdb, Hhop.
  assert (new_envelope (with_hops (header e) (remaining_hops (header e) - 1)) (payload e)
          = Ok (hops_taken e 1)) as ->.
  { apply new_envelope_Ok. split; [done|]. unfold MAX_ROUTE_BODY_BYTES, MAX_PAYLOAD_BYTES, MAX_FRAME_BYTES in *. lia. }
  eauto.
Qed.

Lemma hops_taken_S e k : hops_taken (hops_taken e 1) k = hops_taken e (S k).
Proof. unfold hops_taken, with_hops. cbn. do 2 f_equal. lia. Qed.

(** ** Properties *)

(** The next hop is right: the search always ends; it finds nothing exactly
    when no path over advertised edges leads to another destination; and
    otherwise it answers the first hop of a shortest path. *)
Theorem next_hop_shortest db from dest :
  next_hop db from dest ≠ None ∧
  (next_hop db from dest = Some None ↔ ∀ n, ¬ walk db n from dest) ∧
  ∀ hop, next_hop db from dest = Some (Some hop) →
    from = dest ∧ hop = dest ∨
    from ≠ dest ∧ hop ∈ edges_of db from ∧ ∃ n, dist db n hop dest ∧ dist db (S n) from dest.
Proof.
  destruct (next_hop_spec db from dest) as (res & -> & Hres). split_and!; [done|..].
  - split; [intros [= ->]; apply Hres|]. intros Hno. destruct res as [hop|]; [|done]. exfalso.
    destruct Hres as [[<- _]|(_ & _ & n & _ & [Hw _])]; [apply (Hno 0%nat), walk_nil|by apply (Hno (S n))].
  - by intros hop [= ->].
Qed.

(** A replayed envelope goes nowhere: once a router has taken an envelope,
    it drops every other one with the same request id, as long as it handles
    fewer envelopes in between than the window holds; and through all of them
    the window and the number of forwards in flight stay within their bounds. *)
Theorem replay_window r e now r1 d es :
  wf_router r → handle r e now = Some (r1, d) → d ≠ Drop Expired → d ≠ Drop Duplicate →
  (length es < seen_capacity r)%nat →
  ∃ r2, handle_all r1 es = Some r2 ∧ wf_router r2 ∧
    ∀ e' now', request_id (header e') = request_id (header e) →
      handle r2 e' now' = Some (r2, Drop (if decide (deadline_unix_ms (header e') ≤ now') then Expired else Duplicate)).
Proof.
  intros Hwf Hh Hexp Hdup Hlen. destruct (handle_wf _ _ _ _ _ Hwf Hh) as (Hwf1 & _ & _ & Hc & _).
  assert (recent r1 (request_id (header e)) 0) as Hrec.
  { destruct (handle_seen _ _ _ _ _ Hh) as [(_ & _ & [?|?])|(Hs & _ & Hf)]; [done..|].
    destruct (mark_seen_fresh r _ Hf) as (r' & Hm & _ & _ & Hseen & _). rewrite Hm in Hs. cbn [fst] in Hs.
    pose proof (wr_seen _ Hwf) as Hcap. unfold recent. rewrite Hs, Hseen, drop_app_le by lia.
    exists (drop (length (seen r) + 1 - seen_capacity r) (seen r)), []. done. }
  destruct (handle_all_recent es r1 _ 0 Hwf1 Hrec) as (r2 & Hr2 & Hwf2 & (l1 & l2 & Hs & _)); [lia|].
  exists r2. split_and!; [done|done|]. intros e' now' Hid. unfold handle. case_decide; [done|].
  rewrite mark_seen_stale; [done|]. apply (wr_set _ Hwf2). rewrite Hs, Hid. apply elem_of_app. right; left.
Qed.

(** C26: routing delivers: if every router within reach of the destination has
    the same link-state database, room to forward and not seen the request,
    then an envelope with a live deadline, a body within the limit and at least
    as many hops left as the shortest path needs is delivered at the
    destination, over exactly that many hops and with its payload untouched. *)
Theorem relay_delivers db net k n e now :
  dist db k n (destination (header e)) →
  (∀ m x, dist db m x (destination (header e)) → (m <= k)%nat →
     ∃ r, net !! x = Some r ∧ ready db (request_id (header e)) x r) →
  now < deadline_unix_ms (header e) → Z.of_nat k ≤ remaining_hops (header e) →
  len (payload e) ≤ MAX_ROUTE_BODY_BYTES →
  relay (S k) net n e now = Some (Delivered (destination (header e)) (hops_taken e k)).
Proof.
  revert net n e. induction k as [|k IH]; intros net n e Hd Hready Hnow Hhops Hlen.
  - pose proof (dist_0 _ _ _ Hd) as Hn. destruct (Hready 0%nat n Hd) as (r & Hr & Hl & _ & Hs & _); [lia|].
    cbn [relay]. rewrite Hr. destruct (handle_at_dest r e now n Hl Hn Hs Hnow) as [r' ->]. rewrite Hn.
    destruct e as [[] ?]. unfold hops_taken, with_hops. cbn. by rewrite Z.sub_0_r.
  - destruct (Hready (S k) n Hd) as (r & Hr & Hrdy); [lia|].
    destruct (next_hop_spec db n (destination (header e))) as (res & Hhop & Hres).
    assert (n ≠ destination (header e)) as Hne.
    { intros Heq. pose proof (dist_unique _ _ _ _ _ Hd (eq_ind _ (λ x, dist db 0 n x) (dist_refl db n) _ Heq)). lia. }
    destruct res as [hop|]; [|exfalso; destruct Hres as [_ Hno]; by eapply Hno, Hd].
    destruct Hres as [[? _]|(_ & _ & m & Hm & HSm)]; [done|].
    assert (m = k) as -> by (pose proof (dist_unique _ _ _ _ _ HSm Hd); lia).
    destruct (handle_forwards db r e now n hop Hrdy Hhop) as [r' Hh]; [auto|done|lia|done|].
    cbn [relay]. rewrite Hr, Hh. fold (relay (S k)).
    rewrite <- (hops_taken_S e k). apply (IH _ hop (hops_taken e 1)); [done| |done|cbn; lia|done].
    intros j x Hj Hle. destruct (Hready j x Hj) as (rx & Hrx & Hrdyx); [lia|]. exists rx. split; [|done].
    rewrite lookup_insert_ne; [done|]. intros ->. pose proof (dist_unique _ _ _ _ _ Hj Hd). lia.
Qed.

(** The database keeps, for each node, the newest advertisement signed with
    its authorized key: what [sign] makes is accepted under the signer's key
    unless a record at least as new is held; nothing else enters; and an insert
    never replaces a record by an older one or touches another node's. *)
Theorem link_state_newest `{!Crypto, !CryptoLaws, !Serialize LinkStateBody} db identity es seq r :
  sign_link_state identity es seq = Ok r →
  NoDup (edges r) ∧ (∀ x, x ∈ edges r ↔ x ∈ es ∧ x ≠ ni_node_id identity) ∧
  insert_link_state db r (public_key_bytes identity)
  = Ok (match db !! ni_node_id identity with
        | Some current => if decide (seq ≤ sequence current) then (db, false)
                          else (<[ni_node_id identity := r]> db, true)
        | None => (<[ni_node_id identity := r]> db, true)
        end) ∧
  ∀ key, key ≠ public_key_bytes identity → insert_link_state db r key = Err UnauthorizedKey.
Proof.
  unfold sign_link_state. case_decide as Hlen; [done|]. rewrite result_bind_Ok. intros (enc & Henc%map_err_Ok & Hr).
  rewrite result_bind_Ok in Hr. destruct Hr as (sig & Hsig%map_err_Ok & [= <-]).
  unfold sign in Hsig. apply map_err_Ok in Hsig. apply verify_sign in Hsig.
  set (sorted := dedup _) in *. split_and!.
  - apply strictly_sorted_NoDup, dedup_sorted.
  - intros x. unfold edges. cbn. unfold sorted. rewrite elem_of_dedup_sort, list_elem_of_filter. tauto.
  - unfold insert_link_state, verify_with, edges. cbn. rewrite decide_False by done.
    rewrite decide_False by auto. unfold public_key_bytes at 1. rewrite decode_public_key_encode. cbn. rewrite Henc. cbn. rewrite Hsig. cbn.
    unfold ls_node_id, sequence. cbn. destruct (db !! _) as [cur|]; [|done].
    case_decide; [by rewrite bool_decide_true|by rewrite bool_decide_false].
  - intros key Hkey. unfold insert_link_state, verify_with, edges. cbn. rewrite decide_False by done.
    by rewrite decide_True by auto.
Qed.

(** ** Witnesses

    Three nodes in a row. *)

Definition toy_link (n : NodeId) (es : list NodeId) : LinkStateRecord :=
  mkLinkState (mkLinkStateBody n "" es 1) "".

Definition toy_links : LinkStateDb :=
  <["a" := toy_link "a" ["b"]]> (<["b" := toy_link "b" ["a"; "c"]]> (<["c" := toy_link "c" ["b"]]> ∅)).

Definition toy_router (n : NodeId) : Router := with_links (new n) toy_links.

Definition toy_network : gmap NodeId Router :=
  <["a" := toy_router "a"]> (<["b" := toy_router "b"]> (<["c" := toy_router "c"]> ∅)).

Definition toy_envelope : Envelope :=
  mkEnvelope (mkHeader 1 "k" "request" "a" "c" Route Request 10 4) "body".

Lemma toy_next_hop : next_hop toy_links "a" "c" = Some (Some "b").
Proof. vm_compute. reflexivity. Qed.

Lemma toy_dist : dist toy_links 2 "a" "c".
Proof.
  split.
  - eapply walk_cons; [|eapply walk_cons; [|apply walk_nil]]; vm_compute; [left|right; left].
  - intros [|[|m]] Hw; [inversion Hw|exfalso|lia]. inversion Hw as [|? ? b ? He Hw']; subst.
    inversion Hw'; subst. vm_compute in He. apply list_elem_of_singleton in He. done.
Qed.

Lemma toy_ready m x :
  dist toy_links m x "c" → ∃ r, toy_network !! x = Some r ∧ ready toy_links "request" x r.
Proof.
  intros [Hw _]. assert (x ∈ ["a"; "b"; "c"]) as Hx.
  { inversion Hw as [|n ? b ? He _]; subst; [by right; right; left|]. unfold edges_of in He.
    destruct (toy_links !! x) as [r|] eqn:E; [|by apply elem_of_nil in He].
    unfold toy_links, LinkStateDb in E. rewrite !lookup_insert_Some in E. rewrite lookup_empty in E. set_solver. }
  exists (toy_router x). split.
  - repeat (apply elem_of_cons in Hx as [->|Hx]; [vm_compute; reflexivity|]). by apply elem_of_nil in Hx.
  - split_and!; [done|done| |]; cbn; [set_solver|unfold DEFAULT_MAX_INFLIGHT; lia].
Qed.

Lemma next_hop_shortest_witness :
  "b" ∈ edges_of toy_links "a" ∧ ∃ n, dist toy_links n "b" "c" ∧ dist toy_links (S n) "a" "c".
Proof.
  destruct (next_hop_shortest toy_links "a" "c") as (_ & _ & Hhop).
  destruct (Hhop "b" toy_next_hop) as [[Habs _]|(_ & He & Hn)]; [discriminate|exact (conj He Hn)].
Defined.

Lemma relay_delivers_witness :
  relay 3 toy_network "a" toy_envelope 1 = Some (Delivered "c" (hops_taken toy_envelope 2)).
Proof.
  apply (relay_delivers toy_links toy_network 2 "a" toy_envelope 1 toy_dist (λ m x Hd _, toy_ready m x Hd)).
  - vm_compute. reflexivity.
  - vm_compute. discriminate.
  - vm_compute. discriminate.
Defined.

Lemma replay_window_witness :
  ∃ r2, handle_all (mark_seen (toy_router "c") "request").1 [] = Some r2 ∧
    handle r2 toy_envelope 1 = Some (r2, Drop Duplicate).
Proof.
  destruct (replay_window (toy_router "c") toy_envelope 1 (mark_seen (toy_router "c") "request").1
    (Deliver toy_envelope) []) as (r2 & Hr & _ & Hdup).
  - split; cbn; [constructor|set_solver|lia|lia].
  - vm_compute. reflexivity.
  - discriminate.
  - discriminate.
  - vm_compute. lia.
  - exists r2. exact (conj Hr (Hdup toy_envelope 1 eq_refl)).
Defined.

#[local] Instance toy_link_serialize : Serialize LinkStateBody := {|
  to_stdvec := λ b, Ok (String.append (lb_node_id b) (String.concat "," (lb_edges b)));
  from_bytes := λ _, Err "unused";
|}.

Definition toy_signed : LinkStateRecord :=
  match @sign_link_state toy_crypto toy_link_serialize (generate (toy_keypair "x")) ["b"; "a"; "b"] 7 with
  | Ok r => r
  | Err _ => toy_link "" []
  end.

Lemma link_state_newest_witness :
  @insert_link_state toy_crypto toy_link_serialize ∅ toy_signed "kx"
  = Ok (<["lycoris/node-id/1#kx" := toy_signed]> ∅, true) ∧ NoDup (edges toy_signed).
Proof.
  destruct (@link_state_newest toy_crypto toy_crypto_laws toy_link_serialize ∅ (generate (toy_keypair "x"))
    ["b"; "a"; "b"] 7 toy_signed) as (Hnd & _ & Hins & _).
  - vm_compute. reflexivity.
  - exact (conj Hins Hnd).
Defined.
