(* ===== verification/Directory.v ===== *)
(** * The peer directory ([crates/overlay/src/link/directory.rs])

    Where authorized nodes can be dialled: addresses per node with their
    source and expiry, the choice of the best one, and the exponential backoff
    between attempts. Instants and durations are nanoseconds. *)

From S2P Require Import Prelude.
From S2P Require Import Identity.

(** [Multiaddr] in its byte form, which is how it is ordered. What protocols an
    address holds is the business of [libp2p]. *)
Abbreviation Multiaddr := string.

Class Addressing := {
  addr_quic : Multiaddr → bool;
  addr_tcp : Multiaddr → bool;
}.

(** [Duration::MAX] *)
Definition duration_max : Z := u64_max * 1000000000 + 999999999.
Definition duration_saturating_mul (d factor : Z) : Z := Z.min (d * factor) duration_max.

(** [1_u32.checked_shl(n)] *)
Definition u32_checked_shl (a n : Z) : option Z :=
  if decide (n < 32) then Some (u32_wrap (Z.shiftl a n)) else None.

Inductive AddressSource : Type := Configured | Mdns.

#[export] Instance AddressSource_eq_dec : EqDecision AddressSource.
Proof. solve_decision. Defined.

(** [source as u8], and the order it derives. *)
Definition source_as_u8 (s : AddressSource) : Z := match s with Configured => 0 | Mdns => 1 end.
Definition source_min (a b : AddressSource) : AddressSource :=
  match a with Configured => Configured | Mdns => b end.

Record PeerAddress : Type := mkPeerAddress {
  pa_source : AddressSource;
  expires : option Z;
  last_success : option Z;
  last_failure : option Z;
}.

Definition expires_at (source : AddressSource) (now ttl : Z) : option Z :=
  match source with
  | Configured => None
  | Mdns => Some (now + ttl)
  end.

(** [PeerAddress::new] *)
Definition new_address (source : AddressSource) (now ttl : Z) : PeerAddress :=
  mkPeerAddress source (expires_at source now ttl) None None.

Definition refresh (a : PeerAddress) (source : AddressSource) (now ttl : Z) : PeerAddress :=
  let s := source_min (pa_source a) source in
  mkPeerAddress s (expires_at s now ttl) (last_success a) (last_failure a).

Record PeerDirectoryEntry : Type := mkEntry {
  e_peer_id : PeerId;
  addresses : gmap Multiaddr PeerAddress;
  attempts : Z;
  next_attempt_at : option Z;
  paused : bool;
}.

(** [PeerDirectoryEntry::new] *)
Definition new_entry (peer : PeerId) : PeerDirectoryEntry := mkEntry peer ∅ 0 None false.

(** [Iterator::min_by_key]: the first of the smallest. *)
Fixpoint min_from `{Ord K} {A} (key : A → K) (best : A) (l : list A) : A :=
  match l with
  | [] => best
  | x :: l' => if ord_gtb (key best) (key x) then min_from key x l' else min_from key best l'
  end.
Definition min_by_key `{Ord K} {A} (key : A → K) (l : list A) : option A :=
  match l with [] => None | x :: l' => Some (min_from key x l') end.

Section entries.
Context `{!Addressing}.

Definition address_rank (address : Multiaddr) (source : AddressSource) : Z * Z * bytes :=
  let transport :=
    match addr_quic address, addr_tcp address with
    | true, _ => 0
    | false, true => 1
    | false, false => 2
    end in
  (transport, source_as_u8 source, address).

Definition candidate (e : PeerDirectoryEntry) (now : Z) : option Multiaddr :=
  if paused e || match next_attempt_at e with Some deadline => bool_decide (deadline > now) | None => false end
  then None
  else fst <$> min_by_key (λ '(address, record), address_rank address (pa_source record))
                 (btree_iter (addresses e)).

(** [PeerDirectoryEntry::note_success] *)
Definition entry_success (e : PeerDirectoryEntry) (address : Multiaddr) (now : Z) : PeerDirectoryEntry :=
  let as' :=
    match addresses e !! address with
    | Some a => <[address := mkPeerAddress (pa_source a) (expires a) (Some now) (last_failure a)]> (addresses e)
    | None => addresses e
    end in
  mkEntry (e_peer_id e) as' 0 None (paused e).

Definition backoff_delay (attempts min_delay max_delay : Z) : Z :=
  let factor := default u32_max (u32_checked_shl 1 (Z.min attempts 20)) in
  Z.min (duration_saturating_mul min_delay factor) max_delay.

(** [PeerDirectoryEntry::note_failure] *)
Definition entry_failure (e : PeerDirectoryEntry) (address : option Multiaddr) (now min_delay max_delay : Z)
    : PeerDirectoryEntry :=
  let delay := backoff_delay (attempts e) min_delay max_delay in
  let as' :=
    match address with
    | Some address =>
        match addresses e !! address with
        | Some a => <[address := mkPeerAddress (pa_source a) (expires a) (last_success a) (Some now)]> (addresses e)
        | None => addresses e
        end
    | None => addresses e
    end in
  mkEntry (e_peer_id e) as' (u32_saturating_add (attempts e) 1) (Some (now + delay)) (paused e).

(** [PeerDirectoryEntry::note_connection_closed] *)
Definition entry_closed (e : PeerDirectoryEntry) (now min_delay : Z) : PeerDirectoryEntry :=
  if negb (paused e) && match next_attempt_at e with None => true | Some _ => false end
  then mkEntry (e_peer_id e) (addresses e) (attempts e) (Some (now + min_delay)) (paused e)
  else e.

(** ** The directory *)

Definition PeerDirectory : Type := gmap NodeId PeerDirectoryEntry.

(** [if let Some(entry) = self.entries.get_mut(&node_id) { .. }] *)
Definition update_entry (d : PeerDirectory) (n : NodeId) (f : PeerDirectoryEntry → PeerDirectoryEntry)
    : PeerDirectory :=
  match d !! n with Some e => <[n := f e]> d | None => d end.

(** [debug_assert_eq!(entry.peer_id, peer_id)] is compiled out of a release
    build: an entry keeps the peer id it was created with. *)
Definition record (d : PeerDirectory) (n : NodeId) (peer : PeerId) (address : Multiaddr)
    (source : AddressSource) (now ttl : Z) : PeerDirectory :=
  let e := default (new_entry peer) (d !! n) in
  let a :=
    match addresses e !! address with
    | Some a => refresh a source now ttl
    | None => new_address source now ttl
    end in
  <[n := mkEntry (e_peer_id e) (<[address := a]> (addresses e)) (attempts e) (next_attempt_at e) (paused e)]> d.

Definition remove (d : PeerDirectory) (peer : PeerId) (address : Multiaddr) : PeerDirectory :=
  (λ e, if decide (e_peer_id e = peer)
        then mkEntry (e_peer_id e) (delete address (addresses e)) (attempts e) (next_attempt_at e) (paused e)
        else e) <$> d.

Definition live (now : Z) (p : Multiaddr * PeerAddress) : Prop :=
  match expires p.2 with Some deadline => deadline > now | None => True end.
#[export] Instance live_dec now p : Decision (live now p).
Proof. unfold live. destruct (expires p.2); apply _. Defined.

Definition expire (d : PeerDirectory) (now : Z) : PeerDirectory :=
  (λ e, mkEntry (e_peer_id e) (filter (live now) (addresses e)) (attempts e) (next_attempt_at e) (paused e)) <$> d.

Definition resume (d : PeerDirectory) (n : NodeId) : PeerDirectory :=
  update_entry d n (λ e, mkEntry (e_peer_id e) (addresses e) (attempts e) None false).

Definition pause (d : PeerDirectory) (n : NodeId) : PeerDirectory :=
  update_entry d n (λ e, mkEntry (e_peer_id e) (addresses e) (attempts e) (next_attempt_at e) true).

Definition retain (d : PeerDirectory) (keep : NodeId → bool) : PeerDirectory :=
  filter (λ p, keep p.1 = true) d.

Definition candidates (d : PeerDirectory) (now : Z) : list (NodeId * PeerId * Multiaddr) :=
  omap (λ '(n, e), (λ address, (n, e_peer_id e, address)) <$> candidate e now) (btree_iter d).

Definition note_success (d : PeerDirectory) (n : NodeId) (address : Multiaddr) (now : Z) : PeerDirectory :=
  update_entry d n (λ e, entry_success e address now).

Definition note_failure (d : PeerDirectory) (n : NodeId) (address : option Multiaddr)
    (now min_delay max_delay : Z) : PeerDirectory :=
  update_entry d n (λ e, entry_failure e address now min_delay max_delay).

Definition note_connection_closed (d : PeerDirectory) (n : NodeId) (now min_delay : Z) : PeerDirectory :=
  update_entry d n (λ e, entry_closed e now min_delay).
End entries.

(** ** The best address *)

Lemma min_from_spec `{Ord K} {A} (key : A → K) best l :
  (min_from key best l = best ∨ min_from key best l ∈ l) ∧
  ord_le (key (min_from key best l)) (key best) ∧ ∀ x, x ∈ l → ord_le (key (min_from key best l)) (key x).
Proof.
  revert best. induction l as [|y l IH]; intros best; cbn [min_from].
  - split_and!; [by left|done|by intros x ?%elem_of_nil].
  - destruct (ord_gtb (key best) (key y)) eqn:E.
    + destruct (IH y) as (Hin & Hy & Hl). apply ord_gtb_spec in E. split_and!.
      * right. destruct Hin as [->|?]; [by left|by right].
      * etrans; [exact Hy|]. apply ord_le_lteq. by left.
      * intros x [->|Hx]%elem_of_cons; auto.
    + destruct (IH best) as (Hin & Hb & Hl). apply ord_gtb_false in E. split_and!.
      * destruct Hin as [->|?]; [by left|right; by right].
      * done.
      * intros x [->|Hx]%elem_of_cons; [by etrans|auto].
Qed.

Lemma min_by_key_spec `{Ord K} {A} (key : A → K) l :
  match min_by_key key l with
  | Some x => x ∈ l ∧ ∀ y, y ∈ l → ord_le (key x) (key y)
  | None => l = []
  end.
Proof.
  destruct l as [|x l]; [done|]. cbn [min_by_key]. destruct (min_from_spec key x l) as (Hin & Hx & Hl). split.
  - destruct Hin as [->|?]; [by left|by right].
  - intros y [->|Hy]%elem_of_cons; auto.
Qed.

Section choice.
Context `{!Addressing}.

(** An entry may be dialled at [now]. *)
Definition due (e : PeerDirectoryEntry) (now : Z) : Prop :=
  paused e = false ∧ ∀ t, next_attempt_at e = Some t → t ≤ now.

Definition rank_of (a : Multiaddr) (r : PeerAddress) : Z * Z * bytes := address_rank a (pa_source r).

Definition best_address (e : PeerDirectoryEntry) (a : Multiaddr) : Prop :=
  ∃ r, addresses e !! a = Some r ∧ ∀ a' r', addresses e !! a' = Some r' → ord_le (rank_of a r) (rank_of a' r').

Lemma due_spec e now :
  paused e || match next_attempt_at e with Some deadline => bool_decide (deadline > now) | None => false end = false
  ↔ due e now.
Proof.
  unfold due. rewrite orb_false_iff. destruct (next_attempt_at e) as [t|].
  - rewrite bool_decide_eq_false. split; [intros [? ?]; split; [done|]; intros ? [= <-]; lia|].
    intros [? Ht]. specialize (Ht t eq_refl). split; [done|lia].
  - split; [by intros [? _]|by intros [? _]].
Qed.

Lemma address_rank_inj a b s t : address_rank a s = address_rank b t → a = b.
Proof. unfold address_rank. congruence. Qed.

Lemma candidate_spec e now a : candidate e now = Some a ↔ due e now ∧ best_address e a.
Proof.
  unfold candidate. destruct (paused e || _) eqn:Edue.
  { split; [done|]. intros [Hd%due_spec _]. congruence. }
  apply due_spec in Edue. pose proof (min_by_key_spec (λ '(address, record), address_rank address (pa_source record))
    (btree_iter (addresses e))) as Hmin.
  destruct (min_by_key _ _) as [[b r]|]; cbn [fmap option_fmap option_map fst].
  - destruct Hmin as [Hin Hle]. apply elem_of_btree_iter in Hin.
    assert (best_address e b) as Hb.
    { exists r. split; [done|]. intros a' r' Hr'. apply (Hle (a', r')). by apply elem_of_btree_iter. }
    split; [by intros [= <-]|]. intros (_ & r' & Hr' & Hle'). f_equal.
    apply (address_rank_inj _ _ (pa_source r) (pa_source r')). apply (anti_symm ord_le).
    + apply (Hle (a, r')). by apply elem_of_btree_iter.
    + by apply (Hle' b r).
  - split; [done|]. intros (_ & r' & Hr' & _). exfalso.
    apply elem_of_btree_iter in Hr'. rewrite Hmin in Hr'. by apply elem_of_nil in Hr'.
Qed.

Lemma candidate_None e now : candidate e now = None ↔ ¬ due e now ∨ addresses e = ∅.
Proof.
  unfold candidate. destruct (paused e || _) eqn:Edue.
  { split; [|done]. intros _. left. intros Hd%due_spec. congruence. }
  apply due_spec in Edue. pose proof (min_by_key_spec (λ '(address, record), address_rank address (pa_source record))
    (btree_iter (addresses e))) as Hmin.
  destruct (min_by_key _ _) as [[b r]|]; cbn [fmap option_fmap option_map fst].
  - split; [done|]. intros [?|Hemp]; [done|]. destruct Hmin as [Hin _].
    apply elem_of_btree_iter in Hin. by rewrite Hemp, lookup_empty in Hin.
  - split; [|done]. intros _. right. apply map_empty. intros i. destruct (addresses e !! i) as [r|] eqn:E; [|done].
    apply elem_of_btree_iter in E. rewrite Hmin in E. by apply elem_of_nil in E.
Qed.
End choice.

(** ** Backoff *)

Lemma backoff_delay_eq n lo hi :
  0 ≤ n → hi ≤ duration_max → backoff_delay n lo hi = Z.min (lo * 2 ^ Z.min n 20) hi.
Proof.
  intros Hn Hhi. unfold backoff_delay, u32_checked_shl. rewrite decide_True by lia. cbn [default].
  rewrite Z.shiftl_1_l. unfold u32_wrap. rewrite Z.mod_small; last first.
  { split; [by apply Z.pow_nonneg|]. apply Z.pow_lt_mono_r; lia. }
  unfold duration_saturating_mul, id. lia.
Qed.

Lemma backoff_delay_mono n m lo hi :
  0 ≤ n ≤ m → 0 ≤ lo → hi ≤ duration_max → backoff_delay n lo hi ≤ backoff_delay m lo hi.
Proof.
  intros Hnm Hlo Hhi. rewrite !backoff_delay_eq by lia.
  assert (2 ^ Z.min n 20 ≤ 2 ^ Z.min m 20) as Hp by (apply Z.pow_le_mono_r; lia).
  assert (lo * 2 ^ Z.min n 20 ≤ lo * 2 ^ Z.min m 20) by (apply Z.mul_le_mono_nonneg_l; lia). lia.
Qed.

(** A run of failed attempts, each with its address and its time. *)
Definition failures (lo hi : Z) (e : PeerDirectoryEntry) (fs : list (option Multiaddr * Z)) : PeerDirectoryEntry :=
  foldl (λ e '(a, now), entry_failure e a now lo hi) e fs.

Lemma failures_attempts lo hi e fs :
  0 ≤ attempts e → attempts e + Z.of_nat (length fs) ≤ u32_max →
  attempts (failures lo hi e fs) = attempts e + Z.of_nat (length fs) ∧
  e_peer_id (failures lo hi e fs) = e_peer_id e ∧ paused (failures lo hi e fs) = paused e ∧
  (∀ a, is_Some (addresses (failures lo hi e fs) !! a) ↔ is_Some (addresses e !! a)).
Proof.
  revert e. induction fs as [|[a now] fs IH]; intros e Hnn Hmax; cbn [failures foldl length] in *.
  - split_and!; [lia|done..].
  - destruct (IH (entry_failure e a now lo hi)) as (H1 & H2 & H3 & H4).
    + cbn. unfold u32_saturating_add, u32_max in *. lia.
    + cbn. unfold u32_saturating_add, u32_max in *. lia.
    + unfold failures in *. rewrite H1, H2, H3. cbn. unfold u32_saturating_add, u32_max in *. split_and!; [lia|done..|].
      intros b. rewrite H4. cbn. destruct a as [a|]; [|done]. destruct (addresses e !! a) as [r|] eqn:E; [|done].
      rewrite lookup_insert_is_Some. destruct (decide (a = b)) as [->|]; [|tauto]. rewrite E. naive_solver.
Qed.

(** ** Properties *)

(** Retries back off exponentially and within bounds: after a success and
    [k + 1] failures in a row, the last at time [t], the node is not dialled
    before [t + min(lo * 2^min(k, 20), hi)]; from then on it is, if it has an
    address and is not paused; so never later than [t + hi], and never sooner
    after more failures. *)
Theorem backoff_schedule `{!Addressing} lo hi e ok_address ok_at fs a t :
  0 < lo → lo ≤ hi ≤ duration_max → Z.of_nat (length fs) < u32_max →
  let e' := failures lo hi (entry_success e ok_address ok_at) (fs ++ [(a, t)]) in
  let delay := Z.min (lo * 2 ^ Z.min (Z.of_nat (length fs)) 20) hi in
  next_attempt_at e' = Some (t + delay) ∧ lo ≤ delay ≤ hi ∧
  (∀ n, (n <= length fs)%nat → Z.min (lo * 2 ^ Z.min (Z.of_nat n) 20) hi ≤ delay) ∧
  (∀ now, now < t + delay → candidate e' now = None) ∧
  (∀ now, t + delay ≤ now → paused e = false → addresses e ≠ ∅ → is_Some (candidate e' now)).
Proof.
  intros Hlo Hhi Hlen e' delay. set (e0 := entry_success e ok_address ok_at) in *.
  destruct (failures_attempts lo hi e0 fs) as (Hatt & _ & Hpause & Haddr); [cbn; lia|cbn; lia|].
  assert (delay = backoff_delay (attempts (failures lo hi e0 fs)) lo hi) as Hdelay.
  { rewrite Hatt. cbn. by rewrite backoff_delay_eq by lia. }
  assert (next_attempt_at e' = Some (t + delay)) as Hnext.
  { unfold e', failures. rewrite foldl_app. cbn. by rewrite Hdelay. }
  split_and!; [done|..].
  - unfold delay. assert (2 ^ 0 ≤ 2 ^ Z.min (Z.of_nat (length fs)) 20) by (apply Z.pow_le_mono_r; lia). nia.
  - unfold delay. lia.
  - intros n Hn. pose proof (backoff_delay_mono (Z.of_nat n) (Z.of_nat (length fs)) lo hi) as Hm.
    rewrite !backoff_delay_eq in Hm by lia. unfold delay. lia.
  - intros now Hnow. apply candidate_None. left. intros [_ Hd]. specialize (Hd _ Hnext). lia.
  - intros now Hnow Hp Hne. destruct (candidate e' now) eqn:Ec; [eauto|exfalso].
    apply candidate_None in Ec as [Hd|Hemp].
    + apply Hd. split; [|rewrite Hnext; intros ? [= <-]; lia].
      unfold e', failures. rewrite foldl_app. cbn. unfold failures in Hpause. by rewrite Hpause.
    + apply Hne. apply map_empty. intros b. destruct (addresses e !! b) as [r|] eqn:Eb; [|done]. exfalso.
      destruct (failures_attempts lo hi e0 (fs ++ [(a, t)])) as (_ & _ & _ & Hall); [cbn; lia|rewrite length_app; cbn; lia|].
      assert (is_Some (addresses e0 !! b)) as Hb.
      { cbn. destruct (addresses e !! ok_address) eqn:Eo; [|eauto].
        rewrite lookup_insert_is_Some. destruct (decide (ok_address = b)); [by left|right; eauto]. }
      apply Hall in Hb. fold e' in Hb. rewrite Hemp, lookup_empty in Hb. by destruct Hb.
Qed.

(** The directory dials the right addresses: after expiry it offers, for
    each node that is not paused and whose backoff is over, exactly one address,
    under the node's recorded peer id: the live one that ranks first by
    transport (QUIC before TCP), then source (configured before discovered),
    then bytes. *)
Theorem candidates_best `{!Addressing} d now n peer a :
  (n, peer, a) ∈ candidates (expire d now) now ↔
  ∃ e, d !! n = Some e ∧ peer = e_peer_id e ∧ due e now ∧
    ∃ r, addresses e !! a = Some r ∧ live now (a, r) ∧
      ∀ a' r', addresses e !! a' = Some r' → live now (a', r') → ord_le (rank_of a r) (rank_of a' r').
Proof.
  unfold candidates. rewrite list_elem_of_omap. split.
  - intros ([m e1] & Hin & Hc). apply elem_of_btree_iter in Hin. unfold expire in Hin.
    apply lookup_fmap_Some in Hin as (e & <- & He). destruct (candidate _ now) as [b|] eqn:Ec; [|done].
    injection Hc as -> <- ->. apply candidate_spec in Ec as [Hd (r & Hr & Hbest)].
    cbn [addresses] in *. apply map_lookup_filter_Some in Hr as [Hr Hl].
    exists e. split_and!; [done|done|done|]. exists r. split_and!; [done|done|].
    intros a' r' Hr' Hl'. apply Hbest. by apply map_lookup_filter_Some.
  - intros (e & He & -> & Hd & r & Hr & Hl & Hbest).
    eexists (n, mkEntry _ _ _ _ _). split.
    + apply elem_of_btree_iter. unfold expire. apply lookup_fmap_Some. exists e. split; [reflexivity|done].
    + assert (candidate (mkEntry (e_peer_id e) (filter (live now) (addresses e)) (attempts e)
        (next_attempt_at e) (paused e)) now = Some a) as ->; [|done].
      apply candidate_spec. split; [done|]. exists r. cbn [addresses]. split; [by apply map_lookup_filter_Some|].
      intros a' r' [Hr' Hl']%map_lookup_filter_Some. by apply Hbest.
Qed.

(** ** Witnesses *)

#[export] Instance toy_addressing : Addressing := {|
  addr_quic := λ a, String.prefix "quic" a;
  addr_tcp := λ a, String.prefix "tcp" a;
|}.

Definition toy_entry : PeerDirectoryEntry :=
  mkEntry "peer" (<["quic1" := new_address Mdns 0 100]> (<["tcp1" := new_address Configured 0 100]> ∅)) 0 None false.

Lemma backoff_schedule_witness :
  let e := failures 1 30 (entry_success toy_entry "tcp1" 5) ([(None, 6); (Some "quic1", 8)] ++ [(None, 12)]) in
  next_attempt_at e = Some 16 ∧ is_Some (candidate e 16).
Proof.
  destruct (@backoff_schedule toy_addressing 1 30 toy_entry "tcp1" 5 [(None, 6); (Some "quic1", 8)] None 12)
    as (Hnext & _ & _ & _ & Hc).
  - lia.
  - vm_compute. split; discriminate.
  - vm_compute. reflexivity.
  - split; [exact Hnext|]. apply Hc; [vm_compute; discriminate|reflexivity|]. intros Habs.
    apply (f_equal (λ m : gmap Multiaddr PeerAddress, size m)) in Habs. revert Habs. vm_compute. discriminate.
Defined.
