(* ===== verification/Admission.v ===== *)
(** * Admission ([crates/overlay/src/admission.rs])

    How a sponsor admits a node: the quarantine of candidates, the challenge,
    the join-key proof, the signed record and the checkpoint the joiner
    validates. HMAC, the serializer and the random source are third-party. *)

From S2P Require Import Prelude.
From S2P Require Import Identity.
From S2P Require Import Protocol.
From S2P Require Import Authorization.
From S2P Require Import Effective.
From S2P Require Import Replication.
From S2P Require Import Trust.

Definition MAX_QUARANTINED : nat := 128.

Record AdmissionCandidate : Type := mkCandidate {
  c_identity : PublicIdentity;
  c_nonce : bytes;
}.

#[export] Instance PublicIdentity_eq_dec : EqDecision PublicIdentity.
Proof. solve_decision. Defined.
#[export] Instance AdmissionCandidate_eq_dec : EqDecision AdmissionCandidate.
Proof. solve_decision. Defined.

Record AdmissionChallenge : Type := mkChallenge {
  ch_cluster_id : ClusterId;
  sponsor_node_id : NodeId;
  sponsor_peer_id : bytes;
  ch_nonce : bytes;
}.

#[export] Instance AdmissionChallenge_eq_dec : EqDecision AdmissionChallenge.
Proof. solve_decision. Defined.

Record JoinProof : Type := mkProof {
  p_candidate : AdmissionCandidate;
  p_challenge : AdmissionChallenge;
  mac : bytes;
}.

Record EnrollmentOutcome : Type := mkEnrollmentOutcome {
  eo_record : AuthorizationRecord;
  eo_records : list AuthorizationRecord;
}.

Inductive AdmissionRequest : Type :=
| Begin (candidate : AdmissionCandidate)
| Prove (proof : JoinProof).

(** What the sponsor sends back and the joiner validates. *)
Record AdmissionOutcome : Type := mkOutcome {
  ao_record : AuthorizationRecord;
  ao_records : list AuthorizationRecord;
}.

Inductive AdmissionResponse : Type :=
| ChallengeResponse (challenge : AdmissionChallenge)
| AdmittedOutcome (outcome : AdmissionOutcome)
| Rejected (reason : string).

Inductive AdmissionError : Type :=
| AdmissionIdentity (error : IdentityError)
| AdmissionAuthorization (error : AuthorizationError)
| AdmissionSerialization (error : string)
| RandomGeneration
| NonInitialIdentity (n : NodeId)
| CandidatePeerMismatch (n : NodeId)
| IdentityConflict (n : NodeId)
| UnknownCandidate (n : NodeId)
| ProofMismatch (n : NodeId)
| InvalidJoinProof
| JoinKeyRequired
| QuarantineFull
| SponsorNotAuthorized (n : NodeId)
| SponsorPeerMismatch
| SponsorPeerNotAuthorized
| OutcomeIdentityMismatch (n : NodeId)
| SponsorMismatch (expected actual : NodeId).

Record PendingAdmission : Type := mkPending {
  pending_candidate : AdmissionCandidate;
  pending_challenge : AdmissionChallenge;
  pending_sponsor : NodeId;
  resume_record : option RecordId;
}.

(** The fields the join proof covers, in order. *)
Definition Transcript : Type :=
  Z * ClusterId * bytes * bytes * bytes * bytes * NodeId * NodeId.

(** [ring::hmac] with SHA-256, [postcard] on transcripts, [PeerId::from_bytes]. *)
Class AdmissionCrypto := {
  hmac_sign : bytes → bytes → bytes;
  hmac_verify : bytes → bytes → bytes → bool;
  transcript_to_stdvec : Transcript → result bytes string;
  peer_id_from_bytes : bytes → option PeerId;
}.

(** Verification recomputes the tag; a peer id decodes from its own bytes. *)
Class AdmissionLaws `{!Crypto} `{!AdmissionCrypto} : Prop := {
  hmac_verify_spec : ∀ key msg tag, hmac_verify key msg tag = true ↔ tag = hmac_sign key msg;
  peer_id_round_trip : ∀ pk, peer_id_from_bytes (to_peer_id pk) = Some (to_peer_id pk);
}.

Section admission.
Context `{!Crypto} `{!Postcard} `{!AdmissionCrypto}.

(** The random source yields a nonce or fails. *)
Definition random_nonce (rng : option bytes) : result bytes AdmissionError := ok_or rng RandomGeneration.

Definition with_nonce (i : PublicIdentity) (nonce : bytes) : result AdmissionCandidate AdmissionError :=
  let? i := map_err AdmissionIdentity
    (new_public_identity (pi_node_id i) (pi_peer_id i) (pi_public_key i) (pi_initial_public_key i)) in
  Ok (mkCandidate i nonce).

(** [AdmissionCandidate::new] *)
Definition new_candidate (i : NodeIdentity) (rng : option bytes) : result AdmissionCandidate AdmissionError :=
  let? nonce := random_nonce rng in
  with_nonce (public_identity i) nonce.

Definition candidate_node (c : AdmissionCandidate) : NodeId := pi_node_id (c_identity c).

Definition proof_transcript (c : AdmissionCandidate) (ch : AdmissionChallenge) : result bytes AdmissionError :=
  map_err AdmissionSerialization (transcript_to_stdvec
    (PROTOCOL_VERSION, ch_cluster_id ch, pi_peer_id (c_identity c), sponsor_peer_id ch, c_nonce c, ch_nonce ch,
     candidate_node c, sponsor_node_id ch)).

(** [JoinProof::create] *)
Definition create_proof (join_key : bytes) (c : AdmissionCandidate) (ch : AdmissionChallenge)
    : result JoinProof AdmissionError :=
  let? transcript := proof_transcript c ch in
  Ok (mkProof c ch (hmac_sign join_key transcript)).

(** [JoinProof::verify] *)
Definition verify_proof (p : JoinProof) (join_key : bytes) : result unit AdmissionError :=
  let? transcript := proof_transcript (p_candidate p) (p_challenge p) in
  if hmac_verify join_key transcript (mac p) then Ok tt else Err InvalidJoinProof.

Definition record_matches_identity (r : AuthorizationRecord) (i : PublicIdentity) : bool :=
  bool_decide (node_id r = pi_node_id i ∧ peer_id r = pi_peer_id i ∧ public_key r = pi_public_key i ∧
               initial_public_key r = pi_initial_public_key i).

Definition ensure_authenticated_peer (c : AdmissionCandidate) (authenticated_peer : PeerId)
    : result unit AdmissionError :=
  if decide (pi_peer_id (c_identity c) ≠ authenticated_peer)
  then Err (CandidatePeerMismatch (candidate_node c)) else Ok tt.

(** [AdmissionOutcome::validate_for]; [None] is a merge out of fuel. *)
Definition validate_for (o : AdmissionOutcome) (c : AdmissionCandidate) (ch : AdmissionChallenge)
    (authenticated_sponsor : PeerId) : option (result AuthorizationRegistry AdmissionError) :=
  if decide (sponsor_peer_id ch ≠ authenticated_sponsor) then Some (Err SponsorPeerMismatch)
  else
    registry ← from_records (ch_cluster_id ch) (ao_records o);
    Some (
      let? registry := map_err AdmissionAuthorization registry in
      let? sponsor_node := ok_or (node_for_peer registry authenticated_sponsor) SponsorPeerNotAuthorized in
      if decide (sponsor_node ≠ sponsor_node_id ch) then Err SponsorPeerMismatch
      else
        let i := c_identity c in
        let mismatch := OutcomeIdentityMismatch (pi_node_id i) in
        let? active := ok_or (active_record_for_node registry (pi_node_id i)) mismatch in
        let? active_peer := ok_or (active_peer_for_node peer_id_from_bytes registry (pi_node_id i)) mismatch in
        if decide (id active ≠ id (ao_record o)) then Err mismatch
        else if negb (record_matches_identity (ao_record o) i) then Err mismatch
        else if decide (active_peer ≠ pi_peer_id i) then Err mismatch
        else Ok registry).

(** ** Enrollment *)

Record Enrollment : Type := mkEnrollment {
  registry : AuthorizationRegistry;
  join_key : option bytes;
  quarantined : gmap NodeId PendingAdmission;
}.

(** [Enrollment::new] *)
Definition new_enrollment (reg : AuthorizationRegistry) (key : option bytes) : Enrollment :=
  mkEnrollment reg key ∅.

Definition with_registry (en : Enrollment) (reg : AuthorizationRegistry) : Enrollment :=
  mkEnrollment reg (join_key en) (quarantined en).

Definition with_quarantined (en : Enrollment) (q : gmap NodeId PendingAdmission) : Enrollment :=
  mkEnrollment (registry en) (join_key en) q.

Definition merge_checkpoint (en : Enrollment) (rs : list AuthorizationRecord)
    : option (Enrollment * result nat AuthorizationError) :=
  '(reg, res) ← merge (registry en) rs;
  Some (with_registry en reg, res).

Definition adopt_registry (en : Enrollment) (reg : AuthorizationRegistry) : Enrollment :=
  mkEnrollment reg (join_key en) ∅.

Definition quarantined_candidates (en : Enrollment) : list AdmissionCandidate :=
  pending_candidate <$> btree_values (quarantined en).

Definition ensure_sponsor (en : Enrollment) (sponsor : NodeIdentity) : result AuthorizationRecord AdmissionError :=
  let unauthorized := SponsorNotAuthorized (ni_node_id sponsor) in
  let? peer := ok_or
    (p ← active_peer_for_node peer_id_from_bytes (registry en) (ni_node_id sponsor);
     if decide (p = peer_id_bytes sponsor) then Some p else None) unauthorized in
  let? r := ok_or (active_record_for_node (registry en) (ni_node_id sponsor)) unauthorized in
  if decide (peer_id r ≠ peer) then Err unauthorized else Ok r.

(** The record an admitted candidate resumes from, if it is active already. *)
Definition resume_of (en : Enrollment) (c : AdmissionCandidate) (authenticated_peer : PeerId)
    (st : AuthorizationStatus) : result (option RecordId) AdmissionError :=
  let n := candidate_node c in
  match st with
  | Unknown =>
      match node_for_peer (registry en) authenticated_peer with
      | Some _ => Err (IdentityConflict n)
      | None => if negb (is_initial_identity (c_identity c)) then Err (NonInitialIdentity n) else Ok None
      end
  | Active r => if record_matches_identity r (c_identity c) then Ok (Some (id r)) else Err (IdentityConflict n)
  | Revoked _ | Conflicted _ => Err (IdentityConflict n)
  end.

Definition begin (en : Enrollment) (c : AdmissionCandidate) (authenticated_peer : PeerId)
    (sponsor : NodeIdentity) (rng : option bytes)
    : option (Enrollment * result AdmissionChallenge AdmissionError) :=
  match ensure_sponsor en sponsor, ensure_authenticated_peer c authenticated_peer with
  | Err e, _ => Some (en, Err e)
  | Ok _, Err e => Some (en, Err e)
  | Ok _, Ok _ =>
      let n := candidate_node c in
      st ← status (registry en) n;
      match resume_of en c authenticated_peer st with
      | Err e => Some (en, Err e)
      | Ok resume =>
          if decide (quarantined en !! n = None ∧ MAX_QUARANTINED <= size (quarantined en))%nat
          then Some (en, Err QuarantineFull)
          else
            match random_nonce rng with
            | Err e => Some (en, Err e)
            | Ok nonce =>
                let ch := mkChallenge (reg_cluster_id (registry en)) (ni_node_id sponsor)
                            (peer_id_bytes sponsor) nonce in
                Some (with_quarantined en
                        (<[n := mkPending c ch (ni_node_id sponsor) resume]> (quarantined en)), Ok ch)
            end
      end
  end.

Definition admit_pending (en : Enrollment) (n : NodeId) (sponsor : NodeIdentity)
    : option (Enrollment * result EnrollmentOutcome AdmissionError) :=
  match quarantined en !! n with
  | None => Some (en, Err (UnknownCandidate n))
  | Some pending =>
      if decide (pending_sponsor pending ≠ ni_node_id sponsor)
      then Some (en, Err (SponsorMismatch (pending_sponsor pending) (ni_node_id sponsor)))
      else
        match ensure_sponsor en sponsor with
        | Err e => Some (en, Err e)
        | Ok sponsor_record =>
            let released := with_quarantined en (delete n (quarantined en)) in
            match resume_record pending with
            | Some expected =>
                let resumed :=
                  r ← active_record_for_node (registry en) n;
                  if decide (id r = expected ∧
                             record_matches_identity r (c_identity (pending_candidate pending)) = true)
                  then Some r else None in
                match resumed with
                | None => Some (en, Err (IdentityConflict n))
                | Some r => Some (released, Ok (mkEnrollmentOutcome r (values (registry en))))
                end
            | None =>
                head ← authorizer_head (registry en) sponsor_record;
                match head with
                | Err e => Some (en, Err (AdmissionAuthorization e))
                | Ok head =>
                    match admit_record (reg_cluster_id (registry en)) (c_identity (pending_candidate pending))
                            sponsor_record head sponsor with
                    | Err e => Some (en, Err (AdmissionAuthorization e))
                    | Ok r =>
                        match insert (registry en) r with
                        | (reg, Err e) => Some (with_registry en reg, Err (AdmissionAuthorization e))
                        | (reg, Ok _) =>
                            Some (with_registry released reg, Ok (mkEnrollmentOutcome r (values reg)))
                        end
                    end
                end
            end
        end
  end.

Definition enroll_with_join_key (en : Enrollment) (p : JoinProof) (authenticated_peer : PeerId)
    (sponsor : NodeIdentity) : option (Enrollment * result EnrollmentOutcome AdmissionError) :=
  match join_key en with
  | None => Some (en, Err JoinKeyRequired)
  | Some key =>
      match ensure_authenticated_peer (p_candidate p) authenticated_peer with
      | Err e => Some (en, Err e)
      | Ok _ =>
          let n := candidate_node (p_candidate p) in
          match quarantined en !! n with
          | None => Some (en, Err (UnknownCandidate n))
          | Some pending =>
              if decide (pending_candidate pending ≠ p_candidate p ∨ pending_challenge pending ≠ p_challenge p)
              then Some (en, Err (ProofMismatch n))
              else
                match verify_proof p key with
                | Err e => Some (en, Err e)
                | Ok _ => admit_pending en n sponsor
                end
          end
      end
  end.

Definition approve (en : Enrollment) (n : NodeId) (sponsor : NodeIdentity)
    : option (Enrollment * result EnrollmentOutcome AdmissionError) :=
  match quarantined en !! n with
  | None => Some (en, Err (UnknownCandidate n))
  | Some _ => admit_pending en n sponsor
  end.
End admission.

(** ** Sponsors and checkpoints *)

Section sponsors.
Context `{!Crypto} `{!CryptoLaws} `{!Postcard} `{!AdmissionCrypto} `{!AdmissionLaws}.

(** A checkpoint holding every record of a registry rebuilds the registry. *)
Lemma from_records_values reg rank :
  wf_registry reg rank → from_records (reg_cluster_id reg) (values reg) = Some (Ok reg).
Proof.
  intros Hwf. unfold from_records, merge.
  destruct (merge_loop_complete reg rank Hwf (length (values reg)) (new (reg_cluster_id reg)) 0 (values reg))
    as [n ->]; [done| | | |done].
  - split; [done|]. apply map_empty_subseteq.
  - intros r Hr. left. by apply (elem_of_values reg rank Hwf).
  - intros i x Hx. right. apply (elem_of_values reg rank Hwf). unfold in_reg. by rewrite (wf_key _ _ Hwf _ _ Hx).
Qed.

Lemma active_record_Some reg n r : active_record_for_node reg n = Some r ↔ status reg n = Some (Active r).
Proof. unfold active_record_for_node. destruct (status reg n) as [[]|]; naive_solver. Qed.

Lemma ensure_sponsor_Ok en sponsor r :
  ensure_sponsor en sponsor = Ok r →
  status (registry en) (ni_node_id sponsor) = Some (Active r) ∧ peer_id r = peer_id_bytes sponsor ∧
  node_for_peer (registry en) (peer_id_bytes sponsor) = Some (ni_node_id sponsor).
Proof.
  unfold ensure_sponsor. rewrite result_bind_Ok. intros (peer & Hpeer%ok_or_Ok & Hr).
  rewrite result_bind_Ok in Hr. destruct Hr as (x & Hx%ok_or_Ok%active_record_Some & Hr).
  case_decide as Hp; [done|]. injection Hr as <-.
  apply bind_Some in Hpeer as (q & Hq & Hpeer). case_decide as Hq'; [|done]. injection Hpeer as <-. subst q.
  split_and!; [done|done|]. unfold active_peer_for_node in Hq.
  apply bind_Some in Hq as (y & _ & Hq). apply bind_Some in Hq as (z & _ & Hq).
  case_decide as Hz; [|done]. by injection Hq as <-.
Qed.

Lemma active_peer_Some reg n r pk :
  status reg n = Some (Active r) → peer_id r = to_peer_id pk → node_for_peer reg (peer_id r) = Some n →
  active_peer_for_node peer_id_from_bytes reg n = Some (peer_id r).
Proof.
  intros Hst%active_record_Some Hpk Hn. unfold active_peer_for_node. rewrite Hst. cbn.
  rewrite Hpk, peer_id_round_trip. cbn. rewrite <- Hpk, Hn. by rewrite decide_True.
Qed.

Lemma sponsor_accepted reg rank key q sponsor s :
  wf_registry reg rank → status reg (ni_node_id sponsor) = Some (Active s) →
  public_key s = public_key_bytes sponsor →
  node_for_peer reg (peer_id_bytes sponsor) = Some (ni_node_id sponsor) →
  ensure_sponsor (mkEnrollment reg key q) sponsor = Ok s ∧ peer_id s = peer_id_bytes sponsor ∧
  node_id s = ni_node_id sponsor.
Proof.
  intros Hwf Hst Hpk Hn. destruct (status_chain reg rank Hwf _ _ s Hst (or_introl eq_refl)) as (Hin & Hnode & _).
  destruct (validate_Ok reg s (wf_key _ _ Hwf) (wf_valid _ _ Hwf _ _ Hin)) as [_ _ (pk & Hkey & Hpeer) _ _ _].
  rewrite Hpk in Hkey. unfold public_key_bytes in Hkey. rewrite decode_public_key_encode in Hkey. injection Hkey as <-.
  assert (peer_id s = peer_id_bytes sponsor) as Hp by done. split_and!; [|done|done].
  unfold ensure_sponsor. cbn [registry].
  rewrite (active_peer_Some reg _ s _ Hst (eq_sym Hpeer)) by (by rewrite Hp). cbn. rewrite decide_True by done. cbn.
  apply active_record_Some in Hst. rewrite Hst. cbn. by rewrite decide_False by auto.
Qed.
End sponsors.

(** ** The joiner's side *)

Section joiner.
Context `{!Crypto} `{!CryptoLaws} `{!Postcard} `{!AdmissionCrypto} `{!AdmissionLaws}.
Context (reg : AuthorizationRegistry) (rank : RecordId → nat) (Hwf : wf_registry reg rank).
Context (s : AuthorizationRecord) (sn : NodeId) (Hs : status reg sn = Some (Active s)).
Context (Hsp : node_for_peer reg (peer_id s) = Some sn).
Context (c : AdmissionCandidate).
Context (Hpeers : ∀ m x, status reg m = Some (Active x) → peer_id x ≠ pi_peer_id (c_identity c)).

(** [reg'] is [reg] with the newcomer [r] in it. *)
Context (reg' : AuthorizationRegistry) (rank' : RecordId → nat) (Hwf' : wf_registry reg' rank').
Context (r : AuthorizationRecord) (Hr : status reg' (candidate_node c) = Some (Active r)).
Context (Hrid : record_matches_identity r (c_identity c) = true).
Context (Hold : ∀ m x, m ≠ candidate_node c → status reg' m = Some (Active x) ↔ status reg m = Some (Active x)).
Context (Hsn : sn ≠ candidate_node c).

Lemma record_matches_facts :
  node_id r = candidate_node c ∧ peer_id r = pi_peer_id (c_identity c).
Proof. unfold record_matches_identity in Hrid. apply bool_decide_eq_true in Hrid. naive_solver. Qed.

Lemma joiner_sees_sponsor : node_for_peer reg' (peer_id s) = Some sn.
Proof.
  apply (node_for_peer_spec reg rank _ _ Hwf) in Hsp as [_ Honly].
  apply (node_for_peer_spec reg' rank' _ _ Hwf'). split; [exists s; split; [by apply Hold|done]|].
  intros m x Hm Hp. destruct (decide (m = candidate_node c)) as [->|Hne].
  - exfalso. assert (x = r) as -> by congruence. apply (Hpeers sn s Hs).
    rewrite <- Hp. by destruct record_matches_facts.
  - apply Hold in Hm; [|done]. by eapply Honly.
Qed.

Lemma joiner_sees_itself : node_for_peer reg' (pi_peer_id (c_identity c)) = Some (candidate_node c).
Proof.
  destruct record_matches_facts as [_ Hp]. apply (node_for_peer_spec reg' rank' _ _ Hwf'). split; [eauto|].
  intros m x Hm Hx. destruct (decide (m = candidate_node c)) as [->|Hne]; [done|].
  exfalso. apply Hold in Hm; [|done]. by apply (Hpeers m x).
Qed.

Lemma joiner_validates nonce :
  validate_for (mkOutcome r (values reg')) c (mkChallenge (reg_cluster_id reg') sn (peer_id s) nonce) (peer_id s)
  = Some (Ok reg').
Proof.
  destruct record_matches_facts as [Hn Hp]. unfold validate_for. cbn [sponsor_peer_id ch_cluster_id ao_records].
  rewrite decide_False by auto. rewrite (from_records_values reg' rank' Hwf'). cbn.
  rewrite joiner_sees_sponsor. cbn. rewrite decide_False by auto.
  pose proof Hr as Hact. apply active_record_Some in Hact. fold (candidate_node c). rewrite Hact. cbn.
  destruct (status_chain reg' rank' Hwf' _ _ r Hr (or_introl eq_refl)) as (Hin & _).
  destruct (validate_Ok reg' r (wf_key _ _ Hwf') (wf_valid _ _ Hwf' _ _ Hin)) as [_ _ (pk & _ & Hpk) _ _ _].
  rewrite (active_peer_Some reg' _ r pk Hr (eq_sym Hpk)) by (rewrite Hp; apply joiner_sees_itself). cbn.
  rewrite decide_False by auto. rewrite Hrid. cbn. by rewrite decide_False by auto.
Qed.
End joiner.

(** ** The operations' effect on the state *)

Section operations.
Context `{!Crypto} `{!Postcard} `{!AdmissionCrypto}.

(** An admission consumes its pending entry and adds at most one record, or
    changes nothing. *)
Lemma admit_pending_cases en n sponsor en' res :
  admit_pending en n sponsor = Some (en', res) →
  match res with
  | Err _ => en' = en
  | Ok _ => quarantined en' = delete n (quarantined en) ∧ join_key en' = join_key en ∧
      (registry en' = registry en ∨ ∃ r, registry en' = (insert (registry en) r).1)
  end.
Proof.
  unfold admit_pending. destruct (quarantined en !! n) as [pending|]; [|by intros [= <- <-]].
  case_decide; [by intros [= <- <-]|]. destruct (ensure_sponsor en sponsor) as [s|]; [|by intros [= <- <-]].
  destruct (resume_record pending) as [expected|].
  - destruct (active_record_for_node _ _) as [r|]; cbn; [|by intros [= <- <-]].
    case_decide; [|by intros [= <- <-]]. intros [= <- <-]. cbn. auto.
  - destruct (authorizer_head _ _) as [[h|e]|]; cbn; [|by intros [= <- <-]|done].
    destruct (admit_record _ _ _ _ _) as [r|e]; [|by intros [= <- <-]].
    destruct (insert (registry en) r) as [reg [b|e]] eqn:Ei; intros [= <- <-].
    + cbn. split_and!; [done|done|]. right. exists r. by rewrite Ei.
    + assert (reg = registry en) as ->; [|by destruct en].
      unfold insert in Ei. destruct (records _ !! _); [done|]. destruct (validate _ _); [done|]. by injection Ei as <- _.
Qed.

Inductive EnrollOp : Type :=
| OpBegin (c : AdmissionCandidate) (peer : PeerId) (sponsor : NodeIdentity) (rng : option bytes)
| OpProve (p : JoinProof) (peer : PeerId) (sponsor : NodeIdentity)
| OpApprove (n : NodeId) (sponsor : NodeIdentity)
| OpMerge (rs : list AuthorizationRecord)
| OpAdopt (reg : AuthorizationRegistry).

Definition enroll_step (en : Enrollment) (op : EnrollOp) : option Enrollment :=
  match op with
  | OpBegin c peer sponsor rng => fst <$> begin en c peer sponsor rng
  | OpProve p peer sponsor => fst <$> enroll_with_join_key en p peer sponsor
  | OpApprove n sponsor => fst <$> approve en n sponsor
  | OpMerge rs => fst <$> merge_checkpoint en rs
  | OpAdopt reg => Some (adopt_registry en reg)
  end.

Fixpoint enroll_run (en : Enrollment) (ops : list EnrollOp) : option Enrollment :=
  match ops with
  | [] => Some en
  | op :: ops' => en' ← enroll_step en op; enroll_run en' ops'
  end.

(** An adopted registry was validated when it was built. *)
Definition adopts_valid (op : EnrollOp) : Prop :=
  match op with OpAdopt reg => ∃ rank, wf_registry reg rank | _ => True end.

Record wf_enrollment (en : Enrollment) : Prop := {
  we_registry : ∃ rank, wf_registry (registry en) rank;
  we_bound : (size (quarantined en) <= MAX_QUARANTINED)%nat;
  we_pending : ∀ n p, quarantined en !! n = Some p →
    candidate_node (pending_candidate p) = n ∧
    sponsor_node_id (pending_challenge p) = pending_sponsor p ∧
    ch_cluster_id (pending_challenge p) = reg_cluster_id (registry en);
}.

Lemma admit_pending_total en n sponsor : wf_enrollment en → ∃ p, admit_pending en n sponsor = Some p.
Proof.
  intros [[rank Hwf] _ _]. unfold admit_pending. destruct (quarantined en !! n) as [pending|]; [|eauto].
  case_decide; [eauto|]. destruct (ensure_sponsor en sponsor) as [s|]; [|eauto].
  destruct (resume_record pending); [destruct (_ ≫= _); eauto|].
  pose proof (authorizer_head_total (registry en) rank Hwf s) as Ht.
  destruct (authorizer_head (registry en) s) as [[h|e]|]; [|cbn; eauto|done]. cbn.
  destruct (admit_record _ _ _ _ _); [|eauto]. destruct (insert _ _) as [reg []]; eauto.
Qed.

Lemma wf_enrollment_admitted en n en' :
  wf_enrollment en → quarantined en' = delete n (quarantined en) →
  (registry en' = registry en ∨ ∃ r, registry en' = (insert (registry en) r).1) →
  wf_enrollment en' ∧ grows (registry en) (registry en').
Proof.
  intros [[rank Hwf] Hb Hp] Hq Hr.
  assert (grows (registry en) (registry en') ∧ ∃ rank', wf_registry (registry en') rank') as [Hg Hwf'].
  { destruct Hr as [->|[r ->]]; [split; [apply grows_refl|eauto]|]. split; [apply insert_grows|by eapply wf_insert]. }
  split; [|done]. split; [done|..]; rewrite Hq.
  - etrans; [apply map_subseteq_size, delete_subseteq|done].
  - intros m p [_ Hm]%lookup_delete_Some. destruct (Hp m p Hm) as (? & ? & Hc). destruct Hg as [Hg _].
    split_and!; [done|done|congruence].
Qed.

Lemma admit_pending_wf en n sponsor :
  wf_enrollment en → ∃ en' res, admit_pending en n sponsor = Some (en', res) ∧
    wf_enrollment en' ∧ grows (registry en) (registry en').
Proof.
  intros Hwf. destruct (admit_pending_total en n sponsor Hwf) as [[en' res] Ha]. exists en', res. split; [done|].
  pose proof (admit_pending_cases _ _ _ _ _ Ha) as Hc. destruct res; [|subst; split; [done|apply grows_refl]].
  destruct Hc as (Hq & _ & Hr). by eapply wf_enrollment_admitted.
Qed.

Lemma begin_wf en c peer sponsor rng :
  wf_enrollment en → ∃ en' res, begin en c peer sponsor rng = Some (en', res) ∧
    wf_enrollment en' ∧ registry en' = registry en.
Proof.
  intros Hwf. pose proof Hwf as [[rank Hreg] Hb Hp]. unfold begin.
  destruct (ensure_sponsor en sponsor); [|eauto 10]. destruct (ensure_authenticated_peer c peer); [|eauto 10].
  destruct (status_total (registry en) rank Hreg (candidate_node c)) as [st ->]. cbn.
  destruct (resume_of en c peer st); [|eauto 10]. case_decide as Hfull; [eauto 10|].
  destruct (random_nonce rng); [|eauto 10]. eexists _, _. split; [done|]. split; [|done]. split; cbn.
  - eauto.
  - destruct (quarantined en !! candidate_node c) as [old|] eqn:E.
    + rewrite map_size_insert_Some by eauto. done.
    + rewrite map_size_insert_None by done. unfold MAX_QUARANTINED in *.
      assert (¬ (128 <= size (quarantined en))%nat) by (intros ?; apply Hfull; by split). lia.
  - intros n p [[<- <-]|[_ Hn]]%lookup_insert_Some; [done|by apply Hp].
Qed.

Lemma enroll_step_wf en op :
  wf_enrollment en → adopts_valid op →
  ∃ en', enroll_step en op = Some en' ∧ wf_enrollment en' ∧
    ((∀ reg, op ≠ OpAdopt reg) → grows (registry en) (registry en')).
Proof.
  intros Hwf Hop. destruct op as [c peer sponsor rng|p peer sponsor|n sponsor|rs|reg]; cbn [enroll_step].
  - destruct (begin_wf en c peer sponsor rng Hwf) as (en' & res & -> & Hwf' & Hr). exists en'.
    split_and!; [done|done|]. intros _. rewrite Hr. apply grows_refl.
  - unfold enroll_with_join_key.
    assert (∃ en', Some en = Some en' ∧ wf_enrollment en' ∧
      ((∀ reg, OpProve p peer sponsor ≠ OpAdopt reg) → grows (registry en) (registry en'))) as Hsame.
    { exists en. split_and!; [done|done|]. intros _. apply grows_refl. }
    destruct (join_key en); [|done]. destruct (ensure_authenticated_peer _ _); [|done].
    destruct (quarantined en !! _); [|done]. case_decide; [done|]. destruct (verify_proof _ _); [|done].
    destruct (admit_pending_wf en (candidate_node (p_candidate p)) sponsor Hwf) as (en' & res & -> & Hwf' & Hg). by exists en'.
  - unfold approve. destruct (quarantined en !! n).
    + destruct (admit_pending_wf en n sponsor Hwf) as (en' & res & -> & Hwf' & Hg). by exists en'.
    + exists en. split_and!; [done|done|]. intros _. apply grows_refl.
  - unfold merge_checkpoint. pose proof Hwf as [[rank Hreg] Hb Hp].
    destruct (merge (registry en) rs) as [[reg res]|] eqn:Em.
    + destruct (merge_grows _ _ _ _ _ Hreg Em) as [Hg Hw]. cbn. eexists. split_and!; [done| |done].
      split; [done|done|]. intros n p Hn. destruct (Hp n p Hn) as (? & ? & Hc). destruct Hg as [Hg _].
      split_and!; [done|done|]. cbn. congruence.
    + exfalso. revert Em. apply merge_loop_total. done.
  - eexists. split_and!; [done| |intros Hno; by destruct (Hno reg)]. split; [done|cbn [adopt_registry quarantined]; rewrite map_size_empty; lia|].
    intros n p Hn. cbn in Hn. by rewrite lookup_empty in Hn.
Qed.
End operations.

(** ** Properties *)

(** A join completes end to end: with an active sponsor whose peer id is its
    own, room in the quarantine, and a valid, initial, unregistered candidate
    whose peer id no active node holds, [begin] issues a challenge; the proof
    made with the join key for it is accepted; the candidate becomes active
    under the admitted record and leaves the quarantine; and the joiner, given
    the outcome, validates it and arrives at the sponsor's registry. *)
Theorem join_completes `{!Crypto, !CryptoLaws, !Postcard, !AdmissionCrypto, !AdmissionLaws}
    reg rank key q sponsor s h c nonce r :
  wf_registry reg rank →
  status reg (ni_node_id sponsor) = Some (Active s) → public_key s = public_key_bytes sponsor →
  node_for_peer reg (peer_id_bytes sponsor) = Some (ni_node_id sponsor) →
  authorizer_head reg s = Some (Ok h) → (size q < MAX_QUARANTINED)%nat →
  valid_public_identity (c_identity c) → is_initial_identity (c_identity c) = true →
  status reg (candidate_node c) = Some Unknown →
  (∀ m x, status reg m = Some (Active x) → peer_id x ≠ pi_peer_id (c_identity c)) →
  admit_record (reg_cluster_id reg) (c_identity c) s h sponsor = Ok r → records reg !! id r = None →
  ∃ en1 ch, begin (mkEnrollment reg (Some key) q) c (pi_peer_id (c_identity c)) sponsor (Some nonce)
            = Some (en1, Ok ch) ∧
  ∀ p, create_proof key c ch = Ok p →
    ∃ en2, enroll_with_join_key en1 p (pi_peer_id (c_identity c)) sponsor
           = Some (en2, Ok (mkEnrollmentOutcome r (values (registry en2)))) ∧
      status (registry en2) (candidate_node c) = Some (Active r) ∧
      quarantined en2 !! candidate_node c = None ∧
      validate_for (mkOutcome r (values (registry en2))) c ch (peer_id_bytes sponsor)
      = Some (Ok (registry en2)).
Proof.
  intros Hwf Hst Hpk Hsp Hh Hroom Hid Hinit Hunk Hpeers Hr Hfresh.
  destruct (sponsor_accepted reg rank (Some key) q sponsor s Hwf Hst Hpk Hsp) as (Hens & Hspeer & Hsnode).
  assert (node_for_peer reg (pi_peer_id (c_identity c)) = None) as Hnone.
  { destruct (node_for_peer reg (pi_peer_id (c_identity c))) as [m|] eqn:E; [|done]. exfalso.
    apply (node_for_peer_spec reg rank _ _ Hwf) in E as [(x & Hx & Hp) _]. by apply (Hpeers m x). }
  set (ch := mkChallenge (reg_cluster_id reg) (ni_node_id sponsor) (peer_id_bytes sponsor) nonce).
  set (pending := mkPending c ch (ni_node_id sponsor) None).
  exists (mkEnrollment reg (Some key) (<[candidate_node c := pending]> q)), ch. split.
  { unfold begin. rewrite Hens. unfold ensure_authenticated_peer. rewrite decide_False by auto. cbn [registry].
    rewrite Hunk. cbn. rewrite Hnone, Hinit. cbn. rewrite decide_False by lia. done. }
  intros p Hp. unfold create_proof in Hp. rewrite result_bind_Ok in Hp. destruct Hp as (tr & Htr & [= <-]).
  destruct (admission_effect reg rank s h (c_identity c) sponsor r) as (Hvalid & (Hi & Hs' & Ho) & Hn & Hact & Hleaf);
    [done|by rewrite Hsnode|done..|].
  rewrite Hact in Hs'. rewrite Hn in Hs', Ho. change (pi_node_id (c_identity c)) with (candidate_node c) in Hs', Ho, Hn.
  pose proof (insert_extended reg r Hfresh Hvalid) as Hins. rewrite Hins in Hs', Ho. cbn [fst] in Hs', Ho.
  exists (mkEnrollment (extended reg r) (Some key) (delete (candidate_node c) (<[candidate_node c := pending]> q))).
  split_and!.
  - unfold enroll_with_join_key, ensure_authenticated_peer. cbn [join_key p_candidate p_challenge quarantined].
    rewrite decide_False by auto. rewrite lookup_insert_eq. rewrite decide_False by (intros [?|?]; done).
    unfold verify_proof. cbn [p_candidate p_challenge mac]. rewrite Htr. cbn [result_bind].
    rewrite (proj2 (hmac_verify_spec key tr (hmac_sign key tr)) eq_refl).
    unfold admit_pending. cbn [quarantined]. rewrite lookup_insert_eq. cbn [pending_sponsor pending].
    rewrite decide_False by auto. unfold ensure_sponsor in Hens |- *. cbn [registry] in *. rewrite Hens.
    cbn [resume_record pending]. rewrite Hh. cbn [mbind option_bind pending_candidate pending]. rewrite Hr, Hins. done.
  - done.
  - cbn. by rewrite lookup_delete_eq.
  - cbn [registry]. destruct (wf_extended reg rank Hwf r Hfresh Hvalid) as [rank' Hwf'].
    assert (ni_node_id sponsor ≠ candidate_node c) as Hne by (intros Heq; rewrite Heq in Hst; congruence).
    unfold ch. rewrite <- Hspeer. change (reg_cluster_id reg) with (reg_cluster_id (extended reg r)).
    apply (joiner_validates reg rank Hwf s (ni_node_id sponsor) Hst) with (rank' := rank').
    + by rewrite Hspeer.
    + done.
    + done.
    + done.
    + destruct (sign_record_Ok _ _ _ Hr) as (Hb & _). unfold record_matches_identity.
      apply bool_decide_eq_true. unfold node_id, peer_id, public_key, initial_public_key. by rewrite Hb.
    + intros m x Hm. split; [|intros Hx; by eapply Ho; [..|left]].
      by apply (extended_active_inv reg rank Hwf r Hfresh Hvalid Hleaf); rewrite Hn.
    + done.
Qed.

(** C27: enrollment takes a proof, once: if a join-key enrollment succeeds, a
    join key is set, the authenticated peer is the candidate's, the pending
    entry of the node holds this very candidate and the challenge issued for it,
    and the tag is the HMAC of their transcript under the join key; the entry is
    consumed, so every later proof for that node is refused; and an enrollment
    that fails changes nothing. *)
Theorem proof_admits_once `{!Crypto, !Postcard, !AdmissionCrypto, !CryptoLaws, !AdmissionLaws}
    en p peer sponsor en' res :
  enroll_with_join_key en p peer sponsor = Some (en', res) →
  match res with
  | Err _ => en' = en
  | Ok _ =>
      ∃ key pending tr, join_key en = Some key ∧ pi_peer_id (c_identity (p_candidate p)) = peer ∧
        quarantined en !! candidate_node (p_candidate p) = Some pending ∧
        pending_candidate pending = p_candidate p ∧ pending_challenge pending = p_challenge p ∧
        proof_transcript (p_candidate p) (p_challenge p) = Ok tr ∧ mac p = hmac_sign key tr ∧
        ∀ p2 peer2 sponsor2, candidate_node (p_candidate p2) = candidate_node (p_candidate p) →
          ∃ e, enroll_with_join_key en' p2 peer2 sponsor2 = Some (en', Err e)
  end.
Proof.
  unfold enroll_with_join_key at 1. destruct (join_key en) as [key|] eqn:Ekey; [|by intros [= <- <-]].
  unfold ensure_authenticated_peer at 1. case_decide as Hpeer; [by intros [= <- <-]|].
  destruct (quarantined en !! _) as [pending|] eqn:Eq; [|by intros [= <- <-]].
  case_decide as Hm; [by intros [= <- <-]|].
  destruct (verify_proof p key) as [[]|e] eqn:Ev; [|by intros [= <- <-]]. intros Hadm.
  pose proof (admit_pending_cases _ _ _ _ _ Hadm) as Hcases. destruct res as [out|e]; [|done].
  destruct Hcases as (Hq & Hk & _).
  unfold verify_proof in Ev. rewrite result_bind_Ok in Ev. destruct Ev as (tr & Htr & Hmac).
  destruct (hmac_verify key tr (mac p)) eqn:Eh; [|done]. apply hmac_verify_spec in Eh.
  exists key, pending, tr. split_and!; try done; try (apply dec_stable; intros Hne; apply Hm; tauto).
  intros p2 peer2 sponsor2 Hn. unfold enroll_with_join_key. rewrite Hk, Ekey.
  destruct (ensure_authenticated_peer _ _); [|eauto]. rewrite Hn, Hq, lookup_delete_eq. eauto.
Qed.

(** Enrollment keeps its invariant: whatever sequence of admissions,
    proofs, approvals, checkpoints and adoptions a node handles, every operation
    ends; the registry stays valid and, without adoptions, only grows; the
    quarantine never holds more than its limit; and each pending entry is filed
    under its candidate's node with a challenge of this cluster. *)
Theorem enrollment_invariant `{!Crypto, !Postcard, !AdmissionCrypto} en ops :
  wf_enrollment en → Forall adopts_valid ops →
  ∃ en', enroll_run en ops = Some en' ∧ wf_enrollment en' ∧
    ((∀ reg, OpAdopt reg ∉ ops) → grows (registry en) (registry en')).
Proof.
  revert en. induction ops as [|op ops IH]; intros en Hwf Hops; cbn [enroll_run].
  - exists en. split_and!; [done|done|]. intros _. apply grows_refl.
  - apply Forall_cons in Hops as [Hop Hops]. destruct (enroll_step_wf en op Hwf Hop) as (en1 & Hs & Hwf1 & Hg1).
    rewrite Hs. cbn. destruct (IH en1 Hwf1 Hops) as (en2 & Hr & Hwf2 & Hg2). exists en2. split_and!; [done|done|].
    intros Hno. eapply grows_trans; [apply Hg1; intros reg ->; apply (Hno reg); by left|].
    apply Hg2. intros reg Hin. apply (Hno reg). by right.
Qed.

(** C28: the quarantine can be spoofed: [begin] never checks that a candidate's
    node id derives from its initial key, so a peer that claims an unregistered
    node's id under keys of its own is challenged, and displaces the real
    candidate's pending entry: the proof the real candidate makes for the
    challenge it was given is then refused. *)
Theorem spoofed_candidate_displaces `{!Crypto, !Postcard, !AdmissionCrypto}
    en key sponsor s attacker victim ch nonce proof :
  join_key en = Some key → ensure_sponsor en sponsor = Ok s →
  status (registry en) (candidate_node victim) = Some Unknown →
  is_Some (quarantined en !! candidate_node victim) →
  candidate_node attacker = candidate_node victim → attacker ≠ victim →
  is_initial_identity (c_identity attacker) = true →
  node_for_peer (registry en) (pi_peer_id (c_identity attacker)) = None →
  create_proof key victim ch = Ok proof →
  ∃ en' ch', begin en attacker (pi_peer_id (c_identity attacker)) sponsor (Some nonce) = Some (en', Ok ch') ∧
    enroll_with_join_key en' proof (pi_peer_id (c_identity victim)) sponsor
    = Some (en', Err (ProofMismatch (candidate_node victim))).
Proof.
  intros Hkey Hens Hunk [old Hold] Hnode Hne Hinit Hnone Hproof.
  unfold create_proof in Hproof. rewrite result_bind_Ok in Hproof. destruct Hproof as (tr & _ & [= <-]).
  eexists _, _. split.
  - unfold begin. rewrite Hens. unfold ensure_authenticated_peer. rewrite decide_False by auto.
    rewrite Hnode, Hunk. cbn. rewrite Hnone, Hinit. cbn. rewrite decide_False by (intros [? _]; congruence). done.
  - unfold enroll_with_join_key. cbn. rewrite Hkey. unfold ensure_authenticated_peer. cbn.
    rewrite decide_False by auto. rewrite lookup_insert_eq. cbn. rewrite decide_True; [done|]. by left.
Qed.

(** ** Witnesses *)

#[export] Instance toy_admission_crypto : AdmissionCrypto := {|
  hmac_sign := λ key msg, String.append key msg;
  hmac_verify := λ key msg tag, String.eqb tag (String.append key msg);
  transcript_to_stdvec := λ '(v, cluster, peer, sponsor_peer, nonce, sponsor_nonce, n, sponsor),
    Ok (String.concat "," [cluster; peer; sponsor_peer; nonce; sponsor_nonce; n; sponsor]);
  peer_id_from_bytes := λ b, Some b;
|}.

#[export] Instance toy_admission_laws : @AdmissionLaws toy_crypto toy_admission_crypto.
Proof. split; [intros key msg tag; apply String.eqb_eq|done]. Qed.

Definition toy_candidate : AdmissionCandidate := mkCandidate toy_newcomer "n1".
Definition toy_enrollment : Enrollment := mkEnrollment toy_registry (Some "key") ∅.
Definition toy_sponsor : @NodeIdentity toy_crypto := toy_identity "y".

Definition toy_begun : Enrollment * result AdmissionChallenge AdmissionError :=
  default (toy_enrollment, Err RandomGeneration)
    (@begin toy_crypto toy_admission_crypto toy_enrollment toy_candidate "pz" toy_sponsor (Some "n2")).

Definition toy_challenge : AdmissionChallenge := mkChallenge toy_cluster (node_id toy_member) "py" "n2".

Definition toy_proof : JoinProof :=
  mkProof toy_candidate toy_challenge
    (match @proof_transcript toy_admission_crypto toy_candidate toy_challenge with
     | Ok tr => String.append "key" tr
     | Err _ => ""
     end).

(** No active node holds the newcomer's peer id. *)
Lemma toy_peer_free m x : status toy_registry m = Some (Active x) → peer_id x ≠ pi_peer_id toy_newcomer.
Proof.
  intros Hst. destruct toy_registry_wf as [rank Hwf].
  destruct (@status_chain toy_crypto toy_postcard toy_registry rank Hwf m _ x Hst (or_introl eq_refl)) as (Hin & _).
  apply (@elem_of_values toy_crypto toy_postcard toy_registry rank Hwf) in Hin.
  assert (forallb (λ r, negb (String.eqb (peer_id r) "pz")) (values toy_registry) = true) as Hall
    by (vm_compute; reflexivity).
  rewrite forallb_forall in Hall. specialize (Hall x (proj1 (list_elem_of_In _ _) Hin)).
  apply negb_true_iff, String.eqb_neq in Hall. exact Hall.
Qed.

Lemma join_completes_witness :
  ∃ en1 ch, @begin toy_crypto toy_admission_crypto toy_enrollment toy_candidate "pz" toy_sponsor (Some "n2")
            = Some (en1, Ok ch) ∧
  ∀ p, @create_proof toy_admission_crypto "key" toy_candidate ch = Ok p →
    ∃ en2, status (registry en2) (candidate_node toy_candidate) = Some (Active toy_admission).
Proof.
  destruct toy_registry_wf as [rank Hwf].
  destruct (@join_completes toy_crypto toy_crypto_laws toy_postcard toy_admission_crypto toy_admission_laws
    toy_registry rank "key" ∅ toy_sponsor toy_member toy_member toy_candidate "n2" toy_admission Hwf
    toy_member_active) as (en1 & ch & Hb & Hp).
  - vm_compute. reflexivity.
  - exact toy_member_peer.
  - exact toy_member_head.
  - vm_compute. lia.
  - vm_compute. reflexivity.
  - vm_compute. reflexivity.
  - vm_compute. reflexivity.
  - exact toy_peer_free.
  - vm_compute. reflexivity.
  - vm_compute. reflexivity.
  - exists en1, ch. split; [exact Hb|]. intros p Hcp. destruct (Hp p Hcp) as (en2 & _ & Hs & _).
    exists en2. exact Hs.
Defined.

Definition toy_joined : option (Enrollment * result EnrollmentOutcome AdmissionError) :=
  @enroll_with_join_key toy_crypto toy_postcard toy_admission_crypto toy_begun.1 toy_proof "pz" toy_sponsor.

Lemma toy_joined_Ok : ∃ en out, toy_joined = Some (en, Ok out).
Proof.
  assert (match toy_joined with Some (_, Ok _) => true | _ => false end = true) as Hj by (vm_compute; reflexivity).
  destruct toy_joined as [[en [out|]]|]; [eauto|done..].
Qed.

Lemma proof_admits_once_witness :
  ∃ en out, toy_joined = Some (en, Ok out) ∧
    ∃ e, @enroll_with_join_key toy_crypto toy_postcard toy_admission_crypto en toy_proof "pz" toy_sponsor
         = Some (en, Err e).
Proof.
  destruct toy_joined_Ok as (en & out & Hj). exists en, out. split; [exact Hj|].
  destruct (@proof_admits_once toy_crypto toy_postcard toy_admission_crypto toy_crypto_laws toy_admission_laws
    toy_begun.1 toy_proof "pz" toy_sponsor en (Ok out) Hj) as (key & pending & tr & _ & _ & _ & _ & _ & _ & _ & Hagain).
  exact (Hagain toy_proof "pz" toy_sponsor eq_refl).
Defined.

Lemma enrollment_invariant_witness :
  ∃ en, @enroll_run toy_crypto toy_postcard toy_admission_crypto toy_enrollment
          [OpBegin toy_candidate "pz" toy_sponsor (Some "n2"); OpProve toy_proof "pz" toy_sponsor] = Some en ∧
    @wf_enrollment toy_crypto toy_postcard en.
Proof.
  destruct (@enrollment_invariant toy_crypto toy_postcard toy_admission_crypto toy_enrollment
    [OpBegin toy_candidate "pz" toy_sponsor (Some "n2"); OpProve toy_proof "pz" toy_sponsor]) as (en & Hr & Hw & _).
  - split.
    + exact toy_registry_wf.
    + vm_compute. lia.
    + intros n p Hn. cbn in Hn. rewrite lookup_empty in Hn. discriminate.
  - repeat apply Forall_cons_2; try exact I. apply Forall_nil_2.
  - exists en. exact (conj Hr Hw).
Defined.

(** The attacker claims the newcomer's node id under its own key [m]. *)
Definition toy_attacker : AdmissionCandidate :=
  mkCandidate (mkPublicIdentity (pi_node_id toy_newcomer) "pm" "km" "km") "n3".

Lemma spoofed_candidate_displaces_witness :
  ∃ en ch, @begin toy_crypto toy_admission_crypto toy_begun.1 toy_attacker "pm" toy_sponsor (Some "n4")
           = Some (en, Ok ch) ∧
    @enroll_with_join_key toy_crypto toy_postcard toy_admission_crypto en toy_proof "pz" toy_sponsor
    = Some (en, Err (ProofMismatch (candidate_node toy_candidate))).
Proof.
  refine (@spoofed_candidate_displaces toy_crypto toy_postcard toy_admission_crypto toy_begun.1 "key" toy_sponsor
    toy_member toy_attacker toy_candidate toy_challenge "n4" toy_proof _ _ _ _ _ _ _ _ _).
  - vm_compute. reflexivity.
  - vm_compute. reflexivity.
  - vm_compute. reflexivity.
  - vm_compute. eexists. reflexivity.
  - reflexivity.
  - intros Habs. apply (f_equal (λ c, c_nonce c)) in Habs. discriminate.
  - vm_compute. reflexivity.
  - vm_compute. reflexivity.
  - vm_compute. reflexivity.
Defined.
