(* ===== verification/LinkState.v ===== *)
(** * The state of the link actor ([crates/overlay/src/link/actor.rs], [handle.rs], [config.rs])

    What the actor knows about its peers: authorized and quarantined
    connections, their health, listeners, pending dials and relay
    reservations; the preference between two connections to one node; what a
    response must match; the sequence of request ids. *)

From S2P Require Import Prelude.
From S2P Require Import Identity.
From S2P Require Import Protocol.
From S2P Require Import Authorization.
From S2P Require Import Directory.
From S2P Require Import Admission.

(** What [libp2p] knows about addresses and connections. *)
Inductive AddrProtocol : Type :=
| QuicV1
| Tcp (port : Z)
| P2p (peer : PeerId)
| P2pCircuit
| OtherProtocol (b : bytes).

#[export] Instance AddrProtocol_eq_dec : EqDecision AddrProtocol.
Proof. solve_decision. Defined.

Inductive ConnectedPoint : Type :=
| Dialer (address : Multiaddr)
| Listener (local_addr send_back_addr : Multiaddr).

Class LibP2p := {
  protocols : Multiaddr → list AddrProtocol;
  with_protocol : Multiaddr → AddrProtocol → Multiaddr;
  is_relayed : ConnectedPoint → bool;
  is_dialer : ConnectedPoint → bool;
  get_remote_address : ConnectedPoint → Multiaddr;
}.

Abbreviation ConnectionId := Z.

(** A [BTreeSet] in iteration order. *)
Definition set_iter `{Countable A, Ord A} (s : gset A) : list A := ord_sort (elements s).

(** ** Errors *)

Inductive LinkError : Type :=
| Transport (error : string)
| ActorStopped
| UnauthorizedNode (n : NodeId)
| NotConnected (n : NodeId)
| LinkNoRoute (n : NodeId)
| InvalidAdmissionRequest
| AdmissionPeerUnavailable (peer : PeerId)
| UnknownInbound
| Timeout
| InvalidResponse
| LinkRandomGeneration
| RequestSequenceExhausted
| AuthorizationCommit (error : string)
| LinkAuthorization (error : AuthorizationError).

(** ** Configuration; durations are nanoseconds *)

Record LinkConfig : Type := mkLinkConfig {
  listen_addresses : list Multiaddr;
  command_capacity : nat;
  idle_timeout : Z;
  ping_interval : Z;
  ping_timeout : Z;
  reconnect_interval : Z;
  reconnect_min_delay : Z;
  reconnect_max_delay : Z;
  discovered_address_ttl : Z;
  mdns_query_interval : Z;
  lan_discovery : bool;
}.

Definition from_secs (s : Z) : Z := s * 1000000000.

(** [LinkConfig::new] *)
Definition new_config (addresses : list Multiaddr) : LinkConfig :=
  mkLinkConfig addresses 64 (from_secs 60) (from_secs 2) (from_secs 3) (from_secs 1) (from_secs 1)
    (from_secs 30) (from_secs 120) (from_secs 5) true.

(** ** Request ids *)

Record RequestSequence : Type := mkSequence {
  boot_id : bytes;
  next : Z;
}.

(** [fetch_update] with [checked_add]: the value before the increment. *)
Definition allocate `{!Crypto} (s : RequestSequence) (n : NodeId)
    : RequestSequence * result RequestId LinkError :=
  match u64_checked_add (next s) 1 with
  | Some next' => (mkSequence (boot_id s) next', Ok (derive_request_id n (boot_id s) (next s)))
  | None => (s, Err RequestSequenceExhausted)
  end.

(** ** What a response must match *)

Record ResponseExpectation : Type := mkExpectation {
  expected_peer : PeerId;
  x_cluster_id : ClusterId;
  x_request_id : RequestId;
  x_source : NodeId;
  x_destination : NodeId;
  x_protocol : ProtocolId;
  x_deadline_unix_ms : Z;
}.

Definition from_request (request : Envelope) (peer : PeerId) : ResponseExpectation :=
  let h := header request in
  mkExpectation peer (h_cluster_id h) (request_id h) (source h) (destination h) (protocol h)
    (deadline_unix_ms h).

(** [NodeId::from_bytes([0; 32])] *)
Definition sentinel : NodeId := be_bytes 32 0.

Definition validate_response (x : ResponseExpectation) (response : Envelope) (responder : PeerId)
    : result unit LinkError :=
  let h := header response in
  let source_matches :=
    bool_decide (x_destination x = sentinel) || bool_decide (source h = x_destination x) in
  if bool_decide (responder ≠ expected_peer x)
     || bool_decide (version h ≠ PROTOCOL_VERSION)
     || bool_decide (h_cluster_id h ≠ x_cluster_id x)
     || bool_decide (request_id h ≠ x_request_id x)
     || bool_decide (destination h ≠ x_source x)
     || bool_decide (protocol h ≠ x_protocol x)
     || bool_decide (h_kind h ≠ Response)
     || negb source_matches
  then Err InvalidResponse
  else Ok tt.

(** ** The state *)

Record ConnectionInfo : Type := mkConnection {
  c_peer_id : PeerId;
  c_node_id : NodeId;
  c_endpoint : ConnectedPoint;
}.

Definition MAX_QUARANTINED_CONNECTIONS : nat := 32.

Record QuarantinedConnection : Type := mkQuarantined {
  q_peer_id : PeerId;
  q_endpoint : ConnectedPoint;
}.

Record LinkState : Type := mkLinkState {
  local_node : NodeId;
  local_peer_id : PeerId;
  authorization : AuthorizationRegistry;
  listeners : gset Multiaddr;
  connections : gmap ConnectionId ConnectionInfo;
  healthy_connections : gset ConnectionId;
  quarantined_connections : gmap ConnectionId QuarantinedConnection;
  directory : PeerDirectory;
  pending_dials : gmap ConnectionId NodeId;
  relay_reservations : gmap NodeId Multiaddr;
}.

(** [LinkState::new] *)
Definition new_link_state (n : NodeId) (peer : PeerId) (reg : AuthorizationRegistry) : LinkState :=
  mkLinkState n peer reg ∅ ∅ ∅ ∅ ∅ ∅ ∅.

(** Assignments to one field. *)
Definition set_authorization (x : AuthorizationRegistry) (s : LinkState) : LinkState :=
  mkLinkState (local_node s) (local_peer_id s) x (listeners s) (connections s) (healthy_connections s)
    (quarantined_connections s) (directory s) (pending_dials s) (relay_reservations s).
Definition set_listeners (x : gset Multiaddr) (s : LinkState) : LinkState :=
  mkLinkState (local_node s) (local_peer_id s) (authorization s) x (connections s)
    (healthy_connections s) (quarantined_connections s) (directory s) (pending_dials s)
    (relay_reservations s).
Definition set_connections (x : gmap ConnectionId ConnectionInfo) (s : LinkState) : LinkState :=
  mkLinkState (local_node s) (local_peer_id s) (authorization s) (listeners s) x
    (healthy_connections s) (quarantined_connections s) (directory s) (pending_dials s)
    (relay_reservations s).
Definition set_healthy (x : gset ConnectionId) (s : LinkState) : LinkState :=
  mkLinkState (local_node s) (local_peer_id s) (authorization s) (listeners s) (connections s) x
    (quarantined_connections s) (directory s) (pending_dials s) (relay_reservations s).
Definition set_quarantined (x : gmap ConnectionId QuarantinedConnection) (s : LinkState) : LinkState :=
  mkLinkState (local_node s) (local_peer_id s) (authorization s) (listeners s) (connections s)
    (healthy_connections s) x (directory s) (pending_dials s) (relay_reservations s).
Definition set_directory (x : PeerDirectory) (s : LinkState) : LinkState :=
  mkLinkState (local_node s) (local_peer_id s) (authorization s) (listeners s) (connections s)
    (healthy_connections s) (quarantined_connections s) x (pending_dials s) (relay_reservations s).
Definition set_pending_dials (x : gmap ConnectionId NodeId) (s : LinkState) : LinkState :=
  mkLinkState (local_node s) (local_peer_id s) (authorization s) (listeners s) (connections s)
    (healthy_connections s) (quarantined_connections s) (directory s) x (relay_reservations s).
Definition set_reservations (x : gmap NodeId Multiaddr) (s : LinkState) : LinkState :=
  mkLinkState (local_node s) (local_peer_id s) (authorization s) (listeners s) (connections s)
    (healthy_connections s) (quarantined_connections s) (directory s) (pending_dials s) x.

Section state.
Context `{!Crypto} `{!Postcard} `{!AdmissionCrypto} `{!LibP2p}.

(** [LinkState::active_peer_for_node] *)
Definition active_peer (s : LinkState) (n : NodeId) : option PeerId :=
  active_peer_for_node peer_id_from_bytes (authorization s) n.

Definition record_discovered_address (s : LinkState) (peer : PeerId) (address : Multiaddr) (now ttl : Z)
    : LinkState :=
  match node_for_peer (authorization s) peer with
  | Some n => set_directory (Directory.record (directory s) n peer address Mdns now ttl) s
  | None => s
  end.

Definition expire_discovered_address (s : LinkState) (peer : PeerId) (address : Multiaddr) : LinkState :=
  set_directory (remove (directory s) peer address) s.

(** The address iterator is advanced along with the prefix. *)
Fixpoint has_prefix (prefix ps : list AddrProtocol) : bool :=
  match prefix with
  | [] => true
  | expected :: prefix' =>
      match ps with
      | p :: ps' => bool_decide (p = expected) && has_prefix prefix' ps'
      | [] => false
      end
  end.

Definition has_listener_with_prefix (s : LinkState) (prefix : Multiaddr) : bool :=
  existsb (λ address, has_prefix (protocols prefix) (protocols address)) (set_iter (listeners s)).

Definition edge_set (s : LinkState) : gset NodeId :=
  list_to_set (c_node_id <$> btree_values (connections s)).

Definition node_is_connected (s : LinkState) (n : NodeId) : bool :=
  existsb (λ c, bool_decide (c_node_id c = n)) (btree_values (connections s)).

Definition peer_is_connected (s : LinkState) (peer : PeerId) : bool :=
  existsb (λ c, bool_decide (c_peer_id c = peer)) (btree_values (connections s)).

(** [quarantined.values().any(|connection| connection.peer_id == ..)] *)
Definition peer_is_quarantined (s : LinkState) (peer : PeerId) : bool :=
  existsb (λ c, bool_decide (q_peer_id c = peer)) (btree_values (quarantined_connections s)).

Definition pending_for_node (s : LinkState) (n : NodeId) : bool :=
  existsb (λ pending, bool_decide (pending = n)) (btree_values (pending_dials s)).

(** [LinkState::connection_established] *)
Definition state_connection_established (s : LinkState) (peer : PeerId) (n : NodeId)
    (cid : ConnectionId) (endpoint : ConnectedPoint) : LinkState * bool :=
  (set_connections (<[cid := mkConnection peer n endpoint]> (connections s)) s, true).

(** [LinkState::connection_closed] *)
Definition connection_closed (s : LinkState) (peer : PeerId) (cid : ConnectionId) : LinkState * bool :=
  match connections s !! cid with
  | None => (set_healthy (healthy_connections s ∖ {[cid]}) s, false)
  | Some _ =>
      (set_connections (delete cid (connections s))
         (set_healthy (healthy_connections s ∖ {[cid]}) s), true)
  end.

Definition node_is_healthy (s : LinkState) (n : NodeId) : bool :=
  existsb (λ cid, match connections s !! cid with
                  | Some c => bool_decide (c_node_id c = n)
                  | None => false
                  end) (set_iter (healthy_connections s)).

Definition set_connection_health (s : LinkState) (peer : PeerId) (cid : ConnectionId) (healthy : bool)
    : LinkState * bool :=
  match connections s !! cid with
  | None => (set_healthy (healthy_connections s ∖ {[cid]}) s, false)
  | Some c =>
      if decide (c_peer_id c ≠ peer) then (s, false)
      else
        let n := c_node_id c in
        let was_healthy := node_is_healthy s n in
        let s :=
          if healthy then set_healthy ({[cid]} ∪ healthy_connections s) s
          else set_healthy (healthy_connections s ∖ {[cid]}) s in
        (s, negb (Bool.eqb was_healthy (node_is_healthy s n)))
  end.

Record LinkSnapshot : Type := mkSnapshot {
  snap_node_id : NodeId;
  snap_listen_addresses : list Multiaddr;
  connected_nodes : list NodeId;
  healthy_nodes : list NodeId;
  connection_count : nat;
  quarantined_peers : list PeerId;
  quarantined_count : nat;
}.

Definition snapshot (s : LinkState) : LinkSnapshot :=
  let connected := set_iter (edge_set s) in
  mkSnapshot (local_node s) (set_iter (listeners s)) connected
    (filter (λ n, node_is_healthy s n = true) connected)
    (size (connections s))
    (set_iter (list_to_set (q_peer_id <$> btree_values (quarantined_connections s)) : gset PeerId))
    (size (quarantined_connections s)).

(** ** Preference between two connections to one node *)

Definition transport_class (endpoint : ConnectedPoint) : Z :=
  let address := match endpoint with Dialer address => address | Listener local_addr _ => local_addr end in
  let quic := existsb (λ p, match p with QuicV1 => true | _ => false end) (protocols address) in
  let tcp := existsb (λ p, match p with Tcp _ => true | _ => false end) (protocols address) in
  match is_relayed endpoint, quic, tcp with
  | false, true, _ => 0
  | false, _, true => 1
  | true, true, _ => 2
  | true, _, true => 3
  | _, _, _ => 4
  end.

(** [ConnectionPreference], in the order of its fields. *)
Definition connection_preference (local_peer peer : PeerId) (endpoint : ConnectedPoint) : Z * Z * bytes :=
  let local_is_canonical_initiator := ord_gtb peer local_peer in
  let preferred_role := Bool.eqb (is_dialer endpoint) local_is_canonical_initiator in
  (transport_class endpoint, if preferred_role then 0 else 1, get_remote_address endpoint).

(** The last [/p2p/] component of an address. *)
Definition terminal_peer_id (address : Multiaddr) : option PeerId :=
  last (omap (λ p, match p with P2p peer => Some peer | _ => None end) (protocols address)).

(** The directory looks at the same protocols. *)
#[export] Instance addressing : Addressing := {|
  addr_quic := λ a, existsb (λ p, match p with QuicV1 => true | _ => false end) (protocols a);
  addr_tcp := λ a, existsb (λ p, match p with Tcp _ => true | _ => false end) (protocols a);
|}.
End state.
