(* ===== verification/Link.v ===== *)
(** * The link actor ([crates/overlay/src/link/actor.rs])

    The task that owns the swarm: it routes requests, relays envelopes,
    delivers inbound ones, admits or quarantines connections, and advertises
    its links. The swarm is third-party code: the class [Network] holds its
    operations, with the swarm's own state threaded through them. Every
    handler takes the actor and returns the next one; the clock is read once
    per turn. The replies sent to the callers are recorded in order. *)

From S2P Require Import Prelude.
From S2P Require Import Identity.
From S2P Require Import Protocol.
From S2P Require Import Authorization.
From S2P Require Import Routing.
From S2P Require Import Directory.
From S2P Require Import Admission.
From S2P Require Import LinkState.

Definition MAX_PENDING_INBOUND : nat := 256.
Definition MAX_INBOUND_LIFETIME_MS : Z := 10000.

Abbreviation OutboundRequestId := Z.
Abbreviation InboundRequestId := Z.
Abbreviation ResponseChannel := Z.

(** A [oneshot] sender. *)
Abbreviation ReplyId := Z.

(** [libp2p::Swarm] and its request-response behaviour. *)
Class Network := {
  Swarm : Type;
  swarm_dial : Swarm → PeerId → list Multiaddr → Swarm * result unit string;
  listen_on : Swarm → Multiaddr → Swarm * result unit string;
  disconnect_peer_id : Swarm → PeerId → Swarm * bool;
  close_connection : Swarm → ConnectionId → Swarm;
  add_external_address : Swarm → Multiaddr → Swarm;
  send_request : Swarm → PeerId → Envelope → Swarm * OutboundRequestId;
  send_response : Swarm → ResponseChannel → Envelope → Swarm * bool;
}.

(** The system clock in milliseconds and the monotonic one in nanoseconds. *)
Record Clock : Type := mkClock {
  now_unix_ms : Z;
  instant : Z;
}.

Definition i64_wrap (z : Z) : Z := (z + 2 ^ 63) mod 2 ^ 64 - 2 ^ 63.
Definition i64_saturating_add (a b : Z) : Z := Z.max i64_min (Z.min (a + b) i64_max).

Record PendingRequest : Type := mkPendingRequest {
  expected : ResponseExpectation;
  reply : ReplyId;
}.

Record PendingInbound : Type := mkPendingInbound {
  in_request_id : InboundRequestId;
  in_peer_id : PeerId;
  in_deadline_unix_ms : Z;
  in_channel : ResponseChannel;
}.

Record ForwardContext : Type := mkForward {
  fwd_channel : ResponseChannel;
  fwd_expected : ResponseExpectation;
}.

Record InboundEnvelope : Type := mkInbound {
  token : Z;
  sender : PeerId;
  envelope : Envelope;
}.

(** The bounded [mpsc] channel to the upper protocols. *)
Record InboundQueue : Type := mkQueue {
  capacity : nat;
  receiver_open : bool;
  waiting : list InboundEnvelope;
}.

Definition try_send (q : InboundQueue) (e : InboundEnvelope) : option InboundQueue :=
  if receiver_open q && bool_decide (length (waiting q) < capacity q)%nat
  then Some (mkQueue (capacity q) (receiver_open q) (waiting q ++ [e])) else None.

Inductive Reply : Type :=
| ReplyEnvelope (r : result Envelope LinkError)
| ReplyUnit (r : result unit LinkError)
| ReplyPeer (r : result PeerId LinkError)
| ReplyDone.

Inductive LinkCommand : Type :=
| CmdRequest (envelope : Envelope) (reply : ReplyId)
| CmdRequestAdmission (sponsor : PeerId) (envelope : Envelope) (reply : ReplyId)
| CmdRespond (token : Z) (envelope : Envelope) (reply : ReplyId)
| CmdDial (node_id : NodeId) (address : Multiaddr) (reply : ReplyId)
| CmdDialAdmission (address : Multiaddr) (reply : ReplyId)
| CmdListenViaRelay (node_id : NodeId) (address : Multiaddr) (reply : ReplyId)
| CmdDisconnect (node_id : NodeId) (reply : ReplyId)
| CmdCommitAuthorization (registry : AuthorizationRegistry) (check_cluster : bool)
    (persist : result unit string) (reply : ReplyId)
| CmdShutdown (reply : ReplyId).

Inductive MessagingEvent : Type :=
| MsgRequest (peer : PeerId) (request_id : InboundRequestId) (request : Envelope)
    (channel : ResponseChannel)
| MsgResponse (peer : PeerId) (request_id : OutboundRequestId) (response : Envelope)
| OutboundFailure (request_id : OutboundRequestId) (error : string)
| InboundFailure (request_id : InboundRequestId)
| ResponseSent.

Inductive SwarmEvent : Type :=
| NewListenAddr (address : Multiaddr)
| ExpiredListenAddr (address : Multiaddr)
| ListenerClosed (addresses : list Multiaddr)
| ConnectionEstablished (peer : PeerId) (connection_id : ConnectionId) (endpoint : ConnectedPoint)
| ConnectionClosed (peer : PeerId) (connection_id : ConnectionId)
| Dialing (peer : option PeerId) (connection_id : ConnectionId)
| Ping (peer : PeerId) (connection : ConnectionId) (ok : bool)
| MdnsDiscovered (discovered : list (PeerId * Multiaddr))
| MdnsExpired (expired : list (PeerId * Multiaddr))
| Messaging (event : MessagingEvent)
| OutgoingConnectionError (connection_id : ConnectionId)
| OtherEvent.

Section actor.
Context `{!Crypto} `{!Postcard} `{!AdmissionCrypto} `{!LibP2p} `{!Network}.
Context `{!Serialize LinkStateBody} `{!Serialize LinkStateRecord}.

Record LinkActor : Type := mkActor {
  swarm : Swarm;
  snapshot_tx : LinkSnapshot;
  link : LinkState;
  config : LinkConfig;
  identity : NodeIdentity;
  router : Router;
  inbound_tx : InboundQueue;
  pending_outbound : gmap OutboundRequestId PendingRequest;
  pending_inbound : gmap Z PendingInbound;
  inbound_requests : gmap InboundRequestId Z;
  pending_forwards : gmap OutboundRequestId ForwardContext;
  broadcast_requests : gset OutboundRequestId;
  next_inbound_token : Z;
  request_ids : RequestSequence;
  last_link_state_sequence : Z;
  replies : list (ReplyId * Reply);
}.

(** Assignments to one field. *)
Definition set_swarm (x : Swarm) (a : LinkActor) : LinkActor :=
  mkActor x (snapshot_tx a) (link a) (config a) (identity a) (router a) (inbound_tx a)
    (pending_outbound a) (pending_inbound a) (inbound_requests a) (pending_forwards a)
    (broadcast_requests a) (next_inbound_token a) (request_ids a) (last_link_state_sequence a)
    (replies a).
Definition set_snapshot (x : LinkSnapshot) (a : LinkActor) : LinkActor :=
  mkActor (swarm a) x (link a) (config a) (identity a) (router a) (inbound_tx a)
    (pending_outbound a) (pending_inbound a) (inbound_requests a) (pending_forwards a)
    (broadcast_requests a) (next_inbound_token a) (request_ids a) (last_link_state_sequence a)
    (replies a).
Definition set_link (x : LinkState) (a : LinkActor) : LinkActor :=
  mkActor (swarm a) (snapshot_tx a) x (config a) (identity a) (router a) (inbound_tx a)
    (pending_outbound a) (pending_inbound a) (inbound_requests a) (pending_forwards a)
    (broadcast_requests a) (next_inbound_token a) (request_ids a) (last_link_state_sequence a)
    (replies a).
Definition set_router (x : Router) (a : LinkActor) : LinkActor :=
  mkActor (swarm a) (snapshot_tx a) (link a) (config a) (identity a) x (inbound_tx a)
    (pending_outbound a) (pending_inbound a) (inbound_requests a) (pending_forwards a)
    (broadcast_requests a) (next_inbound_token a) (request_ids a) (last_link_state_sequence a)
    (replies a).
Definition set_inbound (x : InboundQueue) (a : LinkActor) : LinkActor :=
  mkActor (swarm a) (snapshot_tx a) (link a) (config a) (identity a) (router a) x
    (pending_outbound a) (pending_inbound a) (inbound_requests a) (pending_forwards a)
    (broadcast_requests a) (next_inbound_token a) (request_ids a) (last_link_state_sequence a)
    (replies a).
Definition set_outbound (x : gmap OutboundRequestId PendingRequest) (a : LinkActor) : LinkActor :=
  mkActor (swarm a) (snapshot_tx a) (link a) (config a) (identity a) (router a) (inbound_tx a) x
    (pending_inbound a) (inbound_requests a) (pending_forwards a) (broadcast_requests a)
    (next_inbound_token a) (request_ids a) (last_link_state_sequence a) (replies a).
Definition set_pending_inbound (x : gmap Z PendingInbound) (a : LinkActor) : LinkActor :=
  mkActor (swarm a) (snapshot_tx a) (link a) (config a) (identity a) (router a) (inbound_tx a)
    (pending_outbound a) x (inbound_requests a) (pending_forwards a) (broadcast_requests a)
    (next_inbound_token a) (request_ids a) (last_link_state_sequence a) (replies a).
Definition set_inbound_requests (x : gmap InboundRequestId Z) (a : LinkActor) : LinkActor :=
  mkActor (swarm a) (snapshot_tx a) (link a) (config a) (identity a) (router a) (inbound_tx a)
    (pending_outbound a) (pending_inbound a) x (pending_forwards a) (broadcast_requests a)
    (next_inbound_token a) (request_ids a) (last_link_state_sequence a) (replies a).
Definition set_forwards (x : gmap OutboundRequestId ForwardContext) (a : LinkActor) : LinkActor :=
  mkActor (swarm a) (snapshot_tx a) (link a) (config a) (identity a) (router a) (inbound_tx a)
    (pending_outbound a) (pending_inbound a) (inbound_requests a) x (broadcast_requests a)
    (next_inbound_token a) (request_ids a) (last_link_state_sequence a) (replies a).
Definition set_broadcasts (x : gset OutboundRequestId) (a : LinkActor) : LinkActor :=
  mkActor (swarm a) (snapshot_tx a) (link a) (config a) (identity a) (router a) (inbound_tx a)
    (pending_outbound a) (pending_inbound a) (inbound_requests a) (pending_forwards a) x
    (next_inbound_token a) (request_ids a) (last_link_state_sequence a) (replies a).
Definition set_token (x : Z) (a : LinkActor) : LinkActor :=
  mkActor (swarm a) (snapshot_tx a) (link a) (config a) (identity a) (router a) (inbound_tx a)
    (pending_outbound a) (pending_inbound a) (inbound_requests a) (pending_forwards a)
    (broadcast_requests a) x (request_ids a) (last_link_state_sequence a) (replies a).
Definition set_request_ids (x : RequestSequence) (a : LinkActor) : LinkActor :=
  mkActor (swarm a) (snapshot_tx a) (link a) (config a) (identity a) (router a) (inbound_tx a)
    (pending_outbound a) (pending_inbound a) (inbound_requests a) (pending_forwards a)
    (broadcast_requests a) (next_inbound_token a) x (last_link_state_sequence a) (replies a).
Definition set_link_sequence (x : Z) (a : LinkActor) : LinkActor :=
  mkActor (swarm a) (snapshot_tx a) (link a) (config a) (identity a) (router a) (inbound_tx a)
    (pending_outbound a) (pending_inbound a) (inbound_requests a) (pending_forwards a)
    (broadcast_requests a) (next_inbound_token a) (request_ids a) x (replies a).
Definition set_replies (x : list (ReplyId * Reply)) (a : LinkActor) : LinkActor :=
  mkActor (swarm a) (snapshot_tx a) (link a) (config a) (identity a) (router a) (inbound_tx a)
    (pending_outbound a) (pending_inbound a) (inbound_requests a) (pending_forwards a)
    (broadcast_requests a) (next_inbound_token a) (request_ids a) (last_link_state_sequence a)
    x.

Definition respond_to (r : ReplyId) (value : Reply) (a : LinkActor) : LinkActor :=
  set_replies (replies a ++ [(r, value)]) a.

Definition send (peer : PeerId) (e : Envelope) (a : LinkActor) : LinkActor * OutboundRequestId :=
  let '(s, id) := send_request (swarm a) peer e in (set_swarm s a, id).

Definition send_back (channel : ResponseChannel) (e : Envelope) (a : LinkActor) : LinkActor * bool :=
  let '(s, ok) := send_response (swarm a) channel e in (set_swarm s a, ok).

Definition close (cid : ConnectionId) (a : LinkActor) : LinkActor :=
  set_swarm (close_connection (swarm a) cid) a.

(** [LinkRuntime::start_inner]: the actor before its first turn, when the
    swarm listens on every configured address. *)
Fixpoint listen_all (s : Swarm) (addresses : list Multiaddr) : Swarm * result unit LinkError :=
  match addresses with
  | [] => (s, Ok tt)
  | address :: rest =>
      match listen_on s address with
      | (s, Ok _) => listen_all s rest
      | (s, Err error) => (s, Err (Transport error))
      end
  end.

Definition start (s : Swarm) (i : NodeIdentity) (cfg : LinkConfig) (reg : AuthorizationRegistry)
    (boot : bytes) (next_sequence : Z) : result LinkActor LinkError :=
  let '(s, listening) := listen_all s (listen_addresses cfg) in
  let? _ := listening in
  let st := new_link_state (ni_node_id i) (peer_id_bytes i) reg in
  Ok (mkActor s (snapshot st) st cfg i (Routing.new (ni_node_id i)) (mkQueue (command_capacity cfg) true [])
        ∅ ∅ ∅ ∅ ∅ 0 (mkSequence boot next_sequence) 0 []).

(** ** Deadlines *)

Definition close_timed_out_peer (peer : PeerId) (a : LinkActor) : LinkActor :=
  let cs := omap (λ p, if decide (c_peer_id p.2 = peer) then Some p.1 else None)
              (btree_iter (connections (link a))) in
  let connection :=
    if decide (length cs = 1%nat) then head cs
    else find (λ cid, negb (bool_decide (cid ∈ healthy_connections (link a)))) cs in
  match connection with
  | Some cid => close cid a
  | None => a
  end.

Definition remove_pending_inbound (tok : Z) (a : LinkActor) : LinkActor :=
  match pending_inbound a !! tok with
  | Some p =>
      set_inbound_requests (delete (in_request_id p) (inbound_requests a))
        (set_pending_inbound (delete tok (pending_inbound a)) a)
  | None => a
  end.

Definition remove_pending_inbound_request (rid : InboundRequestId) (a : LinkActor) : LinkActor :=
  match inbound_requests a !! rid with
  | Some tok =>
      set_pending_inbound (delete tok (pending_inbound a))
        (set_inbound_requests (delete rid (inbound_requests a)) a)
  | None => a
  end.

Definition remove_pending_inbound_peer (peer : PeerId) (a : LinkActor) : LinkActor :=
  let tokens := omap (λ p, if decide (in_peer_id p.2 = peer) then Some p.1 else None)
                  (btree_iter (pending_inbound a)) in
  foldl (λ a tok, remove_pending_inbound tok a) a tokens.

(** [Iterator::min] over the deadlines of the three tables. *)
Definition next_pending_deadline (a : LinkActor) : option Z :=
  min_by_key (λ d : Z, d)
    ((x_deadline_unix_ms ∘ expected <$> btree_values (pending_outbound a))
     ++ (x_deadline_unix_ms ∘ fwd_expected <$> btree_values (pending_forwards a))
     ++ (in_deadline_unix_ms <$> btree_values (pending_inbound a))).

(** The sleep of [run], in milliseconds. *)
Definition deadline_wait (now : Z) (a : LinkActor) : Z :=
  match next_pending_deadline a with
  | Some deadline => Z.max (i64_saturating_sub deadline now) 0
  | None => 3600 * 1000
  end.

Definition expired_keys {A} (deadline : A → Z) (now : Z) (m : gmap Z A) : list Z :=
  omap (λ p, if decide (deadline p.2 ≤ now) then Some p.1 else None) (btree_iter m).

Definition expire_outbound (acc : LinkActor * gset PeerId) (id : OutboundRequestId)
    : LinkActor * gset PeerId :=
  let '(a, failed) := acc in
  match pending_outbound a !! id with
  | Some p =>
      (respond_to (reply p) (ReplyEnvelope (Err Timeout))
         (set_outbound (delete id (pending_outbound a)) a),
       {[expected_peer (expected p)]} ∪ failed)
  | None => (a, failed)
  end.

(** Dropping the response channel is the swarm's business. *)
Definition expire_forward (acc : LinkActor * gset PeerId) (id : OutboundRequestId)
    : LinkActor * gset PeerId :=
  let '(a, failed) := acc in
  match pending_forwards a !! id with
  | Some f =>
      (set_router (complete_forward (router a)) (set_forwards (delete id (pending_forwards a)) a),
       {[expected_peer (fwd_expected f)]} ∪ failed)
  | None => (a, failed)
  end.

Definition expire_pending_requests (now : Z) (a : LinkActor) : LinkActor :=
  let expired_outbound := expired_keys (x_deadline_unix_ms ∘ expected) now (pending_outbound a) in
  let expired_forwards := expired_keys (x_deadline_unix_ms ∘ fwd_expected) now (pending_forwards a) in
  let expired_inbound := expired_keys in_deadline_unix_ms now (pending_inbound a) in
  let '(a, failed) := foldl expire_outbound (a, ∅) expired_outbound in
  let '(a, failed) := foldl expire_forward (a, failed) expired_forwards in
  let a := foldl (λ a tok, remove_pending_inbound tok a) a expired_inbound in
  foldl (λ a peer, close_timed_out_peer peer a) a (set_iter failed).

(** ** Dialling and maintenance *)

Definition dial_address (n : NodeId) (peer : PeerId) (address : Multiaddr) (now : Z) (a : LinkActor)
    : LinkActor * result unit LinkError :=
  let '(s, r) := swarm_dial (swarm a) peer [address] in
  let a := set_swarm s a in
  match r with
  | Ok _ => (a, Ok tt)
  | Err error =>
      (set_link (set_directory (note_failure (directory (link a)) n (Some address) now
                   (reconnect_min_delay (config a)) (reconnect_max_delay (config a))) (link a)) a,
       Err (Transport error))
  end.

Definition dial (n : NodeId) (address : Multiaddr) (now : Z) (a : LinkActor)
    : LinkActor * result unit LinkError :=
  match active_peer (link a) n with
  | None => (a, Err (UnauthorizedNode n))
  | Some peer =>
      let d := Directory.record (directory (link a)) n peer address Configured now
                 (discovered_address_ttl (config a)) in
      let a := set_link (set_directory (resume d n) (link a)) a in
      dial_address n peer address now a
  end.

Definition dial_admission (address : Multiaddr) (a : LinkActor) : LinkActor * result PeerId LinkError :=
  match terminal_peer_id address with
  | None => (a, Err (Transport "admission dial requires a /p2p/ peer id component"))
  | Some peer =>
      let '(s, r) := swarm_dial (swarm a) peer [address] in
      (set_swarm s a, match r with Ok _ => Ok peer | Err error => Err (Transport error) end)
  end.

Definition reserve_via (n : NodeId) (relayed_address : Multiaddr) (a : LinkActor)
    : LinkActor * result unit LinkError :=
  if has_listener_with_prefix (link a) relayed_address then (a, Ok tt)
  else
    let '(s, r) := listen_on (swarm a) relayed_address in
    let a := set_swarm s a in
    match r with
    | Ok _ => (a, Ok tt)
    | Err error =>
        (set_link (set_reservations (delete n (relay_reservations (link a))) (link a)) a,
         Err (Transport error))
    end.

Definition listen_via_relay (n : NodeId) (address : Multiaddr) (a : LinkActor)
    : LinkActor * result unit LinkError :=
  match active_peer (link a) n with
  | None => (a, Err (UnauthorizedNode n))
  | Some relay_peer =>
      let relayed := with_protocol (with_protocol address (P2p relay_peer)) P2pCircuit in
      reserve_via n relayed
        (set_link (set_reservations (<[n := relayed]> (relay_reservations (link a))) (link a)) a)
  end.

Definition maintain_candidate (now : Z) (a : LinkActor) (c : NodeId * PeerId * Multiaddr) : LinkActor :=
  let '(n, peer, address) := c in
  if node_is_connected (link a) n || pending_for_node (link a) n then a
  else (dial_address n peer address now a).1.

Definition maintain_reservation (a : LinkActor) (r : NodeId * Multiaddr) : LinkActor :=
  if has_listener_with_prefix (link a) r.2 then a else (reserve_via r.1 r.2 a).1.

Definition maintain (clock : Clock) (a : LinkActor) : LinkActor :=
  let now := instant clock in
  let a := expire_pending_requests (now_unix_ms clock) a in
  let a := set_link (set_directory (expire (directory (link a)) now) (link a)) a in
  let a := foldl (maintain_candidate now) a (candidates (directory (link a)) now) in
  foldl maintain_reservation a (btree_iter (relay_reservations (link a))).

Definition handle_mdns (event : SwarmEvent) (clock : Clock) (a : LinkActor) : LinkActor :=
  match event with
  | MdnsDiscovered discovered =>
      set_link (foldl (λ s p, record_discovered_address s p.1 p.2 (instant clock)
                                (discovered_address_ttl (config a))) (link a) discovered) a
  | MdnsExpired expired =>
      set_link (foldl (λ s p, expire_discovered_address s p.1 p.2) (link a) expired) a
  | _ => a
  end.

(** ** Requests *)

Definition send_peer_request (now : Z) (peer : PeerId) (e : Envelope) (r : ReplyId) (a : LinkActor)
    : LinkActor :=
  if decide (deadline_unix_ms (header e) ≤ now) then respond_to r (ReplyEnvelope (Err Timeout)) a
  else
    let x := from_request e peer in
    let '(a, id) := send peer e a in
    set_outbound (<[id := mkPendingRequest x r]> (pending_outbound a)) a.

(** [None] is a next hop search out of fuel, which does not happen
    ([next_hop_spec]). *)
Definition route_outbound (e : Envelope) (a : LinkActor) : result PeerId LinkError :=
  let h := header e in
  let dest := destination h in
  if decide (version h ≠ PROTOCOL_VERSION ∨ dest = local_node (link a)) then Err (LinkNoRoute dest)
  else if decide (h_cluster_id h ≠ reg_cluster_id (authorization (link a)))
  then Err (LinkNoRoute dest)
  else
    let? hop :=
      if node_is_connected (link a) dest then Ok dest
      else ok_or (mjoin (Routing.next_hop (links (router a)) (local_node (link a)) dest))
             (LinkNoRoute dest) in
    ok_or (active_peer (link a) hop) (LinkNoRoute hop).

Definition send_routed_request (now : Z) (e : Envelope) (r : ReplyId) (a : LinkActor) : LinkActor :=
  if decide (protocol (header e) = Protocol.Admission)
  then respond_to r (ReplyEnvelope (Err InvalidAdmissionRequest)) a
  else
    match route_outbound e a with
    | Ok peer => send_peer_request now peer e r a
    | Err error => respond_to r (ReplyEnvelope (Err error)) a
    end.

Definition send_admission_request (now : Z) (sponsor : PeerId) (e : Envelope) (r : ReplyId)
    (a : LinkActor) : LinkActor :=
  if decide (protocol (header e) ≠ Protocol.Admission)
  then respond_to r (ReplyEnvelope (Err InvalidAdmissionRequest)) a
  else
    let authorized := match node_for_peer (authorization (link a)) sponsor with
                      | Some _ => true | None => false end in
    if negb (peer_is_quarantined (link a) sponsor) && negb authorized
    then respond_to r (ReplyEnvelope (Err (AdmissionPeerUnavailable sponsor))) a
    else send_peer_request now sponsor e r a.

Definition respond (now tok : Z) (e : Envelope) (a : LinkActor) : LinkActor * result unit LinkError :=
  match pending_inbound a !! tok with
  | None => (a, Err UnknownInbound)
  | Some p =>
      let a := set_inbound_requests (delete (in_request_id p) (inbound_requests a))
                 (set_pending_inbound (delete tok (pending_inbound a)) a) in
      if decide (in_deadline_unix_ms p ≤ now) then (a, Err Timeout)
      else
        let '(a, ok) := send_back (in_channel p) e a in
        (a, if ok then Ok tt else Err (Transport "failed to flush the overlay response"))
  end.

(** ** Inbound envelopes *)

Definition deliver (now : Z) (peer : PeerId) (rid : InboundRequestId) (e : Envelope)
    (channel : ResponseChannel) (a : LinkActor) : LinkActor :=
  if decide (deadline_unix_ms (header e) ≤ now) then a
  else if decide (MAX_PENDING_INBOUND <= size (pending_inbound a))%nat then a
  else
    let deadline := Z.min (deadline_unix_ms (header e)) (i64_saturating_add now MAX_INBOUND_LIFETIME_MS) in
    let tok := next_inbound_token a in
    let a := set_token (u64_wrap (tok + 1)) a in
    match try_send (inbound_tx a) (mkInbound tok peer e) with
    | Some q =>
        set_inbound_requests (<[rid := tok]> (inbound_requests a))
          (set_pending_inbound (<[tok := mkPendingInbound rid peer deadline channel]> (pending_inbound a))
             (set_inbound q a))
    | None => a
    end.

Definition accept_link_state (e : Envelope) (a : LinkActor) : LinkActor :=
  match from_bytes (A:=LinkStateRecord) (payload e) with
  | Err _ => a
  | Ok record =>
      match active_record_for_node (authorization (link a)) (ls_node_id record) with
      | None => a
      | Some authorized =>
          match insert_link_state (links (router a)) record (public_key authorized) with
          | Ok (db, _) => set_router (with_links (router a) db) a
          | Err _ => a
          end
      end
  end.

Definition response_envelope (request : Envelope) (p : bytes) (a : LinkActor) : option Envelope :=
  let h := header request in
  match new_envelope
    (mkHeader PROTOCOL_VERSION (reg_cluster_id (authorization (link a))) (request_id h)
       (local_node (link a)) (source h) (protocol h) Response (deadline_unix_ms h) (remaining_hops h)) p with
  | Ok e => Some e
  | Err _ => None
  end.

Definition reply_empty (channel : ResponseChannel) (request : Envelope) (a : LinkActor) : LinkActor :=
  match response_envelope request "" a with
  | Some response => (send_back channel response a).1
  | None => a
  end.

(** [None] of the router is a search out of fuel ([handle_total] excludes it). *)
Definition route_inbound (now : Z) (peer : PeerId) (rid : InboundRequestId) (e : Envelope)
    (channel : ResponseChannel) (a : LinkActor) : LinkActor :=
  match Routing.handle (router a) e now with
  | None => a
  | Some (r, decision) =>
      let a := set_router r a in
      match decision with
      | Deliver e => deliver now peer rid e channel a
      | Forward hop e =>
          match active_peer (link a) hop with
          | None => set_router (complete_forward (router a)) a
          | Some next_peer =>
              let x := from_request e next_peer in
              let '(a, id) := send next_peer e a in
              set_forwards (<[id := mkForward channel x]> (pending_forwards a)) a
          end
      | Drop _ => a
      end
  end.

Definition handle_inbound_request (now : Z) (peer : PeerId) (rid : InboundRequestId) (e : Envelope)
    (channel : ResponseChannel) (a : LinkActor) : LinkActor :=
  let h := header e in
  if decide (version h ≠ PROTOCOL_VERSION) then a
  else
    match node_for_peer (authorization (link a)) peer with
    | None =>
        if peer_is_quarantined (link a) peer && bool_decide (protocol h = Protocol.Admission)
        then deliver now peer rid e channel a else a
    | Some _ =>
        if decide (protocol h = Protocol.Admission) then deliver now peer rid e channel a
        else if decide (h_cluster_id h ≠ reg_cluster_id (authorization (link a))) then a
        else if decide (protocol h = Route ∧ h_kind h = Event)
        then reply_empty channel e (accept_link_state e a)
        else route_inbound now peer rid e channel a
    end.

(** ** The request-response behaviour *)

Definition handle_response (now : Z) (peer : PeerId) (id : OutboundRequestId) (response : Envelope)
    (a : LinkActor) : LinkActor :=
  match pending_outbound a !! id with
  | Some p =>
      let a := set_outbound (delete id (pending_outbound a)) a in
      if decide (x_deadline_unix_ms (expected p) ≤ now)
      then respond_to (reply p) (ReplyEnvelope (Err Timeout)) (close_timed_out_peer peer a)
      else respond_to (reply p) (ReplyEnvelope
             (let? _ := validate_response (expected p) response peer in Ok response)) a
  | None =>
      match pending_forwards a !! id with
      | Some f =>
          let a := set_router (complete_forward (router a))
                     (set_forwards (delete id (pending_forwards a)) a) in
          if bool_decide (x_deadline_unix_ms (fwd_expected f) > now)
             && is_ok (validate_response (fwd_expected f) response peer)
          then (send_back (fwd_channel f) response a).1
          else close_timed_out_peer peer a
      | None => set_broadcasts (broadcast_requests a ∖ {[id]}) a
      end
  end.

Definition handle_outbound_failure (now : Z) (id : OutboundRequestId) (error : string) (a : LinkActor)
    : LinkActor :=
  match pending_outbound a !! id with
  | Some p =>
      let a := set_outbound (delete id (pending_outbound a)) a in
      if decide (x_deadline_unix_ms (expected p) ≤ now)
      then respond_to (reply p) (ReplyEnvelope (Err Timeout))
             (close_timed_out_peer (expected_peer (expected p)) a)
      else respond_to (reply p) (ReplyEnvelope (Err (Transport error))) a
  | None =>
      match pending_forwards a !! id with
      | Some _ => set_router (complete_forward (router a)) (set_forwards (delete id (pending_forwards a)) a)
      | None => set_broadcasts (broadcast_requests a ∖ {[id]}) a
      end
  end.

Definition handle_messaging (now : Z) (event : MessagingEvent) (a : LinkActor) : LinkActor :=
  match event with
  | MsgRequest peer rid request channel => handle_inbound_request now peer rid request channel a
  | MsgResponse peer id response => handle_response now peer id response a
  | OutboundFailure id error => handle_outbound_failure now id error a
  | InboundFailure rid => remove_pending_inbound_request rid a
  | ResponseSent => a
  end.

(** ** Advertising the links *)

Definition next_request_id (a : LinkActor) : LinkActor * result RequestId LinkError :=
  let '(s, r) := allocate (request_ids a) (local_node (link a)) in (set_request_ids s a, r).

(** The loop over the connected peers, which returns at the first failure. *)
Fixpoint publish (now : Z) (p : bytes) (peers : list (PeerId * NodeId)) (a : LinkActor) : LinkActor :=
  match peers with
  | [] => a
  | (peer, n) :: peers' =>
      let '(a, rid) := next_request_id a in
      match rid with
      | Err _ => a
      | Ok rid =>
          match new_envelope
            (mkHeader PROTOCOL_VERSION (reg_cluster_id (authorization (link a))) rid
               (local_node (link a)) n Route Event (i64_wrap (now + 10000)) 0) p with
          | Err _ => a
          | Ok e =>
              let '(a, id) := send peer e a in
              publish now p peers' (set_broadcasts ({[id]} ∪ broadcast_requests a) a)
          end
      end
  end.

Definition advertise_link_state (now : Z) (a : LinkActor) : LinkActor :=
  let seq := Z.max (Z.max now 0) (u64_wrap (last_link_state_sequence a + 1)) in
  let a := set_link_sequence seq a in
  let es := c_node_id <$> btree_values (connections (link a)) in
  match sign_link_state (identity a) es seq with
  | Err _ => a
  | Ok record =>
      let a :=
        match insert_link_state (links (router a)) record (public_key_bytes (identity a)) with
        | Ok (db, _) => set_router (with_links (router a) db) a
        | Err _ => a
        end in
      match to_stdvec record with
      | Err _ => a
      | Ok p =>
          let peers : list (PeerId * NodeId) :=
            set_iter (list_to_set ((λ c, (c_peer_id c, c_node_id c)) <$> btree_values (connections (link a)))
                      : gset (PeerId * NodeId)) in
          publish now p peers a
      end
  end.

(** ** Authorization *)

Definition validate_authorization (reg : AuthorizationRegistry) (check_cluster : bool) (a : LinkActor)
    : result unit LinkError :=
  if check_cluster && bool_decide (reg_cluster_id reg ≠ reg_cluster_id (authorization (link a)))
  then Err (LinkAuthorization (ForeignCluster (reg_cluster_id (authorization (link a))) (reg_cluster_id reg)))
  else Ok tt.

Definition is_authorized_node (reg : AuthorizationRegistry) (n : NodeId) : bool :=
  match active_peer_for_node peer_id_from_bytes reg n with Some _ => true | None => false end.

Definition promote (s : LinkState) (cid : ConnectionId) : LinkState :=
  match quarantined_connections s !! cid with
  | None => s
  | Some q =>
      let s := set_quarantined (delete cid (quarantined_connections s)) s in
      match node_for_peer (authorization s) (q_peer_id q) with
      | Some n => (state_connection_established s (q_peer_id q) n cid (q_endpoint q)).1
      | None => s
      end
  end.

Definition promoted_ids (s : LinkState) : list ConnectionId :=
  omap (λ p, match node_for_peer (authorization s) (q_peer_id p.2) with
             | Some _ => Some p.1 | None => None end) (btree_iter (quarantined_connections s)).

Definition stale_ids (s : LinkState) : list ConnectionId :=
  omap (λ p, if decide (node_for_peer (authorization s) (c_peer_id p.2) = Some (c_node_id p.2))
             then None else Some p.1) (btree_iter (connections s)).

Definition install_authorization (now : Z) (reg : AuthorizationRegistry) (a : LinkActor) : LinkActor :=
  let s := set_authorization reg (link a) in
  let s := set_directory (retain (directory s) (is_authorized_node reg)) s in
  let s := set_reservations
             (filter (λ p, is_authorized_node reg p.1 = true) (relay_reservations s)) s in
  let a := set_router (Routing.new (local_node s)) a in
  let s := foldl promote s (promoted_ids s) in
  let a := foldl (λ a cid, close cid a) (set_link s a) (stale_ids s) in
  advertise_link_state now (set_snapshot (snapshot (link a)) a).

(** ** Connections *)

(** [sort_by] on the preference, then on the connection id. *)
Definition ranked_connections (local_peer peer : PeerId) (n : NodeId) (s : LinkState)
    : list (ConnectionId * (Z * Z * bytes)) :=
  sort_by_key (λ c, (c.2, c.1))
    ((λ p, (p.1, connection_preference local_peer peer (c_endpoint p.2)))
       <$> filter (λ p, c_node_id p.2 = n) (btree_iter (connections s))).

Definition arbitrate_connections (peer : PeerId) (n : NodeId) (a : LinkActor) : LinkActor :=
  match ranked_connections (local_peer_id (link a)) peer n (link a) with
  | [] | [_] => a
  | _ :: losers => foldl (λ a c, close c.1 a) a losers
  end.

(** [LinkActor::connection_established] *)
Definition connection_established (now : Z) (peer : PeerId) (cid : ConnectionId)
    (endpoint : ConnectedPoint) (a : LinkActor) : LinkActor * bool :=
  let a := set_link (set_pending_dials (delete cid (pending_dials (link a))) (link a)) a in
  match node_for_peer (authorization (link a)) peer with
  | None =>
      if decide (MAX_QUARANTINED_CONNECTIONS <= size (quarantined_connections (link a)))%nat
      then (close cid a, false)
      else
        (set_link (set_quarantined
           (<[cid := mkQuarantined peer endpoint]> (quarantined_connections (link a))) (link a)) a, true)
  | Some n =>
      let '(s, changed) := state_connection_established (link a) peer n cid endpoint in
      let s := set_directory (note_success (directory s) n (get_remote_address endpoint) now) s in
      (arbitrate_connections peer n (set_link s a), changed)
  end.

Definition on_connection_closed (now : Z) (peer : PeerId) (cid : ConnectionId) (a : LinkActor)
    : LinkActor * bool :=
  let node := c_node_id <$> connections (link a) !! cid in
  let s := set_pending_dials (delete cid (pending_dials (link a))) (link a) in
  let quarantined_closed := bool_decide (is_Some (quarantined_connections s !! cid)) in
  let s := set_quarantined (delete cid (quarantined_connections s)) s in
  let '(s, closed) := connection_closed s peer cid in
  let a := set_link s a in
  let a := if peer_is_connected s peer || peer_is_quarantined s peer then a
           else remove_pending_inbound_peer peer a in
  let a :=
    match node with
    | Some n =>
        if node_is_connected (link a) n then a
        else set_link (set_directory (note_connection_closed (directory (link a)) n now
                         (reconnect_min_delay (config a))) (link a)) a
    | None => a
    end in
  (a, closed || quarantined_closed).

(** [listeners.remove(&address)] *)
Definition remove_listener (a : LinkActor) (address : Multiaddr) : LinkActor * bool :=
  (set_link (set_listeners (listeners (link a) ∖ {[address]}) (link a)) a,
   bool_decide (address ∈ listeners (link a))).

Definition close_listener (acc : LinkActor * bool) (address : Multiaddr) : LinkActor * bool :=
  let '(a, removed) := remove_listener acc.1 address in (a, removed || acc.2).

Definition event_effect (clock : Clock) (event : SwarmEvent) (a : LinkActor) : LinkActor * bool :=
  match event with
  | NewListenAddr address =>
      let a := set_swarm (add_external_address (swarm a) address) a in
      (set_link (set_listeners ({[address]} ∪ listeners (link a)) (link a)) a,
       bool_decide (address ∉ listeners (link a)))
  | ExpiredListenAddr address => remove_listener a address
  | ListenerClosed addresses => foldl close_listener (a, false) addresses
  | ConnectionEstablished peer cid endpoint =>
      connection_established (instant clock) peer cid endpoint a
  | ConnectionClosed peer cid => on_connection_closed (instant clock) peer cid a
  | Dialing peer cid =>
      match (peer ← peer; node_for_peer (authorization (link a)) peer) with
      | Some n => (set_link (set_pending_dials (<[cid := n]> (pending_dials (link a))) (link a)) a, false)
      | None => (a, false)
      end
  | Ping peer cid ok =>
      let '(s, changed) := set_connection_health (link a) peer cid ok in
      let a := set_link s a in
      (if ok then a else close cid a, changed)
  | MdnsDiscovered _ | MdnsExpired _ => (maintain clock (handle_mdns event clock a), false)
  | Messaging event => (handle_messaging (now_unix_ms clock) event a, false)
  | OutgoingConnectionError cid =>
      match pending_dials (link a) !! cid with
      | Some n =>
          (set_link (set_directory (note_failure (directory (link a)) n None (instant clock)
                       (reconnect_min_delay (config a)) (reconnect_max_delay (config a)))
             (set_pending_dials (delete cid (pending_dials (link a))) (link a))) a, false)
      | None => (a, false)
      end
  | OtherEvent => (a, false)
  end.

Definition handle_event (clock : Clock) (event : SwarmEvent) (a : LinkActor) : LinkActor :=
  let edges_before := edge_set (link a) in
  let '(a, changed) := event_effect clock event a in
  let a := if changed then set_snapshot (snapshot (link a)) a else a in
  if decide (edge_set (link a) ≠ edges_before) then advertise_link_state (now_unix_ms clock) a else a.

(** ** Commands and turns *)

(** The [Disconnect] command. *)
Definition disconnect (n : NodeId) (a : LinkActor) : LinkActor * result unit LinkError :=
  let a := set_link (set_directory (pause (directory (link a)) n) (link a)) a in
  match active_peer (link a) n with
  | None => (a, Err (UnauthorizedNode n))
  | Some peer =>
      let '(s, ok) := disconnect_peer_id (swarm a) peer in
      (set_swarm s a, if ok then Ok tt else Err (NotConnected n))
  end.

Definition handle_command (clock : Clock) (command : LinkCommand) (a : LinkActor) : LinkActor * bool :=
  let now := now_unix_ms clock in
  match command with
  | CmdRequest e r => (send_routed_request now e r a, false)
  | CmdRequestAdmission sponsor e r => (send_admission_request now sponsor e r a, false)
  | CmdRespond tok e r =>
      let '(a, result) := respond now tok e a in (respond_to r (ReplyUnit result) a, false)
  | CmdDial n address r =>
      let '(a, result) := dial n address (instant clock) a in (respond_to r (ReplyUnit result) a, false)
  | CmdDialAdmission address r =>
      let '(a, result) := dial_admission address a in (respond_to r (ReplyPeer result) a, false)
  | CmdListenViaRelay n address r =>
      let '(a, result) := listen_via_relay n address a in (respond_to r (ReplyUnit result) a, false)
  | CmdDisconnect n r =>
      let '(a, result) := disconnect n a in (respond_to r (ReplyUnit result) a, false)
  | CmdCommitAuthorization reg check_cluster persist r =>
      let result :=
        let? _ := validate_authorization reg check_cluster a in
        map_err AuthorizationCommit persist in
      let a := match result with Ok _ => install_authorization now reg a | Err _ => a end in
      (respond_to r (ReplyUnit result) a, false)
  | CmdShutdown r => (respond_to r ReplyDone a, true)
  end.

(** What the [select!] of [run] picks, and the two operations of the handle
    that touch shared state: taking an inbound envelope and drawing an id. *)
Inductive Turn : Type :=
| TCommand (command : LinkCommand)
| TEvent (event : SwarmEvent)
| TMaintenance
| TDeadline
| TNextInbound
| TNextRequestId.

Definition turn (clock : Clock) (t : Turn) (a : LinkActor) : LinkActor * bool :=
  match t with
  | TCommand command => handle_command clock command a
  | TEvent event => (handle_event clock event a, false)
  | TMaintenance => (maintain clock a, false)
  | TDeadline => (expire_pending_requests (now_unix_ms clock) a, false)
  | TNextInbound =>
      (set_inbound (mkQueue (capacity (inbound_tx a)) (receiver_open (inbound_tx a))
                      (tail (waiting (inbound_tx a)))) a, false)
  | TNextRequestId => ((next_request_id a).1, false)
  end.

(** The loop of [run], which stops at a shutdown. *)
Fixpoint run (a : LinkActor) (ts : list (Clock * Turn)) : LinkActor :=
  match ts with
  | [] => a
  | (clock, t) :: ts' => let '(a, stop) := turn clock t a in if stop then a else run a ts'
  end.
End actor.
