(* ===== verification/LinkInvariant.v ===== *)
(** * Invariants of the link actor

    What every turn of the actor of [Link] preserves: the ledger of replies,
    the bounds of its tables, the relay slots, and the published snapshot. *)

From S2P Require Import Prelude.
From S2P Require Import Identity.
From S2P Require Import Protocol.
From S2P Require Import Authorization.
From S2P Require Import Trust.
From S2P Require Import Routing.
From S2P Require Import Directory.
From S2P Require Import Admission.
From S2P Require Import LinkState.
From S2P Require Import Link.

(** What the actor relies on of the swarm: request ids are never reused. *)
Class NetworkLaws `{!Network} := {
  issued : Swarm → gset OutboundRequestId;
  issued_request s p e :
    (send_request s p e).2 ∉ issued s ∧
    issued (send_request s p e).1 = {[(send_request s p e).2]} ∪ issued s;
  issued_dial s p l : issued (swarm_dial s p l).1 = issued s;
  issued_listen s m : issued (listen_on s m).1 = issued s;
  issued_disconnect s p : issued (disconnect_peer_id s p).1 = issued s;
  issued_close s c : issued (close_connection s c) = issued s;
  issued_external s m : issued (add_external_address s m) = issued s;
  issued_response s c e : issued (send_response s c e).1 = issued s;
}.

Section invariants.
Context `{!Crypto} `{!Postcard} `{!AdmissionCrypto} `{!LibP2p} `{!Network} `{!NetworkLaws}.
Context `{!Serialize LinkStateBody} `{!Serialize LinkStateRecord}.
Implicit Types (a b c : LinkActor).

(** ** Steps that keep the tables

    Everything but the swarm, the link-state database, and the dialling
    bookkeeping stays. *)
Record keeps_link (s s' : LinkState) : Prop := {
  kl_node : local_node s' = local_node s;
  kl_authorization : authorization s' = authorization s;
  kl_listeners : listeners s' = listeners s;
  kl_connections : connections s' = connections s;
  kl_healthy : healthy_connections s' = healthy_connections s;
  kl_quarantined : quarantined_connections s' = quarantined_connections s;
}.

Record keeps_router (r r' : Router) : Prop := {
  kr_local : local r' = local r;
  kr_seen : seen r' = seen r;
  kr_seen_set : seen_set r' = seen_set r;
  kr_seen_capacity : seen_capacity r' = seen_capacity r;
  kr_inflight : inflight r' = inflight r;
  kr_max : max_inflight r' = max_inflight r;
}.

Record keeps a b : Prop := {
  k_issued : issued (swarm a) ⊆ issued (swarm b);
  k_snapshot : snapshot_tx b = snapshot_tx a;
  k_link : keeps_link (link a) (link b);
  k_router : keeps_router (router a) (router b);
  k_inbound : inbound_tx b = inbound_tx a;
  k_outbound : pending_outbound b = pending_outbound a;
  k_pending_inbound : pending_inbound b = pending_inbound a;
  k_inbound_requests : inbound_requests b = inbound_requests a;
  k_forwards : pending_forwards b = pending_forwards a;
  k_token : next_inbound_token b = next_inbound_token a;
  k_replies : replies b = replies a;
}.

#[export] Instance keeps_link_preorder : PreOrder keeps_link.
Proof. split; [by split|]. intros x y z [] []. split; congruence. Qed.
#[export] Instance keeps_router_preorder : PreOrder keeps_router.
Proof. split; [by split|]. intros x y z [] []. split; congruence. Qed.
#[export] Instance keeps_preorder : PreOrder keeps.
Proof. split; [by split|]. intros x y z [] []. split; try congruence; by etrans. Qed.

Lemma keeps_swarm s a : issued (swarm a) ⊆ issued s → keeps a (set_swarm s a).
Proof. intros Hi. by split. Qed.
Lemma keeps_set_link s a : keeps_link (link a) s → keeps a (set_link s a).
Proof. intros Hl. by split. Qed.
Lemma keeps_set_router r a : keeps_router (router a) r → keeps a (set_router r a).
Proof. intros Hl. by split. Qed.
Lemma keeps_foldl {X} (f : LinkActor → X → LinkActor) l a :
  (∀ b x, keeps b (f b x)) → keeps a (foldl f a l).
Proof.
  intros Hf. revert a. induction l as [|x l IH]; intros a; cbn [foldl]; [done|].
  etrans; [apply Hf|apply IH].
Qed.
Lemma keeps_directory d s : keeps_link s (set_directory d s).
Proof. by split. Qed.
Lemma keeps_reservations r s : keeps_link s (set_reservations r s).
Proof. by split. Qed.
Lemma keeps_dials r s : keeps_link s (set_pending_dials r s).
Proof. by split. Qed.
Lemma keeps_links db r : keeps_router r (with_links r db).
Proof. by split. Qed.

Hint Resolve keeps_swarm keeps_set_link keeps_set_router keeps_foldl keeps_directory
  keeps_reservations keeps_dials keeps_links : keeps.
Hint Extern 1 (keeps _ _) => reflexivity : keeps.
Hint Extern 1 (_ ⊆ issued _) =>
  rewrite ?issued_close, ?issued_dial, ?issued_listen, ?issued_disconnect, ?issued_external,
    ?issued_response; reflexivity : keeps.

Lemma keeps_close cid a : keeps a (close cid a).
Proof. unfold close. auto with keeps. Qed.

Lemma keeps_close_timed_out peer a : keeps a (close_timed_out_peer peer a).
Proof. unfold close_timed_out_peer. cbv zeta. case_match; auto using keeps_close with keeps. Qed.

Lemma keeps_send_back ch e a : keeps a (send_back ch e a).1.
Proof.
  unfold send_back. pose proof (issued_response (swarm a) ch e) as Hi.
  destruct (send_response (swarm a) ch e) as [s ok]. cbn [fst] in *. apply keeps_swarm. by rewrite Hi.
Qed.

Lemma send_spec peer e a b id :
  send peer e a = (b, id) →
  keeps a b ∧ id ∉ issued (swarm a) ∧ issued (swarm b) = {[id]} ∪ issued (swarm a).
Proof.
  unfold send. pose proof (issued_request (swarm a) peer e) as [Hf Hi].
  destruct (send_request (swarm a) peer e) as [s i]. cbn [fst snd] in *. intros [= <- <-].
  split_and!; [|done|done]. apply keeps_swarm. rewrite Hi. set_solver.
Qed.

Lemma keeps_dial_address n peer address now a : keeps a (dial_address n peer address now a).1.
Proof.
  unfold dial_address. pose proof (issued_dial (swarm a) peer [address]) as Hi.
  destruct (swarm_dial _ _ _) as [s []]; cbn [fst] in *.
  - apply keeps_swarm. by rewrite Hi.
  - etrans; [apply (keeps_swarm s); by rewrite Hi|]. auto with keeps.
Qed.

Lemma keeps_dial n address now a : keeps a (dial n address now a).1.
Proof.
  unfold dial. case_match; [|done]. cbv zeta.
  etrans; [|apply keeps_dial_address]. auto with keeps.
Qed.

Lemma keeps_dial_admission address a : keeps a (dial_admission address a).1.
Proof.
  unfold dial_admission. destruct (terminal_peer_id address) as [p|]; [|done].
  pose proof (issued_dial (swarm a) p [address]) as Hi.
  destruct (swarm_dial _ _ _) as [s r]. cbn [fst] in *. apply keeps_swarm. by rewrite Hi.
Qed.

Lemma keeps_reserve_via n address a : keeps a (reserve_via n address a).1.
Proof.
  unfold reserve_via. case_match; [done|]. pose proof (issued_listen (swarm a) address) as Hi.
  destruct (listen_on _ _) as [s []]; cbn [fst] in *.
  - apply keeps_swarm. by rewrite Hi.
  - etrans; [apply (keeps_swarm s); by rewrite Hi|]. auto with keeps.
Qed.

Lemma keeps_listen_via_relay n address a : keeps a (listen_via_relay n address a).1.
Proof.
  unfold listen_via_relay. case_match; [|done]. cbv zeta.
  etrans; [|apply keeps_reserve_via]. auto with keeps.
Qed.

Lemma keeps_maintain_candidate now a x : keeps a (maintain_candidate now a x).
Proof.
  unfold maintain_candidate. destruct x as [[n p] m]. case_match; [done|]. apply keeps_dial_address.
Qed.

Lemma keeps_maintain_reservation a x : keeps a (maintain_reservation a x).
Proof. unfold maintain_reservation. case_match; [done|]. apply keeps_reserve_via. Qed.

(** Maintenance after the deadlines were enforced. *)
Lemma keeps_maintain clock a :
  keeps (expire_pending_requests (now_unix_ms clock) a) (maintain clock a).
Proof.
  unfold maintain. cbv zeta. etrans; [|apply keeps_foldl, keeps_maintain_reservation].
  etrans; [|apply keeps_foldl, keeps_maintain_candidate]. auto with keeps.
Qed.

Lemma keeps_discovered s peer address now ttl :
  keeps_link s (record_discovered_address s peer address now ttl).
Proof. unfold record_discovered_address. case_match; [apply keeps_directory|done]. Qed.

Lemma keeps_mdns event clock a : keeps a (handle_mdns event clock a).
Proof.
  unfold handle_mdns. destruct event; try done; apply keeps_set_link.
  - generalize (link a). induction discovered as [|p l IH]; intros s; cbn [foldl]; [done|].
    etrans; [apply keeps_discovered|apply IH].
  - generalize (link a). induction expired as [|p l IH]; intros s; cbn [foldl]; [done|].
    etrans; [|apply IH]. apply keeps_directory.
Qed.

Lemma keeps_accept_link_state e a : keeps a (accept_link_state e a).
Proof.
  unfold accept_link_state. case_match; [|done]. case_match; [|done]. case_match; [|done].
  case_match. auto with keeps.
Qed.

Lemma keeps_reply_empty ch e a : keeps a (reply_empty ch e a).
Proof. unfold reply_empty. case_match; [apply keeps_send_back|done]. Qed.

Lemma keeps_next_request_id a : keeps a (next_request_id a).1.
Proof. unfold next_request_id. by destruct (allocate _ _). Qed.

Lemma keeps_publish now p peers a : keeps a (publish now p peers a).
Proof.
  revert a. induction peers as [|[peer n] peers IH]; intros a; cbn [publish]; [done|].
  pose proof (keeps_next_request_id a) as Hr. destruct (next_request_id a) as [a1 rid]. cbn [fst] in Hr.
  destruct rid as [rid|]; [|done]. destruct (new_envelope _ _) as [e|]; [|done].
  destruct (send peer e a1) as [next id] eqn:Es.
  apply send_spec in Es as (Hs & _). etrans; [exact Hr|]. etrans; [exact Hs|].
  etrans; [|apply IH]. by split.
Qed.

Lemma keeps_advertise now a : keeps a (advertise_link_state now a).
Proof.
  unfold advertise_link_state. cbv zeta.
  destruct (sign_link_state _ _ _) as [record|]; [|by split].
  destruct (insert_link_state _ _ _) as [[db fresh]|], (to_stdvec record); try (by split);
    (etrans; [|apply keeps_publish]); by split.
Qed.

(** ** The ledger of replies *)

Definition awaiting a : list ReplyId := reply <$> (map_to_list (pending_outbound a)).*2.

(** What the commands so far asked for: the reply channel of each, with the
    envelope if it is a request. *)
Record books (hist : list (ReplyId * option Envelope)) a : Prop := {
  bk_issued : dom (pending_outbound a) ⊆ issued (swarm a);
  bk_ledger : (replies a).*1 ++ awaiting a ≡ₚ hist.*1;
  bk_pending id p : pending_outbound a !! id = Some p →
    ∃ e, (reply p, Some e) ∈ hist ∧ expected p = from_request e (expected_peer (expected p));
  bk_answers r e' : (r, ReplyEnvelope (Ok e')) ∈ replies a →
    ∃ e peer, (r, Some e) ∈ hist ∧ validate_response (from_request e peer) e' peer = Ok tt;
}.

Definition not_answer (v : Reply) : Prop := ∀ e, v ≠ ReplyEnvelope (Ok e).

Lemma books_same hist a b :
  issued (swarm a) ⊆ issued (swarm b) → pending_outbound b = pending_outbound a →
  replies b = replies a → books hist a → books hist b.
Proof.
  intros Hi Ho Hr [B1 B2 B3 B4]. split; rewrite ?Ho, ?Hr; try done.
  - by etrans.
  - unfold awaiting. by rewrite Ho.
Qed.

Lemma books_keeps hist a b : keeps a b → books hist a → books hist b.
Proof. intros []. by apply books_same. Qed.

Lemma awaiting_delete a b id p :
  pending_outbound a !! id = Some p → pending_outbound b = delete id (pending_outbound a) →
  awaiting a ≡ₚ reply p :: awaiting b.
Proof.
  intros Hp Hb. unfold awaiting. rewrite Hb, <- (insert_delete_id _ _ _ Hp) at 1.
  rewrite map_to_list_insert by apply lookup_delete_eq. done.
Qed.

Lemma books_answer hist a b id p v :
  pending_outbound a !! id = Some p →
  (∀ e, v = ReplyEnvelope (Ok e) → ∃ peer, validate_response (expected p) e peer = Ok tt ∧
    expected_peer (expected p) = peer) →
  issued (swarm a) ⊆ issued (swarm b) → pending_outbound b = delete id (pending_outbound a) →
  replies b = replies a ++ [(reply p, v)] → books hist a → books hist b.
Proof.
  intros Hp Hv Hi Ho Hr [B1 B2 B3 B4]. split.
  - rewrite Ho, dom_delete_L. set_solver.
  - rewrite Hr, fmap_app, <- B2, (awaiting_delete a b id p Hp Ho), <- app_assoc. done.
  - intros id' p'. rewrite Ho. intros [_ Hp']%lookup_delete_Some. by eapply B3.
  - intros r e'. rewrite Hr, elem_of_app, list_elem_of_singleton. intros [Hin|[= -> <-]]; [by apply B4|].
    destruct (Hv e' eq_refl) as (peer & Hval & Hpeer). destruct (B3 id p Hp) as (e & He & Hx).
    exists e, peer. split; [done|]. by rewrite <- Hpeer, <- Hx, Hpeer.
Qed.

Lemma books_refuse hist a b r o v :
  not_answer v → issued (swarm a) ⊆ issued (swarm b) → pending_outbound b = pending_outbound a →
  replies b = replies a ++ [(r, v)] → books hist a → books ((r, o) :: hist) b.
Proof.
  intros Hv Hi Ho Hr [B1 B2 B3 B4]. split; rewrite ?Ho.
  - by etrans.
  - unfold awaiting in *. rewrite Ho, Hr, fmap_app, !fmap_cons, <- B2, <- app_assoc. simpl.
    by rewrite Permutation_middle.
  - intros id p Hp. destruct (B3 id p Hp) as (e & He & Hx). exists e. split; [by right|done].
  - intros r' e'. rewrite Hr, elem_of_app, list_elem_of_singleton. intros [Hin|[= -> Hve]].
    + destruct (B4 r' e' Hin) as (e & peer & He & Hx). exists e, peer. split; [by right|done].
    + by destruct (Hv e').
Qed.

Lemma books_respond hist a r o v :
  not_answer v → books hist a → books ((r, o) :: hist) (respond_to r v a).
Proof. intros Hv. by apply (books_refuse _ a _ r o v). Qed.

Lemma refused error : not_answer (ReplyEnvelope (Err error)).
Proof. by intros e. Qed.

Lemma books_open hist a b id e peer r :
  id ∉ issued (swarm a) → issued (swarm b) = {[id]} ∪ issued (swarm a) →
  pending_outbound b = <[id := mkPendingRequest (from_request e peer) r]> (pending_outbound a) →
  replies b = replies a → books hist a → books ((r, Some e) :: hist) b.
Proof.
  intros Hf Hi Ho Hr [B1 B2 B3 B4].
  assert (pending_outbound a !! id = None) as Hn.
  { apply not_elem_of_dom. intros Hin. by apply Hf, B1. }
  split.
  - rewrite Ho, Hi, dom_insert_L. set_solver.
  - unfold awaiting in *. rewrite Ho, Hr, map_to_list_insert by done. rewrite !fmap_cons, <- B2. simpl.
    by rewrite Permutation_middle.
  - intros id' p. rewrite Ho. intros [[<- <-]|[Hne Hp]]%lookup_insert_Some.
    + exists e. split; [by left|done].
    + destruct (B3 id' p Hp) as (e0 & He & Hx). exists e0. split; [by right|done].
  - intros r' e'. rewrite Hr. intros Hin. destruct (B4 r' e' Hin) as (e0 & peer0 & He & Hx).
    exists e0, peer0. split; [by right|done].
Qed.

Lemma books_perm hist hist' a : hist ≡ₚ hist' → books hist a → books hist' a.
Proof.
  intros Hp [B1 B2 B3 B4]. split; [done|by rewrite B2, Hp| |].
  - intros id p Hl. destruct (B3 id p Hl) as (e & He & Hx). exists e. by rewrite <- Hp.
  - intros r e' Hin. destruct (B4 r e' Hin) as (e & peer & He & Hx). exists e, peer. by rewrite <- Hp.
Qed.

(** *** The operations *)

Lemma books_peer_request hist now peer e r a :
  books hist a → books ((r, Some e) :: hist) (send_peer_request now peer e r a).
Proof.
  intros Hb. unfold send_peer_request. case_decide; [apply books_respond; [apply refused|done]|].
  cbv zeta. destruct (send peer e a) as [b id] eqn:Es. apply send_spec in Es as (Hk & Hf & Hi).
  apply (books_open _ a _ id e peer); [done|done| |exact (k_replies _ _ Hk)|done].
  cbn [pending_outbound set_outbound]. by rewrite (k_outbound _ _ Hk).
Qed.

Lemma books_routed hist now e r a :
  books hist a → books ((r, Some e) :: hist) (send_routed_request now e r a).
Proof.
  intros Hb. unfold send_routed_request.
  case_decide; [apply books_respond; [apply refused|done]|].
  destruct (route_outbound e a) as [peer|error]; [by apply books_peer_request|].
  apply books_respond; [apply refused|done].
Qed.

Lemma books_admission hist now sponsor e r a :
  books hist a → books ((r, Some e) :: hist) (send_admission_request now sponsor e r a).
Proof.
  intros Hb. unfold send_admission_request.
  case_decide; [apply books_respond; [apply refused|done]|].
  destruct (_ && _); [|by apply books_peer_request].
  apply books_respond; [apply refused|done].
Qed.

Lemma validate_response_Ok x e peer :
  validate_response x e peer = Ok tt ↔
    let h := header e in
    peer = expected_peer x ∧ version h = PROTOCOL_VERSION ∧ h_cluster_id h = x_cluster_id x ∧
    request_id h = x_request_id x ∧ destination h = x_source x ∧ protocol h = x_protocol x ∧
    h_kind h = Response ∧ (x_destination x = sentinel ∨ source h = x_destination x).
Proof.
  unfold validate_response. cbv zeta. repeat case_bool_decide; simpl; naive_solver.
Qed.

Lemma books_response hist now peer id e a :
  books hist a → books hist (handle_response now peer id e a).
Proof.
  intros Hb. unfold handle_response. destruct (pending_outbound a !! id) as [p|] eqn:Hp.
  - cbv zeta. case_decide.
    + pose proof (keeps_close_timed_out peer (set_outbound (delete id (pending_outbound a)) a)) as [].
      eapply (books_answer _ a _ id p (ReplyEnvelope (Err Timeout))); try done.
      simpl. by rewrite k_replies0.
    + eapply (books_answer _ a _ id p _); try done. intros e'.
      destruct (validate_response (expected p) e peer) as [[]|] eqn:Hv; simpl; [|done].
      intros [= <-]. exists peer. split; [done|]. by apply validate_response_Ok in Hv as [-> _].
  - destruct (pending_forwards a !! id) as [f|].
    + cbv zeta. set (a' := set_router _ _). assert (books hist a') by (by apply (books_same _ a)).
      destruct (_ && _); eapply books_keeps; eauto using keeps_send_back, keeps_close_timed_out.
    + by apply (books_same _ a).
Qed.

Lemma books_failure hist now id error a :
  books hist a → books hist (handle_outbound_failure now id error a).
Proof.
  intros Hb. unfold handle_outbound_failure. destruct (pending_outbound a !! id) as [p|] eqn:Hp.
  - cbv zeta. case_decide; [|by eapply (books_answer _ a _ id p (ReplyEnvelope (Err (Transport error))))].
    pose proof (keeps_close_timed_out (expected_peer (expected p))
      (set_outbound (delete id (pending_outbound a)) a)) as [].
    eapply (books_answer _ a _ id p (ReplyEnvelope (Err Timeout))); try done. simpl. by rewrite k_replies0.
  - case_match; by apply (books_same _ a).
Qed.

(** The tables of inbound requests are apart from the ledger. *)
Definition same_books a b : Prop :=
  issued (swarm a) ⊆ issued (swarm b) ∧ pending_outbound b = pending_outbound a ∧ replies b = replies a.

#[export] Instance same_books_preorder : PreOrder same_books.
Proof. split; [done|]. intros x y z (?&?&?) (?&?&?). split_and!; [by etrans|congruence..]. Qed.

Lemma same_books_books hist a b : same_books a b → books hist a → books hist b.
Proof. intros (?&?&?). by apply books_same. Qed.

Lemma keeps_same_books a b : keeps a b → same_books a b.
Proof. intros []. done. Qed.

(** The slots of the relay are apart from it too. *)
Record same_slots a b : Prop := {
  ss_issued : issued (swarm a) ⊆ issued (swarm b);
  ss_forwards : pending_forwards b = pending_forwards a;
  ss_inflight : inflight (router b) = inflight (router a);
  ss_max : max_inflight (router b) = max_inflight (router a);
}.

#[export] Instance same_slots_preorder : PreOrder same_slots.
Proof. split; [done|]. intros x y z [] []. split; [by etrans|congruence..]. Qed.

Lemma keeps_same_slots a b : keeps a b → same_slots a b.
Proof. intros [? _ _ [] _ _ _ _ ? _ _]. done. Qed.

(** Steps that touch neither. *)
Definition calm a b : Prop := same_books a b ∧ same_slots a b.

#[export] Instance calm_preorder : PreOrder calm.
Proof. split; [done|]. intros x y z [] []. split; by etrans. Qed.

Lemma calm_books a b : calm a b → same_books a b.
Proof. by intros []. Qed.
Lemma calm_slots a b : calm a b → same_slots a b.
Proof. by intros []. Qed.
Lemma keeps_calm a b : keeps a b → calm a b.
Proof. split; [by apply keeps_same_books|by apply keeps_same_slots]. Qed.

Lemma calm_foldl {X} (f : LinkActor → X → LinkActor) l a :
  (∀ b x, calm b (f b x)) → calm a (foldl f a l).
Proof.
  intros Hf. revert a. induction l as [|x l IH]; intros a; cbn [foldl]; [done|].
  etrans; [apply Hf|apply IH].
Qed.

Lemma remove_inbound_calm tok a : calm a (remove_pending_inbound tok a).
Proof. unfold remove_pending_inbound. by case_match. Qed.

Lemma deliver_calm now peer rid e ch a : calm a (deliver now peer rid e ch a).
Proof. unfold deliver. repeat case_decide; try done. cbv zeta. by case_match. Qed.

Lemma route_inbound_books now peer rid e ch a : same_books a (route_inbound now peer rid e ch a).
Proof.
  unfold route_inbound. destruct (Routing.handle _ _ _) as [[r [e'|hop e'|reason]]|]; [| | |done].
  - etrans; [|apply calm_books, deliver_calm]. done.
  - cbv zeta. destruct (active_peer _ _) as [next|]; [|done].
    destruct (send next e' (set_router r a)) as [b id] eqn:Es. apply send_spec in Es as ([] & _).
    by split_and!.
  - done.
Qed.

Lemma inbound_request_books now peer rid e ch a :
  same_books a (handle_inbound_request now peer rid e ch a).
Proof.
  unfold handle_inbound_request. cbv zeta. case_decide; [done|].
  destruct (node_for_peer _ _) as [n|].
  - case_decide; [apply calm_books, deliver_calm|]. case_decide; [done|]. case_decide; [|apply route_inbound_books].
    apply keeps_same_books. etrans; [apply keeps_accept_link_state|apply keeps_reply_empty].
  - destruct (_ && _); [apply calm_books, deliver_calm|done].
Qed.

Lemma books_expire_outbound hist l a failed :
  books hist a → books hist (foldl expire_outbound (a, failed) l).1.
Proof.
  revert a failed. induction l as [|id l IH]; intros a failed Hb; cbn [foldl]; [done|].
  unfold expire_outbound at 2. destruct (pending_outbound a !! id) as [p|] eqn:Hp; [|by apply IH].
  apply IH. by eapply (books_answer _ a _ id p (ReplyEnvelope (Err Timeout))).
Qed.

Lemma expire_forwards_same l a failed : same_books a (foldl expire_forward (a, failed) l).1.
Proof.
  revert a failed. induction l as [|id l IH]; intros a failed; cbn [foldl]; [done|].
  unfold expire_forward at 2. destruct (pending_forwards a !! id) as [f|]; [|done].
  etrans; [|apply IH]. done.
Qed.

(** The three passes over the tables, then the peers that failed. *)
Lemma expire_unfold now a :
  ∃ b c f1 f2,
    foldl expire_outbound (a, ∅) (expired_keys (x_deadline_unix_ms ∘ expected) now (pending_outbound a))
      = (b, f1) ∧
    foldl expire_forward (b, f1)
      (expired_keys (x_deadline_unix_ms ∘ fwd_expected) now (pending_forwards a)) = (c, f2) ∧
    expire_pending_requests now a
    = foldl (λ a peer, close_timed_out_peer peer a)
        (foldl (λ a tok, remove_pending_inbound tok a) c
           (expired_keys in_deadline_unix_ms now (pending_inbound a))) (set_iter f2).
Proof.
  unfold expire_pending_requests. cbv zeta.
  destruct (foldl expire_outbound _ _) as [b f1] eqn:E1.
  destruct (foldl expire_forward _ _) as [c f2] eqn:E2. by exists b, c, f1, f2.
Qed.

Lemma books_expire hist now a : books hist a → books hist (expire_pending_requests now a).
Proof.
  intros Hb. destruct (expire_unfold now a) as (b & c & f1 & f2 & E1 & E2 & ->).
  eapply books_keeps; [apply keeps_foldl; intros; apply keeps_close_timed_out|].
  eapply same_books_books; [apply calm_books, calm_foldl; intros; apply remove_inbound_calm|].
  pose proof (books_expire_outbound hist
    (expired_keys (x_deadline_unix_ms ∘ expected) now (pending_outbound a)) a ∅ Hb) as H1b.
  rewrite E1 in H1b. eapply same_books_books; [|exact H1b].
  pose proof (expire_forwards_same
    (expired_keys (x_deadline_unix_ms ∘ fwd_expected) now (pending_forwards a)) b f1) as H2b.
  by rewrite E2 in H2b.
Qed.

Lemma books_maintain hist clock a : books hist a → books hist (maintain clock a).
Proof. intros Hb. eapply books_keeps; [apply keeps_maintain|]. by apply books_expire. Qed.

Lemma install_same now reg a : same_books a (install_authorization now reg a).
Proof.
  unfold install_authorization. cbv zeta. etrans; [|apply keeps_same_books, keeps_advertise].
  match goal with |- same_books _ (set_snapshot _ ?b) => transitivity b; [|done] end.
  etrans; [|apply keeps_same_books, keeps_foldl; intros; apply keeps_close]. done.
Qed.

Lemma connection_established_calm now peer cid ep a :
  calm a (connection_established now peer cid ep a).1.
Proof.
  unfold connection_established. cbv zeta. destruct (node_for_peer _ _) as [n|].
  - unfold state_connection_established, arbitrate_connections. cbn [fst].
    case_match; [done|]. case_match; [done|].
    etrans; [|apply keeps_calm, keeps_foldl; intros; apply keeps_close]. done.
  - case_decide; [|done]. cbn [fst]. etrans; [|apply keeps_calm, keeps_close]. done.
Qed.

Lemma remove_inbound_peer_calm peer a : calm a (remove_pending_inbound_peer peer a).
Proof. apply calm_foldl. intros. apply remove_inbound_calm. Qed.

Lemma connection_closed_calm now peer cid a : calm a (on_connection_closed now peer cid a).1.
Proof.
  unfold on_connection_closed. cbv zeta. destruct (connection_closed _ _ _) as [s closed]. cbn [fst].
  assert (calm a (if peer_is_connected s peer || peer_is_quarantined s peer
    then set_link s a else remove_pending_inbound_peer peer (set_link s a))) as Hs.
  { case_match; [done|]. etrans; [|apply remove_inbound_peer_calm]. done. }
  match type of Hs with calm _ ?x => set (b := x) in * end.
  destruct (c_node_id <$> _) as [n|]; [|exact Hs]. destruct (node_is_connected _ n); [exact Hs|].
  etrans; [exact Hs|]. done.
Qed.

Lemma listeners_calm addresses a ch : calm a (foldl close_listener (a, ch) addresses).1.
Proof.
  revert a ch. induction addresses as [|m l IH]; intros a ch; cbn [foldl]; [done|].
  unfold close_listener at 2. cbn [fst]. etrans; [|apply IH]. done.
Qed.

Lemma books_event_effect hist clock ev a :
  books hist a → books hist (event_effect clock ev a).1.
Proof.
  intros Hb. destruct ev; cbn [event_effect].
  - apply (same_books_books _ a); [|done]. split_and!; [|done..]. cbn. by rewrite issued_external.
  - by apply (same_books_books _ a).
  - by apply (same_books_books _ a); [apply calm_books, listeners_calm|].
  - by apply (same_books_books _ a); [apply calm_books, connection_established_calm|].
  - by apply (same_books_books _ a); [apply calm_books, connection_closed_calm|].
  - by case_match; [apply (same_books_books _ a)|].
  - destruct (set_connection_health _ _ _ _) as [s ch]. cbn [fst].
    case_match; [by apply (same_books_books _ a)|]. eapply books_keeps; [apply keeps_close|].
    by apply (same_books_books _ a).
  - cbn [fst]. apply books_maintain. eapply books_keeps; [apply keeps_mdns|done].
  - cbn [fst]. apply books_maintain. eapply books_keeps; [apply keeps_mdns|done].
  - cbn [fst]. destruct event; cbn [handle_messaging]; auto using books_response, books_failure.
    + by apply (same_books_books _ a); [apply inbound_request_books|].
    + unfold remove_pending_inbound_request. case_match; [|done]. by apply (same_books_books _ a).
  - case_match; [|done]. by apply (same_books_books _ a).
  - done.
Qed.

Lemma books_event hist clock ev a : books hist a → books hist (handle_event clock ev a).
Proof.
  intros Hb. unfold handle_event. cbv zeta. pose proof (books_event_effect hist clock ev a Hb) as He.
  destruct (event_effect clock ev a) as [b ch]. cbn [fst] in He.
  assert (books hist (if ch then set_snapshot (snapshot (link b)) b else b)) as Hs by
    (destruct ch; [by apply (same_books_books _ b)|done]).
  case_decide; [|done]. eapply books_keeps; [apply keeps_advertise|done].
Qed.

(** The reply channel a command carries, and the envelope of a request. *)
Definition asks (t : Turn) : list (ReplyId * option Envelope) :=
  match t with
  | TCommand (CmdRequest e r) | TCommand (CmdRequestAdmission _ e r) => [(r, Some e)]
  | TCommand (CmdRespond _ _ r) | TCommand (CmdDial _ _ r) | TCommand (CmdDialAdmission _ r)
  | TCommand (CmdListenViaRelay _ _ r) | TCommand (CmdDisconnect _ r)
  | TCommand (CmdCommitAuthorization _ _ _ r) | TCommand (CmdShutdown r) => [(r, None)]
  | _ => []
  end.

Lemma respond_calm now tok e a : calm a (respond now tok e a).1.
Proof.
  unfold respond. destruct (pending_inbound a !! tok) as [p|]; [|done]. cbv zeta. case_decide; [done|].
  pose proof (keeps_send_back (in_channel p) e (set_inbound_requests
    (delete (in_request_id p) (inbound_requests a))
    (set_pending_inbound (delete tok (pending_inbound a)) a))) as Hk.
  destruct (send_back _ _ _) as [b ok]. cbn [fst] in *.
  apply keeps_calm in Hk. etrans; [|exact Hk]. done.
Qed.

Lemma books_reply hist a b r v :
  same_books a b → not_answer v → books hist a → books ((r, None) :: hist) (respond_to r v b).
Proof. intros Hs Hv Hb. apply books_respond; [done|]. by apply (same_books_books _ a). Qed.

Lemma keeps_disconnect n a : keeps a (disconnect n a).1.
Proof.
  unfold disconnect. cbv zeta. set (a' := set_link _ a).
  assert (keeps a a') as Ha by (apply keeps_set_link, keeps_directory).
  destruct (active_peer _ n) as [peer|]; [|done]. pose proof (issued_disconnect (swarm a') peer) as Hi.
  destruct (disconnect_peer_id _ _) as [s ok]. cbn [fst] in *. etrans; [exact Ha|].
  apply keeps_swarm. by rewrite Hi.
Qed.

Lemma books_command hist clock cmd a :
  books hist a → books (asks (TCommand cmd) ++ hist) (handle_command clock cmd a).1.
Proof.
  intros Hb. destruct cmd as [e r|sp e r|tok e r|n m r|m r|n m r|n r|reg chk persist r|r];
    cbn [handle_command asks app].
  - by apply books_routed.
  - by apply books_admission.
  - pose proof (respond_calm (now_unix_ms clock) tok e a) as Hs%calm_books.
    destruct (respond _ _ _ _) as [b v]. by apply (books_reply _ a).
  - pose proof (keeps_dial n m (instant clock) a) as Hs%keeps_same_books.
    destruct (dial _ _ _ _) as [b v]. by apply (books_reply _ a).
  - pose proof (keeps_dial_admission m a) as Hs%keeps_same_books.
    destruct (dial_admission _ _) as [b v]. by apply (books_reply _ a).
  - pose proof (keeps_listen_via_relay n m a) as Hs%keeps_same_books.
    destruct (listen_via_relay _ _ _) as [b v]. by apply (books_reply _ a).
  - pose proof (keeps_disconnect n a) as Hs%keeps_same_books.
    destruct (disconnect _ _) as [b v]. by apply (books_reply _ a).
  - cbv zeta. apply (books_reply _ a); [|done..]. case_match; [apply install_same|done].
  - by apply (books_reply _ a).
Qed.

Lemma books_turn hist clock t a : books hist a → books (asks t ++ hist) (turn clock t a).1.
Proof.
  intros Hb. destruct t; cbn [turn]; [by apply books_command|..]; simpl.
  - by apply books_event.
  - by apply books_maintain.
  - by apply books_expire.
  - by apply (same_books_books _ a).
  - eapply books_keeps; [apply keeps_next_request_id|done].
Qed.

(** *** Whole runs *)

Definition stops (t : Turn) : bool := match t with TCommand (CmdShutdown _) => true | _ => false end.

(** What the commands of a run ask for, the last one first; the loop takes
    none after a shutdown. *)
Fixpoint asked (ts : list (Clock * Turn)) : list (ReplyId * option Envelope) :=
  match ts with
  | [] => []
  | (_, t) :: ts' => (if stops t then [] else asked ts') ++ asks t
  end.

Lemma turn_stops clock t a : (turn clock t a).2 = stops t.
Proof.
  destruct t as [cmd|ev| | | |]; try done. destruct cmd; try done; cbn [turn handle_command stops];
    match goal with |- (let '(_, _) := ?x in _).2 = _ => by destruct x end.
Qed.

Lemma books_run hist ts a : books hist a → books (asked ts ++ hist) (run a ts).
Proof.
  revert hist a. induction ts as [|[clock t] ts IH]; intros hist a Hb; cbn [run asked]; [done|].
  pose proof (books_turn hist clock t a Hb) as Ht. pose proof (turn_stops clock t a) as Hs.
  destruct (turn clock t a) as [b stop]. cbn [fst snd] in *. rewrite Hs. destruct (stops t); [done|].
  rewrite <- app_assoc. by apply IH.
Qed.

Lemma books_start s i cfg reg boot next a :
  start s i cfg reg boot next = Ok a → books [] a.
Proof.
  unfold start. destruct (listen_all _ _) as [s' [[]|]]; [|done]. cbn [result_bind]. intros [= <-].
  split; simpl; [set_solver|done| |].
  - intros id p Hp. by rewrite lookup_empty in Hp.
  - by intros r e' ?%elem_of_nil.
Qed.

(** *** Deadlines *)

Lemma elem_of_expired_keys {A} (deadline : A → Z) now (m : gmap Z A) k :
  k ∈ expired_keys deadline now m ↔ ∃ x, m !! k = Some x ∧ deadline x ≤ now.
Proof.
  unfold expired_keys. rewrite list_elem_of_omap. split.
  - intros ([k' x] & Hin & Hk). apply elem_of_btree_iter in Hin. simpl in Hk. case_decide; simplify_eq. eauto.
  - intros (x & Hx & Hd). exists (k, x). split; [by apply elem_of_btree_iter|]. simpl. by rewrite decide_True.
Qed.

Lemma expired_keys_NoDup {A} (deadline : A → Z) now (m : gmap Z A) : NoDup (expired_keys deadline now m).
Proof.
  unfold expired_keys. pose proof (btree_iter_NoDup_keys m) as Hnd. revert Hnd.
  generalize (btree_iter m). induction l as [|[k x] l IH]; cbn; [constructor|].
  rewrite NoDup_cons. intros [Hk Hl]. case_decide; [|by apply IH]. constructor; [|by apply IH].
  rewrite list_elem_of_omap. intros ([k' x'] & Hin & Hkk). simpl in Hkk. case_decide; simplify_eq.
  apply Hk, elem_of_fst. eauto.
Qed.

(** Deleting the keys of a list, one after the other. *)
Lemma expire_outbound_spec l a failed :
  let b := (foldl expire_outbound (a, failed) l).1 in
  (∀ id, pending_outbound b !! id = if decide (id ∈ l) then None else pending_outbound a !! id) ∧
  (∀ x, x ∈ replies b ↔ x ∈ replies a ∨
     ∃ id p, id ∈ l ∧ pending_outbound a !! id = Some p ∧ x = (reply p, ReplyEnvelope (Err Timeout))) ∧
  pending_forwards b = pending_forwards a ∧ pending_inbound b = pending_inbound a.
Proof.
  cbv zeta. revert a failed. induction l as [|k l IH]; intros a failed; cbn [foldl].
  - split_and!; [|set_solver|done..]. intros id. by rewrite decide_False by apply not_elem_of_nil.
  - unfold expire_outbound at 2 4 6 8. destruct (pending_outbound a !! k) as [p|] eqn:Hp.
    + match goal with |- context [foldl _ (?a', ?f') l] => destruct (IH a' f') as (Hp1 & Hp2 & Hp3 & Hp4) end.
      split_and!; [| |done|done].
      * intros id. rewrite Hp1. cbn. rewrite lookup_delete. repeat case_decide; subst; set_solver.
      * intros x. rewrite Hp2. cbn. rewrite elem_of_app, list_elem_of_singleton. setoid_rewrite lookup_delete_Some.
        split.
        -- intros [[?| ->]|(id & q & Hid & [Hne Hq] & ->)]; [by left|right; exists k, p; set_solver|].
           right. exists id, q. set_solver.
        -- intros [?|(id & q & Hid & Hq & ->)]; [by left; left|].
           destruct (decide (k = id)) as [<-|Hne]; [left; right; congruence|].
           right. exists id, q. set_solver.
    + destruct (IH a failed) as (Hp1 & Hp2 & Hp3 & Hp4). split_and!; [| |done|done].
      * intros id. rewrite Hp1. repeat case_decide; subst; set_solver.
      * intros x. rewrite Hp2. set_solver.
Qed.

Lemma expire_forward_spec l a failed :
  let b := (foldl expire_forward (a, failed) l).1 in
  (∀ id, pending_forwards b !! id = if decide (id ∈ l) then None else pending_forwards a !! id) ∧
  pending_outbound b = pending_outbound a ∧ replies b = replies a ∧ pending_inbound b = pending_inbound a.
Proof.
  cbv zeta. revert a failed. induction l as [|k l IH]; intros a failed; cbn [foldl].
  - split_and!; [|done..]. intros id. by rewrite decide_False by apply not_elem_of_nil.
  - unfold expire_forward at 2 4 6 8. destruct (pending_forwards a !! k) as [f|] eqn:Hf.
    + match goal with |- context [foldl _ (?a', ?f') l] => destruct (IH a' f') as (Hp1 & ? & ? & ?) end.
      split_and!; [|done..]. intros id. rewrite Hp1. cbn. rewrite lookup_delete.
      repeat case_decide; subst; set_solver.
    + destruct (IH a failed) as (Hp1 & ? & ? & ?). split_and!; [|done..].
      intros id. rewrite Hp1. repeat case_decide; subst; set_solver.
Qed.

Lemma remove_inbound_spec l a :
  let b := foldl (λ a tok, remove_pending_inbound tok a) a l in
  (∀ tok, pending_inbound b !! tok = if decide (tok ∈ l) then None else pending_inbound a !! tok) ∧
  pending_forwards b = pending_forwards a.
Proof.
  cbv zeta. revert a. induction l as [|k l IH]; intros a; cbn [foldl].
  - split; [|done]. intros id. by rewrite decide_False by apply not_elem_of_nil.
  - destruct (IH (remove_pending_inbound k a)) as [Hp1 ->].
    split; [|unfold remove_pending_inbound; by case_match].
    intros tok. rewrite Hp1. unfold remove_pending_inbound.
    destruct (pending_inbound a !! k) as [p|] eqn:Hk; cbn; rewrite ?lookup_delete;
      repeat case_decide; subst; set_solver.
Qed.

(** What is left of a table once the deadlines up to [now] are enforced. *)
Definition unexpired {A} (deadline : A → Z) (now : Z) (m : gmap Z A) : gmap Z A :=
  filter (λ p, now < deadline p.2) m.

Lemma unexpired_spec {A} (deadline : A → Z) now (m m' : gmap Z A) :
  (∀ id, m' !! id = if decide (id ∈ expired_keys deadline now m) then None else m !! id) →
  m' = unexpired deadline now m.
Proof.
  intros Hm. apply map_eq. intros id. rewrite Hm. unfold unexpired. rewrite map_lookup_filter.
  destruct (m !! id) as [x|] eqn:E; simpl.
  - case_decide as Hin.
    + apply elem_of_expired_keys in Hin as (x' & Hx & Hd). case_guard; [|done]. simplify_eq/=. lia.
    + case_guard as Hg; [done|]. exfalso. apply Hin, elem_of_expired_keys. exists x. split; [done|]. simpl in Hg. lia.
  - by case_decide.
Qed.

Lemma expire_tables now a :
  let b := expire_pending_requests now a in
  pending_outbound b = unexpired (x_deadline_unix_ms ∘ expected) now (pending_outbound a) ∧
  pending_forwards b = unexpired (x_deadline_unix_ms ∘ fwd_expected) now (pending_forwards a) ∧
  pending_inbound b = unexpired in_deadline_unix_ms now (pending_inbound a) ∧
  ∀ x, x ∈ replies b ↔ x ∈ replies a ∨
    ∃ id p, pending_outbound a !! id = Some p ∧ x_deadline_unix_ms (expected p) ≤ now ∧
      x = (reply p, ReplyEnvelope (Err Timeout)).
Proof.
  cbv zeta. destruct (expire_unfold now a) as (b & c & f1 & f2 & E1 & E2 & ->).
  pose proof (expire_outbound_spec
    (expired_keys (x_deadline_unix_ms ∘ expected) now (pending_outbound a)) a ∅) as (Ho & Hr & Hf & Hi).
  rewrite E1 in Ho, Hr, Hf, Hi. cbn [fst] in *.
  pose proof (expire_forward_spec
    (expired_keys (x_deadline_unix_ms ∘ fwd_expected) now (pending_forwards a)) b f1) as (Hf' & Ho' & Hr' & Hi').
  rewrite E2 in Hf', Ho', Hr', Hi'. cbn [fst] in *.
  pose proof (remove_inbound_spec (expired_keys in_deadline_unix_ms now (pending_inbound a)) c) as (Hin & Hfin).
  pose proof (calm_foldl (λ a tok, remove_pending_inbound tok a)
    (expired_keys in_deadline_unix_ms now (pending_inbound a)) c) as [(_ & Hob & Hrb) _];
    [intros; apply remove_inbound_calm|].
  match goal with |- context [set_iter ?f] => pose proof (keeps_foldl
    (λ a peer, close_timed_out_peer peer a) (set_iter f)
    (foldl (λ a tok, remove_pending_inbound tok a) c
      (expired_keys in_deadline_unix_ms now (pending_inbound a)))
    (λ b x, keeps_close_timed_out x b)) as Hk end.
  destruct Hk as [_ _ _ _ _ Hko Hki _ Hkf _ Hkr]. cbv beta in *.
  rewrite Hko, Hki, Hkf, Hkr, Hob, Hrb, Hfin, Ho', Hr'. split_and!.
  - by apply unexpired_spec.
  - apply unexpired_spec. intros id. by rewrite Hf', Hf.
  - apply unexpired_spec. intros tok. by rewrite Hin, Hi', Hi.
  - intros x. rewrite Hr. setoid_rewrite elem_of_expired_keys. split.
    + intros [?|(id & p & (p' & Hp' & Hd) & Hp & ->)]; [by left|right]. exists id, p.
      split_and!; [done| |done]. simplify_eq. exact Hd.
    + intros [?|(id & p & Hp & Hd & ->)]; [by left|right]. exists id, p. split_and!; [|done..].
      by exists p.
Qed.

(** ** Relay slots *)

Record slots a : Prop := {
  sl_issued : dom (pending_forwards a) ⊆ issued (swarm a);
  sl_inflight : inflight (router a) = size (pending_forwards a);
  sl_bound : (inflight (router a) <= max_inflight (router a))%nat;
}.

Lemma same_slots_slots a b : same_slots a b → slots a → slots b.
Proof. intros [? Hf Hi Hm] []. split; rewrite ?Hf, ?Hi, ?Hm; [by etrans|done..]. Qed.

(** The capacity is a constant of the router, whatever a turn does to it. *)
Definition slots_kept a b : Prop :=
  slots a → slots b ∧ max_inflight (router b) = max_inflight (router a).

#[export] Instance slots_kept_preorder : PreOrder slots_kept.
Proof.
  split; [done|]. intros x y z Hxy Hyz Hs. destruct (Hxy Hs) as [Hy ?]. destruct (Hyz Hy). split; [done|congruence].
Qed.

Lemma same_slots_kept a b : same_slots a b → slots_kept a b.
Proof. intros Hs Ha. split; [by apply (same_slots_slots a)|apply Hs]. Qed.

(** Giving a slot back. *)
Lemma slots_complete a b id f :
  pending_forwards a !! id = Some f → issued (swarm a) ⊆ issued (swarm b) →
  pending_forwards b = delete id (pending_forwards a) → router b = complete_forward (router a) →
  slots_kept a b.
Proof.
  intros Hf Hi Hp Hr [Hs1 Hs2 Hs3]. unfold complete_forward in Hr.
  assert (size (pending_forwards b) = inflight (router a) - 1)%nat as Hsz.
  { rewrite Hp, map_size_delete, Hf, Hs2. simpl. lia. }
  split; [|by rewrite Hr]. split.
  - rewrite Hp, dom_delete_L. set_solver.
  - by rewrite Hr, Hsz.
  - rewrite Hr. cbn. lia.
Qed.

Lemma handle_inflight r e now r' d :
  Routing.handle r e now = Some (r', d) →
  max_inflight r' = max_inflight r ∧
  match d with
  | Forward _ _ => inflight r' = S (inflight r) ∧ (inflight r < max_inflight r)%nat
  | _ => inflight r' = inflight r
  end.
Proof.
  unfold Routing.handle, mark_seen. case_decide; [by intros [= <- <-]|].
  case_decide; cbn [negb]; [by intros [= <- <-]|]. destruct (evict _ _ _) as [l s]. cbn [negb].
  case_decide; [by intros [= <- <-]|]. case_decide; [by intros [= <- <-]|].
  case_decide; [by intros [= <- <-]|]. cbn. case_decide; [by intros [= <- <-]|].
  destruct (next_hop _ _ _) as [[hop|]|]; [|by intros [= <- <-]|done].
  destruct (new_envelope _ _); intros [= <- <-]; cbn; [|done]. split; [done|]. lia.
Qed.

Lemma route_inbound_slots now peer rid e ch a : slots_kept a (route_inbound now peer rid e ch a).
Proof.
  unfold route_inbound. destruct (Routing.handle _ _ _) as [[r d]|] eqn:Hh; [|done].
  apply handle_inflight in Hh as [Hm Hd]. destruct d as [e'|hop e'|reason].
  - apply same_slots_kept. etrans; [|apply calm_slots, deliver_calm]. by split.
  - destruct Hd as [Hi Hlt]. cbv zeta. destruct (active_peer _ _) as [next|].
    + destruct (send next e' (set_router r a)) as [b id] eqn:Es.
      apply send_spec in Es as ([_ _ _ [_ _ _ _ Hri Hrm] _ _ _ _ Hf _ _] & Hfresh & Hiss). cbn in *.
      intros [Hs1 Hs2 Hs3]. split; [|cbn; congruence]. split; cbn; rewrite ?Hf, ?Hiss, ?Hri, ?Hrm, ?Hi, ?Hm.
      * rewrite dom_insert_L. set_solver.
      * rewrite map_size_insert_None; [lia|]. apply not_elem_of_dom. set_solver.
      * lia.
    + intros [Hs1 Hs2 Hs3]. unfold complete_forward. split; [split|]; cbn; try done; lia.
  - apply same_slots_kept. by split.
Qed.

Lemma inbound_request_slots now peer rid e ch a :
  slots_kept a (handle_inbound_request now peer rid e ch a).
Proof.
  unfold handle_inbound_request. cbv zeta. case_decide; [done|].
  destruct (node_for_peer _ _) as [n|].
  - case_decide; [apply same_slots_kept, calm_slots, deliver_calm|]. case_decide; [done|].
    case_decide; [|apply route_inbound_slots].
    apply same_slots_kept, keeps_same_slots.
    etrans; [apply keeps_accept_link_state|apply keeps_reply_empty].
  - destruct (_ && _); [apply same_slots_kept, calm_slots, deliver_calm|done].
Qed.

Lemma response_slots now peer id e a : slots_kept a (handle_response now peer id e a).
Proof.
  unfold handle_response. destruct (pending_outbound a !! id) as [p|].
  - cbv zeta. case_decide; apply same_slots_kept; [|done].
    match goal with |- same_slots _ (respond_to _ _ ?b) => transitivity b; [|done] end.
    etrans; [|apply keeps_same_slots, keeps_close_timed_out]. done.
  - destruct (pending_forwards a !! id) as [f|] eqn:Hf; [|by apply same_slots_kept].
    cbv zeta. set (b := set_router _ _).
    transitivity b; [by eapply (slots_complete a b id f)|].
    apply same_slots_kept, keeps_same_slots.
    destruct (_ && _); [apply keeps_send_back|apply keeps_close_timed_out].
Qed.

Lemma failure_slots now id error a : slots_kept a (handle_outbound_failure now id error a).
Proof.
  unfold handle_outbound_failure. destruct (pending_outbound a !! id) as [p|].
  - cbv zeta. case_decide; apply same_slots_kept; [|done].
    match goal with |- same_slots _ (respond_to _ _ ?b) => transitivity b; [|done] end.
    etrans; [|apply keeps_same_slots, keeps_close_timed_out]. done.
  - destruct (pending_forwards a !! id) as [f|] eqn:Hf; [|by apply same_slots_kept].
    by eapply (slots_complete a _ id f).
Qed.

Lemma expire_slots now a : slots_kept a (expire_pending_requests now a).
Proof.
  destruct (expire_unfold now a) as (b & c & f1 & f2 & E1 & E2 & ->).
  transitivity b.
  { replace b with (foldl expire_outbound (a, ∅)
      (expired_keys (x_deadline_unix_ms ∘ expected) now (pending_outbound a))).1 by (by rewrite E1).
    apply same_slots_kept. clear E1 E2. generalize (∅ : gset PeerId).
    generalize (expired_keys (x_deadline_unix_ms ∘ expected) now (pending_outbound a)). intros l.
    revert a. induction l as [|k l IH]; intros a failed; cbn [foldl]; [done|].
    unfold expire_outbound at 2. case_match; [|apply IH]. etrans; [|apply IH]. done. }
  transitivity c.
  { replace c with (foldl expire_forward (b, f1)
      (expired_keys (x_deadline_unix_ms ∘ fwd_expected) now (pending_forwards a))).1 by (by rewrite E2).
    generalize (expired_keys (x_deadline_unix_ms ∘ fwd_expected) now (pending_forwards a)). intros l.
    clear E1 E2. revert b f1. induction l as [|k l IH]; intros b f1; cbn [foldl]; [done|].
    unfold expire_forward at 2. destruct (pending_forwards b !! k) as [f|] eqn:Hf; [|apply IH].
    etrans; [|apply IH]. by eapply (slots_complete b _ k f). }
  apply same_slots_kept.
  etrans; [|apply keeps_same_slots, keeps_foldl; intros; apply keeps_close_timed_out].
  apply calm_slots, calm_foldl. intros. apply remove_inbound_calm.
Qed.

Lemma maintain_slots clock a : slots_kept a (maintain clock a).
Proof. etrans; [apply expire_slots|]. apply same_slots_kept, keeps_same_slots, keeps_maintain. Qed.

Lemma event_effect_slots clock ev a : slots_kept a (event_effect clock ev a).1.
Proof.
  destruct ev; cbn [event_effect].
  - apply same_slots_kept. split; [|done..]. cbn. by rewrite issued_external.
  - by apply same_slots_kept.
  - apply same_slots_kept, calm_slots, listeners_calm.
  - apply same_slots_kept, calm_slots, connection_established_calm.
  - apply same_slots_kept, calm_slots, connection_closed_calm.
  - by case_match; apply same_slots_kept.
  - destruct (set_connection_health _ _ _ _) as [s ch]. cbn [fst]. apply same_slots_kept.
    case_match; [done|]. etrans; [|apply keeps_same_slots, keeps_close]. done.
  - cbn [fst]. etrans; [apply same_slots_kept, keeps_same_slots, keeps_mdns|apply maintain_slots].
  - cbn [fst]. etrans; [apply same_slots_kept, keeps_same_slots, keeps_mdns|apply maintain_slots].
  - cbn [fst]. destruct event; cbn [handle_messaging];
      [apply inbound_request_slots|apply response_slots|apply failure_slots| |done].
    unfold remove_pending_inbound_request. case_match; by apply same_slots_kept.
  - case_match; by apply same_slots_kept.
  - done.
Qed.

Lemma event_slots clock ev a : slots_kept a (handle_event clock ev a).
Proof.
  unfold handle_event. cbv zeta. pose proof (event_effect_slots clock ev a) as He.
  destruct (event_effect clock ev a) as [b ch]. cbn [fst] in He.
  etrans; [exact He|]. apply same_slots_kept.
  transitivity (if ch then set_snapshot (snapshot (link b)) b else b); [by destruct ch|].
  case_decide; [|done]. apply keeps_same_slots, keeps_advertise.
Qed.

Definition commits (t : Turn) : bool :=
  match t with TCommand (CmdCommitAuthorization _ _ _ _) => true | _ => false end.

Lemma peer_request_slots now peer e r a : same_slots a (send_peer_request now peer e r a).
Proof.
  unfold send_peer_request. case_decide; [done|]. cbv zeta.
  destruct (send peer e a) as [b id] eqn:Es. apply send_spec in Es as (Hk & _).
  etrans; [apply keeps_same_slots, Hk|]. done.
Qed.

Lemma turn_slots clock t a : commits t = false → slots_kept a (turn clock t a).1.
Proof.
  intros Hc. destruct t as [cmd|ev| | | |]; cbn [turn];
    [|apply event_slots|apply maintain_slots|apply expire_slots|by apply same_slots_kept|
     apply same_slots_kept, keeps_same_slots, keeps_next_request_id].
  apply same_slots_kept.
  destruct cmd as [e r|sp e r|tok e r|n m r|m r|n m r|n r|reg chk persist r|r]; try done;
    cbn [handle_command].
  - unfold send_routed_request. case_decide; [done|]. case_match; [apply peer_request_slots|done].
  - unfold send_admission_request. case_decide; [done|]. case_match; [done|apply peer_request_slots].
  - pose proof (respond_calm (now_unix_ms clock) tok e a) as Hs%calm_slots.
    destruct (respond _ _ _ _) as [b v]. etrans; [exact Hs|]. done.
  - pose proof (keeps_dial n m (instant clock) a) as Hs%keeps_same_slots.
    destruct (dial _ _ _ _) as [b v]. etrans; [exact Hs|]. done.
  - pose proof (keeps_dial_admission m a) as Hs%keeps_same_slots.
    destruct (dial_admission _ _) as [b v]. etrans; [exact Hs|]. done.
  - pose proof (keeps_listen_via_relay n m a) as Hs%keeps_same_slots.
    destruct (listen_via_relay _ _ _) as [b v]. etrans; [exact Hs|]. done.
  - pose proof (keeps_disconnect n a) as Hs%keeps_same_slots.
    destruct (disconnect _ _) as [b v]. etrans; [exact Hs|]. done.
Qed.

Lemma slots_start s i cfg reg boot next a : start s i cfg reg boot next = Ok a → slots a.
Proof.
  unfold start. destruct (listen_all _ _) as [s' [[]|]]; [|done]. cbn [result_bind]. intros [= <-].
  split; cbn; [set_solver|done|lia].
Qed.

(** ** Connections, the published snapshot, and inbound requests *)

Record link_core (s : LinkState) : Prop := {
  lc_healthy : healthy_connections s ⊆ dom (connections s);
  lc_disjoint : dom (connections s) ## dom (quarantined_connections s);
  lc_cap : (size (quarantined_connections s) <= MAX_QUARANTINED_CONNECTIONS)%nat;
}.

(** [n] bounds the number of deliveries so far. *)
Record inbound_ok (n : nat) a : Prop := {
  io_bound : (size (pending_inbound a) <= MAX_PENDING_INBOUND)%nat;
  io_tokens tok p : pending_inbound a !! tok = Some p →
    inbound_requests a !! in_request_id p = Some tok ∧ tok < next_inbound_token a;
  io_requests rid tok : inbound_requests a !! rid = Some tok →
    ∃ p, pending_inbound a !! tok = Some p ∧ in_request_id p = rid;
  io_next : 0 ≤ next_inbound_token a ≤ Z.of_nat n;
  io_queue : (length (waiting (inbound_tx a)) <= capacity (inbound_tx a))%nat;
}.

Record same_inbound a b : Prop := {
  si_tx : inbound_tx b = inbound_tx a;
  si_pending : pending_inbound b = pending_inbound a;
  si_requests : inbound_requests b = inbound_requests a;
  si_token : next_inbound_token b = next_inbound_token a;
}.

#[export] Instance same_inbound_preorder : PreOrder same_inbound.
Proof. split; [done|]. intros x y z [] []. split; congruence. Qed.

Lemma inbound_ok_same n a b : same_inbound a b → inbound_ok n a → inbound_ok n b.
Proof. intros [Ht Hp Hr Hk] []. split; by rewrite ?Ht, ?Hp, ?Hr, ?Hk. Qed.

Lemma inbound_ok_le n m a : (n <= m)%nat → inbound_ok n a → inbound_ok m a.
Proof. intros Hn []. split; try done. lia. Qed.

Lemma link_core_keeps s s' : keeps_link s s' → link_core s → link_core s'.
Proof. intros [_ _ _ Hc Hh Hq] []. split; by rewrite ?Hc, ?Hh, ?Hq. Qed.

Lemma snapshot_keeps s s' : keeps_link s s' → snapshot s' = snapshot s.
Proof.
  intros [Hn _ Hl Hc Hh Hq]. unfold snapshot, node_is_healthy, edge_set. by rewrite Hn, Hl, Hc, Hh, Hq.
Qed.

(** What is published, and the state it is published of. *)
Record still a b : Prop := {
  st_link : keeps_link (link a) (link b);
  st_snapshot : snapshot_tx b = snapshot_tx a;
  st_inbound : same_inbound a b;
}.

#[export] Instance still_preorder : PreOrder still.
Proof. split; [done|]. intros x y z [] []. split; [by etrans|congruence|by etrans]. Qed.

Lemma keeps_still a b : keeps a b → still a b.
Proof. intros []. split; [done|done|by split]. Qed.

(** *** The inbound tables *)

Lemma inbound_ok_delete n a b tok p :
  pending_inbound a !! tok = Some p →
  pending_inbound b = delete tok (pending_inbound a) →
  inbound_requests b = delete (in_request_id p) (inbound_requests a) →
  next_inbound_token b = next_inbound_token a → inbound_tx b = inbound_tx a →
  inbound_ok n a → inbound_ok n b.
Proof.
  intros Hp Hpb Hrb Hk Ht [B1 B2 B3 B4 B5]. split; rewrite ?Hpb, ?Hrb, ?Hk, ?Ht; try done.
  - rewrite map_size_delete, Hp. simpl. lia.
  - intros tok' p' [Hne Hp']%lookup_delete_Some. destruct (B2 _ _ Hp') as [Hr' Hlt]. split; [|done].
    apply lookup_delete_Some. split; [|done]. intros Heq. rewrite <- Heq in Hr'.
    destruct (B2 _ _ Hp). congruence.
  - intros rid tok' [Hne Hr']%lookup_delete_Some. destruct (B3 _ _ Hr') as (p' & Hp' & <-).
    exists p'. split; [|done]. apply lookup_delete_Some. split; [|done]. intros <-. congruence.
Qed.

Lemma remove_inbound_ok n tok a :
  inbound_ok n a → inbound_ok n (remove_pending_inbound tok a).
Proof.
  intros Ha. unfold remove_pending_inbound. destruct (pending_inbound a !! tok) as [p|] eqn:Hp; [|done].
  by eapply (inbound_ok_delete n a _ tok p).
Qed.

Lemma remove_inbound_request_ok n rid a :
  inbound_ok n a → inbound_ok n (remove_pending_inbound_request rid a).
Proof.
  intros Ha. unfold remove_pending_inbound_request.
  destruct (inbound_requests a !! rid) as [tok|] eqn:Hr; [|done].
  destruct (io_requests _ _ Ha _ _ Hr) as (p & Hp & <-). by eapply (inbound_ok_delete n a _ tok p).
Qed.

Lemma inbound_ok_foldl n {X} (f : LinkActor → X → LinkActor) l a :
  (∀ b x, inbound_ok n b → inbound_ok n (f b x)) → inbound_ok n a → inbound_ok n (foldl f a l).
Proof. intros Hf. revert a. induction l as [|x l IH]; intros a Ha; cbn [foldl]; auto. Qed.

Lemma deliver_ok n now peer rid e ch a :
  inbound_requests a !! rid = None → Z.of_nat n < u64_max →
  inbound_ok n a → inbound_ok (S n) (deliver now peer rid e ch a).
Proof.
  intros Hrid Hn Ha. unfold deliver. case_decide; [by apply (inbound_ok_le n); [lia|]|].
  case_decide as Hb; [by apply (inbound_ok_le n); [lia|]|]. cbv zeta.
  destruct Ha as [B1 B2 B3 B4 B5]. unfold u64_max in Hn.
  assert (u64_wrap (next_inbound_token a + 1) = next_inbound_token a + 1) as Hw.
  { unfold u64_wrap. apply Z.mod_small. lia. }
  unfold try_send. cbn [set_token inbound_tx].
  destruct (receiver_open (inbound_tx a) && _) eqn:Hq.
  - apply andb_true_iff in Hq as [_ Hq]. rewrite bool_decide_eq_true in Hq.
    split; cbn; rewrite ?Hw.
    + rewrite map_size_insert_None; [lia|].
      destruct (pending_inbound a !! next_inbound_token a) eqn:E; [|done]. destruct (B2 _ _ E). lia.
    + intros tok p [[<- <-]|[Hne Hp]]%lookup_insert_Some; cbn.
      * rewrite lookup_insert_eq. split; [done|lia].
      * destruct (B2 _ _ Hp) as [Hr Hlt]. rewrite lookup_insert_ne by congruence. split; [done|lia].
    + intros rid' tok [[<- <-]|[Hne Hr]]%lookup_insert_Some.
      * eexists. rewrite lookup_insert_eq. done.
      * destruct (B3 _ _ Hr) as (p & Hp & Hpr). exists p. split; [|done].
        rewrite lookup_insert_ne; [done|]. intros Heq. destruct (B2 _ _ Hp). lia.
    + lia.
    + rewrite length_app. simpl. lia.
  - split; cbn; rewrite ?Hw; try done; [|lia]. intros tok p Hp. destruct (B2 _ _ Hp). split; [done|lia].
Qed.

Definition same_place a b : Prop := link b = link a ∧ snapshot_tx b = snapshot_tx a.

Lemma deliver_place now peer rid e ch a : same_place a (deliver now peer rid e ch a).
Proof. unfold deliver. repeat case_decide; try done. cbv zeta. by case_match. Qed.

(** *** Requests and responses *)

(** A step that moves inbound tables but not the connections. *)
Record inbound_step (n m : nat) a b : Prop := {
  is_link : keeps_link (link a) (link b);
  is_snapshot : snapshot_tx b = snapshot_tx a;
  is_inbound : inbound_ok n a → inbound_ok m b;
}.

Lemma still_step n a b : still a b → inbound_step n n a b.
Proof. intros []. split; [done..|by apply inbound_ok_same]. Qed.

Lemma step_trans n m k a b c : inbound_step n m a b → inbound_step m k b c → inbound_step n k a c.
Proof. intros [] []. split; [by etrans|congruence|auto]. Qed.

Lemma step_le n m k a b : (m <= k)%nat → inbound_step n m a b → inbound_step n k a b.
Proof. intros Hle []. split; [done..|]. eauto using inbound_ok_le. Qed.

Lemma place_step n m a b : same_place a b → (inbound_ok n a → inbound_ok m b) → inbound_step n m a b.
Proof. intros [Hl Hs] Hi. split; [by rewrite Hl|done..]. Qed.

Lemma deliver_step n now peer rid e ch a :
  inbound_requests a !! rid = None → Z.of_nat n < u64_max →
  inbound_step n (S n) a (deliver now peer rid e ch a).
Proof. intros. apply place_step; [apply deliver_place|]. by apply deliver_ok. Qed.

Lemma route_inbound_step n now peer rid e ch a :
  inbound_requests a !! rid = None → Z.of_nat n < u64_max →
  inbound_step n (S n) a (route_inbound now peer rid e ch a).
Proof.
  intros Hr Hn. assert (∀ b, still a b → inbound_step n (S n) a b) as Hstill.
  { intros b Hb. apply (step_le n n); [lia|]. by apply still_step. }
  unfold route_inbound. destruct (Routing.handle _ _ _) as [[r [e'|hop e'|reason]]|];
    [|cbv zeta; destruct (active_peer _ _) as [next|]|by apply Hstill|by apply Hstill].
  - eapply step_trans; [apply (still_step n a (set_router r a)); done|]. by apply deliver_step.
  - destruct (send next e' (set_router r a)) as [b id] eqn:Es.
    apply send_spec in Es as ([? ? ? _ ? _ ? ? _ ? _] & _). by apply Hstill.
  - by apply Hstill.
Qed.

Lemma inbound_request_step n now peer rid e ch a :
  inbound_requests a !! rid = None → Z.of_nat n < u64_max →
  inbound_step n (S n) a (handle_inbound_request now peer rid e ch a).
Proof.
  intros Hr Hn. assert (∀ b, keeps a b → inbound_step n (S n) a b) as Hkeep.
  { intros b Hb. apply (step_le n n); [lia|]. by apply still_step, keeps_still. }
  unfold handle_inbound_request. cbv zeta. case_decide; [by apply Hkeep|].
  destruct (node_for_peer _ _) as [nd|].
  - case_decide; [by apply deliver_step|]. case_decide; [by apply Hkeep|].
    case_decide; [|by apply route_inbound_step]. apply Hkeep.
    etrans; [apply keeps_accept_link_state|apply keeps_reply_empty].
  - destruct (_ && _); [by apply deliver_step|by apply Hkeep].
Qed.

Lemma response_still now peer id e a : still a (handle_response now peer id e a).
Proof.
  unfold handle_response. destruct (pending_outbound a !! id) as [p|].
  - cbv zeta. case_decide; [|done].
    match goal with |- still _ (respond_to _ _ ?b) => transitivity b; [|done] end.
    etrans; [|apply keeps_still, keeps_close_timed_out]. done.
  - destruct (pending_forwards a !! id) as [f|]; [|done]. cbv zeta. set (b := set_router _ _).
    transitivity b; [done|]. apply keeps_still.
    destruct (_ && _); [apply keeps_send_back|apply keeps_close_timed_out].
Qed.

Lemma failure_still now id error a : still a (handle_outbound_failure now id error a).
Proof.
  unfold handle_outbound_failure. destruct (pending_outbound a !! id) as [p|]; [|by case_match].
  cbv zeta. case_decide; [|done].
  match goal with |- still _ (respond_to _ _ ?b) => transitivity b; [|done] end.
  etrans; [|apply keeps_still, keeps_close_timed_out]. done.
Qed.

Lemma still_foldl_pair {X} (f : LinkActor * gset PeerId → X → LinkActor * gset PeerId) l a failed :
  (∀ b failed x, still b (f (b, failed) x).1) → still a (foldl f (a, failed) l).1.
Proof.
  intros Hf. revert a failed. induction l as [|x l IH]; intros a failed; cbn [foldl]; [done|].
  pose proof (Hf a failed x) as Hx. destruct (f (a, failed) x) as [b failed']. etrans; [exact Hx|apply IH].
Qed.

Lemma expire_step n now a : inbound_step n n a (expire_pending_requests now a).
Proof.
  destruct (expire_unfold now a) as (b & c & f1 & f2 & E1 & E2 & ->).
  assert (still a b) as Hab.
  { replace b with (foldl expire_outbound (a, ∅)
      (expired_keys (x_deadline_unix_ms ∘ expected) now (pending_outbound a))).1 by (by rewrite E1).
    apply still_foldl_pair. intros b0 failed x. unfold expire_outbound. by case_match. }
  assert (still b c) as Hbc.
  { replace c with (foldl expire_forward (b, f1)
      (expired_keys (x_deadline_unix_ms ∘ fwd_expected) now (pending_forwards a))).1 by (by rewrite E2).
    apply still_foldl_pair. intros b0 failed x. unfold expire_forward. by case_match. }
  eapply step_trans; [apply still_step, Hab|]. eapply step_trans; [apply still_step, Hbc|].
  eapply (step_trans n n); [|apply still_step, keeps_still, keeps_foldl; intros; apply keeps_close_timed_out].
  generalize (expired_keys in_deadline_unix_ms now (pending_inbound a)). intros l. clear Hbc E2.
  revert c. induction l as [|x l IH]; intros c; cbn [foldl]; [by apply still_step|].
  eapply (step_trans n n); [|apply IH]. apply place_step; [|apply remove_inbound_ok].
  unfold remove_pending_inbound, same_place. by case_match.
Qed.

Lemma maintain_step n clock a : inbound_step n n a (maintain clock a).
Proof. eapply step_trans; [apply expire_step|]. apply still_step, keeps_still, keeps_maintain. Qed.

(** *** Connection events *)

Record actor_ok (n : nat) a : Prop := {
  ok_core : link_core (link a);
  ok_snapshot : snapshot_tx a = snapshot (link a);
  ok_inbound : inbound_ok n a;
}.

Lemma actor_ok_step n m a b : inbound_step n m a b → actor_ok n a → actor_ok m b.
Proof.
  intros [Hl Hs Hi] [Hc Hsn Hin]. split; [by eapply link_core_keeps| |auto].
  by rewrite Hs, Hsn, (snapshot_keeps _ _ Hl).
Qed.

(** What [handle_event] relies on of each event. *)
Record effect_ok (n : nat) a b (changed : bool) : Prop := {
  ef_core : link_core (link b);
  ef_snapshot : snapshot_tx b = snapshot_tx a;
  ef_unchanged : changed = false → snapshot (link b) = snapshot (link a);
  ef_inbound : inbound_ok n b;
}.

Lemma effect_step n m a b ch : inbound_step n m a b → actor_ok n a → effect_ok m a b ch.
Proof.
  intros [Hl Hs Hi] [Hc Hsn Hin]. split; [by eapply link_core_keeps|done| |auto].
  intros _. by rewrite (snapshot_keeps _ _ Hl).
Qed.

Lemma node_is_healthy_spec s n :
  node_is_healthy s n = true ↔
  ∃ cid ci, cid ∈ healthy_connections s ∧ connections s !! cid = Some ci ∧ c_node_id ci = n.
Proof.
  unfold node_is_healthy. rewrite existsb_exists. setoid_rewrite <- list_elem_of_In.
  unfold set_iter. setoid_rewrite ord_sort_perm. setoid_rewrite elem_of_elements. split.
  - intros (cid & Hin & Hc). destruct (connections s !! cid) as [c|] eqn:E; [|done].
    apply bool_decide_eq_true in Hc. eauto.
  - intros (cid & c & Hin & Hc & Hn). exists cid. rewrite Hc, bool_decide_eq_true. done.
Qed.

Lemma snapshot_listeners s l : l = listeners s → snapshot (set_listeners l s) = snapshot s.
Proof. intros ->. by apply snapshot_keeps. Qed.

Lemma snapshot_health s h :
  (∀ n, node_is_healthy (set_healthy h s) n = node_is_healthy s n) →
  snapshot (set_healthy h s) = snapshot s.
Proof.
  intros Hn. unfold snapshot. f_equal; try done. cbn [edge_set connections set_healthy].
  change (edge_set (set_healthy h s)) with (edge_set s).
  apply list_filter_iff. intros x. by rewrite Hn.
Qed.

(** Absent connections have no health. *)
Lemma healthy_absent s cid :
  link_core s → connections s !! cid = None → healthy_connections s ∖ {[cid]} = healthy_connections s.
Proof.
  intros Hc Hn. apply difference_disjoint_L. apply not_elem_of_dom in Hn.
  pose proof (lc_healthy s Hc). set_solver.
Qed.

Lemma set_healthy_same s : set_healthy (healthy_connections s) s = s.
Proof. by destruct s. Qed.
Lemma set_connections_same s : set_connections (connections s) s = s.
Proof. by destruct s. Qed.
Lemma set_quarantined_same s : set_quarantined (quarantined_connections s) s = s.
Proof. by destruct s. Qed.

Lemma connection_health_ok s peer cid healthy :
  link_core s →
  let r := set_connection_health s peer cid healthy in
  link_core r.1 ∧ (r.2 = false → snapshot r.1 = snapshot s).
Proof.
  intros Hc. unfold set_connection_health. destruct (connections s !! cid) as [c|] eqn:Hcid.
  - case_decide; [done|]. cbv zeta. cbn [fst snd]. set (h := if healthy then _ else _).
    assert (∃ hs, h = set_healthy hs s ∧ hs ⊆ dom (connections s) ∧
      ∀ x, x ≠ cid → x ∈ hs ↔ x ∈ healthy_connections s) as (hs & -> & Hsub & Hother).
    { pose proof (lc_healthy s Hc). assert (cid ∈ dom (connections s)) by (by eapply elem_of_dom_2).
      subst h. destruct healthy; eexists; (split; [done|]); split; set_solver. }
    split; [by destruct Hc; split|]. intros Hsame. apply snapshot_health. intros n.
    apply negb_false_iff, eqb_prop in Hsame. destruct (decide (n = c_node_id c)) as [->|Hne]; [done|].
    apply eq_bool_prop_intro. split; intros Ht%Is_true_eq_true%node_is_healthy_spec;
      apply Is_true_eq_left, node_is_healthy_spec; destruct Ht as (x & c' & Hx & Hc' & <-);
      exists x, c'; (split_and!; [|done|done]); apply Hother; cbn in *; congruence || done.
  - cbn [fst snd]. rewrite healthy_absent, set_healthy_same by done. done.
Qed.

Lemma connection_closed_ok s peer cid :
  link_core s →
  let r := connection_closed s peer cid in
  link_core r.1 ∧ (r.2 = false → snapshot r.1 = snapshot s) ∧
  quarantined_connections r.1 = quarantined_connections s.
Proof.
  intros Hc. unfold connection_closed. destruct (connections s !! cid) as [c|] eqn:Hcid; cbn [fst snd].
  - split_and!; [|done|done]. destruct Hc. split; cbn; [|rewrite dom_delete_L; set_solver|done].
    rewrite dom_delete_L. set_solver.
  - rewrite healthy_absent, set_healthy_same by done. done.
Qed.

Lemma promote_core s cid : link_core s → link_core (promote s cid).
Proof.
  intros Hc. unfold promote. destruct (quarantined_connections s !! cid) as [q|] eqn:Hq; [|done].
  assert (cid ∉ dom (connections s)) as Hn.
  { pose proof (lc_disjoint s Hc) as Hd. apply elem_of_dom_2 in Hq. set_solver. }
  destruct Hc. cbv zeta.
  assert (link_core (set_quarantined (delete cid (quarantined_connections s)) s)) as [].
  { split; cbn; [done|rewrite dom_delete_L; set_solver|]. rewrite map_size_delete, Hq. simpl. lia. }
  cbn in *. case_match; [|by split]. split; cbn; [|rewrite dom_insert_L, dom_delete_L; set_solver|done].
  rewrite dom_insert_L. set_solver.
Qed.

Lemma install_ok n now reg a : actor_ok n a → actor_ok n (install_authorization now reg a).
Proof.
  intros [Hc Hs Hi]. unfold install_authorization. cbv zeta.
  eapply actor_ok_step; [apply still_step, keeps_still, keeps_advertise|].
  match goal with |- actor_ok _ (set_snapshot _ (foldl ?f (set_link ?s ?r) ?l)) =>
    assert (still (set_link s r) (foldl f (set_link s r) l)) as [Hl _ Hin];
      [apply keeps_still, keeps_foldl; intros; apply keeps_close|];
      assert (link_core s) as Hcore end.
  { match goal with |- link_core (foldl promote ?s ?l) =>
      assert (link_core s) as Hcore; [by destruct Hc; split|revert Hcore; generalize l; generalize s] end.
    intros s l. revert s. induction l as [|x l IH]; intros s Hcore; cbn [foldl]; [done|].
    by apply IH, promote_core. }
  split; [by eapply link_core_keeps|done|].
  eapply inbound_ok_same; [|exact Hi]. etrans; [|etrans; [exact Hin|]]; by split.
Qed.

(** What the swarm promises of its events: connection ids and inbound request
    ids in use are not handed out again. *)
Definition wf_turn (t : Turn) a : Prop :=
  match t with
  | TEvent (ConnectionEstablished _ cid _) =>
      connections (link a) !! cid = None ∧ quarantined_connections (link a) !! cid = None
  | TEvent (Messaging (MsgRequest _ rid _ _)) => inbound_requests a !! rid = None
  | _ => True
  end.

Lemma established_effect n now peer cid ep a :
  actor_ok n a → connections (link a) !! cid = None → quarantined_connections (link a) !! cid = None →
  let r := connection_established now peer cid ep a in effect_ok n a r.1 r.2.
Proof.
  intros [Hc Hs Hi] Hn Hq. unfold connection_established. cbv zeta.
  destruct (node_for_peer _ peer) as [nd|].
  - cbn [state_connection_established fst snd]. set (s' := set_directory _ _).
    assert (still (set_link s' (set_link (set_pending_dials (delete cid (pending_dials (link a))) (link a)) a))
      (arbitrate_connections peer nd
        (set_link s' (set_link (set_pending_dials (delete cid (pending_dials (link a))) (link a)) a))))
      as [Hl Hsn Hin].
    { unfold arbitrate_connections. do 2 (case_match; [done|]).
      apply keeps_still, keeps_foldl. intros. apply keeps_close. }
    split; [eapply link_core_keeps; [exact Hl|]|by rewrite Hsn|done|].
    + apply not_elem_of_dom in Hn, Hq. destruct Hc. split; cbn; [| |done]; rewrite dom_insert_L; set_solver.
    + eapply inbound_ok_same; [exact Hin|]. eapply inbound_ok_same; [|exact Hi]. done.
  - cbn [link set_link]. case_decide as Hcap; cbn [fst snd].
    + apply (effect_step n n); [|by split]. apply still_step, keeps_still.
      apply (transitivity (y := set_link (set_pending_dials (delete cid (pending_dials (link a))) (link a)) a));
        [apply keeps_set_link, keeps_dials|apply keeps_close].
    + split; [|done|done|by eapply inbound_ok_same; [|exact Hi]].
      apply not_elem_of_dom in Hn. destruct Hc. cbn in Hcap. split; cbn; [done|rewrite dom_insert_L; set_solver|].
      rewrite map_size_insert_None by done. lia.
Qed.

Lemma closed_effect n now peer cid a :
  actor_ok n a → let r := on_connection_closed now peer cid a in effect_ok n a r.1 r.2.
Proof.
  intros [Hc Hs Hi]. unfold on_connection_closed. cbv zeta.
  set (s1 := set_pending_dials _ _). set (s2 := set_quarantined _ s1).
  assert (link_core s2) as Hc2.
  { destruct Hc. split; cbn; [done|rewrite dom_delete_L; set_solver|].
    rewrite map_size_delete. destruct (quarantined_connections (link a) !! cid); simpl; [|done]. lia. }
  destruct (connection_closed_ok s2 peer cid Hc2) as (Hc3 & Hsame & Hq3).
  destruct (connection_closed s2 peer cid) as [s closed] eqn:Ecl. cbn [fst snd] in *.
  set (b := if _ || _ then _ else _).
  assert (inbound_ok n b ∧ same_place (set_link s a) b) as [Hib [Hlb Hsb]].
  { subst b. assert (inbound_ok n (set_link s a)) as Hil by (by eapply inbound_ok_same; [|exact Hi]).
    case_match; [done|]. unfold remove_pending_inbound_peer. split.
    - apply inbound_ok_foldl; [|done]. intros. by apply remove_inbound_ok.
    - generalize (set_link s a). intros a0. match goal with |- context [foldl _ _ ?l] => generalize l end.
      intros l. revert a0. induction l as [|x l IH]; intros a0; cbn [foldl]; [done|].
      destruct (IH (remove_pending_inbound x a0)) as [E1 E2]. split; rewrite ?E1, ?E2;
        unfold remove_pending_inbound; by case_match. }
  set (r := match _ with Some n => _ | None => b end).
  assert (keeps b r) as Hk.
  { subst r. by repeat case_match. }
  destruct (keeps_still _ _ Hk) as [Hl Hsn Hin]. cbn in Hlb, Hsb.
  split.
  - eapply link_core_keeps; [exact Hl|]. by rewrite Hlb.
  - by rewrite Hsn, Hsb.
  - intros [Hcl Hqc]%orb_false_iff. rewrite (snapshot_keeps _ _ Hl), Hlb.
    rewrite (Hsame Hcl). apply bool_decide_eq_false, eq_None_not_Some in Hqc. subst s2.
    rewrite delete_id by done. rewrite set_quarantined_same. by apply snapshot_keeps.
  - by eapply inbound_ok_same.
Qed.

Lemma listeners_effect n l a0 a ch :
  effect_ok n a0 a ch → let r := foldl close_listener (a, ch) l in effect_ok n a0 r.1 r.2.
Proof.
  cbv zeta. revert a ch. induction l as [|m l IH]; intros a ch He; cbn [foldl]; [done|].
  unfold close_listener at 2 4. cbn [fst snd remove_listener]. apply IH. destruct He as [Hc Hs Hu Hi].
  split; [by destruct Hc; split|done| |by eapply inbound_ok_same; [|exact Hi]].
  intros [Hm Hch]%orb_false_iff. apply bool_decide_eq_false in Hm. rewrite <- (Hu Hch).
  apply snapshot_listeners. set_solver.
Qed.

Lemma event_effect_ok n clock ev a :
  actor_ok n a → wf_turn (TEvent ev) a → Z.of_nat n < u64_max →
  let r := event_effect clock ev a in effect_ok (S n) a r.1 r.2.
Proof.
  intros Ha Hwf Hn. assert (∀ b ch, effect_ok n a b ch → effect_ok (S n) a b ch) as Hle.
  { intros b ch []. split; try done. apply (inbound_ok_le n); [lia|done]. }
  assert (effect_ok n a a false) as Hid by (by apply (effect_step n n); [apply still_step|]).
  pose proof Ha as [Hc Hs Hi]. destruct ev; cbn [event_effect wf_turn] in *; cbv zeta.
  - apply Hle. split; [by destruct Hc; split|done| |by eapply inbound_ok_same; [|exact Hi]].
    cbn [snd fst]. intros Hm%bool_decide_eq_false%dec_stable. apply (snapshot_listeners (link a)). cbn in *. set_solver.
  - apply Hle. pose proof (listeners_effect n [address] a a false Hid) as He. cbn in He.
    by rewrite orb_false_r in He.
  - apply Hle. by apply (listeners_effect n addresses).
  - apply Hle. destruct Hwf. by apply established_effect.
  - apply Hle. by apply closed_effect.
  - apply Hle. destruct (_ ≫= _); [|done]. apply (effect_step n n); [|done].
    apply still_step, keeps_still, keeps_set_link, keeps_dials.
  - apply Hle. destruct (connection_health_ok (link a) peer connection ok Hc) as [Hc' Hu].
    destruct (set_connection_health _ _ _ _) as [s ch]. cbn [fst snd] in *.
    assert (effect_ok n a (set_link s a) ch) as He by (split; [done..|by eapply inbound_ok_same; [|exact Hi]]).
    destruct ok; [done|]. destruct (keeps_still _ _ (keeps_close connection (set_link s a))) as [Hl Hsn Hin].
    split; [by eapply link_core_keeps|by rewrite Hsn| |by eapply inbound_ok_same; [|apply He]].
    intros Hch. by rewrite (snapshot_keeps _ _ Hl), <- (Hu Hch).
  - apply Hle, (effect_step n n); [|done]. eapply step_trans; [apply still_step, keeps_still, keeps_mdns|].
    apply maintain_step.
  - apply Hle, (effect_step n n); [|done]. eapply step_trans; [apply still_step, keeps_still, keeps_mdns|].
    apply maintain_step.
  - destruct event; cbn [handle_messaging fst snd].
    + apply (effect_step n); [|done]. by apply inbound_request_step.
    + apply Hle, (effect_step n n); [|done]. apply still_step, response_still.
    + apply Hle, (effect_step n n); [|done]. apply still_step, failure_still.
    + apply Hle, (effect_step n n); [|done]. apply place_step; [|apply remove_inbound_request_ok].
      unfold remove_pending_inbound_request, same_place. by case_match.
    + by apply Hle.
  - apply Hle. destruct (pending_dials _ !! _); [|done]. apply (effect_step n n); [|done].
    apply still_step, keeps_still, keeps_set_link. etrans; [apply keeps_dials|apply keeps_directory].
  - by apply Hle.
Qed.

Lemma event_ok n clock ev a :
  actor_ok n a → wf_turn (TEvent ev) a → Z.of_nat n < u64_max → actor_ok (S n) (handle_event clock ev a).
Proof.
  intros Ha Hwf Hn. unfold handle_event. cbv zeta.
  pose proof (event_effect_ok n clock ev a Ha Hwf Hn) as He. cbv zeta in He.
  destruct (event_effect clock ev a) as [b ch]. cbn [fst snd] in He. destruct He as [Hc Hs Hu Hi].
  assert (actor_ok (S n) (if ch then set_snapshot (snapshot (link b)) b else b)) as Hb.
  { destruct ch; [split; [done|done|by eapply inbound_ok_same; [|exact Hi]]|].
    split; [done| |done]. by rewrite Hs, Hu, (ok_snapshot _ _ Ha). }
  case_decide; [|done]. eapply actor_ok_step; [|exact Hb]. apply still_step, keeps_still, keeps_advertise.
Qed.

Lemma peer_request_still now peer e r a : still a (send_peer_request now peer e r a).
Proof.
  unfold send_peer_request. case_decide; [done|]. cbv zeta.
  destruct (send peer e a) as [b id] eqn:Es. apply send_spec in Es as (Hk & _).
  etrans; [apply keeps_still, Hk|]. done.
Qed.

Lemma respond_step n now tok e a : inbound_step n n a (respond now tok e a).1.
Proof.
  unfold respond. destruct (pending_inbound a !! tok) as [p|] eqn:Hp; [|by apply still_step].
  cbv zeta. set (b := set_inbound_requests _ _).
  assert (inbound_step n n a b) as Hb by (by apply place_step; [|eapply (inbound_ok_delete n a b tok p)]).
  case_decide; [done|]. eapply step_trans; [exact Hb|].
  pose proof (keeps_send_back (in_channel p) e b) as Hk. destruct (send_back _ _ _) as [b' ok].
  by apply still_step, keeps_still.
Qed.

Lemma command_ok n clock cmd a : actor_ok n a → actor_ok n (handle_command clock cmd a).1.
Proof.
  intros Ha. assert (∀ b v r, still a b → actor_ok n (respond_to r v b)) as Hreply.
  { intros b v r Hb. eapply actor_ok_step; [|exact Ha]. apply still_step. etrans; [exact Hb|]. done. }
  destruct cmd as [e r|sp e r|tok e r|nd m r|m r|nd m r|nd r|reg chk persist r|r]; cbn [handle_command].
  - eapply actor_ok_step; [|exact Ha]. apply still_step. unfold send_routed_request.
    case_decide; [done|]. case_match; [apply peer_request_still|done].
  - eapply actor_ok_step; [|exact Ha]. apply still_step. unfold send_admission_request.
    case_decide; [done|]. case_match; [done|apply peer_request_still].
  - pose proof (respond_step n (now_unix_ms clock) tok e a) as Hs.
    destruct (respond _ _ _ _) as [b v]. eapply actor_ok_step; [|exact Ha].
    eapply step_trans; [exact Hs|]. by apply still_step.
  - pose proof (keeps_dial nd m (instant clock) a) as Hs%keeps_still. destruct (dial _ _ _ _). by apply Hreply.
  - pose proof (keeps_dial_admission m a) as Hs%keeps_still. destruct (dial_admission _ _). by apply Hreply.
  - pose proof (keeps_listen_via_relay nd m a) as Hs%keeps_still.
    destruct (listen_via_relay _ _ _). by apply Hreply.
  - pose proof (keeps_disconnect nd a) as Hs%keeps_still. destruct (disconnect _ _). by apply Hreply.
  - cbv zeta. cbn [fst]. match goal with |- actor_ok _ (respond_to _ _ ?b) => apply (actor_ok_step n n b) end;
      [by apply still_step|]. case_match; [by apply install_ok|done].
  - by apply Hreply.
Qed.

Lemma turn_ok n clock t a :
  actor_ok n a → wf_turn t a → Z.of_nat n < u64_max → actor_ok (S n) (turn clock t a).1.
Proof.
  intros Ha Hwf Hn. assert (∀ b, actor_ok n b → actor_ok (S n) b) as Hle.
  { intros b []. split; try done. apply (inbound_ok_le n); [lia|done]. }
  destruct t as [cmd|ev| | | |]; cbn [turn].
  - by apply Hle, command_ok.
  - by apply event_ok.
  - apply Hle. eapply actor_ok_step; [apply maintain_step|done].
  - apply Hle. eapply actor_ok_step; [apply expire_step|done].
  - apply Hle. destruct Ha as [Hc Hs [B1 B2 B3 B4 B5]]. split; [done|done|]. split; try done. cbn.
    destruct (waiting (inbound_tx a)); simpl in *; lia.
  - apply Hle. eapply actor_ok_step; [apply still_step, keeps_still, keeps_next_request_id|done].
Qed.

(** Every turn of a run respects what the swarm promises. *)
Fixpoint wf_run (ts : list (Clock * Turn)) a : Prop :=
  match ts with
  | [] => True
  | (clock, t) :: ts' => wf_turn t a ∧ (stops t = false → wf_run ts' (turn clock t a).1)
  end.

Lemma run_ok n ts a :
  actor_ok n a → wf_run ts a → Z.of_nat (n + length ts) < u64_max →
  actor_ok (n + length ts) (run a ts).
Proof.
  revert n a. induction ts as [|[clock t] ts IH]; intros n a Ha Hwf Hn; cbn [run length] in *.
  - by rewrite Nat.add_0_r.
  - destruct Hwf as [Ht Hts]. pose proof (turn_ok n clock t a Ha Ht ltac:(lia)) as Hok.
    pose proof (turn_stops clock t a) as Hs. destruct (turn clock t a) as [b stop]. cbn [fst snd] in *.
    subst stop. destruct (stops t).
    + destruct Hok as [? ? Hi]. split; [done|done|]. apply (inbound_ok_le (S n)); [lia|done].
    + rewrite <- Nat.add_succ_comm. apply IH; [done|by apply Hts|lia].
Qed.

Lemma actor_ok_start s i cfg reg boot next a : start s i cfg reg boot next = Ok a → actor_ok 0 a.
Proof.
  unfold start. destruct (listen_all _ _) as [s' [[]|]]; [|done]. cbn [result_bind]. intros [= <-].
  split; [|done|].
  - split; cbn; [set_solver|set_solver|unfold MAX_QUARANTINED_CONNECTIONS; rewrite map_size_empty; lia].
  - split; cbn; [unfold MAX_PENDING_INBOUND; rewrite map_size_empty; lia|done|done|lia|lia].
Qed.

End invariants.
