(* ===== verification/LinkTheorems.v ===== *)
(** * What the link actor guarantees

    The properties of whole runs of the actor of [Link], from the invariants
    of [LinkInvariant]: replies, deadlines, relay slots, the confinement of
    unauthorized peers, the effect of committing a registry, the arbitration
    of duplicate connections. *)

From S2P Require Import Prelude.
From S2P Require Import Identity.
From S2P Require Import Protocol.
From S2P Require Import Authorization.
From S2P Require Import Trust.
From S2P Require Import Routing.
From S2P Require Import Directory.
From S2P Require Import Admission.
From S2P Require Import LinkState.
From S2P Require Import Link.
From S2P Require Import LinkInvariant.

Section facts.
Context `{!Crypto} `{!Postcard} `{!AdmissionCrypto} `{!LibP2p} `{!Network} `{!NetworkLaws}.
Context `{!Serialize LinkStateBody} `{!Serialize LinkStateRecord}.
Implicit Types (a b : LinkActor).

(** ** Committing a registry *)

(** The link state [install_authorization] leaves. *)
Definition reauthorized (reg : AuthorizationRegistry) (s : LinkState) : LinkState :=
  set_reservations (filter (λ p, is_authorized_node reg p.1 = true) (relay_reservations s))
    (set_directory (retain (directory s) (is_authorized_node reg)) (set_authorization reg s)).

Definition installed (reg : AuthorizationRegistry) (s : LinkState) : LinkState :=
  foldl promote (reauthorized reg s) (promoted_ids (reauthorized reg s)).

Lemma publish_link now p peers a : link (publish now p peers a) = link a.
Proof.
  revert a. induction peers as [|[peer n] peers IH]; intros a; cbn [publish]; [done|].
  unfold next_request_id. destruct (allocate _ _) as [ids [rid|]]; [|done].
  destruct (new_envelope _ _) as [e|]; [|done]. unfold send. destruct (send_request _ _ _). by rewrite IH.
Qed.

Lemma advertise_link now a : link (advertise_link_state now a) = link a.
Proof.
  unfold advertise_link_state. cbv zeta. destruct (sign_link_state _ _ _) as [record|]; [|done].
  destruct (insert_link_state _ _ _) as [[db fresh]|], (to_stdvec record); rewrite ?publish_link; done.
Qed.

Lemma close_all_link l a : link (foldl (λ a cid, close cid a) a l) = link a.
Proof. revert a. induction l as [|cid l IH]; intros a; cbn [foldl]; [done|]. by rewrite IH. Qed.

Lemma install_link now reg a : link (install_authorization now reg a) = installed reg (link a).
Proof.
  unfold install_authorization. cbv zeta. rewrite advertise_link. cbn [link set_snapshot].
  by rewrite close_all_link.
Qed.

Lemma install_keeps now reg a :
  keeps_router (Routing.new (local_node (link a))) (router (install_authorization now reg a)) ∧
  pending_forwards (install_authorization now reg a) = pending_forwards a ∧
  same_inbound a (install_authorization now reg a).
Proof.
  unfold install_authorization. cbv zeta.
  match goal with |- context [advertise_link_state now ?x] => pose proof (keeps_advertise now x) as Ha end.
  match type of Ha with keeps (set_snapshot _ (foldl _ ?s ?l)) _ =>
    pose proof (keeps_foldl (λ a cid, close cid a) l s (λ b x, keeps_close x b)) as Hc end.
  destruct Ha as [_ _ _ Hr1 Ht1 _ Hp1 Hq1 Hf1 Hk1 _], Hc as [_ _ _ Hr2 Ht2 _ Hp2 Hq2 Hf2 Hk2 _].
  split_and!.
  - etrans; [|exact Hr1]. exact Hr2.
  - rewrite Hf1. exact Hf2.
  - split; [rewrite Ht1; exact Ht2|rewrite Hp1; exact Hp2|rewrite Hq1; exact Hq2|rewrite Hk1; exact Hk2].
Qed.

(** Promotion keeps everything but the two connection tables. *)
Lemma promote_frame s cid :
  authorization (promote s cid) = authorization s ∧ local_node (promote s cid) = local_node s ∧
  directory (promote s cid) = directory s ∧ relay_reservations (promote s cid) = relay_reservations s ∧
  local_peer_id (promote s cid) = local_peer_id s.
Proof. unfold promote. case_match; [|done]. cbv zeta. by case_match. Qed.

Lemma promote_all_frame l s :
  let s' := foldl promote s l in
  authorization s' = authorization s ∧ local_node s' = local_node s ∧
  directory s' = directory s ∧ relay_reservations s' = relay_reservations s.
Proof.
  cbv zeta. revert s. induction l as [|cid l IH]; intros s; cbn [foldl]; [done|].
  destruct (promote_frame s cid) as (E1 & E2 & E3 & E4 & _). destruct (IH (promote s cid)) as (?&?&?&?).
  split_and!; congruence.
Qed.

Lemma installed_frame reg s :
  authorization (installed reg s) = reg ∧ local_node (installed reg s) = local_node s ∧
  directory (installed reg s) = retain (directory s) (is_authorized_node reg) ∧
  relay_reservations (installed reg s)
    = filter (λ p, is_authorized_node reg p.1 = true) (relay_reservations s).
Proof. apply (promote_all_frame _ (reauthorized reg s)). Qed.

Lemma promote_quarantined s cid :
  quarantined_connections (promote s cid) = delete cid (quarantined_connections s).
Proof.
  unfold promote. destruct (quarantined_connections s !! cid) as [q|] eqn:E; [|by rewrite delete_id].
  cbv zeta. by case_match.
Qed.

Lemma promote_all_quarantined l s cid :
  quarantined_connections (foldl promote s l) !! cid
  = if decide (cid ∈ l) then None else quarantined_connections s !! cid.
Proof.
  revert s. induction l as [|x l IH]; intros s; cbn [foldl]; [by rewrite decide_False by apply not_elem_of_nil|].
  rewrite IH, promote_quarantined, lookup_delete. repeat case_decide; set_solver.
Qed.

Lemma elem_of_promoted s cid :
  cid ∈ promoted_ids s ↔
  ∃ q, quarantined_connections s !! cid = Some q ∧ is_Some (node_for_peer (authorization s) (q_peer_id q)).
Proof.
  unfold promoted_ids. rewrite list_elem_of_omap. split.
  - intros ([x q] & Hin & Hx). apply elem_of_btree_iter in Hin. simpl in Hx.
    destruct (node_for_peer _ _) eqn:E; simplify_eq. exists q. by rewrite E.
  - intros (q & Hq & n & Hn). exists (cid, q). split; [by apply elem_of_btree_iter|]. simpl. by rewrite Hn.
Qed.

Lemma installed_quarantined reg s cid q :
  quarantined_connections (installed reg s) !! cid = Some q →
  quarantined_connections s !! cid = Some q ∧ node_for_peer reg (q_peer_id q) = None.
Proof.
  unfold installed. rewrite promote_all_quarantined. case_decide as Hin; [done|]. intros Hq.
  split; [done|]. destruct (node_for_peer reg (q_peer_id q)) as [n|] eqn:E; [|done].
  exfalso. apply Hin, elem_of_promoted. exists q. split; [done|]. by exists n.
Qed.

Lemma elem_of_stale s cid :
  cid ∈ stale_ids s ↔
  ∃ c, connections s !! cid = Some c ∧
    node_for_peer (authorization s) (c_peer_id c) ≠ Some (c_node_id c).
Proof.
  unfold stale_ids. rewrite list_elem_of_omap. split.
  - intros ([x c] & Hin & Hx). apply elem_of_btree_iter in Hin. simpl in Hx. case_decide; simplify_eq. eauto.
  - intros (c & Hc & Hn). exists (cid, c). split; [by apply elem_of_btree_iter|]. simpl. by rewrite decide_False.
Qed.
End facts.

(** ** Properties *)

(** C31: every command gets at most one reply, and none is forgotten: after any
    run, the replies sent together with the requests still awaiting theirs are
    exactly the commands received, whatever was lost, expired, refused or
    answered in between, and whatever the peers did. *)
Theorem replies_once `{!Crypto, !Postcard, !AdmissionCrypto, !LibP2p, !Network, !NetworkLaws,
    !Serialize LinkStateBody, !Serialize LinkStateRecord} s i cfg reg boot next a ts :
  start s i cfg reg boot next = Ok a →
  (replies (run a ts)).*1 ++ awaiting (run a ts) ≡ₚ (asked ts).*1.
Proof.
  intros Ha%books_start. pose proof (books_run [] ts a Ha) as Hb.
  rewrite app_nil_r in Hb. apply Hb.
Qed.


(** Deadlines are enforced: once the timer fired or maintenance ran at
    [now], no request, relayed request or inbound request whose deadline has
    come is left in its table and every other one is untouched; the callers
    whose requests expired, and no one else, were sent a timeout; and the
    timer is never set beyond the earliest deadline. *)
Theorem deadlines_enforced `{!Crypto, !Postcard, !AdmissionCrypto, !LibP2p, !Network, !NetworkLaws,
    !Serialize LinkStateBody, !Serialize LinkStateRecord} clock a t :
  t = TDeadline ∨ t = TMaintenance →
  let now := now_unix_ms clock in let b := (turn clock t a).1 in
  pending_outbound b = unexpired (x_deadline_unix_ms ∘ expected) now (pending_outbound a) ∧
  pending_forwards b = unexpired (x_deadline_unix_ms ∘ fwd_expected) now (pending_forwards a) ∧
  pending_inbound b = unexpired in_deadline_unix_ms now (pending_inbound a) ∧
  (∀ x, x ∈ replies b ↔ x ∈ replies a ∨
    ∃ id p, pending_outbound a !! id = Some p ∧ x_deadline_unix_ms (expected p) ≤ now ∧
      x = (reply p, ReplyEnvelope (Err Timeout))) ∧
  ∀ id p, pending_outbound a !! id = Some p → is_i64 (x_deadline_unix_ms (expected p)) → is_i64 now →
    now ≤ x_deadline_unix_ms (expected p) → now + deadline_wait now a ≤ x_deadline_unix_ms (expected p).
Proof.
  intros Ht now b.
  assert (pending_outbound b = pending_outbound (expire_pending_requests now a) ∧
    pending_forwards b = pending_forwards (expire_pending_requests now a) ∧
    pending_inbound b = pending_inbound (expire_pending_requests now a) ∧
    replies b = replies (expire_pending_requests now a)) as (-> & -> & -> & ->).
  { destruct Ht as [-> | ->]; [done|]. by destruct (keeps_maintain clock a). }
  destruct (expire_tables now a) as (Ho & Hf & Hi & Hr). split_and!; try done.
  intros id p Hp Hd Hn Hle. unfold deadline_wait, next_pending_deadline.
  set (l := _ ++ _). pose proof (min_by_key_spec (λ d : Z, d) l) as Hm.
  assert (x_deadline_unix_ms (expected p) ∈ l) as Hin.
  { unfold l. rewrite elem_of_app. left. apply list_elem_of_fmap. exists p. split; [done|].
    apply elem_of_btree_values. eauto. }
  destruct (min_by_key (λ d : Z, d) l) as [d|]; [|by rewrite Hm in Hin; apply elem_of_nil in Hin].
  destruct Hm as [_ Hmin]. specialize (Hmin _ Hin). apply ord_le_lteq in Hmin.
  assert (d ≤ x_deadline_unix_ms (expected p)) as Hdle.
  { destruct Hmin as [Hlt| ->]; [|done].
    change (d < x_deadline_unix_ms (expected p)) in Hlt. lia. }
  unfold i64_saturating_sub, is_i64, i64_min, i64_max in *. lia.
Qed.

(** The relay never holds more forwarded requests than its slots: in a run
    that commits no new registry, every pending relay occupies one of the
    router's slots and the router never grants more than its maximum. *)
Theorem relay_bounded `{!Crypto, !Postcard, !AdmissionCrypto, !LibP2p, !Network, !NetworkLaws,
    !Serialize LinkStateBody, !Serialize LinkStateRecord} s i cfg reg boot next a ts :
  start s i cfg reg boot next = Ok a → Forall (λ t, commits t.2 = false) ts →
  inflight (router (run a ts)) = size (pending_forwards (run a ts)) ∧
  (size (pending_forwards (run a ts)) <= DEFAULT_MAX_INFLIGHT)%nat.
Proof.
  intros Ha Hts.
  assert (max_inflight (router a) = DEFAULT_MAX_INFLIGHT) as Hmax.
  { unfold start in Ha. destruct (listen_all _ _) as [s' [[]|]]; [|done]. cbn in Ha. by simplify_eq. }
  pose proof (slots_start _ _ _ _ _ _ _ Ha) as Hs. clear Ha.
  assert (slots (run a ts) ∧ max_inflight (router (run a ts)) = DEFAULT_MAX_INFLIGHT) as [[_ Hi Hb] Hm];
    [|rewrite <- Hi; split; [done|congruence]].
  revert a Hmax Hs. induction Hts as [|[clock t] ts Ht Hts IH]; intros a Hmax Hs; cbn [run]; [done|].
  destruct (turn_slots clock t a Ht Hs) as [Hs' Hm']. destruct (turn clock t a) as [b []]; cbn [fst] in *.
  - by rewrite Hm'.
  - by apply IH; [rewrite Hm'|].
Qed.

(** What every run preserves, as long as the swarm does not hand out a
    connection id or an inbound request id that is in use: the published
    snapshot is always that of the current state, registry changes and lost
    connections included; no connection is both admitted and quarantined, at
    most 32 are quarantined, and only open connections count as healthy; at
    most 256 inbound requests are pending, each under its own token, and the
    queue to the upper protocols never exceeds its capacity. *)
Theorem actor_invariant `{!Crypto, !Postcard, !AdmissionCrypto, !LibP2p, !Network, !NetworkLaws,
    !Serialize LinkStateBody, !Serialize LinkStateRecord} s i cfg reg boot next a ts :
  start s i cfg reg boot next = Ok a → wf_run ts a → Z.of_nat (length ts) < u64_max →
  let b := run a ts in
  snapshot_tx b = snapshot (link b) ∧ link_core (link b) ∧
  (size (pending_inbound b) <= MAX_PENDING_INBOUND)%nat ∧
  (length (waiting (inbound_tx b)) <= capacity (inbound_tx b))%nat ∧
  (∀ tok p, pending_inbound b !! tok = Some p → inbound_requests b !! in_request_id p = Some tok) ∧
  (∀ rid tok, inbound_requests b !! rid = Some tok →
     ∃ p, pending_inbound b !! tok = Some p ∧ in_request_id p = rid).
Proof.
  intros Ha%actor_ok_start Hwf Hn b. pose proof (run_ok 0 ts a Ha Hwf Hn) as [Hc Hs [B1 B2 B3 _ B5]].
  split_and!; try done. intros tok p Hp. by apply (B2 _ _ Hp).
Qed.


(** What the swarm does when asked to close a connection. *)
Class ClosingLaws `{!Network} := {
  closing : Swarm → gset ConnectionId;
  closing_close s c : closing (close_connection s c) = {[c]} ∪ closing s;
  closing_request s p e : closing (send_request s p e).1 = closing s;
}.

Section closing.
Context `{!Crypto} `{!Postcard} `{!AdmissionCrypto} `{!LibP2p} `{!Network} `{!ClosingLaws}.
Context `{!Serialize LinkStateBody} `{!Serialize LinkStateRecord}.
Implicit Types (a b : LinkActor).

Lemma publish_closing now p peers a : closing (swarm (publish now p peers a)) = closing (swarm a).
Proof.
  revert a. induction peers as [|[peer n] peers IH]; intros a; cbn [publish]; [done|].
  unfold next_request_id. destruct (allocate _ _) as [ids [rid|]]; [|done].
  destruct (new_envelope _ _) as [e|]; [|done]. unfold send. cbn [swarm set_request_ids].
  pose proof (closing_request (swarm a) peer e) as Hc. destruct (send_request (swarm a) peer e) as [s id].
  rewrite IH. exact Hc.
Qed.

Lemma advertise_closing now a : closing (swarm (advertise_link_state now a)) = closing (swarm a).
Proof.
  unfold advertise_link_state. cbv zeta. destruct (sign_link_state _ _ _) as [record|]; [|done].
  destruct (insert_link_state _ _ _) as [[db fresh]|], (to_stdvec record); rewrite ?publish_closing; done.
Qed.

Lemma close_all_closing l a cid :
  cid ∈ closing (swarm (foldl (λ a cid, close cid a) a l)) ↔ cid ∈ l ∨ cid ∈ closing (swarm a).
Proof.
  revert a. induction l as [|x l IH]; intros a; cbn [foldl].
  - split; [by right|]. intros [Hnil%elem_of_nil|?]; done.
  - rewrite IH. cbn. rewrite closing_close. set_solver.
Qed.

Lemma install_closing now reg a cid :
  cid ∈ stale_ids (installed reg (link a)) → cid ∈ closing (swarm (install_authorization now reg a)).
Proof.
  intros Hin. unfold install_authorization. cbv zeta. rewrite advertise_closing. cbn [swarm set_snapshot].
  apply close_all_closing. by left.
Qed.
End closing.

Lemma filter_key_lookup {A} (m : gmap NodeId A) (keep : NodeId → bool) n :
  filter (λ p, keep p.1 = true) m !! n = if keep n then m !! n else None.
Proof.
  rewrite map_lookup_filter. destruct (m !! n); simpl; [|by case_match].
  destruct (keep n) eqn:E; case_guard; simplify_eq/=; done || congruence.
Qed.

Lemma record_lookup d n peer address source now ttl :
  ∃ e, Directory.record d n peer address source now ttl !! n = Some e ∧
    e_peer_id e = e_peer_id (default (new_entry peer) (d !! n)).
Proof. unfold Directory.record, PeerDirectory in *. rewrite lookup_insert_eq. by eexists. Qed.

Lemma retain_lookup d keep n : retain d keep !! n = if keep n then d !! n else None.
Proof. apply (filter_key_lookup d keep n). Qed.

(** Committing a registry takes effect at once: afterwards the registry is
    the one decisions are made with, every connection it does not authorize is
    being closed, no authorized peer is left in quarantine, and addresses and
    relay reservations are kept for exactly the nodes it has an active peer
    for. *)
Theorem commit_takes_effect `{!Crypto, !Postcard, !AdmissionCrypto, !LibP2p, !Network, !NetworkLaws,
    !ClosingLaws, !Serialize LinkStateBody, !Serialize LinkStateRecord} now reg (a : LinkActor) :
  let b := install_authorization now reg a in
  authorization (link b) = reg ∧
  (∀ cid c, connections (link b) !! cid = Some c →
     node_for_peer reg (c_peer_id c) = Some (c_node_id c) ∨ cid ∈ closing (swarm b)) ∧
  (∀ cid q, quarantined_connections (link b) !! cid = Some q → node_for_peer reg (q_peer_id q) = None) ∧
  (∀ n, directory (link b) !! n = if is_authorized_node reg n then directory (link a) !! n else None) ∧
  (∀ n, relay_reservations (link b) !! n
     = if is_authorized_node reg n then relay_reservations (link a) !! n else None).
Proof.
  intros b. pose proof (install_link now reg a) as Hl. pose proof (install_closing now reg a) as Hc.
  fold b in Hl, Hc. destruct (installed_frame reg (link a)) as (Ha & _ & Hd & Hr). rewrite Hl.
  split_and!; [done| | | |].
  - intros cid c Hcid. destruct (decide (node_for_peer reg (c_peer_id c) = Some (c_node_id c))); [by left|].
    right. apply Hc, elem_of_stale. exists c. by rewrite Ha.
  - intros cid q Hq. by apply installed_quarantined in Hq as [_ ?].
  - intros n. rewrite Hd. apply retain_lookup.
  - intros n. rewrite Hr. apply filter_key_lookup.
Qed.

(** A rotation leaves the directory with the retired key: if the registry
    committed gives a node another active peer id, an address recorded for it
    is kept under the peer id it had before, and is what maintenance dials,
    even after the operator dials the node again at any address. *)
Theorem rotation_leaves_stale_peer `{!Crypto, !Postcard, !AdmissionCrypto, !LibP2p, !Network, !NetworkLaws,
    !Serialize LinkStateBody, !Serialize LinkStateRecord} now reg (a : LinkActor) n e peer address address' at' :
  directory (link a) !! n = Some e → candidate e at' = Some address →
  active_peer_for_node peer_id_from_bytes reg n = Some peer → peer ≠ e_peer_id e →
  let b := install_authorization now reg a in
  (n, e_peer_id e, address) ∈ candidates (directory (link b)) at' ∧
  ∃ e', Directory.record (directory (link b)) n peer address' Configured at'
          (discovered_address_ttl (config a)) !! n = Some e' ∧ e_peer_id e' = e_peer_id e ∧
        peer ≠ e_peer_id e'.
Proof.
  intros He Hcand Hpeer Hne b. pose proof (install_link now reg a) as Hl. fold b in Hl.
  destruct (installed_frame reg (link a)) as (_ & _ & Hd & _).
  assert (directory (link b) !! n = Some e) as Hb.
  { rewrite Hl, Hd, retain_lookup. unfold is_authorized_node. by rewrite Hpeer. }
  split.
  - unfold candidates. apply list_elem_of_omap. exists (n, e). split; [by apply elem_of_btree_iter|].
    by rewrite Hcand.
  - destruct (record_lookup (directory (link b)) n peer address' Configured at'
      (discovered_address_ttl (config a))) as (e' & He' & Hp'). rewrite Hb in Hp'. cbn in Hp'.
    exists e'. split_and!; [done|done|congruence].
Qed.

(** Committing a registry, the current one included, forgets the relay
    slots in use and the replay window: the requests being relayed stay
    pending while the router counts none of them, and a request for this node
    that was dropped as a duplicate before the commit is delivered again after
    it. *)
Theorem commit_forgets_window `{!Crypto, !Postcard, !AdmissionCrypto, !LibP2p, !Network, !NetworkLaws,
    !Serialize LinkStateBody, !Serialize LinkStateRecord} now reg (a : LinkActor) peer n rid e ch :
  let h := header e in
  request_id h ∈ seen_set (router a) → now < deadline_unix_ms h → version h = PROTOCOL_VERSION →
  node_for_peer reg peer = Some n → node_for_peer (authorization (link a)) peer = Some n →
  protocol h ≠ Protocol.Admission → protocol h ≠ Route → destination h = local_node (link a) →
  h_cluster_id h = reg_cluster_id reg → reg_cluster_id reg = reg_cluster_id (authorization (link a)) →
  (size (pending_inbound a) < MAX_PENDING_INBOUND)%nat → receiver_open (inbound_tx a) = true →
  (length (waiting (inbound_tx a)) < capacity (inbound_tx a))%nat →
  let b := install_authorization now reg a in
  inflight (router b) = 0%nat ∧ pending_forwards b = pending_forwards a ∧
  waiting (inbound_tx (handle_inbound_request now peer rid e ch a)) = waiting (inbound_tx a) ∧
  waiting (inbound_tx (handle_inbound_request now peer rid e ch b))
    = waiting (inbound_tx a) ++ [mkInbound (next_inbound_token a) peer e].
Proof.
  intros h Hseen Hnow Hv Hp Hp0 Hna Hnr Hd Hcl Hcl' Hsz Hopen Hlen b.
  destruct (install_keeps now reg a) as (Hr & Hf & [Htx Hpi Hri Hk]).
  pose proof (install_link now reg a) as Hl. fold b in Hr, Hf, Htx, Hpi, Hri, Hk, Hl.
  destruct (installed_frame reg (link a)) as (Ha & Hln & _ & _).
  destruct Hr as [Rl Rs Rss Rc Ri Rm]. cbn in *.
  assert (∀ x, version (header e) = PROTOCOL_VERSION → node_for_peer (authorization (link x)) peer = Some n →
    h_cluster_id h = reg_cluster_id (authorization (link x)) →
    handle_inbound_request now peer rid e ch x = route_inbound now peer rid e ch x) as Hroute.
  { intros x Hxv Hxp Hxc. unfold handle_inbound_request. cbv zeta. rewrite decide_False by (intros []; done).
    rewrite Hxp, decide_False by done. rewrite decide_False by (intros []; done).
    rewrite decide_False; [done|]. by intros [? _]. }
  rewrite !Hroute; [|done|by rewrite Hl, Ha|by rewrite Hl, Ha|done|done|congruence].
  split_and!; [done|done| |].
  - unfold route_inbound, Routing.handle. cbv zeta. rewrite decide_False by (fold h; lia).
    rewrite mark_seen_stale by done. done.
  - unfold route_inbound. destruct (handle_at_dest (router b) e now (local_node (link a))) as (r' & Hh);
      [done|done| |done|].
    { rewrite Rss. apply not_elem_of_empty. }
    rewrite Hh. unfold deliver. fold h. rewrite decide_False by lia.
    cbn [pending_inbound set_router]. rewrite Hpi. rewrite decide_False by lia. cbv zeta.
    unfold try_send. cbn. rewrite Htx, Hopen, Hk. cbn. rewrite bool_decide_eq_true_2 by done. done.
Qed.

(** ** Duplicate connections *)

Section arbitration.
Context `{!Crypto} `{!Postcard} `{!AdmissionCrypto} `{!LibP2p}.

Definition arbitration_key (c : ConnectionId * (Z * Z * bytes)) : Z * Z * bytes * Z := (c.2, c.1).

(** The state holds exactly two connections to a node. *)
Definition two_connections (s : LinkState) (n : NodeId) (cx cy : ConnectionId) (x y : ConnectedPoint) : Prop :=
  cx ≠ cy ∧ ∃ kx ky, connections s !! cx = Some kx ∧ connections s !! cy = Some ky ∧
    c_node_id kx = n ∧ c_node_id ky = n ∧ c_endpoint kx = x ∧ c_endpoint ky = y ∧
    ∀ cid k, connections s !! cid = Some k → c_node_id k = n → cid = cx ∨ cid = cy.

Lemma two_ranked s n local_peer peer cx cy x y :
  two_connections s n cx cy x y →
  ord_lt (connection_preference local_peer peer x) (connection_preference local_peer peer y) →
  fst <$> ranked_connections local_peer peer n s = [cx; cy].
Proof.
  intros (Hne & kx & ky & Hx & Hy & Hnx & Hny & <- & <- & Hall) Hlt.
  set (px := connection_preference local_peer peer (c_endpoint kx)) in *.
  set (py := connection_preference local_peer peer (c_endpoint ky)) in *.
  assert (ranked_connections local_peer peer n s = [(cx, px); (cy, py)]) as ->; [|done].
  assert (ord_lt (arbitration_key (cx, px)) (arbitration_key (cy, py))) as Hlt'.
  { unfold arbitration_key. change (prod_cmp (px, cx) (py, cy) = Lt). unfold prod_cmp. cbn [fst snd].
    unfold ord_lt in Hlt. by rewrite Hlt. }
  unfold ranked_connections. change (λ c : Z * (Z * Z * bytes), (c.2, c.1)) with arbitration_key.
  assert (arbitration_key (cx, px) ≠ arbitration_key (cy, py)) as Hkne by (intros [=]; done).
  symmetry. apply (sorted_by_key_unique arbitration_key).
  - repeat constructor. apply ord_le_lteq. by left.
  - apply sort_by_key_sorted.
  - cbn. apply NoDup_cons. split; [by rewrite list_elem_of_singleton|apply NoDup_singleton].
  - rewrite sort_by_key_perm. apply NoDup_Permutation.
    + apply NoDup_cons. split; [rewrite list_elem_of_singleton; congruence|apply NoDup_singleton].
    + apply (NoDup_fmap_1 fst). rewrite <- list_fmap_compose.
      apply (NoDup_fmap_filter fst), btree_iter_NoDup_keys.
    + intros [cid pref]. rewrite list_elem_of_fmap. split.
      * intros [[= -> ->]|[[= -> ->]|?%elem_of_nil]%elem_of_cons]%elem_of_cons; [| |done].
        -- exists (cx, kx). split; [done|]. apply list_elem_of_filter. by rewrite elem_of_btree_iter.
        -- exists (cy, ky). split; [done|]. apply list_elem_of_filter. by rewrite elem_of_btree_iter.
      * intros ([c k] & [= -> ->] & [Hn Hk]%list_elem_of_filter). apply elem_of_btree_iter in Hk.
        cbn in Hn. destruct (Hall c k Hk Hn) as [-> | ->]; simplify_eq; set_solver.
Qed.
Lemma two_swap s n cx cy x y : two_connections s n cx cy x y → two_connections s n cy cx y x.
Proof.
  intros (Hne & kx & ky & Hx & Hy & Hnx & Hny & Hex & Hey & Hall). split; [done|].
  exists ky, kx. split_and!; try done. intros cid k Hk Hn. destruct (Hall cid k Hk Hn); auto.
Qed.

Lemma pref_lt (t1 r1 t2 r2 : Z) (a1 a2 : bytes) :
  t1 < t2 ∨ t1 = t2 ∧ r1 < r2 → ord_lt (t1, r1, a1) (t2, r2, a2).
Proof.
  intros Hlt. change (prod_cmp (t1, r1, a1) (t2, r2, a2) = Lt). unfold prod_cmp. cbn [fst snd].
  change (ord_cmp (t1, r1) (t2, r2)) with (prod_cmp (t1, r1) (t2, r2)). unfold prod_cmp. cbn [fst snd].
  change (ord_cmp t1 t2) with (t1 ?= t2). change (ord_cmp r1 r2) with (r1 ?= r2).
  destruct Hlt as [Ht|[-> Hr]]; [by rewrite (proj2 (Z.compare_lt_iff _ _) Ht)|].
  by rewrite Z.compare_refl, (proj2 (Z.compare_lt_iff _ _) Hr).
Qed.

(** The order in which one end ranks the two connections. *)
Lemma ranked_pair s n local_peer peer cx cy x y (first : bool) :
  two_connections s n cx cy x y →
  (let u := if first then x else y in let v := if first then y else x in
   let role p := if Bool.eqb (is_dialer p) (ord_gtb peer local_peer) then 0 else 1 in
   transport_class u < transport_class v ∨ transport_class u = transport_class v ∧ role u < role v) →
  fst <$> ranked_connections local_peer peer n s = (if first then [cx; cy] else [cy; cx]).
Proof.
  intros Htwo Hlt. destruct first; cbv zeta in Hlt.
  - apply (two_ranked _ _ _ _ _ _ x y); [done|]. by apply pref_lt.
  - apply (two_ranked _ _ _ _ _ _ y x); [by apply two_swap|]. by apply pref_lt.
Qed.
End arbitration.

Lemma gtb_flip (a b : bytes) : a ≠ b → ord_gtb b a = negb (ord_gtb a b).
Proof.
  intros Hne. destruct (ord_gtb a b) eqn:E.
  - apply ord_gtb_spec in E. apply ord_gtb_false, ord_le_lteq. by left.
  - apply ord_gtb_false, ord_le_lteq in E as [E|?]; [|done]. by apply ord_gtb_spec.
Qed.

(** Two nodes that dialled each other at the same time keep the same
    connection. Each sees one connection it dialled and one the other dialled;
    if both ends agree on the transport of each connection, then whichever
    connection one of them prefers the other prefers too, whatever the
    addresses they see, and with the same transport it is the one dialled by
    the node with the smaller peer id. *)
Theorem simultaneous_dial_agree `{!LibP2p} sa sb na nb pa pb ax ay bx by' cax cay cbx cby :
  (∀ p, is_dialer p = match p with Dialer _ => true | Listener _ _ => false end) →
  pa ≠ pb →
  let xa := Dialer ax in let ya := Listener ay bx in
  let xb := Listener bx ax in let yb := Dialer by' in
  transport_class xa = transport_class xb → transport_class ya = transport_class yb →
  two_connections sa nb cax cay xa ya → two_connections sb na cbx cby xb yb →
  ∃ first : bool,
    fst <$> ranked_connections pa pb nb sa = (if first then [cax; cay] else [cay; cax]) ∧
    fst <$> ranked_connections pb pa na sb = (if first then [cbx; cby] else [cby; cbx]) ∧
    (transport_class xa = transport_class ya → first = ord_gtb pb pa).
Proof.
  intros Hdial Hne xa ya xb yb Hx Hy Ha Hb. pose proof (gtb_flip pa pb Hne) as Hflip.
  exists (match transport_class xa ?= transport_class ya with
          | Lt => true | Gt => false | Eq => ord_gtb pb pa end).
  split_and!; [apply (ranked_pair _ _ _ _ _ _ xa ya); [done|]|apply (ranked_pair _ _ _ _ _ _ xb yb); [done|]|];
    [..|intros ->; by rewrite Z.compare_refl].
  - destruct (Z.compare_spec (transport_class xa) (transport_class ya)) as [E|E|E]; cbv zeta;
      [right|by left|by left]. rewrite !Hdial, Hflip. destruct (ord_gtb pa pb); cbn; split; lia.
  - destruct (Z.compare_spec (transport_class xa) (transport_class ya)) as [E|E|E]; cbv zeta;
      [right|left; lia|left; lia].
    rewrite !Hdial, Hflip. destruct (ord_gtb pa pb); cbn; split; lia.
Qed.

(** ** A concrete node *)

#[local] Existing Instance toy_crypto.
#[local] Existing Instance toy_postcard.

#[local] Instance toy_libp2p : LibP2p := {|
  protocols := λ a, if decide (a = "quic") then [QuicV1] else [Tcp 1; OtherProtocol a];
  with_protocol := λ a p, match p with P2pCircuit => String.append a "/circuit" | _ => a end;
  is_relayed := λ _, false;
  is_dialer := λ p, match p with Dialer _ => true | Listener _ _ => false end;
  get_remote_address := λ p, match p with Dialer a => a | Listener _ a => a end;
|}.

(** A swarm that counts requests and remembers what it was asked to close. *)
#[local] Instance toy_swarm : Network := {|
  Swarm := nat * gset Z;
  swarm_dial := λ s _ l, (s, if decide (l = ["bad"]) then Err "unreachable" else Ok tt);
  listen_on := λ s _, (s, Ok tt);
  disconnect_peer_id := λ s _, (s, true);
  close_connection := λ s c, (s.1, {[c]} ∪ s.2);
  add_external_address := λ s _, s;
  send_request := λ s _ _, ((S s.1, s.2), Z.of_nat s.1);
  send_response := λ s _ _, (s, true);
|}.

Definition toy_issued (s : Swarm) : gset Z := list_to_set (Z.of_nat <$> seq 0 s.1).

Lemma toy_issued_S n cl : toy_issued (S n, cl) = {[Z.of_nat n]} ∪ toy_issued (n, cl).
Proof.
  unfold toy_issued. cbn [fst]. rewrite seq_S, fmap_app, list_to_set_app_L. cbn. set_solver.
Qed.

Lemma toy_issued_fresh n cl : Z.of_nat n ∉ toy_issued (n, cl).
Proof.
  unfold toy_issued. rewrite elem_of_list_to_set, list_elem_of_fmap. intros (k & Hk & Hin).
  apply elem_of_seq in Hin. cbn in Hin. lia.
Qed.

#[local] Instance toy_swarm_laws : NetworkLaws.
Proof.
  apply (@Build_NetworkLaws toy_swarm toy_issued).
  - intros [n cl] p e. split; [apply toy_issued_fresh|apply toy_issued_S].
  - done.
  - done.
  - done.
  - done.
  - done.
  - done.
Defined.

#[local] Instance toy_closing : ClosingLaws.
Proof. by apply (@Build_ClosingLaws toy_swarm (λ s, s.2)). Defined.

#[local] Instance toy_body_serialize : Serialize LinkStateBody := {|
  to_stdvec := λ b, Ok (String.append (lb_node_id b) (String.concat "," (lb_edges b)));
  from_bytes := λ _, Err "unused";
|}.
#[local] Instance toy_record_serialize : Serialize LinkStateRecord := {|
  to_stdvec := λ r, Ok (ls_signature r);
  from_bytes := λ _, Err "unused";
|}.

Definition toy_config : LinkConfig := new_config ["tcp"].
Definition toy_local : NodeId := ni_node_id (toy_identity "x").
Definition toy_remote : NodeId := node_id toy_member.

Definition toy_actor : LinkActor :=
  mkActor (0%nat, ∅)
    (snapshot (new_link_state toy_local (peer_id_bytes (toy_identity "x")) toy_registry))
    (new_link_state toy_local (peer_id_bytes (toy_identity "x")) toy_registry) toy_config (toy_identity "x") (Routing.new toy_local)
    (mkQueue 64 true []) ∅ ∅ ∅ ∅ ∅ 0 (mkSequence "boot" 0) 0 [].

Lemma toy_start :
  start (0%nat, ∅) (toy_identity "x") toy_config toy_registry "boot" 0 = Ok toy_actor.
Proof. reflexivity. Qed.

Definition toy_request (rid : RequestId) (deadline : Z) : Envelope :=
  mkEnvelope (mkHeader 1 toy_cluster rid toy_local toy_remote Registry Request deadline 4) "ask".
Definition toy_response : Envelope :=
  mkEnvelope (mkHeader 1 toy_cluster "q1" toy_remote toy_local Registry Response 1000 4) "answer".

(** A peer connects, answers one request, and lets another one expire. *)
Definition toy_turns : list (Clock * Turn) :=
  [(mkClock 10 10, TEvent (ConnectionEstablished "py" 1 (Dialer "tcp")));
   (mkClock 20 20, TCommand (CmdRequest (toy_request "q1" 1000) 100));
   (mkClock 20 20, TCommand (CmdRequest (toy_request "q2" 50) 101));
   (mkClock 30 30, TEvent (Messaging (MsgResponse "py" 1 toy_response)));
   (mkClock 35 35, TCommand (CmdRequest (toy_request "q3" 900) 102));
   (mkClock 60 60, TDeadline)].

Lemma toy_replies :
  replies (run toy_actor toy_turns)
  = [(100, ReplyEnvelope (Ok toy_response)); (101, ReplyEnvelope (Err Timeout))].
Proof. vm_compute. reflexivity. Qed.

Lemma replies_once_witness :
  (replies (run toy_actor toy_turns)).*1 ++ awaiting (run toy_actor toy_turns) ≡ₚ [102; 101; 100].
Proof. exact (replies_once _ _ _ _ _ _ _ toy_turns toy_start). Defined.


Lemma deadlines_enforced_witness :
  let a := run toy_actor (take 3 toy_turns) in
  pending_outbound (turn (mkClock 60 60) TDeadline a).1
  = unexpired (x_deadline_unix_ms ∘ expected) 60 (pending_outbound a).
Proof.
  intros a. apply (deadlines_enforced (mkClock 60 60) a TDeadline (or_introl eq_refl)).
Defined.

Lemma relay_bounded_witness :
  inflight (router (run toy_actor toy_turns)) = size (pending_forwards (run toy_actor toy_turns)).
Proof.
  apply (relay_bounded _ _ _ _ _ _ _ toy_turns toy_start).
  repeat (apply Forall_cons; split; [reflexivity|]). apply Forall_nil. exact I.
Defined.

Lemma toy_wf_run : wf_run toy_turns toy_actor.
Proof.
  unfold toy_turns. cbn [wf_run]. repeat (split; [first [exact I|by split]|intros _]). exact I.
Qed.

Lemma actor_invariant_witness :
  let b := run toy_actor toy_turns in
  snapshot_tx b = snapshot (link b) ∧ connected_nodes (snapshot_tx b) = [toy_remote].
Proof.
  intros b. destruct (actor_invariant _ _ _ _ _ _ _ toy_turns toy_start toy_wf_run) as (Hs & _).
  - vm_compute. reflexivity.
  - split; [exact Hs|]. vm_compute. reflexivity.
Defined.

(** A stranger, connected and quarantined, sends an ordinary request. *)
Definition toy_stranger : LinkActor :=
  run toy_actor [(mkClock 10 10, TEvent (ConnectionEstablished "pz" 1 (Dialer "tcp")))].


(** The registry after the member rotated its key, committed by a node that
    had dialled it. *)
Definition toy_rotated : AuthorizationRegistry := (insert toy_registry toy_rotation).1.
Definition toy_dialled : LinkActor := (turn (mkClock 10 10) (TCommand (CmdDial toy_remote "tcp" 100)) toy_actor).1.

Definition toy_entry : PeerDirectoryEntry :=
  mkEntry "py" {["tcp" := mkPeerAddress Configured None None None]} 0 None false.

Lemma rotation_leaves_stale_peer_witness :
  (toy_remote, "py", "tcp")
  ∈ candidates (directory (link (install_authorization 20 toy_rotated toy_dialled))) 30.
Proof.
  destruct (rotation_leaves_stale_peer 20 toy_rotated toy_dialled toy_remote toy_entry "pw" "tcp" "tcp" 30)
    as [Hc _].
  - vm_compute. reflexivity.
  - vm_compute. reflexivity.
  - vm_compute. reflexivity.
  - vm_compute. discriminate.
  - exact Hc.
Defined.

(** A request of the member for this node, delivered once. *)
Definition toy_call : Envelope :=
  mkEnvelope (mkHeader 1 toy_cluster "c1" toy_remote toy_local Registry Request 1000 4) "call".
Definition toy_called : LinkActor :=
  run toy_actor
    [(mkClock 10 10, TEvent (ConnectionEstablished "py" 1 (Dialer "tcp")));
     (mkClock 20 20, TEvent (Messaging (MsgRequest "py" 1 toy_call 1)))].

Lemma commit_forgets_window_witness :
  waiting (inbound_tx toy_called) = [mkInbound 0 "py" toy_call] ∧
  waiting (inbound_tx (handle_inbound_request 30 "py" 2 toy_call 2
    (install_authorization 30 toy_registry toy_called)))
  = waiting (inbound_tx toy_called) ++ [mkInbound (next_inbound_token toy_called) "py" toy_call].
Proof.
  split; [vm_compute; reflexivity|].
  apply (commit_forgets_window 30 toy_registry toy_called "py" toy_remote 2 toy_call 2);
    try (vm_compute; reflexivity).
  - discriminate.
  - discriminate.
  - apply (bool_decide_eq_true_1 _). vm_compute. reflexivity.
  - apply (bool_decide_eq_true_1 _). vm_compute. reflexivity.
Defined.

(** The node and the member dialled each other. *)
Definition toy_doubled (n : NodeId) (peer : PeerId) (x y : ConnectedPoint) : LinkState :=
  set_connections (<[1 := mkConnection peer n x]> {[2 := mkConnection peer n y]})
    (new_link_state toy_local "px" toy_registry).

Lemma toy_two n peer x y : two_connections (toy_doubled n peer x y) n 1 2 x y.
Proof.
  split; [done|]. exists (mkConnection peer n x), (mkConnection peer n y). split_and!; try done.
  intros cid k. unfold toy_doubled. cbn [connections set_connections].
  rewrite lookup_insert_Some, lookup_singleton_Some. intros [[<- _]|[_ [<- _]]] _; auto.
Qed.

Lemma simultaneous_dial_agree_witness :
  ∃ first : bool,
    fst <$> ranked_connections "px" "py" toy_remote
      (toy_doubled toy_remote "py" (Dialer "tcp") (Listener "tcp" "b")) = (if first then [1; 2] else [2; 1]) ∧
    fst <$> ranked_connections "py" "px" toy_local
      (toy_doubled toy_local "px" (Listener "b" "tcp") (Dialer "a")) = (if first then [1; 2] else [2; 1]).
Proof.
  destruct (simultaneous_dial_agree (toy_doubled toy_remote "py" (Dialer "tcp") (Listener "tcp" "b"))
    (toy_doubled toy_local "px" (Listener "b" "tcp") (Dialer "a")) toy_local toy_remote "px" "py"
    "tcp" "tcp" "b" "a" 1 2 1 2) as (first & Ha & Hb & _).
  - reflexivity.
  - discriminate.
  - reflexivity.
  - reflexivity.
  - apply toy_two.
  - apply toy_two.
  - exact (ex_intro _ first (conj Ha Hb)).
Defined.
