(* ===== verification/Service.v ===== *)
(** * The membership service ([crates/daemon/src/membership/service.rs])

    The daemon's owner of the SWIM machine: it caches the Merkle tree of the
    membership, persists the local incarnation in the node's meta table, and
    is rebuilt from that table when the node boots
    ([crates/daemon/src/runtime.rs], [crates/daemon/src/lib.rs]). Every method
    holds one mutex for its whole body, so it is a function from the state to
    the next state and the actions it returns. The clock it reads is the
    argument [now]; [disk] says whether the meta table accepts a write. *)

From S2P Require Import Prelude.
From S2P Require Import Register.
From S2P Require Import Membership.
From S2P Require Import Merkle.
From S2P Require Import MerkleDiff.
From S2P Require Import Swim.

Definition LOCAL_INCARNATION_KEY : string := "local_incarnation".
Definition EXTENSION_ANNOTATION_PREFIX : string := "ext.".

(** [str::starts_with] *)
Definition starts_with (key prefix : string) : bool := String.prefix prefix key.

Record MembershipState : Type := mkState {
  swim : Swim;
  cached_tree : Z * MerkleTree;
  meta : option (gmap string string);
  persisted_incarnation : Z;
}.

Record MembershipService : Type := mkService {
  svc_node_id : string;
  svc_state : MembershipState;
}.

Definition set_swim (s : Swim) (self : MembershipState) : MembershipState :=
  mkState s (cached_tree self) (meta self) (persisted_incarnation self).

Definition set_state (st : MembershipState) (self : MembershipService) : MembershipService :=
  mkService (svc_node_id self) st.

(** [crate::persisted_counter]; [readable] says whether the table can be read. *)
Definition persisted_counter (readable : bool) (m : gmap string string) (key : string) : option Z :=
  if readable then raw ← m !! key; u64_parse raw else None.

(** [persist_local_incarnation] *)
Definition persist_local_incarnation (disk : bool) (local_node_id : string) (self : MembershipState)
    : MembershipState :=
  match meta self with
  | None => self
  | Some m =>
      match get (membership (swim self)) local_node_id with
      | None => self
      | Some local =>
          let inc := incarnation local in
          if decide (inc = persisted_incarnation self) then self
          else if disk then
            mkState (swim self) (cached_tree self)
              (Some (<[LOCAL_INCARNATION_KEY := u64_to_string inc]> m)) inc
          else self
      end
  end.

Section service.
Context `{!HashIter} `{!MerkleShape} (blake3 : string → Hash).

(** [matches_selector] *)
Definition matches_selector (metadata selector : gmap string string) : bool :=
  forallb (λ kv,
    existsb (λ mkv, bool_decide (mkv.1 = kv.1) && bool_decide (mkv.2 = kv.2)) (hash_iter metadata))
    (hash_iter selector).

(** [MembershipState::new] *)
Definition new_state (swim : Swim) (local_node_id : string) : MembershipState :=
  mkState swim (version (membership swim), from_membership blake3 (membership swim)) None
    (match get (membership swim) local_node_id with Some r => incarnation r | None => 1 end).

(** [merkle_tree]: the cached tree, rebuilt when the version moved. *)
Definition merkle_tree (self : MembershipState) : MembershipState * MerkleTree :=
  let version := version (membership (swim self)) in
  let self :=
    if decide ((cached_tree self).1 ≠ version) then
      mkState (swim self) (version, from_membership blake3 (membership (swim self))) (meta self)
        (persisted_incarnation self)
    else self in
  (self, (cached_tree self).2).

(** [MembershipService::new] *)
Definition new (local_node_id : string) (cfg : SwimConfig) (local : MemberRegister)
    : MembershipService :=
  mkService local_node_id (new_state (Swim.new local_node_id cfg local) local_node_id).

Definition with_meta (m : gmap string string) (self : MembershipService) : MembershipService :=
  let st := svc_state self in
  set_state (mkState (swim st) (cached_tree st) (Some m) (persisted_incarnation st)) self.

(** [state.swim.on_message(..)] followed by the persist hook: the body of
    [on_probe], and of [register]. *)
Definition on_probe (self : MembershipService) (from : string) (message : SwimMessage) (now : Z)
    (disk : bool) : MembershipService * list SwimAction :=
  let st := svc_state self in
  let '(swim', actions) := on_message (swim st) from message now in
  (set_state (persist_local_incarnation disk (svc_node_id self) (set_swim swim' st)) self, actions).

Definition register (self : MembershipService) (r : MemberRegister) (now : Z) (disk : bool)
    : MembershipService * list SwimAction :=
  let st := svc_state self in
  let '(swim', actions) :=
    on_message (swim st) (svc_node_id self) (Alive (set_updated_at_ms now r)) now in
  (set_state (persist_local_incarnation disk (svc_node_id self) (set_swim swim' st)) self, actions).

Definition leave (self : MembershipService) (id : string) (now : Z) (disk : bool)
    : MembershipService * list SwimAction :=
  let st := svc_state self in
  let inc := match get (membership (swim st)) id with Some r => incarnation r | None => 1 end in
  let swim' :=
    if decide (id = svc_node_id self) then
      set_membership (Membership.leave (membership (swim st)) id now).1 (swim st)
    else (on_message (swim st) (svc_node_id self) (Leave id inc) now).1 in
  (set_state (persist_local_incarnation disk (svc_node_id self) (set_swim swim' st)) self,
   [Broadcast (Leave id inc)]).

(** The annotations [update_local_annotations] computes. *)
Definition extension_owned (kv : string * string) : bool :=
  starts_with kv.1 EXTENSION_ANNOTATION_PREFIX.

Definition replaced_annotations (current extension_annotations : gmap string string)
    : gmap string string :=
  filter (λ kv, extension_owned kv = true) extension_annotations
    ∪ filter (λ kv, extension_owned kv = false) current.

Definition update_local_annotations (self : MembershipService)
    (extension_annotations : gmap string string) (now : Z) (disk : bool)
    : MembershipService * list SwimAction :=
  let st := svc_state self in
  match get (membership (swim st)) (svc_node_id self) with
  | None => (self, [])
  | Some current =>
      let annotations' := replaced_annotations (annotations current) extension_annotations in
      if decide (annotations' = annotations current) then (self, [])
      else
        let updated := bump_heartbeat now (set_annotations annotations' current) in
        let swim' := set_membership (merge_register (membership (swim st)) updated) (swim st) in
        (set_state (persist_local_incarnation disk (svc_node_id self) (set_swim swim' st)) self,
         [Broadcast (Alive updated)])
  end.

Definition list_nodes (self : MembershipService) (selector : gmap string string)
    : list MemberRegister :=
  filter (λ r, matches_selector (labels r) selector = true)
    (active (membership (swim (svc_state self)))).

(** One round of the loop of [sync_nodes]. *)
Definition sync_register (local_node_id : string) (now : Z) (acc : Swim * list SwimAction)
    (r : MemberRegister) : Swim * list SwimAction :=
  let '(s, actions) := acc in
  let '(s, more) := on_message s local_node_id (Alive (set_updated_at_ms now r)) now in
  (s, actions ++ more).

Definition sync_nodes (self : MembershipService) (registers : list MemberRegister) (now : Z)
    (disk : bool) : MembershipService * (list MemberRegister * list SwimAction) :=
  let st := svc_state self in
  let '(swim', actions) := foldl (sync_register (svc_node_id self) now) (swim st, []) registers in
  let snapshot := active (membership swim') in
  (set_state (persist_local_incarnation disk (svc_node_id self) (set_swim swim' st)) self,
   (snapshot, actions)).

Definition merkle_tree_snapshot (self : MembershipService) : MembershipService * MerkleTree :=
  let '(st, t) := merkle_tree (svc_state self) in (set_state st self, t).

Definition merkle_root (self : MembershipService) : MembershipService * Hash :=
  let '(st, t) := merkle_tree (svc_state self) in (set_state st self, root_hash t).

Definition merkle_nodes (self : MembershipService) (refs : list NodeRef)
    : MembershipService * list RemoteNode :=
  let '(st, t) := merkle_tree (svc_state self) in (set_state st self, answer_refs t refs).

Definition fetch_registers (self : MembershipService) (node_ids : list string)
    : list MemberRegister :=
  omap (get (membership (swim (svc_state self)))) node_ids.

Definition tick (self : MembershipService) (now : Z) (disk : bool)
    : MembershipService * list SwimAction :=
  let st := svc_state self in
  let '(swim', actions) := Swim.tick (swim st) now in
  (set_state (persist_local_incarnation disk (svc_node_id self) (set_swim swim' st)) self, actions).

Definition member_address (self : MembershipService) (id : string) : option string :=
  address <$> get (membership (swim (svc_state self))) id.

(** ** Booting ([runtime.rs])

    The register a node starts with resumes the incarnation of its last run,
    and the meta table records the new one before the service is built. *)
Record BootInput : Type := mkBoot {
  boot_node_id : string;
  boot_address : string;
  boot_labels : gmap string string;
  boot_annotations : gmap string string;
  boot_now : Z;
  boot_readable : bool;
  boot_writable : bool;
}.

Definition boot_register (i : BootInput) (m : gmap string string) : MemberRegister :=
  let resumed := default 0 (persisted_counter (boot_readable i) m LOCAL_INCARNATION_KEY) in
  let r := Register.new (boot_node_id i) (boot_address i) resumed 0 in
  let r := rejoin (boot_address i) (boot_now i) r in
  Register.set_annotations (boot_annotations i) (Register.set_labels (boot_labels i) r).

Definition boot (i : BootInput) (m : gmap string string) : MembershipService :=
  let r := boot_register i m in
  let m :=
    if boot_writable i then <[LOCAL_INCARNATION_KEY := u64_to_string (incarnation r)]> m else m in
  with_meta m (new (boot_node_id i) default_config r).

(** ** Runs of the service *)

Inductive op : Type :=
| OpRegister (r : MemberRegister) (now : Z) (disk : bool)
| OpLeave (id : string) (now : Z) (disk : bool)
| OpAnnotate (annotations : gmap string string) (now : Z) (disk : bool)
| OpSync (registers : list MemberRegister) (now : Z) (disk : bool)
| OpProbe (from : string) (message : SwimMessage) (now : Z) (disk : bool)
| OpTick (now : Z) (disk : bool)
| OpTree.

Definition perform (self : MembershipService) (o : op) : MembershipService :=
  match o with
  | OpRegister r now disk => (register self r now disk).1
  | OpLeave id now disk => (leave self id now disk).1
  | OpAnnotate a now disk => (update_local_annotations self a now disk).1
  | OpSync rs now disk => (sync_nodes self rs now disk).1
  | OpProbe from m now disk => (on_probe self from m now disk).1
  | OpTick now disk => (tick self now disk).1
  | OpTree => (merkle_tree_snapshot self).1
  end.

Definition perform_all (self : MembershipService) (os : list op) : MembershipService :=
  foldl perform self os.

(** The mutations one operation can make at most. *)
Definition op_cost (self : MembershipService) (o : op) : nat :=
  match o with
  | OpRegister _ _ _ | OpLeave _ _ _ | OpAnnotate _ _ _ | OpProbe _ _ _ _ => 1
  | OpSync rs _ _ => length rs
  | OpTick _ _ =>
      1 + size (pending_pings (swim (svc_state self)))
        + size (members (membership (swim (svc_state self))))
  | OpTree => 0
  end.

Fixpoint run_cost (self : MembershipService) (os : list op) : nat :=
  match os with
  | [] => 0
  | o :: os => op_cost self o + run_cost (perform self o) os
  end.
End service.

(** ** The cached tree

    Every mutation moves the version by at most one, so over fewer than 2^64
    mutations an unmoved version means an unchanged tree. *)

Section counting.
Context `{!HashIter}.

Lemma mutates_version m m' :
  mutates m m' → version m' = version m ∨ version m' = u64_wrap (version m + 1).
Proof.
  intros []; [by right|..];
    unfold heartbeat, suspect, offline, Membership.leave, refute;
    destruct (members _ !! _); simpl; auto; case_bool_decide; simpl; auto.
Qed.

Lemma bsteps_keyed n m m' : bsteps mutates n m m' → keyed m → keyed m'.
Proof. induction 1; eauto using keyed_mutates. Qed.

(** Either nothing hashed changed, or the version moved by between one and
    [n] steps. *)
Lemma bsteps_version n m m' :
  bsteps mutates n m m' → keyed m →
  (version m' = version m ∧ same_hashed m' m) ∨
  ∃ j, 1 ≤ j ≤ Z.of_nat n ∧ version m' = u64_wrap (version m + j).
Proof.
  induction 1 as [|n m m1 m2 Hm Hs IH]; intros Hk; [left; split; [done|intros ?; done]|].
  destruct (IH (keyed_mutates _ _ Hk Hm)) as [[Hv Hh]|(j & Hj & Hv)];
    destruct (mutates_version _ _ Hm) as [Hv1|Hv1].
  - left. split; [congruence|]. intros id. rewrite (Hh id).
    by apply (mutates_same_version m m1).
  - right. exists 1. split; [lia|congruence].
  - right. exists j. split; [lia|congruence].
  - right. exists (j + 1). split; [lia|]. rewrite Hv, Hv1. unfold u64_wrap.
    rewrite Z.add_mod_idemp_l by lia. f_equal. lia.
Qed.

Lemma version_unmoved n m m' :
  bsteps mutates n m m' → keyed m → (Z.of_nat n < 2 ^ 64) → version m' = version m →
  same_hashed m' m.
Proof.
  intros Hs Hk Hn Hv. destruct (bsteps_version n m m' Hs Hk) as [[_ ?]|(j & Hj & Hv')]; [done|].
  exfalso. rewrite Hv in Hv'. unfold u64_wrap in Hv'.
  assert (j mod 2 ^ 64 = 0) as Hm; [|rewrite Z.mod_small in Hm; lia].
  pose proof (Z.div_mod (version m + j) (2 ^ 64) ltac:(lia)) as Hd. rewrite <- Hv' in Hd.
  replace j with ((version m + j) `div` 2 ^ 64 * 2 ^ 64) by lia. by apply Z.mod_mul.
Qed.


(** A bound on the mutations of a fold of steps that make at most one each. *)
Lemma bsteps_fold {X} (f : Swim * list SwimAction → X → Swim * list SwimAction) l s acts :
  (∀ s acts x, bsteps mutates 1 (membership s) (membership (f (s, acts) x).1)) →
  bsteps mutates (length l) (membership s) (membership (foldl f (s, acts) l).1).
Proof.
  intros Hf. revert s acts. induction l as [|x l IH]; intros s acts; cbn [foldl length].
  - apply bsteps_refl.
  - pose proof (Hf s acts x) as H1. destruct (f (s, acts) x) as [s' acts']. cbn [fst] in H1.
    apply (bsteps_trans 1 (length l) _ _ _ H1), IH.
Qed.

Hint Resolve bsteps_refl bsteps_once mutates_register mutates_heartbeat mutates_suspect
  mutates_offline mutates_leave mutates_refute : core.

Lemma message_mutates s from m now :
  bsteps mutates 1 (membership s) (membership (on_message s from m now).1).
Proof.
  destruct m; simpl; auto.
  - unfold handle_ack. by case_match.
  - unfold handle_suspect_state, refute_and_broadcast. repeat case_match; simpl; auto.
  - unfold handle_alive_state, refute_if_dominated, refute_and_broadcast.
    repeat case_match; simpl; auto.
  - unfold handle_leave_state. repeat case_match; simpl; auto.
Qed.

(** The steps of a tick neither add nor remove members. *)
Definition same_members (s s' : Swim) : Prop :=
  dom (members (membership s')) = dom (members (membership s)).

Lemma dom_put m id r r' :
  members m !! id = Some r → dom (members (put m id r')) = dom (members m).
Proof. intros Hr. unfold put. simpl. rewrite dom_insert_lookup_L; [done|by eexists]. Qed.

Lemma expire_ping_step now s acts seq :
  bsteps mutates 1 (membership s) (membership (expire_ping now (s, acts) seq).1) ∧
  same_members s (expire_ping now (s, acts) seq).1.
Proof.
  unfold expire_ping, mark_suspected, same_members.
  destruct (pending_pings s !! seq) as [p|]; [|by auto]. cbv zeta. case_decide; [by auto|].
  cbn [membership set_failures set_pending].
  destruct (suspect (membership s) (target p) now) as [m o] eqn:Es. cbn [fst membership set_membership].
  replace m with (suspect (membership s) (target p) now).1 by (by rewrite Es). split; [auto|].
  unfold suspect. destruct (members (membership s) !! target p) eqn:E; [|done]. cbn [fst].
  case_bool_decide; by eapply dom_put.
Qed.

Lemma expire_suspect_step now s acts id :
  bsteps mutates 1 (membership s) (membership (expire_suspect now (s, acts) id).1).
Proof.
  unfold expire_suspect. destruct (offline (membership s) id now) as [m c] eqn:Eo.
  replace m with (offline (membership s) id now).1 by (by rewrite Eo).
  destruct c; [case_match|]; simpl; auto.
Qed.

Lemma check_timeouts_step s now_u64 now :
  bsteps mutates (size (pending_pings s)) (membership s)
    (membership (check_timeouts s now_u64 now).1) ∧
  same_members s (check_timeouts s now_u64 now).1.
Proof.
  unfold check_timeouts. split.
  - eapply bsteps_weaken; [|apply bsteps_fold; intros; apply expire_ping_step].
    unfold timed_out. rewrite length_fmap. etrans; [apply length_filter|].
    by rewrite hash_iter_perm, length_map_to_list.
  - generalize (timed_out s now_u64) (@nil SwimAction). intros l. revert s.
    induction l as [|x l IH]; intros s acts; cbn [foldl]; [done|].
    pose proof (expire_ping_step now s acts x) as [_ H1].
    destruct (expire_ping now (s, acts) x) as [s' acts']. unfold same_members in *.
    by rewrite IH.
Qed.

Lemma length_suspected_ids s : (length (suspected_ids s) <= size (members (membership s)))%nat.
Proof.
  unfold suspected_ids, active, all, hash_values.
  rewrite length_fmap. etrans; [apply length_filter|]. etrans; [apply length_filter|].
  by rewrite length_fmap, hash_iter_perm, length_map_to_list.
Qed.

Lemma check_suspect_timeouts_step s now :
  keyed (membership s) →
  bsteps mutates (size (members (membership s))) (membership s)
    (membership (check_suspect_timeouts s now).1).
Proof.
  intros Hk. destruct (check_suspect_timeouts_unfold s now Hk) as (since' & -> & _).
  eapply bsteps_weaken; [|apply (bsteps_fold (expire_suspect now) _ (set_suspected_since since' s));
    intros; apply expire_suspect_step].
  unfold expired_ids. etrans; [apply length_filter|apply length_suspected_ids].
Qed.

Lemma tick_mutates s now :
  keyed (membership s) →
  bsteps mutates (1 + size (pending_pings s) + size (members (membership s)))
    (membership s) (membership (Swim.tick s now).1).
Proof.
  intros Hk. unfold Swim.tick. cbv zeta.
  set (s0 := set_membership (heartbeat (membership s) (local_node_id s) now).1 s).
  assert (bsteps mutates 1 (membership s) (membership s0)) as H0 by (simpl; auto).
  assert (dom (members (membership s0)) = dom (members (membership s))) as Hd0.
  { simpl. unfold heartbeat. destruct (members (membership s) !! local_node_id s) eqn:E; [|done].
    cbv zeta. cbn [fst]. case_bool_decide; by eapply dom_put. }
  pose proof (check_timeouts_step s0 (u64_try_from_or_0 now) now) as [H1 Hd1].
  destruct (check_timeouts s0 _ _) as [s1 a1]. cbn [fst] in *.
  pose proof (check_suspect_timeouts_step s1 now) as H2.
  destruct (check_suspect_timeouts s1 now) as [s2 a2]. cbn [fst] in *.
  assert (membership (let '(s', more) := generate_probes s2 (u64_try_from_or_0 now) now in
    (s', (a1 ++ a2) ++ more)).1 = membership s2) as ->.
  { unfold generate_probes. cbv zeta. destruct (foldl _ _ _) as [[c|] g]; [|done].
    unfold send_ping_to. done. }
  change (size (pending_pings s)) with (size (pending_pings s0)).
  assert (keyed (membership s1)) as Hk1 by (eapply bsteps_keyed, bsteps_keyed; eauto).
  specialize (H2 Hk1). unfold same_members in Hd1.
  rewrite <- size_dom, Hd1, Hd0, size_dom in H2.
  eapply bsteps_trans; [|exact H2]. by eapply bsteps_trans.
Qed.

Lemma sync_mutates id now rs s acts :
  bsteps mutates (length rs) (membership s) (membership (foldl (sync_register id now) (s, acts) rs).1).
Proof.
  apply bsteps_fold. intros s' acts' r. unfold sync_register.
  pose proof (message_mutates s' id (Alive (set_updated_at_ms now r)) now) as Hm.
  by destruct (on_message s' id (Alive (set_updated_at_ms now r)) now).
Qed.
End counting.

(** ** The identity of the service *)

Definition membership_of (self : MembershipService) : Membership := membership (swim (svc_state self)).

Lemma persist_frame disk id st :
  swim (persist_local_incarnation disk id st) = swim st ∧
  cached_tree (persist_local_incarnation disk id st) = cached_tree st.
Proof. unfold persist_local_incarnation. repeat case_match; done. Qed.

Section operations.
Context `{!HashIter} `{!MerkleShape} (blake3 : string → Hash).
Implicit Types (self : MembershipService) (o : op).

(** The SWIM state an operation leaves, without the bookkeeping around it. *)
Definition swim_after (self : MembershipService) (o : op) : Swim :=
  let s := swim (svc_state self) in
  match o with
  | OpRegister r now _ => (on_message s (svc_node_id self) (Alive (set_updated_at_ms now r)) now).1
  | OpLeave id now _ =>
      let inc := match get (membership s) id with Some r => incarnation r | None => 1 end in
      if decide (id = svc_node_id self) then
        set_membership (Membership.leave (membership s) id now).1 s
      else (on_message s (svc_node_id self) (Leave id inc) now).1
  | OpAnnotate a now _ =>
      match get (membership s) (svc_node_id self) with
      | None => s
      | Some current =>
          let annotations' := replaced_annotations (annotations current) a in
          if decide (annotations' = annotations current) then s
          else set_membership (merge_register (membership s)
                 (bump_heartbeat now (set_annotations annotations' current))) s
      end
  | OpSync rs now _ => (foldl (sync_register (svc_node_id self) now) (s, []) rs).1
  | OpProbe from m now _ => (on_message s from m now).1
  | OpTick now _ => (Swim.tick s now).1
  | OpTree => s
  end.

(** Whether the persist hook runs, and whether the table accepts the write. *)
Definition hook (self : MembershipService) (o : op) : option bool :=
  match o with
  | OpRegister _ _ disk | OpLeave _ _ disk | OpSync _ _ disk | OpProbe _ _ _ disk | OpTick _ disk =>
      Some disk
  | OpAnnotate a _ disk =>
      match get (membership_of self) (svc_node_id self) with
      | None => None
      | Some current =>
          if decide (replaced_annotations (annotations current) a = annotations current) then None
          else Some disk
      end
  | OpTree => None
  end.

Lemma perform_swim self o : swim (svc_state (perform blake3 self o)) = swim_after self o.
Proof.
  destruct o; simpl; unfold register, leave, update_local_annotations, sync_nodes, on_probe, tick,
    merkle_tree_snapshot, merkle_tree; cbv zeta; repeat case_match; simplify_eq/=;
    rewrite ?(proj1 (persist_frame _ _ _)); simpl;
    try match goal with E : _ = (_, _) |- _ => rewrite E end; done.
Qed.

Lemma perform_id self o : svc_node_id (perform blake3 self o) = svc_node_id self.
Proof.
  destruct o; simpl; unfold register, leave, update_local_annotations, sync_nodes, on_probe, tick,
    merkle_tree_snapshot, merkle_tree; cbv zeta; repeat case_match; simplify_eq/=; done.
Qed.

Lemma perform_cached self o :
  o ≠ OpTree → cached_tree (svc_state (perform blake3 self o)) = cached_tree (svc_state self).
Proof.
  intros Ho. destruct o; simpl; unfold register, leave, update_local_annotations, sync_nodes,
    on_probe, tick; cbv zeta; repeat case_match; simplify_eq/=;
    rewrite ?(proj2 (persist_frame _ _ _)); done.
Qed.

(** An operation makes no more mutations than its cost. *)
Lemma perform_mutates self o :
  keyed (membership_of self) →
  bsteps mutates (op_cost self o) (membership_of self) (membership_of (perform blake3 self o)).
Proof.
  unfold membership_of at 3. rewrite perform_swim. unfold membership_of. intros Hk.
  destruct o; cbn [op_cost swim_after]; cbv zeta; auto using message_mutates, tick_mutates, bsteps_refl.
  - case_decide; [|apply message_mutates]. apply bsteps_once, mutates_leave.
  - repeat case_match; try apply bsteps_refl. apply bsteps_once, mutates_register.
  - apply sync_mutates.
Qed.

(** The cached tree was built for a membership fewer than [n] mutations ago. *)
Definition cache_ok (n : nat) (self : MembershipService) : Prop :=
  ∃ m, keyed m ∧ bsteps mutates n m (membership_of self) ∧
    cached_tree (svc_state self) = (version m, from_membership blake3 m).

Lemma cache_ok_keyed n self : cache_ok n self → keyed (membership_of self).
Proof. intros (m & Hk & Hs & _). by eapply bsteps_keyed. Qed.

Lemma merkle_tree_current n self :
  cache_ok n self → (Z.of_nat n < 2 ^ 64) →
  (merkle_tree blake3 (svc_state self)).2 = from_membership blake3 (membership_of self) ∧
  cache_ok n (merkle_tree_snapshot blake3 self).1.
Proof.
  intros (m & Hk & Hs & Hc) Hn. pose proof (bsteps_keyed _ _ _ Hs Hk) as Hk'.
  unfold merkle_tree_snapshot, merkle_tree. cbv zeta. rewrite Hc. cbn [fst snd].
  fold (membership_of self). case_decide as Hv.
  - split; [done|]. exists (membership_of self). split_and!; [done|apply bsteps_refl|done].
  - rewrite Hc. split; [|by exists m].
    symmetry. apply from_membership_same; [done..|]. by apply (version_unmoved n).
Qed.

Lemma perform_all_cache n self os :
  cache_ok n self → (Z.of_nat (n + run_cost blake3 self os) < 2 ^ 64) →
  cache_ok (n + run_cost blake3 self os) (perform_all blake3 self os).
Proof.
  revert n self. induction os as [|o os IH]; intros n self Hc Hn; cbn [run_cost].
  - by rewrite Nat.add_0_r.
  - change (perform_all blake3 self (o :: os)) with (perform_all blake3 (perform blake3 self o) os).
    cbn [run_cost] in Hn.
    assert (cache_ok (n + op_cost self o) (perform blake3 self o)) as Hc';
      [|rewrite Nat.add_assoc; apply IH; [exact Hc'|lia]].
    assert (o = OpTree ∨ o ≠ OpTree) as [->|Ho] by (destruct o; auto).
    + cbn [op_cost]. rewrite Nat.add_0_r.
      apply (merkle_tree_current n self Hc). lia.
    + pose proof (cache_ok_keyed _ _ Hc) as Hkn. destruct Hc as (m & Hk & Hs & He). exists m. split_and!; [done| |by rewrite perform_cached].
      eapply bsteps_trans; [exact Hs|]. by apply perform_mutates.
Qed.

Lemma cache_ok_new id cfg local : cache_ok 0 (new blake3 id cfg local).
Proof.
  exists (merge_register Membership.new local).
  split_and!; [apply keyed_merge_register, keyed_new|apply bsteps_refl|done].
Qed.
End operations.

(** C29: the cached Merkle tree is never stale: whatever the service is asked
    to do, the tree it then answers with (rebuilt only when the mutation
    counter moved) is the tree of the membership it holds at that moment, as
    long as the run makes fewer than 2^64 mutations, after which the counter
    could wrap around to the value the cache remembers. *)
Theorem cached_tree_current `{!HashIter, !MerkleShape} blake3 id cfg local os :
  Z.of_nat (run_cost blake3 (new blake3 id cfg local) os) < 2 ^ 64 →
  let self := perform_all blake3 (new blake3 id cfg local) os in
  (merkle_tree blake3 (svc_state self)).2 = from_membership blake3 (membership_of self).
Proof.
  intros Hn self. subst self.
  apply (merkle_tree_current blake3 (run_cost blake3 (new blake3 id cfg local) os)); [|done].
  apply (perform_all_cache blake3 0); [apply cache_ok_new|done].
Qed.
(** ** Incarnations across restarts *)

Definition wf_op (o : op) : Prop :=
  match o with
  | OpRegister r now _ => wf_register r ∧ is_i64 now
  | OpLeave _ now _ | OpAnnotate _ now _ | OpTick now _ => is_i64 now
  | OpSync rs now _ => Forall wf_register rs ∧ is_i64 now
  | OpProbe _ m now _ => wf_message m ∧ is_i64 now
  | OpTree => True
  end.

Record service_inv (self : MembershipService) : Prop := {
  svc_swim : swim_inv (swim (svc_state self));
  svc_id : local_node_id (swim (svc_state self)) = svc_node_id self;
}.

Lemma wf_stamped now r : wf_register r → is_i64 now → wf_register (set_updated_at_ms now r).
Proof. intros (? & ? & _) ?. by split. Qed.

Lemma evolves_leave s now :
  swim_inv s → is_i64 now →
  evolves s (set_membership (Membership.leave (membership s) (local_node_id s) now).1 s).
Proof.
  intros Hinv Hn. pose proof Hinv as [? Hk Hw (l & Hl & Hs) ? ? ?].
  destruct (keyed_ops _ (local_node_id s) now Hk) as (?&?&?&?&?).
  destruct (wf_ops _ (local_node_id s) now Hw Hn) as (?&?&?&?&?).
  pose proof (Hw _ _ Hl) as (_ & Hh & _).
  apply evolves_membership; auto; unfold Membership.leave, get in *; rewrite Hl; cbn [fst].
  - apply advances_bump, (advances_put _ _ l); [done|]. apply key_le_iff. simpl.
    destruct Hs as [Hs|Hs]; rewrite Hs; [right; left; simpl; lia|right; right].
    split_and!; [done|done|by apply u64_saturating_add_ge].
  - exists (Register.leave now l). split; [apply lookup_insert_eq|by right].
Qed.

(** The register [update_local_annotations] merges has the local node's id,
    state and incarnation. *)
Lemma annotated_facts now a (l : MemberRegister) :
  state l = Active ∨ state l = Leaving →
  let u := bump_heartbeat now (Register.set_annotations a l) in
  node_id u = node_id l ∧ state u = state l ∧ incarnation u = incarnation l ∧
  Register.heartbeat u = u64_saturating_add (Register.heartbeat l) 1 ∧ annotations u = a.
Proof. intros Hs. destruct l as [? ? []]; by destruct Hs. Qed.

Lemma merge_state a b : state a = state b → state (Register.merge a b) = state a.
Proof. intros Hs. unfold Register.merge. by repeat case_match. Qed.

Lemma evolves_annotate s now a l :
  swim_inv s → is_i64 now → get (membership s) (local_node_id s) = Some l →
  evolves s (set_membership (merge_register (membership s)
    (bump_heartbeat now (Register.set_annotations a l))) s).
Proof.
  intros Hinv Hn Hl. pose proof Hinv as [? Hk Hw (l' & Hl' & Hs) ? ? ?].
  assert (l' = l) as -> by congruence. pose proof (Hk _ _ Hl) as Hid.
  destruct (annotated_facts now a l Hs) as (Hu & Hus & _).
  assert (wf_register (bump_heartbeat now (Register.set_annotations a l))) as Hwu.
  { apply wf_transitions; [|done]. exact (Hw _ _ Hl). }
  apply evolves_membership; auto using keyed_merge_register, wf_merge_register, advances_merge_register.
  eexists. rewrite merge_register_lookup, Hl, decide_True by congruence.
  split; [done|]. simpl. by rewrite merge_state.
Qed.

Section restarts.
Context `{!HashIter} `{!MerkleShape} (blake3 : string → Hash).
Implicit Types (self : MembershipService) (o : op) (i : BootInput).

Lemma evolves_swim_after self o :
  service_inv self → wf_op o → evolves (swim (svc_state self)) (swim_after self o).
Proof.
  intros [Hinv Hid] Ho. destruct o as [r now d|id now d|a now d|rs now d|from m now d|now d|];
    cbn [swim_after]; cbv zeta.
  - destruct Ho. apply evolves_message; [done|by apply wf_stamped|done].
  - case_decide as Hloc; [subst id; rewrite <- Hid; by apply evolves_leave|].
    apply evolves_message; [done| |done]. simpl.
    destruct (get _ id) as [r|] eqn:Hr; [|unfold is_u64, u64_max; lia].
    by apply (inv_wf _ Hinv id r).
  - rewrite <- Hid. destruct (get _ _) as [l|] eqn:Hl; [|by apply evolves_refl].
    case_decide; [by apply evolves_refl|]. by apply evolves_annotate.
  - destruct Ho as [Hrs Hn]. apply evolves_fold; [|done].
    intros s' acts r Hr He. unfold sync_register.
    pose proof (evolves_message s' (svc_node_id self) (Alive (set_updated_at_ms now r)) now
      (ev_inv _ _ He)) as Hm.
    destruct (on_message s' _ _ now). apply Hm; [|done]. apply wf_stamped; [|done].
    by apply (proj1 (Forall_forall _ _) Hrs).
  - destruct Ho. by apply evolves_message.
  - by apply evolves_tick.
  - by apply evolves_refl.
Qed.

Lemma service_inv_perform self o :
  service_inv self → wf_op o → service_inv (perform blake3 self o).
Proof.
  intros Hinv Ho. pose proof (evolves_swim_after self o Hinv Ho) as [Hid _ _ Hi].
  split; rewrite perform_swim; [done|]. rewrite Hid, perform_id. apply Hinv.
Qed.

(** The table holds the incarnation the service believes it wrote. *)
Definition durable self : Prop :=
  ∃ m, meta (svc_state self) = Some m ∧
    m !! LOCAL_INCARNATION_KEY = Some (u64_to_string (persisted_incarnation (svc_state self))).

(** The incarnation last written is the current one. *)
Definition synced self : Prop :=
  ∃ r, get (membership_of self) (svc_node_id self) = Some r ∧
    persisted_incarnation (svc_state self) = incarnation r.

Lemma perform_state self o :
  let st := svc_state self in
  let st' := set_swim (swim_after self o) st in
  svc_state (perform blake3 self o) =
    match hook self o with
    | Some disk => persist_local_incarnation disk (svc_node_id self) st'
    | None => match o with OpTree => (merkle_tree blake3 st).1 | _ => st end
    end.
Proof.
  destruct o; simpl; unfold register, leave, update_local_annotations, sync_nodes, on_probe, tick,
    merkle_tree_snapshot, membership_of; cbv zeta; repeat case_match; simplify_eq/=;
    try match goal with E : _ = (_, _) |- _ => rewrite E end; done.
Qed.

Lemma durable_persist disk id st nid :
  durable (mkService nid st) → durable (mkService nid (persist_local_incarnation disk id st)).
Proof.
  intros (m & Hm & Hk). unfold persist_local_incarnation. simpl in *. rewrite Hm.
  repeat case_match; try (exists m; done). eexists. simpl. split; [done|]. apply lookup_insert_eq.
Qed.

Lemma synced_persist id st r :
  meta st ≠ None → get (membership (swim st)) id = Some r →
  persisted_incarnation (persist_local_incarnation true id st) = incarnation r.
Proof. intros Hm Hr. unfold persist_local_incarnation. rewrite Hr. by repeat case_match. Qed.

Lemma durable_perform self o : durable self → durable (perform blake3 self o).
Proof.
  intros Hd. unfold durable. rewrite perform_state.
  destruct (hook self o) as [disk|].
  - by apply (durable_persist disk (svc_node_id self)
      (set_swim (swim_after self o) (svc_state self)) (svc_node_id self)).
  - destruct o; try exact Hd. unfold merkle_tree. by case_decide.
Qed.

Lemma synced_perform self o :
  durable self → service_inv self → wf_op o → hook self o = Some true →
  synced (perform blake3 self o).
Proof.
  intros (m & Hm & _) Hinv Ho Hh.
  pose proof (service_inv_perform self o Hinv Ho) as [Hi Hid].
  pose proof (inv_local _ Hi) as (r & Hr & _). rewrite Hid in Hr. exists r. split; [done|].
  rewrite perform_swim in Hr. rewrite perform_id in Hr.
  rewrite perform_state, Hh. apply synced_persist; simpl; [by rewrite Hm|done].
Qed.

Lemma perform_all_invariant self os :
  durable self → service_inv self → Forall wf_op os →
  durable (perform_all blake3 self os) ∧ service_inv (perform_all blake3 self os).
Proof.
  intros Hd Hi Hos. revert self Hd Hi. induction Hos as [|o os Ho Hos IH]; intros self Hd Hi; [done|].
  apply IH; [by apply durable_perform|by apply service_inv_perform].
Qed.

Definition wf_boot (i : BootInput) : Prop := is_i64 (boot_now i).

Lemma persisted_counter_range readable m key v :
  persisted_counter readable m key = Some v → is_u64 v.
Proof.
  unfold persisted_counter. destruct readable; [|done]. intros (raw & _ & Hp)%bind_Some.
  by eapply u64_parse_range.
Qed.

Lemma boot_register_facts i m :
  wf_boot i → wf_register (boot_register i m) ∧ node_id (boot_register i m) = boot_node_id i ∧
  state (boot_register i m) = Active ∧
  incarnation (boot_register i m)
  = u64_saturating_add (default 0 (persisted_counter (boot_readable i) m LOCAL_INCARNATION_KEY)) 1.
Proof.
  intros Hn. unfold boot_register. cbv zeta. split_and!; [|done..].
  assert (is_u64 (default 0 (persisted_counter (boot_readable i) m LOCAL_INCARNATION_KEY))) as Hu.
  { destruct (persisted_counter _ _ _) as [v|] eqn:E; simpl; [by eapply persisted_counter_range|].
    unfold is_u64, u64_max. lia. }
  split_and!; simpl; [by apply u64_saturating_add_range|unfold is_u64, u64_max; lia|done].
Qed.

Lemma boot_invariant i m :
  wf_boot i → boot_writable i = true →
  durable (boot blake3 i m) ∧ service_inv (boot blake3 i m).
Proof.
  intros Hi Hw. destruct (boot_register_facts i m Hi) as (Hwf & Hid & Hs & _).
  unfold boot, durable. rewrite Hw. split.
  - eexists. split; [done|]. simpl. rewrite lookup_insert_eq. unfold get. simpl.
    by rewrite lookup_insert_eq.
  - split; [|done]. apply swim_inv_new; [apply wf_default_config|done..].
Qed.
End restarts.

Section flushing.
Context `{!HashIter} `{!MerkleShape} (blake3 : string → Hash).
Implicit Types (self : MembershipService) (o : op) (i : BootInput).

(** Whether the table accepted the write the last time the persist hook ran. *)
Fixpoint flushed (self : MembershipService) (os : list op) (last : bool) : bool :=
  match os with
  | [] => last
  | o :: os => flushed (perform blake3 self o) os (default last (hook self o))
  end.

Lemma synced_no_hook self o : hook self o = None → synced self → synced (perform blake3 self o).
Proof.
  intros Hh (r & Hr & Hp). exists r. unfold membership_of in *.
  rewrite perform_swim, perform_id, perform_state, Hh. destruct o; simplify_eq/=.
  - unfold membership_of in Hh. repeat case_match; simplify_eq/=; done.
  - unfold merkle_tree. by case_decide.
Qed.

Lemma flushed_synced self os last :
  durable self → service_inv self → Forall wf_op os → (last = true → synced self) →
  flushed self os last = true → synced (perform_all blake3 self os).
Proof.
  intros Hd Hi Hos. revert self last Hd Hi. induction Hos as [|o os Ho Hos IH];
    intros self last Hd Hi Hs Hf; [by apply Hs|]. cbn [flushed] in Hf.
  apply (IH (perform blake3 self o) (default last (hook self o)));
    [by apply durable_perform|by apply service_inv_perform| |done].
  destruct (hook self o) as [d|] eqn:Hh; simpl; [intros ->; by apply synced_perform|].
  intros Hl. by apply synced_no_hook, Hs.
Qed.

Lemma boot_synced i m : wf_boot i → synced (boot blake3 i m).
Proof.
  intros Hi. destruct (boot_register_facts i m Hi) as (Hwf & Hid & Hs & _).
  exists (boot_register i m). unfold boot, membership_of. split.
  - unfold get. simpl. by rewrite lookup_insert_eq.
  - simpl. unfold get. simpl. case_match; rewrite lookup_insert_eq in *; by simplify_eq.
Qed.
End flushing.

(** C30: restarts never rewind the incarnation. Whatever a booted service went
    through, table writes that failed included, if the last write of the
    persist hook was accepted then the register of the next boot is active
    with the incarnation after the one the crashed node had, and it overrides
    every rumor of that incarnation or an earlier one, an offline verdict or
    a leave included. *)
Theorem restart_refutes `{!HashIter, !MerkleShape} blake3 i m os i' :
  wf_boot i → boot_writable i = true → Forall wf_op os →
  flushed blake3 (boot blake3 i m) os true = true →
  wf_boot i' → boot_readable i' = true →
  let self := perform_all blake3 (boot blake3 i m) os in
  ∃ table crashed, meta (svc_state self) = Some table ∧
    get (membership_of self) (svc_node_id self) = Some crashed ∧
    state (boot_register i' table) = Active ∧
    (incarnation crashed < u64_max →
     incarnation (boot_register i' table) = incarnation crashed + 1 ∧
     ∀ rumor, incarnation rumor ≤ incarnation crashed →
       dominates (boot_register i' table) rumor = true).
Proof.
  intros Hi Hw Hos Hf Hi' Hr self. destruct (boot_invariant blake3 i m Hi Hw) as [Hd Hv].
  destruct (perform_all_invariant blake3 _ os Hd Hv Hos) as [(table & Hm & Hk) Hv'].
  destruct (flushed_synced blake3 _ os true Hd Hv Hos (λ _, boot_synced blake3 i m Hi) Hf)
    as (crashed & Hc & Hp).
  subst self. exists table, crashed.
  destruct (boot_register_facts i' table Hi') as (_ & _ & Hs & Hinc). split; [done|]. split; [done|]. split; [done|].
  intros Hlt. assert (is_u64 (incarnation crashed)) as Hu.
  { unfold membership_of in Hc. by apply (inv_wf _ (svc_swim _ Hv') _ _ Hc). }
  assert (persisted_counter true table LOCAL_INCARNATION_KEY = Some (incarnation crashed)) as Hq.
  { unfold persisted_counter. rewrite Hk, Hp. simpl. by apply u64_parse_to_string. }
  rewrite Hr, Hq in Hinc. cbn [default from_option] in Hinc. unfold id in Hinc.
  rewrite (u64_saturating_add_succ (incarnation crashed)) in Hinc by done. split; [done|].
  intros rumor Hle. apply order_lt_incarnation. lia.
Qed.

(** The extension announcer and the rest of the annotations. *)
Lemma replaced_annotations_lookup current ext k :
  replaced_annotations current ext !! k
  = if starts_with k EXTENSION_ANNOTATION_PREFIX then ext !! k else current !! k.
Proof.
  unfold replaced_annotations, extension_owned. rewrite lookup_union, !map_lookup_filter.
  simpl. destruct (starts_with k EXTENSION_ANNOTATION_PREFIX) eqn:E, (ext !! k), (current !! k); simpl;
    repeat (case_guard; simplify_eq/=); done.
Qed.

(** Announcing extensions replaces exactly the annotations under the
    [ext.] prefix of the local register: afterwards such a key has the value
    announced, or none, and every other key the value it had; no other member
    changes. The register broadcast is the one stored, and it overrides the
    previous one; when nothing differs, nothing is written nor broadcast. *)
Theorem annotations_replaced `{!HashIter, !MerkleShape} self ext now disk current :
  service_inv self → is_i64 now →
  get (membership_of self) (svc_node_id self) = Some current →
  Register.heartbeat current < u64_max →
  let '(self', actions) := update_local_annotations self ext now disk in
  ∃ updated, get (membership_of self') (svc_node_id self) = Some updated ∧
    (∀ k, annotations updated !! k
      = if starts_with k EXTENSION_ANNOTATION_PREFIX then ext !! k else annotations current !! k) ∧
    (∀ id, id ≠ svc_node_id self → get (membership_of self') id = get (membership_of self) id) ∧
    (annotations updated ≠ annotations current ∧ actions = [Broadcast (Alive updated)] ∧
       dominates updated current = true ∨
     annotations updated = annotations current ∧ actions = [] ∧ self' = self).
Proof.
  intros [Hinv Hid] Hn Hc Hh. unfold update_local_annotations. cbv zeta.
  unfold membership_of in Hc. rewrite Hc.
  pose proof (replaced_annotations_lookup (annotations current) ext) as Hl.
  case_decide as Heq.
  { exists current. rewrite Heq in Hl. split_and!; [done|done|done|]. by right. }
  pose proof (inv_wf _ Hinv _ _ Hc) as (_ & Hhb & _).
  destruct (inv_local _ Hinv) as (l & Hl' & Hs). rewrite Hid in Hl'.
  assert (l = current) as -> by congruence.
  destruct (annotated_facts now (replaced_annotations (annotations current) ext) current Hs)
    as (Hu1 & Hu2 & Hu3 & Hu4 & Hu5).
  set (u := bump_heartbeat _ _) in *. pose proof (inv_keyed _ Hinv _ _ Hc) as Hcid.
  assert (dominates u current = true) as Hd.
  { apply dominates_iff. right; right. rewrite Hu4, u64_saturating_add_succ by done.
    split_and!; [done|done|lia]. }
  assert (∀ id, get (merge_register (membership (swim (svc_state self))) u) id
    = if decide (id = svc_node_id self) then Some u else get (membership_of self) id) as Hget.
  { intros id. rewrite merge_register_lookup, Hu1, Hcid. fold (membership_of self).
    destruct (decide (svc_node_id self = id)) as [<-|Hne].
    - unfold membership_of. rewrite decide_True, Hc by done. simpl. f_equal. by apply merge_gt.
    - rewrite decide_False by congruence. by destruct (get (membership_of self) id). }
  exists u. unfold membership_of at 1 2, set_state. cbn [svc_state].
  rewrite (proj1 (persist_frame _ _ _)). cbn [swim set_swim membership set_membership].
  rewrite Hget, decide_True, Hu5 by done. split; [done|]. split; [done|]. split; [|by left].
  intros id Hne. by rewrite Hget, decide_False.
Qed.


(** ** A concrete node *)

Definition toy_boot (now : Z) : BootInput :=
  mkBoot "me" "127.0.0.1:9" {["zone" := "a"]} {["team" := "core"; "ext.old" := "1"]} now true true.

(** A rumor is refuted while the disk rejects writes; the next tick, once it
    accepts them again, records the incarnation. *)
Definition toy_ops : list op :=
  [OpRegister wit_a 1000 true; OpProbe "a" (Suspect "me" 1) 1500 false; OpTree;
   OpAnnotate {["ext.new" := "2"]} 2000 false; OpTick 2500 true; OpLeave "a" 3000 true].

Lemma toy_boot_wf now : is_i64 now → wf_boot (toy_boot now).
Proof. done. Qed.

Lemma toy_ops_wf : Forall wf_op toy_ops.
Proof.
  unfold toy_ops. repeat constructor; simpl;
    unfold wf_register, is_u64, is_i64, u64_max, i64_min, i64_max; simpl; lia.
Qed.

Lemma cached_tree_current_witness :
  let i := gmap_hash_iter in let h := small_shape in
  let self := perform_all toy_blake3 (new toy_blake3 "me" default_config wit_local) toy_ops in
  Z.of_nat (run_cost toy_blake3 (new toy_blake3 "me" default_config wit_local) toy_ops) < 2 ^ 64 ∧
  (merkle_tree toy_blake3 (svc_state self)).2 = from_membership toy_blake3 (membership_of self).
Proof.
  intros i h self. assert (Z.of_nat (run_cost toy_blake3
    (new toy_blake3 "me" default_config wit_local) toy_ops) < 2 ^ 64) as Hn by (vm_compute; reflexivity).
  split; [exact Hn|]. apply (cached_tree_current toy_blake3 "me" default_config wit_local toy_ops Hn).
Defined.

Lemma restart_refutes_witness :
  let i := gmap_hash_iter in let h := small_shape in
  let self := perform_all toy_blake3 (boot toy_blake3 (toy_boot 0) ∅) toy_ops in
  ∃ table crashed, meta (svc_state self) = Some table ∧
    get (membership_of self) (svc_node_id self) = Some crashed ∧
    state (boot_register (toy_boot 9000) table) = Active ∧
    (incarnation crashed < u64_max →
     incarnation (boot_register (toy_boot 9000) table) = incarnation crashed + 1 ∧
     ∀ rumor, incarnation rumor ≤ incarnation crashed →
       dominates (boot_register (toy_boot 9000) table) rumor = true).
Proof.
  intros i h self. apply (restart_refutes toy_blake3 (toy_boot 0) ∅ toy_ops (toy_boot 9000)).
  - apply toy_boot_wf. unfold is_i64, i64_min, i64_max. lia.
  - reflexivity.
  - exact toy_ops_wf.
  - vm_compute. reflexivity.
  - apply toy_boot_wf. unfold is_i64, i64_min, i64_max. lia.
  - reflexivity.
Defined.

Lemma annotations_replaced_witness :
  let i := gmap_hash_iter in let h := small_shape in
  let self := boot toy_blake3 (toy_boot 0) ∅ in
  let '(self', actions) := update_local_annotations self {["ext.new" := "2"]} 100 true in
  ∃ updated, get (membership_of self') (svc_node_id self) = Some updated ∧
    (∀ k, annotations updated !! k
      = if starts_with k EXTENSION_ANNOTATION_PREFIX then ({["ext.new" := "2"]} : gmap string string) !! k
        else annotations (boot_register (toy_boot 0) ∅) !! k) ∧
    (∀ id, id ≠ svc_node_id self → get (membership_of self') id = get (membership_of self) id) ∧
    (annotations updated ≠ annotations (boot_register (toy_boot 0) ∅) ∧
       actions = [Broadcast (Alive updated)] ∧
       dominates updated (boot_register (toy_boot 0) ∅) = true ∨
     annotations updated = annotations (boot_register (toy_boot 0) ∅) ∧ actions = [] ∧ self' = self).
Proof.
  intros i h self.
  apply (annotations_replaced self {["ext.new" := "2"]} 100 true (boot_register (toy_boot 0) ∅)).
  - apply boot_invariant; [|reflexivity]. apply toy_boot_wf. unfold is_i64, i64_min, i64_max. lia.
  - unfold is_i64, i64_min, i64_max. lia.
  - vm_compute. reflexivity.
  - vm_compute. reflexivity.
Defined.
