(* ===== verification/Versioned.v ===== *)
(** * Versioned records ([crates/storage/src/versioned.rs], [resource_id.rs], [crates/core/src/resource_scope.rs])

    The rule by which a replicated resource overwrites the copy a node already
    has, the verification of its content, and the ids accepted as file names;
    with what the rule guarantees of any store it drives. *)

From Stdlib Require Import Ascii.
From S2P Require Import Prelude.

#[local] Open Scope char_scope.
#[local] Open Scope string_scope.
#[local] Open Scope Z_scope.

(** ** Scopes *)

Inductive ResourceScope : Type := NodeLocal | ClusterShared.
#[export] Instance scope_eq_dec : EqDecision ResourceScope.
Proof. solve_decision. Defined.

#[export] Program Instance scope_countable : Countable ResourceScope :=
  inj_countable' (λ s, bool_decide (s = NodeLocal)) (λ b : bool, if b then NodeLocal else ClusterShared) _.
Next Obligation. by intros []. Qed.

Definition as_str (s : ResourceScope) : string :=
  match s with NodeLocal => "local" | ClusterShared => "shared" end.

Definition from_str (raw : string) : result ResourceScope string :=
  if decide (raw = "local") then Ok NodeLocal
  else if decide (raw = "shared") then Ok ClusterShared
  else Err raw.

Lemma scope_from_as_str s : from_str (as_str s) = Ok s.
Proof. by destruct s. Qed.

(** ** The conflict rule *)

(** The trait [VersionedRecord]. *)
Class VersionedRecord (R : Type) := {
  version : R → Z;
  updated_at_ms : R → Z;
  content_hash : R → string;
  scope : R → ResourceScope;
}.

(** [ContentHashMismatch] *)
Inductive ContentHashMismatch : Type := HashMismatch.

Definition verify_content_hash (actual_hash expected_hash : string) : result unit ContentHashMismatch :=
  if decide (actual_hash ≠ expected_hash) then Err HashMismatch else Ok tt.

Lemma verify_content_hash_Ok a e : verify_content_hash a e = Ok tt ↔ a = e.
Proof. unfold verify_content_hash. case_decide; naive_solver. Qed.

Definition should_apply_versioned `{VersionedRecord R} (local : option R) (remote : R) : bool :=
  if decide (scope remote ≠ ClusterShared) then false
  else
    match local with
    | None => true
    | Some local =>
        if decide (scope local = NodeLocal) then false
        else if decide (version remote ≠ version local)
        then bool_decide (version local < version remote)
        else if decide (updated_at_ms remote ≠ updated_at_ms local)
        then bool_decide (updated_at_ms local < updated_at_ms remote)
        else ord_gtb (content_hash remote) (content_hash local)
    end.

(** ** Ids that name files *)

Definition is_ascii_alphanumeric (c : Ascii.ascii) : bool :=
  let n := Z.of_N (Ascii.N_of_ascii c) in
  bool_decide (48 ≤ n ≤ 57 ∨ 65 ≤ n ≤ 90 ∨ 97 ≤ n ≤ 122).

Definition id_char (c : Ascii.ascii) : bool :=
  is_ascii_alphanumeric c || bool_decide (c = "-"%char ∨ c = "_"%char ∨ c = "."%char).

Fixpoint contains_dots (s : string) : bool :=
  match s with
  | EmptyString => false
  | String c s' =>
      match s' with
      | String c' _ => bool_decide (c = "."%char ∧ c' = "."%char) || contains_dots s'
      | EmptyString => false
      end
  end.

Fixpoint all_chars (p : Ascii.ascii → bool) (s : string) : bool :=
  match s with EmptyString => true | String c s' => p c && all_chars p s' end.

Inductive InvalidResourceId : Type := Invalid (id : string).

Definition validate (id : string) : result unit InvalidResourceId :=
  let starts_with_dot := match id with String c _ => bool_decide (c = "."%char) | EmptyString => false end in
  let valid := bool_decide (id ≠ EmptyString) && negb starts_with_dot && negb (contains_dots id)
                 && all_chars id_char id in
  if valid then Ok tt else Err (Invalid id).

(** ** The order behind the rule

    Between shared records the rule is a comparison of keys. *)

Section order.
Context `{VersionedRecord R}.
Implicit Types r : R.

Definition key r : Z * (Z * string) := (version r, (updated_at_ms r, content_hash r)).

Lemma should_apply_shared l r :
  scope l = ClusterShared → scope r = ClusterShared →
  should_apply_versioned (Some l) r = ord_gtb (key r) (key l).
Proof.
  intros Hl Hr. unfold should_apply_versioned. rewrite decide_False by (rewrite Hr; tauto).
  rewrite decide_False by (rewrite Hl; done). unfold key, ord_gtb. do 2 (cbn; unfold prod_cmp). cbn.
  destruct (Z.compare_spec (version r) (version l)) as [He|He|He].
  - rewrite decide_False by (intros Hn; by apply Hn).
    destruct (Z.compare_spec (updated_at_ms r) (updated_at_ms l)) as [He'|He'|He'].
    + rewrite decide_False by (intros Hn; by apply Hn). done.
    + rewrite decide_True by lia. by rewrite bool_decide_eq_false_2 by lia.
    + rewrite decide_True by lia. by rewrite bool_decide_eq_true_2 by lia.
  - rewrite decide_True by lia. by rewrite bool_decide_eq_false_2 by lia.
  - rewrite decide_True by lia. by rewrite bool_decide_eq_true_2 by lia.
Qed.

Lemma should_apply_local l r : scope l = NodeLocal → should_apply_versioned (Some l) r = false.
Proof. intros Hl. unfold should_apply_versioned. case_decide; [done|]. by rewrite decide_True. Qed.

Lemma should_apply_true l r :
  should_apply_versioned l r = true →
  scope r = ClusterShared ∧ ∀ l', l = Some l' → scope l' = ClusterShared ∧ ord_lt (key l') (key r).
Proof.
  intros Ht. assert (scope r = ClusterShared) as Hr.
  { unfold should_apply_versioned in Ht. case_decide as Hs; [done|]. by destruct (scope r). }
  split; [done|]. intros l' ->. destruct (scope l') eqn:Hl.
  - by rewrite should_apply_local in Ht.
  - split; [done|]. rewrite should_apply_shared in Ht by done. by apply ord_gtb_spec.
Qed.

Lemma should_apply_false l r :
  scope r = ClusterShared → should_apply_versioned l r = false →
  ∃ l', l = Some l' ∧ (scope l' = NodeLocal ∨ ord_le (key r) (key l')).
Proof.
  intros Hr Hf. destruct l as [l|]; [|unfold should_apply_versioned in Hf; by rewrite Hr in Hf].
  exists l. split; [done|]. destruct (scope l) eqn:Hl; [by left|right].
  rewrite should_apply_shared in Hf by done. by apply ord_gtb_false.
Qed.

Lemma should_apply_again r : should_apply_versioned (Some r) r = false.
Proof.
  destruct (should_apply_versioned (Some r) r) eqn:E; [|done].
  apply should_apply_true in E as [_ E]. destruct (E r eq_refl) as [_ E']. by destruct (irreflexivity ord_lt (key r)).
Qed.

(** ** A store driven by the rule *)

Context (rid : R → string).
Implicit Types m : gmap string R.

(** What one slot holds after [r] arrives. *)
Definition better (o : option R) (r : R) : option R :=
  if should_apply_versioned o r then Some r else o.

Definition absorb (m : gmap string R) (r : R) : gmap string R :=
  if should_apply_versioned (m !! rid r) r then <[rid r := r]> m else m.

Definition absorb_all : gmap string R → list R → gmap string R := foldl absorb.

(** No two different records of the list compare equal. *)
Definition distinguished (rs : list R) : Prop :=
  ∀ r r', r ∈ rs → r' ∈ rs → rid r = rid r' → key r = key r' → r = r'.

Lemma absorb_lookup m r i :
  absorb m r !! i = if decide (i = rid r) then better (m !! i) r else m !! i.
Proof.
  unfold absorb, better. case_decide as Hi.
  - subst. case_match; [by rewrite lookup_insert_eq|done].
  - case_match; [by rewrite lookup_insert_ne|done].
Qed.

Lemma better_not_shared o r : scope r = NodeLocal → better o r = o.
Proof. intros Hr. unfold better, should_apply_versioned. by rewrite Hr. Qed.

Lemma better_twice o r : better (better o r) r = better o r.
Proof.
  unfold better at 2 3. destruct (should_apply_versioned o r) eqn:E; unfold better.
  - by rewrite should_apply_again.
  - by rewrite E.
Qed.

Lemma better_le o l r :
  o = Some l → scope l = ClusterShared → ord_le (key r) (key l) → better o r = o.
Proof.
  intros -> Hl Hle. unfold better. destruct (should_apply_versioned _ _) eqn:E; [|done].
  apply should_apply_true in E as [_ E]. destruct (E l eq_refl) as [_ Hlt].
  by apply ord_lt_not_le in Hlt.
Qed.

Lemma better_cases o r :
  scope r = ClusterShared →
  (better o r = Some r ∧ ∀ l, o = Some l → scope l = ClusterShared ∧ ord_lt (key l) (key r)) ∨
  (better o r = o ∧ ∃ l, o = Some l ∧ (scope l = NodeLocal ∨ ord_le (key r) (key l))).
Proof.
  intros Hr. unfold better. destruct (should_apply_versioned o r) eqn:E.
  - left. apply should_apply_true in E. naive_solver.
  - right. apply should_apply_false in E; naive_solver.
Qed.

(** Of two records the greater decides, whichever arrives first. *)
Lemma better_greater o r r' :
  scope r = ClusterShared → scope r' = ClusterShared → ord_lt (key r) (key r') →
  better (better o r) r' = better o r' ∧ better (better o r') r = better o r'.
Proof.
  intros Hr Hr' Hlt.
  assert (ord_le (key r) (key r')) as Hle by (apply ord_le_lteq; by left).
  assert (better (Some r) r' = Some r') as Hrr'.
  { destruct (better_cases (Some r) r' Hr') as [[-> _]|(_ & ? & [= <-] & [?|?])]; [done|congruence|].
    by apply ord_lt_not_le in Hlt. }
  split.
  - destruct (better_cases o r Hr) as [[-> Ho]|[-> _]]; [|done]. rewrite Hrr'.
    destruct (better_cases o r' Hr') as [[-> _]|(_ & l & -> & Hl)]; [done|].
    destruct (Ho l eq_refl) as [Hs Hll]. destruct Hl as [?|Hl]; [congruence|].
    apply ord_lt_not_le in Hlt as []. trans (key l); [done|]. apply ord_le_lteq; by left.
  - destruct (better_cases o r' Hr') as [[-> _]|(-> & l & -> & Hl)].
    + by eapply better_le.
    + destruct (scope l) eqn:Hs; [unfold better; by rewrite should_apply_local|].
      destruct Hl as [?|Hl]; [congruence|]. eapply better_le; [done..|]. by trans (key r').
Qed.

Lemma better_comm o r r' :
  (key r = key r' → r = r') → better (better o r) r' = better (better o r') r.
Proof.
  intros Hd. destruct (scope r) eqn:Hr; [by rewrite !(better_not_shared _ r)|].
  destruct (scope r') eqn:Hr'; [by rewrite !(better_not_shared _ r')|].
  destruct (decide (ord_le (key r) (key r'))) as [Hle|Hle].
  - apply ord_le_lteq in Hle as [Hlt|Heq]; [|by rewrite (Hd Heq)].
    by destruct (better_greater o r r' Hr Hr' Hlt) as [-> ->].
  - apply ord_lt_not_le in Hle. by destruct (better_greater o r' r Hr' Hr Hle) as [-> ->].
Qed.

Lemma absorb_twice m r : absorb (absorb m r) r = absorb m r.
Proof.
  apply map_eq. intros i. rewrite !absorb_lookup. case_decide; [apply better_twice|done].
Qed.

Lemma absorb_comm m r r' :
  (rid r = rid r' → key r = key r' → r = r') → absorb (absorb m r) r' = absorb (absorb m r') r.
Proof.
  intros Hd. apply map_eq. intros i. rewrite !absorb_lookup.
  repeat case_decide; try done. apply better_comm. intros. apply Hd; congruence.
Qed.

Lemma distinguished_app rs rs' : distinguished (rs ++ rs') → distinguished rs ∧ distinguished rs'.
Proof. unfold distinguished. intros Hd. split; intros; apply Hd; rewrite ?elem_of_app; auto. Qed.

Lemma absorb_all_head m r rs :
  distinguished (r :: rs) → absorb_all m (r :: rs) = absorb (absorb_all m rs) r.
Proof.
  revert m. induction rs as [|r' rs IH]; intros m Hd; [done|].
  change (absorb_all (absorb (absorb m r) r') rs = absorb (absorb_all (absorb m r') rs) r).
  rewrite absorb_comm by (apply Hd; set_solver).
  apply (IH (absorb m r')). intros x y Hx Hy. apply Hd; set_solver.
Qed.

(** Records arrive in any order, any number of times. *)
Lemma absorb_all_perm m rs rs' :
  rs ≡ₚ rs' → distinguished rs → absorb_all m rs = absorb_all m rs'.
Proof.
  intros Hp. revert m. induction Hp as [|r rs rs' _ IH|r r' rs|l1 l2 l3 P12 IH1 _ IH2]; intros m Hd.
  - done.
  - apply (IH (absorb m r)). intros x y Hx Hy. apply Hd; set_solver.
  - cbn. rewrite absorb_comm by (apply Hd; set_solver). done.
  - rewrite IH1 by done. apply IH2. intros x y Hx Hy. apply Hd; by rewrite P12.
Qed.

Lemma absorb_all_present m r rs :
  distinguished rs → r ∈ rs → absorb_all (absorb m r) rs = absorb_all m rs.
Proof.
  intros Hd (l1 & l2 & ->)%list_elem_of_split.
  assert (l1 ++ r :: l2 ≡ₚ r :: l1 ++ l2) as Hp by (by rewrite Permutation_middle).
  rewrite !(absorb_all_perm _ _ _ Hp Hd). cbn. by rewrite absorb_twice.
Qed.

Lemma absorb_all_dedup `{EqDecision R} m rs :
  distinguished rs → absorb_all m (remove_dups rs) = absorb_all m rs.
Proof.
  revert m. induction rs as [|r rs IH]; intros m Hd; [done|]. cbn.
  assert (distinguished rs) as Hd' by (intros x y Hx Hy; apply Hd; set_solver).
  case_decide as Hr; cbn; rewrite IH by done; [|done]. by rewrite absorb_all_present.
Qed.

Lemma absorb_all_ext `{EqDecision R} m rs rs' :
  (∀ r, r ∈ rs ↔ r ∈ rs') → distinguished rs → absorb_all m rs = absorb_all m rs'.
Proof.
  intros He Hd. assert (distinguished rs') as Hd' by (intros x y Hx Hy; apply Hd; by apply He).
  rewrite <- (absorb_all_dedup m rs), <- (absorb_all_dedup m rs') by done. apply absorb_all_perm.
  - apply NoDup_Permutation; [apply NoDup_remove_dups..|]. intros r. rewrite !elem_of_remove_dups. apply He.
  - intros x y. rewrite !elem_of_remove_dups. apply Hd.
Qed.
End order.
