(* ===== verification/Effects.v ===== *)
(** * Stateful, fallible code

    The monad of the methods that act on a store and return a [Result], and
    the weakest preconditions by which their effects are proved: one
    postcondition for a normal return, one for an error. *)

From S2P Require Import Prelude.

Definition M (S E A : Type) : Type := S → S * result A E.

Section monad.
Context {S E : Type}.

Definition ret {A} (a : A) : M S E A := λ s, (s, Ok a).
Definition raise {A} (e : E) : M S E A := λ s, (s, Err e).
Definition lift {A} (r : result A E) : M S E A := λ s, (s, r).

Definition bind {A B} (m : M S E A) (f : A → M S E B) : M S E B := λ s,
  match m s with
  | (s', Ok a) => f a s'
  | (s', Err e) => (s', Err e)
  end.

Definition try_or {A} (m : M S E A) (k : E → M S E A) : M S E A := λ s,
  match m s with
  | (s', Ok a) => (s', Ok a)
  | (s', Err e) => k e s'
  end.

(** Run [f] over a list, left to right, stopping at the first error. *)
Fixpoint mapM {A B} (f : A → M S E B) (l : list A) : M S E (list B) :=
  match l with
  | [] => ret []
  | a :: l => bind (f a) (λ b, bind (mapM f l) (λ bs, ret (b :: bs)))
  end.
End monad.

(** [Result::map_err] on the result of a method. *)
Definition with_err {S E F A} (f : E → F) (m : M S E A) : M S F A := λ s,
  let '(s', r) := m s in (s', map_err f r).

(** A method of a component seen from the state that holds it. *)
Definition zoom {S T E A} (get : T → S) (put : S → T → T) (m : M S E A) : M T E A := λ t,
  let '(s', r) := m (get t) in (put s' t, r).

Notation "'let!' x ':=' m 'in' k" := (bind m (λ x, k))
  (at level 10, x name, m at level 100, k at level 200) : lycoris_scope.
Notation "'when!' b 'return' a 'in' k" := (if b then ret a else k)
  (at level 10, b at level 100, a at level 100, k at level 200) : lycoris_scope.

(** Collecting an iterator of [Result]s: the first error wins. *)
Fixpoint collect {A E} (l : list (result A E)) : result (list A) E :=
  match l with
  | [] => Ok []
  | Ok a :: l => let? r := collect l in Ok (a :: r)
  | Err e :: _ => Err e
  end.

Lemma collect_fmap_Ok {A E} (r : list A) : collect (Ok (E:=E) <$> r) = Ok r.
Proof. induction r as [|a r IH]; cbn; [done|]. by rewrite IH. Qed.

Lemma collect_Ok {A E} (l : list (result A E)) r : collect l = Ok r ↔ l = Ok <$> r.
Proof.
  split; [|intros ->; apply collect_fmap_Ok].
  revert r. induction l as [|[a|e] l IH]; intros r; cbn; [by intros [= <-]| |done].
  destruct (collect l) as [r'|e] eqn:Hc; cbn; [|done]. intros [= <-]. cbn. f_equal. by apply IH.
Qed.

(** ** Weakest preconditions *)

Definition wp {S E A} (m : M S E A) (Q : A → S → Prop) (F : E → S → Prop) (s : S) : Prop :=
  match m s with
  | (s', Ok a) => Q a s'
  | (s', Err e) => F e s'
  end.

Section wp.
Context {S E A : Type}.
Implicit Types (m : M S E A) (Q : A → S → Prop) (F : E → S → Prop) (s : S).

Lemma wp_mono m Q Q' F F' s :
  wp m Q F s → (∀ a s', Q a s' → Q' a s') → (∀ e s', F e s' → F' e s') → wp m Q' F' s.
Proof. unfold wp. destruct (m s) as [s' [a|e]]; eauto. Qed.

Lemma wp_ret a Q F s : wp (ret a) Q F s ↔ Q a s.
Proof. done. Qed.

Lemma wp_raise e Q F s : wp (raise (A:=A) e) Q F s ↔ F e s.
Proof. done. Qed.

Lemma wp_lift r Q F s : wp (lift r) Q F s ↔ match r with Ok a => Q a s | Err e => F e s end.
Proof. by destruct r. Qed.

Lemma wp_bind {B} m (f : A → M S E B) (Q : B → S → Prop) F s :
  wp (bind m f) Q F s ↔ wp m (λ a, wp (f a) Q F) F s.
Proof. unfold wp, bind. by destruct (m s) as [s' [a|e]]. Qed.

Lemma wp_try_or m k Q F s : wp (try_or m k) Q F s ↔ wp m Q (λ e, wp (k e) Q F) s.
Proof. unfold wp, try_or. by destruct (m s) as [s' [a|e]]. Qed.

Lemma wp_with_err {E'} (f : E → E') m Q (F : E' → S → Prop) s :
  wp (with_err f m) Q F s ↔ wp m Q (λ e, F (f e)) s.
Proof. unfold wp, with_err. by destruct (m s) as [s' [a|e]]. Qed.

Lemma wp_zoom {T} (get : T → S) (put : S → T → T) m (Q : A → T → Prop) (F : E → T → Prop) t :
  wp (zoom get put m) Q F t ↔ wp m (λ a s, Q a (put s t)) (λ e s, F e (put s t)) (get t).
Proof. unfold wp, zoom. by destruct (m (get t)) as [s' [a|e]]. Qed.

(** A run and its weakest precondition. *)
Lemma wp_run m Q F s : wp m Q F s → ∀ a s', m s = (s', Ok a) → Q a s'.
Proof. unfold wp. intros Hw a s' Hm. by rewrite Hm in Hw. Qed.

Lemma wp_run_err m Q F s : wp m Q F s → ∀ e s', m s = (s', Err e) → F e s'.
Proof. unfold wp. intros Hw e s' Hm. by rewrite Hm in Hw. Qed.

Lemma wp_intro m Q F s :
  (∀ a s', m s = (s', Ok a) → Q a s') → (∀ e s', m s = (s', Err e) → F e s') → wp m Q F s.
Proof. unfold wp. destruct (m s) as [s' [a|e]]; eauto. Qed.
End wp.

Lemma wp_bind_assoc {S E A B C} (m : M S E A) (f : A → M S E B) (k : B → M S E C) Q F s :
  wp (bind m (λ a, bind (f a) k)) Q F s ↔ wp (bind (bind m f) k) Q F s.
Proof. unfold wp, bind. by destruct (m s) as [s' [a|e]]. Qed.

(** The syntax-directed steps of a proof by weakest preconditions. *)
Ltac wp_step :=
  first [ rewrite wp_bind | rewrite wp_ret | rewrite wp_raise | rewrite wp_lift
        | rewrite wp_with_err | rewrite wp_try_or | rewrite wp_zoom ].
Ltac wp_steps := repeat wp_step.
