(* ===== verification/PrivateFile.v ===== *)
(** * Private files ([crates/core/src/fs.rs], [crates/overlay/src/identity.rs])

    How a node writes a file that must never be seen half written: a temporary
    file beside it, synced, then renamed or linked into place, with the
    directory synced after. The file system is the operating system's. A name
    leads to a file; what a crash leaves of it depends on what was synced: the
    content of a file that was not is anything, and a name may lead where it led
    since its directory was synced last. Between two calls of one process other
    processes act, and any call may fail. *)

From S2P Require Import Prelude.
From S2P Require Import Effects.
From S2P Require Import Identity.

#[local] Open Scope Z_scope.

(** ** The file system

    A path is the list of its components, without those that name the current
    directory: the parent of a relative name is the empty path. *)

Abbreviation Path := (list string).
Abbreviation File := nat.

Record FileSystem : Type := mkFileSystem {
  folders : gset Path;
  names : gmap Path File;
  stale : gmap Path (list (option File));
  contents : gmap File bytes;
  durable : gset File;
  owners : gmap File Z;
}.

Definition parent (p : Path) : Path := removelast p.

Definition stale_at (p : Path) (fs : FileSystem) : list (option File) := default [] (stale fs !! p).

Definition set_name (p : Path) (o : option File) (fs : FileSystem) : FileSystem :=
  mkFileSystem (folders fs) (partial_alter (λ _, o) p (names fs))
    (<[p := stale_at p fs ++ [names fs !! p]]> (stale fs)) (contents fs) (durable fs) (owners fs).

Definition set_content (f : File) (b : bytes) (fs : FileSystem) : FileSystem :=
  mkFileSystem (folders fs) (names fs) (stale fs) (<[f := b]> (contents fs)) (durable fs ∖ {[f]}) (owners fs).

(** What a name leads to. *)
Definition found (p : Path) (fs : FileSystem) : option bytes := names fs !! p ≫= λ f, contents fs !! f.

(** *** What a crash leaves *)

Record crashed (fs fs' : FileSystem) : Prop := {
  crashed_name p : names fs' !! p ∈ names fs !! p :: stale_at p fs;
  crashed_content f : f ∈ durable fs → contents fs' !! f = contents fs !! f;
}.

(** *** Calls *)

Definition os_create_dir_all (p : Path) (fs : FileSystem) : result (FileSystem * ()) IoFailure :=
  Ok (mkFileSystem (folders fs ∪ list_to_set ((λ n, take n p) <$> seq 0 (S (length p)))) (names fs) (stale fs) (contents fs)
        (durable fs) (owners fs), tt).

(** [create_new(true)]; [me] is the process. *)
Definition os_create_new (me : Z) (p : Path) (fs : FileSystem) : result (FileSystem * File) IoFailure :=
  if decide (parent p ≠ [] ∧ parent p ∉ folders fs) then Err IoNotFound
  else
    match names fs !! p with
    | Some _ => Err IoAlreadyExists
    | None =>
        let f := fresh (dom (contents fs)) in
        let fs := set_name p (Some f) (set_content f "" fs) in
        Ok (mkFileSystem (folders fs) (names fs) (stale fs) (contents fs) (durable fs)
              (<[f := me]> (owners fs)), f)
    end.

(** [write_all] to a file that is empty. *)
Definition os_write_all (f : File) (content : bytes) (fs : FileSystem) : result (FileSystem * ()) IoFailure :=
  Ok (set_content f content fs, tt).

Definition os_sync_all (f : File) (fs : FileSystem) : result (FileSystem * ()) IoFailure :=
  Ok (mkFileSystem (folders fs) (names fs) (stale fs) (contents fs) ({[f]} ∪ durable fs) (owners fs), tt).

Definition os_rename (source destination : Path) (fs : FileSystem) : result (FileSystem * ()) IoFailure :=
  match names fs !! source with
  | None => Err IoNotFound
  | Some f =>
      if decide (source = destination) then Ok (fs, tt)
      else Ok (set_name source None (set_name destination (Some f) fs), tt)
  end.

Definition os_hard_link (source destination : Path) (fs : FileSystem) : result (FileSystem * ()) IoFailure :=
  match names fs !! source, names fs !! destination with
  | None, _ => Err IoNotFound
  | Some _, Some _ => Err IoAlreadyExists
  | Some f, None => Ok (set_name destination (Some f) fs, tt)
  end.

Definition os_remove_file (p : Path) (fs : FileSystem) : result (FileSystem * ()) IoFailure :=
  match names fs !! p with
  | None => Err IoNotFound
  | Some _ => Ok (set_name p None fs, tt)
  end.

(** [File::open(parent)?.sync_all()] *)
Definition os_sync_parent (p : Path) (fs : FileSystem) : result (FileSystem * ()) IoFailure :=
  Ok (mkFileSystem (folders fs) (names fs) (filter (λ e, parent e.1 ≠ p) (stale fs)) (contents fs) (durable fs)
        (owners fs), tt).

Definition os_read (p : Path) (fs : FileSystem) : result (FileSystem * bytes) IoFailure :=
  match found p fs with Some b => Ok (fs, b) | None => Err IoNotFound end.

(** ** A process

    Before each call, others act; then the call succeeds, or it fails having
    done a part of its work. [deeds] remembers what the process did itself. *)

Record Turn : Type := mkTurn {
  others : FileSystem → FileSystem;
  failure : option string;
  extent : nat;
}.

Record Process : Type := mkProcess {
  files : FileSystem;
  script : list Turn;
  random : list (option bytes);
  deeds : list (FileSystem * FileSystem);
}.

(** A call [op] that leaves [half n] behind when it fails. *)
Definition call {A} (half : nat → FileSystem → FileSystem)
    (op : FileSystem → result (FileSystem * A) IoFailure) : M Process IoFailure A := λ w,
  let fs := match script w with t :: _ => others t (files w) | [] => files w end in
  match script w with
  | {| failure := Some what; extent := n |} :: rest =>
      (mkProcess (half n fs) rest (random w) (deeds w ++ [(fs, half n fs)]), Err (IoOther what))
  | _ =>
      match op fs with
      | Ok (fs', a) => (mkProcess fs' (tail (script w)) (random w) (deeds w ++ [(fs, fs')]), Ok a)
      | Err e => (mkProcess fs (tail (script w)) (random w) (deeds w), Err e)
      end
  end.

Definition nothing (_ : nat) (fs : FileSystem) : FileSystem := fs.

(** [StdPrivateFileOps] *)
Definition create_parent (p : Path) : M Process IoFailure () :=
  call (λ n fs, match os_create_dir_all (take n p) fs with Ok (fs, _) => fs | Err _ => fs end) (os_create_dir_all p).
Definition create_temp (me : Z) (p : Path) : M Process IoFailure File := call nothing (os_create_new me p).
Definition write_all (f : File) (content : bytes) : M Process IoFailure () :=
  call (λ n, set_content f (String.substring 0 n content)) (os_write_all f content).
Definition sync_temp (f : File) : M Process IoFailure () := call nothing (os_sync_all f).
Definition replace (source destination : Path) : M Process IoFailure () :=
  call nothing (os_rename source destination).
Definition link_if_absent (source destination : Path) : M Process IoFailure () :=
  call nothing (os_hard_link source destination).
Definition remove_temp (p : Path) : M Process IoFailure () := call nothing (os_remove_file p).
Definition sync_parent (p : Path) : M Process IoFailure () := call nothing (os_sync_parent p).

(** [SystemRandom::fill] *)
Definition fill : M Process IoFailure bytes := λ w,
  match random w with
  | Some b :: rest => (mkProcess (files w) (script w) rest (deeds w), Ok b)
  | _ => (mkProcess (files w) (script w) (tail (random w)) (deeds w),
          Err (IoOther "private file temporary name generation failed"))
  end.

(** [let _ = ..] *)
Definition ignore {E E' A} (m : M Process E A) : M Process E' () := λ w, ((m w).1, Ok tt).

(** ** Publication *)

Definition TEMP_CREATE_ATTEMPTS : nat := 16.

Inductive PrivateFileCreate : Type := Created | AlreadyExists.
Inductive PublishMode : Type := Replace | IfAbsent.

Section publication.
Context `{!Hex} (me : Z).

Definition temporary_path (destination : Path) (suffix : bytes) : Path :=
  parent destination ++
    [String.append "." (String.append (default "private" (last destination))
       (String.append "." (String.append (hex_encode suffix) ".tmp")))].

Fixpoint create_temporary_loop (attempts : nat) (destination : Path) : M Process IoFailure (Path * File) :=
  match attempts with
  | O => raise IoAlreadyExists
  | S attempts =>
      let! suffix := fill in
      let temporary := temporary_path destination suffix in
      λ w,
        match create_temp me temporary w with
        | (w, Ok writer) => (w, Ok (temporary, writer))
        | (w, Err IoAlreadyExists) => create_temporary_loop attempts destination w
        | (w, Err error) => (w, Err error)
        end
  end.

Definition create_temporary (destination : Path) : M Process IoFailure (Path * File) :=
  create_temporary_loop TEMP_CREATE_ATTEMPTS destination.

Definition publish_if_absent (temporary destination : Path) : M Process IoFailure PrivateFileCreate :=
  let! publication := λ w,
    match link_if_absent temporary destination w with
    | (w, Ok _) =>
        try_or (let! _ := sync_parent (parent destination) in ret Created)
          (λ error, let! _ := ignore (remove_temp temporary) in raise error) w
    | (w, Err IoAlreadyExists) => (w, Ok AlreadyExists)
    | (w, Err error) => (let! _ := ignore (remove_temp temporary) in raise error) w
    end in
  let! _ := remove_temp temporary in
  let! _ := sync_parent (parent destination) in
  ret publication.

Definition publish_private_file (destination : Path) (content : bytes) (mode : PublishMode)
    : M Process IoFailure PrivateFileCreate :=
  let! _ := create_parent (parent destination) in
  let! temp := create_temporary destination in
  let '(temporary, writer) := temp in
  let! _ := try_or (let! _ := write_all writer content in sync_temp writer)
    (λ error, let! _ := ignore (remove_temp temporary) in raise error) in
  match mode with
  | Replace =>
      let! _ := try_or (replace temporary destination)
        (λ error, let! _ := ignore (remove_temp temporary) in raise error) in
      let! _ := sync_parent (parent destination) in
      ret Created
  | IfAbsent => publish_if_absent temporary destination
  end.

Definition write_private_file (path : Path) (content : bytes) : M Process IoFailure () :=
  let! _ := publish_private_file path content Replace in ret tt.

Definition write_private_file_if_absent (path : Path) (content : bytes) : M Process IoFailure PrivateFileCreate :=
  publish_private_file path content IfAbsent.
End publication.

(** ** The identity file *)

Section identity_file.
Context `{!Crypto} `{!Hex} (me : Z).

(** [NodeIdentity::load] *)
Definition load (path : Path) : M Process IdentityError NodeIdentity :=
  let! document := with_err IdIo (call nothing (os_read path)) in
  lift (decode document).

(** [NodeIdentity::save] *)
Definition save (i : NodeIdentity) (path : Path) : M Process IdentityError () :=
  let! document := lift (encode_document i) in
  with_err IdIo (write_private_file me path document).

Definition publish_candidate (path : Path) (candidate : NodeIdentity)
    : M Process IdentityError (NodeIdentity * PrivateFileCreate) :=
  let! document := lift (encode_document candidate) in
  let! publication := with_err IdIo (write_private_file_if_absent me path document) in
  let! i := match publication with Created => ret candidate | AlreadyExists => load path end in
  ret (i, publication).

(** [NodeIdentity::load_or_generate], with the key pair [generate] would draw. *)
Definition load_or_generate (kp : Keypair) (path : Path) : M Process IdentityError NodeIdentity := λ w,
  match load path w with
  | (w, Ok i) => (w, Ok i)
  | (w, Err (IdIo IoNotFound)) => (let! r := publish_candidate path (generate kp) in ret r.1) w
  | (w, Err error) => (w, Err error)
  end.
End identity_file.
