(* ===== verification/PrivateFileTheorems.v ===== *)
(** * What a private file may hold

    The theorems about [PrivateFile]: a file is replaced as a whole, whatever
    fails and whenever the machine stops; and processes that create it at the
    same time end up with one winner. Both are proved in one logic, whose
    assertions hold between the calls of a process: the other processes keep a
    relation the process relies on, and each of its own calls keeps one it
    guarantees. *)

From S2P Require Import Prelude.
From S2P Require Import Effects.
From S2P Require Import Identity.
From S2P Require Import PrivateFile.

#[local] Open Scope Z_scope.

(** ** Well-formed file systems *)

Record named (fs : FileSystem) : Prop := {
  named_names p f : names fs !! p = Some f → is_Some (contents fs !! f);
  named_stale p f : Some f ∈ stale_at p fs → is_Some (contents fs !! f);
  named_owners f : is_Some (owners fs !! f) → is_Some (contents fs !! f);
}.

(** The files a crash may find under a name. *)
Definition reaches (p : Path) (fs : FileSystem) (f : File) : Prop :=
  names fs !! p = Some f ∨ Some f ∈ stale_at p fs.

(** What process [o] relies on: its files are its own, and nobody else puts one
    of them in the place of [dst]. *)
Record courteous (dst : Path) (o : Z) (fs fs' : FileSystem) : Prop := {
  co_named : named fs → named fs';
  co_files f : owners fs !! f = Some o →
    owners fs' !! f = Some o ∧ contents fs' !! f = contents fs !! f ∧ (f ∈ durable fs → f ∈ durable fs');
  co_names p f : p ≠ dst → names fs !! p = Some f → owners fs !! f = Some o → names fs' !! p = Some f;
  co_none f : owners fs' !! f = Some o → owners fs !! f = Some o;
  co_place f : reaches dst fs' f → owners fs' !! f = Some o → reaches dst fs f;
}.

#[export] Instance courteous_preorder dst o : PreOrder (courteous dst o).
Proof.
  split.
  - intros fs. split; eauto.
  - intros x y z [Hn Hf Hp Ho Hr] [Hn' Hf' Hp' Ho' Hr']. split; eauto.
    + intros f Hx. destruct (Hf f Hx) as (Hy & Hc & Hd). destruct (Hf' f Hy) as (Hz & Hc' & Hd').
      split_and!; [done|congruence|eauto].
    + intros p f Hne Hx Hox. apply Hp'; [done|by apply Hp|by apply Hf].
Qed.

(** ** The logic *)

Section logic.
Context (dst : Path) (me : Z) (D G : FileSystem → FileSystem → Prop) `{!PreOrder D, !Reflexive G}.
Implicit Types (w : Process) (fs : FileSystem).

Definition fair w : Prop :=
  Forall (λ t, ∀ fs, courteous dst me fs (others t fs) ∧ D fs (others t fs)) (script w) ∧
  Forall (λ d, G d.1 d.2) (deeds w).

Definition spec {E A} (P : FileSystem → Prop) (m : M Process E A) (Q : A → FileSystem → Prop)
    (F : E → FileSystem → Prop) : Prop :=
  ∀ w, fair w → P (files w) → wp m (λ a w', fair w' ∧ Q a (files w')) (λ e w', fair w' ∧ F e (files w')) w.

Lemma spec_conseq {E A} (P P' : FileSystem → Prop) (m : M Process E A) (Q Q' : A → FileSystem → Prop) F F' :
  spec P m Q F → (∀ fs, P' fs → P fs) → (∀ a fs, Q a fs → Q' a fs) → (∀ e fs, F e fs → F' e fs) →
  spec P' m Q' F'.
Proof.
  intros Hm HP HQ HF w Hw Hp. eapply wp_mono; [by apply Hm; [|apply HP]|..]; cbn; naive_solver.
Qed.

Lemma spec_ret {E A} (a : A) (Q : A → FileSystem → Prop) (F : E → FileSystem → Prop) : spec (Q a) (ret a) Q F.
Proof. by intros w Hw HQ. Qed.

Lemma spec_raise {E A} (e : E) (Q : A → FileSystem → Prop) (F : E → FileSystem → Prop) : spec (F e) (raise e) Q F.
Proof. by intros w Hw HF. Qed.

Lemma spec_bind {E A B} P (m : M Process E A) (k : A → M Process E B) Q R F :
  spec P m Q F → (∀ a, spec (Q a) (k a) R F) → spec P (let! a := m in k a) R F.
Proof.
  intros Hm Hk w Hw HP. rewrite wp_bind. eapply wp_mono; [by apply Hm|cbn; intros a w' []; by apply Hk|done].
Qed.

Lemma spec_try {E A} P (m : M Process E A) (k : E → M Process E A) Q F F' :
  spec P m Q F → (∀ e, spec (F e) (k e) Q F') → spec P (try_or m k) Q F'.
Proof.
  intros Hm Hk w Hw HP. rewrite wp_try_or. eapply wp_mono; [by apply Hm|done|cbn; intros e w' []; by apply Hk].
Qed.

Lemma spec_ignore {E E' A} P (m : M Process E A) (Q : FileSystem → Prop) (F : E' → FileSystem → Prop) :
  spec P m (λ _, Q) (λ _, Q) → spec P (ignore m) (λ _, Q) F.
Proof.
  intros Hm w Hw HP. specialize (Hm w Hw HP). unfold wp, ignore in *. by destruct (m w) as [w' [a|e]].
Qed.

Lemma spec_with_err {E E' A} P (m : M Process E A) (f : E → E') Q F :
  spec P m Q (λ e, F (f e)) → spec P (with_err f m) Q F.
Proof. intros Hm w Hw HP. rewrite wp_with_err. by apply Hm. Qed.

(** A call: the others act, then it fails halfway, or it happens. *)
Lemma spec_call {A} (P : FileSystem → Prop) half (op : FileSystem → result (FileSystem * A) IoFailure) Q F :
  (∀ fs0 fs, P fs0 → courteous dst me fs0 fs → D fs0 fs →
    (∀ n what, G fs (half n fs) ∧ F (IoOther what) (half n fs)) ∧
    match op fs with Ok (fs', a) => G fs fs' ∧ Q a fs' | Err e => F e fs end) →
  spec P (call half op) Q F.
Proof.
  intros Hop [fs0 sc rs ds] [Hs Hd] HP. unfold wp, call, fair. cbn [files script random deeds] in *.
  assert (∀ fs, courteous dst me fs0 fs → D fs0 fs → ∀ rest, Forall (λ t, ∀ fs, courteous dst me fs (others t fs) ∧ D fs (others t fs)) rest →
    match op fs with
    | Ok (fs', a) => fair (mkProcess fs' rest rs (ds ++ [(fs, fs')])) ∧ Q a fs'
    | Err e => fair (mkProcess fs rest rs ds) ∧ F e fs end) as Hok.
  { intros fs Hc HD rest Hr. destruct (Hop fs0 fs HP Hc HD) as [_ Hx]. destruct (op fs) as [[fs' a]|e].
    - destruct Hx as [Hg Hq]. split; [|done]. split; [done|]. cbn. apply Forall_app. split; [done|]. by constructor.
    - done. }
  destruct sc as [|[g [what|] n] rest].
  - specialize (Hok fs0 (reflexivity _) (reflexivity _) [] (Forall_nil_2 _)). by destruct (op fs0) as [[fs' a]|e].
  - apply Forall_cons in Hs as [Hg Hs]. destruct (Hg fs0) as [Hc HD]. cbn in Hc, HD.
    destruct (Hop fs0 (g fs0) HP Hc HD) as [Hx _]. destruct (Hx n what) as [Hgg HF]. cbn. split; [|done].
    split; [done|]. cbn. apply Forall_app. split; [done|]. by constructor.
  - apply Forall_cons in Hs as [Hg Hs]. destruct (Hg fs0) as [Hc HD]. cbn in Hc, HD |- *.
    specialize (Hok (g fs0) Hc HD rest Hs). by destruct (op (g fs0)) as [[fs' a]|e].
Qed.

(** A call that fails without a trace. *)
Lemma spec_call_nothing {A} (P : FileSystem → Prop) (op : FileSystem → result (FileSystem * A) IoFailure) Q F :
  (∀ fs0 fs, P fs0 → courteous dst me fs0 fs → D fs0 fs →
    (∀ what, F (IoOther what) fs) ∧
    match op fs with Ok (fs', a) => G fs fs' ∧ Q a fs' | Err e => F e fs end) →
  spec P (call nothing op) Q F.
Proof.
  intros Hop. apply spec_call. intros fs0 fs HP Hc HD. destruct (Hop fs0 fs HP Hc HD) as [HF Hx].
  split; [|done]. intros n what. split; [by cbn|apply HF].
Qed.

Lemma spec_fill P (Q : bytes → FileSystem → Prop) (F : IoFailure → FileSystem → Prop) :
  (∀ b fs, P fs → Q b fs) → (∀ e fs, P fs → F e fs) → spec P fill Q F.
Proof.
  intros HQ HF [fs sc rs ds] Hw HP. unfold wp, fill. cbn. destruct rs as [|[b|] rest]; cbn; eauto.
Qed.
End logic.

(** ** A file of one's own

    The calls before the publication touch only names and files of the process. *)

(** Reads the fields of a file system that was just built. *)
Ltac fields := unfold set_name, set_content, stale_at in *; cbn [folders names stale contents durable owners] in *.

Lemma lookup_name (p q : Path) (o : option File) (m : gmap Path File) :
  partial_alter (λ _, o) p m !! q = if decide (p = q) then o else m !! q.
Proof. case_decide; [subst; by rewrite lookup_partial_alter_eq|by rewrite lookup_partial_alter_ne]. Qed.

Record own_step (dst : Path) (me : Z) (fs fs' : FileSystem) : Prop := {
  os_named : named fs → named fs';
  os_place : names fs' !! dst = names fs !! dst ∧ stale_at dst fs' = stale_at dst fs;
  os_names p f : names fs !! p = Some f → owners fs !! f ≠ Some me → names fs' !! p = Some f;
  os_files f : owners fs !! f ≠ Some me → is_Some (contents fs !! f) →
    owners fs' !! f = owners fs !! f ∧ contents fs' !! f = contents fs !! f ∧ (f ∈ durable fs → f ∈ durable fs');
  os_mine f : owners fs !! f = Some me → owners fs' !! f = Some me;
  os_none f : owners fs !! f = None → contents fs !! f = None → owners fs' !! f = None ∨ owners fs' !! f = Some me;
}.

Definition ready (dst : Path) (me : Z) (fs : FileSystem) : Prop :=
  named fs ∧ ∀ f, reaches dst fs f → owners fs !! f ≠ Some me.

Lemma ready_courteous dst me fs fs' : ready dst me fs → courteous dst me fs fs' → ready dst me fs'.
Proof.
  intros [Hn Hr] [Hn' _ _ Ho Hp]. split; [auto|]. intros f Hf Hme. by apply (Hr f (Hp f Hf Hme)), Ho.
Qed.

Lemma reaches_place dst fs fs' f :
  names fs' !! dst = names fs !! dst → stale_at dst fs' = stale_at dst fs → reaches dst fs' f ↔ reaches dst fs f.
Proof. unfold reaches. by intros -> ->. Qed.

Lemma reaches_named dst fs f : named fs → reaches dst fs f → is_Some (contents fs !! f).
Proof. intros [Hn Hs _] [?|?]; eauto. Qed.

Lemma ready_own dst me fs fs' : ready dst me fs → own_step dst me fs fs' → ready dst me fs'.
Proof.
  intros [Hn Hr] [Hn' [Hp Hs] _ Hf _ _]. split; [auto|]. intros f Hreach.
  apply (reaches_place dst fs fs' f Hp Hs) in Hreach. destruct (Hf f (Hr f Hreach)) as (-> & _); [by eapply reaches_named|auto].
Qed.

Lemma own_step_same dst me fs fs' :
  names fs' = names fs → stale fs' = stale fs → contents fs' = contents fs → owners fs' = owners fs →
  durable fs ⊆ durable fs' → own_step dst me fs fs'.
Proof.
  intros Hn Hs Hc Ho Hd. split; unfold stale_at; rewrite ?Hn, ?Hs, ?Hc, ?Ho; [|done..| |done|auto].
  - intros [H1 H2 H3]. split; unfold stale_at in *; by rewrite ?Hn, ?Hs, ?Hc, ?Ho.
  - intros f _ _. split_and!; [done..|set_solver].
Qed.

Lemma own_step_create dst me fs p fs' f :
  p ≠ dst → os_create_new me p fs = Ok (fs', f) →
  own_step dst me fs fs' ∧ (named fs → ∀ q, ¬ reaches q fs f) ∧
  names fs' !! p = Some f ∧ owners fs' !! f = Some me ∧ contents fs' !! f = Some "".
Proof.
  unfold os_create_new. intros Hne. case_decide; [done|]. destruct (names fs !! p) as [g|] eqn:Hp; [done|].
  cbv zeta. set (g := fresh (dom (contents fs))). intros [= <- <-]. fields.
  assert (contents fs !! g = None) as Hg by apply not_elem_of_dom, is_fresh.
  split_and!; [|intros Hn q Hq; apply (reaches_named q) in Hq as [? ?]; [congruence|done]|
    by rewrite lookup_name, decide_True|apply lookup_insert_eq|apply lookup_insert_eq].
  split; fields.
  - intros [Hn Hs Ho]. assert (∀ x, is_Some (contents fs !! x) → is_Some (<[g:="" : bytes]> (contents fs) !! x)) as Hk.
    { intros x Hx. rewrite lookup_insert. case_decide; eauto. }
    split; fields.
    + intros q x. rewrite lookup_name. case_decide; [intros [= <-]; rewrite lookup_insert_eq; eauto|eauto].
    + intros q x. rewrite lookup_insert. case_decide; [|by intros ?%Hs%Hk].
      cbn. rewrite Hp, elem_of_app, list_elem_of_singleton. intros [Hx|?]; [|done]. by apply Hs, Hk in Hx.
    + intros x. rewrite lookup_insert. case_decide; [subst; rewrite lookup_insert_eq; eauto|by intros ?%Ho%Hk].
  - by rewrite lookup_name, decide_False, lookup_insert_ne by done.
  - intros q x Hx _. rewrite lookup_name, decide_False; [done|]. intros ->. congruence.
  - intros x Hx [c Hc]. assert (x ≠ g) by congruence. rewrite !lookup_insert_ne by done. split_and!; [done..|set_solver].
  - intros x Hx. rewrite lookup_insert. by case_decide.
  - intros x Hx _. rewrite lookup_insert. case_decide; auto.
Qed.

Lemma own_step_write dst me fs f b b' :
  owners fs !! f = Some me → contents fs !! f = Some b' → own_step dst me fs (set_content f b fs).
Proof.
  intros Ho Hc. split; fields; try done.
  - intros [Hn Hs Hw]. assert (∀ x, is_Some (contents fs !! x) → is_Some (<[f:=b]> (contents fs) !! x)) as Hk.
    { intros x Hx. rewrite lookup_insert. case_decide; eauto. }
    split; fields; eauto.
  - intros x Hx _. assert (x ≠ f) by congruence. rewrite lookup_insert_ne by done. split_and!; [done..|set_solver].
  - auto.
Qed.

Lemma own_step_remove dst me fs p f :
  p ≠ dst → names fs !! p = Some f → owners fs !! f = Some me → own_step dst me fs (set_name p None fs).
Proof.
  intros Hne Hp Ho. split; fields; try done.
  - intros [Hn Hs Hw]. split; fields.
    + intros q x. rewrite lookup_name. case_decide; [done|eauto].
    + intros q x. rewrite lookup_insert. case_decide; [|apply Hs].
      cbn. rewrite elem_of_app, list_elem_of_singleton. intros [Hx|Hx]; [by eapply Hs|by eapply Hn].
    + done.
  - by rewrite lookup_name, decide_False, lookup_insert_ne by done.
  - intros q x Hx Hnx. rewrite lookup_name, decide_False; [done|]. intros ->. congruence.
  - auto.
Qed.

(** ** Preparing the file to publish *)

Section preparation.
Context `{!Hex} (dst : Path) (me : Z) (D G : FileSystem → FileSystem → Prop) `{!PreOrder D, !Reflexive G}.
Context (Hown : ∀ fs fs', ready dst me fs → own_step dst me fs fs' → D fs fs' ∧ G fs fs').
Context (fs0 : FileSystem).
Abbreviation sp := (spec dst me D G).

(** Nothing has happened to the destination yet, but what others did. *)
Definition base (fs : FileSystem) : Prop := D fs0 fs ∧ ready dst me fs.

Record holding (p : Path) (f : File) (b : bytes) (fs : FileSystem) : Prop := {
  hd_base : base fs;
  hd_apart : p ≠ dst;
  hd_name : names fs !! p = Some f;
  hd_owner : owners fs !! f = Some me;
  hd_content : contents fs !! f = Some b;
}.

Lemma base_stable fs fs' : base fs → courteous dst me fs fs' → D fs fs' → base fs'.
Proof. intros [Hd Hr] Hc HD. split; [by etrans|by eapply ready_courteous]. Qed.

Lemma base_own fs fs' : base fs → own_step dst me fs fs' → G fs fs' ∧ base fs'.
Proof.
  intros [Hd Hr] Ho. destruct (Hown _ _ Hr Ho) as [HD HG]. split; [done|]. split; [by etrans|by eapply ready_own].
Qed.

Lemma holding_stable p f b fs fs' : holding p f b fs → courteous dst me fs fs' → D fs fs' → holding p f b fs'.
Proof.
  intros [Hb Hne Hp Ho Hc] Hco HD. destruct (co_files _ _ _ _ Hco f Ho) as (Ho' & Hc' & _).
  split; [by eapply base_stable|done|by eapply co_names|done|congruence].
Qed.

Lemma temporary_path_ne suffix : temporary_path dst suffix ≠ dst.
Proof.
  unfold temporary_path, parent. intros Heq. assert (last dst = last dst) as Hl by done.
  rewrite <- Heq in Hl at 1. rewrite last_snoc in Hl. destruct (last dst) as [name|]; [|done].
  injection Hl as Hl. apply (f_equal String.length) in Hl. cbn [default] in Hl.
  rewrite !string_length_app in Hl. cbn [String.length] in Hl. lia.
Qed.

Lemma create_parent_spec p : sp base (create_parent p) (λ _, base) (λ _, base).
Proof.
  apply spec_call; [done..|]. intros fs1 fs Hb Hc HD. pose proof (base_stable _ _ Hb Hc HD) as Hb'.
  assert (∀ q, ∃ x, os_create_dir_all q fs = Ok (x, tt) ∧ own_step dst me fs x) as Hd.
  { intros q. eexists. split; [done|]. by apply own_step_same. }
  split.
  - intros n what. destruct (Hd (take n p)) as (x & -> & Hx). by apply base_own.
  - destruct (Hd p) as (x & -> & Hx). by apply base_own.
Qed.

Lemma create_temp_spec p :
  p ≠ dst → sp base (create_temp me p) (λ f, holding p f "") (λ _, base).
Proof.
  intros Hne. apply spec_call_nothing; [done..|]. intros fs1 fs Hb Hc HD. pose proof (base_stable _ _ Hb Hc HD) as Hb'.
  split; [done|]. destruct (os_create_new me p fs) as [[fs' f]|e] eqn:Hop; [|done].
  destruct (own_step_create dst me fs p fs' f Hne Hop) as (Hstep & _ & Hp & Ho & Hcon).
  destruct (base_own _ _ Hb' Hstep) as [HG Hbase]. split; [done|]. by split.
Qed.

Lemma create_temporary_spec : sp base (create_temporary me dst) (λ t, holding t.1 t.2 "") (λ _, base).
Proof.
  unfold create_temporary. induction TEMP_CREATE_ATTEMPTS as [|n IH]; [by intros w|].
  cbn [create_temporary_loop]. eapply spec_bind; [apply (spec_fill _ _ _ _ _ (λ _, base)); auto|].
  intros suffix w Hw Hb. pose proof (create_temp_spec (temporary_path dst suffix) (temporary_path_ne suffix) w Hw Hb) as Ht.
  unfold wp in Ht |- *. destruct (create_temp me _ w) as [w' [f|[| |what]]]; [done|done| |done].
  destruct Ht as [Hw' Hb']. by apply IH.
Qed.

Lemma write_spec p f b c :
  sp (holding p f b) (write_all f c) (λ _, holding p f c) (λ _ fs, ∃ b', holding p f b' fs).
Proof.
  apply spec_call; [done..|]. intros fs1 fs Hh Hc HD. pose proof (holding_stable _ _ _ _ _ Hh Hc HD) as [Hb Hne Hp Ho Hcon].
  assert (∀ c', G fs (set_content f c' fs) ∧ holding p f c' (set_content f c' fs)) as Hw.
  { intros c'. destruct (base_own fs (set_content f c' fs) Hb) as [HG Hb']; [by eapply own_step_write|].
    split; [done|]. split; [done..|by fields|by fields|]. fields. apply lookup_insert_eq. }
  split; [|apply Hw]. intros n what. destruct (Hw (String.substring 0 n c)). eauto.
Qed.

Lemma sync_spec p f c :
  sp (holding p f c) (sync_temp f) (λ _ fs, holding p f c fs ∧ f ∈ durable fs) (λ _ fs, ∃ b', holding p f b' fs).
Proof.
  apply spec_call_nothing; [done..|]. intros fs1 fs Hh Hc HD.
  pose proof (holding_stable _ _ _ _ _ Hh Hc HD) as Hh'. split; [by eauto|]. cbn.
  destruct Hh' as [Hb Hne Hp Ho Hcon].
  set (fs' := mkFileSystem _ _ _ _ _ _). destruct (base_own fs fs' Hb) as [HG Hb'].
  { apply own_step_same; try done. subst fs'. cbn. set_solver. }
  split; [done|]. split; [by split|]. subst fs'. cbn. set_solver.
Qed.

Lemma remove_spec {E} p f b (F : E → FileSystem → Prop) :
  sp (holding p f b) (ignore (remove_temp p)) (λ _, base) F.
Proof.
  apply spec_ignore, spec_call_nothing; [done..|]. intros fs1 fs Hh Hc HD.
  pose proof (holding_stable _ _ _ _ _ Hh Hc HD) as [Hb Hne Hp Ho Hcon].
  split; [done|]. unfold os_remove_file. rewrite Hp. apply base_own; [done|]. by eapply own_step_remove.
Qed.

(** The file is written and synced, or nothing is left of it but a name. *)
Lemma written_spec p f b c :
  sp (holding p f b)
    (try_or (let! _ := write_all f c in sync_temp f)
       (λ error, let! _ := ignore (remove_temp p) in raise error))
    (λ _ fs, holding p f c fs ∧ f ∈ durable fs) (λ _, base).
Proof.
  eapply (spec_try _ _ _ _ _ _ _ _ (λ _ fs, ∃ b', holding p f b' fs)).
  - eapply spec_bind; [apply write_spec|]. intros ?. apply sync_spec.
  - intros e. eapply (spec_bind _ _ _ _ _ _ _ (λ _, base)); [|intros ?; apply (spec_raise _ _ _ _ _ _ (λ _, base))].
    intros w Hw [b' Hb']. by apply (remove_spec p f b').
Qed.
End preparation.

(** ** Whole or not at all *)

(** The destination and what a crash may find there stay. *)
Record still (dst : Path) (fs fs' : FileSystem) : Prop := {
  st_name : names fs' !! dst = names fs !! dst;
  st_stale : stale_at dst fs' = stale_at dst fs;
  st_files f : reaches dst fs f → contents fs' !! f = contents fs !! f ∧ (f ∈ durable fs → f ∈ durable fs');
}.

#[export] Instance still_preorder dst : PreOrder (still dst).
Proof.
  split; [by split; auto|]. intros x y z [Hn Hs Hf] [Hn' Hs' Hf']. split; [congruence..|].
  intros f Hx. destruct (Hf f Hx) as [Hc Hd].
  assert (reaches dst y f) as Hy by by apply (reaches_place dst x y).
  destruct (Hf' f Hy) as [Hc' Hd']. split; [congruence|auto].
Qed.

Definition anything (_ _ : FileSystem) : Prop := True.
#[export] Instance anything_refl : Reflexive anything.
Proof. done. Qed.

Lemma own_step_still dst me fs fs' : ready dst me fs → own_step dst me fs fs' → still dst fs fs' ∧ anything fs fs'.
Proof.
  intros [Hn Hr] [_ [Hp Hs] _ Hf _ _]. split; [|done]. split; [done..|]. intros f Hreach.
  apply Hf; [by apply Hr|by eapply reaches_named].
Qed.

Lemma sync_parent_stale p dst fs : stale_at dst fs = [] ∨ parent dst = p →
  stale_at dst (mkFileSystem (folders fs) (names fs) (filter (λ e, parent e.1 ≠ p) (stale fs)) (contents fs) (durable fs)
    (owners fs)) = [].
Proof.
  intros Hs. fields. destruct (filter _ (stale fs) !! dst) as [l|] eqn:Hl; [|done].
  apply map_lookup_filter_Some in Hl as [Hl Hne]. destruct Hs as [Hs|Hs]; [by rewrite Hl in Hs|by cbn in Hne].
Qed.

Section atomicity.
Context `{!Hex} (dst : Path) (me : Z) (content : bytes) (mode : PublishMode) (fs0 : FileSystem).
Context (Hnamed : named fs0) (Hnew : ∀ f, owners fs0 !! f ≠ Some me).
Context (Hsettled : stale_at dst fs0 = []) (Hdurable : ∀ f, names fs0 !! dst = Some f → f ∈ durable fs0).
Abbreviation D := (still dst).
Abbreviation G := anything.
Abbreviation sp := (spec dst me D G).
Abbreviation base := (base dst me D fs0).
Abbreviation holding := (holding dst me D fs0).

(** The file is in place; a crash may still bring the old one back. *)
Record published (fs : FileSystem) : Prop := {
  pb_file : ∃ f, names fs !! dst = Some f ∧ contents fs !! f = Some content ∧ f ∈ durable fs;
  pb_stale o : o ∈ stale_at dst fs → o = names fs0 !! dst;
  pb_old g : names fs0 !! dst = Some g → names fs0 !! dst ∈ stale_at dst fs →
    g ∈ durable fs ∧ contents fs !! g = contents fs0 !! g;
  pb_absent : mode = IfAbsent → names fs0 !! dst = None;
}.

Lemma published_still fs fs' : published fs → still dst fs fs' → published fs'.
Proof.
  intros [(f & Hn & Hc & Hd) Hs Ho Ha] [Hn' Hs' Hf']. destruct (Hf' f) as [Hc' Hd']; [by left|]. split.
  - exists f. split_and!; [congruence|congruence|auto].
  - intros o. rewrite Hs'. apply Hs.
  - intros g Hg Hin. rewrite Hs' in Hin. destruct (Ho g Hg Hin) as [Hgd Hgc]. rewrite Hg in Hin.
    destruct (Hf' g) as [Hgc' Hgd']; [by right|]. split; [auto|congruence].
  - done.
Qed.

Lemma base_crash fs fs' : base fs → crashed fs fs' → found dst fs' = found dst fs0.
Proof.
  intros [[Hn Hs Hf] _] [Hcn Hcc]. specialize (Hcn dst). rewrite Hs, Hsettled, list_elem_of_singleton, Hn in Hcn.
  unfold found. rewrite Hcn. destruct (names fs0 !! dst) as [f|] eqn:Hd; [|done]. cbn.
  destruct (Hf f) as [Hc Hdf]; [by left|]. rewrite Hcc; [done|auto].
Qed.

Lemma published_crash fs fs' :
  published fs → crashed fs fs' →
  found dst fs' = found dst fs0 ∨ (found dst fs' = Some content ∧ (mode = IfAbsent → found dst fs0 = None)).
Proof.
  intros [(f & Hn & Hc & Hd) Hs Ho Ha] [Hcn Hcc]. specialize (Hcn dst). apply elem_of_cons in Hcn as [Hcn|Hcn].
  - right. unfold found. rewrite Hcn, Hn. cbn. rewrite Hcc by done. split; [done|]. intros ->. by rewrite Ha.
  - left. unfold found. pose proof (Hs _ Hcn) as Heq. rewrite Heq. destruct (names fs0 !! dst) as [g|] eqn:Hg; [|done].
    cbn. rewrite Heq in Hcn. destruct (Ho g eq_refl Hcn) as [Hgd <-]. by apply Hcc.
Qed.

Lemma finished_crash fs fs' :
  published fs → stale_at dst fs = [] → crashed fs fs' → found dst fs' = Some content.
Proof.
  intros [(f & Hn & Hc & Hd) _ _ _] Hs [Hcn Hcc]. specialize (Hcn dst). rewrite Hs, list_elem_of_singleton in Hcn.
  unfold found. rewrite Hcn, Hn. cbn. by rewrite Hcc.
Qed.

Lemma base_place fs : base fs → names fs !! dst = names fs0 !! dst ∧ stale_at dst fs = [] ∧
  ∀ g, names fs0 !! dst = Some g → g ∈ durable fs ∧ contents fs !! g = contents fs0 !! g.
Proof.
  intros [[Hn Hs Hf] _]. rewrite Hs. split_and!; [done..|]. intros g Hg. destruct (Hf g) as [Hc Hd]; [by left|]. auto.
Qed.

(** Putting the prepared file in place makes it published. *)
Lemma place_published p f fs :
  holding p f content fs → f ∈ durable fs → (mode = IfAbsent → names fs !! dst = None) →
  published (set_name dst (Some f) fs).
Proof.
  intros [Hb Hne Hp Ho Hc] Hd Ha. destruct (base_place _ Hb) as (Hn & Hs & Hold). split.
  - exists f. fields. by rewrite lookup_name, decide_True.
  - intros o. fields. rewrite lookup_insert_eq, Hs, Hn. cbn. by rewrite list_elem_of_singleton.
  - intros g Hg _. by apply Hold.
  - intros Hm. by rewrite <- Hn, Ha.
Qed.

Lemma published_unlink p fs : p ≠ dst → published fs → published (set_name p None fs).
Proof.
  intros Hne Hpub. eapply published_still; [exact Hpub|]. split; [| |by auto].
  - fields. by rewrite lookup_name, decide_False.
  - fields. by rewrite lookup_insert_ne.
Qed.

Lemma replace_spec p f :
  mode = Replace →
  sp (λ fs, holding p f content fs ∧ f ∈ durable fs)
    (try_or (replace p dst) (λ error, let! _ := ignore (remove_temp p) in raise error))
    (λ _, published) (λ _, base).
Proof.
  intros Hm. eapply (spec_try _ _ _ _ _ _ _ _ (λ _, holding p f content)).
  - apply spec_call_nothing; [apply _..|]. intros fs1 fs [Hh Hd] Hc HD.
    assert (f ∈ durable fs) as Hd' by (by apply (co_files _ _ _ _ Hc f (hd_owner _ _ _ _ _ _ _ _ Hh))).
    pose proof (holding_stable dst me D fs0 _ _ _ _ _ Hh Hc HD) as Hh'. split; [done|].
    unfold os_rename. rewrite (hd_name _ _ _ _ _ _ _ _ Hh'), decide_False by by eapply hd_apart. split; [done|].
    apply published_unlink; [by eapply hd_apart|]. eapply place_published; [done..|]. by rewrite Hm.
  - intros e. eapply (spec_bind _ _ _ _ _ _ _ (λ _, base)); [|intros ?; apply (spec_raise _ _ _ _ _ _ (λ _, base))].
    apply remove_spec; [apply _..|apply own_step_still].
Qed.

Lemma published_sync : sp published (sync_parent (parent dst)) (λ _ fs, published fs ∧ stale_at dst fs = []) (λ _, published).
Proof.
  apply spec_call_nothing; [apply _..|]. intros fs1 fs Hp Hc HD. pose proof (published_still _ _ Hp HD) as Hp'.
  split; [done|]. cbn. split; [done|]. pose proof (sync_parent_stale (parent dst) dst fs (or_intror eq_refl)) as Hs.
  split; [|done]. destruct Hp' as [Hf Hst Ho Ha]. split; [done| | |done]; rewrite Hs; [by intros o ?%elem_of_nil|].
  by intros g Hg ?%elem_of_nil.
Qed.

Lemma base_sync : sp base (sync_parent (parent dst)) (λ _, base) (λ _, base).
Proof.
  apply spec_call_nothing; [apply _..|]. intros fs1 fs Hb Hc HD.
  pose proof (base_stable dst me D fs0 _ _ Hb Hc HD) as Hb'. split; [done|]. cbn. split; [done|].
  destruct (base_place _ Hb') as (_ & Hs & _). destruct Hb' as [Hd Hr].
  pose proof (sync_parent_stale (parent dst) dst fs (or_introl Hs)) as Hs'. split.
  - etrans; [exact Hd|]. split; [done| |auto]. by rewrite Hs', Hs.
  - destruct Hr as [[Hn Hst Ho] Hr]. split.
    + split; [done| |done]. intros q g. fields. destruct (filter _ (stale fs) !! q) as [l|] eqn:Hl; cbn;
        [|by intros ?%elem_of_nil]. apply map_lookup_filter_Some in Hl as [Hl _]. intros Hg. apply (Hst q).
      by rewrite Hl.
    + intros g [Hg|Hg]; [by apply Hr; left|]. by rewrite Hs' in Hg; apply elem_of_nil in Hg.
Qed.

Lemma published_remove p : p ≠ dst → sp published (remove_temp p) (λ _, published) (λ _, published).
Proof.
  intros Hne. apply spec_call_nothing; [apply _..|]. intros fs1 fs Hp Hc HD.
  pose proof (published_still _ _ Hp HD) as Hp'. split; [done|]. unfold os_remove_file.
  destruct (names fs !! p); [|done]. split; [done|]. by apply published_unlink.
Qed.

(** What a run leaves: nothing new, or the file in place. *)
Definition left_over (fs : FileSystem) : Prop := base fs ∨ published fs.
Definition outcome (r : PrivateFileCreate) (fs : FileSystem) : Prop :=
  match r with
  | Created => published fs ∧ stale_at dst fs = []
  | AlreadyExists => base fs ∧ is_Some (names fs0 !! dst) ∧ mode = IfAbsent
  end.

Lemma linked_spec p f :
  mode = IfAbsent →
  sp (λ fs, holding p f content fs ∧ f ∈ durable fs) (link_if_absent p dst) (λ _ fs, published fs ∧ p ≠ dst)
    (λ e fs, holding p f content fs ∧ (e = IoAlreadyExists → is_Some (names fs0 !! dst))).
Proof.
  intros Hm. apply spec_call_nothing; [apply _..|]. intros fs1 fs [Hh Hd] Hc HD.
  assert (f ∈ durable fs) as Hd' by (by apply (co_files _ _ _ _ Hc f (hd_owner _ _ _ _ _ _ _ _ Hh))).
  pose proof (holding_stable dst me D fs0 _ _ _ _ _ Hh Hc HD) as Hh'. split; [done|].
  unfold os_hard_link. rewrite (hd_name _ _ _ _ _ _ _ _ Hh').
  destruct (base_place _ (hd_base _ _ _ _ _ _ _ _ Hh')) as (Hn & _). destruct (names fs !! dst) as [g|] eqn:Hg.
  - split; [done|]. rewrite <- Hn. eauto.
  - split; [done|]. split; [|by eapply hd_apart]. by eapply place_published.
Qed.
Lemma unlinked_spec p f (e : IoFailure) :
  sp (holding p f content) (let! _ := ignore (remove_temp p) in raise e) outcome (λ _, left_over).
Proof.
  eapply (spec_bind _ _ _ _ _ _ _ (λ _, base)); [apply remove_spec; [apply _..|apply own_step_still]|].
  intros ? w Hw Hb. split; [done|]. by left.
Qed.

Lemma publish_if_absent_spec p f :
  mode = IfAbsent →
  sp (λ fs, holding p f content fs ∧ f ∈ durable fs) (publish_if_absent p dst) outcome (λ _, left_over).
Proof.
  intros Hm. eapply (spec_bind _ _ _ _ _ _ _
    (λ r fs, p ≠ dst ∧ match r with Created => published fs ∧ stale_at dst fs = []
                     | AlreadyExists => holding p f content fs ∧ is_Some (names fs0 !! dst) end)).
  - intros w Hw HP. pose proof (linked_spec p f Hm w Hw HP) as Hl. unfold wp in Hl |- *.
    destruct (link_if_absent p dst w) as [w1 [[]|[| |what]]].
    + destruct Hl as [Hw1 [Hp Hne]]. assert (sp published (try_or (let! _ := sync_parent (parent dst) in ret Created)
        (λ error, let! _ := ignore (remove_temp p) in raise error))
        (λ r fs, p ≠ dst ∧ match r with Created => published fs ∧ stale_at dst fs = []
                     | AlreadyExists => holding p f content fs ∧ is_Some (names fs0 !! dst) end) (λ _, left_over)) as Hs.
      { eapply (spec_try _ _ _ _ _ _ _ _ (λ _, published)).
        - eapply spec_bind; [apply published_sync|]. intros ? w2 Hw2 Hp2. done.
        - intros e. eapply (spec_bind _ _ _ _ _ _ _ (λ _, published)); [by apply spec_ignore, published_remove|].
          intros ? w2 Hw2 Hp2. split; [done|]. by right. }
      apply (Hs w1 Hw1 Hp).
    + destruct Hl as (Hw1 & Hh & _). pose proof (unlinked_spec p f IoNotFound w1 Hw1 Hh) as Hu. unfold wp in Hu.
      unfold bind, raise, ignore in Hu |- *. by destruct (remove_temp p w1).
    + destruct Hl as (Hw1 & Hh & He). split; [done|]. split; [by eapply hd_apart|]. split; [done|by apply He].
    + destruct Hl as (Hw1 & Hh & _). pose proof (unlinked_spec p f (IoOther what) w1 Hw1 Hh) as Hu. unfold wp in Hu.
      unfold bind, raise, ignore in Hu |- *. by destruct (remove_temp p w1).
  - intros [].
    + (* the name of the temporary file is removed, and the directory synced again *)
      eapply (spec_bind _ _ _ _ _ _ _ (λ _, published)).
      * intros w Hw [Hne [Hp _]]. eapply wp_mono; [by apply published_remove|done|]. intros e w' [Hw' Hp']. split; [done|by right].
      * intros ?. eapply (spec_bind _ _ _ _ _ _ _ (λ _ fs, published fs ∧ stale_at dst fs = [])); [eapply spec_conseq; [apply published_sync|done|done|intros e fs Hb; by right]|].
        intros ? w Hw Hp. done.
    + eapply (spec_bind _ _ _ _ _ _ _ (λ _ fs, base fs ∧ is_Some (names fs0 !! dst))).
      * intros w Hw [Hne [Hh Hs]]. eapply wp_mono; [|intros ? w' Hx; exact Hx|].
        -- apply (spec_call_nothing dst me D G (holding p f content) (os_remove_file p)
             (λ _ fs, base fs ∧ is_Some (names fs0 !! dst)) (λ _, base)); [apply _..| |done|done].
           intros fs1 fs Hh1 Hc HD. pose proof (holding_stable dst me D fs0 _ _ _ _ _ Hh1 Hc HD) as [Hb Hne' Hp Ho Hcon].
           split; [done|]. unfold os_remove_file. rewrite Hp.
           destruct (base_own dst me D G (own_step_still dst me) fs0 fs (set_name p None fs) Hb) as [Hg Hb'];
             [by eapply own_step_remove|]. done.
        -- intros e w' [Hw' Hb]. split; [done|by left].
      * intros ?. eapply (spec_bind _ _ _ _ _ _ _ (λ _ fs, base fs ∧ is_Some (names fs0 !! dst))).
        -- intros w Hw [Hb Hs]. eapply wp_mono; [by apply base_sync|..]; cbn; [intros ? w' [? ?]; done|].
           intros e w' [Hw' Hb']. split; [done|by left].
        -- intros ? w Hw [Hb Hs]. split; [done|]. by split_and!.
Qed.

Lemma publish_spec mode' :
  mode' = mode → sp base (publish_private_file me dst content mode') outcome (λ _, left_over).
Proof.
  intros Hm.
  assert (∀ (e : IoFailure) fs, base fs → left_over fs) as Hl by (intros e fs Hb; by left).
  assert (∀ (e : IoFailure) fs, published fs → left_over fs) as Hl' by (intros e fs Hb; by right).
  eapply (spec_bind _ _ _ _ _ _ _ (λ _, base));
    [eapply spec_conseq; [apply create_parent_spec; [apply _..|apply own_step_still]|done..|apply Hl]|]. intros ?.
  eapply (spec_bind _ _ _ _ _ _ _ (λ t, holding t.1 t.2 ""));
    [eapply spec_conseq; [apply create_temporary_spec; [apply _..|apply own_step_still]|done..|apply Hl]|]. intros [p f].
  eapply (spec_bind _ _ _ _ _ _ _ (λ _ fs, holding p f content fs ∧ f ∈ durable fs));
    [eapply spec_conseq; [apply written_spec; [apply _..|apply own_step_still]|done..|apply Hl]|]. intros ?.
  destruct mode'; [|by apply publish_if_absent_spec].
  eapply (spec_bind _ _ _ _ _ _ _ (λ _, published));
    [eapply spec_conseq; [by apply (replace_spec p f)|done|done|apply Hl]|]. intros ?.
  eapply (spec_bind _ _ _ _ _ _ _ (λ _ fs, published fs ∧ stale_at dst fs = [])); [eapply spec_conseq; [apply published_sync|done|done|apply Hl']|]. intros ? w Hw Hp. done.
Qed.
End atomicity.


(** ** One winner *)

(** A file that is in place stays. *)
Definition decided (dst : Path) (fs fs' : FileSystem) : Prop :=
  ∀ f b, names fs !! dst = Some f → contents fs !! f = Some b → names fs' !! dst = Some f ∧ contents fs' !! f = Some b.

#[export] Instance decided_preorder dst : PreOrder (decided dst).
Proof.
  split; [by intros fs f b|]. intros x y z Hxy Hyz f b Hn Hc. destruct (Hxy f b Hn Hc). by apply Hyz.
Qed.

(** What a process guarantees to every other. *)
Definition polite (dst : Path) (me : Z) (fs fs' : FileSystem) : Prop :=
  ∀ o, o ≠ me → courteous dst o fs fs' ∧ decided dst fs fs'.

#[export] Instance polite_refl dst me : Reflexive (polite dst me).
Proof. by intros fs o Ho. Qed.

Lemma own_step_decided dst me fs fs' : ready dst me fs → own_step dst me fs fs' → decided dst fs fs'.
Proof.
  intros [Hn Hr] [_ [Hp _] _ Hf _ _] f b Hname Hc. split; [congruence|].
  destruct (Hf f) as (_ & -> & _); [by apply Hr; left|eauto|done].
Qed.

Lemma own_step_polite dst me fs fs' :
  ready dst me fs → own_step dst me fs fs' → decided dst fs fs' ∧ polite dst me fs fs'.
Proof.
  intros Hready Hstep. pose proof (own_step_decided _ _ _ _ Hready Hstep) as Hdec. split; [done|]. intros o Ho.
  split; [|done]. destruct Hready as [Hn Hr], Hstep as [Hn' [Hp Hs] Hnm Hf Hm Hno]. split; [done|..].
  - intros f Hof. destruct (Hf f) as (-> & -> & Hd); [congruence|apply (named_owners _ Hn); eauto|done].
  - intros p f _ Hpf Hof. apply Hnm; [done|congruence].
  - intros f Hof. destruct (owners fs !! f) as [x|] eqn:Hx.
    + destruct (decide (x = me)) as [->|Hne]; [rewrite (Hm f Hx) in Hof; congruence|].
      destruct (Hf f) as (Heq & _); [congruence|apply (named_owners _ Hn); eauto|congruence].
    + destruct (contents fs !! f) as [c|] eqn:Hc.
      * destruct (Hf f) as (Heq & _); [congruence|eauto|congruence].
      * destruct (Hno f Hx Hc); congruence.
  - intros f Hreach _. by apply (reaches_place dst fs fs').
Qed.

Lemma polite_link dst me f fs :
  names fs !! dst = None → owners fs !! f = Some me → is_Some (contents fs !! f) →
  polite dst me fs (set_name dst (Some f) fs).
Proof.
  intros Hd Ho Hc o Hne. split; [|intros g b Hg; congruence]. split; fields; [|done|..|done|].
  - intros [Hn Hs Hw]. split; fields; [|..|done].
    + intros p g. rewrite lookup_name. case_decide; [by intros [= <-]|apply Hn].
    + intros p g. rewrite lookup_insert. case_decide; [|apply Hs]. subst p. cbn. rewrite elem_of_app, list_elem_of_singleton.
      intros [Hg|Hg]; [by apply (Hs dst)|congruence].
  - intros p g Hp Hg _. by rewrite lookup_name, decide_False.
  - intros g [Hg|Hg] Hog; fields.
    + rewrite lookup_name, decide_True in Hg by done. congruence.
    + right. fields. rewrite lookup_insert_eq in Hg. cbn in Hg. rewrite elem_of_app, list_elem_of_singleton in Hg.
      destruct Hg as [Hg|Hg]; [done|congruence].
Qed.

Lemma named_unlink p fs : named fs → named (set_name p None fs).
Proof.
  intros [Hn Hs Hw]. split; fields; [|..|done].
  - intros q g. rewrite lookup_name. case_decide; [done|apply Hn].
  - intros q g. rewrite lookup_insert. case_decide; [|apply Hs]. subst q. cbn. rewrite elem_of_app, list_elem_of_singleton.
    intros [Hg|Hg]; [by apply (Hs p)|by eapply Hn].
Qed.

Lemma polite_unlink dst me p f fs :
  p ≠ dst → names fs !! p = Some f → owners fs !! f = Some me → polite dst me fs (set_name p None fs).
Proof.
  intros Hne Hp Ho o Hneo. split.
  - split; [apply named_unlink|done|..|done|].
    + intros q g Hq Hg Hog. fields. rewrite lookup_name, decide_False; [done|]. intros ->. congruence.
    + intros g Hg _. apply (reaches_place dst fs (set_name p None fs)); [..|done]; fields;
        [by rewrite lookup_name, decide_False|by rewrite lookup_insert_ne].
  - intros g b Hg Hb. fields. by rewrite lookup_name, decide_False.
Qed.

Definition synced_parent (p : Path) (fs : FileSystem) : FileSystem :=
  mkFileSystem (folders fs) (names fs) (filter (λ e, parent e.1 ≠ p) (stale fs)) (contents fs) (durable fs) (owners fs).

Lemma synced_reaches q p fs g : reaches q (synced_parent p fs) g → reaches q fs g.
Proof.
  intros [Hg|Hg]; [by left|]. right. unfold synced_parent in Hg. fields.
  destruct (filter _ (stale fs) !! q) as [l|] eqn:Hl; cbn in Hg; [|by apply elem_of_nil in Hg].
  apply map_lookup_filter_Some in Hl as [-> _]. done.
Qed.

Lemma named_synced p fs : named fs → named (synced_parent p fs).
Proof.
  intros Hn. split; [apply Hn| |apply Hn]. intros q g Hg. apply (reaches_named q fs); [done|]. apply (synced_reaches q p).
  by right.
Qed.

Lemma polite_sync dst me p fs : polite dst me fs (synced_parent p fs).
Proof.
  intros o Ho. split; [|by intros g b]. split; [apply named_synced|done..|]. intros g Hg _. by eapply synced_reaches.
Qed.

Section winner.
Context `{!Crypto, !CryptoLaws} `{!Hex} (dst : Path) (me : Z) (fs0 : FileSystem).
Abbreviation D := (decided dst).
Abbreviation G := (polite dst me).
Abbreviation sp := (spec dst me D G).
Abbreviation base := (base dst me D fs0).
Abbreviation holding := (holding dst me D fs0).

(** The file in place reads as [i]. *)
Definition chosen (i : NodeIdentity) (fs : FileSystem) : Prop :=
  named fs ∧ ∃ f b, names fs !! dst = Some f ∧ contents fs !! f = Some b ∧ decode b = Ok i.

Definition won (content : bytes) (fs : FileSystem) : Prop :=
  named fs ∧ ∃ f, names fs !! dst = Some f ∧ contents fs !! f = Some content.

Definition linked (p : Path) (content : bytes) (fs : FileSystem) : Prop :=
  won content fs ∧ p ≠ dst ∧ ∃ f, names fs !! p = Some f ∧ owners fs !! f = Some me.

Lemma won_stable c fs fs' : won c fs → courteous dst me fs fs' → D fs fs' → won c fs'.
Proof. intros [Hn (f & Hf & Hc)] Hco HD. split; [by apply (co_named _ _ _ _ Hco)|]. exists f. by apply HD. Qed.

Lemma linked_stable p c fs fs' : linked p c fs → courteous dst me fs fs' → D fs fs' → linked p c fs'.
Proof.
  intros (Hw & Hne & f & Hf & Ho) Hco HD. split_and!; [by eapply won_stable|done|]. exists f.
  split; [by eapply co_names|by eapply co_files].
Qed.

Lemma won_sync c p : sp (won c) (sync_parent p) (λ _, won c) (λ _, won c).
Proof.
  apply spec_call_nothing; [apply _..|]. intros fs1 fs Hw Hc HD. pose proof (won_stable _ _ _ Hw Hc HD) as [Hn Hf].
  split; [done|]. cbn. split; [apply polite_sync|]. split; [by apply named_synced|done].
Qed.

Lemma linked_sync c p q : sp (linked p c) (sync_parent q) (λ _, linked p c) (λ _, linked p c).
Proof.
  apply spec_call_nothing; [apply _..|]. intros fs1 fs Hw Hc HD. pose proof (linked_stable _ _ _ _ Hw Hc HD) as Hl.
  split; [done|]. cbn. split; [apply polite_sync|]. destruct Hl as ((Hn & Hf) & Hne & Hp).
  split_and!; [|done|done]. split; [by apply named_synced|done].
Qed.

Lemma linked_remove c p : sp (linked p c) (remove_temp p) (λ _, won c) (λ _, won c).
Proof.
  apply spec_call_nothing; [apply _..|]. intros fs1 fs Hw Hc HD.
  pose proof (linked_stable _ _ _ _ Hw Hc HD) as ([Hn (g & Hg & Hgc)] & Hne & f & Hf & Ho).
  split; [by split; eauto|]. unfold os_remove_file. rewrite Hf. split; [by eapply polite_unlink|].
  split; [by apply named_unlink|]. exists g. fields. by rewrite lookup_name, decide_False.
Qed.

Lemma link_spec p f c :
  sp (λ fs, holding p f c fs ∧ f ∈ durable fs) (link_if_absent p dst) (λ _, linked p c) (λ _, holding p f c).
Proof.
  apply spec_call_nothing; [apply _..|]. intros fs1 fs [Hh _] Hc HD.
  pose proof (holding_stable dst me D fs0 _ _ _ _ _ Hh Hc HD) as Hh'. split; [done|]. unfold os_hard_link.
  pose proof Hh' as [[_ [Hn _]] Hne Hp Ho Hcon]. rewrite Hp. destruct (names fs !! dst) as [g|] eqn:Hg; [done|].
  assert (G fs (set_name dst (Some f) fs)) as HG by (apply polite_link; eauto). split; [done|].
  split_and!; [|done|].
  - split; [by apply (co_named _ _ _ _ (proj1 (HG (me + 1) ltac:(lia))))|]. exists f. fields.
    by rewrite lookup_name, decide_True.
  - exists f. fields. by rewrite lookup_name, decide_False.
Qed.

Lemma base_sync_polite p : sp base (sync_parent p) (λ _, base) (λ _, base).
Proof.
  apply spec_call_nothing; [apply _..|]. intros fs1 fs Hb Hc HD.
  pose proof (base_stable dst me D fs0 _ _ Hb Hc HD) as Hb'. split; [done|]. cbn. split; [apply polite_sync|].
  destruct Hb' as [Hd [Hn Hr]]. split; [done|]. split; [by apply named_synced|]. intros g Hg. by apply Hr, (synced_reaches _ p).
Qed.

Lemma remove_held p f c : sp (holding p f c) (remove_temp p) (λ _, base) (λ _, base).
Proof.
  apply spec_call_nothing; [apply _..|]. intros fs1 fs Hh Hc HD.
  pose proof (holding_stable dst me D fs0 _ _ _ _ _ Hh Hc HD) as [Hb Hne Hp Ho Hcon]. split; [done|].
  unfold os_remove_file. rewrite Hp. apply (base_own dst me D G (own_step_polite dst me)); [done|].
  by eapply own_step_remove.
Qed.
Abbreviation any := (λ (_ : IoFailure) (_ : FileSystem), True).

Lemma spec_any {E A} P (m : M Process E A) Q F : sp P m Q F → sp P m Q (λ _ _, True).
Proof. intros Hm. by eapply spec_conseq; [exact Hm|..]. Qed.

Lemma failed_spec {A} P (m : M Process IoFailure ()) (e : IoFailure) (Q : A → FileSystem → Prop) R :
  sp P m (λ _, R) (λ _, R) → sp P (let! _ := ignore m in raise e) Q any.
Proof.
  intros Hm. eapply (spec_bind _ _ _ _ _ _ _ (λ _, R)); [by apply spec_ignore|]. by intros ? w Hw Hr.
Qed.

(** Created: the file is the one prepared. Found: nothing of the process is in place. *)
Lemma publish_if_absent_winner p f c :
  sp (λ fs, holding p f c fs ∧ f ∈ durable fs) (publish_if_absent p dst)
    (λ r, match r with Created => won c | AlreadyExists => base end) any.
Proof.
  eapply (spec_bind _ _ _ _ _ _ _ (λ r, match r with Created => linked p c | AlreadyExists => holding p f c end)).
  - intros w Hw HP. pose proof (link_spec p f c w Hw HP) as Hl. unfold wp in Hl.
    set (Q := λ r, match r with Created => linked p c | AlreadyExists => holding p f c end) in *.
    assert (∀ e, sp (holding p f c) (let! _ := ignore (remove_temp p) in raise e) Q any) as Hfail
      by (intros e; eapply (failed_spec _ _ _ _ base), remove_held).
    assert (sp (linked p c) (try_or (let! _ := sync_parent (parent dst) in ret Created)
      (λ error, let! _ := ignore (remove_temp p) in raise error)) Q any) as Hsync.
    { eapply (spec_try _ _ _ _ _ _ _ _ (λ _, linked p c)).
      - eapply (spec_bind _ _ _ _ _ _ _ (λ _, linked p c)); [apply linked_sync|]. by intros ? w2 Hw2 Hp2.
      - intros e. eapply (failed_spec _ _ _ _ (won c)), linked_remove. }
    unfold wp. destruct (link_if_absent p dst w) as [w1 [[]|[| |what]]]; destruct Hl as [Hw1 Hl].
    + exact (Hsync w1 Hw1 Hl).
    + exact (Hfail IoNotFound w1 Hw1 Hl).
    + done.
    + exact (Hfail (IoOther what) w1 Hw1 Hl).
  - intros [].
    + eapply (spec_bind _ _ _ _ _ _ _ (λ _, won c)); [eapply spec_any, linked_remove|]. intros ?.
      eapply (spec_bind _ _ _ _ _ _ _ (λ _, won c)); [eapply spec_any, won_sync|]. by intros ? w Hw Hp.
    + eapply (spec_bind _ _ _ _ _ _ _ (λ _, base)); [eapply spec_any, remove_held|]. intros ?.
      eapply (spec_bind _ _ _ _ _ _ _ (λ _, base)); [eapply spec_any, base_sync_polite|]. by intros ? w Hw Hp.
Qed.

Lemma create_winner c :
  sp base (write_private_file_if_absent me dst c)
    (λ r, match r with Created => won c | AlreadyExists => base end) any.
Proof.
  pose proof (own_step_polite dst me) as Hown.
  eapply (spec_bind _ _ _ _ _ _ _ (λ _, base)); [eapply spec_any, create_parent_spec; [apply _..|done]|]. intros ?.
  eapply (spec_bind _ _ _ _ _ _ _ (λ t, holding t.1 t.2 ""));
    [eapply spec_any, create_temporary_spec; [apply _..|done]|]. intros [p f].
  eapply (spec_bind _ _ _ _ _ _ _ (λ _ fs, holding p f c fs ∧ f ∈ durable fs));
    [eapply spec_any, written_spec; [apply _..|done]|]. intros ?. apply publish_if_absent_winner.
Qed.

Lemma load_spec : sp base (load dst) chosen (λ _, base).
Proof.
  eapply (spec_bind _ _ _ _ _ _ _ (λ b fs, base fs ∧ ∃ f, names fs !! dst = Some f ∧ contents fs !! f = Some b)).
  - apply spec_with_err, spec_call_nothing; [apply _..|]. intros fs1 fs Hb Hc HD.
    pose proof (base_stable dst me D fs0 _ _ Hb Hc HD) as Hb'. split; [done|]. unfold os_read, found.
    destruct (names fs !! dst) as [f|] eqn:Hname; [|done]. cbn. destruct (contents fs !! f) as [b|] eqn:Hf; [|done].
    split; [done|]. split; [done|by exists f].
  - intros b w Hw [Hb (f & Hf & Hc)]. rewrite wp_lift. destruct (decode b) as [i|e] eqn:Hd; [|done].
    split; [done|]. split; [apply Hb|]. by exists f, b.
Qed.

Lemma publish_candidate_spec i :
  wf_identity i → sp base (publish_candidate me dst i) (λ r, chosen r.1) (λ _ _, True).
Proof.
  intros Hi. unfold publish_candidate. destruct (encode_document i) as [document|e] eqn:Hdoc; [|by intros w].
  eapply (spec_bind _ _ _ _ _ _ _ (λ d fs, d = document ∧ base fs)); [by intros w Hw Hb|]. intros d.
  eapply (spec_bind _ _ _ _ _ _ _ (λ r, match r with Created => won document | AlreadyExists => base end)).
  - intros w Hw [-> Hb]. by apply (spec_with_err _ _ _ _ _ _ _ _ (λ _ _, True) (create_winner document)).
  - intros r. eapply (spec_bind _ _ _ _ _ _ _ chosen); [|by intros j w Hw Hj].
    destruct r; [|eapply spec_any, load_spec]. intros w Hw [Hn (f & Hf & Hc)]. split; [done|]. split; [done|].
    exists f, document. split_and!; [done..|]. by apply (identity_document_round_trip i document Hdoc).
Qed.

Lemma load_or_generate_spec kp : sp base (load_or_generate me kp dst) chosen (λ _ _, True).
Proof.
  intros w Hw Hb. pose proof (load_spec w Hw Hb) as Hl. unfold wp in Hl.
  assert (sp base (let! r := publish_candidate me dst (generate kp) in ret r.1) chosen (λ _ _, True)) as Hpub.
  { eapply (spec_bind _ _ _ _ _ _ _ (λ r, chosen r.1)); [apply publish_candidate_spec, wf_generate|].
    by intros r w2 Hw2 Hr. }
  unfold wp, load_or_generate. destruct (load dst w) as [w1 [i|e]]; [done|]. destruct Hl as [Hw1 Hb1].
  destruct e as [| | | | |[]]; try done. exact (Hpub w1 Hw1 Hb1).
Qed.
End winner.

(** C10: Processes that start on one data directory agree on who they are. Two
    runs of [load_or_generate] on one path, with other processes acting between
    any two of their calls and any call failing, each keep what the other relies
    on (what it owns, and a file once in place); and if both return an identity,
    it is the same one, the one the file in place holds, whichever of them
    created it. *)
Theorem identity_agreed `{!Crypto, !CryptoLaws} `{!Hex} dst a b kpa kpb wa wb wa' wb' ra rb :
  a ≠ b →
  (∀ o w, (o, w) ∈ [(a, wa); (b, wb)] →
    named (files w) ∧ (∀ f, owners (files w) !! f ≠ Some o) ∧ deeds w = [] ∧
    Forall (λ t, ∀ fs, courteous dst o fs (others t fs) ∧ decided dst fs (others t fs)) (script w)) →
  load_or_generate a kpa dst wa = (wa', ra) → load_or_generate b kpb dst wb = (wb', rb) →
  (∀ d, d ∈ deeds wa' → courteous dst b d.1 d.2 ∧ decided dst d.1 d.2) ∧
  (∀ d, d ∈ deeds wb' → courteous dst a d.1 d.2 ∧ decided dst d.1 d.2) ∧
  ∀ i j, ra = Ok i → rb = Ok j →
    decided dst (files wa') (files wb') ∨ decided dst (files wb') (files wa') →
    i = j ∧ ∃ document, found dst (files wb') = Some document ∧ decode document = Ok i.
Proof.
  intros Hab Hstart Ha Hb.
  assert (∀ o kp w w' r, (o, w) ∈ [(a, wa); (b, wb)] → load_or_generate o kp dst w = (w', r) →
    Forall (λ d, polite dst o d.1 d.2) (deeds w') ∧ ∀ i, r = Ok i → chosen dst i (files w')) as Hrun.
  { intros o kp w w' r Hin Hr. destruct (Hstart o w Hin) as (Hn & Hnew & Hd & Hs).
    assert (fair dst o (decided dst) (polite dst o) w) as Hw by (split; [done|by rewrite Hd]).
    pose proof (load_or_generate_spec dst o (files w) kp w Hw (conj (reflexivity _) (conj Hn (λ f _, Hnew f)))) as Hl.
    unfold wp in Hl. rewrite Hr in Hl. destruct r as [i|e]; destruct Hl as [[_ Hdeeds] Hl]; (split; [done|]);
      [by intros ? [= <-]|done]. }
  destruct (Hrun a kpa wa wa' ra ltac:(by left) Ha) as [Hda Hca].
  destruct (Hrun b kpb wb wb' rb ltac:(by right; left) Hb) as [Hdb Hcb]. rewrite Forall_forall in Hda, Hdb.
  split_and!; [intros d Hd; by apply Hda|intros d Hd; by apply Hdb|]. intros i j Hi Hj Horder.
  destruct (Hca i Hi) as [_ (f & c & Hf & Hc & Hdec)]. destruct (Hcb j Hj) as [_ (g & d & Hg & Hgc & Hdec')].
  assert (f = g ∧ c = d) as [<- <-].
  { destruct Horder as [Ho|Ho]; [destruct (Ho f c Hf Hc)|destruct (Ho g d Hg Hgc)]; simplify_eq; naive_solver. }
  split; [congruence|]. exists c. unfold found. by rewrite Hg.
Qed.

(** ** Instances *)

Section instances.
#[local] Existing Instance toy_crypto.
#[local] Existing Instance toy_crypto_laws.
#[local] Instance plain_hex : Hex := {| hex_encode := λ b, b; hex_decode := λ s, Ok s |}.

Definition some_path : Path := ["data"; "node.identity"].

(** An old file in place, synced. *)
Definition old_files : FileSystem :=
  mkFileSystem {[ ["data"] ]} {[some_path := 0%nat]} ∅ {[0%nat := "old"]} {[0%nat]} ∅.

Definition some_process (fs : FileSystem) : Process := mkProcess fs [] [Some "r"] [].

Lemma crashed_refl fs : crashed fs fs.
Proof. split; [intros p; by left|done]. Qed.

Lemma old_files_named : named old_files.
Proof.
  split; unfold old_files; fields.
  - intros p f (_ & <-)%lookup_singleton_Some. rewrite lookup_singleton_eq. eauto.
  - intros p f. rewrite lookup_empty. by intros ?%elem_of_nil.
  - intros f [x Hx]. by rewrite lookup_empty in Hx.
Qed.


Definition no_files : FileSystem := mkFileSystem ∅ ∅ ∅ ∅ ∅ ∅.
Definition first_run : Process * result NodeIdentity IdentityError :=
  load_or_generate 1 (toy_keypair "x") some_path (some_process no_files).
Definition second_run : Process * result NodeIdentity IdentityError :=
  load_or_generate 2 (toy_keypair "y") some_path (some_process (files first_run.1)).

Lemma no_files_named : named no_files.
Proof. split; unfold no_files; fields; [done|by intros p f ?%elem_of_nil|by intros f []]. Qed.

Lemma first_run_named : named (files first_run.1).
Proof.
  assert (fair some_path 1 (decided some_path) (polite some_path 1) (some_process no_files)) as Hw by done.
  assert (∀ f, reaches some_path no_files f → owners no_files !! f ≠ Some 1) as Hr by done.
  pose proof (load_or_generate_spec some_path 1 no_files (toy_keypair "x") _ Hw
    (conj (reflexivity _) (conj no_files_named Hr))) as Hl.
  unfold wp in Hl. change (load_or_generate 1 (toy_keypair "x") some_path (some_process no_files)) with first_run in Hl.
  destruct first_run as [w [i|e]] eqn:Hrun; [apply Hl|]. apply (f_equal snd) in Hrun. vm_compute in Hrun. congruence.
Qed.

Lemma first_run_owners f : owners (files first_run.1) !! f ≠ Some 2.
Proof.
  assert (bool_decide (map_Forall (λ _ o, o ≠ 2) (owners (files first_run.1))) = true) as Hall by (vm_compute; reflexivity).
  apply bool_decide_eq_true in Hall. intros Hf. by apply (Hall f 2 Hf).
Qed.

Lemma runs_succeed : is_ok first_run.2 = true ∧ is_ok second_run.2 = true.
Proof. split; vm_compute; reflexivity. Qed.

Lemma second_run_files : files second_run.1 = files first_run.1.
Proof. vm_compute. reflexivity. Qed.

Definition can_start (o : Z) (w : Process) : Prop :=
  named (files w) ∧ (∀ f, owners (files w) !! f ≠ Some o) ∧ deeds w = [] ∧
  Forall (λ t, ∀ fs, courteous some_path o fs (others t fs) ∧ decided some_path fs (others t fs)) (script w).

Lemma started o fs : named fs → (∀ f, owners fs !! f ≠ Some o) → can_start o (some_process fs).
Proof. intros Hn Ho. unfold can_start. split_and!; [exact Hn|exact Ho|done|constructor]. Qed.

Lemma two_started (P : Z → Process → Prop) a b wa wb :
  P a wa → P b wb → ∀ o w, (o, w) ∈ [(a, wa); (b, wb)] → P o w.
Proof. by intros Ha Hb o w [[= -> ->]|[[= -> ->]|[]%elem_of_nil]%elem_of_cons]%elem_of_cons. Qed.

Lemma identity_agreed_witness : ∃ i, first_run.2 = Ok i ∧ second_run.2 = Ok i.
Proof.
  destruct runs_succeed as [Ha Hb].
  assert (∀ r : result NodeIdentity IdentityError, is_ok r = true → ∃ i, r = Ok i) as Hok by (intros [i|e] Hr; [by exists i|done]).
  destruct (Hok _ Ha) as [i Hi], (Hok _ Hb) as [j Hj]. exists i. split; [done|].
  assert (i = j) as ->; [|done].
  refine (proj1 (proj2 (proj2 (identity_agreed some_path 1 2 (toy_keypair "x") (toy_keypair "y") (some_process no_files)
    (some_process (files first_run.1)) first_run.1 second_run.1 first_run.2 second_run.2 _ _ _ _)) i j Hi Hj _)).
  - done.
  - apply (two_started can_start); apply started;
      [apply no_files_named|by intros f Hf|apply first_run_named|apply first_run_owners].
  - unfold first_run. apply surjective_pairing.
  - unfold second_run. apply surjective_pairing.
  - left. rewrite second_run_files. reflexivity.
Defined.
End instances.
