(* ===== verification/Tables.v ===== *)
(** * Tables ([crates/storage/src/table.rs], [bytes.rs], [error.rs])

    The storage of records keyed by string ids on top of the embedded database.
    The database and the serializer are third-party code: the class [Redb]
    holds the database's operations, [RedbLaws] its documented transactional
    behaviour seen through the rows of each table; [Postcard T] serializes the
    records of type [T]. Any call to the database may fail. *)

From Stdlib Require Import Ascii.
From S2P Require Import Prelude Effects.

#[local] Open Scope char_scope.
#[local] Open Scope string_scope.
#[local] Open Scope Z_scope.

Abbreviation bytes := string.

(** ** The database *)

Inductive RedbError : Type := TableDoesNotExist (name : string) | OtherRedbError (what : string).

Class Redb := {
  Database : Type;
  WriteTransaction : Type;
  ReadTransaction : Type;
  ReadOnlyTable : Type;
  begin_write : M Database RedbError WriteTransaction;
  begin_read : M Database RedbError ReadTransaction;
  commit : WriteTransaction → M Database RedbError unit;
  open_table : string → WriteTransaction → result WriteTransaction RedbError;
  table_get : string → string → WriteTransaction → result (option bytes) RedbError;
  table_insert : string → string → bytes → WriteTransaction → result WriteTransaction RedbError;
  table_remove : string → string → WriteTransaction → result WriteTransaction RedbError;
  table_clear : string → WriteTransaction → result WriteTransaction RedbError;
  read_open_table : string → ReadTransaction → result ReadOnlyTable RedbError;
  read_get : string → ReadOnlyTable → result (option bytes) RedbError;
  read_iter : ReadOnlyTable → result (list (result (string * bytes) RedbError)) RedbError;
}.

Abbreviation Rows := (gmap string (gmap string bytes)).

(** What the database documents: a write transaction starts from the committed
    rows and takes effect entirely at a successful commit or not at all; a read
    transaction sees the committed rows, in key order. *)
Class RedbLaws `{!Redb} := {
  rows : Database → Rows;
  txn_rows : WriteTransaction → Rows;
  read_rows : ReadTransaction → Rows;
  table_rows : ReadOnlyTable → gmap string bytes;
  begin_write_spec db :
    wp begin_write (λ txn db', rows db' = rows db ∧ txn_rows txn = rows db)
      (λ _ db', rows db' = rows db) db;
  begin_read_spec db :
    wp begin_read (λ txn db', rows db' = rows db ∧ read_rows txn = rows db)
      (λ _ db', rows db' = rows db) db;
  commit_spec txn db :
    wp (commit txn) (λ _ db', rows db' = txn_rows txn) (λ _ db', rows db' = rows db) db;
  open_table_spec t txn txn' :
    open_table t txn = Ok txn' →
    txn_rows txn' = <[t := default ∅ (txn_rows txn !! t)]> (txn_rows txn);
  table_get_spec t k txn o : table_get t k txn = Ok o → o = txn_rows txn !! t ≫= (.!! k);
  table_insert_spec t k v txn txn' :
    table_insert t k v txn = Ok txn' →
    txn_rows txn' = <[t := <[k := v]> (default ∅ (txn_rows txn !! t))]> (txn_rows txn);
  table_remove_spec t k txn txn' :
    table_remove t k txn = Ok txn' →
    txn_rows txn' = <[t := delete k (default ∅ (txn_rows txn !! t))]> (txn_rows txn);
  table_clear_spec t txn txn' :
    table_clear t txn = Ok txn' → txn_rows txn' = <[t := ∅]> (txn_rows txn);
  read_open_spec t txn :
    match read_open_table t txn with
    | Ok tb => read_rows txn !! t = Some (table_rows tb)
    | Err (TableDoesNotExist _) => read_rows txn !! t = None
    | Err _ => True
    end;
  read_get_spec k tb o : read_get k tb = Ok o → o = table_rows tb !! k;
  read_iter_spec tb l : read_iter tb = Ok (Ok <$> l) → l = btree_iter (table_rows tb);
}.

(** The serializer, per type of record. *)
Class Postcard (T : Type) := {
  to_stdvec : T → result bytes string;
  from_bytes : bytes → result T string;
}.

Class PostcardLaws T `{!Postcard T} := {
  from_to_stdvec (x : T) b : to_stdvec x = Ok b → from_bytes b = Ok x;
}.

(** ** Errors *)

Inductive StorageError : Type :=
| RedbFailure (e : RedbError)
| Io (e : string)
| Serialization (e : string)
| SelfPrimary.

Definition is_missing_table (e : StorageError) : bool :=
  match e with RedbFailure (TableDoesNotExist _) => true | _ => false end.

Definition redb_err (e : RedbError) : StorageError := RedbFailure e.

Definition encode `{!Postcard T} (value : T) : result bytes StorageError :=
  map_err Serialization (to_stdvec value).

Definition decode `{!Postcard T} (b : bytes) : result T StorageError :=
  map_err Serialization (from_bytes b).

(** ** Operations of a table *)

Module Table.
Section operations.
Context `{!Redb} `{!Postcard T} (table : string).

Definition upsert (id : string) (record : T) : M Database StorageError unit :=
  let! txn := with_err redb_err begin_write in
  let! txn := lift (map_err redb_err (open_table table txn)) in
  let! value := lift (encode record) in
  let! txn := lift (map_err redb_err (table_insert table id value txn)) in
  with_err redb_err (commit txn).

(** The table of a read: [None] when nothing created it yet. *)
Definition open_or_missing (txn : ReadTransaction) : result (option ReadOnlyTable) StorageError :=
  match map_err redb_err (read_open_table table txn) with
  | Ok tb => Ok (Some tb)
  | Err e => if is_missing_table e then Ok None else Err e
  end.

Definition get (id : string) : M Database StorageError (option T) :=
  let! txn := with_err redb_err begin_read in
  let! tb := lift (open_or_missing txn) in
  match tb with
  | None => ret None
  | Some tb =>
      let! row := lift (map_err redb_err (read_get id tb)) in
      match row with
      | None => ret None
      | Some value => let! record := lift (decode value) in ret (Some record)
      end
  end.

Definition decode_row (row : result (string * bytes) RedbError) : result (string * T) StorageError :=
  let? kv := map_err redb_err row in
  let? record := decode kv.2 in
  Ok (kv.1, record).

Definition entries : M Database StorageError (list (string * T)) :=
  let! txn := with_err redb_err begin_read in
  let! tb := lift (open_or_missing txn) in
  match tb with
  | None => ret []
  | Some tb =>
      let! it := lift (map_err redb_err (read_iter tb)) in
      lift (collect (decode_row <$> it))
  end.

Definition list : M Database StorageError (list T) :=
  let! kvs := entries in ret kvs.*2.

Definition row_key (row : result (string * bytes) RedbError) : result string StorageError :=
  let? kv := map_err redb_err row in Ok kv.1.

Definition keys : M Database StorageError (Datatypes.list string) :=
  let! txn := with_err redb_err begin_read in
  let! tb := lift (open_or_missing txn) in
  match tb with
  | None => ret []
  | Some tb =>
      let! it := lift (map_err redb_err (read_iter tb)) in
      lift (collect (row_key <$> it))
  end.

Definition update (id : string) (default : T) (mutate : T → T) : M Database StorageError unit :=
  let! txn := with_err redb_err begin_write in
  let! txn := lift (map_err redb_err (open_table table txn)) in
  let! row := lift (map_err redb_err (table_get table id txn)) in
  let! record := match row with
                 | Some value => lift (decode value)
                 | None => ret default
                 end in
  let! value := lift (encode (mutate record)) in
  let! txn := lift (map_err redb_err (table_insert table id value txn)) in
  with_err redb_err (commit txn).

Definition encode_row (kv : string * T) : result (string * bytes) StorageError :=
  let? value := encode kv.2 in Ok (kv.1, value).

Fixpoint insert_all (txn : WriteTransaction) (encoded : Datatypes.list (string * bytes))
    : result WriteTransaction StorageError :=
  match encoded with
  | [] => Ok txn
  | (id, value) :: encoded =>
      let? txn := map_err redb_err (table_insert table id value txn) in insert_all txn encoded
  end.

Definition replace_all (records : Datatypes.list (string * T)) : M Database StorageError unit :=
  let! encoded := lift (collect (encode_row <$> records)) in
  let! txn := with_err redb_err begin_write in
  let! txn := lift (map_err redb_err (open_table table txn)) in
  let! txn := lift (map_err redb_err (table_clear table txn)) in
  let! txn := lift (insert_all txn encoded) in
  with_err redb_err (commit txn).

Definition delete (id : string) : M Database StorageError unit :=
  let! txn := with_err redb_err begin_write in
  let! txn := lift (map_err redb_err (open_table table txn)) in
  let! txn := lift (map_err redb_err (table_remove table id txn)) in
  with_err redb_err (commit txn).
End operations.
End Table.

(** ** What the operations guarantee *)

Definition readable `{!Postcard T} (b : bytes) : option T :=
  match from_bytes b with Ok x => Some x | Err _ => None end.

(** The records of a table, by id: the rows the serializer can read. *)
Definition view `{!Redb, !RedbLaws, !Postcard T} (table : string) (db : Database) : gmap string T :=
  omap readable (default ∅ (rows db !! table)).

(** The rows of every table but one. *)
Definition other_rows `{!Redb, !RedbLaws} (table : string) (db : Database) : Rows :=
  delete table (rows db).

(** Records put into an empty table one after the other. *)
Definition last_wins {A} : gmap string A → list (string * A) → gmap string A :=
  foldl (λ m kv, <[kv.1 := kv.2]> m).

Section laws.
Context `{!Redb, !RedbLaws, !Postcard T, !PostcardLaws T} (table : string).
Implicit Types db : Database.

Lemma view_lookup db id :
  view table db !! id = default ∅ (rows db !! table) !! id ≫= readable (T:=T).
Proof. unfold view. by rewrite lookup_omap. Qed.

Lemma decode_Ok (b : bytes) (x : T) : decode b = Ok x ↔ readable b = Some x.
Proof. unfold decode, readable. rewrite map_err_Ok. destruct (from_bytes b); naive_solver. Qed.

Lemma encode_Ok (x : T) b : encode x = Ok b → readable b = Some x.
Proof.
  unfold encode, readable. rewrite map_err_Ok. intros Hb. by rewrite (from_to_stdvec _ _ Hb).
Qed.

(** The database calls, in the form the proofs below step through. *)
Lemma wp_begin_write (Q : WriteTransaction → Database → Prop) (F : RedbError → Database → Prop) db :
  (∀ txn db', rows db' = rows db → txn_rows txn = rows db → Q txn db') →
  (∀ e db', rows db' = rows db → F e db') →
  wp begin_write Q F db.
Proof. intros HQ HF. eapply wp_mono; [apply begin_write_spec|naive_solver..]. Qed.

Lemma wp_commit txn (Q : () → Database → Prop) (F : RedbError → Database → Prop) db :
  (∀ db', rows db' = txn_rows txn → Q tt db') → (∀ e db', rows db' = rows db → F e db') →
  wp (commit txn) Q F db.
Proof. intros HQ HF. eapply wp_mono; [apply commit_spec|..]; [intros []|]; naive_solver. Qed.

Lemma wp_open_read {A} (k : option ReadOnlyTable → M Database StorageError A) Q F db :
  (∀ tb db', rows db' = rows db → table_rows <$> tb = rows db !! table → wp (k tb) Q F db') →
  (∀ e db', rows db' = rows db → F e db') →
  wp (let! txn := with_err redb_err begin_read in
      let! tb := lift (Table.open_or_missing table txn) in k tb) Q F db.
Proof.
  intros HQ HF. wp_steps. eapply wp_mono; [apply begin_read_spec| |cbn; naive_solver].
  intros txn db' [Hdb' Htxn]. wp_steps. unfold Table.open_or_missing.
  pose proof (read_open_spec table txn) as Ho. rewrite Htxn in Ho.
  destruct (read_open_table table txn) as [tb|[name|what]]; cbn; auto.
Qed.
End laws.

Ltac txn_cases :=
  repeat match goal with
  | |- context [map_err redb_err ?r] => let E := fresh "E" in destruct r eqn:E; cbn [map_err]
  | |- context [match encode ?r with _ => _ end] => let E := fresh "E" in destruct (encode r) eqn:E
  | |- context [match decode ?r with _ => _ end] => let E := fresh "E" in destruct (decode r) eqn:E
  | E : open_table _ _ = Ok _ |- _ => apply open_table_spec in E
  | E : table_get _ _ _ = Ok _ |- _ => apply table_get_spec in E
  | E : table_insert _ _ _ _ = Ok _ |- _ => apply table_insert_spec in E
  | E : table_remove _ _ _ = Ok _ |- _ => apply table_remove_spec in E
  | E : table_clear _ _ = Ok _ |- _ => apply table_clear_spec in E
  | E : read_get _ _ = Ok _ |- _ => apply read_get_spec in E
  | _ => progress wp_steps
  end; try done.

Section operations_laws.
Context `{!Redb, !RedbLaws, !Postcard T, !PostcardLaws T} (table : string).
Implicit Types db : Database.

(** What a write leaves in the tables it does not touch, and when it fails. *)
Definition written (db : Database) (m : gmap string T) (db' : Database) : Prop :=
  view table db' = m ∧ other_rows table db' = other_rows table db.

Definition untouched (db : Database) {E : Type} (_ : E) (db' : Database) : Prop := rows db' = rows db.

Lemma written_intro db db' (rs : gmap string bytes) (m : gmap string T) :
  rows db' = <[table := rs]> (rows db) → omap readable rs = m → written db m db'.
Proof.
  intros Hdb' <-. unfold written, view, other_rows. rewrite Hdb'. split.
  - by rewrite lookup_insert_eq.
  - apply delete_insert_eq.
Qed.

Theorem upsert_spec id r db :
  wp (Table.upsert table id r) (λ _, written db (<[id := r]> (view table db))) (untouched db) db.
Proof.
  unfold Table.upsert. wp_steps. apply wp_begin_write; [|done]. intros txn db1 Hdb1 Htxn.
  txn_cases. apply wp_commit; [|by unfold untouched; intros; congruence].
  intros db2 Hdb2. apply encode_Ok in E0. rewrite E1, E, Htxn, lookup_insert_eq, insert_insert_eq in Hdb2.
  eapply written_intro; [exact Hdb2|]. cbn. rewrite omap_insert, E0. done.
Qed.

Theorem delete_spec id db :
  wp (Table.delete table id) (λ _, written db (delete id (view table db))) (untouched db) db.
Proof.
  unfold Table.delete. wp_steps. apply wp_begin_write; [|done]. intros txn db1 Hdb1 Htxn.
  txn_cases. apply wp_commit; [|by unfold untouched; intros; congruence].
  intros db2 Hdb2. rewrite E0, E, Htxn, lookup_insert_eq, insert_insert_eq in Hdb2.
  eapply written_intro; [exact Hdb2|]. cbn. by rewrite omap_delete.
Qed.

Theorem get_spec id db :
  wp (Table.get table id) (λ o db', o = view (T:=T) table db !! id ∧ rows db' = rows db) (untouched db) db.
Proof.
  unfold Table.get. apply wp_open_read; [|done]. intros tb db' Hdb' Htb. rewrite view_lookup, <- Htb.
  destruct tb as [tb|]; cbn; wp_steps; [|by rewrite lookup_empty].
  txn_cases. rewrite <- E. destruct a as [value|]; cbn; wp_steps; [|done].
  txn_cases. apply decode_Ok in E0. done.
Qed.

Lemma sorted_fst {A} (l : list (string * A)) :
  StronglySorted (key_le fst) l ↔ StronglySorted ord_le l.*1.
Proof.
  induction l as [|[k x] l IH]; cbn; [split; constructor|]. split; intros Hs; inversion_clear Hs as [|? ? Hs' Hall].
  - constructor; [by apply IH|]. by rewrite Forall_fmap.
  - constructor; [by apply IH|]. by rewrite Forall_fmap in Hall.
Qed.

Lemma decoded_rows (it : list (result (string * bytes) RedbError)) (l : list (string * T)) :
  collect (Table.decode_row <$> it) = Ok l →
  ∃ raw, it = Ok <$> raw ∧ Forall2 (λ kv kx, kv.1 = kx.1 ∧ readable kv.2 = Some kx.2) raw l.
Proof.
  intros Hl%collect_Ok. revert l Hl. induction it as [|[[k b]|e] it IH]; intros [|[k' x] l] Hl; cbn in Hl; try done.
  - exists []. by split.
  - unfold Table.decode_row in Hl at 1; cbn in Hl. destruct (decode b) as [y|e] eqn:E; cbn in Hl; [|done].
    injection Hl as <- <- Hl. apply decode_Ok in E.
    destruct (IH l Hl) as (raw & -> & Hall). exists ((k, b) :: raw). by split; [|constructor].
Qed.

Lemma entries_rows (rs : gmap string bytes) (l : list (string * T)) :
  Forall2 (λ kv kx, kv.1 = kx.1 ∧ readable kv.2 = Some kx.2) (btree_iter rs) l →
  l = btree_iter (omap readable rs : gmap string T).
Proof.
  intros Hall. assert (l.*1 = (btree_iter rs).*1) as Hk.
  { clear -Hall. induction Hall as [|[k b] [k' x] ? ? [Hk _] _ IH]; cbn in *; congruence. }
  assert (NoDup l.*1) as Hnd by (rewrite Hk; apply btree_iter_NoDup_keys).
  apply (sorted_by_key_unique fst); [|apply sort_by_key_sorted|done|].
  - apply sorted_fst. rewrite Hk. apply sorted_fst, sort_by_key_sorted.
  - apply NoDup_Permutation; [by eapply NoDup_fmap_1|eapply NoDup_fmap_1, btree_iter_NoDup_keys|].
    intros [k x]. rewrite elem_of_btree_iter, lookup_omap. split.
    + intros Hi. apply list_elem_of_lookup in Hi as [i Hi].
      destruct (Forall2_lookup_r _ _ _ _ _ Hall Hi) as ([k' b] & Hb & Hkk & Hx). cbn in *. subst k'.
      apply list_elem_of_lookup_2, elem_of_btree_iter in Hb. by rewrite Hb.
    + intros Hx. destruct (rs !! k) as [b|] eqn:Hb; cbn in Hx; [|done].
      apply elem_of_btree_iter, list_elem_of_lookup in Hb as [i Hb].
      destruct (Forall2_lookup_l _ _ _ _ _ Hall Hb) as ([k' x'] & Hi & Hkk & Hx'). cbn in *. subst k'.
      assert (x' = x) as -> by congruence. by eapply list_elem_of_lookup_2.
Qed.

Theorem entries_spec db :
  wp (Table.entries table) (λ l db', l = btree_iter (view (T:=T) table db) ∧ rows db' = rows db) (untouched db) db.
Proof.
  unfold Table.entries. apply wp_open_read; [|done]. intros tb db' Hdb' Htb. unfold view. rewrite <- Htb.
  destruct tb as [tb|]; cbn; wp_steps; [|by rewrite omap_empty].
  destruct (read_iter tb) as [it|e] eqn:Hit; cbn; [|done]. wp_steps.
  destruct (collect _) as [l|e] eqn:Hl; [|done]. split; [|done].
  destruct (decoded_rows _ _ Hl) as (raw & -> & Hall). apply read_iter_spec in Hit as ->.
  by apply entries_rows.
Qed.

Theorem list_spec db :
  wp (Table.list table) (λ l db', l = btree_values (view (T:=T) table db) ∧ rows db' = rows db) (untouched db) db.
Proof.
  unfold Table.list. wp_steps. eapply wp_mono; [apply entries_spec| |by auto].
  intros l db' [-> Hdb']. by wp_steps.
Qed.

(** [keys] reads ids only, so it succeeds on rows the serializer rejects. *)
Theorem keys_spec db :
  wp (Table.keys table) (λ l db', l = btree_keys (default ∅ (rows db !! table)) ∧ rows db' = rows db)
    (untouched db) db.
Proof.
  unfold Table.keys. apply wp_open_read; [|done]. intros tb db' Hdb' Htb. rewrite <- Htb.
  destruct tb as [tb|]; cbn; wp_steps; [|done].
  destruct (read_iter tb) as [it|e] eqn:Hit; cbn; [|done]. wp_steps.
  destruct (collect _) as [l|e] eqn:Hl; [|done]. split; [|done]. apply collect_Ok in Hl.
  assert (∃ raw, it = Ok <$> raw ∧ raw.*1 = l) as (raw & -> & <-).
  { clear Hit. revert l Hl. induction it as [|[[k b]|e] it IH]; intros [|k' l] Hl; cbn in Hl; try done.
    - by exists [].
    - injection Hl as <- Hl. destruct (IH l Hl) as (raw & -> & <-). by exists ((k, b) :: raw). }
  by apply read_iter_spec in Hit as ->.
Qed.

Theorem update_spec id d f db :
  wp (Table.update table id d f)
    (λ _, written db (<[id := f (default d (view table db !! id))]> (view table db))) (untouched db) db.
Proof.
  unfold Table.update. wp_steps. apply wp_begin_write; [|done]. intros txn db1 Hdb1 Htxn. txn_cases.
  rewrite E, Htxn, lookup_insert_eq in E0. cbn in E0.
  apply (wp_mono _ (λ x db2, db2 = db1 ∧ x = default d (view table db !! id)) _ (untouched db) _).
  { rewrite view_lookup, <- E0. destruct a0 as [value|]; cbn; [|done]. wp_steps.
    destruct (decode value) as [x|e] eqn:Hx; [|done]. apply decode_Ok in Hx. by rewrite Hx. }
  - intros x db2 [-> ->]. txn_cases. apply wp_commit; [|by unfold untouched; intros; congruence].
    intros db2 Hdb2. apply encode_Ok in E1. rewrite E2, E, Htxn, lookup_insert_eq, insert_insert_eq in Hdb2.
    eapply written_intro; [exact Hdb2|]. cbn. by rewrite omap_insert, E1.
  - done.
Qed.

Lemma insert_all_rows txn txn' encoded rs base :
  txn_rows txn = <[table := rs]> base → Table.insert_all table txn encoded = Ok txn' →
  txn_rows txn' = <[table := last_wins rs encoded]> base.
Proof.
  revert txn rs. induction encoded as [|[k b] encoded IH]; intros txn rs Htxn; cbn; [by intros [= <-]|].
  destruct (table_insert _ _ _ _) as [txn1|e] eqn:E; cbn; [|done]. apply table_insert_spec in E.
  apply IH. by rewrite E, Htxn, lookup_insert_eq, insert_insert_eq.
Qed.

Lemma encoded_rows records encoded (rs : gmap string bytes) :
  collect (Table.encode_row (T:=T) <$> records) = Ok encoded →
  omap readable (last_wins rs encoded) = last_wins (omap readable rs) records.
Proof.
  rewrite collect_Ok. revert encoded rs.
  induction records as [|[k x] records IH]; intros [|[k' b] encoded] rs Henc; cbn in *; try done.
  unfold Table.encode_row in Henc at 1; cbn in Henc.
  destruct (encode x) as [b'|e] eqn:E; cbn in Henc; [|done]. injection Henc as -> -> Henc.
  rewrite (IH encoded) by done. apply encode_Ok in E. by rewrite omap_insert, E.
Qed.

Theorem replace_all_spec records db :
  wp (Table.replace_all table records) (λ _, written db (last_wins ∅ records)) (untouched db) db.
Proof.
  unfold Table.replace_all. wp_steps. destruct (collect _) as [encoded|e] eqn:Henc; [|done]. wp_steps.
  apply wp_begin_write; [|done]. intros txn db1 Hdb1 Htxn. txn_cases.
  destruct (Table.insert_all _ _ _) as [txn2|e] eqn:E1; [|done]. wp_steps.
  apply wp_commit; [|by unfold untouched; intros; congruence]. intros db2 Hdb2.
  rewrite E, insert_insert_eq in E0. eapply insert_all_rows in E1; [|exact E0].
  rewrite E1, Htxn in Hdb2. eapply written_intro; [exact Hdb2|].
  by rewrite (encoded_rows _ _ _ Henc).
Qed.
End operations_laws.

(** ** A table is a map

    Any sequence of operations on a table, whatever fails on the way, answers
    as the same operations on a map do, a failed operation doing nothing. *)

Inductive Operation (T : Type) : Type :=
| Upsert (id : string) (record : T)
| Get (id : string)
| ListAll
| Entries
| Update (id : string) (d : T) (f : T → T)
| ReplaceAll (records : list (string * T))
| Delete (id : string).
Arguments Upsert {T}. Arguments Get {T}. Arguments ListAll {T}. Arguments Entries {T}.
Arguments Update {T}. Arguments ReplaceAll {T}. Arguments Delete {T}.

Inductive Answer (T : Type) : Type :=
| Unit
| Record (r : option T)
| Records (l : list T)
| Pairs (l : list (string * T)).
Arguments Unit {T}. Arguments Record {T}. Arguments Records {T}. Arguments Pairs {T}.

Section refinement.
Context `{!Redb, !Postcard T} (table : string).

Definition perform (o : Operation T) : M Database StorageError (Answer T) :=
  match o with
  | Upsert id r => let! _ := Table.upsert table id r in ret Unit
  | Get id => let! r := Table.get table id in ret (Record r)
  | ListAll => let! l := Table.list table in ret (Records l)
  | Entries => let! l := Table.entries table in ret (Pairs l)
  | Update id d f => let! _ := Table.update table id d f in ret Unit
  | ReplaceAll rs => let! _ := Table.replace_all table rs in ret Unit
  | Delete id => let! _ := Table.delete table id in ret Unit
  end.

Fixpoint perform_all (ops : list (Operation T)) (db : Database)
    : Database * list (result (Answer T) StorageError) :=
  match ops with
  | [] => (db, [])
  | o :: ops =>
      let '(db, r) := perform o db in
      let '(db, rs) := perform_all ops db in (db, r :: rs)
  end.

(** The same operations on a map. *)
Definition on_map (m : gmap string T) (o : Operation T) : gmap string T * Answer T :=
  match o with
  | Upsert id r => (<[id := r]> m, Unit)
  | Get id => (m, Record (m !! id))
  | ListAll => (m, Records (btree_values m))
  | Entries => (m, Pairs (btree_iter m))
  | Update id d f => (<[id := f (default d (m !! id))]> m, Unit)
  | ReplaceAll rs => (last_wins ∅ rs, Unit)
  | Delete id => (delete id m, Unit)
  end.

(** From [m] the map answers [answers] and ends as [m']. *)
Fixpoint explains (m : gmap string T) (ops : list (Operation T))
    (answers : list (result (Answer T) StorageError)) (m' : gmap string T) : Prop :=
  match ops, answers with
  | [], [] => m' = m
  | o :: ops, Ok a :: answers => a = (on_map m o).2 ∧ explains (on_map m o).1 ops answers m'
  | _ :: ops, Err _ :: answers => explains m ops answers m'
  | _, _ => False
  end.
End refinement.

Section refines.
Context `{!Redb, !RedbLaws, !Postcard T, !PostcardLaws T} (table : string).
Implicit Types db : Database.

Lemma unchanged_written db db' : rows db' = rows db → written (T:=T) table db (view table db) db'.
Proof. unfold written, view, other_rows. by intros ->. Qed.

Lemma perform_refines (o : Operation T) db :
  wp (perform table o)
    (λ a db', a = (on_map (view table db) o).2 ∧ written table db (on_map (view table db) o).1 db')
    (untouched db) db.
Proof.
  destruct o; cbn; wp_steps;
    (eapply wp_mono; [first [apply upsert_spec|apply get_spec|apply list_spec|apply entries_spec
      |apply update_spec|apply replace_all_spec|apply delete_spec]| |done]).
  all: intros a db' Ha; wp_steps; split; try done.
  all: try (destruct Ha as [-> Hdb']; by auto using unchanged_written).
Qed.
End refines.

(** C34: Any sequence of operations on a table of the database, whichever of
    its calls fail, answers as the same operations on a map: a failed
    operation answers with its error and changes nothing, a successful one
    does what it does to a map, reads list the records in key order, and no
    other table changes. *)
Theorem table_refines_map `{!Redb, !RedbLaws, !Postcard T, !PostcardLaws T} table
    (ops : list (Operation T)) db db' answers :
  perform_all table ops db = (db', answers) →
  explains (view table db) ops answers (view table db') ∧ other_rows table db' = other_rows table db.
Proof.
  revert db answers. induction ops as [|o ops IH]; intros db answers; cbn; [by intros [= <- <-]|].
  destruct (perform table o db) as [db1 r] eqn:Ho. destruct (perform_all table ops db1) as [db2 rs] eqn:Hops.
  intros [= <- <-]. destruct (IH _ _ Hops) as [Hex Hoth]. pose proof (perform_refines table o db) as Hwp.
  unfold wp in Hwp. rewrite Ho in Hwp. destruct r as [a|e]; cbn.
  - destruct Hwp as (-> & Hv & Ho1). rewrite <- Hv. split; [by split|]. by rewrite Hoth.
  - unfold untouched in Hwp. rewrite Hoth. unfold other_rows, view in *. rewrite Hwp in *. done.
Qed.

(** ** A database that keeps its rows in memory

    Each transaction's begin and commit fail as the list of faults says. *)

Record ToyDatabase : Type := mkToy { toy_rows : Rows; toy_faults : list bool }.

Definition toy_step {A} (f : Rows → Rows * A) : M ToyDatabase RedbError A := λ db,
  match toy_faults db with
  | true :: faults => (mkToy (toy_rows db) faults, Err (OtherRedbError "I/O error"))
  | faults => let '(rs, a) := f (toy_rows db) in (mkToy rs (tail faults), Ok a)
  end.

Definition toy_redb : Redb := {|
  Database := ToyDatabase; WriteTransaction := Rows; ReadTransaction := Rows;
  ReadOnlyTable := gmap string bytes;
  begin_write := toy_step (λ rs, (rs, rs));
  begin_read := toy_step (λ rs, (rs, rs));
  commit := λ txn, toy_step (λ _, (txn, tt));
  open_table := λ t txn, Ok (<[t := default ∅ (txn !! t)]> txn);
  table_get := λ t k txn, Ok (txn !! t ≫= (.!! k));
  table_insert := λ t k v txn, Ok (<[t := <[k := v]> (default ∅ (txn !! t))]> txn);
  table_remove := λ t k txn, Ok (<[t := delete k (default ∅ (txn !! t))]> txn);
  table_clear := λ t txn, Ok (<[t := ∅]> txn);
  read_open_table := λ t txn, match txn !! t with Some tb => Ok tb | None => Err (TableDoesNotExist t) end;
  read_get := λ k tb, Ok (tb !! k);
  read_iter := λ tb, Ok (Ok <$> btree_iter tb);
|}.

Lemma toy_step_spec {A} (f : Rows → Rows * A) db :
  wp (toy_step f) (λ a db', toy_rows db' = (f (toy_rows db)).1 ∧ a = (f (toy_rows db)).2)
    (λ _ db', toy_rows db' = toy_rows db) db.
Proof. unfold wp, toy_step. destruct db as [rs [|[] faults]]; cbn; by destruct (f rs). Qed.

#[refine] Definition toy_redb_laws : @RedbLaws toy_redb := {|
  rows := toy_rows : @Database toy_redb → Rows;
  txn_rows := id : @WriteTransaction toy_redb → Rows;
  read_rows := id : @ReadTransaction toy_redb → Rows;
  table_rows := id : @ReadOnlyTable toy_redb → gmap string bytes;
|}.
Proof.
  - intros db. by eapply wp_mono; [apply (toy_step_spec (λ rs, (rs, rs)))| |].
  - intros db. by eapply wp_mono; [apply (toy_step_spec (λ rs, (rs, rs)))| |].
  - intros txn db. eapply wp_mono; [apply (toy_step_spec (λ _, (txn, tt)))| |done]. by intros [] db' [? _].
  - by intros t txn txn' [= <-].
  - by intros t k txn o [= <-].
  - by intros t k v txn txn' [= <-].
  - by intros t k txn txn' [= <-].
  - by intros t txn txn' [= <-].
  - intros t txn. unfold id. cbn. generalize (txn : Rows). clear txn. intros txn. by destruct (txn !! t) eqn:E.
  - by intros k tb o [= <-].
  - intros tb l [= Hl]. apply (f_equal collect) in Hl. unfold id in Hl. rewrite !collect_fmap_Ok in Hl.
    by injection Hl.
Defined.

(** A serializer for any type whose values can be numbered. *)
Fixpoint bits_of (p : positive) : string :=
  match p with
  | xH => EmptyString
  | xO p => String "0" (bits_of p)
  | xI p => String "1" (bits_of p)
  end.

Fixpoint of_bits (s : string) : positive :=
  match s with
  | EmptyString => xH
  | String c s => if decide (c = "1"%char) then xI (of_bits s) else xO (of_bits s)
  end.

Lemma of_bits_of p : of_bits (bits_of p) = p.
Proof. induction p as [p IH|p IH|]; cbn; [| |done]; by rewrite IH. Qed.

Definition toy_postcard (T : Type) `{Countable T} : Postcard T := {|
  to_stdvec := λ x, Ok (bits_of (countable.encode x));
  from_bytes := λ b, ok_or (countable.decode (of_bits b)) "invalid";
|}.

Lemma toy_postcard_laws (T : Type) `{Countable T} : @PostcardLaws T (toy_postcard T).
Proof. constructor. intros x b [= <-]. cbn. by rewrite of_bits_of, decode_encode. Qed.

#[local] Existing Instance toy_postcard.
#[local] Existing Instance toy_postcard_laws.

(** The second write fails at its commit. *)
Lemma table_refines_map_witness :
  let ops := [Upsert "k" "v"; Upsert "k" "w"; Get "k"; ListAll] in
  let db := (mkToy ∅ [false; false; false; true] : @Database toy_redb) in
  let db' := (mkToy {["t" := {["k" := bits_of (countable.encode "v")]}]} [] : @Database toy_redb) in
  explains (@view toy_redb toy_redb_laws _ _ "t" db) ops
    [Ok Unit; Err (RedbFailure (OtherRedbError "I/O error")); Ok (Record (Some "v")); Ok (Records ["v"])]
    (@view toy_redb toy_redb_laws _ _ "t" db') ∧
  @other_rows toy_redb toy_redb_laws "t" db' = @other_rows toy_redb toy_redb_laws "t" db.
Proof.
  intros ops db db'.
  apply (@table_refines_map toy_redb toy_redb_laws string _ _ "t" ops db db').
  vm_compute. reflexivity.
Defined.
