(* ===== verification/NodeStores.v ===== *)
(** * The node's own stores ([crates/storage/src/node/])

    What a node keeps about itself and its peers, each a thin adapter over one
    table of [Tables]: labels and annotations, known endpoints and the primary
    one, restart-proof counters, the signed authorization records. *)

From S2P Require Import Prelude Effects Tables.

Definition LOCAL_LABELS : string := "local_labels".
Definition LOCAL_ANNOTATIONS : string := "local_annotations".
Definition PEERS : string := "peers".
Definition PRIMARY : string := "primary".
Definition PRIMARY_KEY : string := "primary".
Definition META : string := "node_meta".
Definition AUTHORIZATION_RECORDS : string := "authorization_records".

(** ** Labels and annotations *)

Section local_storage.
Context `{!Redb, !Postcard string}.

Definition set_label (key value : string) : M Database StorageError unit :=
  Table.upsert LOCAL_LABELS key value.
Definition set_annotation (key value : string) : M Database StorageError unit :=
  Table.upsert LOCAL_ANNOTATIONS key value.

Definition labels : M Database StorageError (gmap string string) :=
  let! kvs := Table.entries LOCAL_LABELS in ret (last_wins ∅ kvs).
Definition annotations : M Database StorageError (gmap string string) :=
  let! kvs := Table.entries LOCAL_ANNOTATIONS in ret (last_wins ∅ kvs).

(** *** Metadata *)

Definition meta_get (key : string) : M Database StorageError (option string) := Table.get META key.
Definition meta_set (key value : string) : M Database StorageError unit := Table.upsert META key value.
End local_storage.

(** ** Peers *)

Record PeerRecord : Type := mkPeer {
  peer_address : string;
  online : bool;
  last_seen_ms : option Z;
  last_attempt_ms : option Z;
}.

#[export] Instance peer_eq_dec : EqDecision PeerRecord.
Proof. solve_decision. Defined.
#[export] Program Instance peer_countable : Countable PeerRecord :=
  inj_countable' (λ r, (peer_address r, online r, last_seen_ms r, last_attempt_ms r))
    (λ '(a, o, s, t), mkPeer a o s t) _.
Next Obligation. by intros []. Qed.

Definition new_peer (address : string) : PeerRecord := mkPeer address false None None.

Section peer_storage.
Context `{!Redb, !Postcard string, !Postcard PeerRecord}.

Definition seed (address : string) : M Database StorageError unit :=
  Table.update PEERS address (new_peer address) id.

Definition mark_seen (address : string) (seen_ms : Z) : M Database StorageError unit :=
  Table.update PEERS address (new_peer address)
    (λ record, mkPeer (peer_address record) true (Some seen_ms) (Some seen_ms)).

Definition mark_attempt (now : Z) (address : string) (is_online : bool) : M Database StorageError unit :=
  Table.update PEERS address (new_peer address)
    (λ record, mkPeer (peer_address record) is_online (last_seen_ms record) (Some now)).

Definition set_primary (address local_address : string) : M Database StorageError unit :=
  if decide (address = local_address) then raise SelfPrimary
  else Table.upsert PRIMARY PRIMARY_KEY address.

Definition get_primary : M Database StorageError (option string) := Table.get PRIMARY PRIMARY_KEY.

Definition fallback_addresses : M Database StorageError (list string) :=
  let! primary := get_primary in
  let! ks := Table.keys PEERS in
  ret (filter (λ address, primary ≠ Some address) ks).

Definition records : M Database StorageError (list PeerRecord) := Table.list PEERS.

Definition known_addresses : M Database StorageError (list string) :=
  let! addresses := fallback_addresses in
  let! primary := get_primary in
  match primary with
  | Some p => ret (addresses ++ [p])
  | None => ret addresses
  end.
End peer_storage.

(** ** Authorization records *)

Section authorization_storage.
Context `{!Redb} {Rec : Type} `{!Postcard Rec} (id_text : Rec → string).

Definition put (record : Rec) : M Database StorageError unit :=
  Table.upsert AUTHORIZATION_RECORDS (id_text record) record.

Definition authorization_records : M Database StorageError (list Rec) := Table.list AUTHORIZATION_RECORDS.

Definition replace (rs : list Rec) : M Database StorageError unit :=
  Table.replace_all AUTHORIZATION_RECORDS ((λ r, (id_text r, r)) <$> rs).
End authorization_storage.

(** ** What the peer store keeps true *)

Inductive PeerOp : Type :=
| Seed (address : string)
| MarkSeen (address : string) (seen_ms : Z)
| MarkAttempt (now : Z) (address : string) (is_online : bool)
| SetPrimary (address : string).

Section peer_invariant.
Context `{!Redb, !RedbLaws} `{!Postcard string, !PostcardLaws string}
  `{!Postcard PeerRecord, !PostcardLaws PeerRecord}.
Implicit Types db : Database.

Definition peer_step (local_address : string) (o : PeerOp) : M Database StorageError unit :=
  match o with
  | Seed a => seed a
  | MarkSeen a t => mark_seen a t
  | MarkAttempt now a b => mark_attempt now a b
  | SetPrimary a => set_primary a local_address
  end.

Definition peers (db : Database) : gmap string PeerRecord := view PEERS db.
Definition primary (db : Database) : option string := view PRIMARY db !! PRIMARY_KEY.

(** Records are filed under their own address, and the primary is another node. *)
Definition sound_peers (local_address : string) (db : Database) : Prop :=
  (∀ a r, peers db !! a = Some r → peer_address r = a) ∧ primary db ≠ Some local_address.

Lemma view_other {A} `{!Postcard A} t t' db db' :
  t ≠ t' → other_rows t db' = other_rows t db → view (T:=A) t' db' = view t' db.
Proof.
  intros Hne Ho. unfold view. f_equal. f_equal.
  rewrite <- (lookup_delete_ne (rows db') t t'), <- (lookup_delete_ne (rows db) t t') by done.
  unfold other_rows in Ho. by rewrite Ho.
Qed.

Lemma update_peers_sound local f a db :
  (∀ r, peer_address (f r) = peer_address r) → sound_peers local db →
  wp (Table.update PEERS a (new_peer a) f) (λ _, sound_peers local) (λ _, sound_peers local) db.
Proof.
  intros Hf [Hp Hprim]. eapply wp_mono; [apply update_spec|..].
  - intros _ db' [Hv Ho]. unfold sound_peers, peers, primary. rewrite Hv, (view_other PEERS PRIMARY db db') by done.
    split; [|done]. intros b r. rewrite lookup_insert_Some. intros [[<- <-]|[_ Hb]]; [|by apply Hp].
    rewrite Hf. destruct (view PEERS db !! a) as [r|] eqn:Hr; [by apply Hp|done].
  - intros e db' Hdb'. unfold untouched in Hdb'. unfold sound_peers, peers, primary, view. by rewrite Hdb'.
Qed.

Lemma peer_step_sound local o db :
  sound_peers local db →
  wp (peer_step local o) (λ _, sound_peers local) (λ _, sound_peers local) db.
Proof.
  intros Hs. destruct o as [a|a t|now a b|a]; [by apply update_peers_sound..|].
  cbn. unfold set_primary. case_decide as Ha; [done|]. eapply wp_mono; [apply upsert_spec|..].
  - intros _ db' [Hv Ho]. destruct Hs as [Hp Hprim]. unfold sound_peers, peers, primary.
    rewrite Hv, (view_other PRIMARY PEERS db db'), lookup_insert_eq by done. split; [done|congruence].
  - intros e db' Hdb'. unfold untouched in Hdb'. unfold sound_peers, peers, primary, view in *. by rewrite Hdb'.
Qed.

Fixpoint peer_run (local_address : string) (ops : list PeerOp) (db : Database) : Database :=
  match ops with
  | [] => db
  | o :: ops => peer_run local_address ops (peer_step local_address o db).1
  end.

Lemma peer_run_sound local ops db : sound_peers local db → sound_peers local (peer_run local ops db).
Proof.
  revert db. induction ops as [|o ops IH]; intros db Hs; [done|]. cbn. apply IH.
  pose proof (peer_step_sound local o db Hs) as Hw. unfold wp in Hw.
  by destruct (peer_step local o db) as [db' [a|e]].
Qed.

(** Every endpoint known, once: the fallbacks in key order, then the primary. *)
Lemma known_addresses_spec db :
  wp known_addresses
    (λ l db', rows db' = rows db ∧ NoDup l ∧
       ∀ a, a ∈ l ↔ is_Some (default ∅ (rows db !! PEERS) !! a) ∨ primary db = Some a)
    (untouched db) db.
Proof.
  unfold known_addresses, fallback_addresses, get_primary. wp_steps.
  eapply wp_mono; [apply get_spec| |done]. intros o db1 [-> Hdb1]. wp_steps.
  eapply wp_mono; [apply keys_spec| |by unfold untouched; intros; congruence].
  intros ks db2 [-> Hdb2]. wp_steps.
  eapply wp_mono; [apply get_spec| |by unfold untouched; intros; congruence].
  intros o db3 [-> Hdb3]. rewrite Hdb1.
  assert (view (T:=string) PRIMARY db2 = view PRIMARY db) as -> by (unfold view; by rewrite Hdb2, Hdb1).
  unfold primary. set (m := default ∅ (rows db !! PEERS)).
  assert (∀ a, a ∈ btree_keys m ↔ is_Some (m !! a)) as Hk.
  { intros a. unfold btree_keys. rewrite elem_of_fst. setoid_rewrite elem_of_btree_iter. done. }
  assert (rows db3 = rows db) as Hrows by congruence.
  destruct (view PRIMARY db !! PRIMARY_KEY) as [p|] eqn:Hp; cbn.
  - split; [done|]. split.
    + apply NoDup_app. split; [apply NoDup_filter, btree_iter_NoDup_keys|]. split.
      * intros a Ha ->%list_elem_of_singleton. apply list_elem_of_filter in Ha as [Ha _]. by destruct Ha.
      * apply NoDup_singleton.
    + intros a. rewrite elem_of_app, list_elem_of_filter, list_elem_of_singleton, Hk.
      destruct (decide (p = a)) as [->|]; naive_solver.
  - split; [done|]. split; [apply NoDup_filter, btree_iter_NoDup_keys|].
    intros a. rewrite list_elem_of_filter, Hk. naive_solver.
Qed.
End peer_invariant.

(** Whatever sequence of seeds, contact marks and primary changes a node
    performs, and whichever of its writes fail, every record stays filed under
    its own address and the node never becomes its own primary; listing the
    known endpoints then gives each of them once. *)
Theorem peer_store_sound `{!Redb, !RedbLaws} `{!Postcard string, !PostcardLaws string}
    `{!Postcard PeerRecord, !PostcardLaws PeerRecord} local ops db :
  sound_peers local db →
  let db' := peer_run local ops db in
  sound_peers local db' ∧
  wp known_addresses
    (λ l db'', rows db'' = rows db' ∧ NoDup l ∧
       ∀ a, a ∈ l ↔ is_Some (default ∅ (rows db' !! PEERS) !! a) ∨ primary db' = Some a)
    (untouched db') db'.
Proof. intros Hs db'. split; [by apply peer_run_sound|apply known_addresses_spec]. Qed.

(** ** Checkpoints of authorization records *)

Section checkpoints.
Context `{!Redb, !RedbLaws} {Rec : Type} `{!Postcard Rec, !PostcardLaws Rec} (id_text : Rec → string).

Lemma last_wins_keyed (m : gmap string Rec) rs k r :
  (∀ r r', r ∈ rs → r' ∈ rs → id_text r = id_text r' → r = r') →
  last_wins m ((λ r, (id_text r, r)) <$> rs) !! k = Some r ↔
    (r ∈ rs ∧ k = id_text r) ∨ (m !! k = Some r ∧ ∀ r', r' ∈ rs → id_text r' ≠ k).
Proof.
  revert m. induction rs as [|x rs IH]; intros m Hinj; [cbn; set_solver|].
  change (last_wins (<[id_text x := x]> m) ((λ r, (id_text r, r)) <$> rs) !! k = Some r ↔
    (r ∈ x :: rs ∧ k = id_text r) ∨ (m !! k = Some r ∧ ∀ r', r' ∈ x :: rs → id_text r' ≠ k)).
  rewrite IH by (intros; apply Hinj; set_solver). rewrite lookup_insert_Some.
  split.
  - intros [[Hr ->]|[[[<- ->]|[Hne Hm]] Hfree]]; [left; set_solver|left; set_solver|].
    right. split; [done|]. intros r' [->|Hr']%elem_of_cons; [done|by apply Hfree].
  - intros [[[->|Hr]%elem_of_cons ->]|[Hm Hfree]].
    + destruct (decide (id_text x ∈ id_text <$> rs)) as [Hx|Hx].
      * left. apply list_elem_of_fmap in Hx as (y & Hy & Hin). rewrite (Hinj x y); set_solver.
      * right. split; [by left|]. intros r' Hr' He. apply Hx. rewrite <- He. by apply list_elem_of_fmap_2.
    + by left.
    + right. split; [right; split; [by apply Hfree; set_solver|done]|]. intros r' Hr'. apply Hfree. set_solver.
Qed.

Lemma btree_values_NoDup {A} (f : A → string) (m : gmap string A) :
  (∀ k x, m !! k = Some x → k = f x) → NoDup (btree_values m).
Proof.
  intros Hf. assert (∀ k x, (k, x) ∈ btree_iter m → k = f x) as Hkey.
  { intros k x Hkx%elem_of_btree_iter. by apply Hf. }
  unfold btree_values. pose proof (btree_iter_NoDup_keys m) as Hk. revert Hkey Hk.
  generalize (btree_iter m). intros l. induction l as [|[k x] l IH]; cbn; intros Hkey Hk; [constructor|].
  inversion_clear Hk as [|? ? Hni Hk']. constructor; [|apply IH; set_solver].
  intros Hx. apply Hni. rewrite (Hkey k x) by set_solver.
  apply list_elem_of_fmap in Hx as ([k' x'] & ? & Hkx). cbn in *. subst x'.
  rewrite <- (Hkey k' x) by set_solver. apply elem_of_fst. eauto.
Qed.

(** Replacing the checkpoint and reading it back. *)
Definition checkpoint (rs : list Rec) : M Database StorageError (list Rec) :=
  let! _ := replace id_text rs in authorization_records.
End checkpoints.

(** Replacing the authorization checkpoint installs exactly the given
    records: reading the table back lists each of them once and nothing else.
    When the replacement fails the previous checkpoint is intact. *)
Theorem checkpoint_replaced `{!Redb, !RedbLaws} {Rec} `{!Postcard Rec, !PostcardLaws Rec}
    (id_text : Rec → string) rs db :
  NoDup rs → (∀ r r', r ∈ rs → r' ∈ rs → id_text r = id_text r' → r = r') →
  wp (checkpoint id_text rs) (λ l _, l ≡ₚ rs)
    (λ _ db', view AUTHORIZATION_RECORDS db' = view (T:=Rec) AUTHORIZATION_RECORDS db ∨
              ∀ r, r ∈ rs ↔ ∃ k, view AUTHORIZATION_RECORDS db' !! k = Some r) db.
Proof.
  intros Hnd Hinj. unfold checkpoint, replace, authorization_records. wp_steps.
  assert (∀ r, r ∈ rs ↔ ∃ k, last_wins ∅ ((λ r, (id_text r, r)) <$> rs) !! k = Some r) as Hin.
  { intros r. setoid_rewrite last_wins_keyed; [|done]. setoid_rewrite lookup_empty. naive_solver. }
  eapply wp_mono; [apply replace_all_spec|..].
  - intros _ db1 [Hv _]. eapply wp_mono; [apply list_spec|..].
    + intros l db2 [-> _]. rewrite Hv. apply NoDup_Permutation; [|done|].
      * apply (btree_values_NoDup id_text). intros k r Hkr. apply last_wins_keyed in Hkr; [|done].
        rewrite lookup_empty in Hkr. naive_solver.
      * intros r. rewrite elem_of_btree_values. by rewrite Hin.
    + intros e db2 Hdb2. right. intros r. rewrite Hin. unfold view at 1. rewrite Hdb2.
      change (omap readable (default ∅ (rows db1 !! AUTHORIZATION_RECORDS)))
        with (view (T:=Rec) AUTHORIZATION_RECORDS db1). by rewrite Hv.
  - intros e db1 Hdb1. left. unfold view. by rewrite Hdb1.
Qed.

(** ** Instances *)

#[local] Existing Instance toy_postcard.
#[local] Existing Instance toy_postcard_laws.

Lemma peer_store_sound_witness :
  let db := (mkToy ∅ [false; false; false; true] : @Database toy_redb) in
  let ops := [Seed "b:1"; MarkSeen "b:1" 1000; SetPrimary "a:1"; MarkAttempt 2000 "b:1" false] in
  @sound_peers toy_redb toy_redb_laws _ _ "a:1" (peer_run "a:1" ops db).
Proof.
  intros db ops. apply (@peer_store_sound toy_redb toy_redb_laws _ _ _ _ "a:1" ops db).
  split; [intros a r; vm_compute; discriminate|by vm_compute].
Defined.

Lemma checkpoint_replaced_witness :
  let db := (mkToy ∅ [] : @Database toy_redb) in
  @wp _ _ _ (@checkpoint toy_redb string _ id ["r2"; "r1"]) (λ l _, l ≡ₚ ["r2"; "r1"])
    (λ _ db', @view toy_redb toy_redb_laws string _ AUTHORIZATION_RECORDS db' =
                @view toy_redb toy_redb_laws string _ AUTHORIZATION_RECORDS db ∨
              ∀ r : string, r ∈ ["r2"; "r1"] ↔ ∃ k, @view toy_redb toy_redb_laws string _ AUTHORIZATION_RECORDS db' !! k = Some r) db.
Proof.
  intros db. apply (@checkpoint_replaced toy_redb toy_redb_laws string _ _ id ["r2"; "r1"] db).
  - by apply (bool_decide_eq_true_1 (NoDup ["r2"; "r1"])).
  - by intros r r' _ _.
Defined.
