(* ===== verification/Pipeline.v ===== *)
(** * The apply pipeline

    What the three pipelines that store a replicated resource
    ([apply_remote_resource], [apply_remote_extension], [apply_remote_memory])
    have in common: verify the content, win the conflict rule, write the
    content when it changed, then the record. The client's theorems are proved
    here against an interface, the class [PipelineLaws], that each store
    discharges: a map of records, a map of contents, each call atomic, and a
    failed content write leaving that one content in any state. *)

From S2P Require Import Prelude Effects Versioned.

(** ** The interface *)

(** The calls the pipeline makes on a store of state [S]. *)
Record Ops (S E R C : Type) : Type := mkOps {
  op_get : string → M S E (option R);
  op_write : R → C → M S E unit;
  op_upsert : R → M S E unit;
}.
Arguments mkOps {S E R C}. Arguments op_get {S E R C}.
Arguments op_write {S E R C}. Arguments op_upsert {S E R C}.

(** [recs] and [content]: what the store holds, [rid]: the id of a record. *)
Class PipelineLaws {S E R C : Type} (ops : Ops S E R C) (rid : R → string)
    (recs : S → gmap string R) (content : S → string → option C) := {
  get_law id s :
    wp (op_get ops id) (λ o s', o = recs s !! id ∧ recs s' = recs s ∧ content s' = content s)
      (λ _ s', recs s' = recs s ∧ content s' = content s) s;
  write_law r c s :
    wp (op_write ops r c)
      (λ _ s', recs s' = recs s ∧ content s' (rid r) = Some c ∧
         ∀ id, id ≠ rid r → content s' id = content s id)
      (λ _ s', recs s' = recs s ∧ ∀ id, id ≠ rid r → content s' id = content s id) s;
  upsert_law r s :
    wp (op_upsert ops r)
      (λ _ s', recs s' = <[rid r := r]> (recs s) ∧ content s' = content s)
      (λ _ s', recs s' = recs s ∧ content s' = content s) s;
}.

Section pipeline.
Context {S E R C : Type} `{!VersionedRecord R} (ops : Ops S E R C) (rid : R → string).
Context (is_empty : C → bool) (hash : C → string) (mismatch : ContentHashMismatch → E).

(** The shape of the three pipelines. *)
Definition pipeline (record : R) (c : C) : M S E bool :=
  if is_empty c then ret false
  else
    let! _ := lift (map_err mismatch (verify_content_hash (hash c) (content_hash record))) in
    let! local := op_get ops (rid record) in
    if negb (should_apply_versioned local record) then ret false
    else
      let! _ :=
        match local with
        | Some l => if decide (content_hash l = content_hash record) then ret tt else op_write ops record c
        | None => op_write ops record c
        end in
      let! _ := op_upsert ops record in
      ret true.

Context (recs : S → gmap string R) (content : S → string → option C).
Context `{!PipelineLaws ops rid recs content}.
Implicit Types (r : R) (c : C) (s : S).

Definition accepts r c : bool := negb (is_empty c) && bool_decide (hash c = content_hash r).

Definition wins s r c : bool := accepts r c && should_apply_versioned (recs s !! rid r) r.

(** The record replaced has the same hash: its content is not written again. *)
Definition same_content s r : bool :=
  match recs s !! rid r with Some l => bool_decide (content_hash l = content_hash r) | None => false end.

Definition writes s r c : bool := wins s r c && negb (same_content s r).

(** Every record's content is the one it declares. *)
Definition faithful s : Prop :=
  ∀ id r, recs s !! id = Some r → ∃ c, content s id = Some c ∧ accepts r c = true.

Definition contents_off id s s' : Prop := ∀ id', id' ≠ id → content s' id' = content s id'.

(** What a run leaves behind, on each of its outcomes. *)
Definition applied r c s (b : bool) s' : Prop :=
  b = wins s r c ∧
  recs s' = (if b then <[rid r := r]> (recs s) else recs s) ∧
  content s' (rid r) = (if writes s r c then Some c else content s (rid r)) ∧
  contents_off (rid r) s s'.

Definition aborted r c s s' : Prop :=
  recs s' = recs s ∧
  (writes s r c = false → content s' (rid r) = content s (rid r)) ∧
  contents_off (rid r) s s'.

Lemma aborted_refl r c s s' : recs s' = recs s → content s' = content s → aborted r c s s'.
Proof. intros Hr Hc. unfold aborted, contents_off. by rewrite Hr, Hc. Qed.

(** The content step of a run that won. *)
Definition content_step r c (local : option R) : M S E unit :=
  match local with
  | Some l => if decide (content_hash l = content_hash r) then ret tt else op_write ops r c
  | None => op_write ops r c
  end.

Lemma content_step_spec r c s s1 :
  wins s r c = true → recs s1 = recs s → content s1 = content s →
  wp (content_step r c (recs s !! rid r))
    (λ _ s2, recs s2 = recs s ∧ contents_off (rid r) s s2 ∧
       content s2 (rid r) = (if writes s r c then Some c else content s (rid r)))
    (λ _, aborted r c s) s1.
Proof.
  intros Hw Hr1 Hc1. assert (same_content s r = false →
    wp (op_write ops r c)
      (λ _ s2, recs s2 = recs s ∧ contents_off (rid r) s s2 ∧
         content s2 (rid r) = (if writes s r c then Some c else content s (rid r)))
      (λ _, aborted r c s) s1) as Hwrite.
  { intros Hsame. assert (writes s r c = true) as Hws by (unfold writes; by rewrite Hw, Hsame).
    rewrite Hws. eapply wp_mono; [apply write_law|..]; unfold aborted, contents_off; rewrite Hr1, Hc1, ?Hws.
    - naive_solver.
    - naive_solver. }
  unfold content_step. destruct (recs s !! rid r) as [l|] eqn:Hl.
  - case_decide as Hd.
    + wp_steps. unfold writes, same_content, contents_off. rewrite Hl, bool_decide_eq_true_2, andb_false_r by done.
      by rewrite Hr1, Hc1.
    + apply Hwrite. unfold same_content. by rewrite Hl, bool_decide_eq_false_2.
  - apply Hwrite. unfold same_content. by rewrite Hl.
Qed.

Lemma pipeline_spec r c s :
  wp (pipeline r c) (applied r c s) (λ _, aborted r c s) s.
Proof.
  unfold pipeline. destruct (is_empty c) eqn:He; wp_steps.
  { unfold applied, writes, wins, accepts. by rewrite He. }
  unfold verify_content_hash. case_decide as Hh; cbn; [by apply aborted_refl|].
  assert (accepts r c = true) as Ha.
  { unfold accepts. rewrite He, bool_decide_eq_true_2; [done|]. by destruct (decide (hash c = content_hash r)). }
  wp_steps. eapply wp_mono; [apply get_law| |by intros ? ? []; apply aborted_refl].
  intros o s1 (-> & Hr1 & Hc1). destruct (should_apply_versioned _ r) eqn:Hs; cbn; wp_steps; cycle 1.
  { unfold applied, writes, wins, contents_off. by rewrite Ha, Hs, Hr1, Hc1. }
  assert (wins s r c = true) as Hw by (unfold wins; by rewrite Ha, Hs).
  eapply wp_mono; [by apply (content_step_spec r c s s1)| |done].
  intros _ s2 (Hr2 & Hoff & Hc2). wp_steps. eapply wp_mono; [apply upsert_law|..].
  - intros _ s3 [Hr3 Hc3]. wp_steps. unfold applied, contents_off in *. rewrite Hw, Hr3, Hc3, Hr2. naive_solver.
  - intros e s3 [Hr3 Hc3]. unfold aborted, contents_off in *. rewrite Hr3, Hc3, Hr2, Hc2. split_and!; [done| |done].
    by intros ->.
Qed.

(** ** What follows of every store *)

(** A run that returns keeps every content faithful to its record. *)
Lemma applied_faithful r c s b s' : faithful s → applied r c s b s' → faithful s'.
Proof.
  intros Hf (-> & Hr & Hc & Hoff) id x. rewrite Hr. unfold writes in Hc.
  destruct (wins s r c) eqn:Hw; cbn in Hc.
  - rewrite lookup_insert_Some. intros [[<- <-]|[Hne Hx]].
    + destruct (same_content s r) eqn:Hsame; cbn in Hc.
      * unfold same_content in Hsame. destruct (recs s !! rid r) as [l|] eqn:Hl; [|done].
        apply bool_decide_eq_true in Hsame. destruct (Hf _ _ Hl) as (c0 & Hc0 & Hh).
        exists c0. rewrite Hc. split; [done|]. unfold accepts in *. by rewrite <- Hsame.
      * exists c. split; [done|]. unfold wins in Hw. by apply andb_true_iff in Hw as [Hw _].
    + destruct (Hf _ _ Hx) as (c0 & Hc0 & Hh). exists c0. by rewrite Hoff.
  - intros Hx. destruct (Hf _ _ Hx) as (c0 & Hc0 & Hh). exists c0. split; [|done].
    destruct (decide (id = rid r)) as [->|Hne]; [congruence|by rewrite Hoff].
Qed.

Lemma applied_absorb r c s b s' :
  accepts r c = true → applied r c s b s' → recs s' = absorb rid (recs s) r.
Proof.
  intros Ha (-> & -> & _). unfold wins, absorb. rewrite Ha; cbn. by destruct (should_apply_versioned _ _).
Qed.

Lemma applied_rejected r c s b s' : accepts r c = false → applied r c s b s' → recs s' = recs s.
Proof. intros Ha (-> & -> & _). unfold wins. by rewrite Ha. Qed.

(** ** Runs *)

Fixpoint run_all (rs : list (R * C)) (s : S) : S * list (result bool E) :=
  match rs with
  | [] => (s, [])
  | (r, c) :: rs =>
      let '(s, a) := pipeline r c s in
      let '(s, l) := run_all rs s in (s, a :: l)
  end.

(** The store did its part: only refused contents are answered by an error. *)
Definition healthy (rc : R * C) (a : result bool E) : Prop :=
  match a with Ok _ => True | Err _ => accepts rc.1 rc.2 = false end.

Definition accepted (rs : list (R * C)) : list R :=
  omap (λ rc, if accepts rc.1 rc.2 then Some rc.1 else None) rs.

Lemma pipeline_healthy r c s s' a :
  pipeline r c s = (s', a) → healthy (r, c) a → faithful s →
  faithful s' ∧ recs s' = if accepts r c then absorb rid (recs s) r else recs s.
Proof.
  intros Hp Hh Hf. pose proof (pipeline_spec r c s) as Hw. unfold wp in Hw. rewrite Hp in Hw.
  destruct a as [b|e]; cbn in Hh.
  - split; [by eapply applied_faithful|]. destruct (accepts r c) eqn:Ha.
    + by eapply applied_absorb.
    + by eapply applied_rejected.
  - rewrite Hh. destruct Hw as (Hr & Hc & Hoff). split; [|done]. intros id x. rewrite Hr. intros Hx.
    destruct (Hf _ _ Hx) as (c0 & Hc0 & Hhash). exists c0. split; [|done].
    destruct (decide (id = rid r)) as [->|Hne]; [|by rewrite Hoff].
    rewrite Hc; [done|]. unfold writes, wins. by rewrite Hh.
Qed.

Lemma run_all_healthy rs s s' l :
  run_all rs s = (s', l) → Forall2 healthy rs l → faithful s →
  faithful s' ∧ recs s' = absorb_all rid (recs s) (accepted rs).
Proof.
  revert s l. induction rs as [|[r c] rs IH]; intros s l; cbn.
  { intros [= <- <-] _ Hf. done. }
  destruct (pipeline r c s) as [s1 a] eqn:Hp. destruct (run_all rs s1) as [s2 l'] eqn:Hr.
  intros [= <- <-]. intros [Ha Hl]%Forall2_cons Hf.
  destruct (pipeline_healthy _ _ _ _ _ Hp Ha Hf) as [Hf1 Hr1].
  destruct (IH _ _ Hr Hl Hf1) as [Hf2 Hr2]. split; [done|].
  rewrite Hr2, Hr1. cbn. by destruct (accepts r c).
Qed.

(** Failures leave a trace at most in the content they were writing, so they
    compose, and a run that succeeds after them has the effect it would have had
    without them. *)
Lemma wins_recs r c s s1 : recs s1 = recs s → wins s1 r c = wins s r c.
Proof. unfold wins. by intros ->. Qed.

Lemma writes_recs r c s s1 : recs s1 = recs s → writes s1 r c = writes s r c.
Proof. unfold writes, wins, same_content. by intros ->. Qed.

Lemma aborted_trans r c s s1 s2 : aborted r c s s1 → aborted r c s1 s2 → aborted r c s s2.
Proof.
  intros (Hr1 & Hc1 & Ho1) (Hr2 & Hc2 & Ho2). rewrite (writes_recs _ _ _ _ Hr1) in Hc2.
  unfold aborted, contents_off in *. split_and!; [congruence| |]; intros; [rewrite Hc2|rewrite Ho2]; auto.
Qed.

Lemma aborted_applied r c s s1 b s2 : aborted r c s s1 → applied r c s1 b s2 → applied r c s b s2.
Proof.
  intros (Hr1 & Hc1 & Ho1) (-> & Hr2 & Hc2 & Ho2).
  rewrite (writes_recs _ _ _ _ Hr1) in Hc2. rewrite (wins_recs _ _ _ _ Hr1) in Hr2 |- *. rewrite Hr1 in Hr2.
  unfold applied, contents_off in *. split_and!; [done|done| |intros; rewrite Ho2; auto].
  rewrite Hc2. destruct (writes s r c); [done|]. by apply Hc1.
Qed.

(** Any number of attempts that fail. *)
Definition failing r c : relation S := rtc (λ s s', ∃ e, pipeline r c s = (s', Err e)).

Lemma failing_aborted r c s s1 : failing r c s s1 → aborted r c s s1.
Proof.
  induction 1 as [s|s s1 s2 [e Hp] _ IH]; [by apply aborted_refl|].
  eapply aborted_trans; [|exact IH]. pose proof (pipeline_spec r c s) as Hw. unfold wp in Hw. by rewrite Hp in Hw.
Qed.

Lemma retry_repairs r c s s1 b s2 :
  failing r c s s1 → pipeline r c s1 = (s2, Ok b) → applied r c s b s2.
Proof.
  intros Hf Hp. eapply aborted_applied; [by apply failing_aborted|].
  pose proof (pipeline_spec r c s1) as Hw. unfold wp in Hw. by rewrite Hp in Hw.
Qed.
End pipeline.
