(* ===== verification/ContentStores.v ===== *)
(** * Content stores ([crates/storage/src/workspace/vcs.rs], [extension/mod.rs])

    The bodies of skills and rules live in a git working tree, the artifacts of
    extensions in a directory; both name files after ids that peers supply. The
    file system is the standard library's; git is an external program: the
    class [Git] runs it, [GitLaws] says it leaves the working tree alone. *)

From Stdlib Require Import Ascii.
From S2P Require Import Prelude Effects Versioned Tables.

#[local] Open Scope string_scope.
#[local] Open Scope Z_scope.

(** ** The file system

    Any call may fail; a failed write may have created or truncated the file
    and written a part of it. *)

Inductive IoError : Type := NotFound | OtherIo (what : string).

Inductive FsFault : Type := Refused (what : string) | Partial (what : string) (n : nat).

Record Fs : Type := mkFs {
  files : gmap string bytes;
  directories : gset string;
  fs_faults : list (option FsFault);
}.

Definition put_file (path : string) (content : bytes) (s : Fs) : Fs :=
  mkFs (<[path := content]> (files s)) (directories s) (fs_faults s).

Definition next_fault (s : Fs) : Fs * option FsFault :=
  match fs_faults s with
  | [] => (s, None)
  | f :: faults => (mkFs (files s) (directories s) faults, f)
  end.

Definition fault_error (f : FsFault) : IoError :=
  match f with Refused e | Partial e _ => OtherIo e end.

(** [std::fs::write] *)
Definition fs_write (path : string) (content : bytes) : M Fs IoError unit := λ s,
  match next_fault s with
  | (s, None) => (put_file path content s, Ok tt)
  | (s, Some (Partial e n)) => (put_file path (String.substring 0 n content) s, Err (OtherIo e))
  | (s, Some (Refused e)) => (s, Err (OtherIo e))
  end.

(** [std::fs::read] *)
Definition fs_read (path : string) : M Fs IoError bytes := λ s,
  match next_fault s with
  | (s, None) => (s, ok_or (files s !! path) NotFound)
  | (s, Some f) => (s, Err (fault_error f))
  end.

(** [std::fs::create_dir_all] *)
Definition fs_create_dir_all (path : string) : M Fs IoError unit := λ s,
  match next_fault s with
  | (s, None) => (mkFs (files s) ({[path]} ∪ directories s) (fs_faults s), Ok tt)
  | (s, Some f) => (s, Err (fault_error f))
  end.

(** [Path::exists] *)
Definition path_exists {E} (path : string) : M Fs E bool := λ s,
  (s, Ok (bool_decide (path ∈ directories s ∨ is_Some (files s !! path)))).

Fixpoint last_char (s : string) : option ascii :=
  match s with
  | EmptyString => None
  | String c EmptyString => Some c
  | String _ s => last_char s
  end.

(** [Path::join] *)
Definition join (dir name : string) : string :=
  if String.prefix "/" name then name
  else if decide (dir = "" ∨ last_char dir = Some "/"%char) then String.append dir name
  else String.append dir (String "/" name).

(** Well-formed UTF-8, as [String::from_utf8] checks it. *)
Definition byte_in (lo hi : Z) (c : ascii) : bool := bool_decide (lo ≤ Z.of_N (N_of_ascii c) ≤ hi).

Fixpoint utf8 (fuel : nat) (s : string) : bool :=
  match fuel with
  | O => false
  | S fuel =>
      let cont := byte_in 128 191 in
      match s with
      | EmptyString => true
      | String a s1 =>
          if byte_in 0 127 a then utf8 fuel s1
          else
            match s1 with
            | EmptyString => false
            | String b s2 =>
                if byte_in 194 223 a then cont b && utf8 fuel s2
                else
                  match s2 with
                  | EmptyString => false
                  | String c s3 =>
                      if byte_in 224 239 a then
                        (if byte_in 224 224 a then byte_in 160 191 b
                         else if byte_in 237 237 a then byte_in 128 159 b
                         else cont b) && cont c && utf8 fuel s3
                      else
                        match s3 with
                        | EmptyString => false
                        | String d s4 =>
                            byte_in 240 244 a &&
                            (if byte_in 240 240 a then byte_in 144 191 b
                             else if byte_in 244 244 a then byte_in 128 143 b
                             else cont b) && cont c && cont d && utf8 fuel s4
                        end
                  end
            end
      end
  end.

Definition is_utf8 (s : string) : bool := utf8 (S (String.length s)) s.

(** [std::fs::read_to_string] *)
Definition fs_read_to_string (path : string) : M Fs IoError string :=
  let! b := fs_read path in
  if is_utf8 b then ret b else raise (OtherIo "stream did not contain valid UTF-8").

(** [str::trim], on the ASCII output of [git log --format=%H]. *)
Definition is_whitespace (c : ascii) : bool := byte_in 9 13 c || byte_in 32 32 c.

Fixpoint trim_start (s : string) : string :=
  match s with
  | String c s' => if is_whitespace c then trim_start s' else s
  | EmptyString => EmptyString
  end.

Fixpoint trim_end (s : string) : string :=
  match s with
  | EmptyString => EmptyString
  | String c s' =>
      match trim_end s' with
      | EmptyString => if is_whitespace c then EmptyString else String c EmptyString
      | t => String c t
      end
  end.

Definition trim (s : string) : string := trim_end (trim_start s).

(** ** The git working tree *)

Record Output : Type := mkOutput { status_code : option Z; stdout : string; stderr : string }.

Definition success (o : Output) : bool := bool_decide (status_code o = Some 0).

Class Git := {
  (** Run git in a directory; starting the process may fail. *)
  git_output : string → list string → M Fs IoError Output;
}.

(** Git works inside its directory and keeps its own files in [.git] there: it
    does not touch the files of the working tree's top level. *)
Fixpoint no_slash (s : string) : bool :=
  match s with EmptyString => true | String c s => negb (bool_decide (c = "/"%char)) && no_slash s end.

(** A path below a directory. *)
Definition inside (dir path : string) : bool := String.prefix (String.append dir "/") path.

Class GitLaws `{!Git} := {
  git_confined dir args path s :
    inside dir path = false → files (git_output dir args s).1 !! path = files s !! path;
  git_keeps dir args name s :
    no_slash name = true →
    files (git_output dir args s).1 !! join dir name = files s !! join dir name;
}.

Inductive WorkspaceStorageError : Type :=
| Storage (e : StorageError)
| WsHashMismatch
| GitCommandFailed (message : string)
| WsInvalidResourceId (e : InvalidResourceId).

Definition ws_io (e : IoError) : WorkspaceStorageError :=
  Storage (Io match e with NotFound => "not found" | OtherIo e => e end).

(** The trait [VersionedContentStore], as the operations of a value of it. *)
Record VersionedContentStore (S : Type) : Type := mkContentStore {
  cs_write : string → string → string → M S WorkspaceStorageError string;
  cs_read : string → M S WorkspaceStorageError (option string);
}.
Arguments mkContentStore {S}. Arguments cs_write {S}. Arguments cs_read {S}.

Section git_store.
Context `{!Git} (repo_path : string).

Definition git (args : list string) : M Fs WorkspaceStorageError Output :=
  with_err ws_io (git_output repo_path args).

Definition ok (output : Output) : result Output WorkspaceStorageError :=
  if success output then Ok output else Err (GitCommandFailed (stderr output)).

Definition initialize : M Fs WorkspaceStorageError unit :=
  let! _ := with_err ws_io (fs_create_dir_all repo_path) in
  let! e := path_exists (join repo_path ".git") in
  if e then ret tt
  else
    let! output := git ["init"; "--quiet"] in
    let! _ := lift (ok output) in ret tt.

Definition git_write (id content message : string) : M Fs WorkspaceStorageError string :=
  let! _ := lift (map_err WsInvalidResourceId (validate id)) in
  let! _ := initialize in
  let relative_path := String.append id ".toml" in
  let! _ := with_err ws_io (fs_write (join repo_path relative_path) content) in
  let! output := git ["add"; relative_path] in
  let! _ := lift (ok output) in
  let! output := git ["commit"; "--quiet"; "--no-gpg-sign"; "-m"; message; "--"; relative_path] in
  if negb (success output) && bool_decide (status_code output ≠ Some 1)
  then raise (GitCommandFailed (stderr output))
  else
    let! output := git ["log"; "-1"; "--format=%H"; "--"; relative_path] in
    let! output := lift (ok output) in
    if is_utf8 (stdout output) then ret (trim (stdout output))
    else raise (GitCommandFailed "invalid utf-8 in git output").

Definition git_read (id : string) : M Fs WorkspaceStorageError (option string) :=
  let! _ := lift (map_err WsInvalidResourceId (validate id)) in
  with_err ws_io
    (try_or (let! content := fs_read_to_string (join repo_path (String.append id ".toml")) in ret (Some content))
       (λ e, match e with NotFound => ret None | e => raise e end)).

Definition GitContentStore : VersionedContentStore Fs := mkContentStore git_write git_read.
End git_store.

(** ** The artifacts of extensions *)

Inductive ExtensionStorageError : Type :=
| ExtStorage (e : StorageError)
| ExtHashMismatch
| ExtInvalidResourceId (e : InvalidResourceId).

Definition ext_io (e : IoError) : ExtensionStorageError :=
  ExtStorage (Io match e with NotFound => "not found" | OtherIo e => e end).

Section blob_store.
Context (dir : string).

Definition blob_write (id : string) (artifact : bytes) : M Fs ExtensionStorageError unit :=
  let! _ := lift (map_err ExtInvalidResourceId (validate id)) in
  let! _ := with_err ext_io (fs_create_dir_all dir) in
  with_err ext_io (fs_write (join dir id) artifact).

Definition blob_read (id : string) : M Fs ExtensionStorageError (option bytes) :=
  let! _ := lift (map_err ExtInvalidResourceId (validate id)) in
  with_err ext_io
    (try_or (let! artifact := fs_read (join dir id) in ret (Some artifact))
       (λ e, match e with NotFound => ret None | e => raise e end)).
End blob_store.

(** ** Valid ids name files of the store *)

Lemma append_cons c s t : String.append (String c s) t = String c (String.append s t).
Proof. done. Qed.

Lemma no_slash_app s t : no_slash (String.append s t) = no_slash s && no_slash t.
Proof.
  induction s as [|c s IH]; [done|]. rewrite append_cons. cbn. rewrite IH. by destruct (bool_decide _).
Qed.

Lemma all_chars_no_slash s : all_chars id_char s = true → no_slash s = true.
Proof.
  induction s as [|c s IH]; cbn; [done|]. intros [Hc Hs]%andb_true_iff. rewrite IH by done.
  rewrite bool_decide_eq_false_2; [done|]. intros ->. by vm_compute in Hc.
Qed.

Lemma valid_id_Ok id :
  validate id = Ok tt ↔
    id ≠ "" ∧ (∀ s, id ≠ String "." s) ∧ contains_dots id = false ∧ all_chars id_char id = true.
Proof.
  unfold validate. set (sd := match id with String c _ => _ | _ => _ end).
  assert (sd = false ↔ ∀ s, id ≠ String "." s) as <-.
  { subst sd. destruct id as [|c s]; [split; done|]. rewrite bool_decide_eq_false. naive_solver. }
  destruct (bool_decide (id ≠ "")) eqn:E1, sd, (contains_dots id), (all_chars id_char id); cbn;
    rewrite ?bool_decide_eq_true, ?bool_decide_eq_false in E1; naive_solver.
Qed.

Lemma valid_no_slash id : validate id = Ok tt → no_slash id = true.
Proof. rewrite valid_id_Ok. intros (_ & _ & _ & Hc). by apply all_chars_no_slash. Qed.

Lemma append_inj_l a b c : String.append c a = String.append c b → a = b.
Proof. induction c as [|x c IH]; [done|]. rewrite !append_cons. intros [= He]. by apply IH. Qed.

Lemma append_inj_r a b c : String.append a c = String.append b c → a = b.
Proof.
  intros He. apply (f_equal String.length) in He as Hl. rewrite !string_length_app in Hl.
  by apply (string_app_inj_r_length a b c c) in He as [-> _]; [|lia].
Qed.

(** A name without separators stays directly in the directory. *)
Definition child (dir name : string) : string :=
  if decide (dir = "" ∨ last_char dir = Some "/"%char) then String.append dir name
  else String.append dir (String "/" name).

Lemma join_child dir name : no_slash name = true → join dir name = child dir name.
Proof.
  intros Hn. unfold join. destruct (String.prefix "/" name) eqn:Hp; [|done].
  destruct name as [|c s]; [done|]. cbn in Hn. apply andb_true_iff in Hn as [Hn _].
  change (String.prefix "/" (String c s)) with (if ascii_dec "/" c then String.prefix "" s else false) in Hp.
  destruct (ascii_dec "/" c) as [<-|Hne]; [by vm_compute in Hn|done].
Qed.

Lemma child_inj dir a b : child dir a = child dir b → a = b.
Proof.
  unfold child. case_decide; [apply append_inj_l|]. intros He%append_inj_l. by injection He.
Qed.

Lemma join_inj dir a b :
  no_slash a = true → no_slash b = true → join dir a = join dir b → a = b.
Proof. intros Ha Hb. rewrite !join_child by done. apply child_inj. Qed.

(** ** What the calls do to the files *)

Section fs_laws.
Implicit Types s : Fs.

Lemma fs_write_spec path content s :
  wp (fs_write path content) (λ _ s', files s' = <[path := content]> (files s))
    (λ _ s', ∀ p, p ≠ path → files s' !! p = files s !! p) s.
Proof.
  unfold wp, fs_write, next_fault. destruct s as [fs ds [|[[e|e n]|] faults]]; cbn; try done.
  intros p Hp. by rewrite lookup_insert_ne.
Qed.

Lemma fs_read_spec path s :
  wp (fs_read path) (λ b s', files s' = files s ∧ files s !! path = Some b)
    (λ e s', files s' = files s ∧ (e = NotFound → files s !! path = None)) s.
Proof.
  unfold wp, fs_read, next_fault. destruct s as [fs ds [|[[e|e n]|] faults]]; cbn; try done.
  all: by destruct (fs !! path).
Qed.

Lemma fs_create_dir_all_spec path s :
  wp (fs_create_dir_all path) (λ _ s', files s' = files s) (λ _ s', files s' = files s) s.
Proof.
  unfold wp, fs_create_dir_all, next_fault. by destruct s as [fs ds [|[[e|e n]|] faults]].
Qed.

(** What a store in [dir] holds under an id whose file name is [name id]. *)
Definition content_in (dir : string) (name : string → string) (s : Fs) (id : string) : option bytes :=
  if is_ok (validate id) then files s !! join dir (name id) else None.

Lemma content_in_files dir name s s' : files s' = files s → content_in dir name s' = content_in dir name s.
Proof. unfold content_in. by intros ->. Qed.
End fs_laws.

(** The two naming schemes. *)
Definition toml (id : string) : string := String.append id ".toml".

Lemma toml_no_slash id : validate id = Ok tt → no_slash (toml id) = true.
Proof. intros Hv%valid_no_slash. unfold toml. by rewrite no_slash_app, Hv. Qed.

Lemma toml_inj a b : toml a = toml b → a = b.
Proof. apply append_inj_r. Qed.

Lemma is_ok_validate id : is_ok (validate id) = true ↔ validate id = Ok tt.
Proof. destruct (validate id) as [[]|]; split; done. Qed.

(** Only the content of [id] may differ. *)
Definition only_at (dir : string) (name : string → string) (id : string) (s s' : Fs) : Prop :=
  ∀ id', id' ≠ id → content_in dir name s' id' = content_in dir name s id'.

Lemma only_at_files dir name id s s' : files s' = files s → only_at dir name id s s'.
Proof. intros Hf id' _. by rewrite (content_in_files _ _ _ _ Hf). Qed.

Lemma only_at_trans dir name id s1 s2 s3 :
  only_at dir name id s1 s2 → only_at dir name id s2 s3 → only_at dir name id s1 s3.
Proof. intros H12 H23 id' Hid. by rewrite H23, H12. Qed.

(** A naming scheme: file names of valid ids are distinct and have no separator. *)
Class Naming (name : string → string) := {
  name_no_slash : ∀ id, validate id = Ok tt → no_slash (name id) = true;
  name_inj : ∀ a b, name a = name b → a = b;
}.

#[export] Instance toml_naming : Naming toml := {| name_no_slash := toml_no_slash; name_inj := toml_inj |}.
#[export] Instance id_naming : Naming id := {| name_no_slash := valid_no_slash; name_inj := λ a b H, H |}.

Section naming.
Context (dir : string) (name : string → string) `{!Naming name}.
Implicit Types s : Fs.

Lemma only_at_write id s s' :
  validate id = Ok tt →
  (∀ p, p ≠ join dir (name id) → files s' !! p = files s !! p) → only_at dir name id s s'.
Proof.
  intros Hv Hp id' Hne. unfold content_in. destruct (is_ok (validate id')) eqn:Hv'; [|done].
  apply is_ok_validate in Hv'. apply Hp. intros He. apply Hne, (name_inj (name:=name)).
  apply (join_inj dir); [by apply name_no_slash..|done].
Qed.

Lemma content_in_valid id s : validate id = Ok tt → content_in dir name s id = files s !! join dir (name id).
Proof. intros Hv. unfold content_in. by rewrite Hv. Qed.

Lemma wp_write_file id content (Q : () → Fs → Prop) (F : IoError → Fs → Prop) s :
  validate id = Ok tt →
  (∀ s', content_in dir name s' id = Some content → only_at dir name id s s' → Q tt s') →
  (∀ e s', only_at dir name id s s' → F e s') →
  wp (fs_write (join dir (name id)) content) Q F s.
Proof.
  intros Hv HQ HF. eapply wp_mono; [apply fs_write_spec|..].
  - intros [] s' Hs'. apply HQ.
    + rewrite content_in_valid, Hs' by done. apply lookup_insert_eq.
    + apply only_at_write; [done|]. intros p Hp. by rewrite Hs', lookup_insert_ne.
  - intros e s' Hs'. apply HF. by apply only_at_write.
Qed.

Lemma wp_create_dir id path (Q : () → Fs → Prop) (F : IoError → Fs → Prop) s :
  (∀ s', only_at dir name id s s' → Q tt s') → (∀ e s', only_at dir name id s s' → F e s') →
  wp (fs_create_dir_all path) Q F s.
Proof.
  intros HQ HF. eapply wp_mono; [apply fs_create_dir_all_spec|..].
  - intros [] s' Hs'. by apply HQ, only_at_files.
  - intros e s' Hs'. by apply HF, only_at_files.
Qed.
End naming.

(** Git leaves every content of the store alone. *)
Definition same_contents (dir : string) (name : string → string) (s s' : Fs) : Prop :=
  ∀ id, content_in dir name s' id = content_in dir name s id.

Lemma same_contents_only_at dir name id s s' : same_contents dir name s s' → only_at dir name id s s'.
Proof. intros Hs id' _. apply Hs. Qed.

Lemma wp_git `{!Git, !GitLaws} dir name `{!Naming name} args (Q : Output → Fs → Prop)
    (F : IoError → Fs → Prop) s :
  (∀ o s', same_contents dir name s s' → Q o s') → (∀ e s', same_contents dir name s s' → F e s') →
  wp (git_output dir args) Q F s.
Proof.
  intros HQ HF. assert (same_contents dir name s (git_output dir args s).1) as Hs.
  { intros id. unfold content_in. destruct (is_ok (validate id)) eqn:Hv; [|done].
    apply git_keeps, name_no_slash. by apply is_ok_validate. }
  unfold wp. destruct (git_output dir args s) as [s' [o|e]]; cbn in Hs; auto.
Qed.

#[export] Instance same_contents_trans dir name : Transitive (same_contents dir name).
Proof. intros s1 s2 s3 H12 H23 id. by rewrite H23. Qed.

Lemma wp_path_exists {E} p (Q : bool → Fs → Prop) (F : E → Fs → Prop) s :
  (∀ b, Q b s) → wp (path_exists p) Q F s.
Proof. intros HQ. apply HQ. Qed.

Section git_laws.
Context `{!Git, !GitLaws} (repo : string).
Implicit Types s : Fs.

(** One git command whose failure is an error, between states that agree. *)
Lemma wp_git_ok {A} args (k : Output → M Fs WorkspaceStorageError A) Q F s0 s :
  same_contents repo toml s0 s →
  (∀ s', same_contents repo toml s0 s' → ∀ e, F e s') →
  (∀ o s', same_contents repo toml s0 s' → wp (k o) Q F s') →
  wp (let! output := git repo args in k output) Q F s.
Proof.
  intros Hs HF Hk. unfold git. wp_steps. apply (wp_git _ toml).
  - intros o s' Hs'. apply Hk. by trans s.
  - intros e s' Hs'. apply HF. by trans s.
Qed.

Lemma ok_cases o (Q : Output → Prop) (F : WorkspaceStorageError → Prop) :
  Q o → (∀ e, F e) → match ok o with Ok o => Q o | Err e => F e end.
Proof. intros HQ HF. unfold ok. by destruct (success o). Qed.

Lemma git_initialize_spec id s :
  wp (initialize repo) (λ _, only_at repo toml id s) (λ _, only_at repo toml id s) s.
Proof.
  unfold initialize. wp_steps. apply (wp_create_dir repo toml id); [|done]. intros s1 Hs1. wp_steps.
  apply wp_path_exists. intros []; wp_steps; [done|].
  assert (∀ s', same_contents repo toml s1 s' → only_at repo toml id s s') as Hk.
  { intros s' Hs'. eapply only_at_trans; [done|]. by apply same_contents_only_at. }
  rewrite <- wp_bind. apply (wp_git_ok _ _ _ _ s1); [done|auto|]. intros o s' Hs'. wp_steps.
  apply ok_cases; wp_steps; auto.
Qed.

Theorem git_write_spec id content message s :
  wp (git_write repo id content message)
    (λ _ s', content_in repo toml s' id = Some content ∧ only_at repo toml id s s')
    (λ _ s', only_at repo toml id s s') s.
Proof.
  unfold git_write. wp_steps. destruct (validate id) as [[]|e] eqn:Hv; cbn [map_err]; [|done]. wp_steps.
  eapply wp_mono; [apply (git_initialize_spec id)| |done]. intros [] s1 Hs1. wp_steps.
  apply (wp_write_file repo toml); [done| |intros; by eapply only_at_trans].
  intros s2 Hc2 Hs2.
  assert (∀ s', same_contents repo toml s2 s' →
    content_in repo toml s' id = Some content ∧ only_at repo toml id s s') as Hkeep.
  { intros s' Hs'. split; [by rewrite Hs'|]. do 2 (eapply only_at_trans; [done|]). by apply same_contents_only_at. }
  assert (∀ s', same_contents repo toml s2 s' → only_at repo toml id s s') as Hoff by (intros s' Hs'; by apply Hkeep).
  apply (wp_git_ok _ _ _ _ s2); [done|auto|]. intros o3 s3 Hs3. wp_steps. apply ok_cases; [|auto].
  apply (wp_git_ok _ _ _ _ s2); [done|auto|]. intros o4 s4 Hs4. case_match; [by apply Hoff|].
  apply (wp_git_ok _ _ _ _ s2); [done|auto|]. intros o5 s5 Hs5. wp_steps. apply ok_cases; [|auto].
  case_match; wp_steps; auto.
Qed.

Theorem git_read_spec id s :
  wp (git_read repo id)
    (λ o s', files s' = files s ∧ validate id = Ok tt ∧ o = content_in repo toml s id)
    (λ _ s', files s' = files s) s.
Proof.
  unfold git_read, fs_read_to_string. wp_steps. destruct (validate id) as [[]|e] eqn:Hv; cbn [map_err]; [|done]. wp_steps.
  eapply wp_mono; [apply fs_read_spec|..].
  - intros b s' [Hf Hb]. case_match; wp_steps; [|done]. by rewrite content_in_valid.
  - intros [|e] s' [Hf He]; wp_steps; [|done]. rewrite content_in_valid by done. unfold toml. by rewrite He.
Qed.
End git_laws.

Section blob_laws.
Context (dir : string).
Implicit Types s : Fs.

Theorem blob_write_spec id artifact s :
  wp (blob_write dir id artifact)
    (λ _ s', content_in dir Datatypes.id s' id = Some artifact ∧ only_at dir Datatypes.id id s s')
    (λ _ s', only_at dir Datatypes.id id s s') s.
Proof.
  unfold blob_write. wp_steps. destruct (validate id) as [[]|e] eqn:Hv; cbn [map_err]; [|done]. wp_steps.
  apply (wp_create_dir dir Datatypes.id id); [|done]. intros s1 Hs1. wp_steps.
  apply (wp_write_file dir Datatypes.id); [done|..].
  - intros s2 Hc2 Hs2. split; [done|]. by eapply only_at_trans.
  - intros e s2 Hs2. by eapply only_at_trans.
Qed.

Theorem blob_read_spec id s :
  wp (blob_read dir id)
    (λ o s', files s' = files s ∧ validate id = Ok tt ∧ o = content_in dir Datatypes.id s id)
    (λ _ s', files s' = files s) s.
Proof.
  unfold blob_read. wp_steps. destruct (validate id) as [[]|e] eqn:Hv; cbn [map_err]; [|done]. wp_steps.
  eapply wp_mono; [apply fs_read_spec|..].
  - intros b s' [Hf Hb]. wp_steps. by rewrite content_in_valid.
  - intros [|e] s' [Hf He]; wp_steps; [|done]. rewrite content_in_valid by done. unfold Datatypes.id. by rewrite He.
Qed.
End blob_laws.

(** ** Where the calls write *)

Definition outside (dir : string) (s s' : Fs) : Prop :=
  ∀ path, inside dir path = false → files s' !! path = files s !! path.

#[export] Instance outside_preorder dir : PreOrder (outside dir).
Proof. split; [done|]. intros s1 s2 s3 H12 H23 p Hp. by rewrite H23, H12. Qed.

Lemma prefix_append p a b : String.prefix (String.append p a) (String.append p b) = String.prefix a b.
Proof.
  induction p as [|c p IH]; [done|]. rewrite !append_cons. cbn [String.prefix]. by destruct (ascii_dec c c).
Qed.

Lemma child_inside dir name :
  dir ≠ "" → last_char dir ≠ Some "/"%char → child dir name = String.append dir (String "/" name).
Proof. intros Hd Hl. unfold child. by rewrite decide_False by tauto. Qed.

Lemma inside_child dir name :
  dir ≠ "" → last_char dir ≠ Some "/"%char → inside dir (child dir name) = true.
Proof.
  intros Hd Hl. rewrite child_inside by done. unfold inside. rewrite prefix_append. cbn.
  by destruct name.
Qed.

Section where_calls_write.
Context (dir : string) (Hdir : dir ≠ "") (Hslash : last_char dir ≠ Some "/"%char).
Implicit Types s : Fs.

Lemma wp_write_inside name content s0 s (Q : () → Fs → Prop) (F : IoError → Fs → Prop) :
  no_slash name = true → outside dir s0 s →
  (∀ s', outside dir s0 s' → Q tt s') → (∀ e s', outside dir s0 s' → F e s') →
  wp (fs_write (join dir name) content) Q F s.
Proof.
  intros Hn Hs HQ HF. rewrite join_child by done.
  eapply wp_mono; [apply fs_write_spec|cbn; intros [] s1 Hs1|cbn; intros e s1 Hs1]; [apply HQ|apply HF].
  all: trans s; [done|]; intros p Hp.
  all: assert (p ≠ child dir name) as Hne by (intros ->; by rewrite inside_child in Hp).
  - by rewrite Hs1, lookup_insert_ne.
  - by rewrite Hs1.
Qed.

Lemma wp_create_dir_inside path s0 s (Q : () → Fs → Prop) (F : IoError → Fs → Prop) :
  outside dir s0 s → (∀ s', outside dir s0 s' → Q tt s') → (∀ e s', outside dir s0 s' → F e s') →
  wp (fs_create_dir_all path) Q F s.
Proof.
  intros Hs HQ HF.
  eapply wp_mono; [apply fs_create_dir_all_spec|cbn; intros [] s1 Hs1|cbn; intros e s1 Hs1]; [apply HQ|apply HF].
  all: trans s; [done|]; intros p _; by rewrite Hs1.
Qed.

Lemma wp_git_inside `{!Git, !GitLaws} {A} args (k : Output → M Fs WorkspaceStorageError A) Q F s0 s :
  outside dir s0 s → (∀ s' e, outside dir s0 s' → F e s') →
  (∀ o s', outside dir s0 s' → wp (k o) Q F s') →
  wp (let! output := git dir args in k output) Q F s.
Proof.
  intros Hs HF Hk. unfold git. wp_steps.
  assert (outside dir s0 (git_output dir args s).1) as Ho.
  { trans s; [done|]. intros p Hp. by apply git_confined. }
  unfold wp at 1. destruct (git_output dir args s) as [s' [o|e]]; cbn in Ho; auto.
Qed.

Lemma initialize_inside `{!Git, !GitLaws} s :
  wp (initialize dir) (λ _, outside dir s) (λ _, outside dir s) s.
Proof.
  unfold initialize. wp_steps. apply (wp_create_dir_inside _ s); [done| |done]. intros s1 Hs1. wp_steps.
  apply wp_path_exists. intros []; wp_steps; [done|]. rewrite <- wp_bind.
  apply (wp_git_inside _ _ _ _ s); [done|done|]. intros o s2 Hs2. wp_steps. apply ok_cases; [by wp_steps|done].
Qed.

Theorem git_write_inside `{!Git, !GitLaws} id content message s :
  wp (git_write dir id content message) (λ _, outside dir s) (λ _, outside dir s) s.
Proof.
  unfold git_write. wp_steps. destruct (validate id) as [[]|e] eqn:Hv; cbn [map_err]; [|done].
  wp_steps. eapply wp_mono; [apply initialize_inside|cbn; intros [] s1 Hs1|done].
  wp_steps. apply (wp_write_inside _ _ s); [by apply toml_no_slash|done| |done].
  intros s2 Hs2. apply (wp_git_inside _ _ _ _ s); [done|done|]. intros o3 s3 Hs3. wp_steps. apply ok_cases; [|done].
  apply (wp_git_inside _ _ _ _ s); [done|done|]. intros o4 s4 Hs4. case_match; [done|].
  apply (wp_git_inside _ _ _ _ s); [done|done|]. intros o5 s5 Hs5. wp_steps. apply ok_cases; [|done].
  case_match; by wp_steps.
Qed.

Theorem blob_write_inside id artifact s :
  wp (blob_write dir id artifact) (λ _, outside dir s) (λ _, outside dir s) s.
Proof.
  unfold blob_write. wp_steps. destruct (validate id) as [[]|e] eqn:Hv; cbn [map_err]; [|done].
  wp_steps. apply (wp_create_dir_inside _ s); [done| |done]. intros s1 Hs1. wp_steps.
  apply (wp_write_inside _ _ s); [by apply valid_no_slash|done|done|done].
Qed.
End where_calls_write.
