(* ===== verification/Resources.v ===== *)
(** * Replicated resources
    ([crates/storage/src/workspace/], [extension/mod.rs], [agent/mod.rs])

    The records of skills, rules, workspaces, extensions and memories, the
    domains that store them, and the pipelines by which a node applies what a
    peer sends. A domain's state is the database and the file system; the
    memory backend is reached through its trait [MemoryStorage]. Each pipeline
    holds its domain's mutex for its whole body. *)

From Stdlib Require Import Ascii.
From S2P Require Import Prelude Effects Versioned Tables Pipeline ContentStores.

#[local] Open Scope char_scope.
#[local] Open Scope string_scope.
#[local] Open Scope Z_scope.

(** ** Records *)

(** Skills and rules. *)
Record VersionedResource : Type := mkResource {
  vr_id : string;
  vr_name : string;
  vr_version : Z;
  vr_content_hash : string;
  vr_scope : ResourceScope;
  vr_source_node_id : option string;
  vr_created_at_ms : Z;
  vr_updated_at_ms : Z;
  vr_metadata : gmap string string;
}.

#[export] Instance vr_eq_dec : EqDecision VersionedResource.
Proof. solve_decision. Defined.

#[export] Program Instance vr_countable : Countable VersionedResource :=
  inj_countable'
    (λ r, (vr_id r, vr_name r, vr_version r, vr_content_hash r, vr_scope r, vr_source_node_id r,
           vr_created_at_ms r, vr_updated_at_ms r, vr_metadata r))
    (λ '(i, n, v, h, s, o, c, u, m), mkResource i n v h s o c u m) _.
Next Obligation. by intros []. Qed.

#[export] Instance vr_versioned : VersionedRecord VersionedResource := {|
  version := vr_version; updated_at_ms := vr_updated_at_ms;
  content_hash := vr_content_hash; scope := vr_scope;
|}.

Record WorkspaceRecord : Type := mkWorkspace {
  ws_id : string;
  ws_root : string;
  ws_session_ids : list string;
  ws_metadata : gmap string string;
  ws_scope : ResourceScope;
  ws_source_node_id : option string;
  ws_version : Z;
  ws_content_hash : string;
  ws_created_at_ms : Z;
  ws_updated_at_ms : Z;
}.

#[export] Instance ws_versioned : VersionedRecord WorkspaceRecord := {|
  version := ws_version; updated_at_ms := ws_updated_at_ms;
  content_hash := ws_content_hash; scope := ws_scope;
|}.

Record ExtensionRecord : Type := mkExtension {
  ex_id : string;
  ex_name : string;
  ex_version : Z;
  ex_engine : string;
  ex_entry : string;
  ex_content_hash : string;
  ex_scope : ResourceScope;
  ex_source_node_id : option string;
  ex_created_at_ms : Z;
  ex_updated_at_ms : Z;
  ex_manifest : gmap string string;
  ex_labels : gmap string string;
}.

#[export] Instance ex_versioned : VersionedRecord ExtensionRecord := {|
  version := ex_version; updated_at_ms := ex_updated_at_ms;
  content_hash := ex_content_hash; scope := ex_scope;
|}.

(** An [f32] of an embedding is its bit pattern. *)
Record MemoryEntry : Type := mkMemory {
  me_id : string;
  me_content : bytes;
  me_embedding : list Z;
  me_metadata : gmap string string;
  me_scope : ResourceScope;
  me_source_node_id : option string;
  me_created_at_ms : Z;
  me_updated_at_ms : Z;
  me_content_hash : string;
  me_version : Z;
}.

#[export] Instance me_versioned : VersionedRecord MemoryEntry := {|
  version := me_version; updated_at_ms := me_updated_at_ms;
  content_hash := me_content_hash; scope := me_scope;
|}.

Record Session : Type := mkSession { se_id : string; se_metadata : gmap string string }.

(** blake3 and its hexadecimal rendering. *)
Class Blake3 := { blake3_hex : bytes → string }.

Definition hash_content `{!Blake3} (content : bytes) : string := blake3_hex content.

(** ** The state of a domain *)

Record Store (D : Type) : Type := mkStore { db : D; fs : Fs }.
Arguments mkStore {D}. Arguments db {D}. Arguments fs {D}.

Definition set_db {D} (d : D) (s : Store D) : Store D := mkStore d (fs s).
Definition set_fs {D} (f : Fs) (s : Store D) : Store D := mkStore (db s) f.

Definition in_db {D E A} (m : M D E A) : M (Store D) E A := zoom db set_db m.
Definition in_fs {D E A} (m : M Fs E A) : M (Store D) E A := zoom fs set_fs m.

(** ** Skills and rules *)

(** The trait [VersionedStorage]. *)
Record VersionedStorage (S : Type) : Type := mkVersionedStorage {
  vs_upsert : VersionedResource → M S WorkspaceStorageError unit;
  vs_get : string → M S WorkspaceStorageError (option VersionedResource);
  vs_list : M S WorkspaceStorageError (list VersionedResource);
  vs_list_shared : M S WorkspaceStorageError (list VersionedResource);
  vs_list_local : M S WorkspaceStorageError (list VersionedResource);
  vs_delete : string → M S WorkspaceStorageError unit;
}.
Arguments mkVersionedStorage {S}. Arguments vs_upsert {S}. Arguments vs_get {S}. Arguments vs_list {S}.
Arguments vs_list_shared {S}. Arguments vs_list_local {S}. Arguments vs_delete {S}.

(** [impl VersionedStorage for RedbTableStorage<VersionedResource>] *)
Definition RedbVersionedStorage `{!Redb, !Postcard VersionedResource} (table : string)
    : VersionedStorage (Store Database) := {|
  vs_upsert := λ r, in_db (with_err Storage (Table.upsert table (vr_id r) r));
  vs_get := λ id, in_db (with_err Storage (Table.get table id));
  vs_list := in_db (with_err Storage (Table.list table));
  vs_list_shared :=
    let! l := in_db (with_err Storage (Table.list table)) in
    ret (filter (λ r, vr_scope r = ClusterShared) l);
  vs_list_local :=
    let! l := in_db (with_err Storage (Table.list table)) in
    ret (filter (λ r, vr_scope r = NodeLocal) l);
  vs_delete := λ id, in_db (with_err Storage (Table.delete table id));
|}.

(** A content store seen from the domain. *)
Definition store_content {D} (c : VersionedContentStore Fs) : VersionedContentStore (Store D) :=
  mkContentStore (λ id content message, in_fs (cs_write c id content message)) (λ id, in_fs (cs_read c id)).

Section apply_resource.
Context `{!Blake3} {S : Type}.

Definition apply_remote_resource (record : VersionedResource) (content : string)
    (storage : VersionedStorage S) (content_store : VersionedContentStore S)
    : M S WorkspaceStorageError bool :=
  if decide (content = "") then ret false
  else
    let! _ := lift (map_err (λ _, WsHashMismatch)
                (verify_content_hash (hash_content content) (vr_content_hash record))) in
    let! local := vs_get storage (vr_id record) in
    if negb (should_apply_versioned local record) then ret false
    else
      let! _ :=
        if match local with
           | Some l => bool_decide (vr_content_hash l ≠ vr_content_hash record)
           | None => true
           end
        then
          let! _ := cs_write content_store (vr_id record) content (vr_content_hash record) in ret tt
        else ret tt in
      let! _ := vs_upsert storage record in
      ret true.
End apply_resource.

(** ** Workspaces *)

Definition WORKSPACES : string := "workspaces".
Definition SKILLS : string := "skills".
Definition RULES : string := "rules".

Section workspaces.
Context `{!Redb, !Blake3} `{!Postcard WorkspaceRecord}.

Definition compute_content_hash (w : WorkspaceRecord) : result string WorkspaceStorageError :=
  let canonical := mkWorkspace (ws_id w) (ws_root w) (ws_session_ids w) (ws_metadata w) (ws_scope w)
                     (ws_source_node_id w) (ws_version w) "" (ws_created_at_ms w) 0 in
  let? b := map_err Storage (encode canonical) in
  Ok (hash_content b).

Definition set_content_hash (h : string) (w : WorkspaceRecord) : WorkspaceRecord :=
  mkWorkspace (ws_id w) (ws_root w) (ws_session_ids w) (ws_metadata w) (ws_scope w)
    (ws_source_node_id w) (ws_version w) h (ws_created_at_ms w) (ws_updated_at_ms w).

Definition ws_upsert (w : WorkspaceRecord) : M (Store Database) WorkspaceStorageError unit :=
  let! h := lift (compute_content_hash w) in
  let w := set_content_hash h w in
  in_db (with_err Storage (Table.upsert WORKSPACES (ws_id w) w)).

Definition ws_get (id : string) : M (Store Database) WorkspaceStorageError (option WorkspaceRecord) :=
  in_db (with_err Storage (Table.get WORKSPACES id)).

Definition ws_list : M (Store Database) WorkspaceStorageError (list WorkspaceRecord) :=
  in_db (with_err Storage (Table.list WORKSPACES)).

Definition ws_list_shared : M (Store Database) WorkspaceStorageError (list WorkspaceRecord) :=
  let! l := in_db (with_err Storage (Table.list WORKSPACES)) in
  ret (filter (λ w, ws_scope w = ClusterShared) l).

Definition ws_list_local : M (Store Database) WorkspaceStorageError (list WorkspaceRecord) :=
  let! l := in_db (with_err Storage (Table.list WORKSPACES)) in
  ret (filter (λ w, ws_scope w = NodeLocal) l).

Definition ws_delete (id : string) : M (Store Database) WorkspaceStorageError unit :=
  in_db (with_err Storage (Table.delete WORKSPACES id)).

Definition apply_remote_workspace (record : WorkspaceRecord) : M (Store Database) WorkspaceStorageError bool :=
  let! h := lift (compute_content_hash record) in
  let! _ := lift (map_err (λ _, WsHashMismatch) (verify_content_hash h (ws_content_hash record))) in
  let! local := ws_get (ws_id record) in
  if negb (should_apply_versioned local record) then ret false
  else
    let! _ := ws_upsert record in
    ret true.
End workspaces.

(** [WorkspaceDomain]: its stores, in directories of [data_dir]. *)
Section workspace_domain.
Context `{!Redb, !Blake3, !Git} `{!Postcard VersionedResource} (data_dir : string).

Definition skills : VersionedStorage (Store Database) := RedbVersionedStorage SKILLS.
Definition rules : VersionedStorage (Store Database) := RedbVersionedStorage RULES.
Definition skill_content : VersionedContentStore (Store Database) :=
  store_content (GitContentStore (join data_dir "skills")).
Definition rule_content : VersionedContentStore (Store Database) :=
  store_content (GitContentStore (join data_dir "rules")).

Definition apply_remote_skill (record : VersionedResource) (content : string)
    : M (Store Database) WorkspaceStorageError bool :=
  apply_remote_resource record content skills skill_content.

Definition apply_remote_rule (record : VersionedResource) (content : string)
    : M (Store Database) WorkspaceStorageError bool :=
  apply_remote_resource record content rules rule_content.
End workspace_domain.

(** ** Extensions *)

Definition EXTENSIONS : string := "extensions".

Section extensions.
Context `{!Redb, !Blake3} `{!Postcard ExtensionRecord} (data_dir : string).

(** [data_dir/extensions/blobs] *)
Definition blobs_dir : string := join (join data_dir "extensions") "blobs".

Definition ext_get (id : string) : M (Store Database) ExtensionStorageError (option ExtensionRecord) :=
  in_db (with_err ExtStorage (Table.get EXTENSIONS id)).

Definition ext_list : M (Store Database) ExtensionStorageError (list ExtensionRecord) :=
  in_db (with_err ExtStorage (Table.list EXTENSIONS)).

Definition ext_list_shared : M (Store Database) ExtensionStorageError (list ExtensionRecord) :=
  let! l := ext_list in ret (filter (λ r, ex_scope r = ClusterShared) l).

Definition ext_list_local : M (Store Database) ExtensionStorageError (list ExtensionRecord) :=
  let! l := ext_list in ret (filter (λ r, ex_scope r = NodeLocal) l).

Definition ext_delete (id : string) : M (Store Database) ExtensionStorageError unit :=
  in_db (with_err ExtStorage (Table.delete EXTENSIONS id)).

Definition apply_remote_extension (record : ExtensionRecord) (artifact : bytes)
    : M (Store Database) ExtensionStorageError bool :=
  if decide (artifact = "") then ret false
  else
    let! _ := lift (map_err (λ _, ExtHashMismatch)
                (verify_content_hash (hash_content artifact) (ex_content_hash record))) in
    let! local := ext_get (ex_id record) in
    if negb (should_apply_versioned local record) then ret false
    else
      let! _ :=
        if match local with
           | Some l => bool_decide (ex_content_hash l ≠ ex_content_hash record)
           | None => true
           end
        then in_fs (blob_write blobs_dir (ex_id record) artifact)
        else ret tt in
      let! _ := in_db (with_err ExtStorage (Table.upsert EXTENSIONS (ex_id record) record)) in
      ret true.
End extensions.

(** ** Sessions and memories *)

Definition SESSIONS : string := "agent_sessions".

Inductive AgentStorageError : Type :=
| Backend (message : string)
| AgHashMismatch
| InvalidEmbeddingDim (expected actual : nat).

(** The trait [MemoryStorage]. *)
Record MemoryStorage (S : Type) : Type := mkMemoryStorage {
  ms_store : MemoryEntry → M S AgentStorageError unit;
  ms_recall : list Z → nat → M S AgentStorageError (list MemoryEntry);
  ms_get : string → M S AgentStorageError (option MemoryEntry);
  ms_list : M S AgentStorageError (list MemoryEntry);
  ms_list_shared : M S AgentStorageError (list MemoryEntry);
  ms_list_local : M S AgentStorageError (list MemoryEntry);
}.
Arguments ms_store {S}. Arguments ms_recall {S}. Arguments ms_get {S}. Arguments ms_list {S}.
Arguments ms_list_shared {S}. Arguments ms_list_local {S}. Arguments mkMemoryStorage {S}.

Section sessions.
Context `{!Redb, !Postcard Session} (message : StorageError → string).

(** [From<StorageError> for AgentStorageError] *)
Definition agent_err (e : StorageError) : AgentStorageError := Backend (message e).

Definition session_upsert (s : Session) : M Database AgentStorageError unit :=
  with_err agent_err (Table.upsert SESSIONS (se_id s) s).
Definition session_get (id : string) : M Database AgentStorageError (option Session) :=
  with_err agent_err (Table.get SESSIONS id).
Definition session_list : M Database AgentStorageError (list Session) :=
  with_err agent_err (Table.list SESSIONS).
Definition session_delete (id : string) : M Database AgentStorageError unit :=
  with_err agent_err (Table.delete SESSIONS id).
End sessions.

Section memories.
Context `{!Blake3} {S : Type} (memory : MemoryStorage S).

Definition apply_remote_memory (entry : MemoryEntry) : M S AgentStorageError bool :=
  if decide (me_content entry = "") then ret false
  else
    let! _ := lift (map_err (λ _, AgHashMismatch)
                (verify_content_hash (hash_content (me_content entry)) (me_content_hash entry))) in
    let! local := ms_get memory (me_id entry) in
    if negb (should_apply_versioned local entry) then ret false
    else
      let! _ := ms_store memory entry in
      ret true.
End memories.

(** [LanceDbMemoryStorage::check_dim] *)
Definition check_dim (embedding_dim : nat) (embedding : list Z) : result unit AgentStorageError :=
  if decide (length embedding ≠ embedding_dim)
  then Err (InvalidEmbeddingDim embedding_dim (length embedding)) else Ok tt.

(** [escape_id_for_filter]: [id.replace('\'', "''")] *)
Fixpoint escape_id_for_filter (id : string) : string :=
  match id with
  | EmptyString => EmptyString
  | String c id =>
      if decide (c = "'"%char) then String c (String c (escape_id_for_filter id))
      else String c (escape_id_for_filter id)
  end.

(** [format!("id = '{}'", escape_id_for_filter(id))] *)
Definition id_filter (id : string) : string :=
  String.append "id = '" (String.append (escape_id_for_filter id) "'").
