(* ===== verification/ResourceTheorems.v ===== *)
(** * What applying remote resources guarantees

    The stores of [Resources] satisfy the interface of [Pipeline], so its
    theorems hold of skills, rules and extensions as they are stored; and what
    the pipelines do not guarantee. *)

From Stdlib Require Import Ascii.
From S2P Require Import Prelude Effects Versioned Tables Pipeline ContentStores Resources.

#[local] Open Scope char_scope.
#[local] Open Scope string_scope.
#[local] Open Scope Z_scope.

(** ** Skills and rules *)

Section versioned.
Context `{!Redb, !RedbLaws} `{!Postcard VersionedResource, !PostcardLaws VersionedResource}.
Context `{!Git, !GitLaws} `{!Blake3} (table repo : string).

Definition vr_ops {S} (st : VersionedStorage S) (cs : VersionedContentStore S)
    : Ops S WorkspaceStorageError VersionedResource string :=
  mkOps (vs_get st)
    (λ r c, let! _ := cs_write cs (vr_id r) c (vr_content_hash r) in ret tt)
    (vs_upsert st).

Definition empty_string (c : string) : bool := bool_decide (c = "").

(** Skills and rules go through the common pipeline. *)
Lemma apply_remote_resource_pipeline {S} (st : VersionedStorage S) cs r c s :
  apply_remote_resource r c st cs s =
    pipeline (vr_ops st cs) vr_id empty_string hash_content (λ _, WsHashMismatch) r c s.
Proof.
  unfold apply_remote_resource, pipeline, empty_string.
  case_decide as Hc; [by rewrite bool_decide_eq_true_2|]. rewrite bool_decide_eq_false_2 by done.
  unfold bind, lift. cbn [vr_ops op_get op_write op_upsert content_hash vr_versioned]. destruct (map_err _ _) as [[]|e]; [|done].
  destruct (vs_get st (vr_id r) s) as [s1 [local|e]]; [|done]. destruct (negb _); [done|].
  destruct local as [l|]; [|done]. cbn. case_decide as Hh; case_bool_decide as Hh'; done.
Qed.

Definition the_storage : VersionedStorage (Store Database) := RedbVersionedStorage table.
Definition the_content : VersionedContentStore (Store Database) := store_content (GitContentStore repo).

Definition stored (s : Store Database) : gmap string VersionedResource := view table (db s).
Definition body (s : Store Database) (id : string) : option string := content_in repo toml (fs s) id.

#[export] Instance versioned_laws : PipelineLaws (vr_ops the_storage the_content) vr_id stored body.
Proof.
  split.
  - intros id s. cbn. unfold in_db. wp_steps. eapply wp_mono; [apply get_spec|..].
    + intros o d [-> Hd]. unfold stored, body, view. cbn. by rewrite Hd.
    + intros e d Hd. unfold stored, body, view. cbn. by rewrite Hd.
  - intros r c s. cbn. unfold in_fs. wp_steps. eapply wp_mono; [apply git_write_spec|..].
    + intros h f [Hc Ho]. wp_steps. done.
    + intros e f Ho. done.
  - intros r s. cbn. unfold in_db. wp_steps. eapply wp_mono; [apply upsert_spec|..].
    + intros [] d [Hd _]. unfold stored, body. cbn. by rewrite Hd.
    + intros e d Hd. unfold stored, body, view. cbn. by rewrite Hd.
Qed.

(** *** Runs over the stored skills or rules of a node *)

Definition apply_one (r : VersionedResource) (c : string)
    : M (Store Database) WorkspaceStorageError bool :=
  apply_remote_resource r c the_storage the_content.

Fixpoint apply_each (rs : list (VersionedResource * string)) (s : Store Database)
    : Store Database * list (result bool WorkspaceStorageError) :=
  match rs with
  | [] => (s, [])
  | (r, c) :: rs =>
      let '(s, a) := apply_one r c s in
      let '(s, l) := apply_each rs s in (s, a :: l)
  end.

(** Every stored content is the one its record declares. *)
Definition honest (s : Store Database) : Prop := faithful empty_string hash_content stored body s.

(** The contents that match the hash declared for them. *)
Definition verified (rs : list (VersionedResource * string)) : list VersionedResource :=
  accepted empty_string hash_content rs.

(** Errors come from contents that do not match, never from the disk. *)
Definition disk_worked (rs : list (VersionedResource * string))
    (l : list (result bool WorkspaceStorageError)) : Prop :=
  Forall2 (healthy empty_string hash_content) rs l.

Lemma apply_each_run_all rs s :
  apply_each rs s =
    run_all (vr_ops the_storage the_content) vr_id empty_string hash_content (λ _, WsHashMismatch) rs s.
Proof.
  revert s. induction rs as [|[r c] rs IH]; intros s; [done|]. cbn. unfold apply_one.
  rewrite apply_remote_resource_pipeline. destruct (pipeline _ _ _ _ _ _ _ _) as [s1 a]. by rewrite IH.
Qed.

Lemma apply_one_cases r c s :
  wp (apply_one r c) (applied vr_id empty_string hash_content stored body r c s)
    (λ _, aborted vr_id empty_string hash_content stored body r c s) s.
Proof.
  unfold wp, apply_one. rewrite apply_remote_resource_pipeline.
  apply (pipeline_spec (vr_ops the_storage the_content) vr_id empty_string hash_content
    (λ _, WsHashMismatch) stored body).
Qed.

Lemma apply_each_converges rs s s' l :
  apply_each rs s = (s', l) → disk_worked rs l → honest s →
  honest s' ∧ stored s' = absorb_all vr_id (stored s) (verified rs).
Proof.
  rewrite apply_each_run_all.
  apply (run_all_healthy (vr_ops the_storage the_content) vr_id empty_string hash_content
    (λ _, WsHashMismatch) stored body).
Qed.

Lemma failing_same r c s s1 :
  rtc (λ s s', ∃ e, apply_one r c s = (s', Err e)) s s1 →
  failing (vr_ops the_storage the_content) vr_id empty_string hash_content (λ _, WsHashMismatch) r c s s1.
Proof.
  unfold failing, apply_one. induction 1 as [s|s s0 s1 [e He] _ IH]; [done|].
  eapply rtc_l; [|exact IH]. exists e. by rewrite <- apply_remote_resource_pipeline.
Qed.
End versioned.

(** Two nodes that start with the same skills (or rules) and receive the
    same verified records — in any order, any number of times, among any
    records whose content does not match its hash — end with the same skills,
    and on both every stored body hashes to what its record declares, as long
    as no two different records have the same version, time and hash. *)
Theorem resources_converge `{!Redb, !RedbLaws, !Postcard VersionedResource, !PostcardLaws VersionedResource,
    !Git, !GitLaws, !Blake3} table repo rsA rsB sA sB sA' sB' lA lB :
  stored table sA = stored table sB → honest table repo sA → honest table repo sB →
  apply_each table repo rsA sA = (sA', lA) → apply_each table repo rsB sB = (sB', lB) →
  disk_worked rsA lA → disk_worked rsB lB →
  (∀ r, r ∈ verified rsA ↔ r ∈ verified rsB) → distinguished vr_id (verified rsA) →
  stored table sA' = stored table sB' ∧ honest table repo sA' ∧ honest table repo sB'.
Proof.
  intros Heq HfA HfB HA HB HhA HhB Hsame Hd.
  destruct (apply_each_converges _ _ _ _ _ _ HA HhA HfA) as [HfA' ->].
  destruct (apply_each_converges _ _ _ _ _ _ HB HhB HfB) as [HfB' ->].
  split; [|done]. rewrite Heq. apply absorb_all_ext; [apply _|done..].
Qed.

(** A skill or rule whose application failed any number of times, at any
    call, is repaired by the attempt that succeeds: the outcome is that of one
    successful application, the other skills are untouched, and every stored
    body is again the one its record declares. *)
Theorem failed_apply_repaired `{!Redb, !RedbLaws, !Postcard VersionedResource, !PostcardLaws VersionedResource,
    !Git, !GitLaws, !Blake3} table repo r c s s1 b s2 :
  honest table repo s → rtc (λ s s', ∃ e, apply_one table repo r c s = (s', Err e)) s s1 →
  apply_one table repo r c s1 = (s2, Ok b) →
  b = (accepts empty_string hash_content r c && should_apply_versioned (stored table s !! vr_id r) r) ∧
  stored table s2 = (if b then <[vr_id r := r]> (stored table s) else stored table s) ∧
  honest table repo s2 ∧ (∀ id, id ≠ vr_id r → body repo s2 id = body repo s id).
Proof.
  intros Hf Hfail%failing_same Hok. unfold apply_one in Hok. rewrite apply_remote_resource_pipeline in Hok.
  pose proof (retry_repairs (vr_ops (the_storage table) (the_content repo)) vr_id empty_string hash_content
    (λ _, WsHashMismatch) (stored table) (body repo) r c s s1 b s2 Hfail Hok) as Ha.
  split_and!; [apply Ha|apply Ha| |apply Ha]. by eapply applied_faithful.
Qed.

(** A skill or rule that a node keeps to itself is never changed by what
    peers send under its id, whatever fails meanwhile. *)
Theorem local_resources_protected `{!Redb, !RedbLaws, !Postcard VersionedResource, !PostcardLaws VersionedResource,
    !Git, !GitLaws, !Blake3} table repo rs s s' l id r :
  stored table s !! id = Some r → vr_scope r = NodeLocal → apply_each table repo rs s = (s', l) →
  stored table s' !! id = Some r ∧ body repo s' id = body repo s id.
Proof.
  intros Hr Hloc. revert s l Hr. induction rs as [|[x c] rs IH]; intros s l Hr; cbn; [by intros [= <- <-]|].
  destruct (apply_one table repo x c s) as [s1 a] eqn:Ha. destruct (apply_each table repo rs s1) as [s2 l'] eqn:Hl.
  intros [= <- <-]. pose proof (apply_one_cases table repo x c s) as Hw. unfold wp in Hw. rewrite Ha in Hw.
  assert (stored table s1 !! id = Some r ∧ body repo s1 id = body repo s id) as [Hr1 Hb1].
  { assert (vr_id x = id → wins vr_id empty_string hash_content (stored table) s x c = false) as Hlose.
    { intros <-. unfold wins. rewrite Hr, should_apply_local by done. apply andb_false_r. }
    destruct a as [b|e].
    - destruct Hw as (-> & Hs & Hc & Ho). destruct (decide (id = vr_id x)) as [->|Hne].
      + unfold writes in Hc. rewrite Hlose in Hs, Hc by done. rewrite Hs. by split.
      + split; [|by apply Ho]. rewrite Hs.
        destruct (wins _ _ _ _ _ _ _); [by rewrite lookup_insert_ne|done].
    - destruct Hw as (Hs & Hc & Ho). rewrite Hs. split; [done|].
      destruct (decide (id = vr_id x)) as [->|Hne]; [|by apply Ho].
      apply Hc. unfold writes. by rewrite Hlose. }
  destruct (IH s1 l' Hr1 Hl) as [Hr2 Hb2]. split; [done|congruence].
Qed.

(** The repair stops short of one case. When an update wrote its content
    and then failed to write its record, a later record with the hash of the
    version still recorded is accepted without writing its content, so the
    node records it over the content of the failed update. *)
Theorem stale_content_recorded `{!Redb, !RedbLaws, !Postcard VersionedResource, !PostcardLaws VersionedResource,
    !Git, !GitLaws, !Blake3} table repo r2 c2 r3 c3 s s1 s2 e l :
  stored table s !! vr_id r2 = Some l → apply_one table repo r2 c2 s = (s1, Err e) →
  body repo s1 (vr_id r2) = Some c2 → hash_content c2 ≠ vr_content_hash l →
  vr_id r3 = vr_id r2 → vr_content_hash r3 = vr_content_hash l →
  apply_one table repo r3 c3 s1 = (s2, Ok true) →
  stored table s2 !! vr_id r3 = Some r3 ∧ body repo s2 (vr_id r3) = Some c2 ∧ ¬ honest table repo s2.
Proof.
  intros Hl Hfail Hb1 Hne Hid Hhash Hok.
  pose proof (apply_one_cases table repo r2 c2 s) as Hw2. unfold wp in Hw2. rewrite Hfail in Hw2.
  destruct Hw2 as (Hs1 & _ & _).
  pose proof (apply_one_cases table repo r3 c3 s1) as Hw3. unfold wp in Hw3. rewrite Hok in Hw3.
  destruct Hw3 as (Hb & Hs2 & Hc2 & _). unfold writes, same_content in Hc2. rewrite Hid, Hs1, Hl in Hc2.
  cbn in Hc2. rewrite Hhash, bool_decide_eq_true_2, andb_false_r, Hb1 in Hc2 by done.
  assert (stored table s2 !! vr_id r3 = Some r3) as Hr3 by (rewrite Hs2; apply lookup_insert_eq).
  rewrite Hid in *. split_and!; [done|done|]. intros Hh.
  destruct (Hh _ _ Hr3) as (c & Hc & Hhc). rewrite Hc2 in Hc. injection Hc as <-.
  apply andb_true_iff in Hhc as [_ Hhc]. apply bool_decide_eq_true in Hhc. cbn in Hhc. congruence.
Qed.

(** Two nodes that hold different records of one skill with the same
    version, time and hash never agree: each refuses the other's. *)
Theorem tied_records_diverge `{!Redb, !RedbLaws, !Postcard VersionedResource, !PostcardLaws VersionedResource,
    !Git, !GitLaws, !Blake3} table repo r r' c c' sA sB sA' sB' a b :
  vr_id r = vr_id r' → key r = key r' →
  stored table sA !! vr_id r = Some r → stored table sB !! vr_id r = Some r' →
  apply_one table repo r' c' sA = (sA', a) → apply_one table repo r c sB = (sB', b) →
  stored table sA' !! vr_id r = Some r ∧ stored table sB' !! vr_id r = Some r'.
Proof.
  assert (∀ x y c s s' o, vr_id x = vr_id y → key x = key y → stored table s !! vr_id x = Some x →
    apply_one table repo y c s = (s', o) → stored table s' !! vr_id x = Some x) as Hstay.
  { intros x y d s s' o Hid Hk Hx Hrun. pose proof (apply_one_cases table repo y d s) as Hw. unfold wp in Hw.
    rewrite Hrun in Hw. assert (wins vr_id empty_string hash_content (stored table) s y d = false) as Hlose.
    { unfold wins. rewrite <- Hid, Hx. destruct (should_apply_versioned _ _) eqn:E; [|apply andb_false_r].
      apply should_apply_true in E as [_ E]. destruct (E x eq_refl) as [_ Hlt]. rewrite Hk in Hlt.
      by destruct (irreflexivity ord_lt (key y)). }
    destruct o as [o|o].
    - destruct Hw as (-> & Hs & _). by rewrite Hlose in Hs; rewrite Hs.
    - destruct Hw as (Hs & _). by rewrite Hs. }
  intros Hid Hk HA HB HrA HrB. split; [by eapply Hstay|]. rewrite Hid in HB |- *. by eapply (Hstay r' r).
Qed.

(** ** Extensions *)

Section extension_laws.
Context `{!Redb, !RedbLaws} `{!Postcard ExtensionRecord, !PostcardLaws ExtensionRecord}.
Context `{!Blake3} (data_dir : string).

Definition ex_ops : Ops (Store Database) ExtensionStorageError ExtensionRecord bytes :=
  mkOps ext_get (λ r c, in_fs (blob_write (blobs_dir data_dir) (ex_id r) c))
    (λ r, in_db (with_err ExtStorage (Table.upsert EXTENSIONS (ex_id r) r))).

(** Extensions go through the common pipeline too. *)
Lemma apply_remote_extension_pipeline r c s :
  apply_remote_extension data_dir r c s =
    pipeline ex_ops ex_id empty_string hash_content (λ _, ExtHashMismatch) r c s.
Proof.
  unfold apply_remote_extension, pipeline, empty_string.
  case_decide as Hc; [by rewrite bool_decide_eq_true_2|]. rewrite bool_decide_eq_false_2 by done.
  unfold bind, lift. cbn [ex_ops op_get op_write op_upsert content_hash ex_versioned].
  destruct (map_err _ _) as [[]|e]; [|done].
  destruct (ext_get (ex_id r) s) as [s1 [local|e]]; [|done]. destruct (negb _); [done|].
  destruct local as [l|]; [|done]. case_decide as Hh; case_bool_decide as Hh'; done.
Qed.

Definition extensions (s : Store Database) : gmap string ExtensionRecord := view EXTENSIONS (db s).
Definition artifact (s : Store Database) (id : string) : option bytes :=
  content_in (blobs_dir data_dir) Datatypes.id (fs s) id.

#[export] Instance extension_laws : PipelineLaws ex_ops ex_id extensions artifact.
Proof.
  split.
  - intros id s. cbn. unfold ext_get, in_db. wp_steps. eapply wp_mono; [apply get_spec|..].
    + intros o d [-> Hd]. unfold extensions, artifact, view. cbn. by rewrite Hd.
    + intros e d Hd. unfold extensions, artifact, view. cbn. by rewrite Hd.
  - intros r c s. cbn. unfold in_fs. wp_steps. eapply wp_mono; [apply blob_write_spec|..].
    + intros [] f [Hc Ho]. done.
    + intros e f Ho. done.
  - intros r s. cbn. unfold in_db. wp_steps. eapply wp_mono; [apply upsert_spec|..].
    + intros [] d [Hd _]. unfold extensions, artifact. cbn. by rewrite Hd.
    + intros e d Hd. unfold extensions, artifact, view. cbn. by rewrite Hd.
Qed.

(** Only the blob of a valid id may differ between two file systems. *)
Definition confined (id : string) (s s' : Fs) : Prop :=
  ∀ p, files s' !! p = files s !! p ∨ (validate id = Ok tt ∧ p = child (blobs_dir data_dir) id).

Lemma blob_write_confined id c s :
  wp (blob_write (blobs_dir data_dir) id c) (λ _, confined id s) (λ _, confined id s) s.
Proof.
  unfold blob_write. wp_steps. destruct (validate id) as [[]|e] eqn:Hv; cbn [map_err]; [|by left].
  wp_steps. eapply wp_mono; [apply fs_create_dir_all_spec|cbn; intros _ s1 Hs1|cbn; intros e s1 Hs1].
  - wp_steps. rewrite join_child by (by apply valid_no_slash).
    eapply wp_mono; [apply fs_write_spec|cbn; intros [] s2 Hs2 p|cbn; intros e s2 Hs2 p];
      (destruct (decide (p = child (blobs_dir data_dir) id)) as [->|Hp]; [by right|left]).
    + by rewrite Hs2, lookup_insert_ne, Hs1.
    + by rewrite Hs2, Hs1.
  - intros p. left. by rewrite Hs1.
Qed.

Lemma wp_in_db {A} (m : M Database ExtensionStorageError A) (Q : A → Store Database → Prop)
    (F : ExtensionStorageError → Store Database → Prop) s :
  (∀ a d, Q a (set_db d s)) → (∀ e d, F e (set_db d s)) → wp (in_db m) Q F s.
Proof. intros HQ HF. unfold in_db. wp_steps. by apply wp_intro. Qed.

Lemma apply_extension_confined r c s :
  wp (apply_remote_extension data_dir r c)
    (λ _ s', confined (ex_id r) (fs s) (fs s')) (λ _ s', confined (ex_id r) (fs s) (fs s')) s.
Proof.
  unfold apply_remote_extension. case_decide; [by left|]. wp_steps. destruct (map_err _ _) as [[]|e]; [|by left].
  wp_steps. apply wp_in_db; [|by left]. intros local d. case_match; [by left|]. wp_steps.
  assert (∀ s1, confined (ex_id r) (fs s) (fs s1) →
    wp (let! _ := in_db (with_err ExtStorage (Table.upsert EXTENSIONS (ex_id r) r)) in ret true)
      (λ _ s', confined (ex_id r) (fs s) (fs s')) (λ _ s', confined (ex_id r) (fs s) (fs s')) s1) as Hup.
  { intros s1 Hs1. wp_steps. apply wp_in_db; intros; wp_steps; apply Hs1. }
  case_match; [|wp_steps; rewrite <- wp_bind; apply (Hup (set_db d s)); by left].
  unfold in_fs. wp_steps. eapply wp_mono; [apply blob_write_confined|..]; cbn.
  - intros [] f Hf. rewrite <- ?wp_bind. by apply Hup.
  - intros e f Hf. done.
Qed.
End extension_laws.

(** C36: Whatever extension record and artifact a peer sends, and whatever
    fails, the only file that may change is the blob named by the record's id,
    directly inside the blob directory, and only if that id is valid: no
    separators, no leading dot, no [..]. *)
Theorem artifact_confined `{!Redb, !Blake3, !Postcard ExtensionRecord} data_dir r c s p :
  let s' := (apply_remote_extension data_dir r c s).1 in
  files (fs s') !! p ≠ files (fs s) !! p →
  p = child (blobs_dir data_dir) (ex_id r) ∧ no_slash (ex_id r) = true ∧ ex_id r ≠ "" ∧
  (∀ x, ex_id r ≠ String "." x) ∧ contains_dots (ex_id r) = false.
Proof.
  intros s' Hp. pose proof (apply_extension_confined data_dir r c s) as Hw. unfold wp in Hw.
  assert (confined data_dir (ex_id r) (fs s) (fs s')) as Hc.
  { subst s'. by destruct (apply_remote_extension data_dir r c s) as [s1 [b|e]]. }
  destruct (Hc p) as [?|[Hv ->]]; [done|]. split; [done|]. split; [by apply valid_no_slash|].
  apply valid_id_Ok in Hv. naive_solver.
Qed.

(** ** Workspaces *)

Section workspace_laws.
Context `{!Redb, !RedbLaws, !Blake3} `{!Postcard WorkspaceRecord, !PostcardLaws WorkspaceRecord}.

Definition workspaces (s : Store Database) : gmap string WorkspaceRecord := view WORKSPACES (db s).

Lemma set_same_hash w : set_content_hash (ws_content_hash w) w = w.
Proof. by destruct w. Qed.
End workspace_laws.

(** A remote workspace is stored exactly when it hashes to what it
    declares and wins the conflict rule; then it is stored as sent. In every
    other outcome, failures included, the stored workspaces are unchanged. *)
Theorem workspace_apply_exact `{!Redb, !RedbLaws, !Blake3, !Postcard WorkspaceRecord, !PostcardLaws WorkspaceRecord} w s :
  wp (apply_remote_workspace w)
    (λ b s', compute_content_hash w = Ok (ws_content_hash w) ∧
       b = should_apply_versioned (workspaces s !! ws_id w) w ∧
       workspaces s' = if b then <[ws_id w := w]> (workspaces s) else workspaces s)
    (λ _ s', workspaces s' = workspaces s) s.
Proof.
  unfold apply_remote_workspace, ws_get, in_db. wp_steps.
  destruct (compute_content_hash w) as [h|e] eqn:Hh; [|done]. wp_steps.
  unfold verify_content_hash. case_decide as Hd; [done|]. cbn. wp_steps.
  assert (h = ws_content_hash w) as -> by (by destruct (decide (h = ws_content_hash w))).
  eapply wp_mono; [apply get_spec|cbn; intros o d [-> Hdb]|cbn; intros e d Hdb]; cycle 1.
  { unfold workspaces, view. cbn. by rewrite Hdb. }
  assert (workspaces (set_db d s) = workspaces s) as Hws by (unfold workspaces, view; cbn; by rewrite Hdb).
  destruct (should_apply_versioned _ w) eqn:Hs; cbn [negb]; wp_steps; [|by rewrite Hws].
  unfold ws_upsert, in_db. rewrite Hh. wp_steps. rewrite set_same_hash.
  eapply wp_mono; [apply upsert_spec|cbn; intros _ d' [Hd' _]|cbn; intros e d' Hd'].
  - wp_steps. split_and!; [done..|]. unfold workspaces at 1. cbn. rewrite Hd'. by rewrite <- Hws.
  - unfold workspaces, view. cbn. by rewrite Hd', Hdb.
Qed.

(** ** Memories *)

(** What the trait [MemoryStorage] promises: [mems] are the entries held. The
    columns of the backend write no origin as the empty string, so an entry
    whose origin is the empty string is not kept as it is. *)
Class MemoryLaws {S} (memory : MemoryStorage S) (mems : S → gmap string MemoryEntry) := {
  ms_get_law id s :
    wp (ms_get memory id) (λ o s', o = mems s !! id ∧ mems s' = mems s) (λ _ s', mems s' = mems s) s;
  ms_store_law entry s :
    me_source_node_id entry ≠ Some "" →
    wp (ms_store memory entry) (λ _ s', mems s' = <[me_id entry := entry]> (mems s))
      (λ _ s', mems s' = mems s) s;
}.

(** A remote memory is stored exactly when it is not empty, hashes to what it
    declares and wins the conflict rule. *)
Theorem memory_apply_exact `{!Blake3} {S} (memory : MemoryStorage S) mems `{!MemoryLaws memory mems} entry s :
  me_source_node_id entry ≠ Some "" →
  wp (apply_remote_memory memory entry)
    (λ b s',
       b = (bool_decide (me_content entry ≠ "") && should_apply_versioned (mems s !! me_id entry) entry) ∧
       mems s' = if b then <[me_id entry := entry]> (mems s) else mems s)
    (λ _ s', mems s' = mems s) s.
Proof.
  intros Hsrc. unfold apply_remote_memory. case_decide as Hc; [by rewrite bool_decide_eq_false_2 by tauto|].
  rewrite bool_decide_eq_true_2 by done. wp_steps. unfold verify_content_hash. case_decide as Hd; [done|]. cbn.
  wp_steps. eapply wp_mono; [apply ms_get_law|cbn; intros o s1 [-> Hs1]|done].
  destruct (should_apply_versioned _ entry); cbn [negb]; wp_steps; [|done].
  eapply wp_mono; [by apply ms_store_law|cbn; intros [] s2 Hs2|cbn; intros e s2 Hs2]; wp_steps.
  - by rewrite Hs2, Hs1.
  - by rewrite Hs2.
Qed.

(** ** Ids in query filters

    How a SQL lexer reads a string literal after its opening quote: up to the
    first quote that is not doubled. *)
Fixpoint read_literal (s : string) : option (string * string) :=
  match s with
  | EmptyString => None
  | String c s =>
      if decide (c = "'"%char) then
        match s with
        | String d s' =>
            if decide (d = "'"%char)
            then '(id, rest) ← read_literal s'; Some (String c id, rest)
            else Some (EmptyString, s)
        | EmptyString => Some (EmptyString, EmptyString)
        end
      else '(id, rest) ← read_literal s; Some (String c id, rest)
  end.

(** The filter that looks a memory up by id contains one string literal,
    which reads back as the id, with nothing after it: no id, whatever quotes
    a peer puts in it, escapes from the literal. *)
Theorem id_filter_exact id :
  ∃ rest, id_filter id = String.append "id = '" rest ∧ read_literal rest = Some (id, "").
Proof.
  exists (String.append (escape_id_for_filter id) "'"). split; [done|].
  induction id as [|c id IH]; [done|].
  change (escape_id_for_filter (String c id)) with
    (if decide (c = "'"%char) then String c (String c (escape_id_for_filter id))
     else String c (escape_id_for_filter id)).
  case_decide as Hc.
  - subst c. rewrite !append_cons. cbn. by rewrite IH.
  - rewrite append_cons. cbn. rewrite decide_False by done. by rewrite IH.
Qed.

(** ** Instances *)

#[local] Existing Instance toy_postcard.
#[local] Existing Instance toy_postcard_laws.
#[local] Existing Instance toy_redb.
#[local] Existing Instance toy_redb_laws.

(** A hash that is the content, a git that succeeds without an effect. *)
#[local] Instance toy_blake3 : Blake3 := {| blake3_hex := λ c, c |}.
#[local] Instance toy_git : Git := {| git_output := λ _ _ s, (s, Ok (mkOutput (Some 0) "0abc" "")) |}.
#[local] Instance toy_git_laws : GitLaws.
Proof. by split. Defined.

Definition toy_skill (name content : string) (v : Z) : VersionedResource :=
  mkResource "skill-1" name v content ClusterShared None 0 0 ∅.

(** A node whose database fails as [faults] says. *)
Definition toy_node (faults : list bool) : Store ToyDatabase := mkStore (mkToy ∅ faults) (mkFs ∅ ∅ []).

Definition toy_apply (r : VersionedResource) (c : string) (s : Store ToyDatabase) : Store ToyDatabase :=
  (apply_one "skills" "/data/skills" r c s).1.

Lemma empty_honest : honest "skills" "/data/skills" (toy_node [] : Store Database).
Proof. intros id r. by vm_compute. Qed.

Lemma resources_converge_witness :
  let r1 := toy_skill "a" "one" 1 in
  let r2 := toy_skill "b" "two" 2 in
  let s := toy_node [] : Store Database in
  let sA := toy_apply r2 "two" (toy_apply r1 "one" s) : Store Database in
  let sB := toy_apply r1 "one" (toy_apply r1 "zzz" (toy_apply r2 "two" s)) : Store Database in
  stored "skills" sA = stored "skills" sB ∧ honest "skills" "/data/skills" sA ∧
  honest "skills" "/data/skills" sB.
Proof.
  intros r1 r2 s sA sB.
  apply (resources_converge "skills" "/data/skills" [(r1, "one"); (r2, "two")]
    [(r2, "two"); (r1, "zzz"); (r1, "one")] s s sA sB [Ok true; Ok true]
    [Ok true; Err WsHashMismatch; Ok false]); try exact empty_honest; try (vm_compute; reflexivity).
  - repeat constructor.
  - repeat constructor.
  - intros r. change (r ∈ [r1; r2] ↔ r ∈ [r2; r1]). set_solver.
  - intros r r'. change (r ∈ [r1; r2] → r' ∈ [r1; r2] → vr_id r = vr_id r' → key r = key r' → r = r').
    intros Hr Hr' _ Hk. set_unfold in Hr. set_unfold in Hr'.
    destruct Hr as [->|[->|[]]], Hr' as [->|[->|[]]]; first [done|discriminate].
Defined.

Lemma failed_apply_repaired_witness :
  let r := toy_skill "a" "one" 1 in
  let s := toy_node [false; false; true] : Store Database in
  let s1 := toy_apply r "one" s in
  let s2 := toy_apply r "one" s1 : Store Database in
  stored "skills" s2 = {["skill-1" := r]} ∧ honest "skills" "/data/skills" s2.
Proof.
  intros r s s1 s2.
  destruct (failed_apply_repaired "skills" "/data/skills" r "one" s s1 true s2) as (_ & Hs & Hh & _).
  - intros id x. by vm_compute.
  - apply rtc_once. exists (Storage (RedbFailure (OtherRedbError "I/O error"))). vm_compute. reflexivity.
  - vm_compute. reflexivity.
  - split; [rewrite Hs; vm_compute; reflexivity|done].
Defined.

Lemma local_resources_protected_witness :
  let mine := mkResource "skill-1" "mine" 1 "one" NodeLocal None 0 0 ∅ in
  let s := (Table.upsert "skills" "skill-1" mine (mkToy ∅ [])).1 in
  let n := mkStore s (mkFs {["/data/skills/skill-1.toml" := "one"]} ∅ []) : Store Database in
  let n' := toy_apply (toy_skill "b" "two" 2) "two" n : Store Database in
  stored "skills" n' !! "skill-1" = Some mine ∧ body "/data/skills" n' "skill-1" = body "/data/skills" n "skill-1".
Proof.
  intros mine s n n'.
  apply (local_resources_protected "skills" "/data/skills" [(toy_skill "b" "two" 2, "two")] n n' [Ok false]);
    vm_compute; reflexivity.
Defined.

Lemma stale_content_recorded_witness :
  let r1 := toy_skill "a" "one" 1 in
  let r2 := toy_skill "a" "two" 2 in
  let r3 := toy_skill "a" "one" 3 in
  let s := toy_apply r1 "one" (toy_node [false; false; false; false; false; true]) : Store Database in
  let s1 := toy_apply r2 "two" s : Store Database in
  let s2 := toy_apply r3 "one" s1 : Store Database in
  honest "skills" "/data/skills" (toy_node [] : Store Database) ∧
  stored "skills" s2 !! "skill-1" = Some r3 ∧ body "/data/skills" s2 "skill-1" = Some "two" ∧
  ¬ honest "skills" "/data/skills" s2.
Proof.
  intros r1 r2 r3 s s1 s2. split; [exact empty_honest|].
  apply (stale_content_recorded "skills" "/data/skills" r2 "two" r3 "one" s s1 s2
    (Storage (RedbFailure (OtherRedbError "I/O error"))) r1); try (vm_compute; reflexivity).
  by vm_compute.
Defined.

Lemma tied_records_diverge_witness :
  let r := toy_skill "a" "one" 1 in
  let r' := toy_skill "b" "one" 1 in
  let sA := toy_apply r "one" (toy_node []) : Store Database in
  let sB := toy_apply r' "one" (toy_node []) : Store Database in
  r ≠ r' ∧ stored "skills" (toy_apply r' "one" sA : Store Database) !! "skill-1" = Some r ∧
  stored "skills" (toy_apply r "one" sB : Store Database) !! "skill-1" = Some r'.
Proof.
  intros r r' sA sB. split; [discriminate|].
  apply (tied_records_diverge "skills" "/data/skills" r r' "one" "one" sA sB
    (toy_apply r' "one" sA) (toy_apply r "one" sB) (Ok false) (Ok false)); vm_compute; reflexivity.
Defined.

(** An extension whose artifact is written. *)
#[local] Instance ex_eq_dec : EqDecision ExtensionRecord.
Proof. solve_decision. Defined.
#[local] Program Instance ex_countable : Countable ExtensionRecord :=
  inj_countable'
    (λ r, (ex_id r, ex_name r, ex_version r, ex_engine r, ex_entry r, ex_content_hash r,
           (ex_scope r, ex_source_node_id r, ex_created_at_ms r, ex_updated_at_ms r, ex_manifest r, ex_labels r)))
    (λ '(i, n, v, g, y, h, (s, o, c, u, m, l)), mkExtension i n v g y h s o c u m l) _.
Next Obligation. by intros []. Qed.

Lemma artifact_confined_witness :
  let r := mkExtension "ext-1" "e" 1 "lua" "invoke" "code" ClusterShared None 0 0 ∅ ∅ in
  let s := toy_node [] : Store Database in
  let s' := (apply_remote_extension "/data" r "code" s).1 in
  files (fs s') !! "/data/extensions/blobs/ext-1" = Some "code" ∧
  "/data/extensions/blobs/ext-1" = child (blobs_dir "/data") "ext-1" ∧ no_slash "ext-1" = true.
Proof.
  intros r s s'. split; [by vm_compute|].
  destruct (artifact_confined "/data" r "code" s "/data/extensions/blobs/ext-1") as (H1 & H2 & _); [by vm_compute|].
  by split.
Defined.

#[local] Instance ws_eq_dec : EqDecision WorkspaceRecord.
Proof. solve_decision. Defined.
#[local] Program Instance ws_countable : Countable WorkspaceRecord :=
  inj_countable'
    (λ r, (ws_id r, ws_root r, ws_session_ids r, ws_metadata r, ws_scope r, ws_source_node_id r,
           (ws_version r, ws_content_hash r, ws_created_at_ms r, ws_updated_at_ms r)))
    (λ '(i, r, ss, m, s, o, (v, h, c, u)), mkWorkspace i r ss m s o v h c u) _.
Next Obligation. by intros []. Qed.

Lemma workspace_apply_exact_witness :
  let w0 := mkWorkspace "ws-1" "/src" [] ∅ ClusterShared None 1 "" 0 0 in
  let w := match compute_content_hash w0 with Ok h => set_content_hash h w0 | Err _ => w0 end in
  let s := toy_node [] : Store Database in
  let s' := (apply_remote_workspace w s).1 in
  workspaces s' = <[ws_id w := w]> (workspaces s).
Proof.
  intros w0 w s s'. pose proof (workspace_apply_exact w s) as Hw. unfold wp in Hw.
  assert ((apply_remote_workspace w s).2 = Ok true) as Hok by (vm_compute; reflexivity).
  subst s'. destruct (apply_remote_workspace w s) as [s1 r]. cbn in Hok. subst r. exact (proj2 (proj2 Hw)).
Defined.
