(* ===== verification/Memories.v ===== *)
(** * The memory backend ([crates/storage/src/agent/mod.rs])

    How the entries of [Resources] are rows of a LanceDB table, and how the
    backend answers through the trait [MemoryStorage]. LanceDB is third-party: the
    class [Lance] is its connection, its table and its queries, [LanceLaws] their
    documented effects. A record batch is given by its rows; the columns are found
    by name and checked when they are read, as in the code. The second part
    discharges the interface [MemoryLaws] against which the rest of the library is
    proved. *)

From Stdlib Require Import Ascii.
From S2P Require Import Prelude.
From S2P Require Import Effects.
From S2P Require Import Versioned.
From S2P Require Import Tables.
From S2P Require Import ContentStores.
From S2P Require Import Resources.
From S2P Require Import ResourceTheorems.

#[local] Open Scope char_scope.
#[local] Open Scope string_scope.
#[local] Open Scope Z_scope.

(** ** Record batches *)

(** The types of columns; the flag of a list says that its items are [f32]. *)
Inductive DataType : Type :=
| Utf8
| BinaryType
| FixedSizeList (floats : bool) (size : nat)
| Int64
| UInt64.

#[export] Instance datatype_eq_dec : EqDecision DataType.
Proof. solve_decision. Defined.

Record Field : Type := mkField { f_name : string; f_type : DataType; f_nullable : bool }.

Inductive Cell : Type :=
| CUtf8 (v : option string)
| CBinary (v : option bytes)
| CList (v : list Z)
| CInt64 (v : Z)
| CUInt64 (v : Z).

#[export] Instance cell_eq_dec : EqDecision Cell.
Proof. solve_decision. Defined.

Record RecordBatch : Type := mkBatch { fields : list Field; batch_rows : list (list Cell) }.

Definition fits (f : Field) (c : Cell) : bool :=
  match f_type f, c with
  | Utf8, CUtf8 v => f_nullable f || bool_decide (is_Some v)
  | BinaryType, CBinary v => f_nullable f || bool_decide (is_Some v)
  | FixedSizeList _ n, CList v => bool_decide (length v = n)
  | Int64, CInt64 _ | UInt64, CUInt64 _ => true
  | _, _ => false
  end.

Definition fits_row (fs : list Field) (row : list Cell) : bool :=
  bool_decide (length row = length fs) && forallb (λ fc, fits fc.1 fc.2) (zip fs row).

(** Which column a name finds, and its type. *)
Definition column_by_name (name : string) (fs : list Field) : option (nat * DataType) :=
  '(i, f) ← list_find (λ f, f_name f = name) fs; Some (i, f_type f).

(** [value(i)] of a column: a null string reads as the empty one. *)
Definition text_at (i : nat) (row : list Cell) : string :=
  match row !! i with Some (CUtf8 v) => default "" v | _ => "" end.
Definition bytes_at (i : nat) (row : list Cell) : bytes :=
  match row !! i with Some (CBinary v) => default "" v | _ => "" end.
Definition floats_at (i : nat) (row : list Cell) : list Z :=
  match row !! i with Some (CList v) => v | _ => [] end.
Definition i64_at (i : nat) (row : list Cell) : Z :=
  match row !! i with Some (CInt64 v) => v | _ => 0 end.
Definition u64_at (i : nat) (row : list Cell) : Z :=
  match row !! i with Some (CUInt64 v) => v | _ => 0 end.

(** ** LanceDB *)

Inductive LanceError : Type := TableNotFound | OtherLance (what : string).

Class Lance := {
  LanceDb : Type;
  Table : Type;
  lance_connect : string → M LanceDb string ();
  open_table : string → M LanceDb LanceError Table;
  create_table : string → RecordBatch → M LanceDb string ();
  (** [merge_insert], updating every column of matched rows, inserting the others. *)
  merge_insert : Table → list string → RecordBatch → M LanceDb string ();
  (** A query, filtered or not, and the batches of its stream. *)
  run_query : Table → option string → M LanceDb string (list RecordBatch);
  run_nearest : Table → list Z → nat → M LanceDb string (list RecordBatch);
  (** Texts of the errors of LanceDB and Arrow. *)
  not_found_text : string;
  arrow_error : string;
}.

Definition lance_text `{!Lance} (e : LanceError) : string :=
  match e with TableNotFound => not_found_text | OtherLance what => what end.

(** [RecordBatch::try_new]: the rows have the shape of the schema. *)
Definition try_new `{!Lance} (fs : list Field) (rows : list (list Cell)) : result RecordBatch string :=
  if forallb (fits_row fs) rows then Ok (mkBatch fs rows) else Err arrow_error.

Definition MEMORY_TABLE : string := "memories".
Definition DEFAULT_EMBEDDING_DIM : nat := 384.

(** ** The backend *)

Record Backend_ `{!Lance} : Type := mkBackend { database : LanceDb; connected : bool }.
Arguments mkBackend {_}.

Section backend.
Context `{!Lance, !Postcard (gmap string string)}.
Context (uri : string) (embedding_dim : nat) (message : StorageError → string).

Abbreviation Agent := (M Backend_ AgentStorageError).

(** [backend_err] *)
Definition backend_err (what : string) : AgentStorageError := Backend what.

Definition on_database {E A} (m : M LanceDb E A) : M Backend_ E A :=
  zoom database (λ d b, mkBackend d (connected b)) m.

(** The connection is opened once. *)
Definition connection : Agent () := λ b,
  if connected b then (b, Ok tt)
  else
    match on_database (lance_connect uri) b with
    | (b, Ok _) => (mkBackend (database b) true, Ok tt)
    | (b, Err e) => (b, Err (backend_err e))
    end.

Definition schema : list Field := [
  mkField "id" Utf8 false;
  mkField "content" BinaryType true;
  mkField "metadata" BinaryType true;
  mkField "embedding" (FixedSizeList true embedding_dim) true;
  mkField "scope" Utf8 false;
  mkField "source_node_id" Utf8 true;
  mkField "created_at_ms" Int64 false;
  mkField "updated_at_ms" Int64 false;
  mkField "content_hash" Utf8 false;
  mkField "version" UInt64 false].

(** A row of [batch_for]. *)
Definition row_of (e : MemoryEntry) : result (list Cell) StorageError :=
  let? metadata := encode (me_metadata e) in
  Ok [CUtf8 (Some (me_id e)); CBinary (Some (me_content e)); CBinary (Some metadata); CList (me_embedding e);
      CUtf8 (Some (as_str (me_scope e))); CUtf8 (me_source_node_id e);
      CInt64 (me_created_at_ms e); CInt64 (me_updated_at_ms e);
      CUtf8 (Some (me_content_hash e)); CUInt64 (me_version e)].

Definition batch_for (entries : list MemoryEntry) : result RecordBatch AgentStorageError :=
  let? rows := map_err (agent_err message) (collect (row_of <$> entries)) in
  map_err backend_err (try_new schema rows).

(** *** Reading rows *)

Definition column (name : string) (fs : list Field) : result (nat * DataType) AgentStorageError :=
  ok_or (column_by_name name fs) (Backend ("missing " +:+ name +:+ " column")).

Definition downcast (name : string) (is_type : DataType → bool) (c : nat * DataType) : result nat AgentStorageError :=
  if is_type c.2 then Ok c.1 else Err (Backend (name +:+ " column has wrong type")).

Definition is_utf8_type (t : DataType) : bool := match t with Utf8 => true | _ => false end.
Definition is_binary_type (t : DataType) : bool := match t with BinaryType => true | _ => false end.
Definition is_list_type (t : DataType) : bool := match t with FixedSizeList _ _ => true | _ => false end.
Definition is_int64_type (t : DataType) : bool := match t with Int64 => true | _ => false end.
Definition is_uint64_type (t : DataType) : bool := match t with UInt64 => true | _ => false end.

(** The columns, in the order of [parse_memory_batch]. *)
Record Columns : Type := mkColumns {
  ids : nat; contents : nat; metadatas : nat; embeddings : nat; scopes : nat; source_node_ids : nat;
  created : nat; updated : nat; content_hashes : nat; versions : nat;
}.

Definition find_columns (fs : list Field) : result Columns AgentStorageError :=
  let? id_col := column "id" fs in
  let? content_col := column "content" fs in
  let? metadata_col := column "metadata" fs in
  let? embedding_col := column "embedding" fs in
  let? scope_col := column "scope" fs in
  let? source_node_id_col := column "source_node_id" fs in
  let? created_at_ms_col := column "created_at_ms" fs in
  let? updated_at_ms_col := column "updated_at_ms" fs in
  let? content_hash_col := column "content_hash" fs in
  let? version_col := column "version" fs in
  let? ids := downcast "id" is_utf8_type id_col in
  let? contents := downcast "content" is_binary_type content_col in
  let? metadata := downcast "metadata" is_binary_type metadata_col in
  let? embeddings := downcast "embedding" is_list_type embedding_col in
  let? scopes := downcast "scope" is_utf8_type scope_col in
  let? source_node_ids := downcast "source_node_id" is_utf8_type source_node_id_col in
  let? created_at_ms := downcast "created_at_ms" is_int64_type created_at_ms_col in
  let? updated_at_ms := downcast "updated_at_ms" is_int64_type updated_at_ms_col in
  let? content_hashes := downcast "content_hash" is_utf8_type content_hash_col in
  let? versions := downcast "version" is_uint64_type version_col in
  Ok (mkColumns ids contents metadata embeddings scopes source_node_ids created_at_ms updated_at_ms
        content_hashes versions).

(** The items of the embedding column are [f32]. *)
Definition float_items (fs : list Field) (c : Columns) : bool :=
  match fs !! embeddings c with
  | Some {| f_type := FixedSizeList floats _ |} => floats
  | _ => false
  end.

Definition unknown_scope_text (raw : string) : string :=
  "unknown resource scope '" +:+ raw +:+ "', expected 'shared' or 'local'".

Definition parse_row (floats : bool) (c : Columns) (row : list Cell) : result MemoryEntry AgentStorageError :=
  let? embedding := if floats then Ok (floats_at (embeddings c) row)
                    else Err (Backend "embedding values have wrong type") in
  let? metadata := map_err (agent_err message) (decode (bytes_at (metadatas c) row)) in
  let? scope := map_err (λ raw, Backend (unknown_scope_text raw)) (from_str (text_at (scopes c) row)) in
  let source := text_at (source_node_ids c) row in
  Ok (mkMemory (text_at (ids c) row) (bytes_at (contents c) row) embedding metadata scope
        (if decide (source = "") then None else Some source)
        (i64_at (created c) row) (i64_at (updated c) row) (text_at (content_hashes c) row) (u64_at (versions c) row)).

Definition parse_memory_batch (b : RecordBatch) : result (list MemoryEntry) AgentStorageError :=
  let? c := find_columns (fields b) in
  collect (parse_row (float_items (fields b) c) c <$> batch_rows b).

(** *** The operations *)

Definition memory_table : Agent (option Table) :=
  let! _ := connection in
  λ b, match on_database (open_table MEMORY_TABLE) b with
       | (b, Ok table) => (b, Ok (Some table))
       | (b, Err TableNotFound) => (b, Ok None)
       | (b, Err error) => (b, Err (backend_err (lance_text error)))
       end.

Definition collect_entries (query : M LanceDb string (list RecordBatch)) : Agent (list MemoryEntry) :=
  let! batches := with_err backend_err (on_database query) in
  let! parsed := lift (collect (parse_memory_batch <$> batches)) in
  ret (concat parsed).

Definition query_entries (filter : option string) : Agent (list MemoryEntry) :=
  let! table := memory_table in
  match table with
  | None => ret []
  | Some table => collect_entries (run_query table filter)
  end.

Definition query_filtered (filter : string) : Agent (list MemoryEntry) := query_entries (Some filter).

Definition store_memory (entry : MemoryEntry) : Agent () :=
  let! _ := lift (check_dim embedding_dim (me_embedding entry)) in
  let! _ := connection in
  let! batch := lift (batch_for [entry]) in
  λ b, match on_database (open_table MEMORY_TABLE) b with
       | (b, Ok table) => with_err backend_err (on_database (merge_insert table ["id"] batch)) b
       | (b, Err TableNotFound) => with_err backend_err (on_database (create_table MEMORY_TABLE batch)) b
       | (b, Err error) => (b, Err (backend_err (lance_text error)))
       end.

Definition recall (query : list Z) (limit : nat) : Agent (list MemoryEntry) :=
  let! _ := lift (check_dim embedding_dim query) in
  let! _ := connection in
  let! table := with_err (λ e, backend_err (lance_text e)) (on_database (open_table MEMORY_TABLE)) in
  collect_entries (run_nearest table query limit).

Definition get_memory (id : string) : Agent (option MemoryEntry) :=
  let! entries := query_filtered (id_filter id) in ret (head entries).

(** [impl MemoryStorage for LanceDbMemoryStorage] *)
Definition LanceDbMemoryStorage : MemoryStorage Backend_ := {|
  ms_store := store_memory;
  ms_recall := recall;
  ms_get := get_memory;
  ms_list := query_entries None;
  ms_list_shared := query_filtered "scope = 'shared'";
  ms_list_local := query_filtered "scope = 'local'";
|}.
End backend.
