(* ===== verification/Mapper.v ===== *)
(** * The resource facade ([crates/daemon/src/resource/], [sync/resource.rs])

    How stored records travel as [Resource] messages, how a node applies a
    message it receives, and the exchange of shared resources between peers.
    The messages are those of [crates/proto/proto/node.proto]; an enumeration
    field is its raw [i32]. The node's state is its domains' stores and the
    memory backend. *)

From S2P Require Import Prelude Effects Versioned Tables ContentStores Resources.

#[local] Open Scope Z_scope.

(** ** Messages *)

Inductive ResourceKind : Type := Node | Session | Memory | Skill | Rule | Workspace | Extension.
#[export] Instance kind_eq_dec : EqDecision ResourceKind.
Proof. solve_decision. Defined.

Definition kind_as_i32 (k : ResourceKind) : Z :=
  match k with
  | Node => 0 | Session => 1 | Memory => 2 | Skill => 3 | Rule => 4 | Workspace => 5 | Extension => 6
  end.

Definition kind_try_from (raw : Z) : option ResourceKind :=
  match raw with
  | 0 => Some Node | 1 => Some Session | 2 => Some Memory | 3 => Some Skill
  | 4 => Some Rule | 5 => Some Workspace | 6 => Some Extension
  | _ => None
  end.

Inductive ProtoScope : Type := Unspecified | ProtoClusterShared | ProtoNodeLocal.

Definition proto_scope_as_i32 (s : ProtoScope) : Z :=
  match s with Unspecified => 0 | ProtoClusterShared => 1 | ProtoNodeLocal => 2 end.

Definition proto_scope_try_from (raw : Z) : option ProtoScope :=
  match raw with
  | 0 => Some Unspecified | 1 => Some ProtoClusterShared | 2 => Some ProtoNodeLocal
  | _ => None
  end.

Definition scope_to_proto (s : ResourceScope) : ProtoScope :=
  match s with ClusterShared => ProtoClusterShared | NodeLocal => ProtoNodeLocal end.

Definition scope_from_proto (s : ProtoScope) : ResourceScope :=
  match s with ProtoClusterShared => ClusterShared | ProtoNodeLocal | Unspecified => NodeLocal end.

Record ResourceMetadata : Type := mkMetadata {
  md_id : string;
  md_name : string;
  md_kind : Z;
  md_labels : gmap string string;
  md_annotations : gmap string string;
  md_scope : Z;
  md_source_node_id : string;
  md_created_at_ms : Z;
  md_updated_at_ms : Z;
}.

Record NodeInfo : Type := mkNodeInfo {
  ni_id : string;
  ni_address : string;
  ni_labels : gmap string string;
  ni_annotations : gmap string string;
  ni_last_heartbeat_unix_ms : Z;
  ni_state : Z;
  ni_incarnation : Z;
  ni_heartbeat : Z;
}.

Inductive Body : Type :=
| NodeBody (node : option NodeInfo)
| SessionBody (title host_node_id : string) (metadata : gmap string string)
| MemoryBody (content : bytes) (metadata : gmap string string) (content_hash : string)
    (embedding : list Z) (version : Z)
| SkillBody (version : Z) (content_hash content : string) (metadata : gmap string string)
| RuleBody (version : Z) (content_hash content : string) (metadata : gmap string string)
| WorkspaceBody (root : string) (session_ids : list string) (metadata : gmap string string)
    (version : Z) (content_hash : string)
| ExtensionBody (version : Z) (content_hash engine entry : string) (artifact : bytes)
    (manifest : gmap string string).

Record Resource : Type := mkResourceMsg { metadata : option ResourceMetadata; body : option Body }.

(** ** Errors *)

Inductive MapperError : Type :=
| MissingMetadata
| UnknownKind (raw : Z)
| UnknownScope (raw : Z)
| NotShared (id : string) (s : ResourceScope)
| MissingBody (k : ResourceKind) (id : string)
| KindBodyMismatch (k : ResourceKind)
| NotSynchronized (k : ResourceKind)
| NotFound (id : string)
| AgentFailure (context : string) (source : AgentStorageError)
| WorkspaceFailure (context : string) (source : WorkspaceStorageError)
| ExtensionFailure (context : string) (source : ExtensionStorageError).

Definition decode_kind (raw : Z) : result ResourceKind MapperError :=
  ok_or (kind_try_from raw) (UnknownKind raw).

(** ** From records to messages *)

(** [MetadataBuilder::new] and its setters. *)
Definition new_metadata (id name : string) (kind : ResourceKind) : ResourceMetadata :=
  mkMetadata id name (kind_as_i32 kind) ∅ ∅ 0 "" 0 0.

Definition with_labels (labels : gmap string string) (m : ResourceMetadata) : ResourceMetadata :=
  mkMetadata (md_id m) (md_name m) (md_kind m) labels (md_annotations m) (md_scope m)
    (md_source_node_id m) (md_created_at_ms m) (md_updated_at_ms m).

Definition with_scope (s : ResourceScope) (source_node_id : option string) (m : ResourceMetadata)
    : ResourceMetadata :=
  mkMetadata (md_id m) (md_name m) (md_kind m) (md_labels m) (md_annotations m)
    (proto_scope_as_i32 (scope_to_proto s)) (default "" source_node_id)
    (md_created_at_ms m) (md_updated_at_ms m).

Definition with_timestamps (created_at_ms updated_at_ms : Z) (m : ResourceMetadata) : ResourceMetadata :=
  mkMetadata (md_id m) (md_name m) (md_kind m) (md_labels m) (md_annotations m) (md_scope m)
    (md_source_node_id m) created_at_ms updated_at_ms.

Definition node_to_resource (node : NodeInfo) : Resource :=
  mkResourceMsg
    (Some (with_timestamps 0 (ni_last_heartbeat_unix_ms node) (new_metadata (ni_id node) (ni_id node) Node)))
    (Some (NodeBody (Some node))).

Definition META_TITLE : string := "title".
Definition META_HOST_NODE_ID : string := "host_node_id".

Definition session_to_resource (s : Resources.Session) : Resource :=
  mkResourceMsg (Some (new_metadata (se_id s) (se_id s) Session))
    (Some (SessionBody (default "" (se_metadata s !! META_TITLE))
             (default "" (se_metadata s !! META_HOST_NODE_ID)) (se_metadata s))).

Definition memory_to_resource (e : MemoryEntry) (full : bool) : Resource :=
  let '(content, embedding) := if full then (me_content e, me_embedding e) else ("", []) in
  mkResourceMsg
    (Some (with_timestamps (me_created_at_ms e) (me_updated_at_ms e)
      (with_scope (me_scope e) (me_source_node_id e)
        (with_labels (me_metadata e) (new_metadata (me_id e) (me_id e) Memory)))))
    (Some (MemoryBody content (me_metadata e) (me_content_hash e) embedding (me_version e))).

Inductive VersionedKind : Type := VSkill | VRule.

Definition resource_kind (k : VersionedKind) : ResourceKind :=
  match k with VSkill => Skill | VRule => Rule end.

Definition versioned_to_resource (r : VersionedResource) (k : VersionedKind) (content : option string)
    : Resource :=
  let m := with_timestamps (vr_created_at_ms r) (vr_updated_at_ms r)
             (with_scope (vr_scope r) (vr_source_node_id r)
               (with_labels (vr_metadata r) (new_metadata (vr_id r) (vr_name r) (resource_kind k)))) in
  let content := default "" content in
  mkResourceMsg (Some m)
    (Some match k with
          | VSkill => SkillBody (vr_version r) (vr_content_hash r) content (vr_metadata r)
          | VRule => RuleBody (vr_version r) (vr_content_hash r) content (vr_metadata r)
          end).

(** Paths are UTF-8: the serializer stores no other. *)
Definition workspace_to_resource (w : WorkspaceRecord) : Resource :=
  mkResourceMsg
    (Some (with_timestamps (ws_created_at_ms w) (ws_updated_at_ms w)
      (with_scope (ws_scope w) (ws_source_node_id w)
        (with_labels (ws_metadata w) (new_metadata (ws_id w) (ws_id w) Workspace)))))
    (Some (WorkspaceBody (ws_root w) (ws_session_ids w) (ws_metadata w) (ws_version w) (ws_content_hash w))).

Definition extension_to_resource (r : ExtensionRecord) (artifact : option bytes) : Resource :=
  mkResourceMsg
    (Some (with_timestamps (ex_created_at_ms r) (ex_updated_at_ms r)
      (with_scope (ex_scope r) (ex_source_node_id r)
        (with_labels (ex_labels r) (new_metadata (ex_id r) (ex_name r) Extension)))))
    (Some (ExtensionBody (ex_version r) (ex_content_hash r) (ex_engine r) (ex_entry r)
             (default "" artifact) (ex_manifest r))).

(** ** From messages to records *)

Definition metadata_scope (m : ResourceMetadata) : result ResourceScope MapperError :=
  let? s := ok_or (proto_scope_try_from (md_scope m)) (UnknownScope (md_scope m)) in
  Ok (scope_from_proto s).

Definition metadata_source_node_id (m : ResourceMetadata) : option string :=
  if decide (md_source_node_id m = "") then None else Some (md_source_node_id m).

Definition resource_to_memory (m : ResourceMetadata) (content : bytes) (meta : gmap string string)
    (hash : string) (embedding : list Z) (v : Z) : result MemoryEntry MapperError :=
  let? s := metadata_scope m in
  Ok (mkMemory (md_id m) content embedding meta s (metadata_source_node_id m)
        (md_created_at_ms m) (md_updated_at_ms m) hash v).

(** [resource_to_skill] and [resource_to_rule] *)
Definition resource_to_versioned (m : ResourceMetadata) (v : Z) (hash : string)
    : result VersionedResource MapperError :=
  let? s := metadata_scope m in
  Ok (mkResource (md_id m) (md_name m) v hash s (metadata_source_node_id m)
        (md_created_at_ms m) (md_updated_at_ms m) (md_labels m)).

Definition resource_to_workspace (m : ResourceMetadata) (root : string) (session_ids : list string)
    (meta : gmap string string) (v : Z) (hash : string) : result WorkspaceRecord MapperError :=
  let? s := metadata_scope m in
  Ok (mkWorkspace (md_id m) root session_ids meta s (metadata_source_node_id m) v hash
        (md_created_at_ms m) (md_updated_at_ms m)).

Definition resource_to_extension (m : ResourceMetadata) (v : Z) (hash engine entry : string)
    (manifest : gmap string string) : result ExtensionRecord MapperError :=
  let? s := metadata_scope m in
  Ok (mkExtension (md_id m) (md_name m) v engine entry hash s (metadata_source_node_id m)
        (md_created_at_ms m) (md_updated_at_ms m) manifest (md_labels m)).

(** ** The node *)

(** The domains' stores, the memory backend, and the wake-up permit of the
    extension manager when one is installed. *)
Record NodeState (D S : Type) : Type := mkNodeState {
  store : Store D;
  memories : S;
  extension_notify : option bool;
}.
Arguments mkNodeState {D S}. Arguments store {D S}. Arguments memories {D S}.
Arguments extension_notify {D S}.

Definition set_store {D S} (s : Store D) (n : NodeState D S) : NodeState D S :=
  mkNodeState s (memories n) (extension_notify n).
Definition set_memories {D S} (s : S) (n : NodeState D S) : NodeState D S :=
  mkNodeState (store n) s (extension_notify n).

(** [Notify::notify_one] *)
Definition notify_one {D S E} : M (NodeState D S) E unit := λ n,
  (mkNodeState (store n) (memories n) (match extension_notify n with Some _ => Some true | None => None end),
   Ok tt).

Section mapper.
Context `{!Redb, !Blake3, !Git}.
Context `{!Postcard VersionedResource, !Postcard WorkspaceRecord, !Postcard ExtensionRecord}.
Context {S : Type} (memory : MemoryStorage S) (data_dir : string).

Abbreviation Mapper := (M (NodeState Database S) MapperError).

Definition agent {A} (context : string) (m : M S AgentStorageError A) : Mapper A :=
  zoom memories set_memories (with_err (AgentFailure context) m).
Definition workspace {A} (context : string) (m : M (Store Database) WorkspaceStorageError A) : Mapper A :=
  zoom store set_store (with_err (WorkspaceFailure context) m).
Definition extension {A} (context : string) (m : M (Store Database) ExtensionStorageError A) : Mapper A :=
  zoom store set_store (with_err (ExtensionFailure context) m).

(** *** Applying a message *)

Definition apply_resource (r : Resource) : Mapper unit :=
  let! m := lift (ok_or (metadata r) MissingMetadata) in
  let! kind := lift (decode_kind (md_kind m)) in
  let! scope := lift (metadata_scope m) in
  if decide (scope ≠ ClusterShared) then raise (NotShared (md_id m) scope)
  else
    match kind, body r with
    | Memory, Some (MemoryBody content meta hash embedding v) =>
        let! record := lift (resource_to_memory m content meta hash embedding v) in
        let! _ := agent "failed to apply remote memory" (apply_remote_memory memory record) in
        ret tt
    | Skill, Some (SkillBody v hash content _) =>
        let! record := lift (resource_to_versioned m v hash) in
        let! _ := workspace "failed to apply remote skill" (apply_remote_skill data_dir record content) in
        ret tt
    | Rule, Some (RuleBody v hash content _) =>
        let! record := lift (resource_to_versioned m v hash) in
        let! _ := workspace "failed to apply remote rule" (apply_remote_rule data_dir record content) in
        ret tt
    | Workspace, Some (WorkspaceBody root session_ids meta v hash) =>
        let! record := lift (resource_to_workspace m root session_ids meta v hash) in
        let! _ := workspace "failed to apply remote workspace" (apply_remote_workspace record) in
        ret tt
    | Extension, Some (ExtensionBody v hash engine entry artifact manifest) =>
        let! record := lift (resource_to_extension m v hash engine entry manifest) in
        let! _ := extension "failed to apply remote extension" (apply_remote_extension data_dir record artifact) in
        notify_one
    | Node, _ | Session, _ => raise (NotSynchronized kind)
    | _, None => raise (MissingBody kind (md_id m))
    | _, _ => raise (KindBodyMismatch kind)
    end.

(** *** Listing what is shared *)

(** Skills or rules with their contents. *)
Definition shared_versioned (k : VersionedKind) (records : VersionedStorage (Store Database))
    (content : VersionedContentStore (Store Database)) (list_context read_context : string)
    : Mapper (list Resource) :=
  let! rs := workspace list_context (vs_list_shared records) in
  mapM (λ r,
    let! c := workspace read_context (cs_read content (vr_id r)) in
    ret (versioned_to_resource r k c)) rs.

Definition local_shared_resources : Mapper (list Resource) :=
  let! ms := agent "failed to list shared memories" (ms_list_shared memory) in
  let! ws := workspace "failed to list shared workspaces" ws_list_shared in
  let! skills := shared_versioned VSkill skills (skill_content data_dir)
                   "failed to list shared skills" "failed to read skill content" in
  let! rules := shared_versioned VRule rules (rule_content data_dir)
                  "failed to list shared rules" "failed to read rule content" in
  let! es := extension "failed to list shared extensions" ext_list_shared in
  let! extensions := mapM (λ r,
    let! a := extension "failed to read extension artifact" (in_fs (blob_read (blobs_dir data_dir) (ex_id r))) in
    ret (extension_to_resource r a)) es in
  ret (((λ e, memory_to_resource e true) <$> ms) ++ (workspace_to_resource <$> ws)
         ++ skills ++ rules ++ extensions).

(** *** The exchange *)

(** Applying a batch: failures are logged and skipped. *)
Fixpoint apply_batch (rs : list Resource) (n : NodeState Database S) : NodeState Database S :=
  match rs with
  | [] => n
  | r :: rs => apply_batch rs (apply_resource r n).1
  end.

(** The serving side. *)
Definition merge_and_list_shared (remote_resources : list Resource) (n : NodeState Database S)
    : NodeState Database S * list Resource :=
  let n := apply_batch remote_resources n in
  match local_shared_resources n with
  | (n, Ok resources) => (n, resources)
  | (n, Err _) => (n, [])
  end.

(** The requesting side: [rpc] is the call to the peer, [None] when it fails or
    times out. *)
Definition sync_with_peer (rpc : list Resource → option (list Resource)) (n : NodeState Database S)
    : NodeState Database S :=
  match local_shared_resources n with
  | (n, Err _) => n
  | (n, Ok local_resources) =>
      match rpc local_resources with
      | None => n
      | Some remote_resources => apply_batch remote_resources n
      end
  end.
End mapper.
