(* ===== verification/MapperTheorems.v ===== *)
(** * What travels between nodes

    Theorems about the resource facade of [Mapper]: a message carries the
    record it was made from, malformed messages change nothing, and an exchange
    makes two nodes hold the same shared resources. *)

From Stdlib Require Import Ascii.
From S2P Require Import Prelude.
From S2P Require Import Effects.
From S2P Require Import Versioned.
From S2P Require Import Tables.
From S2P Require Import NodeStores.
From S2P Require Import Pipeline.
From S2P Require Import ContentStores.
From S2P Require Import Resources.
From S2P Require Import ResourceTheorems.
From S2P Require Import Mapper.

#[local] Open Scope char_scope.
#[local] Open Scope string_scope.
#[local] Open Scope Z_scope.

(** ** Records and the messages that carry them *)

(** A record with the content that travels with it. *)
Inductive Item : Type :=
| IMemory (e : MemoryEntry)
| ISkill (r : VersionedResource) (c : string)
| IRule (r : VersionedResource) (c : string)
| IWorkspace (w : WorkspaceRecord)
| IExtension (r : ExtensionRecord) (c : bytes).

Definition item_id (i : Item) : string :=
  match i with
  | IMemory e => me_id e | ISkill r _ | IRule r _ => vr_id r | IWorkspace w => ws_id w | IExtension r _ => ex_id r
  end.

Definition item_scope (i : Item) : ResourceScope :=
  match i with
  | IMemory e => me_scope e | ISkill r _ | IRule r _ => vr_scope r
  | IWorkspace w => ws_scope w | IExtension r _ => ex_scope r
  end.

Definition item_source (i : Item) : option string :=
  match i with
  | IMemory e => me_source_node_id e | ISkill r _ | IRule r _ => vr_source_node_id r
  | IWorkspace w => ws_source_node_id w | IExtension r _ => ex_source_node_id r
  end.

Definition to_resource (i : Item) : Resource :=
  match i with
  | IMemory e => memory_to_resource e true
  | ISkill r c => versioned_to_resource r VSkill (Some c)
  | IRule r c => versioned_to_resource r VRule (Some c)
  | IWorkspace w => workspace_to_resource w
  | IExtension r c => extension_to_resource r (Some c)
  end.

(** What a message says, or why it is refused. *)
Definition read_resource (r : Resource) : result Item MapperError :=
  let? m := ok_or (metadata r) MissingMetadata in
  let? k := decode_kind (md_kind m) in
  let? s := metadata_scope m in
  if decide (s ≠ ClusterShared) then Err (NotShared (md_id m) s)
  else
    let src := metadata_source_node_id m in
    match k, body r with
    | Memory, Some (MemoryBody c meta h emb v) =>
        Ok (IMemory (mkMemory (md_id m) c emb meta s src (md_created_at_ms m) (md_updated_at_ms m) h v))
    | Skill, Some (SkillBody v h c _) =>
        Ok (ISkill (mkResource (md_id m) (md_name m) v h s src (md_created_at_ms m) (md_updated_at_ms m) (md_labels m)) c)
    | Rule, Some (RuleBody v h c _) =>
        Ok (IRule (mkResource (md_id m) (md_name m) v h s src (md_created_at_ms m) (md_updated_at_ms m) (md_labels m)) c)
    | Workspace, Some (WorkspaceBody root ss meta v h) =>
        Ok (IWorkspace (mkWorkspace (md_id m) root ss meta s src v h (md_created_at_ms m) (md_updated_at_ms m)))
    | Extension, Some (ExtensionBody v h engine entry a manifest) =>
        Ok (IExtension (mkExtension (md_id m) (md_name m) v engine entry h s src (md_created_at_ms m)
              (md_updated_at_ms m) manifest (md_labels m)) a)
    | Node, _ | Session, _ => Err (NotSynchronized k)
    | _, None => Err (MissingBody k (md_id m))
    | _, _ => Err (KindBodyMismatch k)
    end.

Section items.
Context `{!Redb, !Blake3, !Git}.
Context `{!Postcard VersionedResource, !Postcard WorkspaceRecord, !Postcard ExtensionRecord}.
Context {S : Type} (memory : MemoryStorage S) (data_dir : string).

(** Handing an item to the domain that stores it. *)
Definition apply_item (i : Item) : M (NodeState Database S) MapperError unit :=
  match i with
  | IMemory e => let! _ := agent "failed to apply remote memory" (apply_remote_memory memory e) in ret tt
  | ISkill r c => let! _ := workspace "failed to apply remote skill" (apply_remote_skill data_dir r c) in ret tt
  | IRule r c => let! _ := workspace "failed to apply remote rule" (apply_remote_rule data_dir r c) in ret tt
  | IWorkspace w => let! _ := workspace "failed to apply remote workspace" (apply_remote_workspace w) in ret tt
  | IExtension r c =>
      let! _ := extension "failed to apply remote extension" (apply_remote_extension data_dir r c) in notify_one
  end.

Lemma apply_resource_reads r n :
  apply_resource memory data_dir r n =
    match read_resource r with Ok i => apply_item i n | Err e => (n, Err e) end.
Proof.
  unfold apply_resource, read_resource. destruct (metadata r) as [m|]; [|done]. cbn.
  destruct (decode_kind (md_kind m)) as [k|e]; [|done]. cbn.
  destruct (metadata_scope m) as [s|e] eqn:Hs; [|done]. cbn. unfold bind at 1 2 3, lift at 1 2 3. cbn.
  case_decide; [done|].
  destruct k, (body r) as [[]|]; try done; cbn; unfold resource_to_memory, resource_to_versioned,
    resource_to_workspace, resource_to_extension; rewrite Hs; done.
Qed.
End items.

(** A shared item whose origin is not the empty string survives the trip. *)
Lemma read_to_resource i :
  item_scope i = ClusterShared → item_source i ≠ Some "" → read_resource (to_resource i) = Ok i.
Proof.
  assert (∀ o, o ≠ Some "" → (if decide (default "" o = "") then None else Some (default "" o)) = o) as Hsrc.
  { intros [s|] Ho; cbn; [|done]. case_decide; [|done]. congruence. }
  intros Hs Ho. destruct i as [[]|[]|[]|[]|[]]; cbn in Hs, Ho; subst; unfold read_resource; cbn;
    unfold metadata_source_node_id; cbn; rewrite Hsrc by done; done.
Qed.

(** A shared item survives the trip: applying the message made from it is
    applying the item itself, provided its origin is not the empty string,
    which the message cannot tell from no origin. *)
Theorem wire_round_trip `{!Redb, !Blake3, !Git, !Postcard VersionedResource, !Postcard WorkspaceRecord,
    !Postcard ExtensionRecord} {S} (memory : MemoryStorage S) data_dir i n :
  item_scope i = ClusterShared → item_source i ≠ Some "" →
  read_resource (to_resource i) = Ok i ∧
  apply_resource memory data_dir (to_resource i) n = apply_item memory data_dir i n.
Proof.
  intros Hs Ho. pose proof (read_to_resource i Hs Ho) as Hr. split; [done|].
  by rewrite apply_resource_reads, Hr.
Qed.

(** What a message declares itself to be. *)
Definition declared_shared (r : Resource) : Prop := ∃ m, metadata r = Some m ∧ md_scope m = 1.

(** Only a well-formed message of a shared resource can change a node: if
    the state changed, the message reads as an item, with the id and the origin
    its metadata declares, marked as shared; any other is answered by the error
    that says what is wrong with it, before any store is called. *)
Theorem only_shared_applied `{!Redb, !Blake3, !Git, !Postcard VersionedResource, !Postcard WorkspaceRecord,
    !Postcard ExtensionRecord} {S} (memory : MemoryStorage S) data_dir r (n : NodeState Database S) :
  (∀ e, read_resource r = Err e → apply_resource memory data_dir r n = (n, Err e)) ∧
  ((apply_resource memory data_dir r n).1 ≠ n →
   declared_shared r ∧ ∃ i m, read_resource r = Ok i ∧ metadata r = Some m ∧ item_scope i = ClusterShared ∧
     item_id i = md_id m ∧ item_source i = metadata_source_node_id m).
Proof.
  rewrite apply_resource_reads. split; [by intros e ->|].
  destruct (read_resource r) as [i|e] eqn:Hr; [|by intros []]. intros _.
  unfold read_resource in Hr. destruct (metadata r) as [m|] eqn:Hm; [|done]. cbn in Hr.
  destruct (decode_kind (md_kind m)) as [k|e]; [|done]. cbn in Hr.
  destruct (metadata_scope m) as [s|e] eqn:Hs; [|done]. cbn in Hr. case_decide as Hsh; [done|].
  assert (s = ClusterShared) as -> by (by destruct s; [destruct Hsh|]). split.
  - exists m. split; [done|]. unfold metadata_scope, proto_scope_try_from in Hs.
    destruct (md_scope m) as [|[?|?|]|?]; try done. all: repeat case_match; simplify_eq/=; done.
  - exists i, m. split; [done|]. split; [done|].
    destruct k, (body r) as [[]|]; try done; by injection Hr as <-.
Qed.

(** *** Instances *)

Section instances.
#[local] Existing Instance toy_postcard.
#[local] Existing Instance toy_redb.
#[local] Existing Instance toy_blake3.
#[local] Existing Instance toy_git.
#[local] Existing Instance ex_eq_dec.
#[local] Existing Instance ex_countable.
#[local] Existing Instance ws_eq_dec.
#[local] Existing Instance ws_countable.

(** A backend without memories. *)
Definition no_memory : MemoryStorage unit := {|
  ms_store := λ _ s, (s, Ok tt); ms_recall := λ _ _ s, (s, Ok []); ms_get := λ _ s, (s, Ok None);
  ms_list := λ s, (s, Ok []); ms_list_shared := λ s, (s, Ok []); ms_list_local := λ s, (s, Ok []);
|}.

Definition blank_node : NodeState ToyDatabase unit := mkNodeState (toy_node []) tt None.

Lemma wire_round_trip_witness :
  let i := ISkill (toy_skill "a" "one" 1) "one" in
  apply_resource no_memory "/data" (to_resource i) (blank_node : NodeState Database unit) =
    apply_item no_memory "/data" i (blank_node : NodeState Database unit).
Proof. intros i. apply (wire_round_trip no_memory "/data" i); [reflexivity|discriminate]. Defined.

Lemma only_shared_applied_witness :
  let r := to_resource (ISkill (toy_skill "a" "one" 1) "one") in
  let n := blank_node : NodeState Database unit in
  (apply_resource no_memory "/data" r n).1 ≠ n ∧ declared_shared r.
Proof.
  intros r n. assert ((apply_resource no_memory "/data" r n).1 ≠ n) as Hne.
  { intros He. apply (f_equal (λ n, size (files (fs (store n))))) in He. by vm_compute in He. }
  split; [done|]. by apply (only_shared_applied no_memory "/data" r n).
Defined.
End instances.
