(* ===== verification/Exchange.v ===== *)
(** * An exchange of shared resources ([crates/daemon/src/sync/resource.rs], [resource/mapper.rs])

    What one exchange between two nodes does to the records of every kind that
    each holds. The five kinds are stored in different tables, directories and
    backends: the frames proved first keep them apart, so that applying an item
    acts on its own kind by the conflict rule and on nothing else. *)

From Stdlib Require Import Ascii.
From S2P Require Import Prelude.
From S2P Require Import Effects.
From S2P Require Import Versioned.
From S2P Require Import Tables.
From S2P Require Import NodeStores.
From S2P Require Import Pipeline.
From S2P Require Import ContentStores.
From S2P Require Import Resources.
From S2P Require Import ResourceTheorems.
From S2P Require Import Mapper.
From S2P Require Import MapperTheorems.

#[local] Open Scope char_scope.
#[local] Open Scope string_scope.
#[local] Open Scope Z_scope.

(** ** Where the domains keep their files *)

Lemma append_assoc a b c : String.append (String.append a b) c = String.append a (String.append b c).
Proof. apply string_app_assoc. Qed.

Lemma last_char_append a b : b ≠ "" → last_char (String.append a b) = last_char b.
Proof.
  intros Hb. induction a as [|c a IH]; [done|]. rewrite append_cons. cbn [last_char].
  destruct (String.append a b) as [|d s] eqn:E; [|done]. by destruct a, b.
Qed.

Lemma join_base dir : ∃ p, ∀ name, no_slash name = true → join dir name = String.append p name.
Proof.
  destruct (decide (dir = "" ∨ last_char dir = Some ("/"%char))) as [Hd|Hd].
  - exists dir. intros name Hn. rewrite join_child by done. unfold child. by rewrite decide_True.
  - exists (String.append dir "/"). intros name Hn. rewrite join_child by done. unfold child.
    rewrite decide_False by done. by rewrite append_assoc.
Qed.

Section directories.
Context (data_dir : string).

Definition skills_dir : string := join data_dir "skills".
Definition rules_dir : string := join data_dir "rules".

Definition usable (d : string) : Prop := d ≠ "" ∧ last_char d ≠ Some ("/"%char).

(** No file of [d2] is inside [d1]. *)
Definition apart (d1 d2 : string) : Prop :=
  ∀ name, no_slash name = true → inside d1 (child d2 name) = false.

Lemma directory_names :
  ∃ p, skills_dir = String.append p "skills" ∧ rules_dir = String.append p "rules" ∧
       blobs_dir data_dir = String.append p "extensions/blobs".
Proof.
  destruct (join_base data_dir) as [p Hp]. exists p. unfold skills_dir, rules_dir, blobs_dir.
  rewrite !Hp by done. split_and!; [done..|]. rewrite join_child by done. unfold child.
  rewrite decide_False; [by rewrite append_assoc|]. rewrite last_char_append by done.
  intros [He|He]; [|done]. apply (f_equal String.length) in He. rewrite string_length_app in He. cbn in He. lia.
Qed.

Lemma usable_append p a : a ≠ "" → last_char a ≠ Some ("/"%char) → usable (String.append p a).
Proof.
  intros Ha Hl. split; [|by rewrite last_char_append]. intros He. apply (f_equal String.length) in He.
  rewrite string_length_app in He. destruct a; [done|]. cbn in He. lia.
Qed.

Lemma apart_append p a b :
  usable b → (∀ t, String.prefix (String.append a "/") (String.append b (String "/"%char t)) = false) →
  apart (String.append p a) (String.append p b).
Proof.
  intros [Hb1 Hb2] Hpre name Hn. destruct (usable_append p b Hb1 Hb2) as [Hd1 Hd2].
  rewrite child_inside by done. unfold inside. rewrite !append_assoc, prefix_append. apply Hpre.
Qed.

Lemma directories_usable : usable skills_dir ∧ usable rules_dir ∧ usable (blobs_dir data_dir).
Proof.
  destruct directory_names as (p & -> & -> & ->). split_and!; by apply usable_append.
Qed.

Lemma directories_apart :
  apart skills_dir rules_dir ∧ apart skills_dir (blobs_dir data_dir) ∧
  apart rules_dir skills_dir ∧ apart rules_dir (blobs_dir data_dir) ∧
  apart (blobs_dir data_dir) skills_dir ∧ apart (blobs_dir data_dir) rules_dir.
Proof.
  destruct directory_names as (p & -> & -> & ->).
  split_and!; (apply apart_append; [by split|done]).
Qed.
End directories.

Lemma content_in_outside d1 d2 name `{!Naming name} fs fs' id :
  outside d1 fs fs' → apart d1 d2 → content_in d2 name fs' id = content_in d2 name fs id.
Proof.
  intros Ho Ha. unfold content_in. destruct (is_ok (validate id)) eqn:Hv; [|done].
  apply is_ok_validate in Hv. apply Ho. rewrite join_child by (by apply name_no_slash).
  apply Ha. by apply name_no_slash.
Qed.

(** ** What each domain leaves alone *)

(** A store whose tables but [t] and whose files outside [d] are unchanged. *)
Definition framed `{!Redb, !RedbLaws} (t d : string) (s s' : Store Database) : Prop :=
  other_rows t (db s') = other_rows t (db s) ∧ outside d (fs s) (fs s').

Section frames.
Context `{!Redb, !RedbLaws, !Git, !GitLaws, !Blake3}.
Context `{!Postcard VersionedResource, !PostcardLaws VersionedResource}.
Context `{!Postcard WorkspaceRecord, !PostcardLaws WorkspaceRecord}.
Context `{!Postcard ExtensionRecord, !PostcardLaws ExtensionRecord}.
Implicit Types s : Store Database.

#[export] Instance framed_preorder t d : PreOrder (framed t d).
Proof.
  split; [by split|]. intros s1 s2 s3 [Ha Hb] [Hc Hd]. split; [congruence|by etrans].
Qed.

Lemma framed_db t d s d' : other_rows t d' = other_rows t (db s) → framed t d s (set_db d' s).
Proof. by split. Qed.

Lemma other_rows_same t d d' : rows d' = rows d → other_rows t d' = other_rows t d.
Proof. unfold other_rows. by intros ->. Qed.

Lemma apply_one_framed t d r c s :
  usable d → wp (apply_one t d r c) (λ _, framed t d s) (λ _, framed t d s) s.
Proof.
  intros [Hd1 Hd2]. unfold apply_one, apply_remote_resource. case_decide; [done|]. wp_steps.
  destruct (map_err _ _) as [[]|e]; [|done]. cbn. unfold in_db. wp_steps.
  eapply wp_mono; [apply get_spec|cbn; intros o d1 [_ Ho]|cbn; intros e d1 Ho];
    [|by apply framed_db, other_rows_same].
  assert (framed t d s (set_db d1 s)) as Hs1 by (by apply framed_db, other_rows_same).
  case_match; [by wp_steps|]. wp_steps.
  assert (∀ s2, framed t d s s2 →
    wp (Table.upsert t (vr_id r) r) (λ _ d2, framed t d s (set_db d2 s2)) (λ _ d2, framed t d s (set_db d2 s2)) (db s2))
    as Hup.
  { intros s2 Hs2. eapply wp_mono; [apply upsert_spec|cbn; intros _ d2 [_ Hd]|cbn; intros e d2 Hd].
    - trans s2; [done|]. by apply framed_db.
    - trans s2; [done|]. by apply framed_db, other_rows_same. }
  case_match; wp_steps; [|by apply Hup]. unfold in_fs. wp_steps.
  eapply wp_mono; [apply git_write_inside; done|cbn; intros h f Hf|cbn; intros e f Hf].
  - wp_steps. apply (Hup (set_fs f (set_db d1 s))). trans (set_db d1 s); [done|]. by split.
  - trans (set_db d1 s); [done|]. by split.
Qed.

Lemma apply_extension_framed data_dir r c s :
  usable (blobs_dir data_dir) →
  wp (apply_remote_extension data_dir r c) (λ _, framed EXTENSIONS (blobs_dir data_dir) s)
    (λ _, framed EXTENSIONS (blobs_dir data_dir) s) s.
Proof.
  intros [Hd1 Hd2]. unfold apply_remote_extension. case_decide; [done|]. wp_steps.
  destruct (map_err _ _) as [[]|e]; [|done]. cbn. unfold ext_get, in_db. wp_steps.
  eapply wp_mono; [apply get_spec|cbn; intros o d1 [_ Ho]|cbn; intros e d1 Ho];
    [|by apply framed_db, other_rows_same].
  assert (framed EXTENSIONS (blobs_dir data_dir) s (set_db d1 s)) as Hs1 by (by apply framed_db, other_rows_same).
  case_match; [by wp_steps|]. wp_steps.
  assert (∀ s2, framed EXTENSIONS (blobs_dir data_dir) s s2 →
    wp (Table.upsert EXTENSIONS (ex_id r) r) (λ _ d2, framed EXTENSIONS (blobs_dir data_dir) s (set_db d2 s2))
      (λ _ d2, framed EXTENSIONS (blobs_dir data_dir) s (set_db d2 s2)) (db s2)) as Hup.
  { intros s2 Hs2. eapply wp_mono; [apply upsert_spec|cbn; intros _ d2 [_ Hd]|cbn; intros e d2 Hd].
    - trans s2; [done|]. by apply framed_db.
    - trans s2; [done|]. by apply framed_db, other_rows_same. }
  case_match; wp_steps; [|by apply Hup]. unfold in_fs. wp_steps.
  eapply wp_mono; [apply blob_write_inside; done|cbn; intros [] f Hf|cbn; intros e f Hf].
  - wp_steps. apply (Hup (set_fs f (set_db d1 s))). trans (set_db d1 s); [done|]. by split.
  - trans (set_db d1 s); [done|]. by split.
Qed.

Lemma apply_workspace_framed w s :
  wp (apply_remote_workspace w)
    (λ _ s', other_rows WORKSPACES (db s') = other_rows WORKSPACES (db s) ∧ fs s' = fs s)
    (λ _ s', other_rows WORKSPACES (db s') = other_rows WORKSPACES (db s) ∧ fs s' = fs s) s.
Proof.
  unfold apply_remote_workspace, ws_get, in_db. wp_steps.
  destruct (compute_content_hash w) as [h|e]; [|done]. wp_steps.
  destruct (map_err _ _) as [[]|e]; [|done]. wp_steps.
  eapply wp_mono; [apply get_spec|cbn; intros o d1 [_ Ho]|cbn; intros e d1 Ho];
    [|split; [by apply other_rows_same|done]].
  case_match; [wp_steps; split; [by apply other_rows_same|done]|]. wp_steps.
  unfold ws_upsert, in_db. wp_steps. destruct (compute_content_hash w) as [h'|e];
    [|split; [by apply other_rows_same|done]]. wp_steps.
  eapply wp_mono; [apply upsert_spec|cbn; intros _ d2 [_ Hd]|cbn; intros e d2 Hd].
  - wp_steps. split; [|done]. trans (other_rows WORKSPACES d1); [done|by apply other_rows_same].
  - split; [|done]. trans (other_rows WORKSPACES d1); by apply other_rows_same.
Qed.
End frames.

(** ** What a node holds *)

(** The records of each kind, by id. *)
Record Held : Type := mkHeld {
  h_memories : gmap string MemoryEntry;
  h_skills : gmap string VersionedResource;
  h_rules : gmap string VersionedResource;
  h_workspaces : gmap string WorkspaceRecord;
  h_extensions : gmap string ExtensionRecord;
}.

Definition absorb_item (h : Held) (i : Item) : Held :=
  match i with
  | IMemory e => mkHeld (absorb me_id (h_memories h) e) (h_skills h) (h_rules h) (h_workspaces h) (h_extensions h)
  | ISkill r _ => mkHeld (h_memories h) (absorb vr_id (h_skills h) r) (h_rules h) (h_workspaces h) (h_extensions h)
  | IRule r _ => mkHeld (h_memories h) (h_skills h) (absorb vr_id (h_rules h) r) (h_workspaces h) (h_extensions h)
  | IWorkspace w =>
      mkHeld (h_memories h) (h_skills h) (h_rules h) (absorb ws_id (h_workspaces h) w) (h_extensions h)
  | IExtension r _ =>
      mkHeld (h_memories h) (h_skills h) (h_rules h) (h_workspaces h) (absorb ex_id (h_extensions h) r)
  end.

(** The records are filed under their ids, and an origin is not the empty
    string, which a message cannot tell from no origin. *)
Definition filed {R} (rid : R → string) (src : R → option string) (m : gmap string R) : Prop :=
  ∀ id r, m !! id = Some r → rid r = id ∧ src r ≠ Some "".

Lemma filed_absorb `{!VersionedRecord R} (rid : R → string) src m r :
  filed rid src m → src r ≠ Some "" → filed rid src (absorb rid m r).
Proof.
  intros Hm Hr id x. unfold absorb. case_match; [|by apply Hm].
  rewrite lookup_insert_Some. intros [[<- <-]|[_ Hx]]; [done|by apply Hm].
Qed.

Definition filed_all (h : Held) : Prop :=
  filed me_id me_source_node_id (h_memories h) ∧ filed vr_id vr_source_node_id (h_skills h) ∧
  filed vr_id vr_source_node_id (h_rules h) ∧ filed ws_id ws_source_node_id (h_workspaces h) ∧
  filed ex_id ex_source_node_id (h_extensions h) ∧
  ∀ id e, h_memories h !! id = Some e → me_content e ≠ "".

Lemma faithful_same {S R C} `{!VersionedRecord R} (empty : C → bool) (hash : C → string)
    (recs : S → gmap string R) (content : S → string → option C) s s' :
  recs s' = recs s → (∀ id, content s' id = content s id) →
  faithful empty hash recs content s → faithful empty hash recs content s'.
Proof. intros Hr Hc Hf id r. rewrite Hr, Hc. apply Hf. Qed.

Section effect.
Context `{!Redb, !RedbLaws, !Git, !GitLaws, !Blake3}.
Context `{!Postcard VersionedResource, !PostcardLaws VersionedResource}.
Context `{!Postcard WorkspaceRecord, !PostcardLaws WorkspaceRecord}.
Context `{!Postcard ExtensionRecord, !PostcardLaws ExtensionRecord}.
Context {S : Type} (memory : MemoryStorage S) (mems : S → gmap string MemoryEntry) `{!MemoryLaws memory mems}.
Context (data_dir : string).
Implicit Types n : NodeState Database S.

Definition held n : Held :=
  mkHeld (mems (memories n)) (stored SKILLS (store n)) (stored RULES (store n)) (workspaces (store n))
    (extensions (store n)).

(** The contents on disk are those the records declare. *)
Definition contents_kept (s : Store Database) : Prop :=
  honest SKILLS (skills_dir data_dir) s ∧ honest RULES (rules_dir data_dir) s ∧
  faithful empty_string hash_content extensions (artifact data_dir) s.

Definition kept n : Prop := contents_kept (store n) ∧ filed_all (held n).

(** An item a node may offer. *)
Definition acceptable (i : Item) : Prop :=
  item_source i ≠ Some "" ∧
  match i with
  | IMemory e => me_content e ≠ ""
  | ISkill r c | IRule r c => accepts empty_string hash_content r c = true
  | IWorkspace _ => True
  | IExtension r c => accepts empty_string hash_content r c = true
  end.

(** *** One item *)

Lemma framed_stored t d t' s s' : framed t d s s' → t ≠ t' → stored t' s' = stored t' s.
Proof. intros [Ho _] Hne. unfold stored. by apply (view_other t). Qed.

Lemma framed_workspaces t d s s' : framed t d s s' → t ≠ WORKSPACES → workspaces s' = workspaces s.
Proof. intros [Ho _] Hne. unfold workspaces. by apply (view_other t). Qed.

Lemma framed_extensions t d s s' : framed t d s s' → t ≠ EXTENSIONS → extensions s' = extensions s.
Proof. intros [Ho _] Hne. unfold extensions. by apply (view_other t). Qed.

Lemma framed_honest t d t' d' s s' :
  framed t d s s' → t ≠ t' → apart d d' → honest t' d' s → honest t' d' s'.
Proof.
  intros Hf Hne Ha. apply faithful_same; [by eapply framed_stored|].
  intros id. unfold ResourceTheorems.body. eapply content_in_outside; [apply _|apply Hf|done].
Qed.

Lemma framed_artifacts t d s s' :
  framed t d s s' → t ≠ EXTENSIONS → apart d (blobs_dir data_dir) →
  faithful empty_string hash_content extensions (artifact data_dir) s →
  faithful empty_string hash_content extensions (artifact data_dir) s'.
Proof.
  intros Hf Hne Ha. apply faithful_same; [by eapply framed_extensions|].
  intros id. unfold artifact. eapply content_in_outside; [apply _|apply Hf|done].
Qed.

Lemma apply_one_effect t d r c s s' b :
  usable d → honest t d s → accepts empty_string hash_content r c = true →
  apply_one t d r c s = (s', Ok b) →
  framed t d s s' ∧ honest t d s' ∧ stored t s' = absorb vr_id (stored t s) r.
Proof.
  intros Hu Hh Ha Hrun.
  pose proof (wp_run _ _ _ _ (apply_one_framed t d r c s Hu) _ _ Hrun) as Hf.
  pose proof (wp_run _ _ _ _ (apply_one_cases t d r c s) _ _ Hrun) as Hc. cbn in Hf.
  split_and!; [done|by eapply applied_faithful|by eapply applied_absorb].
Qed.

Lemma apply_extension_effect r c s s' b :
  faithful empty_string hash_content extensions (artifact data_dir) s →
  accepts empty_string hash_content r c = true →
  apply_remote_extension data_dir r c s = (s', Ok b) →
  framed EXTENSIONS (blobs_dir data_dir) s s' ∧
  faithful empty_string hash_content extensions (artifact data_dir) s' ∧
  extensions s' = absorb ex_id (extensions s) r.
Proof.
  intros Hh Ha Hrun.
  pose proof (wp_run _ _ _ _ (apply_extension_framed data_dir r c s (proj2 (proj2 (directories_usable data_dir)))) _ _ Hrun) as Hf.
  rewrite apply_remote_extension_pipeline in Hrun.
  pose proof (wp_run _ _ _ _ (pipeline_spec (ex_ops data_dir) ex_id empty_string hash_content
    (λ _, ExtHashMismatch) extensions (artifact data_dir) r c s) _ _ Hrun) as Hc. cbn in Hf.
  split_and!; [done|by eapply applied_faithful|by eapply applied_absorb].
Qed.

Lemma apply_workspace_effect w s s' b :
  apply_remote_workspace w s = (s', Ok b) →
  other_rows WORKSPACES (db s') = other_rows WORKSPACES (db s) ∧ fs s' = fs s ∧
  workspaces s' = absorb ws_id (workspaces s) w.
Proof.
  intros Hrun. pose proof (wp_run _ _ _ _ (apply_workspace_framed w s) _ _ Hrun) as [Ho Hf].
  assert (wp (apply_remote_workspace w) (λ _ s', workspaces s' = absorb ws_id (workspaces s) w) (λ _ _, True) s) as Hw.
  { eapply wp_mono; [apply workspace_apply_exact|cbn|done]. intros x s1 (_ & -> & ->). unfold absorb. done. }
  pose proof (wp_run _ _ _ _ Hw _ _ Hrun). done.
Qed.
End effect.

(** *** Items and batches *)

Section items_effect.
Context `{!Redb, !RedbLaws, !Git, !GitLaws, !Blake3}.
Context `{!Postcard VersionedResource, !PostcardLaws VersionedResource}.
Context `{!Postcard WorkspaceRecord, !PostcardLaws WorkspaceRecord}.
Context `{!Postcard ExtensionRecord, !PostcardLaws ExtensionRecord}.
Context {S : Type} (memory : MemoryStorage S) (mems : S → gmap string MemoryEntry) `{!MemoryLaws memory mems}.
Context (data_dir : string).
Implicit Types n : NodeState Database S.

Lemma zoomed {E F A} (f : E → F) (m : M (Store Database) E A) n n' a :
  zoom store set_store (with_err f m) n = (n', Ok a) →
  ∃ s', m (store n) = (s', Ok a) ∧ n' = set_store s' n.
Proof.
  unfold zoom, with_err. destruct (m (store n)) as [s' [x|e]]; cbn; intros [= <- <-]; eauto.
Qed.

Lemma filed_absorb_item h i : filed_all h → item_source i ≠ Some "" →
  (∀ e, i = IMemory e → me_content e ≠ "") → filed_all (absorb_item h i).
Proof.
  intros (Hm & Hs & Hr & Hw & He & Hc) Hi Hne.
  destruct i; cbn in Hi; unfold filed_all; cbn; split_and!; try done; try by apply filed_absorb.
  intros id x. unfold absorb. case_match; [|by apply Hc].
  rewrite lookup_insert_Some. intros [[_ <-]|[_ Hx]]; [by apply Hne|by eapply Hc].
Qed.

Lemma apply_item_effect i n n' :
  kept mems data_dir n → acceptable i → apply_item memory data_dir i n = (n', Ok tt) →
  held mems n' = absorb_item (held mems n) i ∧ kept mems data_dir n'.
Proof.
  intros [(Hks & Hkr & Hke) Hfiled] Hacc Hrun.
  assert (held mems n' = absorb_item (held mems n) i ∧ contents_kept data_dir (store n')) as [Hh Hc].
  2: { split; [done|]. split; [done|]. rewrite Hh. destruct Hacc as [Hs Ha]. apply filed_absorb_item; [done..|]. by intros e ->. }
  destruct (directories_usable data_dir) as (Hu1 & Hu2 & Hu3).
  destruct (directories_apart data_dir) as (A12 & A13 & A21 & A23 & A31 & A32).
  destruct Hacc as [Hsrc Hacc].
  destruct i as [e|r c|r c|w|r c]; cbn in Hrun; unfold bind in Hrun.
  - unfold agent, zoom, with_err in Hrun.
    pose proof (memory_apply_exact memory mems e (memories n) Hsrc) as Hw. unfold wp in Hw.
    destruct (apply_remote_memory memory e (memories n)) as [s' [b|err]]; [|done]. cbn in Hrun.
    injection Hrun as <-. destruct Hw as [-> Hs']. split; [|done]. unfold held. cbn. f_equal.
    rewrite Hs', bool_decide_eq_true_2 by done. unfold absorb. by destruct (should_apply_versioned _ _).
  - destruct (workspace _ _ n) as [n1 [b|err]] eqn:Hz; [|done]. injection Hrun as <-.
    apply zoomed in Hz as (s' & Hs' & ->).
    destruct (apply_one_effect SKILLS (skills_dir data_dir) r c _ _ _ Hu1 Hks Hacc Hs') as (Hf & Hh & Hst).
    split; [|split_and!; [done|by eapply framed_honest|by eapply framed_artifacts]].
    unfold held. cbn. by rewrite Hst, (framed_stored _ _ RULES _ _ Hf), (framed_workspaces _ _ _ _ Hf),
      (framed_extensions _ _ _ _ Hf).
  - destruct (workspace _ _ n) as [n1 [b|err]] eqn:Hz; [|done]. injection Hrun as <-.
    apply zoomed in Hz as (s' & Hs' & ->).
    destruct (apply_one_effect RULES (rules_dir data_dir) r c _ _ _ Hu2 Hkr Hacc Hs') as (Hf & Hh & Hst).
    split; [|split_and!; [by eapply framed_honest|done|by eapply framed_artifacts]].
    unfold held. cbn. by rewrite Hst, (framed_stored _ _ SKILLS _ _ Hf), (framed_workspaces _ _ _ _ Hf),
      (framed_extensions _ _ _ _ Hf).
  - destruct (workspace _ _ n) as [n1 [b|err]] eqn:Hz; [|done]. injection Hrun as <-.
    apply zoomed in Hz as (s' & Hs' & ->).
    destruct (apply_workspace_effect w _ _ _ Hs') as (Ho & Hfs & Hst).
    assert (framed WORKSPACES "" (store n) s') as Hf by (split; [done|by rewrite Hfs]).
    split.
    + unfold held. cbn. by rewrite Hst, (framed_stored _ _ SKILLS _ _ Hf), (framed_stored _ _ RULES _ _ Hf),
        (framed_extensions _ _ _ _ Hf).
    + unfold contents_kept, honest. cbn [store set_store]. split_and!.
      all: eapply faithful_same; [first [by eapply framed_stored|by eapply framed_extensions]| |done].
      all: intros id; unfold ResourceTheorems.body, artifact; cbn; by rewrite Hfs.
  - destruct (extension _ _ n) as [n1 [b|err]] eqn:Hz; [|done]. injection Hrun as <-.
    apply zoomed in Hz as (s' & Hs' & ->).
    destruct (apply_extension_effect data_dir r c _ _ _ Hke Hacc Hs') as (Hf & Hh & Hst).
    split; [|split_and!; [by eapply framed_honest|by eapply framed_honest|done]].
    unfold held. cbn. by rewrite Hst, (framed_stored _ _ SKILLS _ _ Hf), (framed_stored _ _ RULES _ _ Hf),
      (framed_workspaces _ _ _ _ Hf).
Qed.

(** Every resource of a batch is applied without a failure. *)
Fixpoint batch_ok (rs : list Resource) n : bool :=
  match rs with
  | [] => true
  | r :: rs =>
      let '(n', a) := apply_resource memory data_dir r n in is_ok a && batch_ok rs n'
  end.

Lemma batch_effect items n :
  kept mems data_dir n → Forall acceptable items → Forall (λ i, item_scope i = ClusterShared) items →
  batch_ok (to_resource <$> items) n = true →
  held mems (apply_batch memory data_dir (to_resource <$> items) n) = foldl absorb_item (held mems n) items ∧
  kept mems data_dir (apply_batch memory data_dir (to_resource <$> items) n).
Proof.
  revert n. induction items as [|i items IH]; intros n Hk; [done|].
  intros [Hi Hacc]%Forall_cons [Hs Hsh]%Forall_cons. rewrite fmap_cons. cbn [batch_ok apply_batch foldl].
  rewrite apply_resource_reads, read_to_resource by (done || apply Hi).
  destruct (apply_item memory data_dir i n) as [n' [[]|e]] eqn:Hrun; [|done]. cbn [is_ok andb fst]. intros Hok.
  destruct (apply_item_effect i n n' Hk Hi Hrun) as [Hh Hk']. rewrite <- Hh. by apply IH.
Qed.
End items_effect.

(** *** What a node offers *)

Definition shared_in `{!VersionedRecord R} (m : gmap string R) (r : R) : Prop :=
  ∃ id, m !! id = Some r ∧ scope r = ClusterShared.

(** The items of a listing, kind by kind. *)
Definition offers (h : Held) (items : list Item) : Prop :=
  (∀ e, IMemory e ∈ items ↔ shared_in (h_memories h) e) ∧
  (∀ r, (∃ c, ISkill r c ∈ items) ↔ shared_in (h_skills h) r) ∧
  (∀ r, (∃ c, IRule r c ∈ items) ↔ shared_in (h_rules h) r) ∧
  (∀ w, IWorkspace w ∈ items ↔ shared_in (h_workspaces h) w) ∧
  (∀ r, (∃ c, IExtension r c ∈ items) ↔ shared_in (h_extensions h) r).

(** The listing of shared memories. *)
Class MemoryListing {S} (memory : MemoryStorage S) (mems : S → gmap string MemoryEntry) := {
  ms_list_shared_law s :
    wp (ms_list_shared memory)
      (λ l s', mems s' = mems s ∧ ∀ e, e ∈ l ↔ shared_in (mems s) e) (λ _ _, True) s;
}.

Lemma wp_mapM {S E A B} (f : A → M S E B) (P : S → Prop) (R : A → B → Prop) F (l : list A) s :
  P s → (∀ a s, a ∈ l → P s → wp (f a) (λ b s', R a b ∧ P s') F s) →
  wp (mapM f l) (λ bs s', Forall2 R l bs ∧ P s') F s.
Proof.
  intros Hs Hf. revert s Hs. induction l as [|a l IH]; intros s Hs; cbn; wp_steps; [done|].
  eapply wp_mono; [apply Hf; [left|done]|cbn; intros b s1 [Hb Hs1]|done]. wp_steps.
  eapply wp_mono; [apply IH; [intros; apply Hf; [by right|done]|done]|cbn; intros bs s2 [Hbs Hs2]|done].
  wp_steps. by split; [constructor|].
Qed.

Lemma Forall2_preimage {A B C} (f : C → B) (P : A → C → Prop) (l : list A) (bs : list B) :
  Forall2 (λ a b, ∃ c, b = f c ∧ P a c) l bs → ∃ cs, bs = f <$> cs ∧ Forall2 P l cs.
Proof.
  induction 1 as [|a b l bs (c & -> & Hc) _ (cs & -> & IH)]; [by exists []|].
  exists (c :: cs). split; [done|]. by constructor.
Qed.

Lemma btree_values_shared `{!VersionedRecord R} (m : gmap string R) r :
  r ∈ filter (λ r, scope r = ClusterShared) (btree_values m) ↔ shared_in m r.
Proof.
  rewrite list_elem_of_filter, elem_of_btree_values. unfold shared_in. naive_solver.
Qed.

Section listing.
Context `{!Redb, !RedbLaws, !Git, !GitLaws, !Blake3}.
Context `{!Postcard VersionedResource, !PostcardLaws VersionedResource}.
Context `{!Postcard WorkspaceRecord, !PostcardLaws WorkspaceRecord}.
Context `{!Postcard ExtensionRecord, !PostcardLaws ExtensionRecord}.
Context {S : Type} (memory : MemoryStorage S) (mems : S → gmap string MemoryEntry).
Context `{!MemoryLaws memory mems, !MemoryListing memory mems}.
Context (data_dir : string).
Implicit Types n : NodeState Database S.

(** Reading a node leaves what it holds. *)
Definition quiet n n' : Prop :=
  rows (db (store n')) = rows (db (store n)) ∧ files (fs (store n')) = files (fs (store n)) ∧
  mems (memories n') = mems (memories n).

#[export] Instance quiet_preorder : PreOrder quiet.
Proof.
  split; [by split|]. intros n1 n2 n3 (Ha & Hb & Hc) (Hd & He & Hf). unfold quiet. split_and!; congruence.
Qed.

Lemma quiet_held n n' : quiet n n' → held mems n' = held mems n.
Proof.
  intros (Hr & _ & Hm). unfold held, stored, workspaces, extensions, view. by rewrite Hr, Hm.
Qed.

Lemma quiet_contents dir name n n' id : quiet n n' →
  content_in dir name (fs (store n')) id = content_in dir name (fs (store n)) id.
Proof. intros (_ & Hf & _). by rewrite (content_in_files _ _ _ _ Hf). Qed.

Lemma quiet_kept n n' : quiet n n' → kept mems data_dir n → kept mems data_dir n'.
Proof.
  intros Hq [(Hks & Hkr & Hke) Hf]. pose proof (quiet_held _ _ Hq) as Hh. split; [|by rewrite Hh].
  injection Hh as _ Hs Hr _ He. split_and!; (eapply faithful_same; [done| |done]);
    intros id; by apply quiet_contents.
Qed.

Lemma list_versioned_spec table context n0 n :
  quiet n0 n →
  wp (workspace context (vs_list_shared (RedbVersionedStorage table)))
    (λ rs n', quiet n0 n' ∧ ∀ r, r ∈ rs ↔ shared_in (stored table (store n0)) r) (λ _ _, True) n.
Proof.
  intros Hq. unfold workspace, vs_list_shared, RedbVersionedStorage, in_db. wp_steps.
  eapply wp_mono; [apply list_spec|cbn; intros l d [-> Hd]|done]. wp_steps. split.
  - trans n; [done|]. by repeat split.
  - intros r. assert (view table (db (store n)) = stored table (store n0)) as <-.
    { unfold stored, view. by rewrite (proj1 Hq). }
    exact (btree_values_shared _ r).
Qed.

Lemma list_workspaces_spec context n0 n :
  quiet n0 n →
  wp (workspace context ws_list_shared)
    (λ ws n', quiet n0 n' ∧ ∀ w, w ∈ ws ↔ shared_in (workspaces (store n0)) w) (λ _ _, True) n.
Proof.
  intros Hq. unfold workspace, ws_list_shared, in_db. wp_steps.
  eapply wp_mono; [apply list_spec|cbn; intros l d [-> Hd]|done]. wp_steps. split.
  - trans n; [done|]. by repeat split.
  - intros r. assert (view WORKSPACES (db (store n)) = workspaces (store n0)) as <-.
    { unfold workspaces, view. by rewrite (proj1 Hq). }
    exact (btree_values_shared _ r).
Qed.

Lemma list_extensions_spec context n0 n :
  quiet n0 n →
  wp (extension context ext_list_shared)
    (λ es n', quiet n0 n' ∧ ∀ r, r ∈ es ↔ shared_in (extensions (store n0)) r) (λ _ _, True) n.
Proof.
  intros Hq. unfold extension, ext_list_shared, ext_list, in_db. wp_steps.
  eapply wp_mono; [apply list_spec|cbn; intros l d [-> Hd]|done]. wp_steps. split.
  - trans n; [done|]. by repeat split.
  - intros r. assert (view EXTENSIONS (db (store n)) = extensions (store n0)) as <-.
    { unfold extensions, view. by rewrite (proj1 Hq). }
    exact (btree_values_shared _ r).
Qed.

Lemma list_memories_spec context n0 n :
  quiet n0 n →
  wp (agent context (ms_list_shared memory))
    (λ es n', quiet n0 n' ∧ ∀ e, e ∈ es ↔ shared_in (mems (memories n0)) e) (λ _ _, True) n.
Proof.
  intros Hq. unfold agent. wp_steps.
  eapply wp_mono; [apply ms_list_shared_law|cbn; intros l s [Hs Hl]|done]. split.
  - trans n; [done|]. by repeat split.
  - intros e. rewrite Hl. by rewrite (proj2 (proj2 Hq)).
Qed.

Lemma read_content_spec dir context id n0 n :
  quiet n0 n →
  wp (workspace context (cs_read (store_content (GitContentStore dir)) id))
    (λ o n', quiet n0 n' ∧ o = content_in dir toml (fs (store n0)) id) (λ _ _, True) n.
Proof.
  intros Hq. unfold workspace, store_content, in_fs. cbn [cs_read GitContentStore]. wp_steps.
  eapply wp_mono; [apply git_read_spec|cbn; intros o f (Hf & _ & ->)|done]. split.
  - trans n; [done|]. by repeat split.
  - by apply quiet_contents.
Qed.

Lemma read_artifact_spec context id n0 n :
  quiet n0 n →
  wp (extension context (in_fs (blob_read (blobs_dir data_dir) id)))
    (λ o n', quiet n0 n' ∧ o = artifact data_dir (store n0) id) (λ _ _, True) n.
Proof.
  intros Hq. unfold extension, in_fs. wp_steps.
  eapply wp_mono; [apply blob_read_spec|cbn; intros o f (Hf & _ & ->)|done]. split.
  - trans n; [done|]. by repeat split.
  - by apply quiet_contents.
Qed.

(** The records of [m], each with a content its peers accept. *)
Definition listed `{!VersionedRecord R} (m : gmap string R) (rcs : list (R * bytes)) : Prop :=
  Forall (λ rc, accepts empty_string hash_content rc.1 rc.2 = true) rcs ∧
  ∀ r, (∃ c, (r, c) ∈ rcs) ↔ shared_in m r.

Lemma listed_intro `{!VersionedRecord R} (m : gmap string R) rs rcs :
  Forall2 (λ r rc, rc.1 = r ∧ accepts empty_string hash_content rc.1 rc.2 = true) rs rcs →
  (∀ r, r ∈ rs ↔ shared_in m r) → listed m rcs.
Proof.
  intros Hrs Hm. split.
  - clear Hm. induction Hrs as [|? ? ? ? [_ Ha]]; by constructor.
  - intros r. rewrite <- Hm. clear Hm. induction Hrs as [|r0 [r1 c1] rs rcs [Hr _] _ IH]; cbn in *; subst.
    + split; [by intros [c ?%elem_of_nil]|by intros ?%elem_of_nil].
    + rewrite elem_of_cons, <- IH. setoid_rewrite elem_of_cons. naive_solver.
Qed.

Lemma shared_versioned_spec k table dir c1 c2 n0 n :
  quiet n0 n → honest table dir (store n0) → filed vr_id vr_source_node_id (stored table (store n0)) →
  wp (shared_versioned k (RedbVersionedStorage table) (store_content (GitContentStore dir)) c1 c2)
    (λ xs n', quiet n0 n' ∧ ∃ rcs, xs = (λ rc, versioned_to_resource rc.1 k (Some rc.2)) <$> rcs ∧
       listed (stored table (store n0)) rcs) (λ _ _, True) n.
Proof.
  intros Hq Hh Hfiled. unfold shared_versioned. rewrite wp_bind.
  eapply wp_mono; [by apply list_versioned_spec|cbn; intros rs n1 [Hq1 Hrs]|done].
  eapply wp_mono; [apply (wp_mapM _ (quiet n0) (λ r x, ∃ rc, x = versioned_to_resource rc.1 k (Some rc.2) ∧
    rc.1 = r ∧ accepts empty_string hash_content rc.1 rc.2 = true) (λ _ _, True)); [done|]|cbn|done].
  - intros r n2 Hr Hq2. rewrite wp_bind.
    eapply wp_mono; [by apply read_content_spec|cbn; intros o n3 [Hq3 ->]|done]. wp_steps. split; [|done].
    apply Hrs in Hr as (id & Hr & _). destruct (Hh _ _ Hr) as (c & Hc & Ha).
    unfold ResourceTheorems.body in Hc. rewrite (proj1 (Hfiled _ _ Hr)), Hc. by exists (r, c).
  - intros xs n2 [Hxs Hq2]. split; [done|]. apply Forall2_preimage in Hxs as (rcs & -> & Hrcs).
    exists rcs. split; [done|]. by eapply listed_intro.
Qed.

Lemma shared_extensions_spec c1 c2 n0 n :
  quiet n0 n → faithful empty_string hash_content extensions (artifact data_dir) (store n0) →
  filed ex_id ex_source_node_id (extensions (store n0)) →
  wp (let! es := extension c1 ext_list_shared in
      mapM (λ r,
        let! a := extension c2 (in_fs (blob_read (blobs_dir data_dir) (ex_id r))) in
        ret (extension_to_resource r a)) es)
    (λ xs n', quiet n0 n' ∧ ∃ rcs, xs = (λ rc, extension_to_resource rc.1 (Some rc.2)) <$> rcs ∧
       listed (extensions (store n0)) rcs) (λ _ _, True) n.
Proof.
  intros Hq Hh Hfiled. rewrite wp_bind.
  eapply wp_mono; [by apply list_extensions_spec|cbn; intros rs n1 [Hq1 Hrs]|done].
  eapply wp_mono; [apply (wp_mapM _ (quiet n0) (λ r x, ∃ rc, x = extension_to_resource rc.1 (Some rc.2) ∧
    rc.1 = r ∧ accepts empty_string hash_content rc.1 rc.2 = true) (λ _ _, True)); [done|]|cbn|done].
  - intros r n2 Hr Hq2. rewrite wp_bind.
    eapply wp_mono; [by apply read_artifact_spec|cbn; intros o n3 [Hq3 ->]|done]. wp_steps. split; [|done].
    apply Hrs in Hr as (id & Hr & _). destruct (Hh _ _ Hr) as (c & Hc & Ha).
    rewrite (proj1 (Hfiled _ _ Hr)), Hc. by exists (r, c).
  - intros xs n2 [Hxs Hq2]. split; [done|]. apply Forall2_preimage in Hxs as (rcs & -> & Hrcs).
    exists rcs. split; [done|]. by eapply listed_intro.
Qed.
End listing.

Section offers.
Context `{!Redb, !RedbLaws, !Git, !GitLaws, !Blake3}.
Context `{!Postcard VersionedResource, !PostcardLaws VersionedResource}.
Context `{!Postcard WorkspaceRecord, !PostcardLaws WorkspaceRecord}.
Context `{!Postcard ExtensionRecord, !PostcardLaws ExtensionRecord}.
Context {S : Type} (memory : MemoryStorage S) (mems : S → gmap string MemoryEntry).
Context `{!MemoryLaws memory mems, !MemoryListing memory mems}.
Context (data_dir : string).
Implicit Types n : NodeState Database S.

(** The items of a listing, in the order of the code. *)
Definition items_of (ms : list MemoryEntry) (ws : list WorkspaceRecord)
    (sk ru : list (VersionedResource * string)) (es : list (ExtensionRecord * bytes)) : list Item :=
  (IMemory <$> ms) ++ (IWorkspace <$> ws) ++ ((λ rc, ISkill rc.1 rc.2) <$> sk) ++
  ((λ rc, IRule rc.1 rc.2) <$> ru) ++ ((λ rc, IExtension rc.1 rc.2) <$> es).

Lemma elem_of_items ms ws sk ru es i :
  i ∈ items_of ms ws sk ru es ↔
    match i with
    | IMemory e => e ∈ ms | IWorkspace w => w ∈ ws | ISkill r c => (r, c) ∈ sk | IRule r c => (r, c) ∈ ru
    | IExtension r c => (r, c) ∈ es
    end.
Proof.
  unfold items_of. rewrite !elem_of_app, !list_elem_of_fmap. split.
  - intros [Hi|[Hi|[Hi|[Hi|Hi]]]]; destruct Hi as (x & -> & Hi); [done|done|by destruct x..].
  - destruct i as [e|r c|r c|w|r c]; intros Hi.
    + left. eauto.
    + do 2 right. left. by exists (r, c).
    + do 3 right. left. by exists (r, c).
    + right. left. eauto.
    + do 4 right. by exists (r, c).
Qed.

Lemma items_offered (h : Held) ms ws sk ru es :
  filed_all h → (∀ e, e ∈ ms ↔ shared_in (h_memories h) e) → (∀ w, w ∈ ws ↔ shared_in (h_workspaces h) w) →
  listed (h_skills h) sk → listed (h_rules h) ru → listed (h_extensions h) es →
  let items := items_of ms ws sk ru es in
  offers h items ∧ Forall acceptable items ∧ Forall (λ i, item_scope i = ClusterShared) items.
Proof.
  intros (Fm & Fs & Fr & Fw & Fe & Hne) Hm Hw [Hsa Hs] [Hra Hr] [Hea He] items.
  pose proof (proj1 (Forall_forall _ _) Hsa) as Hsa'. pose proof (proj1 (Forall_forall _ _) Hra) as Hra'.
  pose proof (proj1 (Forall_forall _ _) Hea) as Hea'. split_and!.
  - unfold offers, items. split_and!; setoid_rewrite elem_of_items; done.
  - apply Forall_forall. intros i Hi. apply elem_of_items in Hi. unfold acceptable.
    destruct i as [e|r c|r c|w|r c]; cbn.
    + apply Hm in Hi as (id & Hi & _). split; [by eapply Fm|by eapply Hne].
    + split; [|exact (Hsa' _ Hi)]. destruct (proj1 (Hs r) (ex_intro _ c Hi)) as (id & Hx & _).
      by eapply Fs.
    + split; [|exact (Hra' _ Hi)]. destruct (proj1 (Hr r) (ex_intro _ c Hi)) as (id & Hx & _).
      by eapply Fr.
    + split; [|done]. apply Hw in Hi as (id & Hx & _). by eapply Fw.
    + split; [|exact (Hea' _ Hi)]. destruct (proj1 (He r) (ex_intro _ c Hi)) as (id & Hx & _).
      by eapply Fe.
  - apply Forall_forall. intros i Hi. apply elem_of_items in Hi.
    destruct i as [e|r c|r c|w|r c]; cbn.
    + by apply Hm in Hi as (id & _ & Hx).
    + by destruct (proj1 (Hs r) (ex_intro _ c Hi)) as (id & _ & Hx).
    + by destruct (proj1 (Hr r) (ex_intro _ c Hi)) as (id & _ & Hx).
    + by apply Hw in Hi as (id & _ & Hx).
    + by destruct (proj1 (He r) (ex_intro _ c Hi)) as (id & _ & Hx).
Qed.

Lemma local_shared_spec n :
  kept mems data_dir n →
  wp (local_shared_resources memory data_dir)
    (λ l n', quiet mems n n' ∧ ∃ items, l = to_resource <$> items ∧ offers (held mems n) items ∧
       Forall acceptable items ∧ Forall (λ i, item_scope i = ClusterShared) items) (λ _ _, True) n.
Proof.
  intros [(Hks & Hkr & Hke) Hfiled]. destruct (Hfiled) as (Fm & Fs & Fr & Fw & Fe & Hne).
  unfold local_shared_resources. rewrite wp_bind.
  eapply wp_mono; [by apply (list_memories_spec memory mems)|cbn; intros ms n1 [Hq1 Hm]|done]. rewrite wp_bind.
  eapply wp_mono; [by apply (list_workspaces_spec mems)|cbn; intros ws n2 [Hq2 Hw]|done]. rewrite wp_bind.
  eapply wp_mono; [by eapply (shared_versioned_spec mems VSkill)|cbn; intros xs n3 (Hq3 & sk & -> & Hs)|done].
  rewrite wp_bind.
  eapply wp_mono; [by eapply (shared_versioned_spec mems VRule)|cbn; intros xs n4 (Hq4 & ru & -> & Hr)|done].
  rewrite wp_bind_assoc, wp_bind.
  eapply wp_mono; [by apply (shared_extensions_spec mems)|cbn; intros xs n5 (Hq5 & es & -> & He)|done]. wp_steps.
  split; [done|]. exists (items_of ms ws sk ru es). split.
  - unfold items_of. rewrite !fmap_app, <- !list_fmap_compose. done.
  - by apply items_offered.
Qed.
End offers.

(** ** The exchange

    What a map of records becomes when the shared records of another arrive. *)

Definition offer `{!VersionedRecord R} (m : gmap string R) (id : string) : option R :=
  match m !! id with
  | Some r => if decide (scope r = ClusterShared) then Some r else None
  | None => None
  end.

Definition receive `{!VersionedRecord R} (o x : option R) : option R :=
  match x with Some r => better o r | None => o end.

Definition received `{!VersionedRecord R} (other m m' : gmap string R) : Prop :=
  ∀ id, m' !! id = receive (m !! id) (offer other id).

(** The outcome of an exchange for the records of one kind: at every id that
    neither side keeps to itself, and where the two do not hold different
    records that compare equal, both end with the newer of their records; a
    record kept to itself stays. *)
Definition exchanged `{!VersionedRecord R} (mA mB mA' mB' : gmap string R) : Prop :=
  (∀ id, (∀ r, mA !! id = Some r ∨ mB !! id = Some r → scope r = ClusterShared) →
     (∀ r r', mA !! id = Some r → mB !! id = Some r' → key r = key r' → r = r') →
     mA' !! id = mB' !! id ∧ mB' !! id = receive (mB !! id) (mA !! id)) ∧
  (∀ id r, mA !! id = Some r → scope r = NodeLocal → mA' !! id = Some r) ∧
  (∀ id r, mB !! id = Some r → scope r = NodeLocal → mB' !! id = Some r).

Section maps.
Context `{!VersionedRecord R} (rid : R → string).
Implicit Types m : gmap string R.

Lemma absorb_all_at m rs id x :
  (∀ r, r ∈ rs → rid r = id → x = Some r) →
  (∀ r, x = Some r → rid r = id ∧ r ∈ rs) → absorb_all rid m rs !! id = receive (m !! id) x.
Proof.
  intros H1 H2. assert (∀ rs m, (∀ r, r ∈ rs → rid r = id → x = Some r) →
    absorb_all rid m rs !! id =
      if decide (Exists (λ r, rid r = id) rs) then receive (m !! id) x else m !! id) as Hall.
  { clear. induction rs as [|r rs IH]; intros m Hx.
    { rewrite decide_False; [done|]. by intros ?%Exists_nil. }
    change (absorb_all rid m (r :: rs)) with (absorb_all rid (absorb rid m r) rs).
    rewrite IH by (intros; apply Hx; [by right|done]). rewrite absorb_lookup.
    destruct (decide (id = rid r)) as [->|Hne].
    - rewrite (Hx r (list_elem_of_here _ _) eq_refl). cbn [receive].
      rewrite (decide_True (P:=Exists _ (r :: rs))) by (by apply Exists_cons_hd).
      case_decide; [|done]. apply better_twice.
    - apply decide_ext. rewrite Exists_cons. split; [by right|]. intros [He|He]; [congruence|done]. }
  rewrite Hall by done. case_decide as Hd; [done|]. destruct x as [r|]; [|done]. destruct Hd.
  destruct (H2 r eq_refl) as [Hid Hr]. apply Exists_exists. eauto.
Qed.

Lemma received_offers src m m' rs :
  filed rid src m → (∀ r, r ∈ rs ↔ shared_in m r) → received m m' (absorb_all rid m' rs).
Proof.
  intros Hf Hrs id. apply absorb_all_at.
  - intros r Hr <-. apply Hrs in Hr as (id & Hr & Hs). rewrite (proj1 (Hf _ _ Hr)). unfold offer.
    rewrite Hr. by rewrite decide_True.
  - intros r. unfold offer. destruct (m !! id) as [x|] eqn:Hx; [|done]. case_decide as Hs; [|done].
    intros [= ->]. split; [by eapply Hf|]. apply Hrs. by exists id.
Qed.

Lemma take_local (r : R) x : scope r = NodeLocal → receive (Some r) x = Some r.
Proof. intros Hr. destruct x as [x|]; [|done]. cbn. unfold better. by rewrite should_apply_local. Qed.

Lemma better_self (r : R) : better (Some r) r = Some r.
Proof. unfold better. by rewrite should_apply_again. Qed.

Lemma better_none (r : R) : scope r = ClusterShared → better None r = Some r.
Proof. intros Hr. unfold better, should_apply_versioned. by rewrite Hr. Qed.

(** The asker receives what the server holds after merging. *)
Lemma exchange_maps mA mB mA' mB' :
  received mA mB mB' → received mB' mA mA' → exchanged mA mB mA' mB'.
Proof.
  intros HB HA. split_and!.
  - intros id Hs Hk. rewrite HA. unfold offer. rewrite HB. unfold offer.
    destruct (mA !! id) as [a|] eqn:Ea, (mB !! id) as [b|] eqn:Eb.
    + rewrite (decide_True (P:=scope a = _)) by (apply Hs; by left). cbn [receive].
      assert (scope a = ClusterShared) as Ha by (apply Hs; by left).
      assert (scope b = ClusterShared) as Hb by (apply Hs; by right).
      destruct (better_cases rid (Some b) a Ha) as [[-> Hlt]|(-> & l & [= <-] & Hle)].
      * rewrite decide_True by done. split; [|done]. apply better_self.
      * rewrite decide_True by done. split; [|done]. cbn.
        destruct Hle as [?|Hle]; [congruence|]. apply ord_le_lteq in Hle as [Hlt|Heq].
        -- destruct (better_cases rid (Some a) b Hb) as [[-> _]|(_ & l & [= <-] & [?|Hle])]; [done|congruence|].
           by apply ord_lt_not_le in Hlt.
        -- rewrite (Hk a b eq_refl eq_refl Heq). apply better_self.
    + rewrite decide_True by (apply Hs; by left). cbn [receive]. rewrite better_none by (apply Hs; by left).
      rewrite decide_True by (apply Hs; by left). split; [apply better_self|done].
    + cbn [receive]. rewrite decide_True by (apply Hs; by right). split; [|done]. apply better_none, Hs. by right.
    + done.
  - intros id r Hr Hl. rewrite HA, Hr. by apply take_local.
  - intros id r Hr Hl. rewrite HB, Hr. by apply take_local.
Qed.
End maps.

(** The same for each kind of record. *)
Definition exchanged_all (hA hB hA' hB' : Held) : Prop :=
  exchanged (h_memories hA) (h_memories hB) (h_memories hA') (h_memories hB') ∧
  exchanged (h_skills hA) (h_skills hB) (h_skills hA') (h_skills hB') ∧
  exchanged (h_rules hA) (h_rules hB) (h_rules hA') (h_rules hB') ∧
  exchanged (h_workspaces hA) (h_workspaces hB) (h_workspaces hA') (h_workspaces hB') ∧
  exchanged (h_extensions hA) (h_extensions hB) (h_extensions hA') (h_extensions hB').

Definition received_all (other h h' : Held) : Prop :=
  received (h_memories other) (h_memories h) (h_memories h') ∧
  received (h_skills other) (h_skills h) (h_skills h') ∧
  received (h_rules other) (h_rules h) (h_rules h') ∧
  received (h_workspaces other) (h_workspaces h) (h_workspaces h') ∧
  received (h_extensions other) (h_extensions h) (h_extensions h').

Lemma exchange_held hA hB hA' hB' :
  received_all hA hB hB' → received_all hB' hA hA' → exchanged_all hA hB hA' hB'.
Proof.
  intros (?&?&?&?&?) (?&?&?&?&?).
  refine (conj (exchange_maps me_id _ _ _ _ _ _) (conj (exchange_maps vr_id _ _ _ _ _ _)
    (conj (exchange_maps vr_id _ _ _ _ _ _) (conj (exchange_maps ws_id _ _ _ _ _ _)
    (exchange_maps ex_id _ _ _ _ _ _))))); done.
Qed.

(** *** The items of one kind *)

Definition only_memory (i : Item) : option MemoryEntry := match i with IMemory e => Some e | _ => None end.
Definition only_skill (i : Item) : option VersionedResource := match i with ISkill r _ => Some r | _ => None end.
Definition only_rule (i : Item) : option VersionedResource := match i with IRule r _ => Some r | _ => None end.
Definition only_workspace (i : Item) : option WorkspaceRecord := match i with IWorkspace w => Some w | _ => None end.
Definition only_extension (i : Item) : option ExtensionRecord :=
  match i with IExtension r _ => Some r | _ => None end.

Lemma absorb_items h items :
  foldl absorb_item h items =
    mkHeld (absorb_all me_id (h_memories h) (omap only_memory items))
      (absorb_all vr_id (h_skills h) (omap only_skill items))
      (absorb_all vr_id (h_rules h) (omap only_rule items))
      (absorb_all ws_id (h_workspaces h) (omap only_workspace items))
      (absorb_all ex_id (h_extensions h) (omap only_extension items)).
Proof. revert h. induction items as [|[] items IH]; intros []; cbn; rewrite ?IH; done. Qed.

Lemma received_items other h items :
  filed_all other → offers other items → received_all other h (foldl absorb_item h items).
Proof.
  intros (Fm & Fs & Fr & Fw & Fe & _) (Om & Os & Or & Ow & Oe). rewrite absorb_items.
  split_and!; cbn; (eapply received_offers; [done|]); intros r; rewrite list_elem_of_omap.
  - rewrite <- Om. split; [intros ([] & ? & [= <-]); done|]. intros ?. by exists (IMemory r).
  - rewrite <- Os. split; [intros ([] & ? & [= <-]); eauto|]. intros [c ?]. by exists (ISkill r c).
  - rewrite <- Or. split; [intros ([] & ? & [= <-]); eauto|]. intros [c ?]. by exists (IRule r c).
  - rewrite <- Ow. split; [intros ([] & ? & [= <-]); done|]. intros ?. by exists (IWorkspace r).
  - rewrite <- Oe. split; [intros ([] & ? & [= <-]); eauto|]. intros [c ?]. by exists (IExtension r c).
Qed.

(** *** Two nodes *)

Section exchange.
Context `{!Redb, !RedbLaws, !Git, !GitLaws, !Blake3}.
Context `{!Postcard VersionedResource, !PostcardLaws VersionedResource}.
Context `{!Postcard WorkspaceRecord, !PostcardLaws WorkspaceRecord}.
Context `{!Postcard ExtensionRecord, !PostcardLaws ExtensionRecord}.
Context {S : Type} (memory : MemoryStorage S) (mems : S → gmap string MemoryEntry).
Context `{!MemoryLaws memory mems, !MemoryListing memory mems}.
Context (dirA dirB : string).
Implicit Types n : NodeState Database S.

(** Node A syncs with node B: what each becomes. *)
Definition exchange nA nB : NodeState Database S * NodeState Database S :=
  (sync_with_peer memory dirA (λ l, Some (merge_and_list_shared memory dirB l nB).2) nA,
   match local_shared_resources memory dirA nA with
   | (_, Ok l) => (merge_and_list_shared memory dirB l nB).1
   | (_, Err _) => nB
   end).

(** No store failed while they did. *)
Definition undisturbed nA nB : bool :=
  match local_shared_resources memory dirA nA with
  | (nA', Ok lA) =>
      batch_ok memory dirB lA nB &&
      match local_shared_resources memory dirB (apply_batch memory dirB lA nB) with
      | (_, Ok lB) => batch_ok memory dirA lB nA'
      | (_, Err _) => false
      end
  | (_, Err _) => false
  end.

Lemma sent_and_merged other dirO dir n rs n1 n' :
  kept mems dirO other → kept mems dir n →
  local_shared_resources memory dirO other = (n1, Ok rs) → batch_ok memory dir rs n = true →
  apply_batch memory dir rs n = n' →
  received_all (held mems other) (held mems n) (held mems n') ∧ kept mems dir n' ∧ quiet mems other n1.
Proof.
  intros Hko Hk Hl Hok <-.
  destruct (wp_run _ _ _ _ (local_shared_spec memory mems dirO other Hko) _ _ Hl)
    as (Hq & items & -> & Hoff & Hacc & Hsh).
  destruct (batch_effect memory mems dir items n Hk Hacc Hsh Hok) as [-> Hk']. split_and!; [|done|done].
  apply received_items; [apply Hko|done].
Qed.
End exchange.

(** C4: Two nodes whose contents are those their records declare exchange what
    they share, through the messages that carry it, without a failing store.
    Then, for memories, skills, rules, workspaces and extensions alike, both
    hold the same record, the newer of their two, under every id that neither
    keeps to itself and where they do not hold different records that compare
    equal; a record that one keeps to itself stays; and on both the contents
    are again those the records declare. *)
Theorem exchange_agrees `{!Redb, !RedbLaws, !Git, !GitLaws, !Blake3,
    !Postcard VersionedResource, !PostcardLaws VersionedResource,
    !Postcard WorkspaceRecord, !PostcardLaws WorkspaceRecord,
    !Postcard ExtensionRecord, !PostcardLaws ExtensionRecord}
    {S} (memory : MemoryStorage S) mems `{!MemoryLaws memory mems, !MemoryListing memory mems}
    dirA dirB nA nB nA' nB' :
  kept mems dirA nA → kept mems dirB nB → undisturbed memory dirA dirB nA nB = true →
  exchange memory dirA dirB nA nB = (nA', nB') →
  exchanged_all (held mems nA) (held mems nB) (held mems nA') (held mems nB') ∧
  kept mems dirA nA' ∧ kept mems dirB nB'.
Proof.
  intros HkA HkB Hu. unfold exchange, sync_with_peer, merge_and_list_shared. unfold undisturbed in Hu.
  destruct (local_shared_resources memory dirA nA) as [nA1 [lA|e]] eqn:HlA; [|done].
  apply andb_true_iff in Hu as [HokB Hu]. set (nB1 := apply_batch memory dirB lA nB) in *.
  destruct (sent_and_merged memory mems nA dirA dirB nB lA nA1 nB1 HkA HkB HlA HokB eq_refl) as (HrB & HkB1 & HqA).
  destruct (local_shared_resources memory dirB nB1) as [nB2 [lB|e]] eqn:HlB; [|done]. cbn. intros [= <- <-].
  pose proof (quiet_kept mems dirA _ _ HqA HkA) as HkA1.
  destruct (sent_and_merged memory mems nB1 dirB dirA nA1 lB nB2 _ HkB1 HkA1 HlB Hu eq_refl) as (HrA & HkA2 & HqB).
  rewrite (quiet_held mems _ _ HqA) in HrA. rewrite (quiet_held mems _ _ HqB).
  split; [by eapply exchange_held|]. split; [done|]. by eapply quiet_kept.
Qed.

(** ** An instance *)

(** A memory backend that keeps its entries in a map. *)
Definition toy_memory : MemoryStorage (gmap string MemoryEntry) := {|
  ms_store := λ e s, (<[me_id e := e]> s, Ok tt);
  ms_recall := λ _ k s, (s, Ok (take k (map_to_list s).*2));
  ms_get := λ id s, (s, Ok (s !! id));
  ms_list := λ s, (s, Ok (map_to_list s).*2);
  ms_list_shared := λ s, (s, Ok (filter (λ e, me_scope e = ClusterShared) (map_to_list s).*2));
  ms_list_local := λ s, (s, Ok (filter (λ e, me_scope e = NodeLocal) (map_to_list s).*2));
|}.

#[local] Instance toy_memory_laws : MemoryLaws toy_memory id.
Proof. by split. Defined.

#[local] Instance toy_memory_listing : MemoryListing toy_memory id.
Proof.
  split. intros s. cbn. split; [done|]. intros e. rewrite list_elem_of_filter, list_elem_of_fmap. split.
  - intros [Hs ([k x] & -> & Hx)]. apply elem_of_map_to_list in Hx. by exists k.
  - intros (k & Hk & Hs). split; [done|]. exists (k, e). split; [done|]. by apply elem_of_map_to_list.
Defined.

#[local] Existing Instance toy_postcard.
#[local] Existing Instance toy_postcard_laws.
#[local] Existing Instance toy_redb.
#[local] Existing Instance toy_redb_laws.
#[local] Existing Instance toy_blake3.
#[local] Existing Instance toy_git.
#[local] Existing Instance toy_git_laws.
#[local] Existing Instance ex_eq_dec.
#[local] Existing Instance ex_countable.
#[local] Existing Instance ws_eq_dec.
#[local] Existing Instance ws_countable.

Definition toy_empty : NodeState ToyDatabase (gmap string MemoryEntry) :=
  mkNodeState (toy_node []) ∅ None.

(** A node that holds these items. *)
Definition toy_with (items : list Item) : NodeState ToyDatabase (gmap string MemoryEntry) :=
  apply_batch toy_memory "/data" (to_resource <$> items) toy_empty.

Lemma toy_empty_kept : kept id "/data" (toy_empty : NodeState Database _).
Proof.
  assert (∀ dir name i, content_in dir name (mkFs ∅ ∅ []) i = None) as Hn.
  { intros dir name i. unfold content_in. by destruct (is_ok _). }
  split; [split_and!; intros i r Hr; by vm_compute in Hr|].
  split_and!; intros i r Hr; by vm_compute in Hr.
Qed.

Lemma toy_with_kept items :
  Forall acceptable items → Forall (λ i, item_scope i = ClusterShared) items →
  batch_ok toy_memory "/data" (to_resource <$> items) (toy_empty : NodeState Database _) = true →
  kept id "/data" (toy_with items : NodeState Database _).
Proof.
  intros Ha Hs Hok. eapply (batch_effect toy_memory id "/data"); [apply toy_empty_kept|done..].
Qed.

Definition toy_extension : ExtensionRecord :=
  mkExtension "ext-1" "e" 1 "lua" "invoke" "code" ClusterShared None 0 0 ∅ ∅.

Lemma exchange_agrees_witness :
  let a := toy_skill "a" "one" 1 in
  let b := toy_skill "b" "two" 2 in
  let nA := toy_with [ISkill a "one"; IExtension toy_extension "code"] : NodeState Database _ in
  let nB := toy_with [ISkill b "two"] : NodeState Database _ in
  let '(nA', nB') := exchange toy_memory "/data" "/data" nA nB in
  exchanged_all (held id nA) (held id nB) (held id nA') (held id nB') ∧
  (h_skills (held id nA') !! "skill-1" = Some b ∧ h_extensions (held id nB') !! "ext-1" = Some toy_extension) ∧
  kept id "/data" nA'.
Proof.
  intros a b nA nB. destruct (exchange toy_memory "/data" "/data" nA nB) as [nA' nB'] eqn:He.
  destruct (exchange_agrees toy_memory id "/data" "/data" nA nB nA' nB') as (Hx & HkA & HkB).
  - apply toy_with_kept; [|by repeat constructor|by vm_compute].
    repeat constructor; cbn; done.
  - apply toy_with_kept; [|by repeat constructor|by vm_compute]. repeat constructor; cbn; done.
  - by vm_compute.
  - exact He.
  - split; [done|]. split; [|done].
    assert (nA' = (exchange toy_memory "/data" "/data" nA nB).1) as -> by (by rewrite He).
    assert (nB' = (exchange toy_memory "/data" "/data" nA nB).2) as -> by (by rewrite He).
    split; by vm_compute.
Defined.
