(* ===== verification/Gossip.v ===== *)
(** * Gossip deduplication ([crates/daemon/src/sync/gossip.rs])

    What keeps a rumor from going round for ever: the bounded set of the keys a
    node has seen, and the counter that makes the keys of its own pushes, which
    has to survive restarts. The counter's two halves, taking a number and
    persisting it, are separate definitions, since another thread may come
    between them. *)

From S2P Require Import Prelude Effects Tables NodeStores.

#[local] Open Scope Z_scope.

Definition MAX_SEEN_PUSHES : nat := N.to_nat 10000.
Definition MAX_SEEN_STATES : nat := N.to_nat 10000.
Definition GOSSIP_SEQUENCE_KEY : string := "gossip_sequence".

(** ** The keys seen *)

Record DedupSet (T : Type) `{Countable T} : Type := mkDedup {
  inner : gset T;
  order : list T;
  dedup_capacity : nat;
}.
Arguments mkDedup {T _ _}. Arguments inner {T _ _}. Arguments order {T _ _}. Arguments dedup_capacity {T _ _}.

Section dedup.
Context {T : Type} `{Countable T}.

Definition dedup_new (capacity : nat) : DedupSet T := mkDedup ∅ [] capacity.

Definition dedup_insert (key : T) (self : DedupSet T) : DedupSet T * bool :=
  if decide (key ∈ inner self) then (self, false)
  else
    let inner := {[key]} ∪ inner self in
    let order := order self ++ [key] in
    if decide (dedup_capacity self < length order)%nat then
      match order with
      | oldest :: order => (mkDedup (inner ∖ {[oldest]}) order (dedup_capacity self), true)
      | [] => (mkDedup inner order (dedup_capacity self), true)
      end
    else (mkDedup inner order (dedup_capacity self), true).

(** A run of insertions, and the keys it reported as new. *)
Fixpoint dedup_run (keys : list T) (self : DedupSet T) : DedupSet T * list T :=
  match keys with
  | [] => (self, [])
  | k :: keys =>
      let '(self, new) := dedup_insert k self in
      let '(self, l) := dedup_run keys self in
      (self, if new then k :: l else l)
  end.

(** *** The window

    The set holds the last [c] keys reported as new. *)
Definition window (c : nat) (reported : list T) : list T := drop (length reported - c) reported.

Definition spaced (c : nat) (reported : list T) : Prop :=
  ∀ i j k, reported !! i = Some k → reported !! j = Some k → (i < j)%nat → (i + c < j)%nat.

Definition dedup_ok (reported : list T) (self : DedupSet T) : Prop :=
  order self = window (dedup_capacity self) reported ∧ inner self = list_to_set (order self) ∧
  spaced (dedup_capacity self) reported.

Lemma dedup_new_ok c : dedup_ok [] (dedup_new c).
Proof. split_and!; [done|done|]. intros i j k Hi. by rewrite lookup_nil in Hi. Qed.

Lemma spaced_window_NoDup c reported : spaced c reported → NoDup (window c reported).
Proof.
  intros Hs. apply NoDup_alt. intros i j k Hi Hj. unfold window in *. rewrite lookup_drop in Hi, Hj.
  assert (i < c ∧ j < c)%nat as [].
  { apply lookup_lt_Some in Hi, Hj. lia. }
  destruct (Nat.lt_trichotomy i j) as [Hl|[->|Hl]]; [|done|].
  - pose proof (Hs _ _ _ Hi Hj ltac:(lia)). lia.
  - pose proof (Hs _ _ _ Hj Hi ltac:(lia)). lia.
Qed.

Lemma elem_of_window c reported i k :
  reported !! i = Some k → (length reported ≤ i + c)%nat → k ∈ window c reported.
Proof.
  intros Hi Hc. unfold window. apply list_elem_of_lookup. exists (i - (length reported - c))%nat.
  rewrite lookup_drop. rewrite <- Hi. f_equal. lia.
Qed.

Lemma spaced_snoc c reported k : spaced c reported → k ∉ window c reported → spaced c (reported ++ [k]).
Proof.
  intros Hs Hk i j x Hi Hj Hij. rewrite lookup_app in Hi, Hj.
  destruct (reported !! j) as [y|] eqn:Ej.
  - destruct (reported !! i) as [z|] eqn:Ei.
    + injection Hi as ->. injection Hj as ->. by eapply Hs.
    + apply lookup_ge_None in Ei. apply lookup_lt_Some in Ej. lia.
  - assert (j = length reported ∧ x = k) as [-> ->].
    { apply list_lookup_singleton_Some in Hj as [Hz ->]. apply lookup_ge_None in Ej. split; [lia|done]. }
    destruct (reported !! i) as [z|] eqn:Ei; [|apply lookup_ge_None in Ei; lia]. injection Hi as ->.
    destruct (decide (i + c < length reported)%nat) as [|Hn]; [done|]. destruct Hk.
    eapply elem_of_window; [done|lia].
Qed.

Lemma window_snoc c reported k :
  window c (reported ++ [k]) =
    if decide (c < length (window c reported ++ [k]))%nat then drop 1 (window c reported ++ [k])
    else window c reported ++ [k].
Proof.
  unfold window. rewrite !length_app, length_drop. cbn [length].
  case_decide as Hd.
  - destruct (decide (c = 0)%nat) as [->|Hc].
    + rewrite !drop_ge; [done|rewrite length_app, length_drop; cbn; lia|rewrite length_app; cbn; lia].
    + rewrite !drop_app_le by (rewrite ?length_drop; lia). rewrite drop_drop. do 2 f_equal. lia.
  - replace (length reported + 1 - c)%nat with 0%nat by lia. rewrite drop_0.
    by replace (length reported - c)%nat with 0%nat by lia.
Qed.

Lemma dedup_insert_ok reported k self self' b :
  dedup_ok reported self → dedup_insert k self = (self', b) →
  b = bool_decide (k ∉ window (dedup_capacity self) reported) ∧
  dedup_capacity self' = dedup_capacity self ∧
  dedup_ok (if b then reported ++ [k] else reported) self'.
Proof.
  intros (Ho & Hi & Hs) Hrun. pose proof (spaced_window_NoDup _ _ Hs) as Hnd. unfold dedup_insert in Hrun.
  assert (k ∈ inner self ↔ k ∈ window (dedup_capacity self) reported) as Hin.
  { rewrite Hi, elem_of_list_to_set. by rewrite Ho. }
  case_decide as Hk.
  { injection Hrun as <- <-. rewrite bool_decide_eq_false_2 by tauto. done. }
  assert (k ∉ window (dedup_capacity self) reported) as Hk' by tauto.
  pose proof (spaced_snoc _ _ _ Hs Hk') as Hs'. pose proof (window_snoc (dedup_capacity self) reported k) as Hw.
  rewrite bool_decide_eq_true_2 by done. rewrite <- Ho in Hw. case_decide as Hd.
  - destruct (order self ++ [k]) as [|oldest l] eqn:El; [by destruct (order self)|].
    injection Hrun as <- <-. cbn in Hw. unfold dedup_ok. cbn. split_and!; [done|done|by rewrite Hw| |done].
    assert (NoDup (oldest :: l)) as Hndl.
    { rewrite <- El, Ho. apply NoDup_app. split_and!; [done| |apply NoDup_singleton].
      intros x Hx ->%list_elem_of_singleton. done. }
    apply NoDup_cons in Hndl as [Hno _]. rewrite Hi.
    assert (({[k]} ∪ list_to_set (order self) : gset T) = list_to_set (oldest :: l)) as ->.
    { rewrite <- El, list_to_set_app_L. set_solver. }
    cbn. rewrite difference_union_distr_l_L, difference_diag_L, (left_id_L ∅ (∪)).
    apply difference_disjoint_L, disjoint_singleton_r. by rewrite elem_of_list_to_set.
  - injection Hrun as <- <-. unfold dedup_ok. cbn. split_and!; [done|done|done| |done].
    rewrite Hi, list_to_set_app_L. set_solver.
Qed.

Lemma dedup_run_ok keys reported self self' l :
  dedup_ok reported self → dedup_run keys self = (self', l) → dedup_ok (reported ++ l) self' ∧
  dedup_capacity self' = dedup_capacity self.
Proof.
  revert reported self l. induction keys as [|k keys IH]; intros reported self l Hok; cbn.
  { intros [= <- <-]. by rewrite app_nil_r. }
  destruct (dedup_insert k self) as [s1 b] eqn:Hi. destruct (dedup_run keys s1) as [s2 l'] eqn:Hr.
  intros [= <- <-]. destruct (dedup_insert_ok _ _ _ _ _ Hok Hi) as (_ & Hc & Hok1).
  destruct (IH _ _ _ Hok1 Hr) as [Hok2 Hc2]. split; [|congruence].
  destruct b; [|done]. by rewrite <- app_assoc in Hok2.
Qed.
End dedup.

Lemma window_subset {T} c (l : list T) k : k ∈ window c l → k ∈ l.
Proof. unfold window. intros Hk. rewrite <- (take_drop (length l - c) l). apply elem_of_app. by right. Qed.

Lemma length_window {T} c (l : list T) : (length (window c l) ≤ c)%nat.
Proof. unfold window. rewrite length_drop. lia. Qed.

Lemma dedup_run_complete `{Countable T} keys reported (self : DedupSet T) self' l k :
  dedup_ok reported self → dedup_run keys self = (self', l) → k ∈ keys → k ∈ reported ++ l.
Proof.
  revert reported self l. induction keys as [|x keys IH]; intros reported self l Hok; cbn.
  { by intros _ ?%elem_of_nil. }
  destruct (dedup_insert x self) as [s1 b] eqn:Hi. destruct (dedup_run keys s1) as [s2 l'] eqn:Hr.
  intros [= <- <-] [->|Hk]%elem_of_cons.
  - destruct (dedup_insert_ok _ _ _ _ _ Hok Hi) as (-> & _ & _). rewrite elem_of_app.
    case_bool_decide as Hw; [right; by left|]. left. apply (window_subset (dedup_capacity self)).
    by destruct (decide (x ∈ window (dedup_capacity self) reported)).
  - destruct (dedup_insert_ok _ _ _ _ _ Hok Hi) as (_ & _ & Hok1). pose proof (IH _ _ _ Hok1 Hr Hk) as Hin.
    destruct b; [|done]. by rewrite <- app_assoc in Hin.
Qed.

(** Over any sequence of keys the set reports as new every key that occurs,
    and a key again only after at least [c] other reports; it remembers exactly
    the last [c] keys it reported, never more than its capacity. *)
Theorem dedup_exact `{Countable T} c keys (self : DedupSet T) l :
  dedup_run keys (dedup_new c) = (self, l) →
  (∀ k, k ∈ keys → k ∈ l) ∧ spaced c l ∧ inner self = list_to_set (window c l) ∧ (size (inner self) ≤ c)%nat.
Proof.
  intros Hr. destruct (dedup_run_ok _ _ _ _ _ (dedup_new_ok c) Hr) as [(Ho & Hi & Hs) Hc]. cbn in *.
  rewrite Hc in Ho, Hs. split_and!; [|done|by rewrite Hi, Ho|].
  - intros k. exact (dedup_run_complete keys [] (dedup_new c) self l k (dedup_new_ok c) Hr).
  - rewrite Hi, Ho, size_list_to_set by (by apply spaced_window_NoDup). apply length_window.
Qed.

Lemma dedup_exact_witness :
  let '(self, l) := dedup_run ["a"; "a"; "b"; "c"; "a"] (dedup_new 2) in
  l = ["a"; "b"; "c"; "a"] ∧ inner self = {["c"; "a"]}.
Proof.
  pose proof (dedup_exact (T := string) 2 ["a"; "a"; "b"; "c"; "a"]) as Hd.
  destruct (dedup_run ["a"; "a"; "b"; "c"; "a"] (dedup_new 2)) as [self l] eqn:Hr.
  destruct (Hd self l eq_refl) as (_ & _ & Hi & _).
  assert (l = ["a"; "b"; "c"; "a"]) as -> by (apply (f_equal snd) in Hr; vm_compute in Hr; congruence).
  split; [done|]. rewrite Hi. cbn. set_solver.
Defined.

(** ** The persisted sequence *)

Section sequence.
Context `{!Redb, !Postcard string}.

(** [persisted_counter] of [lib.rs] over the meta table. *)
Definition persisted_counter (key : string) (db : Database) : Database * option Z :=
  match meta_get key db with
  | (db, Ok raw) => (db, raw ≫= u64_parse)
  | (db, Err _) => (db, None)
  end.

(** [PersistedSequence::load] *)
Definition load (db : Database) : Database * Z :=
  let '(db, last) := persisted_counter GOSSIP_SEQUENCE_KEY db in
  (db, match last with Some last => u64_saturating_add last 1 | None => 1 end).

(** [PersistedSequence::next]: [fetch_add], then the write. *)
Definition fetch (next : Z) : Z * Z := (u64_wrap (next + 1), next).
Definition persist (sequence : Z) (db : Database) : Database * result unit StorageError :=
  meta_set GOSSIP_SEQUENCE_KEY (u64_to_string sequence) db.

Definition next (next : Z) (db : Database) : Z * Database * Z :=
  let '(next, sequence) := fetch next in
  let db := (persist sequence db).1 in
  (next, db, sequence).

(** *** Runs with restarts *)

Inductive SeqOp : Type := SeqNext | SeqRestart.

(** The state, what was handed out, and whether the database did its part. *)
Fixpoint seq_run (ops : list SeqOp) (n : Z) (db : Database) : Z * Database * list Z * bool :=
  match ops with
  | [] => (n, db, [], true)
  | SeqNext :: ops =>
      let '(n', db', sequence) := next n db in
      let ok := is_ok (persist (fetch n).2 db).2 in
      let '(n'', db'', l, oks) := seq_run ops n' db' in
      (n'', db'', sequence :: l, ok && oks)
  | SeqRestart :: ops =>
      let ok := is_ok (meta_get GOSSIP_SEQUENCE_KEY db).2 in
      let '(db', n') := load db in
      let '(n'', db'', l, oks) := seq_run ops n' db' in (n'', db'', l, ok && oks)
  end.
End sequence.

Section sequence_laws.
Context `{!Redb, !RedbLaws, !Postcard string, !PostcardLaws string}.

(** The counter as the table has it. *)
Definition stored_counter (db : Database) : Z :=
  match view META db !! GOSSIP_SEQUENCE_KEY ≫= u64_parse with
  | Some last => u64_saturating_add last 1
  | None => 1
  end.

Lemma load_stored db db' n :
  load db = (db', n) → is_ok (meta_get GOSSIP_SEQUENCE_KEY db).2 = true →
  n = stored_counter db ∧ stored_counter db' = stored_counter db.
Proof.
  unfold load, persisted_counter, meta_get. pose proof (get_spec (T:=string) META GOSSIP_SEQUENCE_KEY db) as Hw.
  unfold wp in Hw. destruct (Table.get META GOSSIP_SEQUENCE_KEY db) as [db1 [raw|e]]; [|done].
  destruct Hw as [-> Hrows]. intros [= <- <-] _. unfold stored_counter, view. by rewrite Hrows.
Qed.

Lemma persist_stored s db :
  is_u64 s → s < u64_max → is_ok (persist s db).2 = true → stored_counter (persist s db).1 = s + 1.
Proof.
  intros Hs Hlt. unfold persist, meta_set.
  pose proof (upsert_spec (T:=string) META GOSSIP_SEQUENCE_KEY (u64_to_string s) db) as Hw. unfold wp in Hw.
  destruct (Table.upsert _ _ _ db) as [db1 [[]|e]]; [|done]. intros _. destruct Hw as [Hv _].
  unfold stored_counter. cbn [fst]. rewrite Hv, lookup_insert_eq. cbn [mbind option_bind].
  rewrite u64_parse_to_string by done.
  by apply u64_saturating_add_succ.
Qed.

Lemma seq_run_consecutive ops n db n' db' l :
  n = stored_counter db → 0 ≤ n → n + Z.of_nat (length ops) ≤ u64_max →
  seq_run ops n db = (n', db', l, true) → l = seqZ n (Z.of_nat (length l)).
Proof.
  revert n db l. induction ops as [|[] ops IH]; intros n db l Hn Hpos Hb; cbn -[next fetch load].
  - by intros [= <- <- <-].
  - unfold next, fetch. cbn -[persist].
    destruct (seq_run ops _ _) as [[[n2 db2] l2] oks] eqn:Hr. intros [= <- <- <- [Hok ->]%andb_true_iff].
    assert (is_u64 n) as Hu by (unfold is_u64; cbn in Hb; lia).
    assert (n < u64_max) as Hlt by (cbn in Hb; lia).
    assert (u64_wrap (n + 1) = n + 1) as Hwrap.
    { unfold u64_wrap. rewrite Z.mod_small; [done|]. unfold is_u64, u64_max in *. lia. }
    rewrite Hwrap in Hr. apply IH in Hr; [|by rewrite persist_stored|lia|cbn in Hb; lia].
    rewrite Hr at 1. cbn [length]. rewrite (seqZ_cons n) by lia. do 2 f_equal; lia.
  - destruct (load db) as [db1 n1] eqn:Hl. destruct (seq_run ops n1 db1) as [[[n2 db2] l2] oks] eqn:Hr.
    intros [= <- <- <- [Hok ->]%andb_true_iff]. destruct (load_stored _ _ _ Hl Hok) as [-> Hst].
    rewrite <- Hn in *. apply (IH n db1); [congruence|done|cbn in Hb; lia|done].
Qed.
End sequence_laws.

(** As long as the meta table is read and written without an error, the
    numbers handed out one after the other, across any number of restarts, are
    consecutive: none is used twice. *)
Theorem sequence_consecutive `{!Redb, !RedbLaws, !Postcard string, !PostcardLaws string}
    ops db0 db n n' db' l :
  load db0 = (db, n) → is_ok (meta_get GOSSIP_SEQUENCE_KEY db0).2 = true →
  n + Z.of_nat (length ops) ≤ u64_max → seq_run ops n db = (n', db', l, true) →
  l = seqZ n (Z.of_nat (length l)) ∧ NoDup l.
Proof.
  intros Hl Hok Hb Hr. destruct (load_stored _ _ _ Hl Hok) as [Hn Hst].
  assert (0 ≤ n) as Hpos.
  { rewrite Hn. unfold stored_counter. destruct (_ ≫= u64_parse) as [last|] eqn:E; [|done].
    apply bind_Some in E as (raw & _ & E). apply u64_parse_range in E.
    pose proof (u64_saturating_add_range last 1 E). unfold is_u64 in *. lia. }
  assert (l = seqZ n (Z.of_nat (length l))) as Hseq.
  { eapply seq_run_consecutive; [|exact Hpos|exact Hb|exact Hr]. congruence. }
  split; [done|]. rewrite Hseq. apply NoDup_seqZ.
Qed.

(** The claim fails between threads: two callers that take their numbers in
    one order and persist them in the other both succeed, and after a restart
    the second number is handed out again, though no write failed. *)
Theorem sequence_reused `{!Redb, !RedbLaws, !Postcard string, !PostcardLaws string}
    n db db1 db2 db3 first second n1 n2 n3 :
  is_u64 n → n + 1 < u64_max → fetch n = (n1, first) → fetch n1 = (n2, second) →
  persist second db = (db1, Ok tt) → persist first db1 = (db2, Ok tt) →
  is_ok (meta_get GOSSIP_SEQUENCE_KEY db2).2 = true → load db2 = (db3, n3) →
  (fetch n3).2 = second ∧ first ≠ second.
Proof.
  intros Hn Hlt [= <- <-] [= <- <-] Hp1 Hp2 Hok Hl.
  assert (u64_wrap (n + 1) = n + 1) as ->.
  { unfold u64_wrap. rewrite Z.mod_small; [done|]. unfold is_u64, u64_max in *. lia. }
  destruct (load_stored _ _ _ Hl Hok) as [-> _]. split; [|lia]. cbn.
  assert (db2 = (persist n db1).1) as -> by (by rewrite Hp2).
  apply persist_stored; [done|lia|by rewrite Hp2].
Qed.

Section instances.
#[local] Existing Instance toy_redb.
#[local] Existing Instance toy_redb_laws.
#[local] Instance toy_string : Postcard string := toy_postcard string.
#[local] Instance toy_string_laws : PostcardLaws string := toy_postcard_laws string.

Definition blank_db : Database := (mkToy ∅ [] : ToyDatabase).

Lemma sequence_consecutive_witness :
  (seq_run [SeqNext; SeqNext; SeqRestart; SeqNext] 1 (load blank_db).1).1.2 = [1; 2; 3] ∧ NoDup [1; 2; 3].
Proof.
  destruct (seq_run [SeqNext; SeqNext; SeqRestart; SeqNext] 1 (load blank_db).1) as [[[n' db'] l] ok] eqn:Hr.
  assert (l = [1; 2; 3] ∧ ok = true) as [-> ->].
  { apply (f_equal (λ x, (x.1.2, x.2))) in Hr. vm_compute in Hr. by injection Hr as <- <-. }
  split; [done|].
  apply (sequence_consecutive [SeqNext; SeqNext; SeqRestart; SeqNext] blank_db (load blank_db).1 1 n' db' [1; 2; 3]).
  - vm_compute. reflexivity.
  - vm_compute. reflexivity.
  - vm_compute. discriminate.
  - exact Hr.
Defined.

Lemma sequence_reused_witness :
  let db1 := (persist 8 blank_db).1 in
  let db2 := (persist 7 db1).1 in
  (fetch (load db2).2).2 = 8.
Proof.
  intros db1 db2.
  apply (sequence_reused 7 blank_db db1 db2 (load db2).1 7 8 8 9 (load db2).2);
    try (vm_compute; reflexivity). split; vm_compute; discriminate.
Defined.
End instances.
