(* ===== verification/NodeProtocol.v ===== *)
(** * The membership protocol on the wire
    ([crates/daemon/src/membership/convert.rs], [overlay_transport.rs])

    The requests and responses nodes exchange about the membership, what the
    client of a peer makes of an answer, and the conversions between messages
    and the domain types. A field is what its protobuf type holds: a [uint32]
    or [uint64] is a [Z], an enumeration its raw [i32]. The encoding of a
    message as bytes is the protobuf library's. *)

From S2P Require Import Prelude Tables Register Membership Merkle MerkleDiff Mapper.

#[local] Open Scope Z_scope.

(** ** States and registers *)

Inductive ProtoState : Type := PUnspecified | PActive | PSuspected | POffline | PLeaving.

Definition proto_state_as_i32 (s : ProtoState) : Z :=
  match s with PUnspecified => 0 | PActive => 1 | PSuspected => 2 | POffline => 3 | PLeaving => 4 end.

Definition proto_state_try_from (raw : Z) : option ProtoState :=
  match raw with
  | 0 => Some PUnspecified | 1 => Some PActive | 2 => Some PSuspected | 3 => Some POffline | 4 => Some PLeaving
  | _ => None
  end.

Definition state_to_proto (s : MemberState) : ProtoState :=
  match s with Active => PActive | Suspected => PSuspected | Leaving => PLeaving | Offline => POffline end.

Definition state_from_proto (raw : Z) : MemberState :=
  match proto_state_try_from raw with
  | Some PSuspected => Suspected
  | Some PLeaving => Leaving
  | Some POffline => Offline
  | Some PActive | Some PUnspecified | None => Active
  end.

Definition proto_to_register (info : NodeInfo) : MemberRegister :=
  set_annotations (ni_annotations info) (set_labels (ni_labels info)
    (set_state (state_from_proto (ni_state info))
      (Register.new (ni_id info) (ni_address info) (Z.max (ni_incarnation info) 1) (ni_heartbeat info)))).

Definition register_to_proto (r : MemberRegister) : NodeInfo :=
  mkNodeInfo (node_id r) (address r) (labels r) (annotations r) (updated_at_ms r)
    (proto_state_as_i32 (state_to_proto (state r))) (incarnation r) (Register.heartbeat r).

(** ** Requests and responses *)

Inductive StatePayload : Type :=
| SuspectMessage (node_id : string) (incarnation : Z)
| LeaveMessage (node_id : string) (incarnation : Z).

Record ProtoRef : Type := mkProtoRef { pr_depth : Z; pr_index : Z }.

Record ProtoResult : Type := mkProtoResult {
  pn_node : option ProtoRef;
  pn_hash : bytes;
  pn_entries : list (string * bytes);
}.

Inductive RequestKind : Type :=
| QProbe (seq : Z) (target : string)
| QFetchRegisters (node_ids : list string)
| QMerkleRoot
| QMerkleNodes (nodes : list ProtoRef)
| QPushRegisters (registers : list NodeInfo)
| QState (payload : option StatePayload)
| QSyncNodes (nodes : list NodeInfo)
| QPushNode (info : option NodeInfo) (origin_node_id : string) (sequence : Z).

Inductive ResponseKind : Type :=
| AProbe (ack : bool) (seq : Z)
| AFetchRegisters (registers : list NodeInfo)
| AMerkleRoot (root_hash : bytes)
| AMerkleNodes (results : list ProtoResult)
| APushRegisters
| AState (accepted : bool)
| ASyncNodes (nodes : list NodeInfo)
| APushNode (accepted : bool).

(** A message of either kind; [None] when no variant of it is known. *)
Abbreviation NodeRequest := (option RequestKind).
Abbreviation NodeResponse := (option ResponseKind).

(** ** The client's view of an answer

    [Unavailable] carries what was asked, the debug rendering of the answer is
    left out; [PeerRejected] the reason of a peer that refused an operation. *)

Inductive ClientError : Type :=
| Unavailable (what : string)
| PeerTimeout (context : string)
| PeerRejected (operation reason : string).

(** [OverlayPeerClient::call], after the response bytes are decoded. *)
Definition call_result (response : NodeResponse) : result ResponseKind ClientError :=
  ok_or response (Unavailable "empty membership response").

Definition probe_result (k : ResponseKind) : result (bool * Z) ClientError :=
  match k with AProbe ack seq => Ok (ack, seq) | _ => Err (Unavailable "probe answered with") end.
Definition fetch_registers_result (k : ResponseKind) : result (list NodeInfo) ClientError :=
  match k with AFetchRegisters rs => Ok rs | _ => Err (Unavailable "fetch_registers answered with") end.
Definition merkle_root_result (k : ResponseKind) : result bytes ClientError :=
  match k with AMerkleRoot h => Ok h | _ => Err (Unavailable "merkle_root answered with") end.
Definition merkle_nodes_result (k : ResponseKind) : result (list ProtoResult) ClientError :=
  match k with AMerkleNodes l => Ok l | _ => Err (Unavailable "merkle_nodes answered with") end.
Definition push_registers_result (k : ResponseKind) : result unit ClientError :=
  match k with APushRegisters => Ok tt | _ => Err (Unavailable "push_registers answered with") end.
Definition state_result (k : ResponseKind) : result bool ClientError :=
  match k with AState accepted => Ok accepted | _ => Err (Unavailable "state answered with") end.
Definition sync_nodes_result (k : ResponseKind) : result (list NodeInfo) ClientError :=
  match k with ASyncNodes l => Ok l | _ => Err (Unavailable "sync_nodes answered with") end.
Definition push_node_result (k : ResponseKind) : result unit ClientError :=
  match k with APushNode true => Ok tt | _ => Err (Unavailable "push_node answered with") end.

(** ** Tree nodes *)

Definition proto_ref (r : NodeRef) : ProtoRef := mkProtoRef (Z.of_nat (ref_depth r)) (Z.of_nat (ref_index r)).

Definition proto_refs (refs : list NodeRef) : list ProtoRef := proto_ref <$> refs.

(** [u8::try_from] *)
Definition u8_try_from (raw : Z) : option nat := if decide (raw ≤ 255) then Some (Z.to_nat raw) else None.

Definition is_digest (h : bytes) : bool := bool_decide (String.length h = 32%nat).

Section nodes.
Context `{!MerkleShape}.

Definition remote_node (r : ProtoResult) : option RemoteNode :=
  node ← pn_node r;
  depth ← u8_try_from (pr_depth node);
  if is_digest (pn_hash r) then
    Some (mkRemoteNode depth (Z.to_nat (pr_index node)) (pn_hash r)
      (if decide (depth = MERKLE_TREE_DEPTH)
       then Some (filter (λ e, is_digest e.2 = true) (pn_entries r)) else None))
  else None.

Definition remote_nodes (results : list ProtoResult) : list RemoteNode := omap remote_node results.

(** What [serve_merkle_nodes] reads and writes. *)
Definition served_ref (r : ProtoRef) : option NodeRef :=
  depth ← u8_try_from (pr_depth r); Some (mkNodeRef depth (Z.to_nat (pr_index r))).

Definition served_node (n : RemoteNode) : ProtoResult :=
  mkProtoResult (Some (mkProtoRef (Z.of_nat (rn_depth n)) (Z.of_nat (rn_index n)))) (rn_hash n)
    (default [] (rn_entries n)).
End nodes.

(** ** Round trips *)

Lemma state_round_trip s : state_from_proto (proto_state_as_i32 (state_to_proto s)) = s.
Proof. by destruct s. Qed.

(** A register that was put on the wire and read is the register, its time of
    update aside, as long as its incarnation counts from one. *)
Lemma register_round_trip r :
  1 ≤ incarnation r → proto_to_register (register_to_proto r) = set_updated_at_ms 0 r.
Proof.
  intros Hi. unfold proto_to_register, register_to_proto. cbn. rewrite state_round_trip, Z.max_l by lia.
  by destruct r.
Qed.

Lemma u8_try_from_nat n : (n ≤ 255)%nat → u8_try_from (Z.of_nat n) = Some n.
Proof. intros Hn. unfold u8_try_from. rewrite decide_True by lia. by rewrite Nat2Z.id. Qed.

Lemma ref_round_trip r : (ref_depth r ≤ 255)%nat → served_ref (proto_ref r) = Some r.
Proof.
  intros Hr. unfold served_ref. cbn. rewrite u8_try_from_nat by done. cbn. rewrite Nat2Z.id. by destruct r.
Qed.

Lemma refs_round_trip refs :
  Forall (λ r, (ref_depth r ≤ 255)%nat) refs → omap served_ref (proto_refs refs) = refs.
Proof.
  induction 1 as [|r refs Hr _ IH]; [done|]. cbn. rewrite ref_round_trip by done. by f_equal.
Qed.

(** A well-formed answer: digests of 32 bytes, entries at the leaves only. *)
Definition wf_node `{!MerkleShape} (n : RemoteNode) : Prop :=
  (rn_depth n ≤ 255)%nat ∧ String.length (rn_hash n) = 32%nat ∧
  match rn_entries n with
  | Some l => rn_depth n = MERKLE_TREE_DEPTH ∧ Forall (λ e, String.length e.2 = 32%nat) l
  | None => rn_depth n ≠ MERKLE_TREE_DEPTH
  end.

Lemma filter_all {A} (P : A → Prop) `{∀ x, Decision (P x)} (l : list A) : Forall P l → filter P l = l.
Proof. induction 1 as [|x l Hx _ IH]; [done|]. rewrite filter_cons_True by done. by f_equal. Qed.

Lemma node_round_trip `{!MerkleShape} n : wf_node n → remote_node (served_node n) = Some n.
Proof.
  intros (Hd & Hh & He). unfold remote_node, served_node. cbn. rewrite u8_try_from_nat by done. cbn.
  unfold is_digest at 1. rewrite bool_decide_eq_true_2, Nat2Z.id by done. f_equal.
  destruct n as [d i h [l|]]; cbn in *.
  - destruct He as [-> He]. rewrite decide_True by done. rewrite filter_all; [done|].
    eapply Forall_impl; [exact He|]. intros e Hl. by apply bool_decide_eq_true_2.
  - by rewrite decide_False.
Qed.

Lemma nodes_round_trip `{!MerkleShape} l : Forall wf_node l → remote_nodes (served_node <$> l) = l.
Proof.
  induction 1 as [|n l Hn _ IH]; [done|]. unfold remote_nodes in *. rewrite fmap_cons.
  cbn -[remote_node served_node]. rewrite node_round_trip by done. by f_equal.
Qed.
