(* ===== verification/Cluster.v ===== *)
(** * Cluster synchronization ([crates/daemon/src/sync/], [overlay_transport.rs])

    The owner of the gossip and anti-entropy loops: what it serves to peers,
    what it sends, and the exchange it drives. The state is the membership
    service, the node's tables, the two deduplication sets, the counter of its
    pushes and the background tasks it has spawned. An effect between two
    [await]s is one definition: a task is the list of the steps it has left, and
    the steps of several tasks may interleave. What the clock says ([now]), what
    becomes of a write to the meta table ([disk]) and which peers the transport
    proposes ([targets]) are arguments. The bookkeeping of endpoints
    ([mark_seen], [mark_failed], [promote], [remove], [is_primary]) does nothing
    on the overlay transport. *)

From S2P Require Import Prelude.
From S2P Require Import Effects.
From S2P Require Import Tables.
From S2P Require Import NodeStores.
From S2P Require Import Register.
From S2P Require Import Membership.
From S2P Require Import Merkle.
From S2P Require Import MerkleDiff.
From S2P Require Import Swim.
From S2P Require Import Service.
From S2P Require Import Identity.
From S2P Require Import Gossip.
From S2P Require Import Mapper.
From S2P Require Import NodeProtocol.

#[local] Open Scope Z_scope.

(** ** What can be dispatched *)

Inductive OutboundAction : Type :=
| OutPing (target : string) (seq : Z)
| OutAlive (register : MemberRegister)
| OutSuspect (node_id : string) (incarnation : Z)
| OutLeave (node_id : string) (incarnation : Z).

(** [OutboundAction::from_swim] *)
Definition from_swim (action : SwimAction) : option OutboundAction :=
  match action with
  | SendPing target seq => Some (OutPing target seq)
  | Broadcast (Alive register) => Some (OutAlive register)
  | Broadcast (Suspect id inc) => Some (OutSuspect id inc)
  | Broadcast (Leave id inc) => Some (OutLeave id inc)
  | SendAck _ _ | Broadcast (Ping _) | Broadcast (Ack _) => None
  end.

(** The steps of a background task. *)
Inductive Job : Type :=
| JAction (action : OutboundAction)
| JPush (info : NodeInfo) (origin : string) (sequence : Z).

(** A request on its way to a peer. *)
Record Outgoing : Type := mkOutgoing { out_peer : string; out_request : RequestKind }.

Section cluster.
Context `{!HashIter} `{!MerkleShape} (blake3 : string → Hash).
Context `{!Redb, !Postcard string, !Postcard PeerRecord} `{!Hex}.

Record ClusterSync : Type := mkSync {
  sync_node_id : string;
  service : MembershipService;
  node : Database;
  seen_pushes : DedupSet (string * Z);
  seen_states : DedupSet (string * Z * Z);
  push_sequence : Z;
  tasks : list (list Job);
}.

Definition set_service (s : MembershipService) (self : ClusterSync) : ClusterSync :=
  mkSync (sync_node_id self) s (node self) (seen_pushes self) (seen_states self) (push_sequence self) (tasks self).
Definition set_node (d : Database) (self : ClusterSync) : ClusterSync :=
  mkSync (sync_node_id self) (service self) d (seen_pushes self) (seen_states self) (push_sequence self) (tasks self).
Definition set_pushes (d : DedupSet (string * Z)) (self : ClusterSync) : ClusterSync :=
  mkSync (sync_node_id self) (service self) (node self) d (seen_states self) (push_sequence self) (tasks self).
Definition set_states (d : DedupSet (string * Z * Z)) (self : ClusterSync) : ClusterSync :=
  mkSync (sync_node_id self) (service self) (node self) (seen_pushes self) d (push_sequence self) (tasks self).
Definition set_sequence (n : Z) (self : ClusterSync) : ClusterSync :=
  mkSync (sync_node_id self) (service self) (node self) (seen_pushes self) (seen_states self) n (tasks self).
Definition set_tasks (l : list (list Job)) (self : ClusterSync) : ClusterSync :=
  mkSync (sync_node_id self) (service self) (node self) (seen_pushes self) (seen_states self) (push_sequence self) l.

(** [ClusterSync::new] *)
Definition new (local_node_id : string) (s : MembershipService) (db : Database) : ClusterSync :=
  let '(db, next) := load db in
  mkSync local_node_id s db (dedup_new MAX_SEEN_PUSHES) (dedup_new MAX_SEEN_STATES) next [].

(** [spawn_task] and [spawn_dispatch] *)
Definition spawn_task (task : list Job) (self : ClusterSync) : ClusterSync := set_tasks (tasks self ++ [task]) self.

Definition dispatched (actions : list SwimAction) : list Job := JAction <$> omap from_swim actions.

Definition spawn_dispatch (actions : list SwimAction) (self : ClusterSync) : ClusterSync :=
  if decide (actions = []) then self else spawn_task (dispatched actions) self.

Definition local_address (self : ClusterSync) : option string := member_address (service self) (sync_node_id self).

(** Seeding the addresses of members; a failed write is logged. *)
Definition seed_address (local address : string) (self : ClusterSync) : ClusterSync :=
  if decide (address ≠ local) then set_node (seed address (node self)).1 self else self.

Definition seed_member_nodes (self : ClusterSync) : ClusterSync :=
  let local_address := default "" (local_address self) in
  foldl (λ self r, seed_address local_address (Register.address r) self) self (list_nodes (service self) ∅).

(** ** Gossip *)

Definition allocate_push (self : ClusterSync) : ClusterSync * (string * Z) :=
  let '(next, db, sequence) := Gossip.next (push_sequence self) (node self) in
  let self := set_sequence next (set_node db self) in
  let key := (sync_node_id self, sequence) in
  (set_pushes (dedup_insert key (seen_pushes self)).1 self, key).

(** The requests of [broadcast_push] and [broadcast_state_message]. *)
Definition broadcast_push (targets : list string) (info : NodeInfo) (origin : string) (sequence : Z)
    : list Outgoing :=
  (λ peer, mkOutgoing peer (QPushNode (Some info) origin sequence)) <$> targets.

Definition broadcast_state_message (targets : list string) (payload : StatePayload) : list Outgoing :=
  (λ peer, mkOutgoing peer (QState (Some payload))) <$> targets.

(** [push_change] *)
Definition push_change (targets : list string) (info : NodeInfo) (self : ClusterSync)
    : ClusterSync * list Outgoing :=
  let '(self, (origin, sequence)) := allocate_push self in
  (self, broadcast_push targets info origin sequence).

(** [connect]: the text of a peer has to be a node id. *)
Definition connect (peer : string) : result NodeId ClientError :=
  match identifier_from_str 32 peer with Ok id => Ok id | Err _ => Err (Unavailable "invalid overlay node id") end.

Definition serve_push_node (now : Z) (disk : bool) (info : NodeInfo) (origin : string) (sequence : Z)
    (self : ClusterSync) : ClusterSync :=
  let '(pushes, is_new) := dedup_insert (origin, sequence) (seen_pushes self) in
  let self := set_pushes pushes self in
  if negb is_new then self
  else
    let local_address := default "" (local_address self) in
    let self := seed_address local_address (ni_address info) self in
    let '(service, actions) := register (service self) (proto_to_register info) now disk in
    spawn_task (dispatched actions ++ [JPush info origin sequence]) (set_service service self).

(** ** SWIM *)

(** One action of [dispatch]; the answer to a probe comes back through
    [probe_answered]. *)
Definition dispatch_one (targets : list string) (action : OutboundAction) (self : ClusterSync)
    : ClusterSync * list Outgoing :=
  match action with
  | OutPing target seq =>
      match connect target with
      | Ok _ => (self, [mkOutgoing target (QProbe seq "")])
      | Err _ => (self, [])
      end
  | OutAlive register =>
      let '(self, (origin, sequence)) := allocate_push self in
      (self, broadcast_push targets (register_to_proto register) origin sequence)
  | OutSuspect id inc =>
      let self := set_states (dedup_insert (id, inc, 1) (seen_states self)).1 self in
      (self, broadcast_state_message targets (SuspectMessage id inc))
  | OutLeave id inc =>
      let self := set_states (dedup_insert (id, inc, 2) (seen_states self)).1 self in
      (self, broadcast_state_message targets (LeaveMessage id inc))
  end.

Definition run_job (targets : list string) (job : Job) (self : ClusterSync) : ClusterSync * list Outgoing :=
  match job with
  | JAction action => dispatch_one targets action self
  | JPush info origin sequence => (self, broadcast_push targets info origin sequence)
  end.

(** The next step of the [i]th task. *)
Definition run_task (targets : list string) (i : nat) (self : ClusterSync) : ClusterSync * list Outgoing :=
  match tasks self !! i with
  | Some (job :: rest) => run_job targets job (set_tasks (<[i := rest]> (tasks self)) self)
  | _ => (self, [])
  end.

(** A probe answered: [send_probe_to] after its timeout. *)
Definition probe_answered (now : Z) (disk : bool) (target : string) (seq : Z)
    (answer : result ResponseKind ClientError) (self : ClusterSync) : ClusterSync :=
  match answer with
  | Ok k =>
      match probe_result k with
      | Ok (true, _) => set_service (on_probe (service self) target (Ack seq) now disk).1 self
      | _ => self
      end
  | Err _ => self
  end.

(** [run_swim], one tick. *)
Definition swim_tick (now : Z) (disk : bool) (self : ClusterSync) : ClusterSync :=
  let '(service, actions) := tick (service self) now disk in
  spawn_task (dispatched actions) (set_service service self).

Definition is_ack (action : SwimAction) : bool := match action with SendAck _ _ => true | _ => false end.

Definition serve_probe (now : Z) (disk : bool) (seq : Z) (self : ClusterSync) : ClusterSync * bool :=
  let '(service, actions) := on_probe (service self) (sync_node_id self) (Ping seq) now disk in
  (spawn_dispatch actions (set_service service self), existsb is_ack actions).

Definition state_key (payload : StatePayload) : string * Z * Z :=
  match payload with SuspectMessage id inc => (id, inc, 1) | LeaveMessage id inc => (id, inc, 2) end.

Definition state_message (payload : StatePayload) : SwimMessage :=
  match payload with SuspectMessage id inc => Suspect id inc | LeaveMessage id inc => Leave id inc end.

Definition serve_state_message (now : Z) (disk : bool) (payload : option StatePayload) (self : ClusterSync)
    : ClusterSync :=
  match payload with
  | None => spawn_dispatch [] self
  | Some payload =>
      let '(states, is_new) := dedup_insert (state_key payload) (seen_states self) in
      let self := set_states states self in
      if negb is_new then self
      else
        let '(service, actions) :=
          on_probe (service self) (sync_node_id self) (state_message payload) now disk in
        spawn_dispatch actions (set_service service self)
  end.

(** ** Anti-entropy, the serving side *)

Definition serve_sync_nodes (now : Z) (disk : bool) (nodes : list NodeInfo) (self : ClusterSync)
    : ClusterSync * list NodeInfo :=
  let '(service, (snapshot, actions)) := sync_nodes (service self) (proto_to_register <$> nodes) now disk in
  let self := spawn_dispatch actions (seed_member_nodes (set_service service self)) in
  (self, register_to_proto <$> snapshot).

Definition serve_merkle_root (self : ClusterSync) : ClusterSync * Hash :=
  let '(service, h) := merkle_root blake3 (service self) in (set_service service self, h).

Definition serve_merkle_nodes (refs : list ProtoRef) (self : ClusterSync) : ClusterSync * list ProtoResult :=
  let '(service, results) := merkle_nodes blake3 (service self) (omap served_ref refs) in
  (set_service service self, served_node <$> results).

Definition serve_fetch_registers (node_ids : list string) (self : ClusterSync) : list NodeInfo :=
  register_to_proto <$> fetch_registers (service self) node_ids.

Definition serve_push_registers (now : Z) (disk : bool) (registers : list NodeInfo) (self : ClusterSync)
    : ClusterSync :=
  let '(service, (_, actions)) := sync_nodes (service self) (proto_to_register <$> registers) now disk in
  spawn_dispatch actions (set_service service self).

(** [MembershipRequestHandler::handle] *)
Definition handle (now : Z) (disk : bool) (request : NodeRequest) (self : ClusterSync)
    : ClusterSync * NodeResponse :=
  match request with
  | None => (self, None)
  | Some kind =>
      let '(self, answer) :=
        match kind with
        | QProbe seq _ => let '(self, ack) := serve_probe now disk seq self in (self, AProbe ack seq)
        | QFetchRegisters ids => (self, AFetchRegisters (serve_fetch_registers ids self))
        | QMerkleRoot => let '(self, h) := serve_merkle_root self in (self, AMerkleRoot h)
        | QMerkleNodes refs => let '(self, l) := serve_merkle_nodes refs self in (self, AMerkleNodes l)
        | QPushRegisters rs => (serve_push_registers now disk rs self, APushRegisters)
        | QState payload => (serve_state_message now disk payload self, AState true)
        | QSyncNodes nodes => let '(self, l) := serve_sync_nodes now disk nodes self in (self, ASyncNodes l)
        | QPushNode (Some info) origin sequence =>
            (serve_push_node now disk info origin sequence self, APushNode true)
        | QPushNode None _ _ => (self, APushNode false)
        end in
      (self, Some answer)
  end.
End cluster.
