(* ===== verification/AntiEntropy.v ===== *)
(** * Anti-entropy, the driving side ([crates/daemon/src/sync/antientropy.rs])

    One round of synchronization with the peers. While a request is under way
    anything may happen on both sides: a round is written over a world [W] of
    which the node's own state is a part, and [rpc], one request to a peer under
    its timeout, is any operation of that world that returns the answer or an
    error. The fallback peers, which the code tries concurrently, are tried one
    after the other. *)

From S2P Require Import Prelude.
From S2P Require Import Effects.
From S2P Require Import Tables.
From S2P Require Import NodeStores.
From S2P Require Import Register.
From S2P Require Import Membership.
From S2P Require Import Merkle.
From S2P Require Import MerkleDiff.
From S2P Require Import Swim.
From S2P Require Import Service.
From S2P Require Import Identity.
From S2P Require Import Gossip.
From S2P Require Import Mapper.
From S2P Require Import NodeProtocol.
From S2P Require Import Cluster.

#[local] Open Scope Z_scope.

Section drive.
Context `{!HashIter} `{!MerkleShape} (blake3 : string → Hash).
Context `{!Redb, !Postcard string, !Postcard PeerRecord} `{!Hex}.
Context {W : Type} (self : W → ClusterSync) (put : ClusterSync → W → W).
Context (now : W → Z) (disk : W → bool) (rpc : string → RequestKind → M W ClientError NodeResponse).

Abbreviation Drive := (M W ClientError).

(** A method of the node itself. *)
Definition own {E A} (f : ClusterSync → ClusterSync * A) : M W E A := λ w,
  let '(s, a) := f (self w) in (put s w, Ok a).

(** [match ... { Ok => .., Err => .. }] on the outcome of a step. *)
Definition attempt {E E' A} (m : M W E A) : M W E' (result A E) := λ w, let '(w, r) := m w in (w, Ok r).

Definition request {A} (read : ResponseKind → result A ClientError) (peer : string) (kind : RequestKind)
    : Drive A :=
  let! response := rpc peer kind in
  let! answer := lift (call_result response) in
  lift (read answer).

Definition request_merkle_nodes (peer : string) (refs : list NodeRef) : Drive (list RemoteNode) :=
  let! results := request merkle_nodes_result peer (QMerkleNodes (proto_refs refs)) in
  ret (remote_nodes results).

Definition merkle_diff_with_peer (peer : string) : Drive DiffResult :=
  let! tree := own (λ s, let '(svc, t) := merkle_tree_snapshot blake3 (service s) in (set_service svc s, t)) in
  let diff := MerkleDiff.new tree in
  let! top := request_merkle_nodes peer top_refs in
  let '(diff, leaf_refs) := plan_leaf_refs blake3 diff top in
  let! bottom := if decide (leaf_refs = []) then ret [] else request_merkle_nodes peer leaf_refs in
  ret (finish blake3 diff bottom).

(** Merging what a peer sent: [sync_nodes] and the dispatch of its actions. *)
Definition merge_infos {E} (infos : list NodeInfo) : M W E unit := λ w,
  let '(svc, (_, actions)) := sync_nodes (service (self w)) (proto_to_register <$> infos) (now w) (disk w) in
  (put (spawn_dispatch actions (set_service svc (self w))) w, Ok tt).

Definition seed_members {E} : M W E unit := own (λ s, (seed_member_nodes s, tt)).

(** [full_sync_with_peer], with its timeout in [rpc]. *)
Definition full_sync_with_peer (peer : string) : Drive unit :=
  let! _ := lift (connect peer) in
  let! snapshot := own (λ s, (s, register_to_proto <$> list_nodes (service s) ∅)) in
  let! nodes := request sync_nodes_result peer (QSyncNodes snapshot) in
  let! _ := merge_infos nodes in
  seed_members.

Definition exchange_diff (peer : string) : Drive unit :=
  let! diff := merkle_diff_with_peer peer in
  let! fetched :=
    if decide (dr_need_from_remote diff = []) then ret []
    else request fetch_registers_result peer (QFetchRegisters (dr_need_from_remote diff)) in
  let! local_registers :=
    own (λ s, (s, register_to_proto <$> fetch_registers (service s) (dr_need_from_local diff))) in
  let! _ :=
    if decide (local_registers = []) then ret tt
    else let! _ := attempt (request push_registers_result peer (QPushRegisters local_registers)) in ret tt in
  let! _ := if decide (fetched = []) then ret tt else merge_infos fetched in
  seed_members.

Definition sync_with_peer (peer : string) : Drive unit :=
  let! _ := lift (connect peer) in
  let! root := attempt (request merkle_root_result peer QMerkleRoot) in
  match root with
  | Err _ => full_sync_with_peer peer
  | Ok remote_root =>
      let! local_root := own (λ s, let '(svc, h) := merkle_root blake3 (service s) in (set_service svc s, h)) in
      if decide (remote_root = local_root) then ret tt else exchange_diff peer
  end.

(** *** The peers of a round *)

Context (candidates : W → list string).

Definition sync_attempt {E} (peer : string) : M W E bool :=
  let! r := attempt (sync_with_peer peer) in ret (is_ok r).

(** The first seed that answers ends the pass. *)
Fixpoint retry_seeds {E} (seeds : list string) : M W E bool :=
  match seeds with
  | [] => ret false
  | seed :: seeds =>
      let! reachable := sync_attempt seed in
      if reachable then ret true else retry_seeds seeds
  end.

Definition retry_seeds_when_isolated {E} : M W E bool := λ w, retry_seeds (candidates w) w.

(** Whether some peer was reached; the code drops it. *)
Definition sync_with_peers {E} : M W E bool := λ w,
  match candidates w with
  | [] => retry_seeds_when_isolated w
  | preferred :: fallbacks =>
      (let! reached := sync_attempt preferred in
       if reached then ret true
       else
         let! results := mapM sync_attempt fallbacks in
         if existsb id results then ret true else retry_seeds_when_isolated) w
  end.
End drive.
