(* ===== verification/ClusterTheorems.v ===== *)
(** * What gossip and anti-entropy achieve

    Theorems about [Cluster] and [AntiEntropy]: requests are answered in kind, a
    push spreads to every node that gossip connects and goes round no more often
    than the deduplication window allows, and a round of anti-entropy leaves two
    nodes agreeing on every third. *)

From S2P Require Import Prelude.
From S2P Require Import Effects.
From S2P Require Import Tables.
From S2P Require Import NodeStores.
From S2P Require Import Register.
From S2P Require Import Membership.
From S2P Require Import Merkle.
From S2P Require Import MerkleDiff.
From S2P Require Import Swim.
From S2P Require Import Service.
From S2P Require Import Identity.
From S2P Require Import Gossip.
From S2P Require Import Mapper.
From S2P Require Import NodeProtocol.
From S2P Require Import Cluster.
From S2P Require Import AntiEntropy.

#[local] Open Scope Z_scope.

(** ** Answers in kind *)

(** The answer that belongs to a request. *)
Definition answers (request : RequestKind) (answer : ResponseKind) : bool :=
  match request, answer with
  | QProbe seq _, AProbe _ seq' => bool_decide (seq = seq')
  | QFetchRegisters _, AFetchRegisters _ | QMerkleRoot, AMerkleRoot _ | QMerkleNodes _, AMerkleNodes _
  | QPushRegisters _, APushRegisters | QSyncNodes _, ASyncNodes _ => true
  | QState _, AState accepted => accepted
  | QPushNode info _ _, APushNode accepted => bool_decide (accepted = bool_decide (is_Some info))
  | _, _ => false
  end.

(** A node answers every request with the variant that belongs to it, a
    probe with the number that was asked and a push as accepted unless it
    carried no register; only a request of no known variant gets no variant
    back. So the client of a node that runs this code never reports an answer of
    another kind. *)
Theorem handle_answers_in_kind `{!HashIter, !MerkleShape} blake3 `{!Redb, !Postcard string, !Postcard PeerRecord}
    now disk request self :
  match request with
  | Some kind => ∃ answer, (handle blake3 now disk request self).2 = Some answer ∧ answers kind answer = true
  | None => handle blake3 now disk request self = (self, None)
  end.
Proof.
  destruct request as [kind|]; [|done]. unfold handle.
  destruct kind as [seq t|ids| |refs|rs|p|ns|[info|] o q].
  - destruct (serve_probe now disk seq self) as [s ack]. eexists. split; [done|]. by apply bool_decide_eq_true_2.
  - by eexists.
  - destruct (serve_merkle_root blake3 self) as [s h]. by eexists.
  - destruct (serve_merkle_nodes blake3 refs self) as [s l]. by eexists.
  - by eexists.
  - by eexists.
  - destruct (serve_sync_nodes now disk ns self) as [s l]. by eexists.
  - by eexists.
  - by eexists.
Qed.

(** ** The events of a node *)

Inductive Event : Type :=
| EHandle (now : Z) (disk : bool) (request : NodeRequest)
| ERun (task : nat)
| ETick (now : Z) (disk : bool)
| EProbeAnswered (now : Z) (disk : bool) (target : string) (seq : Z) (answer : result ResponseKind ClientError)
| EPushChange (info : NodeInfo)
| EMerge (now : Z) (disk : bool) (infos : list NodeInfo).

Abbreviation PushKey := (string * Z)%type.

Section events.
Context `{!HashIter} `{!MerkleShape} (blake3 : string → Hash).
Context `{!Redb, !Postcard string, !Postcard PeerRecord} `{!Hex}.
Implicit Types s : ClusterSync.

Definition node_step (targets : list string) (e : Event) s : ClusterSync * list Outgoing :=
  match e with
  | EHandle now disk request => ((handle blake3 now disk request s).1, [])
  | ERun i => run_task targets i s
  | ETick now disk => (swim_tick now disk s, [])
  | EProbeAnswered now disk target seq answer => (probe_answered now disk target seq answer s, [])
  | EPushChange info => push_change targets info s
  | EMerge now disk infos => (serve_push_registers now disk infos s, [])
  end.

(** The key an event offers to the deduplication set. *)
Definition offered_push (e : Event) s : option PushKey :=
  match e with
  | EHandle _ _ (Some (QPushNode (Some _) origin sequence)) => Some (origin, sequence)
  | ERun i =>
      match tasks s !! i with
      | Some (JAction (OutAlive _) :: _) => Some (sync_node_id s, push_sequence s)
      | _ => None
      end
  | EPushChange _ => Some (sync_node_id s, push_sequence s)
  | _ => None
  end.

Definition is_push (k : PushKey) (o : Outgoing) : bool :=
  match out_request o with QPushNode _ origin sequence => bool_decide ((origin, sequence) = k) | _ => false end.

Definition is_push_job (k : PushKey) (j : Job) : bool :=
  match j with JPush _ origin sequence => bool_decide ((origin, sequence) = k) | _ => false end.

(** The steps still to run, in all tasks. *)
Definition jobs s : list Job := concat (tasks s).

(** The log: the keys the node accepted as new. *)
Definition log_step (e : Event) s (log : list PushKey) : list PushKey :=
  match offered_push e s with
  | Some k => if (dedup_insert k (seen_pushes s)).2 then log ++ [k] else log
  | None => log
  end.

(** *** One step *)

Definition same_gossip s s' : Prop :=
  seen_pushes s' = seen_pushes s ∧ sync_node_id s' = sync_node_id s.

Lemma seed_address_frame local a s : same_gossip s (seed_address local a s) ∧ tasks (seed_address local a s) = tasks s.
Proof. unfold seed_address. by case_decide. Qed.

Lemma seed_member_frame s : same_gossip s (seed_member_nodes s) ∧ tasks (seed_member_nodes s) = tasks s.
Proof.
  unfold seed_member_nodes. generalize (default "" (local_address s)) as la.
  generalize (list_nodes (service s) ∅) as l. intros l la.
  assert (∀ s0, same_gossip s s0 ∧ tasks s0 = tasks s →
    same_gossip s (foldl (λ self r, seed_address la (Register.address r) self) s0 l) ∧
    tasks (foldl (λ self r, seed_address la (Register.address r) self) s0 l) = tasks s) as Hall; [|by apply Hall].
  induction l as [|r l IH]; intros s0 [[Ha Hb] Hc]; [done|]. cbn [foldl]. apply IH.
  destruct (seed_address_frame la (Register.address r) s0) as [[Hd He] Hf]. repeat split; congruence.
Qed.

Lemma spawn_dispatch_frame actions s : same_gossip s (spawn_dispatch actions s).
Proof. unfold spawn_dispatch. by case_decide. Qed.

Lemma is_push_job_action k a : is_push_job k (JAction a) = false.
Proof. done. Qed.

Lemma dispatched_no_push k actions : filter (λ j, is_push_job k j = true) (dispatched actions) = [].
Proof.
  unfold dispatched. induction actions as [|a l IH]; [done|]. cbn. destruct (from_swim a); exact IH.
Qed.

Definition push_jobs (k : PushKey) s : list Job := filter (λ j, is_push_job k j = true) (jobs s).

Lemma push_jobs_spawn k task s :
  push_jobs k (spawn_task task s) = push_jobs k s ++ filter (λ j, is_push_job k j = true) task.
Proof.
  unfold push_jobs, jobs, spawn_task. cbn. by rewrite concat_app, filter_app, concat_cons, app_nil_r.
Qed.

Lemma push_jobs_tasks k s s' : tasks s' = tasks s → push_jobs k s' = push_jobs k s.
Proof. unfold push_jobs, jobs. by intros ->. Qed.

Lemma push_jobs_dispatch k actions s : push_jobs k (spawn_dispatch actions s) = push_jobs k s.
Proof.
  unfold spawn_dispatch. case_decide; [done|]. by rewrite push_jobs_spawn, dispatched_no_push, app_nil_r.
Qed.
Lemma concat_insert {A} (l : list (list A)) i x rest :
  l !! i = Some (x :: rest) → concat l ≡ₚ x :: concat (<[i := rest]> l).
Proof.
  revert i. induction l as [|a l IH]; intros [|i] Hi; [done..| |]; cbn in *.
  - injection Hi as ->. done.
  - rewrite (IH _ Hi). rewrite Permutation_middle. done.
Qed.

Lemma run_job_frame targets job s s' out :
  run_job targets job s = (s', out) →
  tasks s' = tasks s ∧ sync_node_id s' = sync_node_id s ∧
  seen_pushes s' = match job with
                   | JAction (OutAlive _) => (dedup_insert (sync_node_id s, push_sequence s) (seen_pushes s)).1
                   | _ => seen_pushes s
                   end ∧
  out = match job with
        | JAction (OutPing target seq) =>
            match connect target with Ok _ => [mkOutgoing target (QProbe seq "")] | Err _ => [] end
        | JAction (OutAlive register) =>
            broadcast_push targets (register_to_proto register) (sync_node_id s) (push_sequence s)
        | JAction (OutSuspect id inc) => broadcast_state_message targets (SuspectMessage id inc)
        | JAction (OutLeave id inc) => broadcast_state_message targets (LeaveMessage id inc)
        | JPush info origin sequence => broadcast_push targets info origin sequence
        end.
Proof.
  destruct job as [[target seq|r|id inc|id inc]|info o q]; cbn -[dedup_insert].
  - by destruct (connect target); intros [= <- <-].
  - unfold allocate_push, Gossip.next. cbn -[dedup_insert]. by intros [= <- <-].
  - by intros [= <- <-].
  - by intros [= <- <-].
  - by intros [= <- <-].
Qed.

Definition sent_all (k : PushKey) (targets : list string) (out : list Outgoing) : Prop :=
  ∀ t, t ∈ targets → ∃ info, mkOutgoing t (QPushNode (Some info) k.1 k.2) ∈ out.

Lemma broadcast_sent targets info o q : sent_all (o, q) targets (broadcast_push targets info o q).
Proof. intros t Ht. exists info. unfold broadcast_push. by apply (list_elem_of_fmap_2 (λ t, mkOutgoing t _)). Qed.

Lemma broadcast_count k targets info o q :
  length (filter (λ m, is_push k m = true) (broadcast_push targets info o q)) =
    if decide ((o, q) = k) then length targets else 0%nat.
Proof.
  unfold broadcast_push. induction targets as [|t l IH]; [by case_decide|]. rewrite fmap_cons.
  destruct (decide ((o, q) = k)) as [Hd|Hd].
  - rewrite filter_cons_True by (by apply bool_decide_eq_true_2). cbn [length]. by rewrite IH.
  - rewrite filter_cons_False; [done|]. cbn. by rewrite bool_decide_eq_false_2.
Qed.

Lemma state_count k targets p :
  filter (λ m, is_push k m = true) (broadcast_state_message targets p) = [].
Proof. unfold broadcast_state_message. induction targets; [done|]. rewrite fmap_cons. by rewrite filter_cons_False. Qed.

(** The push that is taken in, when there is one. *)
Definition peer_push (e : Event) : option PushKey :=
  match e with EHandle _ _ (Some (QPushNode (Some _) origin sequence)) => Some (origin, sequence) | _ => None end.

Definition accepted (k : PushKey) (e : Event) s : bool :=
  bool_decide (offered_push e s = Some k) && (dedup_insert k (seen_pushes s)).2.

(** Handling a request touches the deduplication set only for a push. *)
Lemma handle_frame now disk request s :
  let s' := (handle blake3 now disk request s).1 in
  sync_node_id s' = sync_node_id s ∧
  seen_pushes s' = match peer_push (EHandle now disk request) with
                   | Some k => (dedup_insert k (seen_pushes s)).1
                   | None => seen_pushes s
                   end ∧
  ∀ k, push_jobs k s' = push_jobs k s ++
    match request with
    | Some (QPushNode (Some info) o q) =>
        if bool_decide ((o, q) = k) && (dedup_insert k (seen_pushes s)).2 then [JPush info o q] else []
    | _ => []
    end.
Proof.
  destruct request as [kind|]; [|cbn; split_and!; [done|done|]; intros; by rewrite app_nil_r].
  assert (∀ s s' : ClusterSync, same_gossip s s' → (∀ k, push_jobs k s' = push_jobs k s) →
    sync_node_id s' = sync_node_id s ∧ seen_pushes s' = seen_pushes s ∧
    ∀ k, push_jobs k s' = push_jobs k s ++ []) as Hquiet.
  { intros s0 s1 [Ha Hb] Hc. split_and!; [done|done|]. intros k. by rewrite app_nil_r. }
  destruct kind as [seq t|ids| |refs|rs|[p|]|ns|[info|] o q]; unfold handle.
  - unfold serve_probe. destruct (on_probe _ _ _ _ _) as [sv acts]. cbn [fst]. apply Hquiet.
    + apply (spawn_dispatch_frame acts (set_service sv s)).
    + intros k. by rewrite push_jobs_dispatch.
  - by apply Hquiet.
  - unfold serve_merkle_root. destruct (merkle_root blake3 (service s)) as [sv h]. by apply Hquiet.
  - unfold serve_merkle_nodes. destruct (merkle_nodes blake3 _ _) as [sv h]. by apply Hquiet.
  - unfold serve_push_registers. destruct (sync_nodes _ _ _ _) as [sv [sn acts]]. cbn [fst]. apply Hquiet.
    + apply (spawn_dispatch_frame acts (set_service sv s)).
    + intros k. by rewrite push_jobs_dispatch.
  - unfold serve_state_message. destruct (dedup_insert _ _) as [st b]. destruct b; cbn [negb fst]; [|by apply Hquiet].
    destruct (on_probe _ _ _ _ _) as [sv acts]. cbn [fst]. apply Hquiet.
    + apply (spawn_dispatch_frame acts (set_service sv (set_states st s))).
    + intros k. by rewrite push_jobs_dispatch.
  - by apply Hquiet.
  - unfold serve_sync_nodes. destruct (sync_nodes _ _ _ _) as [sv [sn acts]]. cbn [fst].
    destruct (seed_member_frame (set_service sv s)) as [[Ha Hb] Hc].
    destruct (spawn_dispatch_frame acts (seed_member_nodes (set_service sv s))) as [Hd He]. apply Hquiet.
    + split; [by rewrite Hd, Ha|by rewrite He, Hb].
    + intros k. rewrite push_jobs_dispatch. by apply push_jobs_tasks.
  - unfold serve_push_node. cbn [peer_push]. destruct (dedup_insert (o, q) (seen_pushes s)) as [pushes b] eqn:Hi.
    destruct b; cbn [negb fst snd].
    + destruct (seed_address_frame (default "" (local_address (set_pushes pushes s))) (ni_address info)
        (set_pushes pushes s)) as [[Ha Hb] Hc].
      destruct (register _ _ _ _) as [sv acts]. cbn [fst]. split_and!; [done|done|]. intros k.
      rewrite push_jobs_spawn, filter_app, dispatched_no_push. cbn [app].
      rewrite (push_jobs_tasks k s) by done. f_equal.
      case_bool_decide as Hk.
      * subst k. rewrite Hi. cbn [andb snd]. rewrite filter_cons_True; [done|]. by apply bool_decide_eq_true_2.
      * rewrite filter_cons_False; [done|]. cbn. by rewrite bool_decide_eq_false_2.
    + split_and!; [done|done|]. intros k. rewrite (push_jobs_tasks k s) by done.
      case_bool_decide as Hk; [subst k; rewrite Hi|]; by rewrite app_nil_r.
  - by apply Hquiet.
Qed.

(** *** What a step does to the pushes of a key *)

Lemma run_task_spec targets i s s' out :
  run_task targets i s = (s', out) →
  (s' = s ∧ out = [] ∧ offered_push (ERun i) s = None) ∨
  ∃ job rest, tasks s !! i = Some (job :: rest) ∧
    run_job targets job (set_tasks (<[i := rest]> (tasks s)) s) = (s', out) ∧
    ∀ k, push_jobs k s ≡ₚ (if is_push_job k job then [job] else []) ++ push_jobs k s'.
Proof.
  unfold run_task, offered_push. destruct (tasks s !! i) as [[|job rest]|] eqn:Ht.
  1, 3: intros [= <- <-]; by left.
  intros Hr. right. exists job, rest. split; [done|]. split; [done|]. intros k.
  destruct (run_job_frame _ _ _ _ _ Hr) as (Htasks & _). unfold push_jobs, jobs. rewrite Htasks.
  cbn [tasks set_tasks]. rewrite (concat_insert _ _ _ _ Ht).
  destruct (is_push_job k job) eqn:Hj.
  - by rewrite filter_cons_True.
  - rewrite filter_cons_False; [done|congruence].
Qed.

Lemma node_step_seen targets e s s' out :
  node_step targets e s = (s', out) →
  sync_node_id s' = sync_node_id s ∧
  seen_pushes s' = match offered_push e s with
                   | Some k => (dedup_insert k (seen_pushes s)).1 | None => seen_pushes s end.
Proof.
  destruct e as [now disk request|i|now disk|now disk t q a|info|now disk infos]; cbn [node_step].
  - intros [= <- <-]. destruct (handle_frame now disk request s) as (Hid & Hseen & _). split; [done|].
    rewrite Hseen. by destruct request as [[| | | | | | |[] ]|].
  - intros Hr. destruct (run_task_spec _ _ _ _ _ Hr) as [(-> & _ & ->)|(job & rest & Ht & Hj & _)]; [done|].
    destruct (run_job_frame _ _ _ _ _ Hj) as (_ & Hid & Hseen & _). split; [done|]. rewrite Hseen.
    unfold offered_push. rewrite Ht. by destruct job as [[]|].
  - unfold swim_tick. destruct (tick _ _ _) as [sv acts]. by intros [= <- <-].
  - intros [= <- <-]. unfold probe_answered. by destruct a as [k|]; [destruct (probe_result k) as [[[] ?]|]|].
  - unfold push_change, allocate_push, Gossip.next. cbn -[dedup_insert]. by intros [= <- <-].
  - intros [= <- <-]. unfold serve_push_registers. destruct (sync_nodes _ _ _ _) as [sv [sn acts]].
    by destruct (spawn_dispatch_frame acts (set_service sv s)) as [Ha Hb].
Qed.

Lemma step_logged targets e s s' out log :
  node_step targets e s = (s', out) → dedup_ok log (seen_pushes s) →
  dedup_ok (log_step e s log) (seen_pushes s').
Proof.
  intros Hs Hok. destruct (node_step_seen _ _ _ _ _ Hs) as [_ ->]. unfold log_step.
  destruct (offered_push e s) as [k|]; [|done].
  destruct (dedup_insert k (seen_pushes s)) as [d b] eqn:Hi.
  by destruct (dedup_insert_ok _ _ _ _ _ Hok Hi) as (_ & _ & Hd).
Qed.

(** A push waiting to be forwarded stays so until it is sent to every target. *)
Lemma step_pending targets e s s' out k :
  node_step targets e s = (s', out) → push_jobs k s ≠ [] → push_jobs k s' ≠ [] ∨ sent_all k targets out.
Proof.
  destruct e as [now disk request|i|now disk|now disk t q a|info|now disk infos]; cbn [node_step]; intros Hr Hp.
  - injection Hr as <- <-. destruct (handle_frame now disk request s) as (_ & _ & ->). left.
    by destruct (push_jobs k s).
  - destruct (run_task_spec _ _ _ _ _ Hr) as [(-> & _ & _)|(job & rest & Ht & Hj & Hjobs)]; [by left|].
    destruct (run_job_frame _ _ _ _ _ Hj) as (_ & _ & _ & Hout). specialize (Hjobs k).
    destruct (is_push_job k job) eqn:Hk.
    + right. destruct job as [|info o q]; [done|]. apply bool_decide_eq_true in Hk as <-. rewrite Hout.
      apply broadcast_sent.
    + left. intros He. rewrite He in Hjobs. symmetry in Hjobs. by apply Permutation_nil in Hjobs.
  - left. unfold swim_tick in Hr. destruct (tick _ _ _) as [sv acts]. injection Hr as <- <-.
    rewrite push_jobs_spawn, dispatched_no_push, app_nil_r. done.
  - left. injection Hr as <- <-. unfold probe_answered.
    by destruct a as [x|]; [destruct (probe_result x) as [[[] ?]|]|].
  - left. unfold push_change, allocate_push, Gossip.next in Hr. cbn -[dedup_insert] in Hr. by injection Hr as <- <-.
  - left. injection Hr as <- <-. unfold serve_push_registers. destruct (sync_nodes _ _ _ _) as [sv [sn acts]].
    by rewrite push_jobs_dispatch.
Qed.

(** A push that is new to the node is forwarded, or is waiting to be. *)
Lemma step_accepts targets e s s' out k :
  node_step targets e s = (s', out) → accepted k e s = true → push_jobs k s' ≠ [] ∨ sent_all k targets out.
Proof.
  intros Hr [Ho Hn]%andb_true_iff. apply bool_decide_eq_true in Ho.
  destruct e as [now disk request|i|now disk|now disk t q a|info|now disk infos]; cbn [node_step] in Hr; try done.
  - injection Hr as <- <-. destruct (handle_frame now disk request s) as (_ & _ & ->). left.
    destruct request as [[| | | | | | |[info|] o q]|]; try done. cbn in Ho. injection Ho as <-.
    rewrite bool_decide_eq_true_2, Hn by done. cbn [andb]. by intros [_ ?]%app_eq_nil.
  - right. destruct (run_task_spec _ _ _ _ _ Hr) as [(-> & _ & He)|(job & rest & Ht & Hj & _)]; [congruence|].
    destruct (run_job_frame _ _ _ _ _ Hj) as (_ & _ & _ & ->). unfold offered_push in Ho. rewrite Ht in Ho.
    destruct job as [[]|]; try done. injection Ho as <-. apply broadcast_sent.
  - right. unfold push_change, allocate_push, Gossip.next in Hr. cbn -[dedup_insert] in Hr.
    injection Ho as <-. injection Hr as <- <-. apply broadcast_sent.
Qed.

(** Forwarding is paid for: what a node sends of another node's push, and has
    yet to send, is once per target for each time it was new. *)
Lemma step_count targets e s s' out k :
  node_step targets e s = (s', out) → k.1 ≠ sync_node_id s →
  (length (filter (λ m, is_push k m = true) out) + length targets * length (push_jobs k s') =
   length targets * (length (push_jobs k s) + (if accepted k e s then 1 else 0)))%nat.
Proof.
  intros Hr Hk.
  assert (∀ q info, length (filter (λ m, is_push k m = true) (broadcast_push targets info (sync_node_id s) q)) = 0%nat)
    as Hown by (intros q info; rewrite broadcast_count, decide_False by (by intros <-); done).
  assert (∀ q, bool_decide (Some (sync_node_id s, q) = Some k) = false) as Hnot.
  { intros q. apply bool_decide_eq_false_2. intros [= <-]. done. }
  destruct e as [now disk request|i|now disk|now disk t q a|info|now disk infos]; cbn [node_step] in Hr; unfold accepted.
  - injection Hr as <- <-. destruct (handle_frame now disk request s) as (_ & _ & ->). rewrite length_app. cbn [filter].
    rewrite filter_nil. destruct request as [[| | | | | | |[info|] o q]|]; cbn [offered_push length];
      try (rewrite bool_decide_eq_false_2 by done; cbn [andb]; lia).
    rewrite (bool_decide_ext (Some (o, q) = Some k) ((o, q) = k)) by (split; congruence).
    case_bool_decide as Hd; [subst k|cbn; lia]. destruct (dedup_insert (o, q) (seen_pushes s)) as [d []]; cbn; lia.
  - destruct (run_task_spec _ _ _ _ _ Hr) as [(-> & -> & ->)|(job & rest & Ht & Hj & Hjobs)].
    { rewrite bool_decide_eq_false_2, filter_nil by done. cbn [andb length]. lia. }
    destruct (run_job_frame _ _ _ _ _ Hj) as (_ & _ & _ & ->). rewrite (Hjobs k), length_app. cbn [sync_node_id set_tasks push_sequence].
    assert (bool_decide (offered_push (ERun i) s = Some k) = false) as ->.
    { unfold offered_push. rewrite Ht. destruct job as [[]|]; try (by apply bool_decide_eq_false_2). apply Hnot. }
    cbn [andb]. destruct job as [[target q|r|id inc|id inc]|info o q]; cbn [is_push_job length].
    + destruct (connect target); rewrite ?filter_cons_False, filter_nil by done; cbn [length app]; lia.
    + rewrite Hown. lia.
    + rewrite state_count. cbn [length]. lia.
    + rewrite state_count. cbn [length]. lia.
    + rewrite broadcast_count. case_bool_decide as Hd; [rewrite decide_True by done|rewrite decide_False by done]; cbn [length app]; lia.
  - unfold swim_tick in Hr. destruct (tick _ _ _) as [sv acts]. injection Hr as <- <-.
    rewrite push_jobs_spawn, dispatched_no_push, app_nil_r, bool_decide_eq_false_2, filter_nil by done.
    rewrite (push_jobs_tasks k s) by done. cbn [andb length]. lia.
  - injection Hr as <- <-. assert (push_jobs k (probe_answered now disk t q a s) = push_jobs k s) as ->.
    { unfold probe_answered. by destruct a as [x|]; [destruct (probe_result x) as [[[] ?]|]|]. }
    rewrite bool_decide_eq_false_2, filter_nil by done. cbn [andb length]. lia.
  - unfold push_change, allocate_push, Gossip.next in Hr. cbn -[dedup_insert broadcast_push] in Hr. injection Hr as <- <-.
    cbn [offered_push]. rewrite Hnot, Hown. cbn [andb]. rewrite (push_jobs_tasks k s) by done. lia.
  - injection Hr as <- <-. unfold serve_push_registers. destruct (sync_nodes _ _ _ _) as [sv [sn acts]].
    rewrite push_jobs_dispatch, bool_decide_eq_false_2, filter_nil by done.
    rewrite (push_jobs_tasks k s) by done. cbn [andb length]. lia.
Qed.

(** *** Runs of one node *)

Fixpoint node_run (targets : list string) (es : list Event) s (log : list PushKey)
    : ClusterSync * list Outgoing * list PushKey :=
  match es with
  | [] => (s, [], log)
  | e :: es =>
      let log' := log_step e s log in
      let '(s', out) := node_step targets e s in
      let '(s'', out', log'') := node_run targets es s' log' in
      (s'', out ++ out', log'')
  end.

Definition occurrences (k : PushKey) (log : list PushKey) : nat := length (filter (λ k', k' = k) log).

Lemma log_step_occurrences e s log k :
  occurrences k (log_step e s log) = (occurrences k log + (if accepted k e s then 1 else 0))%nat.
Proof.
  unfold log_step, accepted. destruct (offered_push e s) as [k'|].
  - destruct (decide (k' = k)) as [->|Hne].
    + rewrite bool_decide_eq_true_2 by done. cbn [andb]. destruct (dedup_insert _ _).2; [|lia].
      unfold occurrences. rewrite filter_app, length_app, filter_cons_True by done. done.
    + rewrite bool_decide_eq_false_2 by congruence. cbn [andb].
      destruct (dedup_insert _ _).2; [|lia]. unfold occurrences.
      rewrite filter_app, length_app, filter_cons_False by done. done.
  - rewrite bool_decide_eq_false_2 by done. cbn [andb]. lia.
Qed.

Lemma node_run_count targets es s s' out log log' k :
  node_run targets es s log = (s', out, log') → k.1 ≠ sync_node_id s →
  (length (filter (λ m, is_push k m = true) out) + length targets * length (push_jobs k s')
     + length targets * occurrences k log =
   length targets * length (push_jobs k s) + length targets * occurrences k log')%nat.
Proof.
  revert s out log. induction es as [|e es IH]; intros s out log; cbn [node_run].
  { intros [= <- <- <-] _. rewrite filter_nil. cbn [length]. lia. }
  destruct (node_step targets e s) as [s1 o1] eqn:Hs.
  destruct (node_run targets es s1 (log_step e s log)) as [[s2 o2] l2] eqn:Hr. intros [= <- <- <-] Hk.
  pose proof (step_count _ _ _ _ _ k Hs Hk) as Hc. destruct (node_step_seen _ _ _ _ _ Hs) as [Hid _].
  rewrite <- Hid in Hk. pose proof (IH _ _ _ Hr Hk) as Hc2. rewrite log_step_occurrences in Hc2.
  rewrite filter_app, length_app. destruct (accepted k e s); nia.
Qed.

Lemma node_run_logged targets es s s' out log log' :
  node_run targets es s log = (s', out, log') → dedup_ok log (seen_pushes s) →
  dedup_ok log' (seen_pushes s') ∧ dedup_capacity (seen_pushes s') = dedup_capacity (seen_pushes s).
Proof.
  revert s out log. induction es as [|e es IH]; intros s out log; cbn [node_run].
  { by intros [= <- <- <-]. }
  destruct (node_step targets e s) as [s1 o1] eqn:Hs.
  destruct (node_run targets es s1 (log_step e s log)) as [[s2 o2] l2] eqn:Hr. intros [= <- <- <-] Hok.
  destruct (IH _ _ _ Hr (step_logged _ _ _ _ _ _ Hs Hok)) as [Hok2 Hc]. split; [done|]. rewrite Hc.
  destruct (node_step_seen _ _ _ _ _ Hs) as [_ ->]. destruct (offered_push e s) as [k|]; [|done].
  destruct (dedup_insert k (seen_pushes s)) as [d b] eqn:Hi.
  by destruct (dedup_insert_ok _ _ _ _ _ Hok Hi) as (_ & ? & _).
Qed.

(** *** Networks *)

Record Net : Type := mkNet {
  nodes : gmap string ClusterSync;
  logs : gmap string (list PushKey);
  wire : list Outgoing;
}.

Definition log_of (n : Net) (id : string) : list PushKey := default [] (logs n !! id).

(** A node does something, a request on the wire is handled by the node it is
    for, or it is for no node. *)
Inductive net_step (targets : string → list string) : Net → Net → Prop :=
| net_event n id e s s' out :
    nodes n !! id = Some s → node_step (targets id) e s = (s', out) →
    net_step targets n
      (mkNet (<[id := s']> (nodes n)) (<[id := log_step e s (log_of n id)]> (logs n)) (wire n ++ out))
| net_deliver n l1 o l2 now disk s s' out :
    wire n = l1 ++ o :: l2 → nodes n !! out_peer o = Some s →
    node_step (targets (out_peer o)) (EHandle now disk (Some (out_request o))) s = (s', out) →
    net_step targets n
      (mkNet (<[out_peer o := s']> (nodes n))
         (<[out_peer o := log_step (EHandle now disk (Some (out_request o))) s (log_of n (out_peer o))]> (logs n))
         (l1 ++ l2))
| net_drop n l1 o l2 :
    wire n = l1 ++ o :: l2 → nodes n !! out_peer o = None →
    net_step targets n (mkNet (nodes n) (logs n) (l1 ++ l2)).

(** The deduplication sets hold what the logs say. *)
Definition logged (n : Net) : Prop :=
  ∀ id s, nodes n !! id = Some s → dedup_ok (log_of n id) (seen_pushes s).

Definition on_wire (k : PushKey) (t : string) (n : Net) : Prop :=
  ∃ info, mkOutgoing t (QPushNode (Some info) k.1 k.2) ∈ wire n.

(** Wherever [k] was accepted it is about to be forwarded, or every target of
    that node accepted it or has it on its way. *)
Definition spreading (targets : string → list string) (k : PushKey) (n : Net) : Prop :=
  ∀ id s, nodes n !! id = Some s → k ∈ log_of n id →
    push_jobs k s ≠ [] ∨
    ∀ t, t ∈ targets id → is_Some (nodes n !! t) → k ∈ log_of n t ∨ on_wire k t n.

(** Nothing is left to do for [k]. *)
Definition settled (k : PushKey) (n : Net) : Prop :=
  (∀ id s, nodes n !! id = Some s → push_jobs k s = []) ∧ ∀ o, o ∈ wire n → is_push k o = false.

Lemma log_step_incl e s log k : k ∈ log → k ∈ log_step e s log.
Proof.
  unfold log_step. intros Hk. destruct (offered_push e s); [|done].
  destruct (dedup_insert _ _).2; [|done]. apply elem_of_app. by left.
Qed.

Lemma log_step_offered e s log k :
  dedup_ok log (seen_pushes s) → offered_push e s = Some k → k ∈ log_step e s log.
Proof.
  intros Hok Ho. unfold log_step. rewrite Ho. destruct (dedup_insert k (seen_pushes s)) as [d b] eqn:Hi.
  destruct (dedup_insert_ok _ _ _ _ _ Hok Hi) as (-> & _ & _). cbn.
  case_bool_decide as Hw; [apply elem_of_app; right; by left|]. apply (window_subset (dedup_capacity (seen_pushes s))).
  by destruct (decide (k ∈ window (dedup_capacity (seen_pushes s)) log)).
Qed.

Lemma log_step_inv e s log k : k ∈ log_step e s log → k ∈ log ∨ accepted k e s = true.
Proof.
  unfold log_step, accepted. destruct (offered_push e s) as [k'|]; [|by left].
  destruct (dedup_insert k' (seen_pushes s)).2 eqn:Hi; [|by left].
  intros [?| ->%list_elem_of_singleton]%elem_of_app; [by left|right]. by rewrite bool_decide_eq_true_2, Hi.
Qed.

Lemma log_of_insert n id l m w t :
  log_of (mkNet m (<[id := l]> (logs n)) w) t = if decide (t = id) then l else log_of n t.
Proof.
  unfold log_of. cbn. case_decide as Hd; [subst; by rewrite lookup_insert_eq|by rewrite lookup_insert_ne].
Qed.

(** One node acts; [keep] says what may leave the wire. *)
Lemma spreading_act targets k n id e s s' out w :
  logged n → spreading targets k n → nodes n !! id = Some s →
  node_step (targets id) e s = (s', out) →
  (∀ t, on_wire k t n → k ∈ log_step e s (log_of n id) ∧ t = id ∨ ∃ info, mkOutgoing t (QPushNode (Some info) k.1 k.2) ∈ w) →
  (∀ o, o ∈ out → o ∈ w) →
  let n' := mkNet (<[id := s']> (nodes n)) (<[id := log_step e s (log_of n id)]> (logs n)) w in
  logged n' ∧ spreading targets k n'.
Proof.
  intros Hlog Hsp Hs Hstep Hwire Hout n'.
  assert (∀ t, k ∈ log_of n t → k ∈ log_of n' t) as Hincl.
  { intros t Ht. unfold n'. rewrite log_of_insert. case_decide as Hd; [subst; by apply log_step_incl|done]. }
  assert (∀ t, is_Some (nodes n' !! t) → is_Some (nodes n !! t)) as Hdom.
  { intros t. unfold n'. cbn. destruct (decide (t = id)) as [->|Hne]; [by rewrite Hs|by rewrite lookup_insert_ne]. }
  assert (∀ t, k ∈ log_of n t ∨ on_wire k t n → k ∈ log_of n' t ∨ on_wire k t n') as Hgo.
  { intros t [Ht|Ht]; [left; by apply Hincl|]. destruct (Hwire t Ht) as [[Hk ->]|Hw]; [left|by right].
    unfold n'. by rewrite log_of_insert, decide_True. }
  split.
  - intros t x. unfold n'. rewrite log_of_insert. cbn. case_decide as Hd.
    + subst t. rewrite lookup_insert_eq. intros [= <-]. eapply step_logged; [done|by apply Hlog].
    + rewrite lookup_insert_ne by done. apply Hlog.
  - intros t x Hx Hk.
    assert (t ≠ id → push_jobs k x ≠ [] ∨ ∀ u, u ∈ targets t → is_Some (nodes n' !! u) → k ∈ log_of n' u ∨ on_wire k u n') as Hother.
    { intros Hne. unfold n' in Hx, Hk. cbn in Hx. rewrite lookup_insert_ne in Hx by done.
      rewrite log_of_insert, decide_False in Hk by done.
      destruct (Hsp t x Hx Hk) as [Hp|Hall]; [by left|right]. intros u Hu Hn. by apply Hgo, Hall; [|apply Hdom]. }
    destruct (decide (t = id)) as [->|Hne]; [clear Hother|by apply Hother].
    unfold n' in Hx, Hk. cbn in Hx. rewrite lookup_insert_eq in Hx. injection Hx as <-.
    rewrite log_of_insert, decide_True in Hk by done.
    assert (push_jobs k s' ≠ [] ∨ sent_all k (targets id) out ∨
      ∀ u, u ∈ targets id → is_Some (nodes n !! u) → k ∈ log_of n u ∨ on_wire k u n) as [Hp|[Hp|Hp]].
    { destruct (log_step_inv _ _ _ _ Hk) as [Hold|Hacc].
      - destruct (Hsp id s Hs Hold) as [Hp|Hall]; [|by right; right].
        destruct (step_pending _ _ _ _ _ k Hstep Hp); tauto.
      - destruct (step_accepts _ _ _ _ _ k Hstep Hacc); tauto. }
    + by left.
    + right. intros u Hu _. right. destruct (Hp u Hu) as [info Hin]. exists info. by apply Hout.
    + right. intros u Hu Hn. by apply Hgo, Hp; [|apply Hdom].
Qed.

Lemma net_step_spreading targets k n n' :
  net_step targets n n' → logged n → spreading targets k n → logged n' ∧ spreading targets k n'.
Proof.
  intros Hstep Hlog Hsp. destruct Hstep as [n id e s s' out Hs Hstep|n l1 o l2 now disk s s' out Hw Hs Hstep|n l1 o l2 Hw Hs].
  - eapply spreading_act; [done..| |].
    + intros t [info Hin]. right. exists info. apply elem_of_app. by left.
    + intros o Ho. apply elem_of_app. by right.
  - eapply spreading_act; [done..| |].
    + intros t [info Hin]. rewrite Hw in Hin. rewrite elem_of_app, elem_of_cons in Hin.
      destruct Hin as [Hin|[<-|Hin]].
      * right. exists info. apply elem_of_app. by left.
      * left. split; [|done]. apply log_step_offered; [by apply Hlog|]. cbn. by destruct k.
      * right. exists info. apply elem_of_app. by right.
    + cbn [node_step] in Hstep. injection Hstep as _ <-. by intros x ?%elem_of_nil.
  - split; [done|]. intros id s Hid Hk. destruct (Hsp id s Hid Hk) as [Hp|Hall]; [by left|right].
    intros t Ht Hn. destruct (Hall t Ht Hn) as [?|[info Hin]]; [by left|right]. exists info.
    rewrite Hw, elem_of_app, elem_of_cons in Hin. apply elem_of_app.
    destruct Hin as [Hin|[<-|Hin]]; [by left| |by right]. cbn in *. by rewrite Hs in Hn; destruct Hn.
Qed.

Lemma net_step_nodes targets n n' t : net_step targets n n' → is_Some (nodes n' !! t) ↔ is_Some (nodes n !! t).
Proof.
  assert (∀ (m : gmap string ClusterSync) i s s', m !! i = Some s → is_Some (<[i := s']> m !! t) ↔ is_Some (m !! t)) as Hins.
  { intros m i s s' Hs. destruct (decide (i = t)) as [->|Hne]; [|by rewrite lookup_insert_ne].
    rewrite lookup_insert_eq, Hs. split; eauto. }
  intros [n0 id e s s' out Hs _|n0 l1 o l2 now disk s s' out _ Hs _|n0 l1 o l2 _ _]; cbn; [by eapply Hins..|done].
Qed.
End events.


(** A push does not go round for ever. Whatever a node is sent, what it
    forwards of another node's push is at most one request per target for each
    time the push was new to it; and it is new again only after the node has
    accepted at least [MAX_SEEN_PUSHES] other pushes. *)
Theorem push_forwards_bounded `{!HashIter, !MerkleShape} blake3 `{!Redb, !Postcard string, !Postcard PeerRecord} `{!Hex}
    targets es id svc db s' out log (k : PushKey) :
  node_run blake3 targets es (new id svc db) [] = (s', out, log) → k.1 ≠ id →
  (length (filter (λ m, is_push k m = true) out) ≤ length targets * occurrences k log)%nat ∧
  spaced MAX_SEEN_PUSHES log.
Proof.
  intros Hr Hk. assert (sync_node_id (new id svc db) = id ∧ seen_pushes (new id svc db) = dedup_new MAX_SEEN_PUSHES ∧
    tasks (new id svc db) = []) as (Hid & Hseen & Htasks) by (unfold new; by destruct (load db)).
  split.
  - pose proof (node_run_count _ _ _ _ _ _ _ _ k Hr) as Hc. rewrite Hid in Hc. specialize (Hc Hk).
    assert (push_jobs k (new id svc db) = []) as Hj by (unfold push_jobs, jobs; by rewrite Htasks).
    rewrite Hj in Hc. unfold occurrences at 1 in Hc. rewrite filter_nil in Hc. cbn [length] in Hc. lia.
  - destruct (node_run_logged _ _ _ _ _ _ _ _ Hr) as [(_ & _ & Hs) Hc]; [rewrite Hseen; apply dedup_new_ok|].
    rewrite Hc, Hseen in Hs. exact Hs.
Qed.

(** ** Instances *)

Section instances.
#[local] Existing Instance gmap_hash_iter.
#[local] Existing Instance small_shape.
#[local] Existing Instance toy_redb.
#[local] Existing Instance toy_string.
#[local] Instance toy_peer : Postcard PeerRecord := toy_postcard PeerRecord.
#[local] Instance toy_hex : Hex := {| hex_encode := λ b, b; hex_decode := λ s, Ok s |}.

Definition toy_sync (id : string) : ClusterSync :=
  Cluster.new id (Service.new toy_blake3 id default_config (Register.new id "addr" 1 0)) blank_db.

Definition toy_net : Net :=
  mkNet {["a" := toy_sync "a"; "b" := toy_sync "b"; "c" := toy_sync "c"]} ∅ [].

(** A line: [a] tells [b], [b] tells [a] and [c]. *)
Definition toy_targets (id : string) : list string :=
  if decide (id = "a") then ["b"] else if decide (id = "b") then ["a"; "c"] else [].

Definition toy_info : NodeInfo := mkNodeInfo "a" "addr" ∅ ∅ 0 1 1 0.

Definition act (id : string) (e : Event) (n : Net) : Net :=
  match nodes n !! id with
  | Some s =>
      let '(s', out) := node_step toy_blake3 (toy_targets id) e s in
      mkNet (<[id := s']> (nodes n)) (<[id := log_step e s (log_of n id)]> (logs n)) (wire n ++ out)
  | None => n
  end.

(** The first request on the wire is handled. *)
Definition deliver (n : Net) : Net :=
  match wire n with
  | o :: rest =>
      match nodes n !! out_peer o with
      | Some s =>
          let e := EHandle 7 true (Some (out_request o)) in
          mkNet (<[out_peer o := (node_step toy_blake3 (toy_targets (out_peer o)) e s).1]> (nodes n))
            (<[out_peer o := log_step e s (log_of n (out_peer o))]> (logs n)) rest
      | None => n
      end
  | [] => n
  end.

Lemma act_steps id e n : rtc (net_step toy_blake3 toy_targets) n (act id e n).
Proof.
  unfold act. destruct (nodes n !! id) as [s|] eqn:Hs; [|done].
  destruct (node_step _ _ e s) as [s' out] eqn:Hstep. apply rtc_once. by eapply net_event.
Qed.

Lemma deliver_steps n : rtc (net_step toy_blake3 toy_targets) n (deliver n).
Proof.
  unfold deliver. destruct (wire n) as [|o rest] eqn:Hw; [done|].
  destruct (nodes n !! out_peer o) as [s|] eqn:Hs; [|done]. apply rtc_once.
  destruct (node_step toy_blake3 (toy_targets (out_peer o)) (EHandle 7 true (Some (out_request o))) s)
    as [s' out] eqn:Hstep.
  by apply (net_deliver _ _ n [] o rest 7 true s s' out).
Qed.

(** [a] announces itself, [b] forwards, [c] and [a] receive; [c] has no one to tell. *)
Definition toy_run (n : Net) : Net :=
  act "c" (ERun 0) (deliver (deliver (act "b" (ERun 0) (deliver (act "a" (EPushChange toy_info) n))))).

Lemma toy_run_steps n : rtc (net_step toy_blake3 toy_targets) n (toy_run n).
Proof.
  unfold toy_run. do 5 (etrans; [|first [apply act_steps|apply deliver_steps]]). apply act_steps.
Qed.


(** [b] hears of [a] twice and forwards it once. *)
Lemma push_forwards_bounded_witness :
  let push := EHandle 7 true (Some (QPushNode (Some toy_info) "a" 1)) in
  let out := (node_run toy_blake3 ["x"; "y"] [push; push; ERun 0] (toy_sync "b") []).1.2 in
  (length (filter (λ m, is_push ("a", 1%Z) m = true) out) ≤ 2)%nat.
Proof.
  intros push out.
  destruct (node_run toy_blake3 ["x"; "y"] [push; push; ERun 0] (toy_sync "b") []) as [[s' out'] log] eqn:Hr.
  destruct (push_forwards_bounded toy_blake3 ["x"; "y"] [push; push; ERun 0] "b"
    (Service.new toy_blake3 "b" default_config (Register.new "b" "addr" 1 0)) blank_db s' out' log ("a", 1) Hr) as [Hle _].
  { done. }
  assert (log = [("a", 1)]) as -> by (apply (f_equal snd) in Hr; vm_compute in Hr; congruence).
  exact Hle.
Defined.
End instances.
