(* ===== verification/Healing.v ===== *)
(** * A round of anti-entropy heals ([crates/daemon/src/sync/antientropy.rs])

    One whole round of [AntiEntropy] between two nodes that run this code,
    through the requests that carry it: the times of update that the wire drops,
    the rumors about itself that a node refutes instead of merging, the cached
    trees. *)

From S2P Require Import Prelude.
From S2P Require Import Effects.
From S2P Require Import Tables.
From S2P Require Import NodeStores.
From S2P Require Import Register.
From S2P Require Import Membership.
From S2P Require Import Merkle.
From S2P Require Import MerkleDiff.
From S2P Require Import Swim.
From S2P Require Import Service.
From S2P Require Import Identity.
From S2P Require Import Gossip.
From S2P Require Import Mapper.
From S2P Require Import NodeProtocol.
From S2P Require Import Cluster.
From S2P Require Import AntiEntropy.

#[local] Open Scope Z_scope.

(** ** Times of update do not count *)

Definition blank (r : MemberRegister) : MemberRegister := set_updated_at_ms 0 r.
Definition stamp (now : Z) (r : MemberRegister) : MemberRegister := set_updated_at_ms now r.

Lemma hash_blank `{!HashIter} blake3 r : hash_register blake3 (blank r) = hash_register blake3 r.
Proof. done. Qed.

Lemma merge_blank a b : blank (Register.merge a b) = blank (Register.merge (blank a) (blank b)).
Proof.
  unfold Register.merge. change (dominates (blank b) (blank a)) with (dominates b a).
  change (dominates (blank a) (blank b)) with (dominates a b).
  destruct (dominates b a); [done|]. by destruct (dominates a b).
Qed.

Lemma hash_merge_stamped `{!HashIter} blake3 a b t t' :
  node_id a = node_id b →
  hash_register blake3 (Register.merge a (stamp t b)) = hash_register blake3 (Register.merge b (stamp t' a)).
Proof.
  intros Hid. rewrite <- (hash_blank blake3 (Register.merge a _)), <- (hash_blank blake3 (Register.merge b _)).
  rewrite merge_blank, (merge_blank b). change (blank (stamp t b)) with (blank b).
  change (blank (stamp t' a)) with (blank a). by rewrite merge_comm.
Qed.

(** ** Merging what a peer sent *)

Section merging.
Context `{!HashIter}.

Lemma refute_other m id now id' : id' ≠ id → get (Membership.refute m id now).1 id' = get m id'.
Proof.
  intros Hne. unfold Membership.refute, get. destruct (members m !! id); [|done]. cbn. by rewrite lookup_insert_ne.
Qed.

Lemma alive_other s r from now id :
  id ≠ local_node_id s →
  get (membership (on_message s from (Alive r) now).1) id = get (merge_register (membership s) r) id ∧
  local_node_id (on_message s from (Alive r) now).1 = local_node_id s.
Proof.
  intros Hne. cbn. unfold handle_alive_state. case_decide as Hr; [|done].
  assert (get (merge_register (membership s) r) id = get (membership s) id) as ->.
  { rewrite merge_register_lookup, decide_False by congruence. by destruct (get (membership s) id). }
  unfold refute_if_dominated. case_decide; [done|]. destruct (get _ (local_node_id s)) as [l|]; [|done].
  destruct (_ || _); [done|]. unfold refute_and_broadcast.
  assert (∀ s0 : Swim, membership s0 = (Membership.refute (membership s) (local_node_id s) now).1 →
    local_node_id s0 = local_node_id s → get (membership s0) id = get (membership s) id ∧ local_node_id s0 = local_node_id s) as Hs0.
  { intros s0 -> ->. split; [by apply refute_other|done]. }
  destruct (get (membership (set_membership _ _)) _) as [x|]; cbn [fst]; by apply Hs0.
Qed.

Lemma sync_fold_other from now rs s acts id :
  id ≠ local_node_id s →
  let s' := (foldl (sync_register from now) (s, acts) rs).1 in
  get (membership s') id = get (foldl merge_register (membership s) (stamp now <$> rs)) id ∧
  local_node_id s' = local_node_id s.
Proof.
  revert s acts. induction rs as [|r rs IH]; intros s acts Hne; [done|]. rewrite fmap_cons. cbn [foldl].
  unfold sync_register at 2 4. destruct (alive_other s (stamp now r) from now id Hne) as [Hg Hl].
  change (set_updated_at_ms now r) with (stamp now r).
  destruct (on_message s from (Alive (stamp now r)) now) as [s1 more]. cbn [fst] in Hg, Hl.
  destruct (IH s1 (acts ++ more)) as [Hg' Hl']; [by rewrite Hl|]. split; [|by rewrite Hl', Hl].
  rewrite Hg', !foldl_merge_register_lookup. by rewrite Hg.
Qed.

Lemma sync_nodes_other self rs now disk id :
  id ≠ local_node_id (swim (svc_state self)) →
  get (membership_of (sync_nodes self rs now disk).1) id =
    get (foldl merge_register (membership_of self) (stamp now <$> rs)) id.
Proof.
  intros Hne. unfold sync_nodes.
  destruct (sync_fold_other (svc_node_id self) now rs (swim (svc_state self)) [] id Hne) as [Hg _].
  destruct (foldl _ _ rs) as [s' acts]. cbn [fst] in Hg. unfold membership_of. rewrite <- Hg.
  cbn [fst svc_state set_state]. by rewrite (proj1 (persist_frame _ _ _)).
Qed.
End merging.

(** ** What the exchange names *)

Section naming.
Context `{!HashIter} `{!MerkleShape} (blake3 : string → Hash).
Abbreviation D := MERKLE_TREE_DEPTH.
Implicit Types m : Membership.

(** The registers a node holds, as another node stamps them. *)
Definition stamp_all (now : Z) (m : Membership) : Membership := mkMembership (stamp now <$> members m) (version m).

Lemma get_stamp_all now m id : get (stamp_all now m) id = stamp now <$> get m id.
Proof. unfold get, stamp_all. cbn. apply lookup_fmap. Qed.

Lemma keyed_stamp_all now m : keyed m → keyed (stamp_all now m).
Proof.
  intros Hk id r. cbn. rewrite lookup_fmap. intros (x & Hx & ->)%fmap_Some_1. exact (Hk id x Hx).
Qed.

Lemma omap_stamped now m (ids : list string) : omap (get (stamp_all now m)) ids = stamp now <$> omap (get m) ids.
Proof.
  induction ids as [|id ids IH]; [done|]. cbn [omap list_omap]. rewrite get_stamp_all.
  destruct (get m id) as [r|]; cbn; [f_equal|]; exact IH.
Qed.

(** What both sides hold once each merged what the exchange named. *)
Lemma stamped_exchange_heals ml mr tl tr id :
  comparable blake3 ml mr →
  let res := MerkleDiff.merkle_diff_with_peer blake3 (from_membership blake3 ml) (from_membership blake3 mr) in
  hash_register blake3 <$> get (foldl merge_register ml (stamp tl <$> omap (get mr) (dr_need_from_remote res))) id =
  hash_register blake3 <$> get (foldl merge_register mr (stamp tr <$> omap (get ml) (dr_need_from_local res))) id.
Proof.
  intros Hc res. pose proof (cmp_keyed_l _ _ _ Hc) as Hl. pose proof (cmp_keyed_r _ _ _ Hc) as Hr.
  assert (id ∈ dr_need_from_remote res ↔ _) as Hpull
    by (etrans; [by apply exchange_buckets|by apply bucket_diff_members]).
  assert (id ∈ dr_need_from_local res ↔ _) as Hpush
    by (etrans; [by apply exchange_buckets|by apply bucket_diff_members]).
  rewrite <- !omap_stamped.
  rewrite (merge_fetched_lookup ml (stamp_all tl mr)), (merge_fetched_lookup mr (stamp_all tr ml))
    by (by apply keyed_stamp_all || apply strictly_sorted_NoDup, exchange_sorted).
  fold res. rewrite !get_stamp_all.
  destruct (get ml id) as [r|] eqn:E1, (get mr id) as [s|] eqn:E2.
  - assert (node_id r = node_id s) as Hids by (by rewrite (Hl _ _ E1), (Hr _ _ E2)).
    destruct (decide (hash_register blake3 r = hash_register blake3 s)) as [Heq|Hne].
    + rewrite !decide_False; [cbn; by rewrite Heq|rewrite Hpush|rewrite Hpull];
        intros (? & ? & Hn); simplify_eq/=; congruence.
    + rewrite !decide_True; [cbn; f_equal; by apply hash_merge_stamped|apply Hpush|apply Hpull];
        eexists; split; [done| |done|]; simpl; congruence.
  - rewrite (decide_True (P := id ∈ dr_need_from_local res)); [by case_decide|]. apply Hpush. eauto.
  - rewrite (decide_True (P := id ∈ dr_need_from_remote res)); [by case_decide|]. apply Hpull. eauto.
  - by repeat case_decide.
Qed.

(** Equal roots mean equal members. *)
Lemma equal_roots_agree ml mr id :
  comparable blake3 ml mr →
  root_hash (from_membership blake3 ml) = root_hash (from_membership blake3 mr) →
  hash_register blake3 <$> get ml id = hash_register blake3 <$> get mr id.
Proof.
  intros Hc Hroot. rewrite !root_hash_spec in Hroot.
  pose proof (cmp_keyed_l _ _ _ Hc) as Hl. pose proof (cmp_keyed_r _ _ _ Hc) as Hr.
  assert (bucket_of blake3 ml (leaf_index blake3 id) = bucket_of blake3 mr (leaf_index blake3 id)) as Hb.
  { apply (comparable_subtree blake3 ml mr D 0); [done|lia| |apply Nat.div_small, leaf_index_bound|done].
    rewrite Nat.sub_diag. cbn. lia. }
  assert (∀ m1 m2 r, keyed m1 → keyed m2 → bucket_of blake3 m1 (leaf_index blake3 id) = bucket_of blake3 m2 (leaf_index blake3 id) →
    get m1 id = Some r → hash_register blake3 <$> get m2 id = Some (hash_register blake3 r)) as Hgo.
  { intros m1 m2 r K1 K2 He Hg. assert ((id, hash_register blake3 r) ∈ bucket_of blake3 m1 (leaf_index blake3 id)) as Hin
      by (apply elem_of_bucket; eauto).
    rewrite He in Hin. apply elem_of_bucket in Hin as (s & -> & -> & _); done. }
  destruct (get ml id) as [r|] eqn:E1.
  - symmetry. exact (Hgo ml mr r Hl Hr Hb E1).
  - destruct (get mr id) as [s|] eqn:E2; [|done]. pose proof (Hgo mr ml s Hr Hl (eq_sym Hb) E2) as Hx.
    by rewrite E1 in Hx.
Qed.

(** ** Answers survive the wire *)

Lemma answers_wf m refs :
  (∀ s, String.length (blake3 s) = 32%nat) → (D ≤ 255)%nat → keyed m →
  Forall wf_node (answer_refs (from_membership blake3 m) refs).
Proof.
  intros Hlen HD Hk. apply Forall_forall. intros n Hn. unfold answer_refs in Hn.
  apply list_elem_of_omap in Hn as (r & _ & Hr). unfold answer_ref in Hr. rewrite node_hash_spec in Hr.
  case_decide as Hd; [|done]. injection Hr as <-. split_and!; cbn; [lia|by apply subtree_length|].
  case_decide as HL; [|done]. split; [done|]. rewrite leaf_entries_spec. case_decide; cbn; [|done].
  apply Forall_forall. intros [i h] Hin. apply elem_of_bucket in Hin as (x & _ & -> & _); [|done]. apply Hlen.
Qed.

Lemma top_refs_depth : (D ≤ 255)%nat → Forall (λ r, (ref_depth r ≤ 255)%nat) top_refs.
Proof.
  intros HD. apply Forall_forall. intros [d i] Hin. apply elem_of_top_refs in Hin. cbn.
  pose proof split_depth_le. lia.
Qed.
End naming.

(** ** Two nodes *)

Section round.
Context `{!HashIter} `{!MerkleShape} (blake3 : string → Hash).
Context `{!Redb, !Postcard string, !Postcard PeerRecord} `{!Hex}.
Context (nowA nowB : Z) (diskA diskB : bool).
Abbreviation D := MERKLE_TREE_DEPTH.

Abbreviation World := (ClusterSync * ClusterSync)%type.

(** The node that drives the round is the first; the peer handles what it is sent. *)
Definition ask (_ : string) (kind : RequestKind) : M World ClientError NodeResponse := λ w,
  let '(b, r) := handle blake3 nowB diskB (Some kind) w.2 in ((w.1, b), Ok r).

Definition put_first (s : ClusterSync) (w : World) : World := (s, w.2).

Definition round (peer : string) : M World ClientError unit :=
  sync_with_peer blake3 fst put_first (λ _, nowA) (λ _, diskA) ask peer.

Definition members_of (s : ClusterSync) : Membership := membership_of (service s).
Definition swim_id (s : ClusterSync) : string := local_node_id (swim (svc_state (service s))).

(** Registers as they are when they count their incarnations from one. *)
Definition counted (m : Membership) : Prop := ∀ id r, get m id = Some r → 1 ≤ incarnation r.

(** The state of both nodes as long as nothing was merged. *)
Record unmerged (n : nat) (mA mB : Membership) (a b : string) (w : World) : Prop := {
  un_a : members_of w.1 = mA;
  un_b : members_of w.2 = mB;
  un_ia : swim_id w.1 = a;
  un_ib : swim_id w.2 = b;
  un_ca : cache_ok blake3 n (service w.1);
  un_cb : cache_ok blake3 n (service w.2);
}.

Lemma tree_effect n self : cache_ok blake3 n self → Z.of_nat n < 2 ^ 64 →
  let '(st, t) := merkle_tree blake3 (svc_state self) in
  t = from_membership blake3 (membership_of self) ∧ swim st = swim (svc_state self) ∧
  cache_ok blake3 n (set_state st self).
Proof.
  intros Hc Hn. destruct (merkle_tree_current blake3 n self Hc Hn) as [Ht Hc']. unfold merkle_tree_snapshot in Hc'.
  assert (swim (merkle_tree blake3 (svc_state self)).1 = swim (svc_state self)) as Hs.
  { unfold merkle_tree. cbv zeta. by case_decide. }
  destruct (merkle_tree blake3 (svc_state self)) as [st t]. done.
Qed.

Section unmerged.
Context (n : nat) (Hn : Z.of_nat n < 2 ^ 64) (mA mB : Membership) (a b : string) (peer : string).
Context (Hcmp : comparable blake3 mA mB) (HD : (D ≤ 255)%nat).
Context (HcA : counted mA) (HcB : counted mB).
Abbreviation un := (unmerged n mA mB a b).

Lemma own_tree w : un w →
  wp (own fst put_first (λ s, let '(svc, t) := merkle_tree_snapshot blake3 (service s) in (set_service svc s, t)))
    (λ t w', t = from_membership blake3 mA ∧ un w') (λ _ : ClientError, λ _, False) w.
Proof.
  intros [Ha Hb Hia Hib Hca Hcb]. unfold own, wp, merkle_tree_snapshot.
  pose proof (tree_effect n (service w.1) Hca Hn) as Ht. destruct (merkle_tree blake3 _) as [st t].
  destruct Ht as (-> & Hs & Hc). unfold members_of, swim_id in *. split; [by rewrite Ha|].
  split; cbn; try done; unfold members_of, swim_id, membership_of in *; cbn; by rewrite Hs.
Qed.

Lemma own_root w : un w →
  wp (own fst put_first (λ s, let '(svc, h) := merkle_root blake3 (service s) in (set_service svc s, h)))
    (λ h w', h = root_hash (from_membership blake3 mA) ∧ un w') (λ _ : ClientError, λ _, False) w.
Proof.
  intros [Ha Hb Hia Hib Hca Hcb]. unfold own, wp, merkle_root.
  pose proof (tree_effect n (service w.1) Hca Hn) as Ht. destruct (merkle_tree blake3 _) as [st t].
  destruct Ht as (-> & Hs & Hc). unfold members_of, swim_id in *. split; [by rewrite Ha|].
  split; cbn; try done; unfold members_of, swim_id, membership_of in *; cbn; by rewrite Hs.
Qed.

Lemma asked_root w : un w →
  wp (request ask merkle_root_result peer QMerkleRoot)
    (λ h w', h = root_hash (from_membership blake3 mB) ∧ un w') (λ _ _, False) w.
Proof.
  intros [Ha Hb Hia Hib Hca Hcb]. unfold request, wp, bind, ask, handle, serve_merkle_root, merkle_root.
  pose proof (tree_effect n (service w.2) Hcb Hn) as Ht. destruct (merkle_tree blake3 _) as [st t].
  destruct Ht as (-> & Hs & Hc). unfold members_of, swim_id in *. rewrite Hb in *.
  cbn -[from_membership root_hash membership_of]. split; [done|].
  split; cbn; try done; unfold members_of, swim_id, membership_of in *; cbn; by rewrite Hs.
Qed.

Lemma asked_nodes refs w : un w → Forall (λ r, (ref_depth r ≤ 255)%nat) refs →
  wp (request_merkle_nodes ask peer refs)
    (λ l w', l = answer_refs (from_membership blake3 mB) refs ∧ un w') (λ _ _, False) w.
Proof.
  intros [Ha Hb Hia Hib Hca Hcb] Hrefs. unfold request_merkle_nodes, request, wp, bind, ask, handle, serve_merkle_nodes, merkle_nodes.
  pose proof (tree_effect n (service w.2) Hcb Hn) as Ht. destruct (merkle_tree blake3 _) as [st t].
  destruct Ht as (-> & Hs & Hc). unfold members_of, swim_id in *. rewrite Hb, refs_round_trip in * by done.
  cbn -[from_membership answer_refs membership_of remote_nodes served_node]. split.
  - apply nodes_round_trip. by apply answers_wf; [eapply cmp_length| |eapply cmp_keyed_r].
  - split; cbn; try done; unfold members_of, swim_id, membership_of in *; cbn; by rewrite Hs.
Qed.

Lemma plan_refs_depth top :
  Forall (λ r, (ref_depth r ≤ 255)%nat) (plan_leaf_refs blake3 (MerkleDiff.new (from_membership blake3 mA)) top).2.
Proof.
  unfold plan_leaf_refs. generalize (seq 0 (2 ^ SPLIT_DEPTH)). intros l.
  assert (∀ acc h E, Forall (λ r, (ref_depth r ≤ 255)%nat) acc.2 →
    Forall (λ r, (ref_depth r ≤ 255)%nat) (foldl (plan_subtree h E) acc l).2) as Hall; [|by apply Hall].
  induction l as [|i l IH]; intros [md refs] h E Hacc; [done|]. cbn [foldl]. apply IH. unfold plan_subtree.
  repeat case_decide; [done..|]. cbn. apply Forall_app. split; [done|]. apply Forall_fmap. by apply Forall_true.
Qed.

Lemma driven_diff w : un w →
  wp (AntiEntropy.merkle_diff_with_peer blake3 fst put_first ask peer)
    (λ d w', d = MerkleDiff.merkle_diff_with_peer blake3 (from_membership blake3 mA) (from_membership blake3 mB) ∧ un w')
    (λ _ _, False) w.
Proof.
  intros Hw. unfold AntiEntropy.merkle_diff_with_peer, MerkleDiff.merkle_diff_with_peer. rewrite wp_bind.
  eapply wp_mono; [by apply own_tree|cbn; intros t w1 [-> Hw1]|done]. rewrite wp_bind.
  eapply wp_mono; [apply asked_nodes; [done|by apply top_refs_depth]|cbn; intros top w2 [-> Hw2]|done].
  pose proof (plan_refs_depth (answer_refs (from_membership blake3 mB) top_refs)) as Hd.
  destruct (plan_leaf_refs _ _ _) as [diff refs]. cbn in Hd. rewrite wp_bind. case_decide; [by wp_steps|].
  eapply wp_mono; [by apply asked_nodes|cbn; intros l w3 [-> Hw3]|done]. by wp_steps.
Qed.

Lemma wire_registers m now (ids : list string) : counted m →
  stamp now <$> (proto_to_register <$> (register_to_proto <$> omap (get m) ids)) = stamp now <$> omap (get m) ids.
Proof.
  intros Hc. induction ids as [|id ids IH]; [done|]. cbn [omap list_omap].
  destruct (get m id) as [r|] eqn:Hr; [|exact IH]. rewrite !fmap_cons, register_round_trip by (by eapply Hc).
  by f_equal.
Qed.

(** *** The registers travel *)

Lemma pushed_effect infos s id : id ≠ swim_id s →
  get (members_of (serve_push_registers nowB diskB infos s)) id =
    get (foldl merge_register (members_of s) (stamp nowB <$> (proto_to_register <$> infos))) id.
Proof.
  intros Hne. pose proof (sync_nodes_other (service s) (proto_to_register <$> infos) nowB diskB id Hne) as Hg.
  unfold serve_push_registers. destruct (sync_nodes _ _ _ _) as [sv [sn acts]]. cbn [fst] in Hg.
  unfold members_of in *. rewrite <- Hg. unfold spawn_dispatch. by case_decide.
Qed.

Lemma merged_effect infos w (Q : () → World → Prop) (F : ClientError → World → Prop) :
  (∀ s, (∀ id, id ≠ swim_id w.1 → get (members_of s) id =
      get (foldl merge_register (members_of w.1) (stamp nowA <$> (proto_to_register <$> infos))) id) → Q tt (s, w.2)) →
  wp (merge_infos fst put_first (λ _, nowA) (λ _, diskA) infos) Q F w.
Proof.
  intros HQ. unfold merge_infos, wp.
  pose proof (λ id, sync_nodes_other (service w.1) (proto_to_register <$> infos) nowA diskA id) as Hg.
  destruct (sync_nodes _ _ _ _) as [sv [sn acts]]. apply HQ. intros id Hne. cbn [fst] in Hg.
  specialize (Hg id Hne). unfold members_of in *. rewrite <- Hg. unfold spawn_dispatch. by case_decide.
Qed.

Lemma seeded_effect s : members_of (seed_member_nodes s) = members_of s.
Proof.
  unfold seed_member_nodes. generalize (default "" (local_address s)) as la.
  generalize (list_nodes (service s) ∅) as l. intros l la.
  assert (∀ s0, service s0 = service s →
    service (foldl (λ self r, seed_address la (Register.address r) self) s0 l) = service s) as Hall.
  { induction l as [|r l IH]; intros s0 Hs0; [done|]. cbn [foldl]. apply IH. unfold seed_address. by case_decide. }
  unfold members_of. by rewrite Hall.
Qed.

(** The two sides after both merged what [pulled] and [pushed] name. *)
Definition merged (pulled pushed : list string) (w : World) : Prop :=
  (∀ id, id ≠ a → get (members_of w.1) id = get (foldl merge_register mA (stamp nowA <$> omap (get mB) pulled)) id) ∧
  (∀ id, id ≠ b → get (members_of w.2) id = get (foldl merge_register mB (stamp nowB <$> omap (get mA) pushed)) id).

Lemma fetched_effect ids w : un w →
  wp (if decide (ids = []) then ret [] else request ask fetch_registers_result peer (QFetchRegisters ids))
    (λ infos w', infos = register_to_proto <$> omap (get mB) ids ∧ un w') (λ _ _, False) w.
Proof.
  intros Hw. case_decide as Hi; [by subst ids; wp_steps|].
  unfold request, wp, bind, ask, handle, serve_fetch_registers, fetch_registers. cbn -[register_to_proto].
  split; [|by destruct Hw]. by rewrite <- (un_b _ _ _ _ _ _ Hw).
Qed.

Lemma exchanged_registers w : un w →
  wp (exchange_diff blake3 fst put_first (λ _, nowA) (λ _, diskA) ask peer)
    (λ _ w', let d := MerkleDiff.merkle_diff_with_peer blake3 (from_membership blake3 mA) (from_membership blake3 mB) in
       merged (dr_need_from_remote d) (dr_need_from_local d) w') (λ _ _, False) w.
Proof.
  intros Hw. unfold exchange_diff. rewrite wp_bind.
  eapply wp_mono; [by apply driven_diff|cbn; intros d w1 [-> Hw1]|done].
  set (d := MerkleDiff.merkle_diff_with_peer _ _ _). rewrite wp_bind.
  eapply wp_mono; [by apply fetched_effect|cbn; intros infos w2 [-> Hw2]|done]. rewrite wp_bind.
  unfold own at 1. unfold wp at 1. unfold fetch_registers.
  assert (get (membership (swim (svc_state (service w2.1)))) = get mA) as ->
    by (rewrite <- (un_a _ _ _ _ _ _ Hw2); done).
  assert (put_first w2.1 w2 = w2) as -> by (by destruct w2). rewrite wp_bind.
  set (pushed := register_to_proto <$> omap (get mA) (dr_need_from_local d)).
  assert (wp (if decide (pushed = []) then ret tt
              else let! _ := attempt (request ask push_registers_result peer (QPushRegisters pushed)) in ret tt)
    (λ _ w', members_of w'.1 = mA ∧ swim_id w'.1 = a ∧
       ∀ id, id ≠ b → get (members_of w'.2) id =
         get (foldl merge_register mB (stamp nowB <$> omap (get mA) (dr_need_from_local d))) id)
    (λ _ : ClientError, λ _, False) w2) as Hpush.
  { rewrite <- (wire_registers mA nowB (dr_need_from_local d) HcA). fold pushed. destruct Hw2 as [Ha Hb Hia Hib _ _].
    case_decide as Hp.
    - rewrite Hp. wp_steps. split_and!; [done|done|]. intros id _. by rewrite Hb.
    - rewrite wp_bind. unfold attempt, request, wp, bind, ask, handle. cbn -[serve_push_registers proto_to_register].
      split_and!; [done|done|]. intros id Hne. rewrite pushed_effect by congruence. by rewrite Hb. }
  eapply wp_mono; [exact Hpush|clear Hpush; cbn; intros _ w3 (Ha & Hia & Hb)|done]. rewrite wp_bind.
  set (fetched := register_to_proto <$> omap (get mB) (dr_need_from_remote d)).
  assert (∀ s, (∀ id, id ≠ a → get (members_of s) id =
      get (foldl merge_register mA (stamp nowA <$> (proto_to_register <$> fetched))) id) →
    merged (dr_need_from_remote d) (dr_need_from_local d) (seed_member_nodes s, w3.2)) as Hend.
  { intros s Hs. split; cbn [fst snd]; [|done]. intros id Hne. rewrite seeded_effect, Hs by done.
    unfold fetched. by rewrite wire_registers. }
  case_decide as Hf.
  - wp_steps. unfold seed_members, own, wp. apply Hend. intros id _. by rewrite Ha, Hf.
  - apply merged_effect. intros s Hs. unfold seed_members, own, wp. apply Hend. intros id Hne.
    rewrite Hs by congruence. by rewrite Ha.
Qed.
End unmerged.
End round.


(** ** An instance *)

Section instances.
#[local] Existing Instance gmap_hash_iter.
#[local] Existing Instance small_shape.
#[local] Existing Instance toy_redb.
#[local] Existing Instance toy_string.
#[local] Instance toy_peers : Postcard PeerRecord := toy_postcard PeerRecord.
#[local] Instance half_hex : Hex := {| hex_encode := λ b, b; hex_decode := λ s, Ok (String.substring 0 32 s) |}.

(** A node [id] that has heard of [rs]. *)
Definition heard_service (id : string) (rs : list MemberRegister) : MembershipService :=
  perform_all toy_blake3 (Service.new toy_blake3 id default_config (Register.new id "addr" 1 0)) [OpSync rs 5 true].

Definition heard (id : string) (rs : list MemberRegister) : ClusterSync :=
  set_service (heard_service id rs) (Cluster.new id (heard_service id rs) blank_db).

Definition heal_a : ClusterSync := heard "a" [Register.new "x" "old" 1 3; Register.new "z" "here" 4 4].
Definition heal_b : ClusterSync := heard "b" [Register.new "x" "new" 2 4; Register.new "y" "there" 1 1].

Definition some_peer : string := be_bytes 64 0.

Lemma counted_check m :
  forallb (λ '(_, r), 1 <=? incarnation r) (map_to_list (members m)) = true → counted m.
Proof.
  intros Hb id r Hr. rewrite forallb_forall in Hb. apply Z.leb_le, (Hb (id, r)), list_elem_of_In.
  by apply elem_of_map_to_list.
Qed.

Lemma heard_cache id rs n :
  run_cost toy_blake3 (Service.new toy_blake3 id default_config (Register.new id "addr" 1 0)) [OpSync rs 5 true] = n →
  Z.of_nat n < 2 ^ 64 → cache_ok toy_blake3 n (service (heard id rs)).
Proof.
  intros <- Hn. unfold heard. change (service (set_service ?s _)) with s.
  exact (perform_all_cache toy_blake3 0 _ [OpSync rs 5 true] (cache_ok_new toy_blake3 id default_config _) Hn).
Qed.

Lemma heal_a_cache : cache_ok toy_blake3 2 (service heal_a).
Proof. apply heard_cache; [vm_compute; reflexivity|lia]. Qed.

Lemma heal_b_cache : cache_ok toy_blake3 2 (service heal_b).
Proof. apply heard_cache; [vm_compute; reflexivity|lia]. Qed.

Lemma heal_comparable : comparable toy_blake3 (members_of heal_a) (members_of heal_b).
Proof.
  split.
  - intros x. unfold toy_blake3. by rewrite string_length_app, !be_bytes_length.
  - eapply cache_ok_keyed, heal_a_cache.
  - eapply cache_ok_keyed, heal_b_cache.
  - apply ids_check. vm_compute. reflexivity.
  - apply ids_check. vm_compute. reflexivity.
  - apply collision_freeb_correct. vm_compute. reflexivity.
Qed.
Lemma heal_a_counted : counted (members_of heal_a).
Proof. apply counted_check. vm_compute. reflexivity. Qed.

Lemma heal_b_counted : counted (members_of heal_b).
Proof. apply counted_check. vm_compute. reflexivity. Qed.

Lemma some_peer_connects : is_ok (connect some_peer) = true.
Proof. vm_compute. reflexivity. Qed.

Lemma heal_ids : swim_id heal_a = "a" ∧ swim_id heal_b = "b".
Proof. split; vm_compute; reflexivity. Qed.

End instances.
