(* ===== verification/OverlayNode.v ===== *)
(** * The overlay node ([crates/daemon/src/overlay.rs], [overlay_transport.rs])

    Who the node is, which registry it enforces, and how both come about: the
    boot from the identity file and the stored records, the commit of a registry
    in three places (the store, the link actor, the enrollment), admission and
    registry exchange as sponsor, joining as candidate. One method between two
    [await]s is one definition; what the clock, the random source and the peers
    say are arguments. Methods that hold the enrollment lock across a commit are
    one definition, since nobody else writes the registry meanwhile. [None] is a
    registry walk out of fuel. *)

From S2P Require Import Prelude.
From S2P Require Import Effects.
From S2P Require Import Tables.
From S2P Require Import NodeStores.
From S2P Require Import Identity.
From S2P Require Import PrivateFile.
From S2P Require Import Authorization.
From S2P Require Import Protocol.
From S2P Require Import Routing.
From S2P Require Import Directory.
From S2P Require Import Admission.
From S2P Require Import LinkState.
From S2P Require Import Link.

#[local] Open Scope Z_scope.

Definition REGISTRY_REQUEST_TIMEOUT_MS : Z := 5000.
Definition REGISTRY_REQUEST_HOPS : Z := 0.

Inductive RegistryResponse : Type :=
| Applied (records : list AuthorizationRecord)
| RegistryRejected (reason : string).

Inductive OverlayError : Type :=
| OvIdentity (error : IdentityError)
| OvLink (error : LinkError)
| OvAuthorization (error : AuthorizationError)
| OvStorage (error : StorageError)
| InvalidListenAddress (address : string)
| MissingGenesis
| PersistedIdentityMissing
| InitialIdentityRequired (n : NodeId)
| LocalIdentityNotActive (n : NodeId)
| LocalIdentityMismatch (n : NodeId)
| OvPostcard (error : string)
| OvAdmission (error : AdmissionError)
| JoinRejected (reason : string)
| JoinFailed (reason : string)
| UnknownBootstrapPeer.

(** The rendering of errors ([Display]) and of answers ([Debug]). *)
Class ErrorTexts := {
  storage_text : StorageError → string;
  admission_text : AdmissionError → string;
  authorization_text : AuthorizationError → string;
  response_text : AdmissionResponse → string;
}.

Section overlay.
Context `{!Crypto} `{!Authorization.Postcard} `{!AdmissionCrypto} `{!LibP2p} `{!Network} `{!Hex}.
Context `{!Serialize LinkStateBody} `{!Serialize LinkStateRecord}.
Context `{!Redb} `{!Tables.Postcard AuthorizationRecord} `{!ErrorTexts}.
Context `{!Serialize AdmissionRequest} `{!Serialize AdmissionResponse}.
Context `{!Serialize (list AuthorizationRecord)} `{!Serialize RegistryResponse}.

(** ** Registries *)

(** The key of a record in the store: [record.id().to_string()]. *)
Definition record_text (r : AuthorizationRecord) : string := identifier_text (id r).

Definition is_root (r : AuthorizationRecord) : bool :=
  match authorizer r with None => true | Some _ => false end.

Definition registry_from_records (rs : list AuthorizationRecord)
    : option (result AuthorizationRegistry OverlayError) :=
  match find is_root rs with
  | None => Some (Err MissingGenesis)
  | Some genesis =>
      reg ← from_records (from_genesis (node_id genesis)) rs;
      Some (map_err OvAuthorization reg)
  end.

Definition bind_local_identity (reg : AuthorizationRegistry) (i : NodeIdentity) : result unit OverlayError :=
  let n := ni_node_id i in
  let? active := ok_or (active_record_for_node reg n) (LocalIdentityNotActive n) in
  if decide (node_id active = n ∧ initial_public_key active = ni_initial_public_key i ∧
             public_key active = public_key_bytes i ∧ peer_id active = peer_id_bytes i ∧
             active_peer_for_node peer_id_from_bytes reg n = Some (peer_id_bytes i))
  then Ok tt else Err (LocalIdentityMismatch n).

(** ** Boot *)

Record Boot : Type := mkBoot {
  boot_files : Process;
  boot_store : Database;
}.

Definition on_files {E A} (m : M Process E A) : M Boot E A :=
  zoom boot_files (λ p b, mkBoot p (boot_store b)) m.
Definition on_store {E A} (m : M Database E A) : M Boot E A :=
  zoom boot_store (λ d b, mkBoot (boot_files b) d) m.

Definition stored_records : M Boot OverlayError (list AuthorizationRecord) :=
  on_store (with_err OvStorage NodeStores.authorization_records).

(** A registry walk that ran out of fuel is carried to the end. *)
Definition standalone (me : Z) (kp : Keypair) (path : Path)
    : M Boot OverlayError (NodeIdentity * option (result AuthorizationRegistry OverlayError)) :=
  let! i := on_files (with_err OvIdentity (load_or_generate me kp path)) in
  if negb (is_initial_identity (public_identity i)) then raise (InitialIdentityRequired (ni_node_id i))
  else
    let! genesis := lift (map_err OvAuthorization (genesis i)) in
    let! _ := on_store (with_err OvStorage (NodeStores.put record_text genesis.2)) in
    let! committed := stored_records in
    ret (i, registry_from_records committed).

Definition load_error (e : IdentityError) : OverlayError :=
  match e with IdIo IoNotFound => PersistedIdentityMissing | _ => OvIdentity e end.

Definition resumed (path : Path) (rs : list AuthorizationRecord)
    : M Boot OverlayError (NodeIdentity * option (result AuthorizationRegistry OverlayError)) :=
  let! i := on_files (with_err load_error (load path)) in
  ret (i, registry_from_records rs).

Definition initialize_identity_and_registry (me : Z) (kp : Keypair) (data_dir : Path)
    : M Boot OverlayError (option (result (NodeIdentity * AuthorizationRegistry) OverlayError)) :=
  let identity_path := data_dir ++ ["node.identity"] in
  let! rs := stored_records in
  let! p := if decide (rs = []) then standalone me kp identity_path else resumed identity_path rs in
  ret (reg ← p.2; Some (let? reg := reg in let? _ := bind_local_identity reg p.1 in Ok (p.1, reg))).

Definition default_listen : list string := ["/ip4/0.0.0.0/udp/0/quic-v1"; "/ip4/0.0.0.0/tcp/0"].

(** [parse] is [Multiaddr::from_str]. *)
Definition parse_listen_addresses (parse : string → option Multiaddr) (listen : list string)
    : result (list Multiaddr) OverlayError :=
  let parse_one address := ok_or (parse address) (InvalidListenAddress address) in
  collect (parse_one <$> (if decide (listen = []) then default_listen else listen)).

(** ** The running node *)

Record OverlayNode : Type := mkOverlay {
  actor : LinkActor;
  running : bool;
  ov_identity : NodeIdentity;
  enrollment : Enrollment;
  store : Database;
  known : list NodeId;
  outgoing : list Envelope;
}.

Definition set_actor (a : LinkActor) (self : OverlayNode) : OverlayNode :=
  mkOverlay a (running self) (ov_identity self) (enrollment self) (store self) (known self) (outgoing self).
Definition set_enrollment (en : Enrollment) (self : OverlayNode) : OverlayNode :=
  mkOverlay (actor self) (running self) (ov_identity self) en (store self) (known self) (outgoing self).
Definition set_store (d : Database) (self : OverlayNode) : OverlayNode :=
  mkOverlay (actor self) (running self) (ov_identity self) (enrollment self) d (known self) (outgoing self).
Definition set_known (l : list NodeId) (self : OverlayNode) : OverlayNode :=
  mkOverlay (actor self) (running self) (ov_identity self) (enrollment self) (store self) l (outgoing self).
Definition set_outgoing (l : list Envelope) (self : OverlayNode) : OverlayNode :=
  mkOverlay (actor self) (running self) (ov_identity self) (enrollment self) (store self) (known self) l.

(** [OverlayNode::start], once identity, registry and addresses are there. *)
Definition start_node (s : Swarm) (boot : bytes) (first : Z) (addresses : list Multiaddr) (cluster_key : option bytes)
    (i : NodeIdentity) (reg : AuthorizationRegistry) (db : Database) : result OverlayNode OverlayError :=
  let? a := map_err OvLink (Link.start s i (new_config addresses) reg boot first) in
  Ok (mkOverlay a true i (new_enrollment reg cluster_key) db (connected_nodes (snapshot_tx a)) []).

(** A turn of the link actor. *)
Definition link_turn (clock : Clock) (t : Turn) (self : OverlayNode) : OverlayNode :=
  if running self then
    let '(a, stop) := turn clock t (actor self) in
    mkOverlay a (negb stop) (ov_identity self) (enrollment self) (store self) (known self) (outgoing self)
  else self.

Definition submit (clock : Clock) (command : LinkCommand) : OverlayNode → OverlayNode :=
  link_turn clock (TCommand command).

(** [commit_registry]: the actor validates the registry, then stores its records,
    then installs it. [reply] is the channel of the outcome. *)
Definition commit_registry (clock : Clock) (reply : ReplyId) (adopt : bool) (reg : AuthorizationRegistry)
    (self : OverlayNode) : OverlayNode * result unit LinkError :=
  if running self then
    let check := validate_authorization reg (negb adopt) (actor self) in
    let '(db, persisted) :=
      match check with
      | Ok _ => NodeStores.replace record_text (values reg) (store self)
      | Err _ => (store self, Ok tt)
      end in
    let persist := map_err storage_text persisted in
    (submit clock (CmdCommitAuthorization reg (negb adopt) persist reply) (set_store db self),
     let? _ := check in map_err AuthorizationCommit persist)
  else (self, Err ActorStopped).

Definition commit_enrollment (clock : Clock) (reply : ReplyId) (proposed : Enrollment) (self : OverlayNode)
    : OverlayNode * result unit OverlayError :=
  if decide (values (registry (enrollment self)) = values (registry proposed))
  then (set_enrollment proposed self, Ok tt)
  else
    let '(self, r) := commit_registry clock reply false (registry proposed) self in
    match r with
    | Ok _ => (set_enrollment proposed self, Ok tt)
    | Err e => (self, Err (OvLink e))
    end.

Definition merge_registry_checkpoint (clock : Clock) (reply : ReplyId) (rs : list AuthorizationRecord)
    (self : OverlayNode) : option (OverlayNode * (RegistryResponse * bool)) :=
  '(proposed, merged) ← merge_checkpoint (enrollment self) rs;
  Some
    match merged with
    | Err e => (self, (RegistryRejected (authorization_text e), false))
    | Ok changed =>
        if decide (0 < changed)%nat then
          let '(self, r) := commit_enrollment clock reply proposed self in
          match r with
          | Ok _ => (self, (Applied (values (registry (enrollment self))), true))
          | Err _ => (self, (RegistryRejected "authorization commit failed", false))
          end
        else (self, (Applied (values (registry (enrollment self))), false))
    end.

(** *** Envelopes *)

Definition request_envelope (clock : Clock) (target : NodeId) (cluster : ClusterId) (p : ProtocolId)
    (bytes_ : bytes) (self : OverlayNode) : OverlayNode * result (option Envelope) LinkError :=
  let '(a, rid) := next_request_id (actor self) in
  let self := set_actor a self in
  match rid with
  | Err e => (self, Err e)
  | Ok rid =>
      let h := mkHeader PROTOCOL_VERSION cluster rid (ni_node_id (ov_identity self)) target p Request
                 (i64_wrap (now_unix_ms clock + REGISTRY_REQUEST_TIMEOUT_MS)) REGISTRY_REQUEST_HOPS in
      (self, Ok match new_envelope h bytes_ with Ok e => Some e | Err _ => None end)
  end.

Definition answer_envelope (request : Envelope) (from : NodeId) (p : bytes) : option Envelope :=
  let h := header request in
  match new_envelope
    (mkHeader (version h) (h_cluster_id h) (request_id h) from (source h) (protocol h) Response
       (deadline_unix_ms h) (remaining_hops h)) p with
  | Ok e => Some e
  | Err _ => None
  end.

Definition send_reply_payload (clock : Clock) (reply : ReplyId) (inbound : InboundEnvelope) (p : bytes)
    (self : OverlayNode) : OverlayNode :=
  match answer_envelope (envelope inbound) (ni_node_id (ov_identity self)) p with
  | Some e => submit clock (CmdRespond (token inbound) e reply) self
  | None => self
  end.

Definition send_reply {T} `{!Serialize T} (clock : Clock) (reply : ReplyId) (inbound : InboundEnvelope) (response : T)
    (self : OverlayNode) : OverlayNode :=
  match to_stdvec response with
  | Ok p => send_reply_payload clock reply inbound p self
  | Err _ => self
  end.

(** *** Serving *)

Definition admission_response (clock : Clock) (reply : ReplyId) (rng : option bytes) (from : PeerId)
    (request : AdmissionRequest) (self : OverlayNode) : option (OverlayNode * AdmissionResponse) :=
  match request with
  | Begin candidate =>
      '(en, r) ← begin (enrollment self) candidate from (ov_identity self) rng;
      Some (set_enrollment en self,
            match r with Ok challenge => ChallengeResponse challenge | Err e => Rejected (admission_text e) end)
  | Prove proof =>
      '(proposed, r) ← enroll_with_join_key (enrollment self) proof from (ov_identity self);
      Some
        match r with
        | Err e => (self, Rejected (admission_text e))
        | Ok out =>
            let '(self, c) := commit_enrollment clock reply proposed self in
            (self, match c with
                   | Ok _ => AdmittedOutcome (mkOutcome (eo_record out) (eo_records out))
                   | Err _ => Rejected "authorization commit failed"
                   end)
        end
  end.

Definition handle_admission (clock : Clock) (reply : ReplyId) (rng : option bytes) (inbound : InboundEnvelope)
    (self : OverlayNode) : option OverlayNode :=
  match from_bytes (A:=AdmissionRequest) (payload (envelope inbound)) with
  | Err _ => Some self
  | Ok request =>
      '(self, response) ← admission_response clock reply rng (sender inbound) request self;
      Some (send_reply clock reply inbound response self)
  end.

(** The loop over the connected nodes, which stops at the first failure. *)
Fixpoint broadcast_to (clock : Clock) (p : bytes) (cluster : ClusterId) (nodes : list NodeId) (self : OverlayNode)
    : OverlayNode :=
  match nodes with
  | [] => self
  | n :: nodes =>
      match request_envelope clock n cluster Registry p self with
      | (self, Ok (Some e)) => broadcast_to clock p cluster nodes (set_outgoing (outgoing self ++ [e]) self)
      | (self, Ok None) | (self, Err _) => self
      end
  end.

Definition broadcast_checkpoint (clock : Clock) (self : OverlayNode) : OverlayNode :=
  let reg := registry (enrollment self) in
  match to_stdvec (values reg) with
  | Err _ => self
  | Ok p => broadcast_to clock p (reg_cluster_id reg) (connected_nodes (snapshot_tx (actor self))) self
  end.

Definition handle_registry (clock : Clock) (reply : ReplyId) (inbound : InboundEnvelope) (self : OverlayNode)
    : option OverlayNode :=
  match from_bytes (A:=list AuthorizationRecord) (payload (envelope inbound)) with
  | Err _ => Some (send_reply clock reply inbound (RegistryRejected "malformed registry checkpoint") self)
  | Ok rs =>
      '(self, (response, changed)) ← merge_registry_checkpoint clock reply rs self;
      let self := send_reply clock reply inbound response self in
      Some (if (changed : bool) then broadcast_checkpoint clock self else self)
  end.

(** The task spawned for a connected node: its request, and the answer to it. *)
Definition send_outgoing (clock : Clock) (reply : ReplyId) (self : OverlayNode) : OverlayNode :=
  match outgoing self with
  | e :: rest => submit clock (CmdRequest e reply) (set_outgoing rest self)
  | [] => self
  end.

Definition registry_answer (clock : Clock) (reply : ReplyId) (answer : result Envelope LinkError) (self : OverlayNode)
    : option OverlayNode :=
  match answer with
  | Err _ => Some self
  | Ok response =>
      match from_bytes (A:=RegistryResponse) (payload response) with
      | Ok (Applied rs) => '(self, _) ← merge_registry_checkpoint clock reply rs self; Some self
      | Ok (RegistryRejected _) | Err _ => Some self
      end
  end.

(** One turn of [run_dispatcher]; [answer] is what the handler of a plane makes of
    the payload, if it is installed and can read it. *)
Definition dispatch (clock : Clock) (reply : ReplyId) (rng : option bytes) (answer : option bytes) (self : OverlayNode)
    : option OverlayNode :=
  match waiting (inbound_tx (actor self)) with
  | [] => Some self
  | inbound :: _ =>
      let self := link_turn clock TNextInbound self in
      match protocol (header (envelope inbound)) with
      | Protocol.Admission => handle_admission clock reply rng inbound self
      | Registry => handle_registry clock reply inbound self
      | Membership | Resource | Extension =>
          Some match answer with Some p => send_reply_payload clock reply inbound p self | None => self end
      | _ => Some self
      end
  end.

(** One turn of [run_registry_gossip]. *)
Definition registry_gossip (clock : Clock) (self : OverlayNode) : OverlayNode :=
  let connected := connected_nodes (snapshot_tx (actor self)) in
  let grew := existsb (λ n, bool_decide (n ∉ known self)) connected in
  let self := set_known connected self in
  if grew then broadcast_checkpoint clock self else self.

(** *** Peers *)

Definition registry_is_solo (self : OverlayNode) : bool :=
  match values (registry (enrollment self)) with
  | [r] => bool_decide (node_id r = ni_node_id (ov_identity self))
  | _ => false
  end.

Definition node_rank (snap : LinkSnapshot) (n : NodeId) : Z :=
  if decide (n ∈ healthy_nodes snap) then 0 else if decide (n ∈ connected_nodes snap) then 1 else 2.

Definition is_active (reg : AuthorizationRegistry) (n : NodeId) : bool :=
  match status reg n with Some (Active _) => true | _ => false end.

(** [OverlayPool::authorized_peers] of a pool built for the daemon. *)
Definition authorized_peers (self : OverlayNode) : list string :=
  let reg := registry (enrollment self) in
  let local := ni_node_id (ov_identity self) in
  let peers := filter (λ n, n ≠ local ∧ is_active reg n = true) (node_id <$> values reg) in
  let peers := dedup (ord_sort peers) in
  identifier_text <$> sort_by_key (λ n, (node_rank (snapshot_tx (actor self)) n, n)) peers.

Definition is_p2p (p : AddrProtocol) : option PeerId := match p with P2p peer => Some peer | _ => None end.

Definition reconnect (clock : Clock) (reply : ReplyId) (address : Multiaddr) (self : OverlayNode)
    : OverlayNode * result unit OverlayError :=
  match head (omap is_p2p (protocols address)) with
  | None => (self, Err UnknownBootstrapPeer)
  | Some peer =>
      match node_for_peer (registry (enrollment self)) peer with
      | None => (self, Err UnknownBootstrapPeer)
      | Some n =>
          if running self then
            let r := (dial n address (instant clock) (actor self)).2 in
            (submit clock (CmdDial n address reply) self, map_err OvLink r)
          else (self, Err (OvLink ActorStopped))
      end
  end.

(** *** Joining

    [join] from one [await] to the next: dial the sponsor, ask for a challenge,
    prove, then adopt what the sponsor answered. [answer] is the reply to the
    request before. *)

Definition zero_id : bytes := be_bytes 32 0.

Definition join_dial (clock : Clock) (reply : ReplyId) (address : Multiaddr) (self : OverlayNode)
    : OverlayNode * result PeerId OverlayError :=
  if running self
  then (submit clock (CmdDialAdmission address reply) self,
        map_err OvLink (dial_admission address (actor self)).2)
  else (self, Err (OvLink ActorStopped)).

Definition admission_request (clock : Clock) (reply : ReplyId) (sponsor : PeerId) (destination : NodeId)
    (cluster : ClusterId) (request : AdmissionRequest) (self : OverlayNode) : OverlayNode * result unit OverlayError :=
  match to_stdvec request with
  | Err e => (self, Err (OvPostcard e))
  | Ok payload =>
      match request_envelope clock destination cluster Protocol.Admission payload self with
      | (self, Err e) => (self, Err (OvLink e))
      | (self, Ok None) => (self, Err (JoinFailed "admission request exceeds the frame budget"))
      | (self, Ok (Some e)) => (submit clock (CmdRequestAdmission sponsor e reply) self, Ok tt)
      end
  end.

Definition admission_answer (answer : result Envelope LinkError)
    : result (NodeId * AdmissionResponse) OverlayError :=
  let? response := map_err OvLink answer in
  let? value := map_err OvPostcard (from_bytes (payload response)) in
  Ok (source (header response), value).

Definition join_begin (clock : Clock) (reply : ReplyId) (rng : option bytes) (sponsor : PeerId) (self : OverlayNode)
    : OverlayNode * result AdmissionCandidate OverlayError :=
  match new_candidate (ov_identity self) rng with
  | Err e => (self, Err (OvAdmission e))
  | Ok candidate =>
      let '(self, r) := admission_request clock reply sponsor zero_id zero_id (Begin candidate) self in
      (self, let? _ := r in Ok candidate)
  end.

Definition challenged (key : bytes) (candidate : AdmissionCandidate) (answer : result Envelope LinkError)
    : result (AdmissionChallenge * JoinProof) OverlayError :=
  let? answered := admission_answer answer in
  match answered.2 with
  | ChallengeResponse challenge =>
      if decide (answered.1 ≠ sponsor_node_id challenge)
      then Err (JoinFailed "admission challenge source does not match its sponsor identity")
      else let? proof := map_err OvAdmission (create_proof key candidate challenge) in Ok (challenge, proof)
  | Rejected reason => Err (JoinRejected reason)
  | other => Err (JoinFailed (String.append "sponsor answered begin with " (response_text other)))
  end.

Definition join_prove (clock : Clock) (reply : ReplyId) (key : bytes) (sponsor : PeerId)
    (candidate : AdmissionCandidate) (answer : result Envelope LinkError) (self : OverlayNode)
    : OverlayNode * result AdmissionChallenge OverlayError :=
  match challenged key candidate answer with
  | Err e => (self, Err e)
  | Ok (challenge, proof) =>
      let '(self, r) := admission_request clock reply sponsor (sponsor_node_id challenge) (ch_cluster_id challenge)
                          (Prove proof) self in
      (self, let? _ := r in Ok challenge)
  end.

Definition admitted_registry (sponsor : PeerId) (candidate : AdmissionCandidate) (challenge : AdmissionChallenge)
    (answer : result Envelope LinkError) : option (result AuthorizationRegistry OverlayError) :=
  match admission_answer answer with
  | Err e => Some (Err e)
  | Ok (_, AdmittedOutcome outcome) =>
      reg ← validate_for outcome candidate challenge sponsor; Some (map_err OvAdmission reg)
  | Ok (_, Rejected reason) => Some (Err (JoinRejected reason))
  | Ok (_, other) => Some (Err (JoinFailed (String.append "sponsor answered prove with " (response_text other))))
  end.

(** The commit; [join_adopt] follows when its outcome is there. *)
Definition join_commit (clock : Clock) (reply : ReplyId) (sponsor : PeerId) (candidate : AdmissionCandidate)
    (challenge : AdmissionChallenge) (answer : result Envelope LinkError) (self : OverlayNode)
    : option (OverlayNode * result AuthorizationRegistry OverlayError) :=
  admitted ← admitted_registry sponsor candidate challenge answer;
  Some match admitted with
       | Err e => (self, Err e)
       | Ok reg =>
           let '(self, r) := commit_registry clock reply true reg self in
           (self, let? _ := map_err OvLink r in Ok reg)
       end.

Definition join_adopt (reg : AuthorizationRegistry) (self : OverlayNode) : OverlayNode :=
  set_enrollment (adopt_registry (enrollment self) reg) self.
End overlay.
