(* ===== verification/OverlayTheorems.v ===== *)
(** * The registry of a running node

    The three copies of the registry [OverlayNode] keeps, the store's, the
    link actor's and the enrollment's, agree after every step, and a boot from the
    store brings the same registry back. *)

From S2P Require Import Prelude.
From S2P Require Import Effects.
From S2P Require Import Tables.
From S2P Require Import NodeStores.
From S2P Require Import Identity.
From S2P Require Import PrivateFile.
From S2P Require Import Authorization.
From S2P Require Import Protocol.
From S2P Require Import Effective.
From S2P Require Import Replication.
From S2P Require Import Trust.
From S2P Require Import Routing.
From S2P Require Import Directory.
From S2P Require Import Admission.
From S2P Require Import LinkState.
From S2P Require Import Link.
From S2P Require Import LinkInvariant.
From S2P Require Import LinkTheorems.
From S2P Require Import OverlayNode.

#[local] Open Scope Z_scope.

(** ** Only a commit changes the registry of the link actor *)

Section link_registry.
Context `{!Crypto} `{!Authorization.Postcard} `{!AdmissionCrypto} `{!LibP2p} `{!Network} `{!NetworkLaws}.
Context `{!Serialize LinkStateBody} `{!Serialize LinkStateRecord}.
Implicit Types (a b c : LinkActor).

Definition enforced a : AuthorizationRegistry := authorization (link a).

Definition same_registry a b : Prop := enforced b = enforced a.

#[export] Instance same_registry_preorder : PreOrder same_registry.
Proof. split; [done|]. unfold same_registry. intros x y z. congruence. Qed.

Lemma keeps_registry a b : keeps a b → same_registry a b.
Proof. by intros [_ _ [] _ _ _ _ _ _ _ _]. Qed.

Lemma foldl_registry {X} (f : LinkActor → X → LinkActor) l a :
  (∀ b x, same_registry b (f b x)) → same_registry a (foldl f a l).
Proof.
  intros Hf. revert a. induction l as [|x l IH]; intros a; cbn [foldl]; [done|].
  etrans; [apply Hf|apply IH].
Qed.

Lemma foldl_fst_registry {X Y} (f : LinkActor * Y → X → LinkActor * Y) l p :
  (∀ p x, same_registry p.1 (f p x).1) → same_registry p.1 (foldl f p l).1.
Proof.
  intros Hf. revert p. induction l as [|x l IH]; intros p; cbn [foldl]; [done|].
  etrans; [apply Hf|apply IH].
Qed.

Lemma remove_inbound_registry tok a : same_registry a (remove_pending_inbound tok a).
Proof. unfold remove_pending_inbound. by case_match. Qed.

Lemma expire_registry now a : same_registry a (expire_pending_requests now a).
Proof.
  destruct (expire_unfold now a) as (b & c & f1 & f2 & E1 & E2 & ->).
  etrans; [|apply foldl_registry; intros; apply keeps_registry, keeps_close_timed_out].
  etrans; [|apply foldl_registry; intros; apply remove_inbound_registry].
  assert (same_registry a b) as Hab.
  { change b with (b, f1).1. rewrite <- E1. apply (foldl_fst_registry _ _ (a, ∅)).
    intros [x f] id. unfold expire_outbound. by case_match. }
  assert (same_registry b c) as Hbc.
  { change c with (c, f2).1. rewrite <- E2. apply (foldl_fst_registry _ _ (b, f1)).
    intros [x f] id. unfold expire_forward. by case_match. }
  by etrans.
Qed.

Lemma maintain_registry clock a : same_registry a (maintain clock a).
Proof. etrans; [apply expire_registry|apply keeps_registry, keeps_maintain]. Qed.

Lemma deliver_registry now peer rid e ch a : same_registry a (deliver now peer rid e ch a).
Proof. unfold deliver. repeat case_decide; try done. cbv zeta. by case_match. Qed.

Lemma send_registry peer e a : same_registry a (send peer e a).1.
Proof. unfold send. by destruct (send_request _ _ _). Qed.

Lemma inbound_request_registry now peer rid e ch a :
  same_registry a (handle_inbound_request now peer rid e ch a).
Proof.
  unfold handle_inbound_request. cbv zeta. case_decide; [done|]. destruct (node_for_peer _ _) as [n|].
  - case_decide; [apply deliver_registry|]. case_decide; [done|]. case_decide.
    { apply keeps_registry. etrans; [apply keeps_accept_link_state|apply keeps_reply_empty]. }
    unfold route_inbound. destruct (Routing.handle _ _ _) as [[r [e'|hop e'|reason]]|]; [| |done..].
    + etrans; [|apply deliver_registry]. done.
    + cbv zeta. destruct (active_peer _ _) as [next|]; [|done].
      pose proof (send_registry next e' (set_router r a)). by destruct (send next e' _).
  - destruct (_ && _); [apply deliver_registry|done].
Qed.

Lemma messaging_registry now ev a : same_registry a (handle_messaging now ev a).
Proof.
  pose proof (λ p b, keeps_registry _ _ (keeps_close_timed_out p b)) as Hc.
  pose proof (λ ch e b, keeps_registry _ _ (keeps_send_back ch e b)) as Hb.
  destruct ev as [peer rid e ch|peer i e|i error|rid|]; cbn [handle_messaging].
  - apply inbound_request_registry.
  - unfold handle_response. destruct (pending_outbound a !! i); cbv zeta.
    + case_decide; [|done]. etrans; [|apply (Hc peer)]. done.
    + destruct (pending_forwards a !! i); [|done]. destruct (_ && _).
      * etrans; [|apply Hb]. done.
      * etrans; [|apply (Hc peer)]. done.
  - unfold handle_outbound_failure. destruct (pending_outbound a !! i) as [p|]; cbv zeta.
    + case_decide; [|done]. etrans; [|apply (Hc (expected_peer (expected p)))]. done.
    + by destruct (pending_forwards a !! i).
  - unfold remove_pending_inbound_request. by case_match.
  - done.
Qed.

Lemma established_registry now peer cid ep a :
  same_registry a (Link.connection_established now peer cid ep a).1.
Proof.
  unfold Link.connection_established. cbv zeta. destruct (node_for_peer _ _) as [n|].
  - unfold state_connection_established, arbitrate_connections. cbn [fst]. case_match; [done|].
    case_match; [done|]. etrans; [|apply foldl_registry; intros; apply keeps_registry, keeps_close]. done.
  - case_decide; [|done]. cbn [fst]. etrans; [|apply keeps_registry, keeps_close]. done.
Qed.

Lemma closed_registry now peer cid a : same_registry a (on_connection_closed now peer cid a).1.
Proof.
  unfold on_connection_closed. cbv zeta. set (s0 := set_quarantined _ _).
  assert (authorization (connection_closed s0 peer cid).1 = enforced a) as Hs.
  { unfold connection_closed. by case_match. }
  destruct (connection_closed s0 peer cid) as [s closed]. cbn [fst] in *.
  match goal with |- same_registry _ (match _ with Some _ => _ | None => ?x end) => set (b := x) end.
  assert (same_registry a b) as Hb.
  { subst b. case_match; [done|]. trans (set_link s a); [done|].
    apply foldl_registry. intros. apply remove_inbound_registry. }
  destruct (c_node_id <$> _) as [n|]; [|done]. by case_match.
Qed.

Lemma event_registry clock ev a : same_registry a (handle_event clock ev a).
Proof.
  assert (same_registry a (event_effect clock ev a).1) as He.
  { destruct ev; cbn [event_effect]; try done.
    - apply (foldl_fst_registry _ _ (a, false)). by intros [].
    - apply established_registry.
    - apply closed_registry.
    - by case_match.
    - assert (authorization (set_connection_health (link a) peer connection ok).1 = enforced a) as Hs.
      { unfold set_connection_health. case_match; [|done]. by repeat case_match. }
      destruct (set_connection_health _ _ _ _) as [s ch]. cbn [fst] in *.
      case_match; [done|]. etrans; [|apply keeps_registry, keeps_close]. done.
    - cbn [fst]. etrans; [apply keeps_registry, keeps_mdns|apply maintain_registry].
    - cbn [fst]. etrans; [apply keeps_registry, keeps_mdns|apply maintain_registry].
    - apply messaging_registry.
    - by case_match. }
  unfold handle_event. cbv zeta. destruct (event_effect clock ev a) as [b ch]. cbn [fst] in He.
  assert (same_registry a (if ch then set_snapshot (snapshot (link b)) b else b)) as Hs by by destruct ch.
  case_decide; [|done]. etrans; [exact Hs|]. apply keeps_registry, keeps_advertise.
Qed.

Definition is_commit (t : Turn) : bool :=
  match t with TCommand (CmdCommitAuthorization _ _ _ _) => true | _ => false end.

Lemma request_registry now peer e r a : same_registry a (send_peer_request now peer e r a).
Proof.
  unfold send_peer_request. case_decide; [done|]. cbv zeta.
  pose proof (send_registry peer e a). by destruct (send peer e a).
Qed.

Lemma turn_registry clock t a : is_commit t = false → same_registry a (turn clock t a).1.
Proof.
  destruct t as [cmd|ev| | | |]; cbn [turn]; intros Hc.
  - destruct cmd as [e r|sp e r|tok e r|n m r|m r|n m r|n r|reg chk persist r|r]; cbn [handle_command]; try done.
    + unfold send_routed_request. case_decide; [done|]. case_match; [apply request_registry|done].
    + unfold send_admission_request. case_decide; [done|]. cbv zeta.
      case_match; [done|apply request_registry].
    + unfold respond. destruct (pending_inbound a !! tok) as [p|]; [|done]. cbv zeta. case_decide; [done|].
      pose proof (λ b, keeps_registry _ _ (keeps_send_back (in_channel p) e b)) as Hb.
      match goal with |- context [send_back _ _ ?x] => specialize (Hb x) end. by destruct (send_back _ _ _).
    + pose proof (keeps_registry _ _ (keeps_dial n m (instant clock) a)). by destruct (dial _ _ _ _).
    + pose proof (keeps_registry _ _ (keeps_dial_admission m a)). by destruct (dial_admission _ _).
    + pose proof (keeps_registry _ _ (keeps_listen_via_relay n m a)). by destruct (listen_via_relay _ _ _).
    + pose proof (keeps_registry _ _ (keeps_disconnect n a)). by destruct (disconnect _ _).
  - apply event_registry.
  - apply maintain_registry.
  - apply expire_registry.
  - done.
  - apply keeps_registry, keeps_next_request_id.
Qed.

Lemma promote_registry s cid : authorization (promote s cid) = authorization s.
Proof. unfold promote. case_match; [|done]. cbv zeta. by case_match. Qed.

Lemma promoted_registry s l : authorization (foldl promote s l) = authorization s.
Proof. revert s. induction l as [|cid l IH]; intros s; cbn [foldl]; [done|]. by rewrite IH, promote_registry. Qed.

Lemma install_registry now reg a : enforced (install_authorization now reg a) = reg.
Proof.
  unfold install_authorization. cbv zeta.
  match goal with |- context [foldl promote ?s ?l] =>
    assert (authorization (foldl promote s l) = reg) as Hs by (rewrite promoted_registry; reflexivity);
    revert Hs; generalize (foldl promote s l) end.
  intros s Hs. match goal with |- context [set_link s ?b] => generalize b end. intros b.
  generalize (stale_ids s). intros l.
  assert (enforced (foldl (λ a cid, close cid a) (set_link s b) l) = reg) as Hb.
  { rewrite (foldl_registry (λ a cid, close cid a) l (set_link s b)); [exact Hs|].
    intros. apply keeps_registry, keeps_close. }
  revert Hb. generalize (foldl (λ a cid, close cid a) (set_link s b) l). intros c Hc.
  rewrite (keeps_registry _ _ (keeps_advertise now (set_snapshot (snapshot (link c)) c))). exact Hc.
Qed.

Lemma respond_to_registry r v a : enforced (respond_to r v a) = enforced a.
Proof. done. Qed.

Lemma commit_turn_registry clock reg chk persist r a :
  enforced (turn clock (TCommand (CmdCommitAuthorization reg chk persist r)) a).1 =
    match validate_authorization reg chk a, persist with Ok _, Ok _ => reg | _, _ => enforced a end.
Proof.
  cbn [turn handle_command fst]. cbv zeta. rewrite respond_to_registry.
  pose proof (install_registry (now_unix_ms clock) reg a) as Hi. revert Hi.
  generalize (install_authorization (now_unix_ms clock) reg a). intros b Hb.
  destruct (validate_authorization reg chk a) as [[]|]; [|done]. by destruct persist as [[]|].
Qed.
End link_registry.

(** ** Registries in the store *)

Section stored.
Context `{!Crypto} `{!Authorization.Postcard} `{!Hex, !HexLaws}.
Context `{!Redb, !RedbLaws} `{!Tables.Postcard AuthorizationRecord, !PostcardLaws AuthorizationRecord}.
Implicit Types (reg : AuthorizationRegistry) (db : Database).

Definition in_store db : gmap string AuthorizationRecord := view AUTHORIZATION_RECORDS db.

(** The table holds the records of the registry, each under its own id. *)
Definition stored reg db : Prop :=
  ∀ k r, in_store db !! k = Some r ↔ in_reg reg r ∧ k = record_text r.

Lemma record_text_inj r r' : record_text r = record_text r' → id r = id r'.
Proof.
  unfold record_text, identifier_text. intros E. apply (f_equal hex_decode) in E.
  rewrite !hex_round_trip in E. congruence.
Qed.

Lemma in_reg_inj reg r r' : in_reg reg r → in_reg reg r' → id r = id r' → r = r'.
Proof. unfold in_reg. congruence. Qed.

Lemma stored_rows reg db db' : rows db' = rows db → stored reg db → stored reg db'.
Proof. unfold stored, in_store, view. by intros ->. Qed.

(** [replace] installs a registry, or changes nothing. *)
Lemma replace_stored reg rank db :
  wf_registry reg rank →
  wp (NodeStores.replace record_text (values reg)) (λ _, stored reg) (untouched db) db.
Proof.
  intros Hwf. unfold NodeStores.replace. eapply wp_mono; [apply replace_all_spec| |done].
  intros _ db' [Hv _] k r. unfold in_store. rewrite Hv, last_wins_keyed.
  - rewrite lookup_empty, (elem_of_values reg rank Hwf). naive_solver.
  - intros x y Hx%(elem_of_values reg rank Hwf) Hy%(elem_of_values reg rank Hwf) E%record_text_inj.
    by eapply in_reg_inj.
Qed.

Lemma values_inj reg rank reg' rank' :
  wf_registry reg rank → wf_registry reg' rank' → reg_cluster_id reg = reg_cluster_id reg' →
  values reg = values reg' → reg = reg'.
Proof.
  intros Hwf Hwf' Hc Hv. destruct reg as [c m], reg' as [c' m']. cbn in Hc. f_equal; [done|]. apply map_eq.
  assert (∀ i r, m !! i = Some r ↔ m' !! i = Some r) as Hm; [|by intros i; apply option_eq].
  intros i r. pose proof (elem_of_values _ rank Hwf r) as H1r. pose proof (elem_of_values _ rank' Hwf' r) as H2r.
  rewrite Hv in H1r. unfold in_reg in *. cbn [records] in *. split; intros Hi.
  - pose proof (wf_key _ _ Hwf _ _ Hi) as <-. by apply H2r, H1r.
  - pose proof (wf_key _ _ Hwf' _ _ Hi) as <-. by apply H1r, H2r.
Qed.
End stored.

(** ** The three copies *)

Section node.
Context `{!Crypto} `{!Authorization.Postcard} `{!AdmissionCrypto} `{!LibP2p} `{!Network, !NetworkLaws} `{!Hex, !HexLaws}.
Context `{!Serialize LinkStateBody} `{!Serialize LinkStateRecord}.
Context `{!Redb, !RedbLaws} `{!Tables.Postcard AuthorizationRecord, !PostcardLaws AuthorizationRecord} `{!ErrorTexts}.
Context `{!Serialize AdmissionRequest} `{!Serialize AdmissionResponse}.
Context `{!Serialize (list AuthorizationRecord)} `{!Serialize RegistryResponse}.
Implicit Types self : OverlayNode.

Definition held self : AuthorizationRegistry := registry (enrollment self).

Record consistent self : Prop := {
  co_enrollment : wf_enrollment (enrollment self);
  co_actor : enforced (actor self) = held self;
  co_store : stored (held self) (store self);
}.

(** A step of a consistent node: it stays consistent, its registry only grows. *)
Definition evolves self self' : Prop :=
  consistent self → consistent self' ∧ grows (held self) (held self') ∧ ov_identity self' = ov_identity self.

#[export] Instance evolves_preorder : PreOrder evolves.
Proof.
  split; [intros x Hx; split_and!; [done|apply grows_refl|done]|].
  intros x y z Hxy Hyz Hx. destruct (Hxy Hx) as (Hy & Gxy & Ixy). destruct (Hyz Hy) as (Hz & Gyz & Iyz).
  split_and!; [done|by eapply grows_trans|congruence].
Qed.

(** The same for steps whose walks could run out of fuel: they do not. *)
Definition proceeds {A} self (m : option A) (node : A → OverlayNode) : Prop :=
  consistent self → ∃ x, m = Some x ∧ evolves self (node x).

Lemma proceeds_Some {A} self (x : A) node : evolves self (node x) → proceeds self (Some x) node.
Proof. intros He _. eauto. Qed.

Lemma evolves_same self self' :
  enforced (actor self') = enforced (actor self) → enrollment self' = enrollment self →
  rows (store self') = rows (store self) → ov_identity self' = ov_identity self → evolves self self'.
Proof.
  intros Ha He Hs Hi [W A S]. unfold held in *. split_and!; [split|by rewrite He; apply grows_refl|done].
  - by rewrite He.
  - unfold held. by rewrite Ha, He.
  - unfold held. rewrite He. by eapply stored_rows.
Qed.

Lemma link_turn_evolves clock t self : is_commit t = false → evolves self (link_turn clock t self).
Proof.
  intros Ht. unfold link_turn. destruct (running self); [|reflexivity].
  pose proof (turn_registry clock t (actor self) Ht) as Hr. destruct (turn clock t (actor self)) as [a stop].
  by apply evolves_same.
Qed.

Lemma submit_evolves clock c self : is_commit (TCommand c) = false → evolves self (submit clock c self).
Proof. apply link_turn_evolves. Qed.

(** *** Commits *)

Lemma commit_registry_spec clock reply adopt reg rank self self' r :
  wf_registry reg rank → consistent self → commit_registry clock reply adopt reg self = (self', r) →
  enrollment self' = enrollment self ∧ ov_identity self' = ov_identity self ∧
  match r with
  | Ok _ => enforced (actor self') = reg ∧ stored reg (store self')
  | Err _ => enforced (actor self') = enforced (actor self) ∧ rows (store self') = rows (store self)
  end.
Proof.
  intros Hwf Hco. unfold commit_registry. destruct (running self) eqn:Hrun; [|by intros [= <- <-]]. cbv zeta.
  assert (∀ db p, enrollment (submit clock (CmdCommitAuthorization reg (negb adopt) p reply) (set_store db self))
      = enrollment self ∧ ov_identity (submit clock (CmdCommitAuthorization reg (negb adopt) p reply) (set_store db self))
      = ov_identity self ∧ store (submit clock (CmdCommitAuthorization reg (negb adopt) p reply) (set_store db self)) = db ∧
      enforced (actor (submit clock (CmdCommitAuthorization reg (negb adopt) p reply) (set_store db self))) =
      match validate_authorization reg (negb adopt) (actor self), p with Ok _, Ok _ => reg | _, _ => enforced (actor self) end)
    as Hsub.
  { intros db p. unfold submit, link_turn. cbn [running set_store actor]. rewrite Hrun.
    pose proof (commit_turn_registry clock reg (negb adopt) p reply (actor self)) as Hc.
    destruct (turn _ _ _) as [a stop]. by split_and!. }
  revert Hsub. generalize (validate_authorization reg (negb adopt) (actor self)). intros [u|e] Hsub.
  - pose proof (replace_stored reg rank (store self) Hwf) as Hw. unfold wp in Hw.
    destruct (NodeStores.replace record_text (values reg) (store self)) as [db [u'|e]]; intros [= <- <-];
      match goal with |- context [CmdCommitAuthorization _ _ ?p _] => destruct (Hsub db p) as (H1' & H2' & H3' & H4') end;
      rewrite H1', H2', H3', H4'; by split_and!.
  - intros [= <- <-].
    match goal with |- context [CmdCommitAuthorization _ _ ?p _] => destruct (Hsub (store self) p) as (H1' & H2' & H3' & H4') end.
    by rewrite H1', H2', H3', H4'.
Qed.

Lemma commit_enrollment_spec clock reply proposed self self' r :
  wf_enrollment proposed → grows (held self) (registry proposed) → consistent self →
  commit_enrollment clock reply proposed self = (self', r) →
  consistent self' ∧ ov_identity self' = ov_identity self ∧
  enrollment self' = (match r with Ok _ => proposed | Err _ => enrollment self end).
Proof.
  intros Hp Hg Hco. pose proof Hco as [W A S]. unfold commit_enrollment. case_decide as Hv.
  - intros [= <- <-]. split; [|done]. destruct W as [[rank Hwf] _ _], (we_registry _ Hp) as [rank' Hwf'].
    assert (held self = registry proposed) as Hr by (eapply values_inj; [done..|apply Hg|done]).
    split; [done|..]; unfold held; cbn; by rewrite <- Hr.
  - destruct (we_registry _ Hp) as [rank' Hwf'].
    destruct (commit_registry clock reply false (registry proposed) self) as [s1 [u|e]] eqn:Ec;
      intros [= <- <-]; destruct (commit_registry_spec _ _ _ _ _ _ _ _ Hwf' Hco Ec) as (He & Hi & Hx & Hy).
    + by split.
    + split; [|done]. by apply (evolves_same self s1 Hx He Hy Hi).
Qed.

Lemma commit_enrollment_evolves clock reply proposed self :
  (consistent self → wf_enrollment proposed ∧ grows (held self) (registry proposed)) →
  evolves self (commit_enrollment clock reply proposed self).1.
Proof.
  intros Hp Hco. destruct (Hp Hco) as [Hw Hg].
  destruct (commit_enrollment clock reply proposed self) as [self' r] eqn:Ec.
  destruct (commit_enrollment_spec _ _ _ _ _ _ Hw Hg Hco Ec) as (Hc & Hi & He). split_and!; [done| |done].
  unfold held. cbn [fst]. rewrite He. destruct r; [done|apply grows_refl].
Qed.

(** *** Handlers *)

Lemma merge_checkpoint_evolves clock reply rs self :
  proceeds self (merge_registry_checkpoint clock reply rs self) fst.
Proof.
  intros Hco. pose proof Hco as [W _ _].
  destruct (enroll_step_wf (enrollment self) (OpMerge rs) W I) as (en' & Hm & Hw & Hg).
  cbn [enroll_step] in Hm. unfold merge_registry_checkpoint.
  destruct (merge_checkpoint (enrollment self) rs) as [[proposed merged]|]; [|done].
  cbn in Hm. injection Hm as ->. cbn. destruct merged as [changed|e]; [|by eexists; split; [done|]].
  case_decide; [|by eexists; split; [done|]].
  assert (evolves self (commit_enrollment clock reply en' self).1) as He.
  { apply commit_enrollment_evolves. intros _. split; [done|]. by apply Hg. }
  destruct (commit_enrollment clock reply en' self) as [s1 [u|e]]; eexists; by split.
Qed.

(** What the answer to a checkpoint promises. *)
Lemma merge_checkpoint_applied clock reply rs self self' l changed :
  consistent self → merge_registry_checkpoint clock reply rs self = Some (self', (Applied l, changed)) →
  l = values (held self') ∧ ∀ r, r ∈ rs → is_Some (records (held self') !! id r).
Proof.
  intros Hco. pose proof Hco as [W _ _]. unfold merge_registry_checkpoint, merge_checkpoint.
  destruct (merge (registry (enrollment self)) rs) as [[reg [n|e]]|] eqn:Em; [|done|done]. cbn.
  destruct (we_registry _ W) as [rank Hwf].
  destruct (merge_grows _ _ _ _ _ Hwf Em) as [Hg [rank' Hwf']].
  unfold merge in Em. apply merge_loop_sound in Em as (k & -> & [_ _ _ Hk] & Hall).
  case_decide as Hn.
  - destruct (commit_enrollment _ _ _ _) as [s1 [u|e]] eqn:Ec; [|done]. intros [= <- <- <-].
    assert (wf_enrollment (with_registry (enrollment self) reg)) as Hw.
    { destruct W as [_ Hb Hp]. split; [by exists rank'|done|]. intros m p Hm. destruct (Hp m p Hm) as (? & ? & Hc).
      split_and!; [done|done|]. destruct Hg as [Hg _]. cbn. congruence. }
    destruct (commit_enrollment_spec _ _ _ _ _ _ Hw Hg Hco Ec) as (_ & _ & He). split; [done|].
    intros r Hr. unfold held. rewrite He. by apply Hall.
  - intros [= <- <- <-]. split; [done|]. intros r Hr. destruct (Hall r Hr) as [x Hx].
    assert (records (held self) = records reg) as ->; [|eauto]. destruct Hg as [_ Hg].
    apply map_subseteq_size_eq; [done|]. unfold held in *. rewrite Hk. lia.
Qed.

Lemma reply_evolves clock reply inbound p self :
  evolves self (send_reply_payload clock reply inbound p self).
Proof. unfold send_reply_payload. case_match; [by apply submit_evolves|done]. Qed.

Lemma send_reply_evolves {T} `{!Serialize T} clock reply inbound (x : T) self :
  evolves self (send_reply clock reply inbound x self).
Proof. unfold send_reply. case_match; [apply reply_evolves|done]. Qed.

Lemma request_envelope_evolves clock n c p b self : evolves self (request_envelope clock n c p b self).1.
Proof.
  unfold request_envelope. pose proof (keeps_registry _ _ (keeps_next_request_id (actor self))) as Hr.
  destruct (next_request_id (actor self)) as [a [rid|e]]; by apply evolves_same.
Qed.

Lemma broadcast_to_evolves clock p c nodes self : evolves self (broadcast_to clock p c nodes self).
Proof.
  revert self. induction nodes as [|n nodes IH]; intros self; cbn [broadcast_to]; [done|].
  pose proof (request_envelope_evolves clock n c Registry p self) as Hr.
  destruct (request_envelope _ _ _ _ _ _) as [s1 [[e|]|e]]; cbn [fst] in Hr; [|done..].
  etrans; [exact Hr|]. etrans; [|apply IH]. by apply evolves_same.
Qed.

Lemma broadcast_evolves clock self : evolves self (broadcast_checkpoint clock self).
Proof. unfold broadcast_checkpoint. cbv zeta. case_match; [apply broadcast_to_evolves|done]. Qed.

Lemma handle_registry_proceeds clock reply inbound self :
  proceeds self (handle_registry clock reply inbound self) (λ s, s).
Proof.
  unfold handle_registry. destruct (from_bytes _) as [rs|e];
    [|apply proceeds_Some, send_reply_evolves].
  intros Hco. destruct (merge_checkpoint_evolves clock reply rs self Hco) as ([s1 [resp ch]] & -> & He).
  cbn [mbind option_bind fst] in *. eexists. split; [done|]. etrans; [exact He|].
  etrans; [apply (send_reply_evolves clock reply inbound resp s1)|].
  destruct ch; [apply broadcast_evolves|done].
Qed.

Lemma admission_response_proceeds clock reply rng from request self :
  proceeds self (admission_response clock reply rng from request self) fst.
Proof.
  intros Hco. pose proof Hco as [W A S]. destruct request as [c|p]; cbn [admission_response].
  - destruct (begin_wf (enrollment self) c from (ov_identity self) rng W) as (en' & r & -> & Hw & Hr).
    cbn. eexists. split; [done|]. intros _. unfold held in *. cbn. rewrite Hr.
    split_and!; [split|apply grows_refl|done]; unfold held; cbn; by rewrite ?Hr.
  - destruct (enroll_step_wf (enrollment self) (OpProve p from (ov_identity self)) W I) as (en' & Hm & Hw & Hg).
    cbn [enroll_step] in Hm.
    destruct (enroll_with_join_key (enrollment self) p from (ov_identity self)) as [[proposed r]|]; [|done].
    cbn in Hm. injection Hm as ->. cbn. destruct r as [out|e]; [|by eexists; split; [done|]].
    assert (evolves self (commit_enrollment clock reply en' self).1) as He.
    { apply commit_enrollment_evolves. intros _. split; [done|]. by apply Hg. }
    destruct (commit_enrollment clock reply en' self) as [s1 [u|e]]; eexists; by split.
Qed.

Lemma handle_admission_proceeds clock reply rng inbound self :
  proceeds self (handle_admission clock reply rng inbound self) (λ s, s).
Proof.
  unfold handle_admission. destruct (from_bytes _) as [request|e]; [|by apply proceeds_Some].
  intros Hco. destruct (admission_response_proceeds clock reply rng (sender inbound) request self Hco)
    as ([s1 resp] & -> & He).
  cbn [mbind option_bind fst] in *. eexists. split; [done|]. etrans; [exact He|]. apply send_reply_evolves.
Qed.

Lemma proceeds_after self self' (m : option OverlayNode) :
  evolves self self' → proceeds self' m (λ s, s) → proceeds self m (λ s, s).
Proof.
  intros He Hm Hco. destruct (He Hco) as (Hco' & _). destruct (Hm Hco') as (x & Hx & Hx').
  exists x. split; [done|]. by etrans.
Qed.

Lemma dispatch_proceeds clock reply rng answer self :
  proceeds self (dispatch clock reply rng answer self) (λ s, s).
Proof.
  unfold dispatch. destruct (waiting _) as [|inbound rest]; [by apply proceeds_Some|]. cbv zeta.
  pose proof (link_turn_evolves clock TNextInbound self eq_refl) as Ht. revert Ht.
  generalize (link_turn clock TNextInbound self). intros s1 Ht. eapply proceeds_after; [exact Ht|].
  destruct (protocol _); try (by apply proceeds_Some);
    try (apply proceeds_Some; destruct answer; [apply reply_evolves|done]).
  - apply handle_admission_proceeds.
  - apply handle_registry_proceeds.
Qed.

Lemma registry_answer_proceeds clock reply answer self :
  proceeds self (registry_answer clock reply answer self) (λ s, s).
Proof.
  unfold registry_answer. destruct answer as [response|e]; [|by apply proceeds_Some].
  destruct (from_bytes _) as [[rs|reason]|e]; [|by apply proceeds_Some..].
  intros Hco. destruct (merge_checkpoint_evolves clock reply rs self Hco) as ([s1 x] & -> & He).
  cbn. eauto.
Qed.

Lemma gossip_evolves clock self : evolves self (registry_gossip clock self).
Proof.
  unfold registry_gossip. cbv zeta.
  match goal with |- evolves _ (if _ then broadcast_checkpoint _ ?s else _) => trans s; [by apply evolves_same|] end.
  case_match; [apply broadcast_evolves|done].
Qed.

Lemma send_outgoing_evolves clock reply self : evolves self (send_outgoing clock reply self).
Proof.
  unfold send_outgoing. destruct (outgoing self) as [|e rest]; [done|].
  trans (set_outgoing rest self); [by apply evolves_same|by apply submit_evolves].
Qed.

Lemma reconnect_evolves clock reply address self : evolves self (reconnect clock reply address self).1.
Proof.
  unfold reconnect. do 2 (case_match; [|done]). case_match; [|done]. cbn [fst]. by apply submit_evolves.
Qed.

(** *** Runs *)

(** What the tasks of a node do, and its link actor in between. *)
Inductive NodeStep : Type :=
| NLink (clock : Clock) (t : Turn)
| NDispatch (clock : Clock) (reply : ReplyId) (rng answer : option bytes)
| NGossip (clock : Clock)
| NOutgoing (clock : Clock) (reply : ReplyId)
| NAnswer (clock : Clock) (reply : ReplyId) (answer : result Envelope LinkError)
| NReconnect (clock : Clock) (reply : ReplyId) (address : Multiaddr).

Definition node_step (s : NodeStep) self : option OverlayNode :=
  match s with
  | NLink clock t => Some (link_turn clock t self)
  | NDispatch clock reply rng answer => dispatch clock reply rng answer self
  | NGossip clock => Some (registry_gossip clock self)
  | NOutgoing clock reply => Some (send_outgoing clock reply self)
  | NAnswer clock reply answer => registry_answer clock reply answer self
  | NReconnect clock reply address => Some (reconnect clock reply address self).1
  end.

Fixpoint node_run (steps : list NodeStep) self : option OverlayNode :=
  match steps with
  | [] => Some self
  | s :: steps => self ← node_step s self; node_run steps self
  end.

(** Commits reach the actor through [commit_registry] only. *)
Definition no_commit (s : NodeStep) : Prop :=
  match s with NLink _ t => is_commit t = false | _ => True end.

Lemma node_step_proceeds s self : no_commit s → proceeds self (node_step s self) (λ s, s).
Proof.
  destruct s; cbn [node_step no_commit]; intros Hs.
  - by apply proceeds_Some, link_turn_evolves.
  - apply dispatch_proceeds.
  - apply proceeds_Some, gossip_evolves.
  - apply proceeds_Some, send_outgoing_evolves.
  - apply registry_answer_proceeds.
  - apply proceeds_Some, reconnect_evolves.
Qed.

Lemma node_run_proceeds steps self : Forall no_commit steps → proceeds self (node_run steps self) (λ s, s).
Proof.
  intros Hall. revert self. induction Hall as [|s steps Hs _ IH]; intros self; cbn [node_run]; [by apply proceeds_Some|].
  intros Hco. destruct (node_step_proceeds s self Hs Hco) as (s1 & -> & He). cbn.
  by apply (proceeds_after self s1 _ He (IH s1)).
Qed.

Lemma start_consistent s boot first addresses key i reg rank db self :
  wf_registry reg rank → stored reg db → start_node s boot first addresses key i reg db = Ok self →
  consistent self ∧ held self = reg ∧ ov_identity self = i ∧ store self = db.
Proof.
  intros Hwf Hs. unfold start_node. destruct (start s i (new_config addresses) reg boot first) as [a|e] eqn:Ea; [|done].
  cbn. intros [= <-]. split_and!; [split|done..].
  - split; cbn; [by exists rank|rewrite map_size_empty; lia|]. intros n p Hp. by rewrite lookup_empty in Hp.
  - unfold start in Ea. destruct (listen_all _ _) as [s' [[]|]]; [|done]. cbn in Ea. by injection Ea as <-.
  - done.
Qed.

(** *** Boots *)

Lemma from_records_complete reg rank l :
  wf_registry reg rank → (∀ r, r ∈ l ↔ in_reg reg r) → from_records (reg_cluster_id reg) l = Some (Ok reg).
Proof.
  intros Hwf Hl. unfold from_records, merge.
  destruct (merge_loop_complete reg rank Hwf (length l) (Authorization.new (reg_cluster_id reg)) 0 l) as [n ->]; [done| | | |done].
  - split; [done|]. apply map_empty_subseteq.
  - intros r Hr. left. by apply Hl.
  - intros j x Hx. right. apply Hl. unfold in_reg. by rewrite (wf_key _ _ Hwf _ _ Hx).
Qed.

Lemma from_records_foreign cluster reg rank l :
  wf_registry reg rank → (∀ r, r ∈ l → in_reg reg r) → l ≠ [] → cluster ≠ reg_cluster_id reg →
  from_records cluster l = Some (Err (ForeignCluster cluster (reg_cluster_id reg))).
Proof.
  intros Hwf Hl Hne Hc. destruct l as [|r l]; [done|].
  assert (cluster_id r = reg_cluster_id reg) as Hr.
  { apply (validate_Ok reg r (wf_key _ _ Hwf)), (wf_valid _ _ Hwf (id r)), Hl. by left. }
  unfold from_records, merge. cbn [merge_loop length]. cbn [merge_pass]. unfold insert. cbn [mp_registry].
  assert (records (Authorization.new cluster) !! id r = None) as -> by apply lookup_empty.
  unfold validate. rewrite decide_True by (cbn; congruence). cbn. by rewrite Hr.
Qed.

Lemma find_fmap {A B} (f : A → B) (P : B → bool) l : find P (f <$> l) = f <$> find (P ∘ f) l.
Proof. induction l as [|x l IH]; cbn; [done|]. by destruct (P (f x)). Qed.

Lemma find_sorted {A} (R : relation A) (P : A → bool) l x y :
  StronglySorted R l → find P l = Some x → y ∈ l → P y = true → x = y ∨ R x y.
Proof.
  induction 1 as [|z l Hs IH Hall]; cbn; [done|]. destruct (P z) eqn:Hz.
  - intros [= <-] [->|Hy]%elem_of_cons Hp; [by left|]. right. rewrite Forall_forall in Hall. by apply Hall.
  - intros Hf [->|Hy]%elem_of_cons Hp; [congruence|]. by apply IH.
Qed.

Lemma find_root reg db :
  stored reg db → (∃ r, in_reg reg r ∧ is_root r = true) →
  ∃ r, find is_root (btree_values (in_store db)) = Some r ∧ in_reg reg r ∧ is_root r = true ∧
    ∀ x, in_reg reg x → is_root x = true → ord_le (record_text r) (record_text x).
Proof.
  intros Hs (r0 & Hin0 & Hroot0). unfold btree_values. rewrite find_fmap.
  assert (∀ x, in_reg reg x → (record_text x, x) ∈ btree_iter (in_store db)) as Hin.
  { intros x Hx. apply elem_of_btree_iter. by apply Hs. }
  destruct (find (is_root ∘ snd) (btree_iter (in_store db))) as [[k r]|] eqn:Hf.
  - pose proof Hf as [Hkr Hr]%find_some. apply list_elem_of_In, elem_of_btree_iter, Hs in Hkr as [Hkr ->].
    exists r. split_and!; [done|done|done|]. intros x Hx Hxr.
    destruct (find_sorted (key_le fst) (is_root ∘ snd) (btree_iter (in_store db)) _ (record_text x, x)
      (sort_by_key_sorted _ _) Hf (Hin x Hx) Hxr) as [E|E]; [|done].
    injection E as -> ->. done.
  - pose proof (find_none _ _ Hf (record_text r0, r0)) as Hno. rewrite <- list_elem_of_In in Hno.
    specialize (Hno (Hin r0 Hin0)). cbn in Hno. congruence.
Qed.

(** The boot reads the store and the identity file, and binds the one to the other. *)
Lemma boot_reads me kp dir reg b p i :
  stored reg (boot_store b) → (∃ r, in_reg reg r) →
  load (dir ++ ["node.identity"]) (boot_files b) = (p, Ok i) →
  wp (initialize_identity_and_registry me kp dir)
    (λ o b', rows (boot_store b') = rows (boot_store b) ∧
       ∃ l, l = btree_values (in_store (boot_store b)) ∧ l ≠ [] ∧ (∀ r, r ∈ l ↔ in_reg reg r) ∧
       o = reg ← registry_from_records l;
           Some (let? reg := reg in let? _ := bind_local_identity reg i in Ok (i, reg)))
    (λ e b', rows (boot_store b') = rows (boot_store b) ∧ ∃ f, e = OvStorage f) b.
Proof.
  intros Hs [r0 Hr0] Hload. unfold initialize_identity_and_registry, stored_records, on_store, NodeStores.authorization_records.
  wp_steps. eapply wp_mono; [apply list_spec|..].
  - intros l db [-> Hdb]. cbn [boot_store].
    set (l := btree_values _). assert (∀ r, r ∈ l ↔ in_reg reg r) as Hl.
    { intros r. unfold l. rewrite elem_of_btree_values. unfold stored, in_store in Hs. setoid_rewrite Hs. naive_solver. }
    assert (l ≠ []) as Hne by (intros E; apply Hl in Hr0; rewrite E in Hr0; by apply elem_of_nil in Hr0).
    rewrite decide_False by done. unfold resumed, on_files. wp_steps.
    unfold wp, zoom. cbn [boot_files]. rewrite Hload. cbn. split; [done|]. by exists l.
  - intros e db Hdb. split; [done|]. eauto.
Qed.
End node.

(** ** Properties *)

(** C6: a node that starts on the registry its store holds keeps the three copies of
    it together: after any turns of its link actor and of its tasks, with requests,
    checkpoints and admissions from anyone and with any storage faults, every task
    has run to its end, and the store, the link actor and the enrollment hold the
    same well-formed registry, which has every record it started with. *)
Theorem registry_durable `{!Crypto, !Authorization.Postcard, !AdmissionCrypto, !LibP2p, !Network, !NetworkLaws, !Hex, !HexLaws}
    `{!Serialize LinkStateBody, !Serialize LinkStateRecord}
    `{!Redb, !RedbLaws, !Tables.Postcard AuthorizationRecord, !PostcardLaws AuthorizationRecord, !ErrorTexts}
    `{!Serialize AdmissionRequest, !Serialize AdmissionResponse, !Serialize (list AuthorizationRecord),
      !Serialize RegistryResponse}
    s boot first addresses key i reg rank db self steps :
  wf_registry reg rank → stored reg db → start_node s boot first addresses key i reg db = Ok self →
  Forall no_commit steps →
  ∃ self', node_run steps self = Some self' ∧ ov_identity self' = i ∧
    enforced (actor self') = registry (enrollment self') ∧
    stored (registry (enrollment self')) (store self') ∧
    grows reg (registry (enrollment self')) ∧ (∃ rank', wf_registry (registry (enrollment self')) rank').
Proof.
  intros Hwf Hs Hstart Hsteps.
  destruct (start_consistent _ _ _ _ _ _ _ _ _ _ Hwf Hs Hstart) as (Hco & Hreg & Hi & _).
  destruct (node_run_proceeds steps self Hsteps Hco) as (self' & Hrun & He).
  destruct (He Hco) as ([W A S] & Hg & Hi'). exists self'. rewrite Hreg in Hg.
  split_and!; [done|congruence|done|done|done|apply W].
Qed.

(** A node that answers a checkpoint with [Applied] holds every record of it:
    in the registry its link actor enforces and, for the next boot, in its store;
    and the records of the answer are that registry. *)
Theorem applied_is_durable `{!Crypto, !Authorization.Postcard, !AdmissionCrypto, !LibP2p, !Network, !NetworkLaws, !Hex, !HexLaws}
    `{!Serialize LinkStateBody, !Serialize LinkStateRecord}
    `{!Redb, !RedbLaws, !Tables.Postcard AuthorizationRecord, !PostcardLaws AuthorizationRecord, !ErrorTexts}
    clock reply rs self self' l changed :
  consistent self → merge_registry_checkpoint clock reply rs self = Some (self', (Applied l, changed)) →
  l = values (enforced (actor self')) ∧
  ∀ r, r ∈ rs → ∃ x, id x = id r ∧ records (enforced (actor self')) !! id r = Some x ∧
    in_store (store self') !! record_text r = Some x.
Proof.
  intros Hco Hm. destruct (merge_checkpoint_applied _ _ _ _ _ _ _ Hco Hm) as [-> Hall].
  destruct (merge_checkpoint_evolves clock reply rs self Hco) as (x & Hx & He). rewrite Hm in Hx. injection Hx as <-.
  destruct (He Hco) as ([W A S] & _). cbn [fst] in *. unfold held in *. rewrite A. split; [done|].
  intros r Hr. destruct (Hall r Hr) as [x Hx]. destruct (we_registry _ W) as [rank Hwf].
  pose proof (wf_key _ _ Hwf _ _ Hx) as Hid. exists x. split_and!; [done|done|].
  apply S. unfold in_reg. split; [by rewrite Hid|]. unfold record_text. by rewrite Hid.
Qed.


(** C37: a record without an authorizer that belongs to another node than the
    founder, and sorts before the founder's in the store, ends the restarts of
    every node that holds it: the boot takes its node for the founder and refuses
    the whole store as a foreign cluster's. *)
Theorem foreign_root_blocks_restart
    `{!Crypto, !Authorization.Postcard, !AdmissionCrypto, !LibP2p, !Network, !NetworkLaws, !Hex, !HexLaws}
    `{!Serialize LinkStateBody, !Serialize LinkStateRecord}
    `{!Redb, !RedbLaws, !Tables.Postcard AuthorizationRecord, !PostcardLaws AuthorizationRecord}
    me kp dir self b p i x :
  consistent self → rows (boot_store b) = rows (store self) →
  in_reg (held self) x → is_root x = true → from_genesis (node_id x) ≠ reg_cluster_id (held self) →
  (∀ y, in_reg (held self) y → is_root y = true → ord_le (record_text x) (record_text y)) →
  load (dir ++ ["node.identity"]) (boot_files b) = (p, Ok i) →
  wp (initialize_identity_and_registry me kp dir)
    (λ o _, o = Some (Err (OvAuthorization
       (ForeignCluster (from_genesis (node_id x)) (reg_cluster_id (held self))))))
    (λ e _, ∃ f, e = OvStorage f) b.
Proof.
  intros [W A S] Hrows Hx Hxr Hne Hleast Hload. destruct (we_registry _ W) as [rank Hwf].
  assert (stored (held self) (boot_store b)) as Hs by by eapply stored_rows.
  eapply wp_mono; [apply (boot_reads me kp dir _ b p i Hs (ex_intro _ x Hx) Hload)| |by intros e b' [_ He]].
  intros o b' (_ & l & -> & Hl0 & Hl & ->).
  destruct (find_root (held self) (boot_store b) Hs) as (y & Hy & Hin & Hroot & Hfirst); [by exists x|].
  assert (y = x) as ->.
  { eapply in_reg_inj; [done..|]. apply record_text_inj. apply (anti_symm ord_le); auto. }
  unfold registry_from_records. rewrite Hy, (from_records_foreign _ (held self) rank); [done..| |done|done].
  intros r. apply Hl.
Qed.

(** ** A concrete node

    The founder [z] has admitted [m]; a stranger knows their records. *)

#[local] Existing Instance toy_crypto.
#[local] Existing Instance Authorization.toy_postcard.
#[local] Existing Instance toy_libp2p.
#[local] Existing Instance toy_swarm.
#[local] Existing Instance toy_swarm_laws.
#[local] Existing Instance toy_body_serialize.
#[local] Existing Instance toy_record_serialize.
#[local] Existing Instance toy_redb.
#[local] Existing Instance toy_redb_laws.

(** Every character twice. *)
Fixpoint twice (s : string) : string :=
  match s with EmptyString => EmptyString | String c s => String c (String c (twice s)) end.
Fixpoint half (s : string) : string :=
  match s with String c (String _ s) => String c (half s) | _ => EmptyString end.

#[local] Instance double_hex : Hex := {| hex_encode := twice; hex_decode := λ s, Ok (half s) |}.
#[local] Instance double_hex_laws : HexLaws.
Proof.
  split; cbn.
  - induction b as [|c b IH]; cbn; [done|]. rewrite IH. done.
  - induction b as [|c b IH]; cbn; [done|]. injection IH as ->. done.
Qed.

Definition founder : @NodeIdentity toy_crypto := toy_identity "z".
Definition member : @NodeIdentity toy_crypto := toy_identity "m".

Definition founding : AuthorizationRecord :=
  force (match genesis founder with Ok p => Ok p.2 | Err e => Err e end).
Definition admission : AuthorizationRecord :=
  force (admit_record (cluster_id founding) (public_identity member) founding founding founder).

Definition small_registry : AuthorizationRegistry :=
  (insert (insert (Authorization.new (cluster_id founding)) founding).1 admission).1.

Lemma small_registry_wf : ∃ rank, wf_registry small_registry rank.
Proof.
  destruct (wf_insert _ _ founding (wf_new (cluster_id founding))) as [rank Hw].
  exact (wf_insert _ _ admission Hw).
Qed.

(** The stranger has a key [n] and puts it in place of the member's. *)
Definition stranger : @NodeIdentity toy_crypto :=
  mkNodeIdentity (node_id admission) (initial_public_key admission) (toy_keypair "n").
Definition forged : AuthorizationRecord :=
  force (sign_record (set_retires (mkRetired (id admission) (id admission)) (successor_body admission stranger Recover)) stranger).

(** A serializer for the values of a list: their positions, in unary. *)
Fixpoint unary (n : nat) : bytes := match n with O => EmptyString | S n => String.append "1" (unary n) end.

Lemma unary_length n : String.length (unary n) = n.
Proof.
  induction n as [|n IH]; [done|]. change (unary (S n)) with (String.append "1" (unary n)).
  by rewrite string_length_app, IH.
Qed.

Definition listed {T} `{EqDecision T} (l : list T) : Tables.Postcard T := {|
  Tables.to_stdvec := λ x, match list_find (x =.) l with Some (i, _) => Ok (unary i) | None => Err "unknown" end;
  Tables.from_bytes := λ b, ok_or (l !! String.length b) "unknown";
|}.

Lemma listed_laws {T} `{EqDecision T} (l : list T) : @PostcardLaws T (listed l).
Proof.
  constructor. intros x b. cbn. destruct (list_find (x =.) l) as [[i y]|] eqn:Hf; [|done]. intros [= <-].
  apply list_find_Some in Hf as (Hi & -> & _). by rewrite unary_length, Hi.
Qed.

#[local] Instance small_records : Tables.Postcard AuthorizationRecord := listed [founding; admission; forged].
#[local] Instance small_records_laws : PostcardLaws AuthorizationRecord := listed_laws [founding; admission; forged].

#[local] Instance small_texts : ErrorTexts := {|
  storage_text := λ _, "storage"; admission_text := λ _, "admission"; authorization_text := λ _, "authorization"; response_text := λ _, "answer";
|}.
#[local] Instance small_requests : Serialize AdmissionRequest := {| to_stdvec := λ _, Ok "q"; from_bytes := λ _, Err "q" |}.
#[local] Instance small_responses : Serialize AdmissionResponse := {| to_stdvec := λ _, Ok "r"; from_bytes := λ _, Err "r" |}.
#[local] Instance small_checkpoints : Serialize (list AuthorizationRecord) :=
  {| to_stdvec := λ _, Ok "c"; from_bytes := λ _, Ok [forged] |}.
#[local] Instance small_answers : Serialize RegistryResponse := {| to_stdvec := λ _, Ok "s"; from_bytes := λ _, Err "s" |}.

Definition empty_store : @Database toy_redb := mkToy ∅ [].
Definition full_store : Database := (NodeStores.replace record_text (values small_registry) empty_store).1.

Lemma full_store_holds : stored small_registry full_store.
Proof.
  destruct small_registry_wf as [rank Hwf].
  pose proof (replace_stored small_registry rank empty_store Hwf) as Hw. unfold wp in Hw.
  unfold full_store. assert (is_ok (NodeStores.replace record_text (values small_registry) empty_store).2 = true)
    as Hok by (vm_compute; reflexivity).
  destruct (NodeStores.replace record_text (values small_registry) empty_store) as [db [u|e]]; [exact Hw|done].
Qed.

Definition no_node : OverlayNode :=
  mkOverlay toy_actor false (toy_identity "x") (new_enrollment small_registry None) full_store [] [].

Definition first_node : OverlayNode :=
  match start_node (0%nat, ∅) "boot" 0 ["tcp"] None founder small_registry full_store with
  | Ok self => self
  | Err _ => no_node
  end.

Lemma first_start : start_node (0%nat, ∅) "boot" 0 ["tcp"] None founder small_registry full_store = Ok first_node.
Proof. reflexivity. Qed.

Lemma first_consistent : consistent first_node ∧ held first_node = small_registry ∧ store first_node = full_store.
Proof.
  destruct small_registry_wf as [rank Hwf].
  destruct (start_consistent _ _ _ _ _ _ _ rank _ _ Hwf full_store_holds first_start) as (Hc & Hh & _ & Hst).
  exact (conj Hc (conj Hh Hst)).
Qed.

(** The member connects and sends a checkpoint with the forged record. *)
Definition small_call : Envelope :=
  mkEnvelope (mkHeader 1 (cluster_id founding) "c1" (node_id admission) (ni_node_id founder) Registry Request 1000 4) "c".
Definition small_steps : list NodeStep :=
  [NLink (mkClock 10 10) (TEvent (ConnectionEstablished "pm" 1 (Dialer "tcp")));
   NLink (mkClock 20 20) (TEvent (Messaging (MsgRequest "pm" 1 small_call 1)));
   NDispatch (mkClock 30 30) 1 None None].

Lemma small_run_takes :
  (λ self, bool_decide (records (held self) !! id forged = Some forged)) <$> node_run small_steps first_node = Some true.
Proof. vm_compute. reflexivity. Qed.

Lemma registry_durable_witness :
  ∃ self', node_run small_steps first_node = Some self' ∧ stored (held self') (store self') ∧
    records (held self') !! id forged = Some forged.
Proof.
  destruct small_registry_wf as [rank Hwf].
  destruct (registry_durable _ _ _ _ _ _ _ rank _ _ small_steps Hwf full_store_holds first_start)
    as (self' & Hrun & _ & _ & Hs & _).
  - repeat (apply Forall_cons; split; [first [exact I|reflexivity]|]). apply Forall_nil. exact I.
  - exists self'. split; [exact Hrun|]. split; [exact Hs|].
    pose proof small_run_takes as Ht. rewrite Hrun in Ht. injection Ht as Ht. by apply bool_decide_eq_true in Ht.
Defined.

Definition forged_merge : option (OverlayNode * (RegistryResponse * bool)) :=
  merge_registry_checkpoint (mkClock 30 30) 1 [forged] first_node.
Definition forged_node : OverlayNode := match forged_merge with Some p => p.1 | None => no_node end.

Lemma forged_merge_applied :
  match forged_merge with Some (_, (Applied _, _)) => true | _ => false end = true.
Proof. vm_compute. reflexivity. Qed.

Lemma forged_merge_cases : ∃ l changed, forged_merge = Some (forged_node, (Applied l, changed)).
Proof.
  pose proof forged_merge_applied as Ha. unfold forged_node. revert Ha. generalize forged_merge.
  intros [[self [[l|reason] changed]]|] Ha; [|discriminate Ha..]. exists l, changed. reflexivity.
Qed.

Lemma applied_is_durable_witness : ∃ x, id x = id forged ∧ in_store (store forged_node) !! record_text forged = Some x.
Proof.
  destruct forged_merge_cases as (l & changed & Hm). unfold forged_merge in Hm.
  destruct (applied_is_durable (mkClock 30 30) 1 [forged] first_node forged_node l changed (proj1 first_consistent) Hm)
    as (_ & Hall).
  destruct (Hall forged) as (x & Hid & _ & Hx); [apply list_elem_of_singleton; reflexivity|].
  exact (ex_intro _ x (conj Hid Hx)).
Defined.

(** The node's identity file, and a boot on it. *)
Definition identity_bytes : bytes := match encode_document founder with Ok b => b | Err _ => "" end.
Definition identity_files : Process :=
  mkProcess (mkFileSystem {[ ["data"] ]} {[["data"; "node.identity"] := 0%nat]} ∅ {[0%nat := identity_bytes]} {[0%nat]} ∅)
    [] [] [].

Lemma identity_loads : ∃ p, load (["data"] ++ ["node.identity"]) identity_files = (p, Ok founder).
Proof. eexists. vm_compute. reflexivity. Qed.

Lemma small_roots : forallb (λ r, negb (is_root r) || bool_decide (r = founding)) (values small_registry) = true.
Proof. vm_compute. reflexivity. Qed.

Lemma small_root r : in_reg small_registry r → is_root r = true → r = founding.
Proof.
  destruct small_registry_wf as [rank Hwf]. intros Hin%(elem_of_values _ rank Hwf) Hr.
  pose proof small_roots as Hall. rewrite forallb_forall in Hall.
  apply list_elem_of_In, Hall in Hin. rewrite Hr in Hin. by apply bool_decide_eq_true in Hin.
Qed.

Lemma founding_in : in_reg small_registry founding.
Proof. vm_compute. reflexivity. Qed.

Lemma first_rows : rows full_store = rows (store first_node).
Proof. destruct first_consistent as (_ & _ & ->). reflexivity. Qed.

Lemma first_root : in_reg (held first_node) founding ∧ is_root founding = true ∧
  ∀ r, in_reg (held first_node) r → is_root r = true → from_genesis (node_id r) = reg_cluster_id (held first_node).
Proof.
  destruct first_consistent as (_ & -> & _). split; [exact founding_in|]. split; [vm_compute; reflexivity|].
  intros r Hin Hr. rewrite (small_root r Hin Hr). vm_compute. reflexivity.
Qed.


Lemma forged_facts :
  bool_decide (records (held forged_node) = <[id forged := forged]> (records small_registry)) = true.
Proof. vm_compute. reflexivity. Qed.

Lemma forged_in r : in_reg (held forged_node) r ↔ r = forged ∨ in_reg small_registry r.
Proof.
  unfold in_reg. rewrite (bool_decide_eq_true_1 _ forged_facts).
  assert (records small_registry !! id forged = None) as Hn by (vm_compute; reflexivity).
  rewrite lookup_insert_Some. split; [intros [[_ ->]|[_ Hr]]; auto|].
  intros [->|Hr]; [by left|]. right. split; [|done]. intros E. rewrite <- E, Hn in Hr. discriminate Hr.
Qed.

Lemma forged_consistent : consistent forged_node.
Proof.
  destruct forged_merge_cases as (l & changed & Hm). unfold forged_merge in Hm.
  destruct (merge_checkpoint_evolves (mkClock 30 30) 1 [forged] first_node (proj1 first_consistent)) as (x & Hx & He).
  rewrite Hm in Hx. injection Hx as <-. exact (proj1 (He (proj1 first_consistent))).
Qed.

Lemma forged_cluster : reg_cluster_id (held forged_node) = cluster_id founding.
Proof. vm_compute. reflexivity. Qed.

Lemma forged_first : in_reg (held forged_node) forged ∧ is_root forged = true ∧
  from_genesis (node_id forged) ≠ reg_cluster_id (held forged_node) ∧
  ∀ y, in_reg (held forged_node) y → is_root y = true → ord_le (record_text forged) (record_text y).
Proof.
  rewrite forged_cluster. split_and!.
  - apply forged_in. by left.
  - vm_compute. reflexivity.
  - apply (bool_decide_eq_true_1 _). vm_compute. reflexivity.
  - intros y [->|Hin]%forged_in Hy; [reflexivity|]. rewrite (small_root y Hin Hy).
    apply (bool_decide_eq_true_1 _). vm_compute. reflexivity.
Qed.

(** The founder cannot restart once it has merged the forged record. *)
Lemma foreign_root_blocks_restart_witness :
  wp (initialize_identity_and_registry 1 (toy_keypair "w") ["data"])
    (λ o _, o = Some (Err (OvAuthorization
       (ForeignCluster (from_genesis (node_id forged)) (reg_cluster_id (held forged_node))))))
    (λ e _, ∃ f, e = OvStorage f) (mkBoot identity_files (store forged_node)).
Proof.
  destruct forged_first as (Hin & Hr & Hne & Hleast). destruct identity_loads as [p Hl].
  exact (foreign_root_blocks_restart 1 (toy_keypair "w") ["data"] forged_node
    (mkBoot identity_files (store forged_node)) p founder forged forged_consistent eq_refl Hin Hr Hne Hleast Hl).
Defined.
