(* ===== verification/Joining.v ===== *)
(** * Joining a cluster

    The two ends of [OverlayNode]'s join put together: what the candidate asks,
    what the sponsor answers, and what both hold afterwards; and that a join that
    fails leaves the node as it was. *)

From S2P Require Import Prelude.
From S2P Require Import Effects.
From S2P Require Import Tables.
From S2P Require Import NodeStores.
From S2P Require Import Identity.
From S2P Require Import Authorization.
From S2P Require Import Protocol.
From S2P Require Import Effective.
From S2P Require Import Replication.
From S2P Require Import Trust.
From S2P Require Import Routing.
From S2P Require Import Directory.
From S2P Require Import Admission.
From S2P Require Import LinkState.
From S2P Require Import Link.
From S2P Require Import LinkInvariant.
From S2P Require Import LinkTheorems.
From S2P Require Import OverlayNode.
From S2P Require Import OverlayTheorems.

#[local] Open Scope Z_scope.

Section validation.
Context `{!Crypto} `{!Authorization.Postcard} `{!AdmissionCrypto}.

Lemma from_records_wf cluster rs :
  ∃ res, from_records cluster rs = Some res ∧
    ∀ reg, res = Ok reg → reg_cluster_id reg = cluster ∧ ∃ rank, wf_registry reg rank.
Proof.
  unfold from_records. destruct (merge (Authorization.new cluster) rs) as [[reg [n|e]]|] eqn:Em.
  - exists (Ok reg). split; [done|]. intros reg' [= <-].
    destruct (merge_grows _ _ _ _ _ (wf_new cluster) Em) as [[Hc _] Hw]. done.
  - exists (Err e). by split.
  - exfalso. revert Em. by apply merge_loop_total.
Qed.

(** What the joiner knows of a registry it accepts. *)
Lemma validate_for_spec o c ch peer :
  ∃ res, validate_for o c ch peer = Some res ∧
    ∀ reg, res = Ok reg → reg_cluster_id reg = ch_cluster_id ch ∧ (∃ rank, wf_registry reg rank) ∧
      node_for_peer reg peer = Some (sponsor_node_id ch) ∧
      (∃ r, status reg (candidate_node c) = Some (Active r)) ∧
      active_peer_for_node peer_id_from_bytes reg (candidate_node c) = Some (pi_peer_id (c_identity c)).
Proof.
  unfold validate_for. case_decide; [eexists; by split|].
  destruct (from_records_wf (ch_cluster_id ch) (ao_records o)) as (res & -> & Hwf). cbn.
  eexists. split; [done|]. intros reg. rewrite result_bind_Ok. intros (reg0 & Hreg & Hx).
  destruct res as [reg1|e]; [|done]. injection Hreg as ->. destruct (Hwf _ eq_refl) as [Hc Hw].
  rewrite result_bind_Ok in Hx. destruct Hx as (sponsor & Hs%ok_or_Ok & Hx). case_decide as Hsp; [done|].
  rewrite result_bind_Ok in Hx. destruct Hx as (r & Hr%ok_or_Ok & Hx).
  rewrite result_bind_Ok in Hx. destruct Hx as (p & Hp%ok_or_Ok & Hx).
  case_decide; [done|]. case_match; [done|]. case_decide as Hpeer; [done|]. injection Hx as ->.
  subst sponsor p.
  apply active_record_Some in Hr. split_and!; [done|done|done|by exists r|done].
Qed.
End validation.

Section join.
Context `{!Crypto} `{!CryptoLaws} `{!Authorization.Postcard} `{!AdmissionCrypto} `{!AdmissionLaws} `{!LibP2p}
  `{!Network, !NetworkLaws} `{!Hex, !HexLaws}.
Context `{!Serialize LinkStateBody} `{!Serialize LinkStateRecord}.
Context `{!Redb, !RedbLaws} `{!Tables.Postcard AuthorizationRecord, !PostcardLaws AuthorizationRecord} `{!ErrorTexts}.
Context `{!Serialize AdmissionRequest} `{!Serialize AdmissionResponse}.
Implicit Types self : OverlayNode.

(** *** The requests *)

Lemma join_dial_evolves clock reply address self : evolves self (join_dial clock reply address self).1.
Proof. unfold join_dial. case_match; [by apply submit_evolves|done]. Qed.

Lemma admission_request_evolves clock reply sponsor n c request self :
  evolves self (admission_request clock reply sponsor n c request self).1.
Proof.
  unfold admission_request. destruct (to_stdvec request) as [p|e]; [|done].
  pose proof (request_envelope_evolves clock n c Protocol.Admission p self) as He.
  destruct (request_envelope _ _ _ _ _ _) as [s1 [[e|]|e]]; cbn [fst] in *; [|done..].
  etrans; [exact He|]. by apply submit_evolves.
Qed.

Lemma join_begin_evolves clock reply rng sponsor self : evolves self (join_begin clock reply rng sponsor self).1.
Proof.
  unfold join_begin. destruct (new_candidate _ _) as [c|e]; [|done].
  pose proof (admission_request_evolves clock reply sponsor zero_id zero_id (Begin c) self) as He.
  by destruct (admission_request _ _ _ _ _ _ _).
Qed.

Lemma join_prove_evolves clock reply key sponsor c answer self :
  evolves self (join_prove clock reply key sponsor c answer self).1.
Proof.
  unfold join_prove. destruct (challenged key c answer) as [[ch p]|e]; [|done].
  pose proof (admission_request_evolves clock reply sponsor (sponsor_node_id ch) (ch_cluster_id ch) (Prove p) self) as He.
  by destruct (admission_request _ _ _ _ _ _ _).
Qed.

(** *** The adoption *)

Lemma admitted_registry_spec sponsor c ch answer :
  ∃ res, admitted_registry sponsor c ch answer = Some res ∧
    ∀ reg, res = Ok reg → ∃ n o, admission_answer answer = Ok (n, AdmittedOutcome o) ∧
      validate_for o c ch sponsor = Some (Ok reg).
Proof.
  unfold admitted_registry. destruct (admission_answer answer) as [[n [ch'|o|reason]]|e];
    try (eexists; by split).
  destruct (validate_for_spec o c ch sponsor) as (res & Hv & _). rewrite Hv. cbn. eexists. split; [done|].
  intros reg Hr. exists n, o. split; [done|]. destruct res; [|done]. by injection Hr as ->.
Qed.

(** Turns of the link actor between the commit and the adoption. *)
Definition link_turns (ts : list (Clock * Turn)) self : OverlayNode :=
  foldl (λ self t, link_turn t.1 t.2 self) self ts.

Definition commitless (ts : list (Clock * Turn)) : Prop := Forall (λ t, is_commit t.2 = false) ts.

Lemma link_turns_frame ts self :
  commitless ts → enforced (actor (link_turns ts self)) = enforced (actor self) ∧
  enrollment (link_turns ts self) = enrollment self ∧ store (link_turns ts self) = store self ∧
  ov_identity (link_turns ts self) = ov_identity self.
Proof.
  intros Hts. revert self. induction Hts as [|[clock t] ts Ht _ IH]; intros self; [done|].
  change (link_turns ((clock, t) :: ts) self) with (link_turns ts (link_turn clock t self)).
  destruct (IH (link_turn clock t self)) as (-> & -> & -> & ->). cbn [fst snd] in *. unfold link_turn.
  destruct (running self); [|done]. pose proof (turn_registry clock t (actor self) Ht) as Hr.
  by destruct (turn clock t (actor self)).
Qed.

Lemma join_commit_spec clock reply sponsor c ch answer self :
  consistent self →
  ∃ s1 res, join_commit clock reply sponsor c ch answer self = Some (s1, res) ∧ ov_identity s1 = ov_identity self ∧
    match res with
    | Ok reg =>
        (∃ n o, admission_answer answer = Ok (n, AdmittedOutcome o) ∧ validate_for o c ch sponsor = Some (Ok reg)) ∧
        ∀ ts, commitless ts → let s2 := join_adopt reg (link_turns ts s1) in
          consistent s2 ∧ held s2 = reg ∧ ov_identity s2 = ov_identity self
    | Err _ => consistent s1 ∧ held s1 = held self
    end.
Proof.
  intros Hco. unfold join_commit. destruct (admitted_registry_spec sponsor c ch answer) as (adm & -> & Hadm).
  cbn. destruct adm as [reg|e]; [|by eexists _, _]. destruct (Hadm reg eq_refl) as (n & o & Hans & Hv).
  destruct (validate_for_spec o c ch sponsor) as (res & Hv' & Hres). rewrite Hv in Hv'. injection Hv' as <-.
  destruct (Hres reg eq_refl) as (_ & [rank Hwf] & _).
  destruct (commit_registry clock reply true reg self) as [s1 [u|e]] eqn:Ec;
    destruct (commit_registry_spec _ _ _ _ _ _ _ _ Hwf Hco Ec) as (He & Hi & Hx & Hy);
    eexists _, _; (split; [done|]); cbn.
  - split; [done|]. split; [by exists n, o|]. intros ts Hts.
    destruct (link_turns_frame ts s1 Hts) as (Ha & Hen & Hst & Hid). unfold held, join_adopt. cbn.
    split_and!; [split|done|congruence]; cbn.
    + split; cbn; [by exists rank|rewrite map_size_empty; lia|]. intros m p Hm. by rewrite lookup_empty in Hm.
    + unfold held. cbn. congruence.
    + unfold held. cbn. by rewrite Hst.
  - split; [done|]. destruct (evolves_same self s1 Hx He Hy Hi Hco) as [Hc _]. split; [done|].
    unfold held. by rewrite He.
Qed.
End join.

Lemma begin_challenge `{!Crypto, !Authorization.Postcard, !AdmissionCrypto} en c peer sponsor rng en' ch :
  begin en c peer sponsor rng = Some (en', Ok ch) →
  sponsor_node_id ch = ni_node_id sponsor ∧ sponsor_peer_id ch = peer_id_bytes sponsor.
Proof.
  unfold begin. destruct (ensure_sponsor en sponsor); [|done]. destruct (ensure_authenticated_peer c peer); [|done].
  destruct (status _ _); [|done]. cbn. destruct (resume_of _ _ _ _); [|done]. case_decide; [done|].
  destruct (random_nonce rng); [|done]. by intros [= _ <-].
Qed.

(** Whatever a sponsor answers, a join is all or nothing. It always ends; if it
    fails, the node keeps the registry it had, in all three copies; if it succeeds,
    all three hold the sponsor's registry, a well-formed one of the challenge's
    cluster, in which the authenticated peer is the sponsor it claims to be and this
    node is active under its own peer id. *)
Theorem join_all_or_nothing `{!Crypto, !Authorization.Postcard, !AdmissionCrypto, !LibP2p, !Network, !NetworkLaws, !Hex, !HexLaws}
    `{!Serialize LinkStateBody, !Serialize LinkStateRecord}
    `{!Redb, !RedbLaws, !Tables.Postcard AuthorizationRecord, !PostcardLaws AuthorizationRecord}
    `{!Serialize AdmissionResponse, !ErrorTexts}
    clock reply sponsor c ch answer self ts :
  consistent self → commitless ts →
  ∃ s1 res, join_commit clock reply sponsor c ch answer self = Some (s1, res) ∧
    match res with
    | Err _ => consistent s1 ∧ held s1 = held self
    | Ok reg =>
        let s2 := join_adopt reg (link_turns ts s1) in
        consistent s2 ∧ held s2 = reg ∧ reg_cluster_id reg = ch_cluster_id ch ∧
        node_for_peer reg sponsor = Some (sponsor_node_id ch) ∧
        (∃ r, status reg (candidate_node c) = Some (Active r)) ∧
        active_peer_for_node peer_id_from_bytes reg (candidate_node c) = Some (pi_peer_id (c_identity c))
    end.
Proof.
  intros Hco Hts. destruct (join_commit_spec clock reply sponsor c ch answer self Hco) as (s1 & res & -> & _ & Hres).
  exists s1, res. split; [done|]. destruct res as [reg|e]; [|done]. destruct Hres as ((n & o & _ & Hv) & Hs2).
  destruct (Hs2 ts Hts) as (Hc & Hh & _). destruct (validate_for_spec o c ch sponsor) as (res & Hv' & Hreg).
  rewrite Hv in Hv'. injection Hv' as <-. by destruct (Hreg reg eq_refl) as (? & _ & ? & ? & ?).
Qed.


(** ** A concrete join

    The newcomer [a] runs a cluster of its own and joins the one of [z]. *)

#[local] Existing Instance toy_crypto.
#[local] Existing Instance Authorization.toy_postcard.
#[local] Existing Instance toy_libp2p.
#[local] Existing Instance toy_swarm.
#[local] Existing Instance toy_swarm_laws.
#[local] Existing Instance toy_body_serialize.
#[local] Existing Instance toy_record_serialize.
#[local] Existing Instance toy_redb.
#[local] Existing Instance toy_redb_laws.
#[local] Existing Instance double_hex.
#[local] Existing Instance double_hex_laws.
#[local] Existing Instance small_texts.

Definition newcomer : @NodeIdentity toy_crypto := toy_identity "a".
Definition candidate : AdmissionCandidate := mkCandidate (public_identity newcomer) "n1".
Definition own_founding : AuthorizationRecord :=
  force (match genesis newcomer with Ok p => Ok p.2 | Err e => Err e end).
Definition own_registry : AuthorizationRegistry := (insert (Authorization.new (cluster_id own_founding)) own_founding).1.

Lemma own_registry_wf : ∃ rank, wf_registry own_registry rank.
Proof. exact (wf_insert _ _ own_founding (wf_new (cluster_id own_founding))). Qed.

(** What the founder signs for it. *)
Definition newcomer_admission : AuthorizationRecord :=
  force (admit_record (cluster_id founding) (public_identity newcomer) founding admission founder).

#[local] Instance join_records : Tables.Postcard AuthorizationRecord :=
  listed [founding; admission; own_founding; newcomer_admission].
#[local] Instance join_records_laws : PostcardLaws AuthorizationRecord :=
  listed_laws [founding; admission; own_founding; newcomer_admission].

Definition stored_at (reg : AuthorizationRegistry) : Database := (NodeStores.replace record_text (values reg) empty_store).1.

Lemma stored_at_holds reg rank :
  wf_registry reg rank → is_ok (NodeStores.replace record_text (values reg) empty_store).2 = true → stored reg (stored_at reg).
Proof.
  intros Hwf Hok. pose proof (replace_stored reg rank empty_store Hwf) as Hw. unfold wp, stored_at in *.
  destruct (NodeStores.replace record_text (values reg) empty_store) as [db [u|e]]; [exact Hw|discriminate Hok].
Qed.

Definition node_on (i : NodeIdentity) (reg : AuthorizationRegistry) : OverlayNode :=
  match start_node (0%nat, ∅) "boot" 0 ["tcp"] (Some "key") i reg (stored_at reg) with
  | Ok self => self
  | Err _ => no_node
  end.

Lemma node_on_consistent i reg rank :
  wf_registry reg rank → is_ok (NodeStores.replace record_text (values reg) empty_store).2 = true →
  consistent (node_on i reg) ∧ held (node_on i reg) = reg ∧ ov_identity (node_on i reg) = i.
Proof.
  intros Hwf Hok. pose proof (stored_at_holds reg rank Hwf Hok) as Hs.
  assert (start_node (0%nat, ∅) "boot" 0 ["tcp"] (Some "key") i reg (stored_at reg) = Ok (node_on i reg)) as Hn by reflexivity.
  destruct (start_consistent _ _ _ _ _ _ _ rank _ _ Hwf Hs Hn) as (Hc & Hh & Hi & _). exact (conj Hc (conj Hh Hi)).
Qed.

Definition host : OverlayNode := node_on founder small_registry.
Definition guest : OverlayNode := node_on newcomer own_registry.

Lemma host_consistent : consistent host ∧ held host = small_registry ∧ ov_identity host = founder.
Proof.
  destruct small_registry_wf as [rank Hwf]. apply (node_on_consistent founder small_registry rank Hwf).
  vm_compute. reflexivity.
Qed.

Lemma guest_consistent : consistent guest ∧ held guest = own_registry ∧ ov_identity guest = newcomer.
Proof.
  destruct own_registry_wf as [rank Hwf]. apply (node_on_consistent newcomer own_registry rank Hwf).
  vm_compute. reflexivity.
Qed.

Definition small_challenge : AdmissionChallenge :=
  mkChallenge (cluster_id founding) (ni_node_id founder) (peer_id_bytes founder) "n2".
Definition grown_registry : AuthorizationRegistry := (insert small_registry newcomer_admission).1.
Definition small_outcome : AdmissionOutcome := mkOutcome newcomer_admission (values grown_registry).

#[local] Instance join_responses : Serialize AdmissionResponse := {|
  to_stdvec := λ r, match r with ChallengeResponse _ => Ok "c" | AdmittedOutcome _ => Ok "a" | Rejected _ => Err "rejected" end;
  from_bytes := λ b, if decide (b = "c") then Ok (ChallengeResponse small_challenge) else Ok (AdmittedOutcome small_outcome);
|}.

Definition answer_with (p : bytes) : result Envelope LinkError :=
  Ok (mkEnvelope (mkHeader 1 (cluster_id founding) "j1" (ni_node_id founder) (ni_node_id newcomer)
    Protocol.Admission Response 1000 0) p).

Lemma join_commits :
  match join_commit (mkClock 10 10) 1 (peer_id_bytes founder) candidate small_challenge (answer_with "a") guest with
  | Some (_, Ok _) => true | _ => false
  end = true.
Proof. vm_compute. reflexivity. Qed.

Lemma join_all_or_nothing_witness :
  ∃ s1 reg, join_commit (mkClock 10 10) 1 (peer_id_bytes founder) candidate small_challenge (answer_with "a") guest
    = Some (s1, Ok reg) ∧ consistent (join_adopt reg s1) ∧ reg_cluster_id reg = cluster_id founding.
Proof.
  destruct (join_all_or_nothing (mkClock 10 10) 1 (peer_id_bytes founder) candidate small_challenge (answer_with "a")
    guest [] (proj1 guest_consistent) (Forall_nil_2 _)) as (s1 & [reg|e] & Hj & Hres).
  - exists s1, reg. destruct Hres as (Hc & _ & Hid & _). exact (conj Hj (conj Hc Hid)).
  - exfalso. pose proof join_commits as Hok. rewrite Hj in Hok. discriminate Hok.
Defined.

Lemma host_sponsors :
  status small_registry (ni_node_id founder) = Some (Active founding) ∧ public_key founding = public_key_bytes founder ∧
  node_for_peer small_registry (peer_id_bytes founder) = Some (ni_node_id founder) ∧
  authorizer_head small_registry founding = Some (Ok admission).
Proof. split_and!; vm_compute; reflexivity. Qed.

Lemma newcomer_unknown :
  status small_registry (candidate_node candidate) = Some Unknown ∧
  admit_record (reg_cluster_id small_registry) (c_identity candidate) founding admission founder = Ok newcomer_admission ∧
  records small_registry !! id newcomer_admission = None ∧ is_initial_identity (c_identity candidate) = true ∧
  join_key (enrollment host) = Some "key" ∧ size (quarantined (enrollment host)) = 0%nat.
Proof. split_and!; vm_compute; reflexivity. Qed.

Lemma newcomer_valid : valid_public_identity (c_identity candidate).
Proof. vm_compute. reflexivity. Qed.

Lemma newcomer_peer_free m x : status small_registry m = Some (Active x) → peer_id x ≠ pi_peer_id (c_identity candidate).
Proof.
  intros Hst. destruct small_registry_wf as [rank Hwf].
  destruct (status_chain small_registry rank Hwf m _ x Hst (or_introl eq_refl)) as (Hin & _).
  apply (elem_of_values small_registry rank Hwf) in Hin.
  assert (forallb (λ r, negb (String.eqb (peer_id r) (pi_peer_id (c_identity candidate)))) (values small_registry) = true)
    as Hall by (vm_compute; reflexivity).
  rewrite forallb_forall in Hall. apply list_elem_of_In, Hall in Hin. intros E. rewrite E, String.eqb_refl in Hin. discriminate Hin.
Qed.

Definition small_proof : JoinProof :=
  match create_proof "key" candidate small_challenge with Ok p => p | Err _ => mkProof candidate small_challenge "" end.

Lemma small_proof_made : create_proof "key" candidate small_challenge = Ok small_proof.
Proof. vm_compute. reflexivity. Qed.

Definition challenges (x : OverlayNode * AdmissionResponse) : bool :=
  match x.2 with ChallengeResponse ch => bool_decide (ch = small_challenge) | _ => false end.
Definition admits (x : OverlayNode * AdmissionResponse) : bool :=
  match x.2 with
  | AdmittedOutcome o => bool_decide (ao_record o = newcomer_admission ∧ ao_records o = values grown_registry)
  | _ => false
  end.

Definition host_begun : option (OverlayNode * AdmissionResponse) :=
  admission_response (mkClock 0 0) 0 (Some "n2") (pi_peer_id (c_identity candidate)) (Begin candidate) host.
Definition host_proved (S1 : OverlayNode) : option (OverlayNode * AdmissionResponse) :=
  admission_response (mkClock 0 0) 0 None (pi_peer_id (c_identity candidate)) (Prove small_proof) S1.

Lemma host_challenges : challenges <$> host_begun = Some true.
Proof. vm_compute. reflexivity. Qed.

Lemma host_admits : (x ← host_begun; admits <$> host_proved x.1) = Some true.
Proof. vm_compute. reflexivity. Qed.

Lemma join_answers :
  admission_answer (answer_with "c") = Ok (ni_node_id founder, ChallengeResponse small_challenge) ∧
  admission_answer (answer_with "a") = Ok (ni_node_id founder, AdmittedOutcome small_outcome).
Proof. split; vm_compute; reflexivity. Qed.

