(* ===== verification/ClusterKey.v ===== *)
(** * The cluster key ([crates/core/src/cluster_key.rs])

    The secret the members of a cluster share: its text, its file, and the
    comparison that does not stop at the first difference. A key is a string of
    [KEY_LENGTH] bytes. *)

From Stdlib Require Import Ascii.
From S2P Require Import Prelude.
From S2P Require Import Effects.
From S2P Require Import ContentStores.
From S2P Require Import Identity.
From S2P Require Import PrivateFile.

#[local] Open Scope char_scope.
#[local] Open Scope string_scope.
#[local] Open Scope Z_scope.

Definition KEY_LENGTH : nat := 32.

Inductive ClusterKeyError : Type :=
| RandomGeneration
| InvalidHex
| InvalidLength
| KeyIo (e : IoFailure).

(** [PartialEq]: every pair of bytes is looked at. *)
Definition u8_of (c : ascii) : Z := Z.of_N (N_of_ascii c).

Fixpoint key_diff (diff : Z) (key other : bytes) : Z :=
  match key, other with
  | String l key, String r other => key_diff (Z.lor diff (Z.lxor (u8_of l) (u8_of r))) key other
  | _, _ => diff
  end.

Definition key_eqb (key other : bytes) : bool := bool_decide (key_diff 0 key other = 0).

(** [Debug] *)
Definition key_debug (key : bytes) : string := "ClusterKey([redacted])".

(** [SystemRandom::fill] of an array of [KEY_LENGTH] bytes, when it succeeds. *)
Definition generate (random : option bytes) : result bytes ClusterKeyError := ok_or random RandomGeneration.

Section hex.
Context `{!Hex}.

Definition from_hex (hex : string) : result bytes ClusterKeyError :=
  let? b := map_err (λ _, InvalidHex) (hex_decode hex) in
  if decide (String.length b = KEY_LENGTH) then Ok b else Err InvalidLength.

Definition to_hex (key : bytes) : string := hex_encode key.

(** [fs::read_to_string] *)
Definition read_to_string (path : Path) : M Process IoFailure string :=
  let! content := call nothing (os_read path) in
  if is_utf8 content then ret content else raise (IoOther "stream did not contain valid UTF-8").

(** [load]; blanks outside ASCII around the text are not trimmed here. *)
Definition load (path : Path) : M Process ClusterKeyError bytes :=
  let! content := with_err KeyIo (read_to_string path) in
  lift (from_hex (trim content)).

(** The content of the file of a key. *)
Definition key_text (key : bytes) : string := to_hex key +:+ String "010" EmptyString.

Definition save (me : Z) (key : bytes) (path : Path) : M Process ClusterKeyError () :=
  with_err KeyIo (write_private_file me path (key_text key)).

(** [load_cluster_key] of the daemon: a key that cannot be read is no key. *)
Definition load_cluster_key (path : Path) (w : Process) : Process * option bytes :=
  match found path (files w) with
  | None => (w, None)
  | Some _ => match load path w with (w, Ok key) => (w, Some key) | (w, Err _) => (w, None) end
  end.
End hex.

(** ** Comparison and text *)

Lemma u8_of_inj a b : u8_of a = u8_of b → a = b.
Proof.
  unfold u8_of. intros H%N2Z.inj. rewrite <- (ascii_N_embedding a), <- (ascii_N_embedding b). by rewrite H.
Qed.

Lemma key_diff_zero diff key other :
  String.length key = String.length other → key_diff diff key other = 0 ↔ diff = 0 ∧ key = other.
Proof.
  revert diff other. induction key as [|l key IH]; intros diff [|r other] Hl; try done; cbn [key_diff].
  - naive_solver.
  - rewrite IH by (cbn in Hl; lia). rewrite Z.lor_eq_0_iff, Z.lxor_eq_0_iff. split.
    + by intros [[-> ->%u8_of_inj] ->].
    + by intros [-> [= -> ->]].
Qed.

(** The comparison decides equality of keys. *)
Lemma key_eqb_spec key other :
  String.length key = KEY_LENGTH → String.length other = KEY_LENGTH → key_eqb key other = true ↔ key = other.
Proof.
  intros Hl Hr. unfold key_eqb. rewrite bool_decide_eq_true, key_diff_zero by congruence. naive_solver.
Qed.

Lemma from_hex_length `{!Hex} hex key : from_hex hex = Ok key → String.length key = KEY_LENGTH.
Proof. unfold from_hex. destruct (hex_decode hex); cbn; [|done]. case_decide; [congruence|done]. Qed.

Lemma from_hex_Ok `{!Hex} hex key :
  from_hex hex = Ok key ↔ hex_decode hex = Ok key ∧ String.length key = KEY_LENGTH.
Proof.
  unfold from_hex. destruct (hex_decode hex) as [b|e]; cbn; [|naive_solver]. case_decide; naive_solver.
Qed.

(** ** The file of a key *)

(** The digits of [hex]: no blank among them. *)
Fixpoint solid (s : string) : bool :=
  match s with EmptyString => true | String c s => negb (is_whitespace c) && solid s end.

Lemma trim_solid s : solid s = true → trim (s +:+ String "010" EmptyString) = s.
Proof.
  intros Hs. unfold trim.
  assert (trim_end (s +:+ String "010" EmptyString) = s) as He.
  { clear -Hs. induction s as [|c s IH]; [done|]. cbn in Hs. apply andb_true_iff in Hs as [Hc Hs].
    change (String c s +:+ String "010" EmptyString) with (String c (s +:+ String "010" EmptyString)).
    cbn [trim_end]. rewrite IH by done. destruct s; [|done]. by destruct (is_whitespace c). }
  destruct s as [|c s]; [done|]. cbn in Hs. apply andb_true_iff in Hs as [Hc _].
  change (String c s +:+ String "010" EmptyString) with (String c (s +:+ String "010" EmptyString)) in *.
  cbn [trim_start]. by destruct (is_whitespace c).
Qed.

Class HexText `{!Hex} : Prop := { hex_solid : ∀ b, solid (hex_encode b) = true }.

(** A key saved and loaded again is the same key. *)
Lemma key_round_trip `{!Hex, !HexLaws, !HexText} key :
  String.length key = KEY_LENGTH → from_hex (trim (key_text key)) = Ok key.
Proof.
  intros Hk. unfold key_text, to_hex. rewrite trim_solid by apply hex_solid.
  apply from_hex_Ok. split; [apply hex_round_trip|done].
Qed.
