(* ===== verification/Grpc.v ===== *)
(** * The gate of the RPC server ([crates/daemon/src/rpc/interceptor.rs])

    Every request a client sends to a daemon passes the interceptor, which
    compares the cluster key in its header with the key of the node. Statuses
    are tonic's, reduced to the codes the handlers produce. *)

From S2P Require Import Prelude.
From S2P Require Import Identity.
From S2P Require Import ClusterKey.

Inductive Code : Type :=
| InvalidArgument | NotFound | FailedPrecondition | DeadlineExceeded | UnavailableCode | Internal
| Unauthenticated | PermissionDenied.

Record Status : Type := mkStatus { code : Code; status_message : string }.

(** [MetadataValue::to_str], which refuses a value that is not visible ASCII. *)
Class HeaderText := { to_str : bytes → option string }.

Section gate.
Context `{!Hex, !HeaderText}.

Definition provided_key (header : option bytes) : option (result bytes ClusterKeyError) :=
  (λ value, let? text := ok_or (to_str value) InvalidHex in from_hex text) <$> header.

(** The closure of [cluster_key_interceptor]. *)
Definition cluster_key_interceptor (expected : option bytes) (header : option bytes) : result () Status :=
  match expected, provided_key header with
  | Some expected, Some (Ok provided) =>
      if key_eqb provided expected then Ok tt else Err (mkStatus PermissionDenied "cluster key mismatch")
  | Some _, Some (Err _) => Err (mkStatus PermissionDenied "invalid cluster key format")
  | Some _, None => Err (mkStatus Unauthenticated "missing cluster key")
  | None, _ =>
      Err (mkStatus FailedPrecondition
             "this node has not initialized a cluster key; run 'lycoris cluster init' first")
  end.

(** The header spells the key of the node. *)
Definition knows (expected header : option bytes) : Prop :=
  ∃ key value text, expected = Some key ∧ header = Some value ∧ to_str value = Some text ∧ hex_decode text = Ok key.

(** How a request without the key is refused. *)
Definition refusal (expected header : option bytes) : Code :=
  match expected, header with
  | None, _ => FailedPrecondition
  | Some _, None => Unauthenticated
  | Some _, Some _ => PermissionDenied
  end.

Lemma interceptor_spec expected header :
  (∀ key, expected = Some key → String.length key = KEY_LENGTH) →
  match cluster_key_interceptor expected header with
  | Ok _ => knows expected header
  | Err status => ¬ knows expected header ∧ code status = refusal expected header
  end.
Proof.
  intros Hwf. unfold cluster_key_interceptor, provided_key, refusal, knows.
  destruct expected as [key|]; [|split; [naive_solver|done]]. specialize (Hwf _ eq_refl).
  destruct header as [value|]; cbn; [|split; [naive_solver|done]].
  destruct (to_str value) as [text|] eqn:Ht; cbn; [|split; [naive_solver|done]].
  destruct (from_hex text) as [provided|e] eqn:Hf; cbn.
  - apply from_hex_Ok in Hf as [Hd Hl]. destruct (key_eqb provided key) eqn:Hk.
    + apply key_eqb_spec in Hk as ->; [|done..]. by exists key, value, text.
    + split; [|done]. intros (k & v & t & [= <-] & [= <-] & Ht' & Hd').
      assert (t = text) as -> by congruence. assert (provided = key) as -> by congruence.
      apply not_true_iff_false in Hk. by apply Hk, key_eqb_spec.
  - split; [|done]. intros (k & v & t & [= <-] & [= <-] & Ht' & Hd'). simplify_eq.
    assert (from_hex text = Ok key) by by apply from_hex_Ok. congruence.
Qed.
End gate.
