(* ===== verification/Listing.v ===== *)
(** * Reading resources ([crates/daemon/src/resource/mapper.rs], [rpc/resource.rs], [selector.rs])

    The reading half of the resource facade: [list] and [get] over every kind of
    resource, with the label selector and the scope filter. Nodes are those of
    the membership service, sessions and the versioned records those of the
    tables, memories those of their backend. The theorem says what the two
    operations show of a node, and that looking changes nothing. *)

From S2P Require Import Prelude.
From S2P Require Import Effects.
From S2P Require Import Versioned.
From S2P Require Import Tables.
From S2P Require Import NodeStores.
From S2P Require Import ContentStores.
From S2P Require Import Resources.
From S2P Require Import ResourceTheorems.
From S2P Require Import Register.
From S2P Require Import Membership.
From S2P Require Import Swim.
From S2P Require Import Merkle.
From S2P Require Import MerkleDiff.
From S2P Require Import Service.
From S2P Require Import Mapper.
From S2P Require Import MapperTheorems.
From S2P Require Import Exchange.
From S2P Require Import NodeProtocol.

#[local] Open Scope Z_scope.

(** ** Requests *)

(** What [parse_scope_filter] refuses. *)
Definition parse_scope_filter (raw : Z) : result (option ResourceScope) MapperError :=
  let? scope := ok_or (proto_scope_try_from raw) (UnknownScope raw) in
  Ok match scope with Unspecified => None | other => Some (scope_from_proto other) end.

(** [list_by_scope] and its async variant *)
Definition list_by_scope {A} (scope : option ResourceScope) (shared local all : A) : A :=
  match scope with
  | Some ClusterShared => shared
  | Some NodeLocal => local
  | None => all
  end.

Section reads.
Context `{!HashIter, !Redb, !Blake3, !Git}.
Context `{!Postcard VersionedResource, !Postcard WorkspaceRecord, !Postcard ExtensionRecord,
          !Postcard Resources.Session}.
Context {S : Type} (memory : MemoryStorage S) (data_dir : string).
Context (message : StorageError → string) (svc : MembershipService).

Abbreviation Mapper := (M (NodeState Database S) MapperError).

Definition collect_matching {T} (records : list T) (selector : gmap string string)
    (metadata : T → gmap string string) (to_resource : T → Resource) : list Resource :=
  to_resource <$> filter (λ record, matches_selector (metadata record) selector = true) records.

(** [agent().sessions()]: sessions are rows of the database. *)
Definition sessions {A} (context : string) (m : M Database AgentStorageError A) : Mapper A :=
  zoom store set_store (with_err (AgentFailure context) (in_db m)).

(** ** Skills and rules *)

Record VersionedAccess : Type := mkAccess {
  va_records : VersionedStorage (Store Database);
  va_content : VersionedContentStore (Store Database);
  get_context : string;
  read_content_context : string;
  list_context : string;
  list_shared_context : string;
}.

Definition versioned_access (kind : VersionedKind) : VersionedAccess :=
  match kind with
  | VSkill =>
      mkAccess skills (skill_content data_dir) "failed to get skill" "failed to read skill content"
        "failed to list skills" "failed to list shared skills"
  | VRule =>
      mkAccess rules (rule_content data_dir) "failed to get rule" "failed to read rule content"
        "failed to list rules" "failed to list shared rules"
  end.

Definition list_versioned (kind : VersionedKind) (selector : gmap string string) (scope : option ResourceScope)
    : Mapper (list Resource) :=
  let access := versioned_access kind in
  let! records := workspace (list_context access)
    (list_by_scope scope (vs_list_shared (va_records access)) (vs_list_local (va_records access))
       (vs_list (va_records access))) in
  ret (collect_matching records selector vr_metadata (λ r, versioned_to_resource r kind None)).

Definition get_versioned (kind : VersionedKind) (id : string) : Mapper Resource :=
  let access := versioned_access kind in
  let! record := workspace (get_context access) (vs_get (va_records access) id) in
  match record with
  | None => raise (NotFound id)
  | Some record =>
      let! content := workspace (read_content_context access) (cs_read (va_content access) id) in
      ret (versioned_to_resource record kind content)
  end.

(** ** Every kind *)

Definition list_memories (scope : option ResourceScope) : M S AgentStorageError (list MemoryEntry) :=
  list_by_scope scope (ms_list_shared memory) (ms_list_local memory) (ms_list memory).

Definition list_workspaces (scope : option ResourceScope)
    : M (Store Database) WorkspaceStorageError (list WorkspaceRecord) :=
  list_by_scope scope ws_list_shared ws_list_local ws_list.

Definition list_extensions (scope : option ResourceScope)
    : M (Store Database) ExtensionStorageError (list ExtensionRecord) :=
  list_by_scope scope ext_list_shared ext_list_local ext_list.

(** [ResourceMapper::list] *)
Definition list_resources (kind : ResourceKind) (selector : gmap string string) (scope : option ResourceScope)
    : Mapper (list Resource) :=
  match kind with
  | Node => ret ((λ r, node_to_resource (register_to_proto r)) <$> list_nodes svc selector)
  | Session =>
      let! found := sessions "failed to list sessions" (session_list message) in
      ret (collect_matching found selector se_metadata session_to_resource)
  | Memory =>
      let! entries := agent "failed to list memories" (list_memories scope) in
      ret (collect_matching entries selector me_metadata (λ e, memory_to_resource e false))
  | Skill => list_versioned VSkill selector scope
  | Rule => list_versioned VRule selector scope
  | Extension =>
      let! found := extension "failed to list extensions" (list_extensions scope) in
      ret (collect_matching found selector ex_labels (λ r, extension_to_resource r None))
  | Workspace =>
      let! found := workspace "failed to list workspaces" (list_workspaces scope) in
      ret (collect_matching found selector ws_metadata workspace_to_resource)
  end.

(** [ResourceMapper::get] *)
Definition get_resource (kind : ResourceKind) (id : string) : Mapper Resource :=
  match kind with
  | Node =>
      lift (ok_or
        ((λ r, node_to_resource (register_to_proto r)) <$>
           head (filter (λ r, node_id r = id) (list_nodes svc ∅)))
        (NotFound id))
  | Session =>
      let! found := sessions "failed to get session" (session_get message id) in
      lift (ok_or (session_to_resource <$> found) (NotFound id))
  | Memory =>
      let! entry := agent "failed to get memory" (ms_get memory id) in
      lift (ok_or ((λ e, memory_to_resource e true) <$> entry) (NotFound id))
  | Skill => get_versioned VSkill id
  | Rule => get_versioned VRule id
  | Extension =>
      let! found := extension "failed to get extension" (ext_get id) in
      let! record := lift (ok_or found (NotFound id)) in
      let! artifact := extension "failed to read extension artifact" (in_fs (blob_read (blobs_dir data_dir) id)) in
      ret (extension_to_resource record artifact)
  | Workspace =>
      let! found := workspace "failed to get workspace" (ws_get id) in
      lift (ok_or (workspace_to_resource <$> found) (NotFound id))
  end.
End reads.

(** ** What a node holds *)

(** A resource with what the filters look at, as a listing shows it and as a
    request for it alone does. *)
Record Entry : Type := mkEntry {
  en_id : string;
  en_labels : gmap string string;
  en_scope : option ResourceScope;
  en_listed : Resource;
  en_full : Resource;
}.

(** The listing of all memories and of the local ones. *)
Class MemoryReads {S} (memory : MemoryStorage S) (mems : S → gmap string MemoryEntry) := {
  ms_list_law s :
    wp (ms_list memory) (λ l s', mems s' = mems s ∧ ∀ e, e ∈ l ↔ ∃ id, mems s !! id = Some e)
      (λ _ s', mems s' = mems s) s;
  ms_list_filtered_law (sc : ResourceScope) s :
    wp (match sc with ClusterShared => ms_list_shared memory | NodeLocal => ms_list_local memory end)
      (λ l s', mems s' = mems s ∧ ∀ e, e ∈ l ↔ ∃ id, mems s !! id = Some e ∧ me_scope e = sc)
      (λ _ s', mems s' = mems s) s;
}.

Lemma matches_selector_spec `{!HashIter} (m selector : gmap string string) :
  matches_selector m selector = true ↔ selector ⊆ m.
Proof.
  unfold matches_selector. rewrite forallb_forall, map_subseteq_spec. split.
  - intros Ha k v Hk. assert (In (k, v) (hash_iter selector)) as Hin by by apply list_elem_of_In, elem_of_hash_iter.
    apply Ha, existsb_exists in Hin as ([k' v'] & Hin%list_elem_of_In & Hb).
    cbn in Hb. apply andb_true_iff in Hb as [->%bool_decide_eq_true ->%bool_decide_eq_true]. by apply elem_of_hash_iter in Hin.
  - intros Ha [k v] Hk%list_elem_of_In%elem_of_hash_iter%Ha. apply existsb_exists. exists (k, v). split.
    + by apply list_elem_of_In, elem_of_hash_iter.
    + cbn. by rewrite !bool_decide_eq_true_2.
Qed.

Lemma elem_of_list_nodes `{!HashIter} svc selector r :
  r ∈ list_nodes svc selector ↔ selector ⊆ labels r ∧ r ∈ active (membership_of svc).
Proof. unfold list_nodes. by rewrite list_elem_of_filter, matches_selector_spec. Qed.

(** The scope filter lets a record through. *)
Definition in_scope (filter : option ResourceScope) (s : ResourceScope) : Prop :=
  match filter with Some f => s = f | None => True end.

Definition visible (selector : gmap string string) (filter : option ResourceScope) (x : Entry) : Prop :=
  selector ⊆ en_labels x ∧ match en_scope x with Some s => in_scope filter s | None => True end.

Section reading.
Context `{!HashIter, !Redb, !RedbLaws, !Git, !GitLaws, !Blake3}.
Context `{!Postcard VersionedResource, !PostcardLaws VersionedResource}.
Context `{!Postcard WorkspaceRecord, !PostcardLaws WorkspaceRecord}.
Context `{!Postcard ExtensionRecord, !PostcardLaws ExtensionRecord}.
Context `{!Postcard Resources.Session, !PostcardLaws Resources.Session}.
Context {S : Type} (memory : MemoryStorage S) (mems : S → gmap string MemoryEntry).
Context `{!MemoryLaws memory mems, !MemoryReads memory mems}.
Context (data_dir : string) (message : StorageError → string) (svc : MembershipService).
Implicit Types n : NodeState Database S.

Definition entry_of_node (r : MemberRegister) : Entry :=
  let m := node_to_resource (register_to_proto r) in mkEntry (node_id r) (labels r) None m m.
Definition entry_of_session (id : string) (s : Resources.Session) : Entry :=
  mkEntry id (se_metadata s) None (session_to_resource s) (session_to_resource s).
Definition entry_of_memory (id : string) (e : MemoryEntry) : Entry :=
  mkEntry id (me_metadata e) (Some (me_scope e)) (memory_to_resource e false) (memory_to_resource e true).
Definition entry_of_versioned n (k : VersionedKind) (dir id : string) (r : VersionedResource) : Entry :=
  mkEntry id (vr_metadata r) (Some (vr_scope r)) (versioned_to_resource r k None)
    (versioned_to_resource r k (content_in dir toml (fs (store n)) id)).
Definition entry_of_workspace (id : string) (w : WorkspaceRecord) : Entry :=
  mkEntry id (ws_metadata w) (Some (ws_scope w)) (workspace_to_resource w) (workspace_to_resource w).
Definition entry_of_extension n (id : string) (r : ExtensionRecord) : Entry :=
  mkEntry id (ex_labels r) (Some (ex_scope r)) (extension_to_resource r None)
    (extension_to_resource r (artifact data_dir (store n) id)).

(** The resources of a kind a node holds. *)
Definition holds n (k : ResourceKind) (x : Entry) : Prop :=
  match k with
  | Node => ∃ r, r ∈ active (membership_of svc) ∧ x = entry_of_node r
  | Session => ∃ id s, view SESSIONS (db (store n)) !! id = Some s ∧ x = entry_of_session id s
  | Memory => ∃ id e, mems (memories n) !! id = Some e ∧ x = entry_of_memory id e
  | Skill => ∃ id r, stored SKILLS (store n) !! id = Some r ∧ x = entry_of_versioned n VSkill (skills_dir data_dir) id r
  | Rule => ∃ id r, stored RULES (store n) !! id = Some r ∧ x = entry_of_versioned n VRule (rules_dir data_dir) id r
  | Workspace => ∃ id w, workspaces (store n) !! id = Some w ∧ x = entry_of_workspace id w
  | Extension => ∃ id r, extensions (store n) !! id = Some r ∧ x = entry_of_extension n id r
  end.

Definition unread (s s' : Store Database) : Prop := rows (db s') = rows (db s) ∧ files (fs s') = files (fs s).

Lemma quiet_store n s' : unread (store n) s' → quiet mems n (set_store s' n).
Proof. intros [? ?]. by split_and!. Qed.

Lemma quiet_memories n s' : mems s' = mems (memories n) → quiet mems n (set_memories s' n).
Proof. intros ?. by split_and!. Qed.

(** Reading rows of a table, filtered by the scope or not. *)
Lemma list_scoped {R} (scope : R → ResourceScope) `{!Postcard R, !PostcardLaws R} {E} (f : StorageError → E) table filter s :
  let all := in_db (D:=Database) (with_err f (Table.list table)) in
  wp (list_by_scope filter
        (let! l := all in ret (base.filter (λ r : R, scope r = ClusterShared) l))
        (let! l := all in ret (base.filter (λ r : R, scope r = NodeLocal) l)) all)
    (λ l s', (∀ r, r ∈ l ↔ ∃ id, view table (db s) !! id = Some r ∧ in_scope filter (scope r)) ∧ unread s s')
    (λ _ s', unread s s') s.
Proof.
  intros all. unfold all, in_db. destruct filter as [[]|]; cbn [list_by_scope]; wp_steps;
    (eapply wp_mono; [apply list_spec|cbn; intros l d [-> Hd]|cbn; intros e d Hd; by split]);
    wp_steps; (split; [|by split]); intros r; rewrite ?list_elem_of_filter, elem_of_btree_values;
    unfold in_scope; naive_solver.
Qed.

Lemma elem_of_matching {T} (records : list T) selector md (to : T → Resource) r :
  r ∈ collect_matching records selector md to ↔ ∃ x, x ∈ records ∧ selector ⊆ md x ∧ r = to x.
Proof.
  unfold collect_matching. rewrite list_elem_of_fmap. setoid_rewrite list_elem_of_filter.
  setoid_rewrite matches_selector_spec. naive_solver.
Qed.

(** A listing read record by record is a listing read entry by entry. *)
Lemma shown {T} (records : list T) (m : gmap string T) (Q : T → Prop) selector filter md to (entry : string → T → Entry) r :
  (∀ x, x ∈ records ↔ ∃ id, m !! id = Some x ∧ Q x) →
  (∀ id x, en_labels (entry id x) = md x ∧ en_listed (entry id x) = to x ∧
     (match en_scope (entry id x) with Some s => in_scope filter s | None => True end ↔ Q x)) →
  r ∈ collect_matching records selector md to ↔
    ∃ x, (∃ id y, m !! id = Some y ∧ x = entry id y) ∧ visible selector filter x ∧ r = en_listed x.
Proof.
  intros Hm He. rewrite elem_of_matching. unfold visible. split.
  - intros (y & (id & Hid & HQ)%Hm & Hsel & ->). destruct (He id y) as (Hl & Ht & Hs).
    exists (entry id y). rewrite Hl, Ht, Hs. naive_solver.
  - intros (x & (id & y & Hid & ->) & [Hsel Hsc] & ->). destruct (He id y) as (Hl & Ht & Hs).
    exists y. rewrite Hm, <- Hl, Ht. naive_solver.
Qed.

Definition listing_ok n k selector filter : Prop :=
  wp (list_resources memory data_dir message svc k selector filter)
    (λ rs n', quiet mems n n' ∧ ∀ r, r ∈ rs ↔ ∃ x, holds n k x ∧ visible selector filter x ∧ r = en_listed x)
    (λ _ n', quiet mems n n') n.

Lemma list_versioned_ok n k table dir selector filter :
  va_records (versioned_access data_dir k) = RedbVersionedStorage table →
  wp (list_versioned data_dir k selector filter)
    (λ rs n', quiet mems n n' ∧ ∀ r, r ∈ rs ↔
       ∃ x, (∃ id v, stored table (store n) !! id = Some v ∧ x = entry_of_versioned n k dir id v) ∧
            visible selector filter x ∧ r = en_listed x)
    (λ _ n', quiet mems n n') n.
Proof.
  intros Ha. unfold list_versioned. rewrite Ha. unfold workspace.
  cbn [vs_list_shared vs_list_local vs_list RedbVersionedStorage]. wp_steps.
  eapply wp_mono; [apply (list_scoped vr_scope Storage table filter (store n))|cbn; intros l s' [Hl Hs]|cbn; intros e s' Hs];
    wp_steps; [|by apply quiet_store].
  split; [by apply quiet_store|]. intros r. by apply (shown _ _ (λ v, in_scope filter (vr_scope v))).
Qed.

Lemma list_kind_ok n k selector filter : listing_ok n k selector filter.
Proof.
  unfold listing_ok. destruct k; cbn [list_resources holds].
  - wp_steps. split; [done|]. intros r. rewrite list_elem_of_fmap. setoid_rewrite elem_of_list_nodes. split.
    + intros (y & -> & Hsel & Hy). exists (entry_of_node y). split; [by exists y|]. by split; [split|].
    + intros (x & (y & Hy & ->) & [Hsel _] & ->). by exists y.
  - unfold sessions, session_list, in_db. wp_steps.
    eapply wp_mono; [apply list_spec|cbn; intros l d [-> Hd]|cbn; intros e d Hd]; wp_steps; [|by apply quiet_store].
    split; [by apply quiet_store|]. intros r. apply (shown _ _ (λ _, True)); [|naive_solver].
    intros x. rewrite elem_of_btree_values. naive_solver.
  - unfold agent, list_memories. wp_steps.
    assert (wp (list_by_scope filter (ms_list_shared memory) (ms_list_local memory) (ms_list memory))
      (λ l s', mems s' = mems (memories n) ∧
         ∀ e, e ∈ l ↔ ∃ id, mems (memories n) !! id = Some e ∧ in_scope filter (me_scope e))
      (λ _ s', mems s' = mems (memories n)) (memories n)) as Hl.
    { destruct filter as [sc|]; cbn.
      - pose proof (ms_list_filtered_law sc (memories n)) as Hw. by destruct sc.
      - eapply wp_mono; [apply ms_list_law|cbn; intros l s' [Hs Hl]|done]. split; [done|]. intros e. rewrite Hl. naive_solver. }
    eapply wp_mono; [exact Hl|cbn; intros l s' [Hs Hin]|cbn; intros e s' Hs]; wp_steps; [|by apply quiet_memories].
    split; [by apply quiet_memories|]. intros r. by apply (shown _ _ (λ e, in_scope filter (me_scope e))).
  - by apply list_versioned_ok.
  - by apply list_versioned_ok.
  - unfold workspace, list_workspaces. wp_steps.
    eapply wp_mono; [apply (list_scoped ws_scope Storage WORKSPACES filter (store n))|cbn; intros l s' [Hl Hs]|cbn; intros e s' Hs];
      wp_steps; [|by apply quiet_store].
    split; [by apply quiet_store|]. intros r. by apply (shown _ _ (λ w, in_scope filter (ws_scope w))).
  - unfold extension, list_extensions. wp_steps.
    eapply wp_mono; [apply (list_scoped ex_scope ExtStorage EXTENSIONS filter (store n))|cbn; intros l s' [Hl Hs]|cbn; intros e s' Hs];
      wp_steps; [|by apply quiet_store].
    split; [by apply quiet_store|]. intros r. by apply (shown _ _ (λ x, in_scope filter (ex_scope x))).
Qed.

(** Getting one resource. *)
Definition getting_ok n k id : Prop :=
  wp (get_resource memory data_dir message svc k id)
    (λ r n', quiet mems n n' ∧ ∃ x, holds n k x ∧ en_id x = id ∧ r = en_full x)
    (λ e n', quiet mems n n' ∧ ∀ id', e = NotFound id' → id' = id ∧ ¬ ∃ x, holds n k x ∧ en_id x = id) n.

Lemma get_versioned_ok n k table dir id :
  va_records (versioned_access data_dir k) = RedbVersionedStorage table →
  va_content (versioned_access data_dir k) = store_content (GitContentStore dir) →
  wp (get_versioned data_dir k id)
    (λ r n', quiet mems n n' ∧ ∃ v, stored table (store n) !! id = Some v ∧ r = en_full (entry_of_versioned n k dir id v))
    (λ e n', quiet mems n n' ∧ ∀ id', e = NotFound id' → id' = id ∧ stored table (store n) !! id = None) n.
Proof.
  intros Ha Hb. unfold get_versioned. rewrite Ha, Hb. unfold workspace, store_content, in_fs.
  cbn [vs_get RedbVersionedStorage cs_read GitContentStore]. unfold in_db. wp_steps.
  eapply wp_mono; [apply get_spec|cbn; intros o d [-> Hd]|cbn; intros e d Hd]; [|by split; [apply quiet_store|]].
  fold (stored table (store n)). destruct (stored table (store n) !! id) as [v|] eqn:Hv; wp_steps.
  - eapply wp_mono; [apply git_read_spec|cbn; intros o f (Hf & _ & ->)|cbn; intros e f Hf].
    + wp_steps. split; [by split_and!|]. by exists v.
    + by split; [split_and!|].
  - split; [by apply quiet_store|]. by intros id' [= ->].
Qed.

(** A row found, or none, as the answer to a request. *)
Lemma found_row {T} (m : gmap string T) (id : string) (entry : string → T → Entry) y :
  m !! id = Some y → en_id (entry id y) = id →
  ∃ x, (∃ i y, m !! i = Some y ∧ x = entry i y) ∧ en_id x = id ∧ en_full (entry id y) = en_full x.
Proof. intros Hy He. exists (entry id y). naive_solver. Qed.

Lemma missing_row {T} (m : gmap string T) (id id' : string) (entry : string → T → Entry) :
  m !! id = None → (∀ i y, en_id (entry i y) = i) → NotFound id = NotFound id' →
  id' = id ∧ ¬ ∃ x, (∃ i y, m !! i = Some y ∧ x = entry i y) ∧ en_id x = id.
Proof.
  intros Hm Hi [= ->]. split; [done|]. intros (x & (i & y & Hy & ->) & He). rewrite Hi in He. congruence.
Qed.

Lemma get_kind_ok n k id : getting_ok n k id.
Proof.
  unfold getting_ok. destruct k; cbn [get_resource holds].
  - wp_steps. destruct (head _) as [y|] eqn:Hy; cbn.
    + split; [done|]. apply head_Some_elem_of, list_elem_of_filter in Hy as [<- [_ Hy]%elem_of_list_nodes].
      exists (entry_of_node y). split; [by exists y|done].
    + split; [done|]. intros id' [= ->]. split; [done|]. intros (x & (y & Hin & ->) & He).
      apply head_None in Hy. assert (y ∈ filter (λ r, node_id r = id') (list_nodes svc ∅)) as Hf.
      { apply list_elem_of_filter. split; [done|]. apply elem_of_list_nodes. split; [apply map_empty_subseteq|done]. }
      rewrite Hy in Hf. by apply elem_of_nil in Hf.
  - unfold sessions, session_get, in_db. wp_steps.
    eapply wp_mono; [apply get_spec|cbn; intros o d [-> Hd]|cbn; intros e d Hd]; [|by split; [apply quiet_store|]].
    wp_steps. destruct (view SESSIONS _ !! id) as [s|] eqn:Hs; cbn; (split; [by apply quiet_store|]).
    + by apply (found_row _ _ entry_of_session).
    + intros id' He. by eapply missing_row.
  - unfold agent. wp_steps.
    eapply wp_mono; [apply ms_get_law|cbn; intros o s [-> Hs]|cbn; intros e s Hs]; [|by split; [apply quiet_memories|]].
    wp_steps. destruct (mems _ !! id) as [e|] eqn:He; cbn; (split; [by apply quiet_memories|]).
    + by apply (found_row _ _ entry_of_memory).
    + intros id' Hi. by eapply missing_row.
  - eapply wp_mono; [by apply get_versioned_ok|cbn; intros r n' (Hq & v & Hv & ->)|cbn; intros e n' [Hq Hno]].
    + split; [done|]. by apply (found_row _ _ (entry_of_versioned n VSkill (skills_dir data_dir))).
    + split; [done|]. intros id' ->. destruct (Hno _ eq_refl) as [-> Hn]. by eapply missing_row.
  - eapply wp_mono; [by apply get_versioned_ok|cbn; intros r n' (Hq & v & Hv & ->)|cbn; intros e n' [Hq Hno]].
    + split; [done|]. by apply (found_row _ _ (entry_of_versioned n VRule (rules_dir data_dir))).
    + split; [done|]. intros id' ->. destruct (Hno _ eq_refl) as [-> Hn]. by eapply missing_row.
  - unfold workspace, ws_get, in_db. wp_steps.
    eapply wp_mono; [apply get_spec|cbn; intros o d [-> Hd]|cbn; intros e d Hd]; [|by split; [apply quiet_store|]].
    wp_steps. fold (workspaces (store n)). destruct (workspaces (store n) !! id) as [w|] eqn:Hw; cbn;
      (split; [by apply quiet_store|]).
    + by apply (found_row _ _ entry_of_workspace).
    + intros id' He. by eapply missing_row.
  - unfold extension, ext_get, in_db, in_fs. wp_steps.
    eapply wp_mono; [apply get_spec|cbn; intros o d [-> Hd]|cbn; intros e d Hd]; [|by split; [apply quiet_store|]].
    wp_steps. fold (extensions (store n)). destruct (extensions (store n) !! id) as [r|] eqn:Hr; cbn.
    + wp_steps. eapply wp_mono; [apply blob_read_spec|cbn; intros o f (Hf & _ & ->)|cbn; intros e f Hf].
      * wp_steps. split; [by split_and!|]. by apply (found_row _ _ (entry_of_extension n)).
      * by split; [split_and!|].
    + split; [by apply quiet_store|]. intros id' He. by eapply missing_row.
Qed.
End reading.


(** ** An instance *)

#[local] Existing Instance gmap_hash_iter.
#[local] Existing Instance toy_memory_laws.
#[local] Existing Instance toy_postcard.
#[local] Existing Instance toy_postcard_laws.
#[local] Existing Instance toy_redb.
#[local] Existing Instance toy_redb_laws.
#[local] Existing Instance ResourceTheorems.toy_blake3.
#[local] Existing Instance toy_git.
#[local] Existing Instance toy_git_laws.
#[local] Existing Instance ex_eq_dec.
#[local] Existing Instance ex_countable.
#[local] Existing Instance ws_eq_dec.
#[local] Existing Instance ws_countable.
#[local] Existing Instance small_shape.

#[local] Instance session_eq_dec : EqDecision Resources.Session.
Proof. solve_decision. Defined.
#[local] Program Instance session_countable : Countable Resources.Session :=
  inj_countable' (λ s, (se_id s, se_metadata s)) (λ '(i, m), mkSession i m) _.
Next Obligation. by intros []. Qed.

#[local] Instance toy_memory_reads : MemoryReads toy_memory id.
Proof.
  split; intros; cbn.
  - split; [done|]. intros e. rewrite list_elem_of_fmap. split.
    + intros ([k x] & -> & Hx%elem_of_map_to_list). by exists k.
    + intros [k Hk]. exists (k, e). split; [done|]. by apply elem_of_map_to_list.
  - destruct sc; cbn; (split; [done|]); intros e; rewrite list_elem_of_filter, list_elem_of_fmap; (split;
      [intros [Hs ([k x] & -> & Hx%elem_of_map_to_list)]; by exists k
      |intros (k & Hk & Hs); split; [done|]; exists (k, e); split; [done|]; by apply elem_of_map_to_list]).
Defined.

Definition a_service : MembershipService := boot MerkleDiff.toy_blake3 (toy_boot 0) ∅.
Definition a_node : NodeState ToyDatabase (gmap string MemoryEntry) :=
  toy_with [ISkill (toy_skill "a" "one" 1) "one"; IExtension toy_extension "code"].

