(* ===== verification/MemoryTheorems.v ===== *)
(** * The memory backend keeps a map of entries

    [Memories] against its documented database: whatever fails, the table of
    memories holds one well-formed row per entry, an entry stored is the entry
    found, and the listings are those of the entries. The backend, with the states
    it can reach, is an instance of the interface the pipelines are proved
    against. *)

From Stdlib Require Import Ascii.
From S2P Require Import Prelude.
From S2P Require Import Effects.
From S2P Require Import Versioned.
From S2P Require Import Tables.
From S2P Require Import ContentStores.
From S2P Require Import Resources.
From S2P Require Import ResourceTheorems.
From S2P Require Import Mapper.
From S2P Require Import MapperTheorems.
From S2P Require Import Exchange.
From S2P Require Import Listing.
From S2P Require Import Memories.

#[local] Open Scope char_scope.
#[local] Open Scope string_scope.
#[local] Open Scope Z_scope.

(** ** What LanceDB documents *)

Definition cell_named (name : string) (fs : list Field) (row : list Cell) : option Cell :=
  '(i, _) ← column_by_name name fs; row !! i.

(** Names that need no quoting in a filter. *)
Fixpoint identifier (s : string) : bool :=
  match s with EmptyString => true | String c s => (byte_in 97 122 c || byte_in 95 95 c) && identifier s end.

(** A table is its schema and its rows. A write commits whole or not at all;
    [merge_insert] on a column replaces the rows whose cell it finds there and
    adds the rest; a query streams the rows its filter selects, in some order. *)
Class LanceLaws `{!Lance} := {
  held_tables : LanceDb → gmap string RecordBatch;
  table_name : Table → string;
  connect_law uri d :
    wp (lance_connect uri) (λ _ d', held_tables d' = held_tables d) (λ _ d', held_tables d' = held_tables d) d;
  open_law name d :
    wp (open_table name)
      (λ t d', table_name t = name ∧ is_Some (held_tables d !! name) ∧ held_tables d' = held_tables d)
      (λ e d', held_tables d' = held_tables d ∧ (e = TableNotFound → held_tables d !! name = None)) d;
  create_law name b d :
    held_tables d !! name = None →
    wp (create_table name b) (λ _ d', held_tables d' = <[name := b]> (held_tables d))
      (λ _ d', held_tables d' = held_tables d) d;
  merge_law t key b old d :
    held_tables d !! table_name t = Some old → fields b = fields old →
    wp (merge_insert t [key] b)
      (λ _ d', ∃ rows, held_tables d' = <[table_name t := mkBatch (fields old) rows]> (held_tables d) ∧
         rows ≡ₚ filter (λ row, cell_named key (fields old) row ∉ cell_named key (fields old) <$> batch_rows b)
                   (batch_rows old) ++ batch_rows b)
      (λ _ d', held_tables d' = held_tables d) d;
  query_law t d old :
    held_tables d !! table_name t = Some old →
    wp (run_query t None)
      (λ bs d', held_tables d' = held_tables d ∧ Forall (λ b, fields b = fields old) bs ∧
         concat (batch_rows <$> bs) ≡ₚ batch_rows old)
      (λ _ d', held_tables d' = held_tables d) d;
  filter_law t d old name rest value :
    held_tables d !! table_name t = Some old → identifier name = true → read_literal rest = Some (value, "") →
    wp (run_query t (Some (name +:+ " = '" +:+ rest)))
      (λ bs d', held_tables d' = held_tables d ∧ Forall (λ b, fields b = fields old) bs ∧
         concat (batch_rows <$> bs) ≡ₚ
           filter (λ row, cell_named name (fields old) row = Some (CUtf8 (Some value))) (batch_rows old))
      (λ _ d', held_tables d' = held_tables d) d;
  nearest_law t query limit d old :
    held_tables d !! table_name t = Some old →
    wp (run_nearest t query limit)
      (λ bs d', held_tables d' = held_tables d ∧ Forall (λ b, fields b = fields old) bs ∧
         ∃ rs, concat (batch_rows <$> bs) ≡ₚ rs ∧ rs ⊆+ batch_rows old ∧ (length rs ≤ limit)%nat)
      (λ _ d', held_tables d' = held_tables d) d;
}.

(** ** Rows and entries *)

Section rows.
Context `{!Lance, !Postcard (gmap string string), !PostcardLaws (gmap string string)}.
Context (dim : nat) (message : StorageError → string).

Definition the_columns : Columns := mkColumns 0 1 2 3 4 5 6 7 8 9.

Lemma schema_columns : find_columns (schema dim) = Ok the_columns ∧ float_items (schema dim) the_columns = true.
Proof. done. Qed.

(** The entry the columns can hold: no origin and the empty origin are the same. *)
Definition storable (e : MemoryEntry) : MemoryEntry :=
  mkMemory (me_id e) (me_content e) (me_embedding e) (me_metadata e) (me_scope e)
    (if decide (me_source_node_id e = Some "") then None else me_source_node_id e)
    (me_created_at_ms e) (me_updated_at_ms e) (me_content_hash e) (me_version e).

Lemma storable_same e : me_source_node_id e ≠ Some "" → storable e = e.
Proof. intros He. unfold storable. rewrite decide_False by done. by destruct e. Qed.

Lemma parse_row_of e row : row_of e = Ok row → parse_row message true the_columns row = Ok (storable e).
Proof.
  unfold row_of. destruct (encode (me_metadata e)) as [b|err] eqn:He; cbn; [|done]. intros [= <-].
  apply encode_Ok in He. unfold parse_row. cbn. apply decode_Ok in He. rewrite He. cbn.
  rewrite scope_from_as_str. cbn. unfold storable. do 2 f_equal.
  destruct (me_source_node_id e) as [s|]; cbn; [|done]. repeat case_decide; congruence.
Qed.

(** A row some entry of the right dimension was written as. *)
Definition written_row (row : list Cell) : Prop := ∃ e, row_of e = Ok row ∧ length (me_embedding e) = dim.

Definition entry_in (row : list Cell) : option MemoryEntry :=
  match parse_row message true the_columns row with Ok e => Some e | Err _ => None end.

Definition entries_in (rows : list (list Cell)) : list MemoryEntry := omap entry_in rows.

Lemma entry_in_row e row : row_of e = Ok row → entry_in row = Some (storable e).
Proof. intros He. unfold entry_in. by rewrite (parse_row_of e row He). Qed.

Lemma row_id e row : row_of e = Ok row → cell_named "id" (schema dim) row = Some (CUtf8 (Some (me_id e))).
Proof. unfold row_of. destruct (encode _); cbn; [|done]. by intros [= <-]. Qed.

Lemma row_scope e row :
  row_of e = Ok row → cell_named "scope" (schema dim) row = Some (CUtf8 (Some (as_str (me_scope e)))).
Proof. unfold row_of. destruct (encode _); cbn; [|done]. by intros [= <-]. Qed.

Lemma parse_written b :
  fields b = schema dim → Forall written_row (batch_rows b) →
  parse_memory_batch message b = Ok (entries_in (batch_rows b)).
Proof.
  intros Hf Hw. unfold parse_memory_batch. rewrite Hf, (proj1 schema_columns). cbn [result_bind].
  rewrite (proj2 schema_columns). apply collect_Ok. induction Hw as [|row rows (e & He & _) _ IH]; [done|].
  unfold entries_in. cbn [omap list_omap]. rewrite (entry_in_row e row He), fmap_cons, IH, fmap_cons.
  by rewrite (parse_row_of e row He).
Qed.

Lemma parse_batches bs :
  Forall (λ b, fields b = schema dim) bs → Forall written_row (concat (batch_rows <$> bs)) →
  ∃ parsed, collect (parse_memory_batch message <$> bs) = Ok parsed ∧
    concat parsed = entries_in (concat (batch_rows <$> bs)).
Proof.
  induction 1 as [|b bs Hb _ IH]; intros Hw; [by exists []|]. cbn in Hw. apply Forall_app in Hw as [Hwb Hws].
  destruct (IH Hws) as (parsed & Hp & Hc). exists (entries_in (batch_rows b) :: parsed). split.
  - cbn. rewrite parse_written by done. by rewrite Hp.
  - cbn. rewrite Hc. unfold entries_in. by rewrite omap_app.
Qed.

Lemma entries_in_snoc rows e row :
  row_of e = Ok row → entries_in (rows ++ [row])%list = (entries_in rows ++ [storable e])%list.
Proof.
  intros He. unfold entries_in. rewrite omap_app. cbn [omap list_omap]. by rewrite (entry_in_row e row He).
Qed.

Lemma length_entries_in rows : (length (entries_in rows) ≤ length rows)%nat.
Proof.
  unfold entries_in. induction rows as [|row rows IH]; [done|]. cbn [omap list_omap].
  destruct (entry_in row); cbn; lia.
Qed.

Lemma entries_in_submseteq rows rows' : rows ⊆+ rows' → entries_in rows ⊆+ entries_in rows'.
Proof.
  intros [k Hk]%submseteq_Permutation. unfold entries_in. rewrite Hk, omap_app. by apply submseteq_inserts_r.
Qed.

(** Selecting rows is selecting entries. *)
Lemma entries_in_filter (P : list Cell → Prop) (Q : MemoryEntry → Prop) `{!∀ r, Decision (P r), !∀ e, Decision (Q e)} rows :
  Forall written_row rows → (∀ e row, row_of e = Ok row → P row ↔ Q (storable e)) →
  entries_in (filter P rows) = filter Q (entries_in rows).
Proof.
  intros Hw HPQ. induction Hw as [|row rows (e & He & _) _ IH]; [done|].
  unfold entries_in in *. cbn [omap list_omap]. rewrite (entry_in_row e row He), !filter_cons. specialize (HPQ e row He).
  destruct (decide (P row)) as [Hp|Hp].
  - rewrite (decide_True (P:=Q (storable e))) by tauto. cbn [omap list_omap]. rewrite (entry_in_row e row He). by rewrite IH.
  - rewrite (decide_False (P:=Q (storable e))) by tauto. done.
Qed.

Lemma elem_of_entries rows e :
  Forall written_row rows → e ∈ entries_in rows ↔ ∃ row, row ∈ rows ∧ entry_in row = Some e.
Proof. intros _. unfold entries_in. apply list_elem_of_omap. Qed.

(** Entries by id. *)
Definition by_id (es : list MemoryEntry) : gmap string MemoryEntry := list_to_map ((λ e, (me_id e, e)) <$> es).

Lemma by_id_lookup es id e : NoDup (me_id <$> es) → by_id es !! id = Some e ↔ e ∈ es ∧ me_id e = id.
Proof.
  intros Hnd. unfold by_id. rewrite <- elem_of_list_to_map.
  - rewrite list_elem_of_fmap. naive_solver.
  - rewrite <- list_fmap_compose. exact Hnd.
Qed.
End rows.

(** ** The operations *)

Section operations.
Context `{!Lance, !LanceLaws, !Postcard (gmap string string), !PostcardLaws (gmap string string)}.
Context (uri : string) (dim : nat) (message : StorageError → string).

Definition rows_held (s : Backend_) : list (list Cell) :=
  match held_tables (database s) !! MEMORY_TABLE with Some b => batch_rows b | None => [] end.

Definition entries_held (s : Backend_) : list MemoryEntry := entries_in message (rows_held s).

(** What the backend keeps, as a map. *)
Definition memories_of (s : Backend_) : gmap string MemoryEntry := by_id (entries_held s).

(** The table, when it exists, holds rows the backend wrote, one per id. *)
Definition tidy (s : Backend_) : Prop :=
  (∀ b, held_tables (database s) !! MEMORY_TABLE = Some b → fields b = schema dim) ∧
  Forall (written_row dim) (rows_held s) ∧ NoDup (me_id <$> entries_held s).

Definition same_tables (s s' : Backend_) : Prop := held_tables (database s') = held_tables (database s).

#[export] Instance same_tables_preorder : PreOrder same_tables.
Proof. split; [done|]. intros s1 s2 s3. unfold same_tables. congruence. Qed.

Lemma same_rows s s' : same_tables s s' → rows_held s' = rows_held s.
Proof. unfold same_tables, rows_held. by intros ->. Qed.

Lemma same_tidy s s' : same_tables s s' → tidy s → tidy s'.
Proof. intros Hs. unfold tidy, entries_held. rewrite (same_rows _ _ Hs). by rewrite Hs. Qed.

Lemma same_memories s s' : same_tables s s' → memories_of s' = memories_of s.
Proof. intros Hs. unfold memories_of, entries_held. by rewrite (same_rows _ _ Hs). Qed.

Lemma connection_spec s : wp (connection uri) (λ _, same_tables s) (λ _, same_tables s) s.
Proof.
  unfold wp, connection, on_database, zoom. destruct (connected s); [done|].
  pose proof (connect_law uri (database s)) as Hc. unfold wp in Hc.
  by destruct (lance_connect uri (database s)) as [d [[]|e]].
Qed.

Lemma open_spec s :
  match on_database (open_table MEMORY_TABLE) s with
  | (s', Ok t) => same_tables s s' ∧ table_name t = MEMORY_TABLE ∧ is_Some (held_tables (database s') !! MEMORY_TABLE)
  | (s', Err TableNotFound) => same_tables s s' ∧ held_tables (database s') !! MEMORY_TABLE = None
  | (s', Err _) => same_tables s s'
  end.
Proof.
  unfold on_database, zoom, same_tables. pose proof (open_law MEMORY_TABLE (database s)) as Ho. unfold wp in Ho.
  destruct (open_table MEMORY_TABLE (database s)) as [d [t|[|what]]]; cbn.
  - destruct Ho as (Hn & Hs & Hd). by rewrite Hd.
  - destruct Ho as [Hd Hn]. rewrite Hd. auto.
  - by destruct Ho as [Hd _].
Qed.

Lemma memory_table_spec s :
  wp (memory_table uri)
    (λ o s', same_tables s s' ∧ match o with
       | Some t => table_name t = MEMORY_TABLE ∧ is_Some (held_tables (database s') !! MEMORY_TABLE)
       | None => held_tables (database s') !! MEMORY_TABLE = None
       end)
    (λ _, same_tables s) s.
Proof.
  unfold memory_table. wp_steps. eapply wp_mono; [apply connection_spec|cbn; intros [] s1 Hs1|done].
  unfold wp. pose proof (open_spec s1) as Ho.
  destruct (on_database (open_table MEMORY_TABLE) s1) as [s2 [t|[|what]]].
  - destruct Ho as (Hs & Ht & Hh). split; [by trans s1|done].
  - destruct Ho as (Hs & Hn). split; [by trans s1|done].
  - by trans s1.
Qed.

(** A query whose batches stream the rows [rs]. *)
Lemma collect_spec query rs s :
  Forall (written_row dim) rs →
  wp query (λ bs d, held_tables d = held_tables (database s) ∧ Forall (λ b, fields b = schema dim) bs ∧
                    concat (batch_rows <$> bs) ≡ₚ rs)
    (λ _ d, held_tables d = held_tables (database s)) (database s) →
  wp (collect_entries message query) (λ es s', same_tables s s' ∧ es ≡ₚ entries_in message rs) (λ _, same_tables s) s.
Proof.
  intros Hw Hq. unfold collect_entries, on_database. wp_steps.
  eapply wp_mono; [exact Hq|cbn; intros bs d (Hd & Hf & Hp)|done]. wp_steps.
  destruct (parse_batches dim message bs Hf) as (parsed & Hc & He); [by rewrite Hp|]. rewrite Hc. wp_steps.
  split; [done|]. rewrite He. unfold entries_in. by rewrite Hp.
Qed.

Lemma list_memories_ok s :
  tidy s →
  wp (query_entries uri message None) (λ es s', same_tables s s' ∧ es ≡ₚ entries_held s) (λ _, same_tables s) s.
Proof.
  intros (Hf & Hw & _). unfold query_entries. wp_steps.
  eapply wp_mono; [apply memory_table_spec|cbn; intros o s1 [Hs1 Ho]|done]. destruct o as [t|].
  - destruct Ho as (Ht & b & Hb). rewrite Hs1 in Hb.
    assert (rows_held s = batch_rows b) as Hr by (unfold rows_held; by rewrite Hb).
    eapply wp_mono; [apply (collect_spec _ (batch_rows b) s1); [by rewrite <- Hr|]
      |cbn; intros es s2 [Hs2 Hes]|cbn; intros e s2 Hs2; by trans s1].
    + rewrite <- (Hf b Hb). apply query_law. by rewrite Ht, Hs1.
    + split; [by trans s1|]. unfold entries_held. by rewrite Hr.
  - wp_steps. split; [done|]. unfold entries_held, rows_held. by rewrite <- Hs1, Ho.
Qed.

(** A filter on a column of text selects the entries with that text. *)
Lemma filtered_ok name rest value (Q : MemoryEntry → Prop) `{!∀ e, Decision (Q e)} s :
  tidy s → identifier name = true → read_literal rest = Some (value, "") →
  (∀ e row, row_of e = Ok row → cell_named name (schema dim) row = Some (CUtf8 (Some value)) ↔ Q (storable e)) →
  wp (query_filtered uri message (name +:+ " = '" +:+ rest))
    (λ es s', same_tables s s' ∧ es ≡ₚ filter Q (entries_held s)) (λ _, same_tables s) s.
Proof.
  intros (Hf & Hw & _) Hname Hlit HQ. unfold query_filtered, query_entries. wp_steps.
  eapply wp_mono; [apply memory_table_spec|cbn; intros o s1 [Hs1 Ho]|done]. destruct o as [t|].
  - destruct Ho as (Ht & b & Hb). rewrite Hs1 in Hb.
    assert (rows_held s = batch_rows b) as Hr by (unfold rows_held; by rewrite Hb).
    set (P := λ row, cell_named name (schema dim) row = Some (CUtf8 (Some value))).
    eapply wp_mono; [apply (collect_spec _ (filter P (batch_rows b)) s1)
      |cbn; intros es s2 [Hs2 Hes]|cbn; intros e s2 Hs2; by trans s1].
    + rewrite <- Hr. apply Forall_forall. intros row [_ Hin]%list_elem_of_filter. by eapply Forall_forall in Hw.
    + unfold P. rewrite <- (Hf b Hb). apply filter_law; [by rewrite Ht, Hs1|done..].
    + split; [by trans s1|]. rewrite Hes. unfold entries_held. rewrite Hr.
      rewrite (entries_in_filter dim message P Q); [done|by rewrite <- Hr|done].
  - wp_steps. split; [done|]. unfold entries_held, rows_held. by rewrite <- Hs1, Ho.
Qed.

Lemma get_memory_ok id s :
  tidy s →
  wp (get_memory uri message id) (λ o s', o = memories_of s !! id ∧ same_tables s s') (λ _, same_tables s) s.
Proof.
  intros Ht. unfold get_memory. wp_steps. destruct (id_filter_exact id) as (rest & -> & Hlit).
  eapply wp_mono; [apply (filtered_ok "id" rest id (λ e, me_id e = id)); [done..|]|cbn; intros es s1 [Hs1 Hes]|done].
  - intros e row He. rewrite (row_id dim e row He). cbn. split; [by intros [= ->]|by intros ->].
  - wp_steps. split; [|done]. destruct Ht as (_ & _ & Hnd). unfold memories_of.
    destruct (by_id (entries_held s) !! id) as [e|] eqn:He.
    + apply by_id_lookup in He as [He Hid]; [|done].
      assert (e ∈ es) as Hin by (rewrite Hes; by apply list_elem_of_filter).
      destruct es as [|x es]; [by apply elem_of_nil in Hin|]. cbn. f_equal.
      assert (x ∈ filter (λ e, me_id e = id) (entries_held s)) as [Hx Hxin]%list_elem_of_filter by (rewrite <- Hes; by left).
      assert (by_id (entries_held s) !! id = Some x) as Hx' by by apply by_id_lookup.
      assert (by_id (entries_held s) !! id = Some e) as He' by by apply by_id_lookup. congruence.
    + destruct es as [|x es]; [done|]. exfalso.
      assert (x ∈ filter (λ e, me_id e = id) (entries_held s)) as [Hx Hxin]%list_elem_of_filter by (rewrite <- Hes; by left).
      assert (by_id (entries_held s) !! id = Some x) as Hx' by by apply by_id_lookup. congruence.
Qed.

(** *** Storing *)

(** The table after a write whose rows are [rows]. *)
Lemma table_written s s' rows :
  held_tables (database s') = <[MEMORY_TABLE := mkBatch (schema dim) rows]> (held_tables (database s)) →
  rows_held s' = rows.
Proof. intros Hs. unfold rows_held. by rewrite Hs, lookup_insert_eq. Qed.

(** Replacing the entry of an id, or adding it. *)
Lemma replaced es es' e :
  NoDup (me_id <$> es) → es' ≡ₚ filter (λ x, me_id x ≠ me_id e) es ++ [e] →
  NoDup (me_id <$> es') ∧ by_id es' = <[me_id e := e]> (by_id es).
Proof.
  intros Hnd Hp.
  assert (NoDup (me_id <$> es')) as Hnd'.
  { rewrite Hp, fmap_app. apply NoDup_app. split; [|split; [|apply NoDup_singleton]].
    - eapply sublist_NoDup; [exact Hnd|]. apply fmap_sublist, sublist_filter.
    - intros i (x & -> & [Hx _]%list_elem_of_filter)%list_elem_of_fmap ?%list_elem_of_singleton. by apply Hx. }
  split; [done|]. apply map_eq. intros i. apply option_eq. intros x.
  rewrite by_id_lookup by done. rewrite lookup_insert_Some, by_id_lookup by done.
  rewrite Hp, elem_of_app, list_elem_of_filter, list_elem_of_singleton. naive_solver.
Qed.

Lemma batch_for_ok e b :
  batch_for dim message [e] = Ok b → ∃ row, row_of e = Ok row ∧ b = mkBatch (schema dim) [row].
Proof.
  unfold batch_for. cbn. destruct (row_of e) as [row|err]; cbn; [|done]. unfold try_new.
  destruct (forallb _ _); [|done]. intros [= <-]. by exists row.
Qed.

Lemma store_memory_ok e s :
  tidy s →
  wp (store_memory uri dim message e)
    (λ _ s', tidy s' ∧ memories_of s' = <[me_id e := storable e]> (memories_of s)) (λ _, same_tables s) s.
Proof.
  intros Ht. unfold store_memory. wp_steps. unfold check_dim. case_decide as Hdim; [done|].
  assert (length (me_embedding e) = dim) as Hlen by (destruct (decide (length (me_embedding e) = dim)); [done|by destruct Hdim]).
  wp_steps. eapply wp_mono; [apply connection_spec|cbn; intros [] s1 Hs1|done]. wp_steps.
  destruct (batch_for dim message [e]) as [b|err] eqn:Hb; [|done].
  apply batch_for_ok in Hb as (row & Hrow & ->).
  pose proof (same_tidy _ _ Hs1 Ht) as (Hf & Hw & Hnd). rewrite <- (same_memories _ _ Hs1).
  pose proof (open_spec s1) as Ho. unfold wp.
  destruct (on_database (open_table MEMORY_TABLE) s1) as [s2 [t|[|what]]]; [| |by trans s1].
  - destruct Ho as (Hs2 & Hn & old & Hold).
    pose proof (same_tidy _ _ Hs2 (conj Hf (conj Hw Hnd))) as (Hf2 & Hw2 & Hnd2). rewrite <- (same_memories _ _ Hs2).
    assert (rows_held s2 = batch_rows old) as Hr by (unfold rows_held; by rewrite Hold).
    pose proof (Hf2 old Hold) as Hfo. rewrite <- Hn in Hold.
    pose proof (merge_law t "id" (mkBatch (schema dim) [row]) old (database s2) Hold (eq_sym Hfo)) as Hm.
    unfold wp, with_err, on_database, zoom in *.
    destruct (merge_insert t ["id"] _ (database s2)) as [d [[]|what]]; cbn; [|by trans s1; [|trans s2]].
    destruct Hm as (rows & Hd & Hp). rewrite Hn, Hfo in Hd.
    pose proof (table_written s2 (mkBackend d (connected s2)) rows Hd) as Hrows.
    assert (entries_in message rows ≡ₚ filter (λ x, me_id x ≠ me_id (storable e)) (entries_held s2) ++ [storable e]) as Hes.
    { transitivity (entries_in message (filter (λ r, cell_named "id" (schema dim) r ∉ [cell_named "id" (schema dim) row])
          (batch_rows old) ++ [row])).
      - unfold entries_in. apply omap_Permutation. rewrite Hp, Hfo. done.
      - rewrite entries_in_snoc with (e := e) by done. unfold entries_held. rewrite Hr.
        rewrite (entries_in_filter dim message _ (λ x, me_id x ≠ me_id (storable e))); [done|by rewrite <- Hr|].
        intros x r Hx. rewrite (row_id dim x r Hx), (row_id dim e row Hrow), list_elem_of_singleton. cbn.
        split; congruence. }
    destruct (replaced _ _ _ Hnd2 Hes) as [Hnd' Hby]. split; [split; [|split]|].
    + intros b Hb. cbn in Hb. rewrite Hd, lookup_insert_eq in Hb. by injection Hb as <-.
    + rewrite Hrows, Hp. apply Forall_app. split.
      * apply Forall_forall. intros r [_ Hin]%list_elem_of_filter. rewrite <- Hr in Hin. by eapply Forall_forall in Hw2.
      * constructor; [by exists e|constructor].
    + unfold entries_held. by rewrite Hrows.
    + unfold memories_of, entries_held. by rewrite Hrows.
  - destruct Ho as (Hs2 & Hnone). rewrite <- (same_memories _ _ Hs2).
    pose proof (create_law MEMORY_TABLE (mkBatch (schema dim) [row]) (database s2) Hnone) as Hc.
    unfold wp, with_err, on_database, zoom in *.
    destruct (create_table MEMORY_TABLE _ (database s2)) as [d [[]|what]]; cbn; [|by trans s1; [|trans s2]].
    pose proof (table_written s2 (mkBackend d (connected s2)) [row] Hc) as Hrows.
    assert (entries_in message [row] = [storable e]) as He by by apply (entries_in_snoc message [] e).
    split; [split; [|split]|].
    + intros b Hb. cbn in Hb. rewrite Hc, lookup_insert_eq in Hb. by injection Hb as <-.
    + rewrite Hrows. constructor; [by exists e|constructor].
    + unfold entries_held. rewrite Hrows, He. apply NoDup_singleton.
    + unfold memories_of, entries_held. rewrite Hrows, He. unfold rows_held. rewrite Hnone. done.
Qed.

(** *** Listing by scope, and recalling *)

Lemma list_scoped_ok sc s :
  tidy s →
  wp (query_filtered uri message ("scope" +:+ " = '" +:+ (as_str sc +:+ "'")))
    (λ es s', same_tables s s' ∧ es ≡ₚ filter (λ e, me_scope e = sc) (entries_held s)) (λ _, same_tables s) s.
Proof.
  intros Ht. apply (filtered_ok "scope" _ (as_str sc)); [done|done|by destruct sc|].
  intros e row He. rewrite (row_scope dim e row He). cbn. split; [|by intros ->].
  intros [= Hs]. apply (f_equal from_str) in Hs. rewrite !scope_from_as_str in Hs. congruence.
Qed.

Lemma recall_ok query limit s :
  tidy s →
  wp (recall uri dim message query limit)
    (λ es s', same_tables s s' ∧ (length es ≤ limit)%nat ∧ es ⊆+ entries_held s) (λ _, same_tables s) s.
Proof.
  intros (Hf & Hw & _). unfold recall. wp_steps. unfold check_dim. case_decide as Hdim; [done|]. wp_steps.
  eapply wp_mono; [apply connection_spec|cbn; intros [] s1 Hs1|done]. wp_steps.
  pose proof (open_spec s1) as Ho. unfold wp at 1.
  destruct (on_database (open_table MEMORY_TABLE) s1) as [s2 [t|e]].
  2: { destruct e; [destruct Ho as [Ho _]|]; by trans s1. }
  destruct Ho as (Hs2 & Hn & b & Hb). assert (same_tables s s2) as Hs by by trans s1. rewrite Hs in Hb.
  assert (rows_held s = batch_rows b) as Hr by (unfold rows_held; by rewrite Hb).
  unfold collect_entries, on_database. wp_steps.
  assert (held_tables (database s2) !! table_name t = Some b) as Hb2 by (by rewrite Hn, Hs).
  eapply wp_mono; [by apply nearest_law|cbn; intros bs d (Hd & Hfs & rs & Hp & Hsub & Hlen)|cbn; intros e d Hd; wp_steps; unfold same_tables in *; cbn; congruence].
  wp_steps. rewrite (Hf b Hb) in Hfs.
  assert (Forall (written_row dim) (concat (batch_rows <$> bs))) as Hwb.
  { apply Forall_forall. intros row Hin. rewrite Hp in Hin. eapply elem_of_submseteq in Hin; [|exact Hsub].
    rewrite <- Hr in Hin. by eapply Forall_forall in Hw. }
  destruct (parse_batches dim message bs Hfs Hwb) as (parsed & Hc & He). rewrite Hc. wp_steps.
  split_and!.
  - unfold same_tables in *. cbn. congruence.
  - rewrite He. etrans; [apply length_entries_in|]. by rewrite Hp.
  - rewrite He. unfold entries_held. rewrite Hr. apply entries_in_submseteq. by rewrite Hp.
Qed.
End operations.

(** ** The contract: a map of entries *)

Inductive MemoryOp : Type :=
| OStore (e : MemoryEntry)
| OGet (id : string)
| OList (filter : option ResourceScope)
| ORecall (query : list Z) (limit : nat).

Inductive MemoryAnswer : Type :=
| AStored
| AEntry (o : option MemoryEntry)
| AEntries (es : list MemoryEntry).

(** What an answer says of the map before and after; a failure says nothing was done. *)
Definition answers (op : MemoryOp) (a : result MemoryAnswer AgentStorageError) (m m' : gmap string MemoryEntry) : Prop :=
  match op, a with
  | OStore e, Ok AStored => m' = <[me_id e := storable e]> m
  | OGet id, Ok (AEntry o) => m' = m ∧ o = m !! id
  | OList filter, Ok (AEntries es) =>
      m' = m ∧ NoDup (me_id <$> es) ∧ ∀ e, e ∈ es ↔ m !! me_id e = Some e ∧ in_scope filter (me_scope e)
  | ORecall _ limit, Ok (AEntries es) =>
      m' = m ∧ NoDup (me_id <$> es) ∧ (length es ≤ limit)%nat ∧ ∀ e, e ∈ es → m !! me_id e = Some e
  | _, Ok _ => False
  | _, Err _ => m' = m
  end.

Fixpoint answers_all (ops : list MemoryOp) (l : list (result MemoryAnswer AgentStorageError))
    (m m' : gmap string MemoryEntry) : Prop :=
  match ops, l with
  | [], [] => m' = m
  | op :: ops, a :: l => ∃ m1, answers op a m m1 ∧ answers_all ops l m1 m'
  | _, _ => False
  end.

Section contract.
Context {S : Type} (memory : MemoryStorage S).

Definition perform_memory (op : MemoryOp) : M S AgentStorageError MemoryAnswer :=
  match op with
  | OStore e => let! _ := ms_store memory e in ret AStored
  | OGet id => let! o := ms_get memory id in ret (AEntry o)
  | OList filter =>
      let! es := list_by_scope filter (ms_list_shared memory) (ms_list_local memory) (ms_list memory) in
      ret (AEntries es)
  | ORecall query limit => let! es := ms_recall memory query limit in ret (AEntries es)
  end.

Fixpoint memory_run (ops : list MemoryOp) (s : S) : S * list (result MemoryAnswer AgentStorageError) :=
  match ops with
  | [] => (s, [])
  | op :: ops =>
      let '(s, a) := perform_memory op s in
      let '(s, l) := memory_run ops s in (s, a :: l)
  end.
End contract.

Section refinement.
Context `{!Lance, !LanceLaws, !Postcard (gmap string string), !PostcardLaws (gmap string string)}.
Context (uri : string) (dim : nat) (message : StorageError → string).

(** Entries held, and those of the map. *)
Lemma held_lookup s e : tidy dim message s → e ∈ entries_held message s ↔ memories_of message s !! me_id e = Some e.
Proof. intros (_ & _ & Hnd). unfold memories_of. rewrite by_id_lookup by done. naive_solver. Qed.

Lemma ids_once s es : tidy dim message s → es ⊆+ entries_held message s → NoDup (me_id <$> es).
Proof.
  intros (_ & _ & Hnd) [k Hk]%submseteq_Permutation. rewrite Hk, fmap_app in Hnd. by apply NoDup_app in Hnd as [? _].
Qed.

(** One operation. *)
Lemma perform_memory_ok op s :
  tidy dim message s →
  let '(s', a) := perform_memory (LanceDbMemoryStorage uri dim message) op s in
  tidy dim message s' ∧ answers op a (memories_of message s) (memories_of message s').
Proof.
  intros Ht.
  assert (∀ s', same_tables s s' → tidy dim message s' ∧ memories_of message s' = memories_of message s) as Hsame.
  { intros s' Hs. split; [by eapply same_tidy|by apply (same_memories message)]. }
  assert (wp (perform_memory (LanceDbMemoryStorage uri dim message) op)
    (λ a s', tidy dim message s' ∧ answers op (Ok a) (memories_of message s) (memories_of message s'))
    (λ e s', same_tables s s') s) as Hw.
  { destruct op as [e|id|filter|query limit]; cbn [perform_memory LanceDbMemoryStorage ms_store ms_get ms_list ms_list_shared ms_list_local ms_recall].
    - wp_steps. eapply wp_mono; [by eapply store_memory_ok|cbn; intros [] s' Hs'|done]. by wp_steps.
    - wp_steps. eapply wp_mono; [by eapply get_memory_ok|cbn; intros o s' [-> Hs]|done]. wp_steps.
      destruct (Hsame s' Hs) as [Ht' Hm]. split; [done|]. by cbn.
    - wp_steps.
      assert (wp (list_by_scope filter (query_filtered uri message "scope = 'shared'")
          (query_filtered uri message "scope = 'local'") (query_entries uri message None))
        (λ es s', same_tables s s' ∧ es ⊆+ entries_held message s ∧
           ∀ e, e ∈ es ↔ e ∈ entries_held message s ∧ in_scope filter (me_scope e)) (λ _, same_tables s) s) as Hl.
      { destruct filter as [sc|]; cbn [list_by_scope].
        - assert (wp (query_filtered uri message ("scope" +:+ " = '" +:+ (as_str sc +:+ "'")))
            (λ es s', same_tables s s' ∧ es ⊆+ entries_held message s ∧
               ∀ e, e ∈ es ↔ e ∈ entries_held message s ∧ in_scope (Some sc) (me_scope e)) (λ _, same_tables s) s) as Hl;
            [|by destruct sc].
          eapply wp_mono; [by eapply list_scoped_ok|cbn; intros es s' [Hs Hes]|done]. split; [done|]. split.
          + rewrite Hes. apply sublist_submseteq, sublist_filter.
          + intros e. rewrite Hes, list_elem_of_filter. tauto.
        - eapply wp_mono; [by eapply list_memories_ok|cbn; intros es s' [Hs Hes]|done]. split; [done|]. split.
          + by rewrite Hes.
          + intros e. rewrite Hes. cbn. tauto. }
      eapply wp_mono; [exact Hl|cbn; intros es s' (Hs & Hsub & Hin)|done]. wp_steps.
      destruct (Hsame s' Hs) as [Ht' Hm]. split; [done|]. split; [done|]. split; [exact (ids_once s es Ht Hsub)|].
      intros e. rewrite Hin, (held_lookup s e Ht). done.
    - wp_steps. eapply wp_mono; [by eapply recall_ok|cbn; intros es s' (Hs & Hlen & Hsub)|done]. wp_steps.
      destruct (Hsame s' Hs) as [Ht' Hm]. split; [done|]. split; [done|]. split; [exact (ids_once s es Ht Hsub)|]. split; [done|].
      intros e He. apply (held_lookup s e Ht). by eapply elem_of_submseteq. }
  unfold wp in Hw. destruct (perform_memory _ op s) as [s' [a|e]]; [done|].
  destruct (Hsame s' Hw) as [Ht' Hm]. split; [done|]. by destruct op.
Qed.
End refinement.

(** C35: Any sequence of operations on the memory backend answers as the same
    operations on a map from ids to entries, whatever fails on the way: an entry
    stored replaces the one of its id, a lookup and a listing by scope see
    exactly what is in the map, a recall gives distinct entries of it, and a
    failed operation changes nothing. (An empty origin is stored as none.) *)
Theorem memory_refines_map `{!Lance, !LanceLaws, !Postcard (gmap string string), !PostcardLaws (gmap string string)}
    uri dim message ops (s : Backend_) :
  tidy dim message s →
  let '(s', l) := memory_run (LanceDbMemoryStorage uri dim message) ops s in
  tidy dim message s' ∧ answers_all ops l (memories_of message s) (memories_of message s').
Proof.
  revert s. induction ops as [|op ops IH]; intros s Ht; [done|]. cbn [memory_run].
  pose proof (perform_memory_ok uri dim message op s Ht) as Hop.
  destruct (perform_memory _ op s) as [s1 a]. destruct Hop as [Ht1 Ha]. specialize (IH s1 Ht1).
  destruct (memory_run _ ops s1) as [s' l]. destruct IH as [Ht' Hl]. split; [done|].
  exists (memories_of message s1). by split.
Qed.

(** ** The interface of the pipelines *)

(** The backend on the states it can reach. *)
Section guarded.
Context {S : Type} (inv : S → Prop).

Definition guard {E A} (m : M S E A) (Hm : ∀ s, inv s → inv (m s).1) : M {s | inv s} E A :=
  λ s, (exist _ (m (`s)).1 (Hm _ (proj2_sig s)), (m (`s)).2).

Lemma wp_guard {E A} (m : M S E A) Hm (Q : A → S → Prop) (F : E → S → Prop) (s : {s | inv s}) :
  wp m Q F (`s) → wp (guard m Hm) (λ a s', Q a (`s')) (λ e s', F e (`s')) s.
Proof. unfold wp, guard. cbn. by destruct (m (`s)) as [s' [a|e]]. Qed.

Lemma wp_kept {E A} (m : M S E A) s :
  wp m (λ _, inv) (λ _, inv) s → inv (m s).1.
Proof. unfold wp. by destruct (m s) as [s' [a|e]]. Qed.
End guarded.

Section interface.
Context `{!Lance, !LanceLaws, !Postcard (gmap string string), !PostcardLaws (gmap string string)}.
Context (uri : string) (dim : nat) (message : StorageError → string).

Abbreviation Reached := {s : Backend_ | tidy dim message s}.

Lemma kept_by_reads {A} (m : M Backend_ AgentStorageError A) (Q : A → Backend_ → Prop) s :
  tidy dim message s → wp m (λ a s', same_tables s s' ∧ Q a s') (λ _, same_tables s) s → tidy dim message (m s).1.
Proof.
  intros Ht Hw. apply (wp_kept (tidy dim message)). eapply wp_mono; [exact Hw|cbn; intros a s' [Hs _]|cbn; intros e s' Hs];
    by eapply same_tidy.
Qed.

Lemma store_kept e s : tidy dim message s → tidy dim message (store_memory uri dim message e s).1.
Proof.
  intros Ht. apply (wp_kept (tidy dim message)).
  eapply wp_mono; [by apply store_memory_ok|cbn; by intros _ s' [Hs _]|cbn; intros err s' Hs; by eapply same_tidy].
Qed.

Lemma get_kept id s : tidy dim message s → tidy dim message (get_memory uri message id s).1.
Proof.
  intros Ht. apply (kept_by_reads _ (λ o _, o = memories_of message s !! id)); [done|].
  eapply wp_mono; [by eapply get_memory_ok|cbn; tauto|done].
Qed.

Lemma list_kept s : tidy dim message s → tidy dim message (query_entries uri message None s).1.
Proof. intros Ht. by eapply kept_by_reads, list_memories_ok. Qed.

Lemma scope_kept sc s :
  tidy dim message s → tidy dim message (query_filtered uri message ("scope" +:+ " = '" +:+ (as_str sc +:+ "'")) s).1.
Proof. intros Ht. by eapply kept_by_reads, list_scoped_ok. Qed.

Lemma recall_kept query limit s : tidy dim message s → tidy dim message (recall uri dim message query limit s).1.
Proof. intros Ht. by eapply kept_by_reads, recall_ok. Qed.

Definition reached_memory : MemoryStorage Reached := {|
  ms_store := λ e, guard _ (store_memory uri dim message e) (store_kept e);
  ms_recall := λ q k, guard _ (recall uri dim message q k) (recall_kept q k);
  ms_get := λ id, guard _ (get_memory uri message id) (get_kept id);
  ms_list := guard _ (query_entries uri message None) list_kept;
  ms_list_shared := guard _ (query_filtered uri message "scope = 'shared'") (scope_kept ClusterShared);
  ms_list_local := guard _ (query_filtered uri message "scope = 'local'") (scope_kept NodeLocal);
|}.

Definition reached_memories (s : Reached) : gmap string MemoryEntry := memories_of message (`s).

#[export] Instance reached_laws : MemoryLaws reached_memory reached_memories.
Proof.
  split.
  - intros id s. apply (wp_guard _ (get_memory uri message id) _ (λ o s', o = memories_of message (`s) !! id ∧
      memories_of message s' = memories_of message (`s)) (λ _ s', memories_of message s' = memories_of message (`s))).
    eapply wp_mono; [eapply get_memory_ok, proj2_sig|cbn; intros o s' [-> Hs]|cbn; intros e s' Hs];
      rewrite (same_memories message _ _ Hs); done.
  - intros entry s Hsrc. apply (wp_guard _ (store_memory uri dim message entry) _
      (λ _ s', memories_of message s' = <[me_id entry := entry]> (memories_of message (`s)))
      (λ _ s', memories_of message s' = memories_of message (`s))).
    eapply wp_mono; [eapply store_memory_ok, proj2_sig|cbn; intros _ s' [_ Hs]|cbn; intros e s' Hs].
    + by rewrite Hs, storable_same.
    + by apply same_memories.
Qed.

Lemma scope_listed sc (s : Reached) :
  wp (query_filtered uri message ("scope" +:+ " = '" +:+ (as_str sc +:+ "'")))
    (λ l s', memories_of message s' = memories_of message (`s) ∧
       ∀ e, e ∈ l ↔ ∃ id, memories_of message (`s) !! id = Some e ∧ me_scope e = sc)
    (λ _ s', memories_of message s' = memories_of message (`s)) (`s).
Proof.
  eapply wp_mono; [eapply list_scoped_ok, proj2_sig|cbn; intros es s' [Hs Hes]|cbn; intros e s' Hs].
  - split; [by apply same_memories|]. intros e. rewrite Hes, list_elem_of_filter, (held_lookup dim) by apply proj2_sig.
    split; [naive_solver|]. intros (id & Hid & Hsc). split; [done|].
    assert (me_id e = id) as ->; [|done]. destruct (proj2_sig s) as (_ & _ & Hnd). by apply by_id_lookup in Hid as [_ ->].
  - by apply same_memories.
Qed.

#[export] Instance reached_reads : MemoryReads reached_memory reached_memories.
Proof.
  split.
  - intros s. apply (wp_guard _ (query_entries uri message None) _
      (λ l s', memories_of message s' = memories_of message (`s) ∧
         ∀ e, e ∈ l ↔ ∃ id, memories_of message (`s) !! id = Some e)
      (λ _ s', memories_of message s' = memories_of message (`s))).
    eapply wp_mono; [eapply list_memories_ok, proj2_sig|cbn; intros es s' [Hs Hes]|cbn; intros e s' Hs].
    + split; [by apply same_memories|]. intros e. rewrite Hes, (held_lookup dim) by apply proj2_sig.
      split; [by eauto|]. intros (id & Hid).
      assert (me_id e = id) as ->; [|done]. destruct (proj2_sig s) as (_ & _ & Hnd). by apply by_id_lookup in Hid as [_ ->].
    + by apply same_memories.
  - intros sc s. pose proof (scope_listed sc s) as Hl. destruct sc; exact (wp_guard _ _ (scope_kept _) _ _ s Hl).
Qed.

#[export] Instance reached_listing : MemoryListing reached_memory reached_memories.
Proof.
  split. intros s. eapply wp_mono; [apply (ms_list_filtered_law ClusterShared s)|cbn; intros l s' [Hs Hl]|done].
  split; [done|]. intros e. rewrite Hl. done.
Qed.
End interface.

(** ** An instance *)

(** A database that is its tables, and a reader of filters. *)
Definition drop4 (s : string) : string :=
  match s with String _ (String _ (String _ (String _ s))) => s | _ => "" end.

Fixpoint split_filter (s : string) : option (string * string) :=
  if String.prefix " = '" s then Some ("", drop4 s)
  else match s with
       | EmptyString => None
       | String c s => '(name, rest) ← split_filter s; Some (String c name, rest)
       end.

Definition toy_select (filter : option string) (b : RecordBatch) : list (list Cell) :=
  match filter with
  | None => batch_rows b
  | Some f =>
      match '(name, rest) ← split_filter f; '(value, tail) ← read_literal rest;
            if decide (tail = "") then Some (name, value) else None with
      | Some (name, value) =>
          base.filter (λ row, cell_named name (fields b) row = Some (CUtf8 (Some value))) (batch_rows b)
      | None => []
      end
  end.

#[local] Instance toy_lance : Lance := {|
  LanceDb := gmap string RecordBatch;
  Table := string;
  lance_connect := λ _ d, (d, Ok tt);
  open_table := λ name d, (d, match d !! name with Some _ => Ok name | None => Err TableNotFound end);
  create_table := λ name b d, (<[name := b]> d, Ok tt);
  merge_insert := λ t keys b d,
    match d !! t, keys with
    | Some old, [key] =>
        (<[t := mkBatch (fields old)
             (base.filter (λ row, cell_named key (fields old) row ∉ cell_named key (fields old) <$> batch_rows b)
                (batch_rows old) ++ batch_rows b)]> d, Ok tt)
    | _, _ => (d, Err "no such table")
    end;
  run_query := λ t filter d,
    (d, match d !! t with Some b => Ok [mkBatch (fields b) (toy_select filter b)] | None => Err "no such table" end);
  run_nearest := λ t _ limit d,
    (d, match d !! t with Some b => Ok [mkBatch (fields b) (take limit (batch_rows b))] | None => Err "no such table" end);
  not_found_text := "table not found";
  arrow_error := "invalid batch";
|}.

Lemma split_filter_name name rest :
  identifier name = true → split_filter (name +:+ " = '" +:+ rest) = Some (name, rest).
Proof.
  induction name as [|c name IH]; intros Hn; [by cbn; destruct rest|]. cbn in Hn. apply andb_true_iff in Hn as [Hc Hn].
  change (String c name +:+ " = '" +:+ rest) with (String c (name +:+ " = '" +:+ rest)).
  cbn [split_filter]. destruct (String.prefix " = '" (String c (name +:+ " = '" +:+ rest))) eqn:Hp.
  - change (String.prefix " = '" (String c (name +:+ " = '" +:+ rest))) with
      (if ascii_dec " " c then String.prefix "= '" (name +:+ " = '" +:+ rest) else false) in Hp.
    destruct (ascii_dec " " c) as [Hs|]; [|done]. subst c. by vm_compute in Hc.
  - by rewrite (IH Hn).
Qed.

#[local] Instance toy_lance_laws : LanceLaws.
Proof.
  unshelve refine {| held_tables := λ d : @LanceDb toy_lance, d; table_name := λ t : @Table toy_lance, t |}.
  - done.
  - intros name d. unfold wp. cbn. case_match eqn:Ho; case_match eqn:Hd; simplify_eq; (split; [done|]); [by split; [eexists|]|done].
  - done.
  - intros t key b old d Hd Hf. unfold wp. cbn. rewrite Hd. cbn. eexists. split; [reflexivity|done].
  - intros t d old Hd. unfold wp. cbn. rewrite Hd. cbn. rewrite app_nil_r. by repeat constructor.
  - intros t d old name rest value Hd Hn Hl. unfold wp. cbn [run_query toy_lance]. rewrite Hd. unfold toy_select.
    rewrite (split_filter_name name rest Hn). cbn. rewrite Hl. cbn. rewrite app_nil_r. by repeat constructor.
  - intros t q limit d old Hd. unfold wp. cbn. rewrite Hd. cbn. rewrite app_nil_r.
    split; [done|]. split; [by repeat constructor|]. exists (take limit (batch_rows old)). split; [done|]. split.
    + apply sublist_submseteq, sublist_take.
    + rewrite length_take. lia.
Defined.

#[local] Existing Instance toy_postcard.
#[local] Existing Instance toy_postcard_laws.

Definition a_memory (id content : string) (sc : ResourceScope) : MemoryEntry :=
  mkMemory id content [0; 0] ∅ sc None 1 2 content 1.

Definition no_table : Backend_ := mkBackend (∅ : LanceDb) false.

Lemma memory_refines_map_witness :
  let ops := [OStore (a_memory "m'1" "one" NodeLocal); OStore (a_memory "m2" "two" ClusterShared);
              OStore (a_memory "m'1" "three" ClusterShared); OGet "m'1"; OList (Some ClusterShared);
              OStore (mkMemory "m3" "bad" [0] ∅ NodeLocal None 1 2 "bad" 1)] in
  let '(s', l) := memory_run (LanceDbMemoryStorage "/data/memory.lancedb" 2 (λ _, "failed")) ops no_table in
  answers_all ops l ∅ (memories_of (λ _, "failed") s') ∧
  l !! 3%nat = Some (Ok (AEntry (Some (a_memory "m'1" "three" ClusterShared)))) ∧
  is_ok <$> l = [true; true; true; true; true; false].
Proof.
  intros ops.
  assert (tidy 2 (λ _, "failed") no_table) as Ht by (split; [done|split; [constructor|apply NoDup_nil_2]]).
  pose proof (memory_refines_map "/data/memory.lancedb" 2 (λ _, "failed") ops no_table Ht) as Hr.
  assert (let l := (memory_run (LanceDbMemoryStorage "/data/memory.lancedb" 2 (λ _, "failed")) ops no_table).2 in
    l !! 3%nat = Some (Ok (AEntry (Some (a_memory "m'1" "three" ClusterShared)))) ∧
    is_ok <$> l = [true; true; true; true; true; false]) as Hl by (split; vm_compute; reflexivity).
  destruct (memory_run _ ops no_table) as [s' l]. exact (conj (proj2 Hr) Hl).
Defined.
