(* ===== verification/Rpc.v ===== *)
(** * The cluster service ([crates/daemon/src/rpc/server.rs], [mod.rs], [resource.rs], [resource/error.rs], [runtime.rs])

    What a daemon answers to its clients: the handlers of the [Cluster] service
    over the membership service, the node's tables, the gossip and the resource
    facade, the statuses its failures become, and the gate in front of them. A
    handler runs to its end before the next; the requests it sends to other nodes
    on the way come with its answer. The preparation of the stores at start-up,
    before the server listens, comes first. *)

From S2P Require Import Prelude.
From S2P Require Import Effects.
From S2P Require Import Versioned.
From S2P Require Import Tables.
From S2P Require Import NodeStores.
From S2P Require Import ContentStores.
From S2P Require Import Resources.
From S2P Require Import ResourceTheorems.
From S2P Require Import Register.
From S2P Require Import Membership.
From S2P Require Import Merkle.
From S2P Require Import Swim.
From S2P Require Import Service.
From S2P Require Import Identity.
From S2P Require Import Gossip.
From S2P Require Import Mapper.
From S2P Require Import NodeProtocol.
From S2P Require Import Cluster.
From S2P Require Import ClusterKey.
From S2P Require Import Grpc.
From S2P Require Import Listing.

#[local] Open Scope Z_scope.

(** ** Texts of failures *)

(** The texts that other code renders: an error of the database, and [{:?}] of a
    string. *)
Class FailureTexts := { redb_text : RedbError → string; debug_text : string → string }.

Definition i32_text (n : Z) : string :=
  if decide (n < 0) then "-" +:+ u64_to_string (- n) else u64_to_string n.

Definition kind_debug (k : ResourceKind) : string :=
  match k with
  | Node => "Node" | Session => "Session" | Memory => "Memory" | Skill => "Skill"
  | Rule => "Rule" | Workspace => "Workspace" | Extension => "Extension"
  end.

Section texts.
Context `{!FailureTexts}.

Definition storage_text (e : StorageError) : string :=
  match e with
  | RedbFailure e => "redb error: " +:+ redb_text e
  | Io e => "io error: " +:+ e
  | Serialization e => "serialization error: " +:+ e
  | SelfPrimary => "cannot set the local node's own address as primary"
  end.

Definition invalid_id_text (e : InvalidResourceId) : string :=
  match e with Invalid id => "invalid resource id: " +:+ debug_text id end.

Definition agent_text (e : AgentStorageError) : string :=
  match e with
  | Backend message => "backend error: " +:+ message
  | AgHashMismatch => "content hash mismatch"
  | InvalidEmbeddingDim expected actual =>
      "embedding dimension mismatch: expected " +:+ u64_to_string (Z.of_nat expected) +:+
      ", got " +:+ u64_to_string (Z.of_nat actual)
  end.

Definition workspace_text (e : WorkspaceStorageError) : string :=
  match e with
  | Storage e => "storage error: " +:+ storage_text e
  | WsHashMismatch => "content hash mismatch"
  | GitCommandFailed message => "git command failed: " +:+ message
  | WsInvalidResourceId e => invalid_id_text e
  end.

Definition extension_text (e : ExtensionStorageError) : string :=
  match e with
  | ExtStorage e => "storage error: " +:+ storage_text e
  | ExtHashMismatch => "content hash mismatch"
  | ExtInvalidResourceId e => invalid_id_text e
  end.

(** ** Statuses *)

Definition agent_storage_status (context : string) (e : AgentStorageError) : Status :=
  mkStatus (match e with AgHashMismatch | InvalidEmbeddingDim _ _ => InvalidArgument | Backend _ => Internal end)
    (context +:+ ": " +:+ agent_text e).

Definition workspace_storage_status (context : string) (e : WorkspaceStorageError) : Status :=
  mkStatus
    (match e with
     | WsHashMismatch | WsInvalidResourceId _ => InvalidArgument
     | Storage _ | GitCommandFailed _ => Internal
     end) (context +:+ ": " +:+ workspace_text e).

Definition extension_storage_status (context : string) (e : ExtensionStorageError) : Status :=
  mkStatus
    (match e with ExtHashMismatch | ExtInvalidResourceId _ => InvalidArgument | ExtStorage _ => Internal end)
    (context +:+ ": " +:+ extension_text e).

Definition storage_status (context : string) (e : StorageError) : Status :=
  mkStatus Internal (context +:+ ": " +:+ storage_text e).

(** [From<MapperError> for Status] *)
Definition mapper_status (e : MapperError) : Status :=
  match e with
  | MissingMetadata => mkStatus InvalidArgument "missing resource metadata"
  | UnknownKind raw => mkStatus InvalidArgument ("unknown resource kind: " +:+ i32_text raw)
  | UnknownScope raw => mkStatus InvalidArgument ("unknown resource scope: " +:+ i32_text raw)
  | MissingBody k id =>
      mkStatus InvalidArgument ("missing body for " +:+ kind_debug k +:+ " resource '" +:+ id +:+ "'")
  | KindBodyMismatch k => mkStatus InvalidArgument ("resource kind " +:+ kind_debug k +:+ " does not match its body")
  | NotShared id s =>
      mkStatus FailedPrecondition
        ("only cluster-shared resources can be applied; resource '" +:+ id +:+ "' is " +:+ Versioned.as_str s)
  | NotSynchronized k => mkStatus FailedPrecondition (kind_debug k +:+ " resources are not synchronized")
  | Mapper.NotFound id => mkStatus NotFound ("resource not found: " +:+ id)
  | AgentFailure context e => agent_storage_status context e
  | WorkspaceFailure context e => workspace_storage_status context e
  | ExtensionFailure context e => extension_storage_status context e
  end.
End texts.

(** ** Before the server listens *)

Section startup.
Context `{!Redb, !Postcard string, !Postcard PeerRecord}.

Fixpoint seed_all (bootstrap_peers : list string) : M Database StorageError () :=
  match bootstrap_peers with
  | [] => ret tt
  | peer :: rest => let! _ := seed peer in seed_all rest
  end.

(** The known peers, and the first of them as the primary when none is set. *)
Definition prepare_peers (bootstrap_peers : list string) (own_address : string) : M Database StorageError () :=
  let! _ := seed_all bootstrap_peers in
  let! primary := get_primary in
  match primary, head (filter (λ peer, peer ≠ own_address) bootstrap_peers) with
  | None, Some first_peer => NodeStores.set_primary first_peer own_address
  | _, _ => ret tt
  end.

Fixpoint set_labels (l : list (string * string)) : M Database StorageError () :=
  match l with
  | [] => ret tt
  | (key, value) :: l => let! _ := set_label key value in set_labels l
  end.

Definition apply_config_labels `{!HashIter} (labels : gmap string string) : M Database StorageError () :=
  set_labels (hash_iter labels).
End startup.

(** ** The service *)

Inductive ClusterRequest : Type :=
| RRegister (info : option NodeInfo)
| RSetPrimaryEndpoint (address : string)
| RJoin (info : option NodeInfo)
| RLeave (node_id : string)
| RListResources (kind : Z) (selector : gmap string string) (scope : Z)
| RGetResource (kind : Z) (id : string).

Inductive ClusterResponse : Type :=
| Decided (accepted : bool) (reason : string)
| Listed (resources : list Resource)
| Found (resource : Resource).

Section service.
Context `{!HashIter, !Redb, !Blake3, !Git, !FailureTexts, !Hex, !HeaderText}.
Context `{!Postcard string, !Postcard PeerRecord}.
Context `{!Postcard VersionedResource, !Postcard WorkspaceRecord, !Postcard ExtensionRecord,
          !Postcard Resources.Session}.
Context {S : Type} (memory : MemoryStorage S) (data_dir : string).

(** The daemon behind its services: the gossip, with the membership and the
    tables, the files and the memory backend, the permit of the extension
    manager, the shutdown flag, and the requests sent to other nodes. *)
Record Daemon : Type := mkDaemon {
  sync : ClusterSync;
  gossips : bool;
  dm_fs : Fs;
  dm_memories : S;
  dm_notify : option bool;
  shutdown : option bool;
  sent : list Outgoing;
}.

Definition set_sync (s : ClusterSync) (d : Daemon) : Daemon :=
  mkDaemon s (gossips d) (dm_fs d) (dm_memories d) (dm_notify d) (shutdown d) (sent d).
Definition add_sent (l : list Outgoing) (d : Daemon) : Daemon :=
  mkDaemon (sync d) (gossips d) (dm_fs d) (dm_memories d) (dm_notify d) (shutdown d) (sent d ++ l).
Definition send_shutdown (d : Daemon) : Daemon :=
  mkDaemon (sync d) (gossips d) (dm_fs d) (dm_memories d) (dm_notify d) ((λ _, true) <$> shutdown d) (sent d).

Definition tables (d : Daemon) : Database := node (sync d).
Definition set_tables (db : Database) (d : Daemon) : Daemon := set_sync (set_node db (sync d)) d.

(** What the resource facade sees of the daemon. *)
Definition facade (d : Daemon) : NodeState Database S :=
  mkNodeState (mkStore (tables d) (dm_fs d)) (dm_memories d) (dm_notify d).
Definition set_facade (n : NodeState Database S) (d : Daemon) : Daemon :=
  mkDaemon (set_node (db (store n)) (sync d)) (gossips d) (fs (store n)) (memories n) (extension_notify n)
    (shutdown d) (sent d).

Definition local_node_id (d : Daemon) : string := svc_node_id (Cluster.service (sync d)).

(** [ClusterSync::dispatch]; the answer to a probe comes back by itself. *)
Fixpoint dispatch (targets : list string) (actions : list OutboundAction) (self : ClusterSync)
    : ClusterSync * list Outgoing :=
  match actions with
  | [] => (self, [])
  | action :: actions =>
      let '(self, l) := dispatch_one targets action self in
      let '(self, more) := dispatch targets actions self in
      (self, l ++ more)
  end.

Definition dispatch_actions (targets : list string) (actions : list SwimAction) (d : Daemon) : Daemon :=
  let '(self, l) := dispatch targets (omap from_swim actions) (sync d) in add_sent l (set_sync self d).

Definition announce (targets : list string) (info : NodeInfo) (d : Daemon) : Daemon :=
  let '(self, l) := push_change targets info (sync d) in add_sent l (set_sync self d).

Section handlers.
Context (now : Z) (disk : bool) (targets : list string).

Definition admit_node (info : option NodeInfo) : M Daemon Status (result NodeInfo string) :=
  let! info := lift (ok_or info (mkStatus InvalidArgument "missing node info")) in
  if decide (ni_id info = "") then ret (Err "node id must not be empty")
  else λ d,
    let '(service, actions) := Service.register (Cluster.service (sync d)) (proto_to_register info) now disk in
    let d := set_sync (set_service service (sync d)) d in
    let d := if gossips d then announce targets info (dispatch_actions targets actions d) else d in
    (d, Ok (Ok info)).

Definition register (info : option NodeInfo) : M Daemon Status ClusterResponse :=
  let! admitted := admit_node info in
  ret match admitted with Ok _ => Decided true "" | Err reason => Decided false reason end.

(** [peers().seed]; a failed write is logged. *)
Definition seed_joined (address : string) : M Daemon Status () := λ d,
  (set_tables (seed address (tables d)).1 d, Ok tt).

Definition join (info : option NodeInfo) : M Daemon Status ClusterResponse :=
  let! admitted := admit_node info in
  match admitted with
  | Err reason => ret (Decided false reason)
  | Ok info => let! _ := seed_joined (ni_address info) in ret (Decided true "")
  end.

Definition set_primary_endpoint (address : string) : M Daemon Status ClusterResponse := λ d,
  if decide (address = "") then (d, Ok (Decided false "address must not be empty"))
  else
    match member_address (Cluster.service (sync d)) (local_node_id d) with
    | None => (d, Err (mkStatus FailedPrecondition "local node is not registered in membership"))
    | Some local_address =>
        match NodeStores.set_primary address local_address (tables d) with
        | (db, Ok _) => (set_tables db d, Ok (Decided true ""))
        | (db, Err SelfPrimary) => (set_tables db d, Ok (Decided false (storage_text SelfPrimary)))
        | (db, Err error) => (set_tables db d, Err (storage_status "failed to set primary endpoint" error))
        end
    end.

Definition leave (node_id : string) : M Daemon Status ClusterResponse := λ d,
  let local_id := local_node_id d in
  let '(service, actions) := Service.leave (Cluster.service (sync d)) node_id now disk in
  let d := set_sync (set_service service (sync d)) d in
  let d := if gossips d then dispatch_actions targets actions d else d in
  let d := if decide (node_id = local_id) then send_shutdown d else d in
  (d, Ok (Decided true "")).

Definition parse_kind (raw : Z) : result ResourceKind Status := map_err mapper_status (decode_kind raw).

Definition list_handler (kind : Z) (selector : gmap string string) (scope : Z) : M Daemon Status ClusterResponse :=
  let! kind := lift (parse_kind kind) in
  let! scope := lift (map_err mapper_status (parse_scope_filter scope)) in
  let! resources := λ d,
    zoom facade set_facade (with_err mapper_status
      (list_resources memory data_dir storage_text (Cluster.service (sync d)) kind selector scope)) d in
  ret (Listed resources).

Definition get_handler (kind : Z) (id : string) : M Daemon Status ClusterResponse :=
  let! kind := lift (parse_kind kind) in
  let! resource := λ d,
    zoom facade set_facade (with_err mapper_status
      (get_resource memory data_dir storage_text (Cluster.service (sync d)) kind id)) d in
  ret (Found resource).

Definition handle_request (request : ClusterRequest) : M Daemon Status ClusterResponse :=
  match request with
  | RRegister info => register info
  | RSetPrimaryEndpoint address => set_primary_endpoint address
  | RJoin info => join info
  | RLeave node_id => leave node_id
  | RListResources kind selector scope => list_handler kind selector scope
  | RGetResource kind id => get_handler kind id
  end.

(** The service behind its gate. *)
Definition serve (expected header : option bytes) (request : ClusterRequest) : M Daemon Status ClusterResponse :=
  let! _ := lift (cluster_key_interceptor expected header) in
  handle_request request.
End handlers.
End service.

(** ** The gate *)

(** One call of a client, with what the daemon meets while it serves it. *)
Record Call : Type := mkCall {
  c_now : Z;
  c_disk : bool;
  c_targets : list string;
  c_header : option bytes;
  c_request : ClusterRequest;
}.

Section calls.
Context `{!HashIter, !Redb, !Blake3, !Git, !FailureTexts, !Hex, !HeaderText}.
Context `{!Postcard string, !Postcard PeerRecord}.
Context `{!Postcard VersionedResource, !Postcard WorkspaceRecord, !Postcard ExtensionRecord,
          !Postcard Resources.Session}.
Context {S : Type} (memory : MemoryStorage S) (data_dir : string).
Implicit Types d : Daemon (S := S).

Definition handle_call (c : Call) : M Daemon Status ClusterResponse :=
  handle_request memory data_dir (c_now c) (c_disk c) (c_targets c) (c_request c).

Definition serve_call (expected : option bytes) (c : Call) : M Daemon Status ClusterResponse :=
  serve memory data_dir (c_now c) (c_disk c) (c_targets c) expected (c_header c) (c_request c).

(** Calls one after the other, with their answers. *)
Fixpoint answer_all (step : Call → M Daemon Status ClusterResponse) (calls : list Call) d
    : Daemon * list (result ClusterResponse Status) :=
  match calls with
  | [] => (d, [])
  | c :: calls =>
      let '(d, a) := step c d in
      let '(d, answers) := answer_all step calls d in
      (d, a :: answers)
  end.

Definition passes (expected : option bytes) (c : Call) : bool :=
  is_ok (cluster_key_interceptor expected (c_header c)).

Definition well_formed_key (expected : option bytes) : Prop :=
  ∀ key, expected = Some key → String.length key = KEY_LENGTH.

Lemma passes_spec expected c : well_formed_key expected → passes expected c = true ↔ knows expected (c_header c).
Proof.
  intros Hwf. unfold passes. pose proof (interceptor_spec expected (c_header c) Hwf) as Hs.
  destruct (cluster_key_interceptor expected (c_header c)); cbn; naive_solver.
Qed.

Lemma serve_passed expected c d : passes expected c = true → serve_call expected c d = handle_call c d.
Proof.
  unfold passes, serve_call, serve, bind, lift. by destruct (cluster_key_interceptor expected (c_header c)) as [[]|].
Qed.

Lemma serve_refused expected c d :
  well_formed_key expected → passes expected c = false →
  ∃ status, serve_call expected c d = (d, Err status) ∧ code status = refusal expected (c_header c).
Proof.
  intros Hwf. unfold passes, serve_call, serve, bind, lift.
  pose proof (interceptor_spec expected (c_header c) Hwf) as Hs.
  destruct (cluster_key_interceptor expected (c_header c)) as [|status]; [done|]. intros _. exists status. naive_solver.
Qed.
End calls.


(** ** Joining by the service *)

Section joining.
Context `{!HashIter, !Redb, !Blake3, !Git, !FailureTexts, !Hex, !HeaderText}.
Context `{!Postcard string, !Postcard PeerRecord}.
Context {S : Type}.
Implicit Types d : Daemon (S := S).

(** What gossip leaves alone. *)
Definition same_member (self self' : ClusterSync) : Prop :=
  Cluster.service self' = Cluster.service self ∧ sync_node_id self' = sync_node_id self.

#[export] Instance same_member_preorder : PreOrder same_member.
Proof. split; [by split|]. intros s1 s2 s3 [Ha Hb] [Hc Hd]. split; congruence. Qed.

Lemma allocate_push_member self : same_member self (allocate_push self).1.
Proof. unfold allocate_push. by destruct (Gossip.next _ _) as [[next db] sequence]. Qed.

Lemma allocate_push_origin self : (allocate_push self).2.1 = sync_node_id self.
Proof. unfold allocate_push. by destruct (Gossip.next _ _) as [[next db] sequence]. Qed.

Lemma dispatch_one_member targets action self : same_member self (dispatch_one targets action self).1.
Proof.
  destruct action; cbn; try done. by destruct (connect target).
Qed.

Lemma dispatch_member targets actions self : same_member self (dispatch targets actions self).1.
Proof.
  revert self. induction actions as [|action actions IH]; intros self; [done|]. cbn [dispatch].
  pose proof (dispatch_one_member targets action self) as Hm.
  destruct (dispatch_one targets action self) as [self1 l]. specialize (IH self1).
  destruct (dispatch targets actions self1) as [self2 more]. by trans self1.
Qed.

Lemma announced targets info d :
  same_member (sync d) (sync (announce targets info d)) ∧
  ∃ sequence, ∀ target, target ∈ targets →
    mkOutgoing target (QPushNode (Some info) (sync_node_id (sync d)) sequence) ∈ sent (announce targets info d).
Proof.
  unfold announce, push_change. pose proof (allocate_push_member (sync d)) as Hm.
  pose proof (allocate_push_origin (sync d)) as Ho.
  destruct (allocate_push (sync d)) as [self [origin sequence]]. cbn in *. subst origin. split; [done|].
  exists sequence. intros target Ht. apply elem_of_app. right. unfold broadcast_push.
  apply list_elem_of_fmap. by exists target.
Qed.

(** A valid request to join is admitted: the membership service merges the
    register, and every target of the gossip is told under a fresh number. *)
Theorem join_admits now disk targets info d :
  ni_id info ≠ "" →
  let '(d', answer) := join now disk targets (Some info) d in
  answer = Ok (Decided true "") ∧
  Cluster.service (sync d') = (Service.register (Cluster.service (sync d)) (proto_to_register info) now disk).1 ∧
  (gossips d = true →
   ∃ sequence, ∀ target, target ∈ targets →
     mkOutgoing target (QPushNode (Some info) (sync_node_id (sync d)) sequence) ∈ sent d').
Proof.
  intros Hi. unfold join, admit_node, seed_joined, bind, lift, ret. cbn [ok_or]. rewrite decide_False by done.
  destruct (Service.register _ _ _ _) as [service actions]. cbn [fst].
  change (gossips (set_sync (set_service service (sync d)) d)) with (gossips d).
  destruct (gossips d) eqn:Hg; [|by split_and!].
  unfold dispatch_actions. cbn [sync set_sync].
  pose proof (dispatch_member targets (omap from_swim actions) (set_service service (sync d))) as Hm.
  destruct (dispatch targets (omap from_swim actions) (set_service service (sync d))) as [self l]. cbn in Hm.
  match goal with |- context [announce targets info ?x] => set (d1 := x) end.
  destruct (announced targets info d1) as [[Hs Hn] [sequence Ha]]. change (sync d1) with self in *.
  destruct Hm as [Hms Hmn]. cbn in Hms, Hmn. split_and!; [done|cbn; congruence|]. intros _. exists sequence.
  rewrite Hmn in Ha. exact Ha.
Qed.

(** A request without a payload, or with an empty id, changes nothing. *)
Lemma join_refuses now disk targets info d :
  (∀ i, info = Some i → ni_id i = "") →
  (join now disk targets info d).1 = d ∧ (register now disk targets info d).1 = d ∧
  (join now disk targets info d).2 ≠ Ok (Decided true "").
Proof.
  intros Hi. unfold join, register, admit_node, bind, lift, ret. destruct info as [i|]; [|done].
  cbn [ok_or]. rewrite decide_True by (by apply Hi). done.
Qed.
End joining.

(** ** The primary endpoint *)

Section primary.
Context `{!Redb, !RedbLaws} `{!Postcard string, !PostcardLaws string} `{!Postcard PeerRecord, !PostcardLaws PeerRecord}.

Lemma seed_all_sound own l db :
  sound_peers own db → wp (seed_all l) (λ _, sound_peers own) (λ _, sound_peers own) db.
Proof.
  revert db. induction l as [|peer l IH]; intros db Hs; cbn; wp_steps; [done|].
  eapply wp_mono; [by apply (peer_step_sound own (Seed peer))|cbn; intros _ db' Hs'; by apply IH|done].
Qed.

(** Whatever its configuration lists, a node that starts does not become its own primary. *)
Lemma prepare_peers_sound l own db :
  sound_peers own db → wp (prepare_peers l own) (λ _, sound_peers own) (λ _, sound_peers own) db.
Proof.
  intros Hs. unfold prepare_peers. wp_steps.
  eapply wp_mono; [by apply seed_all_sound|cbn; intros _ db1 Hs1|done]. wp_steps. unfold get_primary.
  eapply wp_mono; [apply get_spec| |].
  - intros o db2 [-> Hdb]. assert (sound_peers own db2) as Hs2.
    { unfold sound_peers, peers, primary, view in *. by rewrite Hdb. }
    destruct (view PRIMARY db1 !! PRIMARY_KEY); [by wp_steps|]. destruct (head _) as [first|]; [|by wp_steps].
    by apply (peer_step_sound own (SetPrimary first)).
  - intros e db2 Hdb. unfold untouched in Hdb. unfold sound_peers, peers, primary, view in *. by rewrite Hdb.
Qed.

Context `{!HashIter, !Blake3, !Git, !FailureTexts} {S : Type}.

(** The same holds of what a client asks. *)
Lemma set_primary_endpoint_sound address own (d : Daemon (S := S)) :
  member_address (Cluster.service (sync d)) (local_node_id d) = Some own →
  sound_peers own (tables d) → sound_peers own (tables (set_primary_endpoint address d).1).
Proof.
  intros Ho Hs. unfold set_primary_endpoint. case_decide; [done|]. rewrite Ho.
  pose proof (peer_step_sound own (SetPrimary address) (tables d) Hs) as Hw. unfold wp in Hw. cbn in Hw.
  destruct (NodeStores.set_primary address own (tables d)) as [db [[]|[]]]; exact Hw.
Qed.
End primary.

(** ** An instance *)

#[local] Existing Instance gmap_hash_iter.
#[local] Existing Instance toy_postcard.
#[local] Existing Instance toy_redb.
#[local] Existing Instance ResourceTheorems.toy_blake3.
#[local] Existing Instance ResourceTheorems.toy_git.
#[local] Existing Instance ResourceTheorems.ex_eq_dec.
#[local] Existing Instance ResourceTheorems.ex_countable.
#[local] Existing Instance ResourceTheorems.ws_eq_dec.
#[local] Existing Instance ResourceTheorems.ws_countable.
#[local] Existing Instance Listing.session_eq_dec.
#[local] Existing Instance Listing.session_countable.
#[local] Instance plain_texts : FailureTexts := {| redb_text := λ _, "failed"; debug_text := λ s, s |}.
#[local] Instance bare_hex : Hex := {| hex_encode := λ b, b; hex_decode := λ s, Ok s |}.
#[local] Instance plain_headers : HeaderText := {| to_str := λ v, Some v |}.

Definition a_key : bytes := "0123456789abcdef0123456789abcdef".
Definition a_daemon : Daemon (S := gmap string MemoryEntry) :=
  mkDaemon (Cluster.new "local" a_service blank_db) true (mkFs ∅ ∅ []) ∅ None (Some false) [].
Definition an_info : NodeInfo := mkNodeInfo "peer" "b:1" ∅ ∅ 0 0 1 0.
Definition some_calls : list Call :=
  [mkCall 5 true ["peer"] None (RLeave "local");
   mkCall 6 true ["peer"] (Some a_key) (RJoin (Some an_info));
   mkCall 7 true ["peer"] (Some "guess") (RSetPrimaryEndpoint "c:1")].

