(* ===== verification/Manifest.v ===== *)
(** * Extension manifests and packages ([crates/extension/src/])

    [manifest.rs], [package.rs], [error.rs] and the engine names of [engine.rs]:
    the manifest that rides in a map of strings, its validation, and the package
    the engines load. JSON and SemVer are third-party: [Formats] holds what the
    code calls of serde_json and semver. An error carries the data its message
    is rendered from. *)

From S2P Require Import Prelude.
From S2P Require Import Effects.
From S2P Require Import Versioned.
From S2P Require Import Tables.
From S2P Require Import Resources.

Definition SEMVER_KEY : string := "semver".
Definition CAPABILITIES_KEY : string := "capabilities".
Definition PROVIDES_KEY : string := "provides".
Definition HOOKS_KEY : string := "hooks".
Definition SELECTOR_KEY : string := "selector".
Definition SETTINGS_KEY : string := "settings".

Definition KNOWN_CAPABILITIES : list string := ["log"; "http"].

(** ** Errors *)

Inductive ManifestProblem : Type :=
| MissingKey (key : string)
| InvalidJson (key error : string)
| InvalidSemver (raw error : string)
| UnknownCapability (capability : string)
| EmptyHookPoint
| UnknownEngine (other : string)
| EncodeFailed (key error : string).

(** [ExtensionError]; the duration of a timeout in milliseconds. *)
Inductive ExtensionError : Type :=
| Manifest (problem : ManifestProblem)
| Engine (message : string)
| GuestTrap (message : string)
| Script (message : string)
| InvokeTimeout (deadline : Z)
| BudgetExceeded (message : string)
| InvalidPayload (message : string)
| ArtifactHashMismatch (expected actual : string).

(** ** Engines *)

Inductive EngineKind : Type := Wasm | Lua.

#[export] Instance EngineKind_eq_dec : EqDecision EngineKind.
Proof. solve_decision. Defined.

Definition engine_str (k : EngineKind) : string := match k with Wasm => "wasm" | Lua => "lua" end.

Definition engine_from_str (s : string) : result EngineKind ExtensionError :=
  if decide (s = "wasm") then Ok Wasm else if decide (s = "lua") then Ok Lua
  else Err (Manifest (UnknownEngine s)).

(** ** Hooks *)

Inductive HookErrorPolicy : Type := Abort | Ignore.

#[export] Instance HookErrorPolicy_eq_dec : EqDecision HookErrorPolicy.
Proof. solve_decision. Defined.

Record HookDecl : Type := mkHook { point : string; on_error : HookErrorPolicy }.

(** ** JSON and SemVer *)

Class Formats := {
  SemVer : Type;
  semver_parse : string → result SemVer string;
  semver_text : SemVer → string;
  strings_from : string → result (list string) string;
  strings_json : list string → result string string;
  hooks_from : string → result (list HookDecl) string;
  hooks_json : list HookDecl → result string string;
  selector_from : string → result (gmap string string) string;
  selector_json : gmap string string → result string string;
  Value : Type;
  value_from : bytes → result Value string;
  value_json : Value → result bytes string;
  as_object : Value → option (gmap string Value);
  object : gmap string Value → Value;
  text : string → Value;
  number : Z → Value;
  is_null : Value → bool;
  as_text : Value → option string;
  strings_of : Value → result (list string) string;
}.

(** What is encoded reads back. *)
Class FormatLaws `{!Formats} : Prop := {
  semver_round_trip v : semver_parse (semver_text v) = Ok v;
  strings_round_trip l s : strings_json l = Ok s → strings_from s = Ok l;
  hooks_round_trip l s : hooks_json l = Ok s → hooks_from s = Ok l;
  selector_round_trip m s : selector_json m = Ok s → selector_from s = Ok m;
  as_object_object m : as_object (object m) = Some m;
  value_round_trip v b : value_json v = Ok b → is_ok (value_from b) = true;
}.

Section manifests.
Context `{!Formats}.

Record ExtensionManifest : Type := mkManifest {
  semver : SemVer;
  capabilities : list string;
  provides : list string;
  hooks : list HookDecl;
  selector : gmap string string;
  settings : string;
}.

Definition required (map : gmap string string) (key : string) : result string ExtensionError :=
  ok_or (map !! key) (Manifest (MissingKey key)).

Definition parse_json {A} (from : string → result A string) (raw key : string) : result A ExtensionError :=
  map_err (λ error, Manifest (InvalidJson key error)) (from raw).

(** [match map.get(key) { Some(raw) => parse_json(raw, key)?, None => default }] *)
Definition optional {A} (from : string → result A string) (map : gmap string string) (key : string) (default : A)
    : result A ExtensionError :=
  match map !! key with Some raw => parse_json from raw key | None => Ok default end.

Definition from_map (map : gmap string string) : result ExtensionManifest ExtensionError :=
  let? semver_raw := required map SEMVER_KEY in
  let? version := map_err (λ error, Manifest (InvalidSemver semver_raw error)) (semver_parse semver_raw) in
  let? caps := optional strings_from map CAPABILITIES_KEY [] in
  let? _ :=
    match find (λ c, negb (bool_decide (c ∈ KNOWN_CAPABILITIES))) caps with
    | Some capability => Err (Manifest (UnknownCapability capability))
    | None => Ok tt
    end in
  let? contracts := optional strings_from map PROVIDES_KEY [] in
  let? subscriptions := optional hooks_from map HOOKS_KEY [] in
  let? _ :=
    if existsb (λ hook, bool_decide (point hook = "")) subscriptions then Err (Manifest EmptyHookPoint) else Ok tt in
  let? terms := optional selector_from map SELECTOR_KEY ∅ in
  let? raw_settings :=
    match map !! SETTINGS_KEY with
    | Some raw => let? _ := parse_json value_from raw SETTINGS_KEY in Ok raw
    | None => Ok "{}"
    end in
  Ok (mkManifest version caps contracts subscriptions terms raw_settings).

Definition encoded (key : string) (r : result string string) : result string ExtensionError :=
  map_err (λ error, Manifest (EncodeFailed key error)) r.

Definition to_map (m : ExtensionManifest) : result (gmap string string) ExtensionError :=
  let? caps := encoded CAPABILITIES_KEY (strings_json (capabilities m)) in
  let? contracts := encoded PROVIDES_KEY (strings_json (provides m)) in
  let? subscriptions := encoded HOOKS_KEY (hooks_json (hooks m)) in
  let? terms := encoded SELECTOR_KEY (selector_json (selector m)) in
  Ok (<[SETTINGS_KEY := settings m]> (<[SELECTOR_KEY := terms]> (<[HOOKS_KEY := subscriptions]>
       (<[PROVIDES_KEY := contracts]> (<[CAPABILITIES_KEY := caps]> {[SEMVER_KEY := semver_text (semver m)]}))))).

(** ** Packages *)

Definition DEFAULT_ENTRY : string := "invoke".

Record ExtensionPackage : Type := mkPackage {
  pk_id : string;
  pk_name : string;
  pk_version : Z;
  pk_engine : EngineKind;
  pk_entry : string;
  pk_manifest : ExtensionManifest;
  pk_artifact : bytes;
  pk_content_hash : string;
}.

Definition or_default_entry (entry : string) : string := if decide (entry = "") then DEFAULT_ENTRY else entry.

Definition hash_artifact `{!Blake3} (artifact : bytes) : string := blake3_hex artifact.

(** [ExtensionPackage::new] *)
Definition new_package `{!Blake3} (id name : string) (version : Z) (engine : EngineKind) (entry : string)
    (manifest : ExtensionManifest) (artifact : bytes) : ExtensionPackage :=
  mkPackage id name version engine (or_default_entry entry) manifest artifact (hash_artifact artifact).

(** [ExtensionPackage::verify] *)
Definition verify_package `{!Blake3} (p : ExtensionPackage) : result unit ExtensionError :=
  let actual := hash_artifact (pk_artifact p) in
  if decide (actual ≠ pk_content_hash p) then Err (ArtifactHashMismatch (pk_content_hash p) actual) else Ok tt.
End manifests.

(** ** What a manifest keeps *)

Section round_trip.
Context `{!Formats} `{!FormatLaws}.

(** The constraints [from_map] enforces. *)
Record valid_manifest (m : ExtensionManifest) : Prop := {
  vm_capabilities : ∀ c, c ∈ capabilities m → c ∈ KNOWN_CAPABILITIES;
  vm_hooks : ∀ h, h ∈ hooks m → point h ≠ "";
  vm_settings : is_ok (value_from (settings m)) = true;
}.

Lemma optional_Ok {A} (from : string → result A string) map key (d a : A) :
  optional from map key d = Ok a ↔
    match map !! key with Some raw => from raw = Ok a | None => a = d end.
Proof.
  unfold optional, parse_json. destruct (map !! key) as [raw|]; [|naive_solver].
  destruct (from raw); cbn; naive_solver.
Qed.

Lemma from_map_valid map m :
  is_ok (value_from "{}") = true → from_map map = Ok m → valid_manifest m.
Proof.
  intros He. unfold from_map. rewrite result_bind_Ok. intros (sv & _ & Hm).
  rewrite result_bind_Ok in Hm. destruct Hm as (v & _ & Hm).
  rewrite result_bind_Ok in Hm. destruct Hm as (caps & _ & Hm).
  rewrite result_bind_Ok in Hm. destruct Hm as ([] & Hcaps & Hm).
  rewrite result_bind_Ok in Hm. destruct Hm as (pr & _ & Hm).
  rewrite result_bind_Ok in Hm. destruct Hm as (hs & _ & Hm).
  rewrite result_bind_Ok in Hm. destruct Hm as ([] & Hhs & Hm).
  rewrite result_bind_Ok in Hm. destruct Hm as (sel & _ & Hm).
  rewrite result_bind_Ok in Hm. destruct Hm as (raw & Hraw & [= <-]). split; cbn.
  - destruct (find _ caps) eqn:Hf; [done|]. intros c Hc.
    pose proof (find_none _ _ Hf c) as Hn. rewrite <- list_elem_of_In in Hn. specialize (Hn Hc).
    apply negb_false_iff in Hn. by apply bool_decide_eq_true in Hn.
  - destruct (existsb _ hs) eqn:Hx; [done|]. intros h Hh Hp.
    assert (existsb (λ hook, bool_decide (point hook = "")) hs = true) as Ht; [|congruence].
    apply existsb_exists. exists h. rewrite <- list_elem_of_In. split; [done|]. by apply bool_decide_eq_true.
  - destruct (map !! SETTINGS_KEY) as [s|]; [|by injection Hraw as <-].
    rewrite result_bind_Ok in Hraw. destruct Hraw as (x & Hx & [= <-]).
    unfold parse_json in Hx. destruct (value_from s); done.
Qed.

Lemma to_map_lookup m map :
  to_map m = Ok map → ∃ caps contracts subs terms,
    strings_json (capabilities m) = Ok caps ∧ strings_json (provides m) = Ok contracts ∧
    hooks_json (hooks m) = Ok subs ∧ selector_json (selector m) = Ok terms ∧
    map !! SEMVER_KEY = Some (semver_text (semver m)) ∧ map !! CAPABILITIES_KEY = Some caps ∧
    map !! PROVIDES_KEY = Some contracts ∧ map !! HOOKS_KEY = Some subs ∧ map !! SELECTOR_KEY = Some terms ∧
    map !! SETTINGS_KEY = Some (settings m).
Proof.
  unfold to_map, encoded. rewrite result_bind_Ok. intros (caps & Hcaps & Hm).
  rewrite result_bind_Ok in Hm. destruct Hm as (contracts & Hcon & Hm).
  rewrite result_bind_Ok in Hm. destruct Hm as (subs & Hsub & Hm).
  rewrite result_bind_Ok in Hm. destruct Hm as (terms & Hterm & [= <-]).
  exists caps, contracts, subs, terms.
  destruct (strings_json (capabilities m)), (strings_json (provides m)), (hooks_json (hooks m)),
    (selector_json (selector m)); try done. cbn in *.
  split_and!; [congruence..|reflexivity|reflexivity|reflexivity|reflexivity|reflexivity|reflexivity].
Qed.
End round_trip.

(** A valid manifest survives the trip through its map: whatever [to_map]
    writes, [from_map] reads back as the same manifest; and every manifest that
    [from_map] accepts is valid. *)
Theorem manifest_round_trip `{!Formats, !FormatLaws} m map :
  is_ok (value_from "{}") = true → to_map m = Ok map →
  (valid_manifest m → from_map map = Ok m) ∧ (∀ m' map', from_map map' = Ok m' → valid_manifest m').
Proof.
  intros He Hm. split; [|intros m' map'; by apply from_map_valid]. intros [Hc Hh Hs].
  destruct (to_map_lookup m map Hm) as (caps & con & subs & terms & H1' & H2' & H3' & H4' & E1 & E2 & E3 & E4 & E5 & E6).
  unfold from_map, required. rewrite E1. cbn [ok_or result_bind]. rewrite semver_round_trip. cbn [map_err result_bind].
  rewrite (proj2 (optional_Ok strings_from map CAPABILITIES_KEY [] (capabilities m)))
    by (rewrite E2; by apply strings_round_trip). cbn [result_bind].
  assert (find (λ c, negb (bool_decide (c ∈ KNOWN_CAPABILITIES))) (capabilities m) = None) as ->.
  { destruct (find _ _) as [c|] eqn:Hf; [|done]. apply find_some in Hf as [Hin%list_elem_of_In Hn].
    apply negb_true_iff, bool_decide_eq_false in Hn. by destruct Hn; apply Hc. }
  cbn [result_bind]. rewrite (proj2 (optional_Ok strings_from map PROVIDES_KEY [] (provides m)))
    by (rewrite E3; by apply strings_round_trip). cbn [result_bind].
  rewrite (proj2 (optional_Ok hooks_from map HOOKS_KEY [] (hooks m)))
    by (rewrite E4; by apply hooks_round_trip). cbn [result_bind].
  assert (existsb (λ hook, bool_decide (point hook = "")) (hooks m) = false) as ->.
  { apply not_true_iff_false. intros Ht. apply existsb_exists in Ht as (h & Hin%list_elem_of_In & Hp).
    apply bool_decide_eq_true in Hp. by apply (Hh h). }
  cbn [result_bind]. rewrite (proj2 (optional_Ok selector_from map SELECTOR_KEY ∅ (selector m)))
    by (rewrite E5; by apply selector_round_trip). cbn [result_bind]. rewrite E6.
  unfold parse_json. destruct (value_from (settings m)); [|done]. cbn. by destruct m.
Qed.

(** ** A concrete format *)

(** Documents are trees, written as sequences of bits. *)
Abbreviation ToyValue := (gen_tree (string + Z)).

Definition toy_null : ToyValue := GenNode 0 [].
Definition toy_text (s : string) : ToyValue := GenLeaf (inl s).
Definition toy_list (l : list string) : ToyValue := GenNode 1 (toy_text <$> l).
Definition toy_member (kv : string * ToyValue) : ToyValue := GenNode 3 [toy_text kv.1; kv.2].
Definition toy_object (m : gmap string ToyValue) : ToyValue := GenNode 2 (toy_member <$> map_to_list m).

Definition toy_as_text (v : ToyValue) : option string :=
  match v with GenLeaf (inl s) => Some s | _ => None end.
Definition toy_as_member (v : ToyValue) : option (string * ToyValue) :=
  match v with GenNode 3 [GenLeaf (inl k); v] => Some (k, v) | _ => None end.
Definition toy_as_object (v : ToyValue) : option (gmap string ToyValue) :=
  match v with GenNode 2 l => Some (list_to_map (omap toy_as_member l)) | _ => None end.
Definition toy_strings_of (v : ToyValue) : result (list string) string :=
  match v with GenNode 1 l => Ok (omap toy_as_text l) | _ => Err "not a list" end.

Lemma toy_as_members (l : list (string * ToyValue)) : omap toy_as_member (toy_member <$> l) = l.
Proof. induction l as [|[k v] l IH]; [done|]. cbn. by f_equal. Qed.

Lemma toy_as_object_object m : toy_as_object (toy_object m) = Some m.
Proof. cbn. by rewrite toy_as_members, list_to_map_to_list. Qed.

Definition toy_read {A} `{Countable A} (s : string) : result A string :=
  ok_or (countable.decode (of_bits s)) "unreadable".
Definition toy_write {A} `{Countable A} (a : A) : string := bits_of (countable.encode a).

Lemma toy_read_write {A} `{Countable A} (a : A) : toy_read (toy_write a) = Ok a.
Proof. unfold toy_read, toy_write. by rewrite of_bits_of, decode_encode. Qed.

Definition hook_pair (h : HookDecl) : string * bool := (point h, bool_decide (on_error h = Ignore)).
Definition pair_hook (p : string * bool) : HookDecl := mkHook p.1 (if p.2 then Ignore else Abort).

Lemma pair_hook_pair h : pair_hook (hook_pair h) = h.
Proof. by destruct h as [p []]. Qed.

Definition toy_formats : Formats := {|
  SemVer := string; semver_parse := λ s, Ok s; semver_text := λ s, s;
  strings_from := toy_read; strings_json := λ l, Ok (toy_write l);
  hooks_from := λ s, match toy_read s with Ok l => Ok (pair_hook <$> l) | Err e => Err e end;
  hooks_json := λ l, Ok (toy_write (hook_pair <$> l));
  selector_from := toy_read;
  selector_json := λ m, Ok (toy_write m);
  Value := ToyValue;
  value_from := λ b, if decide (b = "{}") then Ok (toy_object ∅) else toy_read b;
  value_json := λ v, Ok (toy_write v);
  as_object := toy_as_object; object := toy_object;
  text := toy_text; number := λ n, GenLeaf (inr n);
  is_null := λ v, bool_decide (v = toy_null);
  as_text := toy_as_text; strings_of := toy_strings_of;
|}.

Lemma toy_format_laws : @FormatLaws toy_formats.
Proof.
  split; cbn.
  - done.
  - intros l s [= <-]. apply toy_read_write.
  - intros l s [= <-]. rewrite toy_read_write, <- list_fmap_compose. f_equal. rewrite <- (list_fmap_id l) at 2.
    apply list_fmap_ext. intros i h _. apply pair_hook_pair.
  - intros m s [= <-]. apply toy_read_write.
  - apply toy_as_object_object.
  - intros v b [= <-]. case_decide; [done|]. by rewrite toy_read_write.
Qed.

Definition small_manifest : @ExtensionManifest toy_formats :=
  @mkManifest toy_formats ("1.0.0" : string) ["http"] ["llm"] [mkHook "skill.invoke.pre" Ignore] {["gpu" := "true"]} "{}".

Lemma manifest_round_trip_witness :
  match @to_map toy_formats small_manifest with
  | Ok map => @from_map toy_formats map = Ok small_manifest
  | Err _ => False
  end.
Proof.
  destruct (@to_map toy_formats small_manifest) as [map|e] eqn:Hm; [|discriminate Hm].
  apply (@manifest_round_trip toy_formats toy_format_laws small_manifest map); [reflexivity|exact Hm|].
  split; cbn.
  - intros c Hc%list_elem_of_singleton. subst c. apply list_elem_of_In. right. left. reflexivity.
  - intros h Hh%list_elem_of_singleton. subst h. discriminate.
  - reflexivity.
Defined.
