(* ===== verification/Http.v ===== *)
(** * The outbound HTTP capability ([crates/extension/src/http.rs])

    A guest hands the host a request document and gets a response document back.
    The client is third-party: [Reqwest] parses URLs, methods and header fields,
    and the network is an oracle of what was sent before, so [sent] records every
    message the host handed to the client. Under a deadline ([timed]) an oracle says
    at which await it expires, if it does: [Expired] then leaves the routine. *)

From Stdlib Require Import Ascii.
From S2P Require Import Prelude.
From S2P Require Import Effects.
From S2P Require Import Tables.
From S2P Require Import ContentStores.
From S2P Require Import Manifest.

#[local] Open Scope string_scope.
#[local] Open Scope Z_scope.

(** ** Strings *)

(** [char::to_ascii_lowercase], [str::to_ascii_lowercase] *)
Definition ascii_lowercase (c : ascii) : ascii :=
  if byte_in 65 90 c then ascii_of_N (N_of_ascii c + 32) else c.

Fixpoint to_ascii_lowercase (s : string) : string :=
  match s with
  | EmptyString => EmptyString
  | String c s => String (ascii_lowercase c) (to_ascii_lowercase s)
  end.

Lemma ascii_lowercase_idem c : ascii_lowercase (ascii_lowercase c) = ascii_lowercase c.
Proof. by destruct c as [[] [] [] [] [] [] [] []]. Qed.

Lemma to_ascii_lowercase_idem s : to_ascii_lowercase (to_ascii_lowercase s) = to_ascii_lowercase s.
Proof. induction s as [|c s IH]; cbn; [done|]. by rewrite ascii_lowercase_idem, IH. Qed.

(** [str::contains] *)
Fixpoint contains (needle s : string) : bool :=
  String.prefix needle s || match s with EmptyString => false | String _ s => contains needle s end.

(** The first character of a byte string, as [from_utf8_lossy] scans it: how
    many bytes it takes, and whether they are a character. *)
Definition scan_char (s : string) : nat * bool :=
  let cont := byte_in 128 191 in
  match s with
  | EmptyString => (0%nat, true)
  | String a s1 =>
      if byte_in 0 127 a then (1%nat, true)
      else
        let second :=
          match s1 with
          | EmptyString => false
          | String b _ =>
              if byte_in 194 223 a then cont b
              else if byte_in 224 224 a then byte_in 160 191 b
              else if byte_in 237 237 a then byte_in 128 159 b
              else if byte_in 225 239 a then cont b
              else if byte_in 240 240 a then byte_in 144 191 b
              else if byte_in 244 244 a then byte_in 128 143 b
              else byte_in 241 243 a && cont b
          end in
        if negb second then (1%nat, false)
        else if byte_in 194 223 a then (2%nat, true)
        else
          match s1 with
          | String _ (String c s3) =>
              if negb (cont c) then (2%nat, false)
              else if byte_in 224 239 a then (3%nat, true)
              else
                match s3 with
                | String d _ => if cont d then (4%nat, true) else (3%nat, false)
                | EmptyString => (3%nat, false)
                end
          | _ => (2%nat, false)
          end
  end.

(** U+FFFD *)
Definition replacement : string := String "239" (String "191" (String "189" EmptyString)).

Definition drop_bytes (n : nat) (s : string) : string := String.substring n (String.length s) s.

(** [String::from_utf8_lossy] *)
Fixpoint utf8_lossy (fuel : nat) (s : string) : string :=
  match fuel with
  | O => EmptyString
  | S fuel =>
      match s with
      | EmptyString => EmptyString
      | _ =>
          let '(n, valid) := scan_char s in
          String.append (if valid then String.substring 0 n s else replacement) (utf8_lossy fuel (drop_bytes n s))
      end
  end.

Definition from_utf8_lossy (s : string) : string := utf8_lossy (String.length s) s.

(** ** Documents *)

Definition MAX_RESPONSE_BODY_BYTES : Z := 8 * 1024 * 1024.

(** The struct [Request]. *)
Record HttpRequest : Type := mkRequest {
  hr_method : string;
  hr_url : string;
  hr_headers : gmap string string;
  hr_body : option string;
}.

Record HttpFailure : Type := mkFailure { hf_kind : string; hf_message : string }.

(** ** The client *)

Class Reqwest := {
  request_from : bytes → result HttpRequest string;
  Url : Type;
  url_parse : string → result Url string;
  host_str : Url → option string;
  method_parse : string → result string string;
  header_name : string → result string string;
  header_value : string → result string string;
}.

Inductive Chunk : Type := Data (b : bytes) | Broken (e : string).

Section http.
Context `{!Formats, !Reqwest}.

(** What [RequestBuilder::send] is given. *)
Record HttpMessage : Type := mkMessage {
  hm_method : string;
  hm_url : Url;
  hm_headers : list (string * string);
  hm_body : option string;
}.

Inductive Delivery : Type :=
| Undelivered (e : string)
| Answered (status : Z) (headers : list (string * bytes)) (body : list Chunk).

(** The network, given what was sent before; and the await of the exchange, from
    0, at which a deadline expires. *)
Record Internet : Type := mkInternet {
  deliver : list HttpMessage → HttpMessage → Delivery;
  expires : list HttpMessage → HttpMessage → option nat;
}.

Inductive Interruption : Type := Failed (f : HttpFailure) | Expired.

Definition failure {A} (kind : string) (message : string) : result A Interruption :=
  Err (Failed (mkFailure kind message)).

(** [HttpFailure::document] *)
Definition quote : string := String (ascii_of_nat 34) EmptyString.
Definition quoted (s : string) : string := quote +:+ s +:+ quote.
Definition encoding_failed : bytes :=
  "{" +:+ quoted "error" +:+ ":{" +:+ quoted "type" +:+ ":" +:+ quoted "internal" +:+ "," +:+ quoted "message"
    +:+ ":" +:+ quoted "encoding failed" +:+ "}}".

Definition document (f : HttpFailure) : bytes :=
  match value_json (object {["error" := object (<["type" := text (hf_kind f)]> {["message" := text (hf_message f)]})]}) with
  | Ok b => b
  | Err _ => encoding_failed
  end.

(** The scheme and host checks of [execute_inner]. *)
Definition is_http (url : string) : bool :=
  let lower := to_ascii_lowercase url in
  String.prefix "http://" lower || String.prefix "https://" lower.

Definition host_allowed (allow_hosts : option (list string)) (host : string) : bool :=
  match allow_hosts with
  | Some allow_hosts =>
      existsb (λ allowed, bool_decide (to_ascii_lowercase allowed = to_ascii_lowercase host)) allow_hosts
  | None => true
  end.

Definition header_field (field : string * string) : result (string * string) Interruption :=
  match header_name field.1 with
  | Err e => failure "invalid_request" ("invalid header name: " +:+ e)
  | Ok name =>
      match header_value field.2 with
      | Err e => failure "invalid_request" ("invalid header value: " +:+ e)
      | Ok value => Ok (name, value)
      end
  end.

(** [execute_inner] up to [send]: the message the client is given. *)
Definition message_of (request : bytes) (allow_hosts : option (list string)) : result HttpMessage Interruption :=
  match request_from request with
  | Err e => failure "invalid_request" ("request is not a valid http document: " +:+ e)
  | Ok r =>
      if negb (is_http (hr_url r))
      then failure "unsupported_scheme" ("only http: and https: URLs are allowed, got " +:+ hr_url r)
      else
        match url_parse (hr_url r) with
        | Err e => failure "invalid_request" ("invalid url: " +:+ e)
        | Ok url =>
            match host_str url with
            | None => failure "invalid_request" "url has no host"
            | Some host =>
                if negb (host_allowed allow_hosts host)
                then failure "host_not_allowed" ("host " +:+ to_ascii_lowercase host +:+ " is not in http_allow_hosts")
                else
                  match method_parse (hr_method r) with
                  | Err e => failure "invalid_request" ("invalid method: " +:+ e)
                  | Ok method =>
                      let? headers := collect (header_field <$> btree_iter (hr_headers r)) in
                      Ok (mkMessage method url headers (hr_body r))
                  end
            end
        end
  end.

(** The body is read chunk by chunk, under the cap. *)
Fixpoint read_body (cut : option nat) (body : bytes) (chunks : list Chunk) : result bytes Interruption :=
  if decide (cut = Some 0%nat) then Err Expired
  else
    match chunks with
    | [] => Ok body
    | Broken e :: _ => failure "transport" ("failed to read the body: " +:+ e)
    | Data chunk :: chunks =>
        if decide (Z.of_nat (String.length body + String.length chunk) > MAX_RESPONSE_BODY_BYTES)
        then failure "response_too_large" ("response body exceeds the byte cap")
        else read_body (pred <$> cut) (body +:+ chunk) chunks
    end.

Definition response_document (status : Z) (headers : list (string * bytes)) (body : bytes)
    : result bytes Interruption :=
  let headers := last_wins ∅ ((λ h, (h.1, text (from_utf8_lossy h.2))) <$> headers) in
  match value_json (object (<["status" := number status]> (<["headers" := object headers]>
                             {["body" := text (from_utf8_lossy body)]}))) with
  | Ok b => Ok b
  | Err e => failure "internal" ("failed to encode the response: " +:+ e)
  end.

Definition answer_of (cut : option nat) (d : Delivery) : result bytes Interruption :=
  if decide (cut = Some 0%nat) then Err Expired
  else
    match d with
    | Undelivered e => failure "transport" ("request failed: " +:+ e)
    | Answered status headers chunks =>
        let? body := read_body (pred <$> cut) EmptyString chunks in
        response_document status headers body
    end.

Section client.
Context (net : Internet) (timed : bool).

Definition send (m : HttpMessage) : M (list HttpMessage) Interruption (option nat * Delivery) := λ sent,
  ((sent ++ [m])%list, Ok (if timed then expires net sent m else None, deliver net sent m)).

Definition execute_inner (request : bytes) (allow_hosts : option (list string))
    : M (list HttpMessage) Interruption bytes :=
  let! m := lift (message_of request allow_hosts) in
  let! d := send m in
  lift (answer_of d.1 d.2).

(** [execute]; [None] when the deadline expired at one of its awaits. *)
Definition execute (request : bytes) (allow_hosts : option (list string)) (sent : list HttpMessage)
    : list HttpMessage * option bytes :=
  match execute_inner request allow_hosts sent with
  | (sent, Ok response) => (sent, Some response)
  | (sent, Err (Failed f)) => (sent, Some (document f))
  | (sent, Err Expired) => (sent, None)
  end.
End client.

(** ** What is sent *)

(** A message the policy lets out. *)
Definition permitted (allow_hosts : option (list string)) (m : HttpMessage) : Prop :=
  ∃ url host, is_http url = true ∧ url_parse url = Ok (hm_url m) ∧ host_str (hm_url m) = Some host ∧
    host_allowed allow_hosts host = true.

Lemma message_permitted request allow m : message_of request allow = Ok m → permitted allow m.
Proof.
  unfold message_of, failure. destruct (request_from request) as [r|]; [|done].
  destruct (is_http (hr_url r)) eqn:Hs; [|done]. cbn [negb]. destruct (url_parse (hr_url r)) as [url|] eqn:Hu; [|done].
  destruct (host_str url) as [host|] eqn:Hh; [|done]. destruct (host_allowed allow host) eqn:Ha; [|done].
  cbn [negb]. destruct (method_parse _); [|done]. rewrite result_bind_Ok. intros (headers & _ & [= <-]).
  by exists (hr_url r), host.
Qed.

(** At most one message is sent, and only a permitted one. *)
Lemma execute_sends net timed request allow sent :
  (execute net timed request allow sent).1 = sent ∨
  ∃ m, permitted allow m ∧ (execute net timed request allow sent).1 = (sent ++ [m])%list.
Proof.
  unfold execute, execute_inner, bind, lift, send. destruct (message_of request allow) as [m|[f|]] eqn:Hm.
  - right. exists m. split; [by eapply message_permitted|]. by destruct (answer_of _ _) as [|[]].
  - by left.
  - by left.
Qed.

Lemma read_body_length cut body chunks b :
  read_body cut body chunks = Ok b → Z.of_nat (String.length body) ≤ MAX_RESPONSE_BODY_BYTES →
  Z.of_nat (String.length b) ≤ MAX_RESPONSE_BODY_BYTES.
Proof.
  revert cut body. induction chunks as [|[c|e] chunks IH]; intros cut body; cbn; case_decide; try done.
  - by intros [= <-].
  - case_decide; [done|]. intros Hb _. eapply IH; [done|]. rewrite string_length_app. lia.
Qed.

(** Without a deadline there is always a response. *)
Lemma read_body_untimed body chunks : read_body None body chunks ≠ Err Expired.
Proof.
  revert body. induction chunks as [|[c|e] chunks IH]; intros body; cbn; repeat case_decide; done || apply IH.
Qed.

Lemma collect_headers_failed l e : collect (header_field <$> l) = Err e → e ≠ Expired.
Proof.
  induction l as [|h l IH]; cbn; [done|]. unfold header_field at 1, failure.
  destruct (header_name h.1); [destruct (header_value h.2)|]; [|by intros [= <-]..].
  destruct (collect _); cbn; [done|]. intros [= ->]. by apply IH.
Qed.

Lemma message_not_expired request allow : message_of request allow ≠ Err Expired.
Proof.
  unfold message_of, failure. destruct (request_from request); [|done].
  destruct (negb _); [done|]. destruct (url_parse _); [|done]. destruct (host_str _); [|done].
  destruct (negb _); [done|]. destruct (method_parse _); [|done].
  destruct (collect _) as [|e] eqn:Hc; cbn; [done|]. apply collect_headers_failed in Hc. congruence.
Qed.

Lemma answer_untimed d : answer_of None d ≠ Err Expired.
Proof.
  unfold answer_of. rewrite decide_False by done. destruct d as [|status headers chunks]; [done|].
  change (pred <$> None) with (@None nat). pose proof (read_body_untimed EmptyString chunks) as Hb.
  destruct (read_body None EmptyString chunks) as [b|e]; cbn [result_bind].
  - unfold response_document, failure. cbv zeta. by case_match.
  - by intros [= ->].
Qed.

Lemma execute_untimed net request allow sent : (execute net false request allow sent).2 ≠ None.
Proof.
  unfold execute, execute_inner, bind, lift, send.
  pose proof (message_not_expired request allow). destruct (message_of request allow) as [m|[f|]]; [|done|done].
  cbn [fst snd]. pose proof (answer_untimed (deliver net sent m)). by destruct (answer_of _ _) as [|[]].
Qed.

(** A message not on the list is answered without network access. *)
Lemma execute_refuses net timed request allow sent f :
  message_of request allow = Err (Failed f) → execute net timed request allow sent = (sent, Some (document f)).
Proof. intros Hm. unfold execute, execute_inner, bind, lift. by rewrite Hm. Qed.
End http.
