(* ===== verification/Engine.v ===== *)
(** * The engines' contract ([crates/extension/src/engine.rs])

    What both engines share: the limits, the delivery of the settings to a fresh
    guest and its compatibility rule. An instance is reached through its method
    [invoke], over the state it runs in. *)

From S2P Require Import Prelude.
From S2P Require Import Effects.
From S2P Require Import Tables.
From S2P Require Import Manifest.
From S2P Require Import Http.

#[local] Open Scope string_scope.
#[local] Open Scope Z_scope.

(** [EngineLimits]; the timeout in milliseconds. *)
Record EngineLimits : Type := mkLimits {
  wasm_fuel_per_call : Z;
  wasm_max_memory_bytes : Z;
  lua_instructions_per_call : Z;
  lua_max_memory_bytes : Z;
  invoke_timeout : Z;
}.

Definition default_limits : EngineLimits :=
  mkLimits 100000000 (64 * 1024 * 1024) 1000000 (32 * 1024 * 1024) 10000.

Definition CONFIGURE_METHOD : string := "configure".

Definition is_method_not_found (error : ExtensionError) : bool :=
  match error with
  | Script message | GuestTrap message => contains "unknown method" (to_ascii_lowercase message)
  | _ => false
  end.

(** The check of a payload that crosses the boundary. *)
Definition valid_payload `{!Formats} (what : string) (payload : bytes) : result Value ExtensionError :=
  map_err (λ err, InvalidPayload (what +:+ " is not valid JSON: " +:+ err)) (value_from payload).

Section configure.
Context `{!Formats} {S : Type} (invoke : string → bytes → M S ExtensionError bytes).

Definition configure_instance (settings : Value) : M S ExtensionError unit :=
  let! payload := lift (map_err (λ err, InvalidPayload ("failed to encode the configure payload: " +:+ err))
                         (value_json settings)) in
  try_or (let! _ := invoke CONFIGURE_METHOD payload in ret tt)
    (λ error, if is_method_not_found error then ret tt else raise error).
End configure.

Definition engine_debug (k : EngineKind) : string := match k with Wasm => "Wasm" | Lua => "Lua" end.

Definition wrong_engine (id : string) (engine : EngineKind) (expected : string) : ExtensionError :=
  Engine ("extension " +:+ id +:+ " targets " +:+ engine_debug engine +:+ ", not the " +:+ expected +:+ " engine").
