(* ===== verification/Wasm.v ===== *)
(** * The WebAssembly engine ([crates/extension/src/wasm.rs])

    The ABI between the host and a guest: what a module may import and must
    export, how buffers cross the boundary, how the host serves the guest's
    calls, and the policy on what a guest may send. The runtime and the guests'
    code are third-party: a call into a guest is the tree of the host calls it
    makes ([Run], finite since every call is metered by fuel), and the class
    [Wasmtime] gives the tree of each export. [handle] interprets a tree, which
    may re-enter the guest's allocator; [depth] bounds that nesting as the
    runtime's stack does. An invocation holds its instance's store throughout. *)

From S2P Require Import Prelude.
From S2P Require Import Effects.
From S2P Require Import Versioned.
From S2P Require Import Tables.
From S2P Require Import Resources.
From S2P Require Import Manifest.
From S2P Require Import Http.
From S2P Require Import Engine.

#[local] Open Scope string_scope.
#[local] Open Scope Z_scope.

Definition HOST_MODULE : string := "lycoris".
Definition ALLOC_EXPORT : string := "lycoris_alloc".
Definition INVOKE_EXPORT : string := "lycoris_invoke".
Definition MEMORY_EXPORT : string := "memory".
Definition LOG_IMPORT : string := "log".
Definition HTTP_IMPORT : string := "http".

(** ** Integers of the ABI *)

Definition i32_max : Z := 2 ^ 31 - 1.

(** [p as usize] of an [i32], [z as u64] of an [i64]. *)
Definition as_usize (z : Z) : Z := z mod 2 ^ 64.
(** [z as u32] *)
Definition as_u32 (z : Z) : Z := z mod 2 ^ 32.
(** [z as i64] of a [u64] *)
Definition as_i64 (z : Z) : Z := if decide (z ≤ i64_max) then z else z - 2 ^ 64.

Definition pack (ptr len : Z) : Z := as_i64 (Z.lor (Z.shiftl (as_u32 ptr) 32) (as_u32 len)).

Definition unpack (packed : Z) : Z * Z :=
  let packed := as_usize packed in (Z.shiftr packed 32, Z.land packed (2 ^ 32 - 1)).

(** ** Linear memory *)

(** [data.get(from..to)] *)
Definition slice (from to : Z) (data : bytes) : option bytes :=
  if decide (from ≤ to ∧ to ≤ Z.of_nat (String.length data))
  then Some (String.substring (Z.to_nat from) (Z.to_nat (to - from)) data) else None.

(** [Memory::write] *)
Definition mem_write (offset : Z) (buffer data : bytes) : option bytes :=
  if decide (offset + Z.of_nat (String.length buffer) ≤ Z.of_nat (String.length data))
  then Some (String.substring 0 (Z.to_nat offset) data +:+ buffer
             +:+ drop_bytes (Z.to_nat offset + String.length buffer) data)
  else None.

(** [usize::try_from] of an [i32] *)
Definition usize_try_from (z : Z) : option Z := if decide (0 ≤ z) then Some z else None.

Definition usize_saturating_add (a b : Z) : Z := Z.min (a + b) u64_max.
Definition usize_checked_add (a b : Z) : option Z := if decide (a + b ≤ u64_max) then Some (a + b) else None.

(** ** The runtime *)

Inductive HostCall : Type :=
| CallLog (level ptr len : Z)
| CallHttp (ptr len : Z).

(** A call into a guest, whose state is in [G]: it returns, traps, or calls the
    host and goes on from what the host left and answered. *)
Inductive Run (G A : Type) : Type :=
| Returned (g : G) (a : A)
| Trapped (g : G) (message : string)
| Imported (call : HostCall) (g : G) (resume : G → Z → Run G A).
Arguments Returned {G A}. Arguments Trapped {G A}. Arguments Imported {G A}.

Inductive ExternType (V : Type) : Type :=
| Func (params results : list V)
| Memory
| OtherExtern.
Arguments Func {V}. Arguments Memory {V}. Arguments OtherExtern {V}.

Class Wasmtime := {
  ValType : Type;
  val_eq : ValType → ValType → bool;
  I32 : ValType;
  I64 : ValType;
  Module : Type;
  module_new : bytes → result Module string;
  imports : Module → list (string * string * ExternType ValType);
  get_export : Module → string → option (ExternType ValType);
  (** A store, and the guest it holds once one is instantiated. *)
  Guest : Type;
  store_new : Z → Guest;
  set_fuel : Z → Guest → result Guest string;
  (** Link against the given host functions and run the start section. *)
  instantiate : Module → list string → Guest → Run Guest unit;
  exported : Guest → string → option (ExternType ValType);
  call : Guest → string → list Z → Run Guest Z;
  memory : Guest → bytes;
  set_memory : bytes → Guest → Guest;
  (** A call dropped while the host serves it. *)
  unwound : Guest → Guest;
  signature_error : string;
}.

Inductive Outcome (G A : Type) : Type :=
| Done (g : G) (a : A)
| Trap (g : G) (message : string)
| TimedOut (g : G).
Arguments Done {G A}. Arguments Trap {G A}. Arguments TimedOut {G A}.

Inductive Level : Type := Trace | Debug | Info | Warn | Error.

Record LogLine : Type := mkLine { line_level : Level; line_extension : string; line_message : string }.

Section wasm.
Context `{!Formats, !Reqwest, !Wasmtime}.

(** What leaves the host: the messages sent and the lines logged. *)
Record Host : Type := mkHost { sent : list HttpMessage; logged : list LogLine }.

Definition set_sent (l : list HttpMessage) (h : Host) : Host := mkHost l (logged h).
Definition log_line (l : LogLine) (h : Host) : Host := mkHost (sent h) (logged h ++ [l])%list.

(** ** Shapes *)

Definition signature_matches (params' results' params results : list ValType) : bool :=
  let same l l' := bool_decide (length l = length l') && forallb (λ p, val_eq p.1 p.2) (zip l l') in
  same params' params && same results' results.

Definition is_func (ty : option (ExternType ValType)) (params results : list ValType) : bool :=
  match ty with Some (Func ps rs) => signature_matches ps rs params results | _ => false end.

Definition check_import (http_capability : bool) (import : string * string * ExternType ValType)
    : result unit ExtensionError :=
  let '(module, name, ty) := import in
  if decide (module ≠ HOST_MODULE)
  then Err (Engine ("unsupported import " +:+ module +:+ "." +:+ name +:+ ": only the lycoris host module is provided"))
  else if decide (name = LOG_IMPORT) then
    if is_func (Some ty) [I32; I32; I32] [] then Ok tt
    else Err (Engine "lycoris.log must have signature (i32, i32, i32) -> ()")
  else if decide (name = HTTP_IMPORT) then
    if http_capability then
      if is_func (Some ty) [I32; I32] [I64] then Ok tt
      else Err (Engine "lycoris.http must have signature (i32, i32) -> i64")
    else Err (Engine "guest imports lycoris.http but the manifest does not declare the http capability")
  else Err (Engine ("unsupported import lycoris." +:+ name +:+ ": only lycoris.log and lycoris.http are provided")).

Definition check_imports (module : Module) (http_capability : bool) : result unit ExtensionError :=
  let? _ := collect (check_import http_capability <$> imports module) in Ok tt.

Definition check_func_export (module : Module) (name : string) (params results : list ValType)
    : result unit ExtensionError :=
  if is_func (get_export module name) params results then Ok tt
  else Err (Engine ("guest does not export " +:+ name +:+ " with the lycoris-abi-v1 signature")).

Definition check_exports (module : Module) : result unit ExtensionError :=
  match get_export module MEMORY_EXPORT with
  | Some Memory =>
      let? _ := check_func_export module ALLOC_EXPORT [I32] [I32] in
      check_func_export module INVOKE_EXPORT [I32; I32; I32; I32] [I64]
  | _ => Err (Engine "guest does not export a memory named memory")
  end.

(** [Caller::get_export(MEMORY_EXPORT)?.into_memory()] *)
Definition exported_memory (g : Guest) : option bytes :=
  match exported g MEMORY_EXPORT with Some Memory => Some (memory g) | _ => None end.

(** [get_typed_func] *)
Definition typed_func (g : Guest) (name : string) (params results : list ValType) : result unit string :=
  if is_func (exported g name) params results then Ok tt else Err signature_error.

Definition read_guest_bytes (g : Guest) (ptr len : Z) : option bytes :=
  data ← exported_memory g;
  start ← usize_try_from ptr;
  len ← usize_try_from len;
  stop ← usize_checked_add start len;
  slice start stop data.

Definition read_guest_string (g : Guest) (ptr len : Z) : option string :=
  from_utf8_lossy <$> read_guest_bytes g ptr len.

Definition level_of (level : Z) : Level :=
  match level with 0 => Trace | 1 => Debug | 3 => Warn | 4 => Error | _ => Info end.

Definition out_of_bounds_request : bytes :=
  "{" +:+ quoted "error" +:+ ":" +:+ quoted "out-of-bounds request buffer" +:+ "}".

(** ** Serving a guest's calls *)

(** What the functions of the linker close over: whether [http] is linked, the
    instance's id and policy, the deadline of the invocation. *)
Record Context_ : Type := mkContext {
  http_linked : bool;
  extension_id : string;
  http_allow_hosts : option (list string);
  deadline_runs : bool;
}.

Section serve.
Context (net : Internet) (c : Context_).

Definition serve_log (level ptr len : Z) (g : Guest) (h : Host) : Host :=
  log_line (mkLine (level_of level) (extension_id c)
              (default "<out-of-bounds log message>" (read_guest_string g ptr len))) h.

(** The end of [run_http_import]: place the response. *)
Definition place_response (response : bytes) (ptr : Z) (g : Guest) : Outcome Guest Z :=
  match exported_memory g with
  | None => Trap g "guest exports no memory"
  | Some data =>
      match mem_write (as_usize ptr) response data with
      | None => Trap g "out of bounds memory access"
      | Some data => Done (set_memory data g) (pack ptr (Z.of_nat (String.length response)))
      end
  end.

(** The allocator, looked up again for every response. *)
Definition exported_alloc (g : Guest) : result unit string :=
  match exported g ALLOC_EXPORT with
  | Some (Func _ _) =>
      map_err (λ err, "invalid lycoris_alloc signature: " +:+ err) (typed_func g ALLOC_EXPORT [I32] [I32])
  | _ => Err "guest exports no lycoris_alloc"
  end.

Definition run_http_import (alloc : Guest → Z → Host → Host * Outcome Guest Z) (ptr len : Z) (g : Guest) (h : Host)
    : Host * Outcome Guest Z :=
  let request := default out_of_bounds_request (read_guest_bytes g ptr len) in
  let '(sent', response) := execute net (deadline_runs c) request (http_allow_hosts c) (sent h) in
  let h := set_sent sent' h in
  match response with
  | None => (h, TimedOut (unwound g))
  | Some response =>
      match exported_alloc g with
      | Err e => (h, Trap g e)
      | Ok _ =>
          if decide (Z.of_nat (String.length response) > i32_max)
          then (h, Trap g "http response exceeds the guest addressable size")
          else
            match alloc g (Z.of_nat (String.length response)) h with
            | (h, Done g ptr) => (h, place_response response ptr g)
            | (h, stopped) => (h, stopped)
            end
      end
  end.

(** Interpret a call into the guest. *)
Fixpoint handle (depth : nat) {A : Type} (r : Run Guest A) (h : Host) {struct depth} : Host * Outcome Guest A :=
  let alloc := λ g len h,
    match depth with
    | O => (h, Trap g "call stack exhausted")
    | S depth => handle depth (call g ALLOC_EXPORT [len]) h
    end in
  (fix go (r : Run Guest A) (h : Host) {struct r} : Host * Outcome Guest A :=
     match r with
     | Returned g a => (h, Done g a)
     | Trapped g m => (h, Trap g m)
     | Imported (CallLog level ptr len) g resume => go (resume g 0) (serve_log level ptr len g h)
     | Imported (CallHttp ptr len) g resume =>
         if http_linked c then
           match run_http_import alloc ptr len g h with
           | (h, Done g packed) => go (resume g packed) h
           | (h, Trap g m) => (h, Trap g m)
           | (h, TimedOut g) => (h, TimedOut g)
           end
         else (h, Trap g "unknown import")
     end) r h.
End serve.

(** ** Invocations *)

Section engine.
Context (net : Internet) (depth : nat) `{!Blake3}.

(** [WasmInstance], with what its store keeps. *)
Record WasmInstance : Type := mkInstance {
  wi_guest : Guest;
  wi_fuel : Z;
  wi_deadline : Z;
  wi_id : string;
  wi_http : bool;
  wi_allow_hosts : option (list string);
}.

Definition set_guest (g : Guest) (i : WasmInstance) : WasmInstance :=
  mkInstance g (wi_fuel i) (wi_deadline i) (wi_id i) (wi_http i) (wi_allow_hosts i).

Definition instance_context (i : WasmInstance) : Context_ := mkContext (wi_http i) (wi_id i) (wi_allow_hosts i) true.

(** An instance and the host around it. *)
Abbreviation Running := (M (WasmInstance * Host) ExtensionError).

Definition guest_trap (context message : string) : ExtensionError := GuestTrap (context +:+ ": " +:+ message).

(** [TypedFunc::call_async], under the deadline of the invocation. *)
Definition call_async (context name : string) (args : list Z) : Running Z := λ '(i, h),
  match handle net (instance_context i) depth (call (wi_guest i) name args) h with
  | (h, Done g a) => ((set_guest g i, h), Ok a)
  | (h, Trap g m) => ((set_guest g i, h), Err (guest_trap context m))
  | (h, TimedOut g) => ((set_guest g i, h), Err (InvokeTimeout (wi_deadline i)))
  end.

Definition memory_write (context : string) (ptr : Z) (buffer : bytes) : Running unit := λ '(i, h),
  match mem_write (as_usize ptr) buffer (memory (wi_guest i)) with
  | Some data => ((set_guest (set_memory data (wi_guest i)) i, h), Ok tt)
  | None => ((i, h), Err (guest_trap context "out of bounds memory access"))
  end.

Definition rearm : Running unit := λ '(i, h),
  match set_fuel (wi_fuel i) (wi_guest i) with
  | Ok g => ((set_guest g i, h), Ok tt)
  | Err e => ((i, h), Err (Engine ("failed to set fuel: " +:+ e)))
  end.

Definition i32_try_from (n : Z) (what : string) : result Z ExtensionError :=
  if decide (n ≤ i32_max) then Ok n else Err (InvalidPayload (what +:+ " exceeds the guest addressable size")).

(** The response a packed value names, in the guest's memory. *)
Definition read_response (packed : Z) (data : bytes) : result bytes ExtensionError :=
  let '(response_ptr, response_len) := unpack packed in
  ok_or (slice response_ptr (usize_saturating_add response_ptr response_len) data)
    (Engine "guest returned an out-of-bounds response buffer pointer").

Definition invoke_inner (method : string) (payload : bytes) : Running bytes :=
  let! method_len := lift (i32_try_from (Z.of_nat (String.length method)) "method name") in
  let! payload_len := lift (i32_try_from (Z.of_nat (String.length payload)) "payload") in
  let! _ := rearm in
  let! method_ptr := call_async "allocating the method buffer" ALLOC_EXPORT [method_len] in
  let! _ := memory_write "writing the method buffer" method_ptr method in
  let! payload_ptr := call_async "allocating the payload buffer" ALLOC_EXPORT [payload_len] in
  let! _ := memory_write "writing the payload buffer" payload_ptr payload in
  let! packed := call_async "running the guest" INVOKE_EXPORT [method_ptr; method_len; payload_ptr; payload_len] in
  let! response := (λ s, (s, read_response packed (memory (wi_guest s.1)))) in
  let! _ := lift (valid_payload "guest output" response) in
  ret response.

Definition wasm_invoke (method : string) (payload : bytes) : Running bytes :=
  let! _ := lift (valid_payload "request payload" payload) in
  invoke_inner method payload.

(** ** Loading *)

Definition parse_http_allow_hosts (settings : Value) : result (option (list string)) ExtensionError :=
  match as_object settings ≫= (λ m, m !! "http_allow_hosts") with
  | None => Ok None
  | Some value =>
      if is_null value then Ok None
      else
        let? hosts :=
          map_err (λ err, InvalidPayload ("http_allow_hosts must be an array of host names: " +:+ err))
            (match as_text value with Some raw => strings_from raw | None => strings_of value end) in
        Ok (Some hosts)
  end.

(** The functions of the linker. *)
Definition linker (http_capability : bool) : list string :=
  LOG_IMPORT :: (if http_capability then [HTTP_IMPORT] else []).

(** [instantiate_async]: nothing limits its time, and the instance has no policy
    yet. *)
Definition instantiate_async (id : string) (http_capability : bool) (module : Module) (store : Guest)
    : M Host ExtensionError Guest := λ h,
  match handle net (mkContext http_capability id None false) depth
          (instantiate module (linker http_capability) store) h with
  | (h, Done g _) => (h, Ok g)
  | (h, Trap _ m) => (h, Err (GuestTrap ("failed to instantiate the guest: " +:+ m)))
  | (h, TimedOut _) => (h, Err (GuestTrap "failed to instantiate the guest"))
  end.

Definition typed_export (g : Guest) (name : string) (params results : list ValType) : result unit ExtensionError :=
  map_err (λ err, Engine ("invalid " +:+ name +:+ " signature: " +:+ err)) (typed_func g name params results).

(** Run a method of a fresh instance, and keep the instance. *)
Definition on_instance {A} (i : WasmInstance) (m : Running A) : M Host ExtensionError WasmInstance := λ h,
  match m (i, h) with
  | ((i, h), Ok _) => (h, Ok i)
  | ((_, h), Err e) => (h, Err e)
  end.

(** What is checked before anything of the guest runs. *)
Definition checked_module (package : ExtensionPackage) (http_capability : bool) : result Module ExtensionError :=
  let? _ := verify_package package in
  if decide (pk_engine package ≠ Manifest.Wasm) then Err (wrong_engine (pk_id package) (pk_engine package) "wasm")
  else
    let? module := map_err (λ err, Engine ("failed to compile the wasm module: " +:+ err))
                     (module_new (pk_artifact package)) in
    let? _ := check_imports module http_capability in
    let? _ := check_exports module in
    Ok module.

Definition wants_http (package : ExtensionPackage) : bool :=
  existsb (λ c, bool_decide (c = "http")) (capabilities (pk_manifest package)).

Definition load_instance (limits : EngineLimits) (package : ExtensionPackage) (settings : Value)
    : M Host ExtensionError WasmInstance :=
  let http_capability := wants_http package in
  let! module := lift (checked_module package http_capability) in
  let! store := lift (map_err (λ err, Engine ("failed to set fuel: " +:+ err))
                       (set_fuel (wasm_fuel_per_call limits) (store_new (wasm_max_memory_bytes limits)))) in
  let! g := instantiate_async (pk_id package) http_capability module store in
  let! _ := lift (ok_or (exported_memory g) (Engine "guest exports no memory")) in
  let! _ := lift (typed_export g ALLOC_EXPORT [I32] [I32]) in
  let! _ := lift (typed_export g INVOKE_EXPORT [I32; I32; I32; I32] [I64]) in
  let! allow_hosts := lift (parse_http_allow_hosts settings) in
  let instance := mkInstance g (wasm_fuel_per_call limits) (invoke_timeout limits) (pk_id package)
                    http_capability allow_hosts in
  on_instance instance (configure_instance wasm_invoke settings).
End engine.
End wasm.
