(* ===== verification/WasmTheorems.v ===== *)
(** * What a guest can do

    The messages a WebAssembly guest makes the host send, and the buffers the
    host reads from it. *)

From S2P Require Import Prelude.
From S2P Require Import Effects.
From S2P Require Import Tables.
From S2P Require Import Resources.
From S2P Require Import Manifest.
From S2P Require Import Http.
From S2P Require Import Engine.
From S2P Require Import Wasm.

#[local] Open Scope string_scope.
#[local] Open Scope Z_scope.

(** ** Messages *)

Section egress.
Context `{!Formats, !Reqwest, !Wasmtime} (net : Internet) (depth : nat) `{!Blake3}.

(** The host went from [h] to [h'] sending only what the policy permits, and
    nothing where [http] is not linked. *)
Definition sends (linked : bool) (allow : option (list string)) (h h' : Host) : Prop :=
  ∃ ms, sent h' = (sent h ++ ms)%list ∧ Forall (permitted allow) ms ∧ (linked = false → ms = []).

Lemma sends_refl linked allow h h' : sent h' = sent h → sends linked allow h h'.
Proof. intros Hs. exists []. by rewrite app_nil_r. Qed.

Lemma sends_trans linked allow h1 h2 h3 :
  sends linked allow h1 h2 → sends linked allow h2 h3 → sends linked allow h1 h3.
Proof.
  intros (l & H1' & Hl & Hn) (k & H2' & Hk & Hm). exists (l ++ k)%list.
  rewrite H2', H1', app_assoc. split; [done|]. split; [by apply Forall_app|]. intros He. by rewrite Hn, Hm.
Qed.

Lemma sends_weaken linked allow h h' : sends linked allow h h' → sends true allow h h'.
Proof. intros (ms & Hs & Hp & _). by exists ms. Qed.

Lemma execute_sends_permitted c request h sent' r :
  execute net (deadline_runs c) request (http_allow_hosts c) (sent h) = (sent', r) →
  sends true (http_allow_hosts c) h (set_sent sent' h).
Proof.
  intros He. destruct (execute_sends net (deadline_runs c) request (http_allow_hosts c) (sent h)) as [Hs|(m & Hm & Hs)];
    rewrite He in Hs; cbn in Hs; subst sent'.
  - by apply sends_refl.
  - exists [m]. split; [done|]. split; [|done]. by constructor.
Qed.

Lemma http_import_sends c alloc ptr len g h :
  (∀ g n h, sends true (http_allow_hosts c) h (alloc g n h).1) →
  sends true (http_allow_hosts c) h (run_http_import net c alloc ptr len g h).1.
Proof.
  intros Ha. unfold run_http_import. destruct (execute _ _ _ _ _) as [sent' [response|]] eqn:He;
    apply execute_sends_permitted in He; [|done].
  destruct (exported_alloc g); [|done]. case_decide; [done|].
  specialize (Ha g (Z.of_nat (String.length response)) (set_sent sent' h)).
  destruct (alloc _ _ _) as [h' []]; cbn in *; by eapply sends_trans.
Qed.

(** One level of nesting. *)
Definition allocating (c : Context_) (n : nat) (g : Guest) (len : Z) (h : Host) : Host * Outcome Guest Z :=
  match n with
  | O => (h, Trap g "call stack exhausted")
  | S n => handle net c n (call g ALLOC_EXPORT [len]) h
  end.

Lemma handle_http c n A ptr len g (resume : Guest → Z → Run Guest A) h :
  handle net c n (Imported (CallHttp ptr len) g resume) h =
    if http_linked c then
      match run_http_import net c (allocating c n) ptr len g h with
      | (h, Done g packed) => handle net c n (resume g packed) h
      | (h, Trap g m) => (h, Trap g m)
      | (h, TimedOut g) => (h, TimedOut g)
      end
    else (h, Trap g "unknown import").
Proof. by destruct n. Qed.

Lemma handle_log c n A level ptr len g (resume : Guest → Z → Run Guest A) h :
  handle net c n (Imported (CallLog level ptr len) g resume) h =
    handle net c n (resume g 0) (serve_log c level ptr len g h).
Proof. by destruct n. Qed.

Lemma handle_returned c n A g (a : A) h : handle net c n (Returned g a) h = (h, Done g a).
Proof. by destruct n. Qed.

Lemma handle_trapped c n A g m h : handle net c n (Trapped (A:=A) g m) h = (h, Trap g m).
Proof. by destruct n. Qed.

Lemma handle_sends_step c n A (r : Run Guest A) h :
  (∀ g len h, sends true (http_allow_hosts c) h (allocating c n g len h).1) →
  sends (http_linked c) (http_allow_hosts c) h (handle net c n r h).1.
Proof.
  intros Ha. revert h. induction r as [g a|g m|[level ptr len|ptr len] g resume IHr]; intros h.
  - rewrite handle_returned. by apply sends_refl.
  - rewrite handle_trapped. by apply sends_refl.
  - rewrite handle_log. eapply sends_trans; [|apply IHr]. by apply sends_refl.
  - rewrite handle_http. destruct (http_linked c) eqn:Hl; [|by apply sends_refl].
    pose proof (http_import_sends c (allocating c n) ptr len g h Ha) as Hi.
    destruct (run_http_import _ _ _ _ _ _ _) as [h' []]; cbn in *; [|done|done]. by eapply sends_trans.
Qed.

Lemma handle_level_sends c n A (r : Run Guest A) h :
  sends (http_linked c) (http_allow_hosts c) h (handle net c n r h).1.
Proof.
  revert A r h. induction n as [|n IH]; intros A r h; apply handle_sends_step; intros g len h'.
  - by apply sends_refl.
  - eapply sends_weaken, IH.
Qed.

Lemma handle_sends c A (r : Run Guest A) h :
  sends (http_linked c) (http_allow_hosts c) h (handle net c depth r h).1.
Proof. apply handle_level_sends. Qed.

Lemma allocating_sends c n g len h : sends true (http_allow_hosts c) h (allocating c n g len h).1.
Proof. destruct n; cbn; [by apply sends_refl|]. eapply sends_weaken, handle_level_sends. Qed.

(** What no step of an invocation changes, and what it sends. *)
Definition confined (i : WasmInstance) (h : Host) (s : WasmInstance * Host) : Prop :=
  s.1 = set_guest (wi_guest s.1) i ∧ sends (wi_http i) (wi_allow_hosts i) h s.2.

Lemma confined_refl i h : confined i h (i, h).
Proof. split; [by destruct i|by apply sends_refl]. Qed.

Lemma confined_guest i h i' h' g : confined i h (i', h') → confined i h (set_guest g i', h').
Proof. intros [Hi Hs]. split; [|done]. cbn in *. by rewrite Hi. Qed.

Lemma wp_confined_call context name args i h s :
  confined i h s → wp (call_async net depth context name args) (λ _, confined i h) (λ _, confined i h) s.
Proof.
  destruct s as [i' h']. intros [Hi Hs]. unfold wp, call_async.
  pose proof (handle_sends (instance_context i') Z (call (wi_guest i') name args) h') as Hh.
  assert (wi_http i' = wi_http i ∧ wi_allow_hosts i' = wi_allow_hosts i) as [Eh Ea]
    by (change (i', h').1 with i' in Hi; rewrite Hi; done).
  cbn in Hh. rewrite Eh, Ea in Hh.
  destruct (handle _ _ _ _ _) as [h2 []]; cbn in Hh; apply confined_guest; (split; [done|]); by eapply sends_trans.
Qed.

Lemma wp_confined_write context ptr buffer i h s :
  confined i h s → wp (memory_write context ptr buffer) (λ _, confined i h) (λ _, confined i h) s.
Proof.
  destruct s as [i' h']. intros Hc. unfold wp, memory_write. destruct (mem_write _ _ _); [|done].
  by apply confined_guest.
Qed.

Lemma wp_confined_rearm i h s : confined i h s → wp rearm (λ _, confined i h) (λ _, confined i h) s.
Proof.
  destruct s as [i' h']. intros Hc. unfold wp, rearm. destruct (set_fuel _ _); [|done]. by apply confined_guest.
Qed.

Lemma wp_confined_bind {A B} (m : M (WasmInstance * Host) ExtensionError A) (k : A → M _ _ B) i h s :
  wp m (λ _, confined i h) (λ _, confined i h) s →
  (∀ a s, confined i h s → wp (k a) (λ _, confined i h) (λ _, confined i h) s) →
  wp (bind m k) (λ _, confined i h) (λ _, confined i h) s.
Proof. intros Hm Hk. rewrite wp_bind. eapply wp_mono; [exact Hm|apply Hk|done]. Qed.

Lemma wp_confined_lift {A} (r : result A ExtensionError) i h s :
  confined i h s → wp (lift r) (λ _, confined i h) (λ _, confined i h) s.
Proof. intros Hc. rewrite wp_lift. by destruct r. Qed.

Ltac confine :=
  first [apply wp_confined_call | apply wp_confined_write | apply wp_confined_rearm | apply wp_confined_lift]; assumption.

Ltac confine_steps :=
  repeat match goal with
         | |- wp (bind _ _) _ _ _ => apply wp_confined_bind; [try confine|intros]
         end.

Lemma wp_invoke_confined method payload i h s :
  confined i h s → wp (wasm_invoke net depth method payload) (λ _, confined i h) (λ _, confined i h) s.
Proof. intros Hc. unfold wasm_invoke, invoke_inner. confine_steps; done. Qed.

(** Invocations of an instance, one after the other. *)
Definition serve_all (calls : list (string * bytes)) (s : WasmInstance * Host) : WasmInstance * Host :=
  foldl (λ s c, (wasm_invoke net depth c.1 c.2 s).1) s calls.

Lemma invoke_confined method payload i h s :
  confined i h s → confined i h (wasm_invoke net depth method payload s).1.
Proof.
  intros Hc. pose proof (wp_invoke_confined method payload i h s Hc) as Hw. unfold wp in Hw.
  by destruct (wasm_invoke _ _ _ _ s) as [s' []].
Qed.

Lemma serve_all_confined calls i h s : confined i h s → confined i h (serve_all calls s).
Proof. revert s. induction calls as [|c l IH]; intros s Hc; [done|]. cbn. by apply IH, invoke_confined. Qed.

Lemma configure_confined settings i h s :
  confined i h s → wp (configure_instance (wasm_invoke net depth) settings) (λ _, confined i h) (λ _, confined i h) s.
Proof.
  intros Hc. unfold configure_instance. apply wp_confined_bind; [by apply wp_confined_lift|]. intros payload s' Hs.
  rewrite wp_try_or. eapply wp_mono; [|by intros a s2 H2'; exact H2'|].
  - apply wp_confined_bind; [by apply wp_invoke_confined|]. intros _ s2 H2'. by rewrite wp_ret.
  - intros e s2 H2'. by destruct (is_method_not_found e).
Qed.

(** The steps of a load that succeeded. *)
Lemma load_instance_Ok limits package settings h h' i :
  load_instance net depth limits package settings h = (h', Ok i) →
  ∃ module store g allow h1,
    checked_module package (wants_http package) = Ok module ∧
    set_fuel (wasm_fuel_per_call limits) (store_new (wasm_max_memory_bytes limits)) = Ok store ∧
    instantiate_async net depth (pk_id package) (wants_http package) module store h = (h1, Ok g) ∧
    parse_http_allow_hosts settings = Ok allow ∧ wi_http i = wants_http package ∧ wi_allow_hosts i = allow ∧
    sends (wants_http package) allow h1 h'.
Proof.
  unfold load_instance, bind, lift. destruct (checked_module _ _) as [module|]; [|done].
  destruct (set_fuel _ _) as [store|] eqn:Hf; cbn [map_err]; [|done].
  destruct (instantiate_async _ _ _ _ _ _ h) as [h1 [g|]] eqn:Hi; [|done].
  destruct (ok_or _ _); [|done]. destruct (typed_export g ALLOC_EXPORT _ _); [|done].
  destruct (typed_export g INVOKE_EXPORT _ _); [|done].
  destruct (parse_http_allow_hosts settings) as [allow|]; [|done].
  unfold on_instance. set (i0 := mkInstance _ _ _ _ _ _).
  pose proof (configure_confined settings i0 h1 (i0, h1) (confined_refl _ _)) as Hc. unfold wp in Hc.
  destruct (configure_instance _ _ _) as [[i' h2] [|]]; [|done]. intros [= -> ->]. destruct Hc as [Hc Hs].
  exists module, store, g, allow, h1. split_and!; try done; cbn in Hc; by rewrite Hc.
Qed.

Lemma instantiate_sends id linked module store h :
  ∃ start, sent (instantiate_async net depth id linked module store h).1 = (sent h ++ start)%list ∧
    (linked = false → start = []).
Proof.
  unfold instantiate_async.
  destruct (handle_sends (mkContext linked id None false) unit (instantiate module (linker linked) store) h)
    as (start & Hs & _ & Hn).
  exists start. by destruct (handle _ _ _ _ _) as [h1 []].
Qed.

(** What the instantiation sent stays sent, however the load ends. *)
Lemma load_instance_extends limits package settings h module store :
  checked_module package (wants_http package) = Ok module →
  set_fuel (wasm_fuel_per_call limits) (store_new (wasm_max_memory_bytes limits)) = Ok store →
  sent (instantiate_async net depth (pk_id package) (wants_http package) module store h).1
    `prefix_of` sent (load_instance net depth limits package settings h).1.
Proof.
  intros Hm Hf. unfold load_instance, bind, lift. rewrite Hm, Hf. cbn [map_err].
  destruct (instantiate_async _ _ _ _ _ _ h) as [h1 [g|]]; cbn [fst]; [|done].
  destruct (ok_or _ _); [|done]. destruct (typed_export g ALLOC_EXPORT _ _); [|done].
  destruct (typed_export g INVOKE_EXPORT _ _); [|done]. destruct (parse_http_allow_hosts settings) as [allow|]; [|done].
  unfold on_instance. set (i0 := mkInstance _ _ _ _ _ _).
  pose proof (configure_confined settings i0 h1 (i0, h1) (confined_refl _ _)) as Hc. unfold wp in Hc.
  destruct (configure_instance _ _ _) as [[i' h2] [|]]; destruct Hc as [_ (ms & Hs & _)]; cbn in *; by exists ms.
Qed.

(** A host call at the head of the start section is served without a policy. *)
Lemma instantiate_serves_http id module store h ptr len g resume request m :
  instantiate module (linker true) store = Imported (CallHttp ptr len) g resume →
  read_guest_bytes g ptr len = Some request → message_of request None = Ok m →
  m ∈ sent (instantiate_async net depth id true module store h).1.
Proof.
  intros Hi Hr Hm. unfold instantiate_async. rewrite Hi, handle_http. cbn [http_linked].
  set (c := mkContext true id None false).
  assert (∀ sent' r, execute net false request None (sent h) = (sent', r) → m ∈ sent') as Hx.
  { intros sent' r. unfold execute, execute_inner, bind, lift, send. rewrite Hm.
    destruct (answer_of _ _) as [|[]]; intros [= <- _]; apply elem_of_app; right; by left. }
  assert (∀ g n h, sends true None h (allocating c depth g n h).1) as Ha.
  { intros. apply allocating_sends. }
  assert (m ∈ sent (run_http_import net c (allocating c depth) ptr len g h).1) as Hin.
  { unfold run_http_import. rewrite Hr. cbn [default deadline_runs http_allow_hosts c]. unfold Datatypes.id.
    destruct (execute net false request None (sent h)) as [sent' r] eqn:He. specialize (Hx _ _ eq_refl).
    destruct r as [response|]; [|exact Hx]. destruct (exported_alloc g); [|exact Hx]. case_decide; [exact Hx|].
    destruct (Ha g (Z.of_nat (String.length response)) (set_sent sent' h)) as (ms & Hs & _).
    destruct (allocating _ _ _ _ _) as [h2 []]; cbn in *; rewrite Hs; apply elem_of_app; by left. }
  destruct (run_http_import _ _ _ _ _ _ _) as [h2 []]; cbn in Hin; [|exact Hin|exact Hin].
  destruct (handle_sends c unit (resume g0 a) h2) as (ms & Hs & _).
  destruct (handle net c depth (resume g0 a) h2) as [h3 []]; cbn in *; rewrite Hs; apply elem_of_app; by left.
Qed.
End egress.


(** The start section escapes the policy. A module whose start section
    hands the http import a well-formed request has it sent before the settings
    are looked at: whatever allowlist they state, the message leaves the node. *)
Theorem start_section_unconfined `{!Formats, !Reqwest, !Wasmtime} net depth `{!Blake3} limits package settings h
    module store ptr len g resume request m :
  wants_http package = true → checked_module package true = Ok module →
  set_fuel (wasm_fuel_per_call limits) (store_new (wasm_max_memory_bytes limits)) = Ok store →
  instantiate module (linker true) store = Imported (CallHttp ptr len) g resume →
  read_guest_bytes g ptr len = Some request → message_of request None = Ok m →
  m ∈ sent (load_instance net depth limits package settings h).1.
Proof.
  intros Hw Hc Hf Hi Hr Hm. pose proof (load_instance_extends net depth limits package settings h module store) as He.
  rewrite Hw in He. specialize (He Hc Hf). eapply elem_of_prefix; [|exact He].
  by eapply instantiate_serves_http.
Qed.

(** ** Buffers *)

Lemma substring_length n k s :
  (n + k ≤ String.length s)%nat → String.length (String.substring n k s) = k.
Proof.
  revert n k. induction s as [|a s IH]; intros n k Hl; cbn in Hl.
  - by destruct n, k; cbn; try lia.
  - destruct n as [|n]; [destruct k as [|k]|]; cbn; [done| |apply IH; lia].
    f_equal. apply (IH 0%nat). lia.
Qed.

Lemma substring_prefix_app a b : String.substring 0 (String.length a) (a +:+ b) = a.
Proof.
  induction a as [|x a IH]; [by destruct b|]. change (String x a +:+ b) with (String x (a +:+ b)). cbn. by rewrite IH.
Qed.

Lemma substring_middle a b c : String.substring (String.length a) (String.length b) (a +:+ b +:+ c) = b.
Proof.
  induction a as [|x a IH]; [exact (substring_prefix_app b c)|exact IH].
Qed.

Lemma slice_Some from to data b :
  slice from to data = Some b ↔
    from ≤ to ≤ Z.of_nat (String.length data) ∧ b = String.substring (Z.to_nat from) (Z.to_nat (to - from)) data.
Proof. unfold slice. case_decide; naive_solver. Qed.

Lemma substring_length_le n k s : (String.length s - n ≤ k)%nat → String.length (String.substring n k s) = (String.length s - n)%nat.
Proof.
  revert n k. induction s as [|a s IH]; intros n k Hl; cbn in Hl; [by destruct n, k|].
  destruct n as [|n]; [destruct k as [|k]; [lia|]; cbn; f_equal; rewrite (IH 0%nat); lia|apply IH; lia].
Qed.

Lemma drop_bytes_length n s : String.length (drop_bytes n s) = (String.length s - n)%nat.
Proof. apply substring_length_le. lia. Qed.

Lemma mem_write_length offset buffer data data' :
  0 ≤ offset → mem_write offset buffer data = Some data' → String.length data' = String.length data.
Proof.
  intros Ho. unfold mem_write. case_decide as Hd; [|done]. intros [= <-].
  rewrite !string_length_app, (substring_length 0), drop_bytes_length by lia. lia.
Qed.

Lemma mem_write_slice offset buffer data data' :
  0 ≤ offset → mem_write offset buffer data = Some data' →
  slice offset (offset + Z.of_nat (String.length buffer)) data' = Some buffer.
Proof.
  intros Ho. unfold mem_write. case_decide as Hd; [|done]. intros [= <-]. apply slice_Some. split.
  - rewrite !string_length_app, (substring_length 0) by lia. lia.
  - set (a := String.substring 0 (Z.to_nat offset) data).
    assert (String.length a = Z.to_nat offset) as Hl by (apply substring_length; lia).
    rewrite <- Hl. replace (Z.to_nat (_ - offset)) with (String.length buffer) by lia.
    symmetry. apply substring_middle.
Qed.

Lemma unpack_range packed ptr len :
  unpack packed = (ptr, len) → 0 ≤ ptr < 2 ^ 32 ∧ 0 ≤ len < 2 ^ 32.
Proof.
  unfold unpack, as_usize. intros [= <- <-].
  pose proof (Z.mod_pos_bound packed (2 ^ 64) eq_refl) as Hb.
  rewrite Z.shiftr_div_pow2 by lia. change (2 ^ 32 - 1) with (Z.ones 32). rewrite Z.land_ones by lia. split.
  - split; [apply Z.div_pos; lia|]. apply Z.div_lt_upper_bound; lia.
  - by apply Z.mod_pos_bound.
Qed.

(** What the host packs, a reader of the same convention unpacks. *)
Lemma unpack_pack ptr len : 0 ≤ len < 2 ^ 32 → unpack (pack ptr len) = (as_u32 ptr, len).
Proof.
  intros Hl. unfold unpack, pack, as_usize. pose proof (Z.mod_pos_bound ptr (2 ^ 32) eq_refl) as Hp.
  fold (as_u32 ptr) in Hp. unfold as_u32 at 2 4. rewrite (Z.mod_small len) by lia.
  assert (Z.lor (Z.shiftl (as_u32 ptr) 32) len = as_u32 ptr * 2 ^ 32 + len) as ->.
  { rewrite <- Z.shiftl_mul_pow2 by lia. symmetry. rewrite Z.add_nocarry_lxor, Z.lxor_lor; [done|..];
      apply Z.bits_inj'; intros k Hk; rewrite Z.land_spec, Z.bits_0;
      (destruct (decide (k < 32)); [rewrite Z.shiftl_spec_low by lia; done|]);
      rewrite andb_comm, (Z.bits_above_log2 len k); [done|lia|..|done|lia|];
      (destruct (decide (len = 0)) as [->|]; [cbn; lia|]); apply Z.log2_lt_pow2; try lia;
      (apply Z.lt_le_trans with (2 ^ 32); [lia|]; apply Z.pow_le_mono_r; lia). }
  assert (as_i64 (as_u32 ptr * 2 ^ 32 + len) mod 2 ^ 64 = as_u32 ptr * 2 ^ 32 + len) as ->.
  { unfold as_i64. case_decide.
    - apply Z.mod_small. lia.
    - replace (as_u32 ptr * 2 ^ 32 + len - 2 ^ 64) with (as_u32 ptr * 2 ^ 32 + len + (-1) * 2 ^ 64) by lia.
      rewrite Z.mod_add by lia. apply Z.mod_small. lia. }
  rewrite Z.shiftr_div_pow2 by lia. change (2 ^ 32 - 1) with (Z.ones 32). rewrite Z.land_ones by lia. f_equal.
  - rewrite Z.div_add_l, Z.div_small by lia. lia.
  - rewrite Z.add_comm, Z.mod_add by lia. apply Z.mod_small. lia.
Qed.

Section buffers.
Context `{!Formats, !Reqwest, !Wasmtime} (net : Internet) (depth : nat).

Lemma read_response_Ok packed data response :
  read_response packed data = Ok response →
  ∃ ptr len, 0 ≤ ptr ∧ 0 ≤ len < 2 ^ 32 ∧ ptr + len ≤ Z.of_nat (String.length data) ∧
    response = String.substring (Z.to_nat ptr) (Z.to_nat len) data ∧ Z.of_nat (String.length response) = len.
Proof.
  unfold read_response. destruct (unpack packed) as [ptr len] eqn:Hu. apply unpack_range in Hu as [Hp Hl].
  rewrite ok_or_Ok, slice_Some. unfold usize_saturating_add, u64_max. rewrite Z.min_l by lia.
  replace (ptr + len - ptr) with len by lia. intros [Hb ->]. exists ptr, len.
  split_and!; try done; try lia. rewrite substring_length; lia.
Qed.

(** What the memory of a running instance is after a successful [invoke_inner]. *)
Definition answered_from (response : bytes) (s : WasmInstance * Host) : Prop :=
  is_ok (value_from response) = true ∧ ∃ packed, read_response packed (memory (wi_guest s.1)) = Ok response.

Lemma wp_any {S E A} (m : M S E A) s : wp m (λ _ _, True) (λ _ _, True) s.
Proof. unfold wp. by destruct (m s) as [s' []]. Qed.

Lemma wp_bind_any {S E A B} (m : M S E A) (k : A → M S E B) Q s :
  (∀ a s', wp (k a) Q (λ _ _, True) s') → wp (bind m k) Q (λ _ _, True) s.
Proof. intros Hk. rewrite wp_bind. eapply wp_mono; [apply wp_any|by intros|done]. Qed.

Lemma is_ok_map_err {A E F} (f : E → F) (r : result A E) a : map_err f r = Ok a → is_ok r = true.
Proof. by destruct r. Qed.

Lemma i32_try_from_Ok n what k : i32_try_from n what = Ok k → n ≤ i32_max.
Proof. unfold i32_try_from. by case_decide. Qed.

Lemma wp_invoke_response method payload s :
  wp (wasm_invoke net depth method payload)
    (λ response s', answered_from response s' ∧ is_ok (value_from payload) = true ∧
       Z.of_nat (String.length method) ≤ i32_max ∧ Z.of_nat (String.length payload) ≤ i32_max)
    (λ _ _, True) s.
Proof.
  unfold wasm_invoke, invoke_inner, valid_payload. rewrite wp_bind, wp_lift.
  destruct (map_err _ (value_from payload)) as [v|] eqn:Hv; [|done]. apply is_ok_map_err in Hv.
  rewrite wp_bind, wp_lift. destruct (i32_try_from _ "method name") as [ml|] eqn:Hml; [|done].
  rewrite wp_bind, wp_lift. destruct (i32_try_from _ "payload") as [pl|] eqn:Hpl; [|done].
  apply i32_try_from_Ok in Hml, Hpl.
  do 6 (apply wp_bind_any; intros ? ?). rewrite wp_bind. unfold wp at 1.
  destruct (read_response _ _) as [response|] eqn:Hr; [|done]. rewrite wp_bind, wp_lift.
  destruct (map_err _ (value_from response)) as [v'|] eqn:Hv'; [|done]. apply is_ok_map_err in Hv'.
  rewrite wp_ret. split_and!; try done. split; [done|by eexists].
Qed.
End buffers.

(** C38: What crosses the boundary is in bounds and is JSON. An invocation that
    returns a response was given a JSON payload that a guest can address, and
    returns exactly the bytes of one range of the guest's memory, a range that
    lies within it, which are JSON again; whatever the guest packed, no other
    bytes are read. *)
Theorem invoke_in_bounds `{!Formats, !Reqwest, !Wasmtime} net depth method payload s s' response :
  wasm_invoke net depth method payload s = (s', Ok response) →
  is_ok (value_from payload) = true ∧ is_ok (value_from response) = true ∧
  Z.of_nat (String.length method) ≤ i32_max ∧ Z.of_nat (String.length payload) ≤ i32_max ∧
  ∃ ptr len, 0 ≤ ptr ∧ 0 ≤ len < 2 ^ 32 ∧ ptr + len ≤ Z.of_nat (String.length (memory (wi_guest s'.1))) ∧
    response = String.substring (Z.to_nat ptr) (Z.to_nat len) (memory (wi_guest s'.1)) ∧
    Z.of_nat (String.length response) = len.
Proof.
  intros Hi. destruct (wp_run _ _ _ _ (wp_invoke_response net depth method payload s) _ _ Hi)
    as ([Hr [packed Hp]] & Hv & Hm & Hl).
  split_and!; try done. by apply read_response_Ok in Hp.
Qed.

(** A response the host places is the one the guest reads. When the host
    hands a document over through the guest's allocator, the packed value it
    returns names, under the convention guests and host share, exactly the
    document in the guest's memory; a buffer the allocator placed outside of the
    memory traps instead, a negative address included. *)
Theorem response_delivered `{!Wasmtime} response ptr g :
  (∀ data g, memory (set_memory data g) = data) →
  - 2 ^ 31 ≤ ptr ≤ i32_max → Z.of_nat (String.length response) ≤ i32_max →
  Z.of_nat (String.length (memory g)) ≤ 2 ^ 32 → exported g MEMORY_EXPORT = Some Memory →
  (∃ g' packed, place_response response ptr g = Done g' packed ∧
     0 ≤ ptr ∧ ptr + Z.of_nat (String.length response) ≤ Z.of_nat (String.length (memory g)) ∧
     String.length (memory g') = String.length (memory g) ∧
     read_response packed (memory g') = Ok response) ∨
  (place_response response ptr g = Trap g "out of bounds memory access" ∧
     (ptr < 0 ∨ Z.of_nat (String.length (memory g)) < ptr + Z.of_nat (String.length response))).
Proof.
  unfold i32_max. intros Hlaw Hp Hl Hm Hx. unfold place_response, exported_memory. rewrite Hx.
  destruct (decide (0 ≤ ptr)) as [Hpos|].
  2: { right. unfold mem_write, as_usize. rewrite decide_False; [split; [done|lia]|].
       replace (ptr mod 2 ^ 64) with (ptr + 2 ^ 64); [lia|].
       rewrite <- (Z.mod_small (ptr + 2 ^ 64) (2 ^ 64)) by lia.
       replace (ptr + 2 ^ 64) with (ptr + 1 * 2 ^ 64) by lia. by rewrite Z.mod_add. }
  unfold as_usize. rewrite Z.mod_small by lia.
  destruct (mem_write ptr response (memory g)) as [data|] eqn:Hw.
  - left. eexists _, _. split; [done|]. rewrite Hlaw. split; [done|].
    pose proof (mem_write_length _ _ _ _ Hpos Hw) as Hlen. split_and!; [|done|].
    + unfold mem_write in Hw. by case_decide.
    + unfold read_response. rewrite unpack_pack by lia. unfold as_u32. rewrite Z.mod_small by lia.
      unfold usize_saturating_add, u64_max. rewrite Z.min_l by lia. by rewrite (mem_write_slice _ _ _ _ Hpos Hw).
  - right. split; [done|]. unfold mem_write in Hw. case_decide; [done|]. lia.
Qed.

(** ** A concrete guest

    Its code is its first byte: [s] makes its start section send the text that
    follows; every invocation sends that text and answers with the first two
    bytes of its memory. *)

Fixpoint spaces (n : nat) : string := match n with O => "" | S n => String (Ascii.ascii_of_nat 32) (spaces n) end.

Definition toy_memory (artifact : bytes) : bytes := "{}" +:+ artifact +:+ spaces 1500.

Definition toy_func (n m : nat) : ExternType nat := Func (repeat 32%nat n) (repeat 64%nat m).

Definition toy_http (artifact : bytes) {A} (a : A) (g : bytes) : Run bytes A :=
  Imported (CallHttp 2 (Z.of_nat (String.length artifact))) g (λ g _, Returned g a).

Definition toy_wasmtime : Wasmtime := {|
  ValType := nat; val_eq := Nat.eqb; I32 := 32%nat; I64 := 64%nat;
  Module := bytes; module_new := λ b, Ok b;
  imports := λ m, [("lycoris", "http", toy_func 2 1)];
  get_export := λ m n,
    if decide (n = "memory") then Some Memory
    else if decide (n = "lycoris_alloc") then Some (Func [32%nat] [32%nat]) else Some (toy_func 4 1);
  Guest := bytes * bytes;
  store_new := λ _, ("", ""); set_fuel := λ _ g, Ok g;
  instantiate := λ m _ _,
    if String.prefix "s" m
    then Imported (CallHttp 2 (Z.of_nat (String.length m))) (m, toy_memory m) (λ g _, Returned g tt)
    else Returned (m, toy_memory m) tt;
  exported := λ g n,
    if decide (n = "memory") then Some Memory
    else if decide (n = "lycoris_alloc") then Some (Func [32%nat] [32%nat]) else Some (toy_func 4 1);
  call := λ g n args,
    if decide (n = "lycoris_alloc") then Returned g 64
    else Imported (CallHttp 2 (Z.of_nat (String.length g.1))) g (λ g _, Returned g 2);
  memory := snd; set_memory := λ d g, (g.1, d);
  unwound := λ g, g; signature_error := "type mismatch";
|}.

(** A request document is a letter and a host. *)
Definition toy_reqwest : Reqwest := {|
  request_from := λ b, match b with String _ host => Ok (mkRequest "GET" ("https://" +:+ host) ∅ None) | _ => Err "empty" end;
  Url := string; url_parse := λ s, Ok (drop_bytes 8 s); host_str := λ u, Some u;
  method_parse := λ s, Ok s; header_name := λ s, Ok s; header_value := λ s, Ok s;
|}.

Definition toy_net : @Internet toy_reqwest :=
  @mkInternet toy_reqwest (λ _ _, Undelivered "offline") (λ _ _, None).

Definition toy_hash : Blake3 := {| blake3_hex := λ b, b |}.

(** An extension with the http capability. *)
Definition http_package (artifact : bytes) : @ExtensionPackage toy_formats :=
  @new_package toy_formats toy_hash "ext" "an extension" 1 Manifest.Wasm "" small_manifest artifact.

Definition one_host : ToyValue := toy_object {["http_allow_hosts" := toy_list ["api.example"]]}.

Definition toy_load (artifact : bytes) : @Host toy_reqwest * result (@WasmInstance toy_wasmtime) ExtensionError :=
  @load_instance toy_formats toy_reqwest toy_wasmtime toy_net 1 toy_hash default_limits (http_package artifact) one_host
    (@mkHost toy_reqwest [] []).

Lemma toy_loads : is_ok (toy_load "iapi.example").2 = true.
Proof. vm_compute. reflexivity. Qed.


Lemma start_section_unconfined_witness :
  @host_allowed (Some ["api.example"]) "evil.example" = false ∧
  @mkMessage toy_reqwest "GET" ("evil.example" : string) [] None ∈ sent (toy_load "sevil.example").1.
Proof.
  split; [reflexivity|].
  apply (@start_section_unconfined toy_formats toy_reqwest toy_wasmtime toy_net 1 toy_hash default_limits
    (http_package "sevil.example") one_host (@mkHost toy_reqwest [] [])
    ("sevil.example" : string) (("", "") : string * string) 2 13 (("sevil.example", toy_memory "sevil.example") : string * string)
    (λ g _, Returned g tt) "sevil.example"); vm_compute; reflexivity.
Defined.

Lemma toy_invoked :
  match toy_load "iapi.example" with
  | (h', Ok i) =>
      match (@wasm_invoke toy_formats toy_reqwest toy_wasmtime toy_net 1 "ask" "{}" (i, h')).2 with
      | Ok response => response = "{}"
      | Err _ => False
      end
  | _ => False
  end.
Proof. vm_compute. reflexivity. Qed.

Lemma invoke_in_bounds_witness :
  match toy_load "iapi.example" with
  | (h', Ok i) =>
      match @wasm_invoke toy_formats toy_reqwest toy_wasmtime toy_net 1 "ask" "{}" (i, h') with
      | (_, Ok response) => is_ok (@value_from toy_formats response) = true
      | _ => False
      end
  | _ => False
  end.
Proof.
  pose proof toy_invoked as Hok. destruct (toy_load "iapi.example") as [h' [i|e]]; [|exact Hok].
  destruct (@wasm_invoke toy_formats toy_reqwest toy_wasmtime toy_net 1 "ask" "{}" (i, h')) as [s' [response|e]] eqn:Hi;
    [|exact Hok].
  exact (proj1 (proj2 (@invoke_in_bounds toy_formats toy_reqwest toy_wasmtime toy_net 1 "ask" "{}" (i, h') s' response Hi))).
Defined.

Lemma response_delivered_witness :
  let g : string * string := ("", toy_memory "") in
  (∃ g' packed, @place_response toy_wasmtime "{}" 64 g = Done g' packed ∧
     0 ≤ 64 ∧ 64 + 2 ≤ Z.of_nat (String.length g.2) ∧ String.length g'.2 = String.length g.2 ∧
     read_response packed g'.2 = Ok "{}") ∨
  (@place_response toy_wasmtime "{}" 64 g = Trap g "out of bounds memory access" ∧
     (64 < 0 ∨ Z.of_nat (String.length g.2) < 64 + 2)).
Proof.
  cbv zeta. apply (@response_delivered toy_wasmtime "{}" 64 (("", toy_memory "") : string * string)).
  - reflexivity.
  - vm_compute; split; discriminate.
  - vm_compute; discriminate.
  - vm_compute; discriminate.
  - reflexivity.
Defined.
