(* ===== verification/Lua.v ===== *)
(** * The Lua engine ([crates/extension/src/lua.rs])

    A script runs in a state stripped down to the sandbox, under a hook that
    counts instructions. The interpreter is third-party: the class [Mlua] runs
    chunks and calls, handing the hook its number at each fire and reporting how
    often it fired; [MluaLaws] says tables keep what is stored in them. A call
    runs on a blocking thread which nothing cancels: when the deadline passes
    ([late]) its effects on the state remain. Calls of one instance are taken one
    after the other; the code lets them overlap. *)

From S2P Require Import Prelude.
From S2P Require Import Effects.
From S2P Require Import Versioned.
From S2P Require Import Tables.
From S2P Require Import ContentStores.
From S2P Require Import Resources.
From S2P Require Import Manifest.
From S2P Require Import Http.
From S2P Require Import Engine.

#[local] Open Scope string_scope.
#[local] Open Scope Z_scope.

Definition HOOK_GRANULARITY : Z := 1024.

(** [mlua::Error], as the code tells errors apart. *)
Inductive LuaError : Type := MemoryError (message : string) | OtherError (text : string).

Definition lua_text (e : LuaError) : string :=
  match e with MemoryError m => "memory error: " +:+ m | OtherError t => t end.

(** [mlua::Value], with the tables and functions of the interpreter. *)
Inductive LuaValue (F T O : Type) : Type :=
| Nil
| Function (f : F)
| Table (t : T)
| Text (s : string)
| OtherValue (o : O).
Arguments Nil {F T O}. Arguments Function {F T O}. Arguments Table {F T O}. Arguments Text {F T O}.
Arguments OtherValue {F T O}.

Class Mlua `{!Formats} := {
  Fn : Type;
  Tab : Type;
  Other : Type;
  LuaState : Type;
  lua_new : LuaState;
  globals : Tab;
  create_table : M LuaState LuaError Tab;
  table_get : Tab → string → M LuaState LuaError (LuaValue Fn Tab Other);
  table_set : Tab → string → LuaValue Fn Tab Other → M LuaState LuaError unit;
  set_memory_limit : Z → M LuaState LuaError unit;
  (** Installing the hook, and a run under it: what the hook answers to its
      [n]-th fire, and how often it fired. *)
  set_hook : M LuaState LuaError unit;
  eval : string → (Z → bool) → LuaState → LuaState * result (LuaValue Fn Tab Other) LuaError * Z;
  call : Fn → string → LuaValue Fn Tab Other → (Z → bool) → LuaState
    → LuaState * result (LuaValue Fn Tab Other) LuaError * Z;
  remove_hook : LuaState → LuaState;
  to_value : Value → M LuaState LuaError (LuaValue Fn Tab Other);
  from_value : LuaValue Fn Tab Other → LuaState → result Value LuaError;
}.

Section lua.
Context `{!Formats, !Mlua, !Blake3}.

Abbreviation LuaVal := (LuaValue Fn Tab Other).

(** [engine_err] *)
Definition engine_err (e : LuaError) : ExtensionError := Engine ("failed to prepare lua state: " +:+ lua_text e).

(** [get::<Function>], [get::<Table>] *)
Definition as_function (v : LuaVal) : result Fn LuaError :=
  match v with Function f => Ok f | _ => Err (OtherError "error converting Lua value to function") end.
Definition as_table (v : LuaVal) : result Tab LuaError :=
  match v with Table t => Ok t | _ => Err (OtherError "error converting Lua value to table") end.

Definition keep_function (os restricted : Tab) (name : string) : M LuaState LuaError unit :=
  let! v := table_get os name in
  let! function := lift (as_function v) in
  table_set restricted name (Function function).

Definition sandbox : M LuaState ExtensionError unit :=
  with_err engine_err
    (let! _ := table_set globals "io" Nil in
     let! _ := table_set globals "load" Nil in
     let! _ := table_set globals "loadfile" Nil in
     let! _ := table_set globals "dofile" Nil in
     let! v := table_get globals "os" in
     let! os := lift (as_table v) in
     let! restricted := create_table in
     let! _ := keep_function os restricted "time" in
     let! _ := keep_function os restricted "clock" in
     let! _ := table_set globals "os" (Table restricted) in
     let! v := table_get globals "package" in
     let! package := lift (as_table v) in
     let! _ := table_set package "path" (Text "") in
     let! _ := table_set package "cpath" (Text "") in
     table_set package "loadlib" Nil).

(** ** The instruction budget *)

(** [budget.div_ceil(HOOK_GRANULARITY)] *)
Definition allowed_hook_fires (budget : Z) : Z := (budget + HOOK_GRANULARITY - 1) / HOOK_GRANULARITY.

(** The hook of [arm_instruction_hook] at its [n]-th fire, from 0: whether the
    run goes on. *)
Definition hook (budget n : Z) : bool := negb (bool_decide (allowed_hook_fires budget ≤ n)).

Definition arm_instruction_hook : M LuaState ExtensionError unit :=
  with_err (λ e, Engine ("failed to arm instruction hook: " +:+ lua_text e)) set_hook.

Definition classify_script_error (e : LuaError) (fired budget : Z) : ExtensionError :=
  if decide (fired > allowed_hook_fires budget) then BudgetExceeded "lua instruction budget exceeded"
  else
    match e with
    | MemoryError message => BudgetExceeded ("lua memory budget exceeded: " +:+ message)
    | OtherError text => Script text
    end.

(** A run under the hook, which is removed when it ends. *)
Definition budgeted (budget : Z) (run : (Z → bool) → LuaState → LuaState * result LuaVal LuaError * Z)
    : M LuaState ExtensionError LuaVal :=
  let! _ := arm_instruction_hook in
  λ s,
    let '(s, r, fired) := run (hook budget) s in
    (remove_hook s, map_err (λ e, classify_script_error e fired budget) r).

(** ** States and calls *)

Definition entry_of (t : Tab) (entry : string) : M LuaState ExtensionError (option Fn) :=
  let! v := with_err engine_err (table_get t entry) in
  ret match v with Function f => Some f | _ => None end.

Definition build_state (source entry : string) (limits : EngineLimits) : M LuaState ExtensionError Fn :=
  let! _ := sandbox in
  let! _ := with_err (λ e, Engine ("failed to set lua memory limit: " +:+ lua_text e))
              (set_memory_limit (lua_max_memory_bytes limits)) in
  let! returned := budgeted (lua_instructions_per_call limits) (eval source) in
  let! global := entry_of globals entry in
  match global with
  | Some entry_fn => ret entry_fn
  | None =>
      let! member := match returned with Table module => entry_of module entry | _ => ret None end in
      match member with
      | Some entry_fn => ret entry_fn
      | None => raise (Engine ("lua chunk defines no entry function " +:+ entry +:+ " (global or returned module)"))
      end
  end.

Definition call_entry (entry_fn : Fn) (method : string) (input : Value) (budget : Z)
    : M LuaState ExtensionError bytes :=
  let! payload := with_err (λ e, InvalidPayload ("failed to bridge payload to lua: " +:+ lua_text e)) (to_value input) in
  let! output := budgeted budget (call entry_fn method payload) in
  let! json := (λ s, (s, map_err (λ e, InvalidPayload ("guest returned a non-JSON value: " +:+ lua_text e))
                           (from_value output s))) in
  lift (map_err (λ e, InvalidPayload ("failed to encode guest output: " +:+ e)) (value_json json)).

(** ** Instances *)

Record LuaInstance : Type := mkLua {
  li_state : LuaState;
  li_entry_fn : Fn;
  li_budget : Z;
  li_deadline : Z;
}.

Definition set_lua (s : LuaState) (i : LuaInstance) : LuaInstance :=
  mkLua s (li_entry_fn i) (li_budget i) (li_deadline i).

(** [late]: whether the deadline passes before the blocking thread is done. *)
Definition lua_invoke (late : LuaState → string → bytes → bool) (method : string) (payload : bytes)
    : M LuaInstance ExtensionError bytes := λ i,
  match valid_payload "request payload" payload with
  | Err e => (i, Err e)
  | Ok input =>
      let '(s, output) := call_entry (li_entry_fn i) method input (li_budget i) (li_state i) in
      (set_lua s i, if late (li_state i) method payload then Err (InvokeTimeout (li_deadline i)) else output)
  end.

Definition lua_checks (package : ExtensionPackage) : result string ExtensionError :=
  let? _ := verify_package package in
  if decide (pk_engine package ≠ Lua) then Err (wrong_engine (pk_id package) (pk_engine package) "lua")
  else if negb (is_utf8 (pk_artifact package)) then Err (Engine "lua artifact is not utf-8")
  else if existsb (λ c, bool_decide (c = "http")) (capabilities (pk_manifest package))
  then Err (Engine ("extension " +:+ pk_id package
                    +:+ " declares the http capability, which the lua engine does not support"))
  else Ok (pk_artifact package).

(** [LuaEngine::load] *)
Definition lua_load (late : LuaState → string → bytes → bool) (limits : EngineLimits) (package : ExtensionPackage)
    (settings : Value) : result LuaInstance ExtensionError :=
  let? source := lua_checks package in
  let '(s, r) := build_state source (pk_entry package) limits lua_new in
  let? entry_fn := r in
  let '(i, r) := configure_instance (lua_invoke late) settings
                   (mkLua s entry_fn (lua_instructions_per_call limits) (invoke_timeout limits)) in
  let? _ := r in
  Ok i.
End lua.

(** ** The sandbox *)

(** The contents of tables: reading, storing, and a table no value names. *)
Class MluaLaws `{!Formats, !Mlua} := {
  field : LuaState → Tab → string → LuaValue Fn Tab Other;
  table_get_law t k s : wp (table_get t k) (λ v s', v = field s t k ∧ field s' = field s) (λ _ _, True) s;
  table_set_law t k v s :
    wp (table_set t k v)
      (λ _ s', field s' t k = v ∧ ∀ t' k', (t', k') ≠ (t, k) → field s' t' k' = field s t' k')
      (λ _ _, True) s;
  create_table_law s :
    wp create_table
      (λ t s', (∀ k, field s' t k = Nil) ∧ t ≠ globals ∧ (∀ t' k, field s t' k ≠ Table t) ∧
         ∀ t' k, t' ≠ t → field s' t' k = field s t' k)
      (λ _ _, True) s;
}.

Section sandboxed.
Context `{!Formats, !Mlua, !MluaLaws}.

(** One step of [sandbox]; an error ends it. *)
Lemma wp_get {B} t k (m : _ → M LuaState LuaError B) Q s :
  (∀ s', field s' = field s → wp (m (field s t k)) Q (λ _ _, True) s') →
  wp (bind (table_get t k) m) Q (λ _ _, True) s.
Proof.
  intros Hm. rewrite wp_bind. eapply wp_mono; [apply table_get_law| |done]. cbn. intros v s' [-> Hs]. by apply Hm.
Qed.

Lemma wp_set {B} t k v (m : unit → M LuaState LuaError B) Q s :
  (∀ s', field s' t k = v → (∀ t' k', (t', k') ≠ (t, k) → field s' t' k' = field s t' k') →
     wp (m tt) Q (λ _ _, True) s') →
  wp (bind (table_set t k v) m) Q (λ _ _, True) s.
Proof.
  intros Hm. rewrite wp_bind. eapply wp_mono; [apply table_set_law| |done]. cbn. intros [] s' [H1' H2']. by apply Hm.
Qed.

Lemma wp_value {A B} (r : result A LuaError) (m : A → M LuaState LuaError B) Q s :
  (∀ a, r = Ok a → wp (m a) Q (λ _ _, True) s) → wp (bind (lift r) m) Q (λ _ _, True) s.
Proof. intros Hm. rewrite wp_bind, wp_lift. destruct r; [by apply Hm|done]. Qed.

Lemma as_table_Ok v t : as_table v = Ok t → v = Table t.
Proof. destruct v; try done. by intros [= ->]. Qed.

Lemma wp_keep_function {B} os t name (m : unit → M LuaState LuaError B) Q s :
  (∀ s', (∀ t' k', (t', k') ≠ (t, name) → field s' t' k' = field s t' k') → wp (m tt) Q (λ _ _, True) s') →
  wp (bind (keep_function os t name) m) Q (λ _ _, True) s.
Proof.
  intros Hm. unfold keep_function. rewrite wp_bind. apply wp_get. intros s1 H1'. apply wp_value. intros f _.
  eapply wp_mono; [apply table_set_law| |done]. cbn. intros [] s2 [_ H2']. apply Hm. intros t' k' Hk.
  by rewrite H2', H1'.
Qed.

Lemma wp_create {B} (m : Tab → M LuaState LuaError B) Q s :
  (∀ t s', (∀ k, field s' t k = Nil) → t ≠ globals → (∀ t' k, field s t' k ≠ Table t) →
     (∀ t' k, t' ≠ t → field s' t' k = field s t' k) → wp (m t) Q (λ _ _, True) s') →
  wp (bind create_table m) Q (λ _ _, True) s.
Proof.
  intros Hm. rewrite wp_bind. eapply wp_mono; [apply create_table_law| |done]. cbn.
  intros t s' (H1' & H2' & H3' & H4'). by apply Hm.
Qed.

(** What a script can reach of the host. *)
Record stripped (s : LuaState) : Prop := {
  st_loaders name : name ∈ ["io"; "load"; "loadfile"; "dofile"] → field s globals name = Nil;
  st_os : ∃ os, field s globals "os" = Table os ∧ ∀ name, name ∉ ["time"; "clock"] → field s os name = Nil;
  st_package : ∃ package, field s globals "package" = Table package ∧
    field s package "path" = Text "" ∧ field s package "cpath" = Text "" ∧ field s package "loadlib" = Nil;
}.

(** Follow a field back through the steps that left it alone. *)
Ltac chase :=
  repeat match goal with
         | H : ∀ t' k', (t', k') ≠ _ → field ?s t' k' = _ |- context [field ?s ?t ?k] =>
             rewrite (H t k) by (intros [=]; congruence)
         | H : ∀ k, field ?s ?t k = Nil |- context [field ?s ?t ?k] => rewrite (H k)
         | H : ∀ t' k, t' ≠ _ → field ?s t' k = _ |- context [field ?s ?t ?k] => rewrite (H t k) by congruence
         | H : field ?s = field _ |- context [field ?s] => rewrite H
         | H : field ?s ?t ?k = _ |- context [field ?s ?t ?k] => rewrite H
         end.

Lemma wp_sandbox s : wp sandbox (λ _, stripped) (λ _ _, True) s.
Proof.
  unfold sandbox. rewrite wp_with_err.
  do 4 (apply wp_set; intros ? ? ?). apply wp_get. intros ? ?. apply wp_value. intros os _.
  apply wp_create. intros restricted ? ? ? Hfresh ?. do 2 (apply wp_keep_function; intros ? ?).
  apply wp_set. intros ? ? ?. apply wp_get. intros ? ?. apply wp_value. intros package Hp%as_table_Ok.
  assert (package ≠ restricted) as Hne.
  { intros ->. specialize (Hfresh globals "package"). revert Hfresh Hp. chase. by intros. }
  do 2 (apply wp_set; intros ? ? ?). eapply wp_mono; [apply table_set_law| |done]. cbn. intros [] s2 [? ?]. split.
  - intros name Hn. do 4 (apply elem_of_cons in Hn as [->|Hn]; [by chase|]). by apply not_elem_of_nil in Hn.
  - exists restricted. split; [chase; reflexivity|]. intros name Hn. apply not_elem_of_cons in Hn as [? Hn].
    apply not_elem_of_cons in Hn as [? _]. chase. reflexivity.
  - exists package. split_and!; [revert Hp|..]; chase; done.
Qed.
End sandboxed.


(** ** A concrete interpreter

    Tables in a heap, the globals at address 0, [os] and [package] at 1 and 2. A
    chunk defines its text as the entry function, which answers its payload. *)

Abbreviation ToyLuaValue := (LuaValue string nat ToyValue).
Abbreviation ToyHeap := (gmap (nat * string) ToyLuaValue).

Definition toy_field (h : ToyHeap) (t : nat) (k : string) : ToyLuaValue := default Nil (h !! (t, k)).

(** The addresses in use. *)
Definition toy_used (h : ToyHeap) : list nat :=
  0%nat :: (map_to_list h ≫= λ kv, kv.1.1 :: match kv.2 with Table t => [t] | _ => [] end).

Definition toy_initial : ToyHeap :=
  list_to_map [((0%nat, "os"), Table 1%nat); ((0%nat, "package"), Table 2%nat); ((0%nat, "io"), Function "io");
               ((0%nat, "load"), Function "load"); ((0%nat, "print"), Function "print");
               ((1%nat, "time"), Function "time"); ((1%nat, "clock"), Function "clock");
               ((1%nat, "exit"), Function "exit"); ((2%nat, "path"), Text "?.lua");
               ((2%nat, "loadlib"), Function "loadlib")].

Definition toy_mlua : @Mlua toy_formats := {|
  Fn := string; Tab := nat; Other := ToyValue; LuaState := ToyHeap;
  lua_new := toy_initial; globals := 0%nat;
  create_table := λ s, (s, Ok (infinite_fresh (toy_used s)));
  table_get := λ t k s, (s, Ok (toy_field s t k));
  table_set := λ t k v s, (<[(t, k) := v]> s, Ok tt);
  set_memory_limit := λ _ s, (s, Ok tt); set_hook := λ s, (s, Ok tt);
  eval := λ source _ s, (<[(0%nat, "invoke") := Function source]> s, Ok Nil, 0);
  call := λ _ _ payload _ s, (s, Ok payload, 0);
  remove_hook := λ s, s;
  to_value := λ (v : @Value toy_formats) s, (s, Ok (@OtherValue string nat ToyValue v));
  from_value := λ (v : ToyLuaValue) _,
    match v with OtherValue v => Ok v | Text s => Ok (toy_text s) | _ => Err (OtherError "value") end;
|}.

Lemma toy_used_named (h : ToyHeap) t t' k : toy_field h t' k = Table t → t ∈ toy_used h.
Proof.
  unfold toy_field. destruct (h !! (t', k)) as [v|] eqn:Hv; cbn; [|done]. intros ->.
  right. apply list_elem_of_bind. exists ((t', k), Table t). split; [by right; left|]. by apply elem_of_map_to_list.
Qed.

Lemma toy_used_at (h : ToyHeap) t k : toy_field h t k ≠ Nil → t ∈ toy_used h.
Proof.
  unfold toy_field. destruct (h !! (t, k)) as [v|] eqn:Hv; cbn; [|done]. intros _.
  right. apply list_elem_of_bind. exists ((t, k), v). split; [by left|]. by apply elem_of_map_to_list.
Qed.

#[export] Instance toy_mlua_laws : @MluaLaws toy_formats toy_mlua.
Proof.
  refine (@Build_MluaLaws toy_formats toy_mlua toy_field _ _ _).
  - by intros t k s.
  - intros t k v s. unfold wp; cbn. unfold toy_field. rewrite lookup_insert_eq. split; [done|].
    intros t' k' Hne. by rewrite lookup_insert_ne by congruence.
  - intros s. unfold wp; cbn. pose proof (infinite_is_fresh (toy_used s)) as Hf. split_and!.
    + intros k. destruct (toy_field s (infinite_fresh (toy_used s)) k) eqn:E; [done|..];
        destruct Hf; apply (toy_used_at _ _ k); intros He; discriminate (eq_trans (eq_sym E) He).
    + intros He. apply Hf. change (fresh (toy_used s)) with (infinite_fresh (toy_used s)). cbn in He. rewrite He. by left.
    + intros t' k Ht. destruct Hf. by eapply toy_used_named.
    + done.
Qed.

Lemma toy_sandboxed : is_ok (@sandbox toy_formats toy_mlua toy_initial).2 = true.
Proof. vm_compute. reflexivity. Qed.

