(* ===== verification/Engines.v ===== *)
(** * The engines of a node ([crates/daemon/src/extension/mod.rs], [crates/extension/src/engine.rs])

    What the extension manager asks of an engine, as an interface, and the two
    engines behind it. A loaded instance is shared ([Arc]): it is a handle into
    the instances the node has loaded, whose guests keep their state between
    invocations. *)

From S2P Require Import Prelude.
From S2P Require Import Effects.
From S2P Require Import Tables.
From S2P Require Import Resources.
From S2P Require Import Manifest.
From S2P Require Import Http.
From S2P Require Import Engine.
From S2P Require Import Wasm.
From S2P Require Import Lua.

#[local] Open Scope string_scope.
#[local] Open Scope Z_scope.

(** The traits [ExtensionEngine] and [ExtensionInstance], over the state [W] the
    instances run in. *)
Class Engines `{!Formats} (W I : Type) := {
  engine_load : EngineKind → ExtensionPackage → Value → M W ExtensionError I;
  instance_invoke : I → string → bytes → M W ExtensionError bytes;
}.

(** ** Configuration *)

Record ExtensionsConfig : Type := mkConfig {
  cfg_wasm_fuel_per_call : Z;
  cfg_wasm_max_memory_bytes : Z;
  cfg_lua_instructions_per_call : Z;
  cfg_lua_max_memory_bytes : Z;
  cfg_invoke_timeout_ms : Z;
  cfg_local : gmap string (gmap string string);
}.

(** [engine_limits], on a machine whose [usize] has 64 bits. *)
Definition usize_or_max (n : Z) : Z := if decide (n ≤ u64_max) then n else u64_max.

Definition engine_limits (config : ExtensionsConfig) : EngineLimits :=
  mkLimits (cfg_wasm_fuel_per_call config) (usize_or_max (cfg_wasm_max_memory_bytes config))
    (cfg_lua_instructions_per_call config) (usize_or_max (cfg_lua_max_memory_bytes config))
    (cfg_invoke_timeout_ms config).

(** ** Both engines *)

Section engines.
Context `{!Formats, !Reqwest, !Wasmtime, !Mlua, !Blake3}.

Inductive Instance_ : Type := WasmI (i : WasmInstance) | LuaI (i : LuaInstance).

Record EngineWorld : Type := mkWorld { world_host : Host; instances : list Instance_ }.

Definition set_host (h : Host) (w : EngineWorld) : EngineWorld := mkWorld h (instances w).

(** Keep a loaded instance; its handle. *)
Definition keep (i : Instance_) (w : EngineWorld) : EngineWorld * nat :=
  (mkWorld (world_host w) (instances w ++ [i])%list, length (instances w)).

Definition store_instance (n : nat) (i : Instance_) (w : EngineWorld) : EngineWorld :=
  mkWorld (world_host w) (<[n := i]> (instances w)).

Context (net : Internet) (depth : nat) (late : LuaState → string → bytes → bool) (limits : EngineLimits).

Definition load_wasm (package : ExtensionPackage) (settings : Value) : M EngineWorld ExtensionError nat := λ w,
  match load_instance net depth limits package settings (world_host w) with
  | (h, Ok i) => let '(w, n) := keep (WasmI i) (set_host h w) in (w, Ok n)
  | (h, Err e) => (set_host h w, Err e)
  end.

Definition load_lua (package : ExtensionPackage) (settings : Value) : M EngineWorld ExtensionError nat := λ w,
  match lua_load late limits package settings with
  | Ok i => let '(w, n) := keep (LuaI i) w in (w, Ok n)
  | Err e => (w, Err e)
  end.

(** A handle a load returned is never dangling. *)
Definition invoke_handle (n : nat) (method : string) (payload : bytes) : M EngineWorld ExtensionError bytes := λ w,
  match instances w !! n with
  | Some (WasmI i) =>
      let '((i, h), r) := wasm_invoke net depth method payload (i, world_host w) in
      (store_instance n (WasmI i) (set_host h w), r)
  | Some (LuaI i) =>
      let '(i, r) := lua_invoke late method payload i in (store_instance n (LuaI i) w, r)
  | None => (w, Err (Engine "no instance"))
  end.

Definition node_engines : Engines EngineWorld nat := {|
  engine_load := λ kind, match kind with Manifest.Wasm => load_wasm | Manifest.Lua => load_lua end;
  instance_invoke := invoke_handle;
|}.
End engines.
