(* ===== verification/Extensions.v ===== *)
(** * Extensions of a node
    ([crates/daemon/src/extension/], [rpc/extension.rs], [overlay_transport.rs])

    The manager that loads the extensions a node's labels select, announces them
    in the node's register, and runs a call here or forwards it one hop; the
    registration of packages; the dispatch of hooks; what a peer's request and
    the RPC shell make of them. The engines are reached through their interface
    [Engines]. The clock ([now]), the outcome of a write to the meta table
    ([disk]) and the peers the overlay proposes ([targets]) are arguments; the
    transport of a forwarded call ([rpc]) acts on a state that holds the
    manager's. The bookkeeping of peers ([mark_seen], [mark_failed]) does nothing
    on the overlay transport. *)

From S2P Require Import Prelude.
From S2P Require Import Effects.
From S2P Require Import Versioned.
From S2P Require Import Tables.
From S2P Require Import NodeStores.
From S2P Require Import ContentStores.
From S2P Require Import Resources.
From S2P Require Import Register.
From S2P Require Import Membership.
From S2P Require Import Merkle.
From S2P Require Import Swim.
From S2P Require Import Service.
From S2P Require Import Identity.
From S2P Require Import NodeProtocol.
From S2P Require Import Cluster.
From S2P Require Import Manifest.
From S2P Require Import Engine.
From S2P Require Import Engines.
From S2P Require Import Grpc.

#[local] Open Scope string_scope.
#[local] Open Scope Z_scope.

(** ** Errors *)

Inductive ExtensionManagerError : Type :=
| NotRunning (id : string)
| NotServed (id : string)
| AlreadyForwarded (id : string)
| AllFailed (id : string) (candidates : nat) (message : string)
| Forwarded (error : ClientError)
| MissingArtifact (id : string)
| FromEngine (error : ExtensionError)
| FromStorage (error : ExtensionStorageError).

Inductive RegisterExtensionError : Type :=
| InvalidId (id : string)
| InvalidManifest (error : ExtensionError)
| EmptyArtifact
| VersionNotIncreasing (id : string) (current received : Z)
| RegisterStorage (error : ExtensionStorageError).

(** How errors render. *)
Class ManagerTexts := {
  manager_text : ExtensionManagerError → string;
  register_text : RegisterExtensionError → string;
}.

(** ** Requests *)

Record ExtensionRegistration : Type := mkRegistration {
  rg_id : string;
  rg_name : string;
  rg_version : Z;
  rg_engine : string;
  rg_entry : string;
  rg_artifact : bytes;
  rg_manifest : gmap string string;
  rg_labels : gmap string string;
}.

Record ExtensionInvokeRequest : Type := mkInvoke {
  iq_extension_id : string;
  iq_method : string;
  iq_payload : bytes;
  iq_origin_node_id : string;
}.

(** [InvokeOutcome], and [ExtensionInvokeResponse]. *)
Record InvokeOutcome : Type := mkOutcome { outcome_payload : bytes; executed_by : string }.

(** [ExtensionForwardResponse.result]; [None] when absent. *)
Abbreviation ExtensionForwardResponse := (option (result InvokeOutcome string)).

Section settings.
Context `{!Formats}.

(** Overlay the node's own table key by key. *)
Definition merge_settings (manifest_settings : string) (local : option (gmap string string))
    : result Value ExtensionManagerError :=
  let? parsed := map_err (λ err, FromEngine (InvalidPayload ("manifest settings are not valid JSON: " +:+ err)))
                   (value_from manifest_settings) in
  match as_object parsed, local with
  | None, None => Ok parsed
  | Some resolved, None => Ok (object resolved)
  | None, Some local => Ok (object (text <$> local))
  | Some resolved, Some local => Ok (object ((text <$> local) ∪ resolved))
  end.
End settings.

Section extensions.
Context `{!HashIter, !MerkleShape} `{!Redb, !Postcard ExtensionRecord, !Postcard string} `{!Blake3} `{!Hex}.
Context `{!Formats} {W I : Type} `{!Engines W I} `{!ManagerTexts}.

(** ** The manager *)

Record LoadedExtension : Type := mkLoaded { ld_version : Z; ld_semver : string; ld_instance : I }.

(** What the manager reaches: its instances, the world the engines run in, the
    node's storage, the membership service, and the permit of its [Notify]. *)
Record ExtensionManager : Type := mkManager {
  em_instances : gmap string LoadedExtension;
  em_world : W;
  em_storage : Store Database;
  em_membership : MembershipService;
  em_notified : bool;
}.

Definition set_instances (l : gmap string LoadedExtension) (self : ExtensionManager) : ExtensionManager :=
  mkManager l (em_world self) (em_storage self) (em_membership self) (em_notified self).
Definition set_world (w : W) (self : ExtensionManager) : ExtensionManager :=
  mkManager (em_instances self) w (em_storage self) (em_membership self) (em_notified self).
Definition set_storage (s : Store Database) (self : ExtensionManager) : ExtensionManager :=
  mkManager (em_instances self) (em_world self) s (em_membership self) (em_notified self).
Definition set_membership_service (m : MembershipService) (self : ExtensionManager) : ExtensionManager :=
  mkManager (em_instances self) (em_world self) (em_storage self) m (em_notified self).
Definition notify_one (self : ExtensionManager) : ExtensionManager :=
  mkManager (em_instances self) (em_world self) (em_storage self) (em_membership self) true.

Definition in_world {E A} (m : M W E A) : M ExtensionManager E A := zoom em_world set_world m.
Definition in_storage {E A} (m : M (Store Database) E A) : M ExtensionManager E A := zoom em_storage set_storage m.

Definition local_node_id (self : ExtensionManager) : string := svc_node_id (em_membership self).

(** The data directory, and the [\[extensions.local\]] tables of the
    configuration. *)
Context (data_dir : string) (local : gmap string (gmap string string)).

(** ** Reconciling *)

Definition load (record : ExtensionRecord) (manifest : ExtensionManifest)
    : M ExtensionManager ExtensionManagerError LoadedExtension :=
  let! engine_kind := lift (map_err FromEngine (engine_from_str (ex_engine record))) in
  let! artifact := with_err FromStorage (in_storage (in_fs (blob_read (blobs_dir data_dir) (ex_id record)))) in
  let! artifact := lift (ok_or artifact (MissingArtifact (ex_id record))) in
  let package := mkPackage (ex_id record) (ex_name record) (ex_version record) engine_kind
                   (or_default_entry (ex_entry record)) manifest artifact (ex_content_hash record) in
  let! settings := lift (merge_settings (settings manifest) (local !! ex_id record)) in
  let! instance := with_err FromEngine (in_world (engine_load engine_kind package settings)) in
  ret (mkLoaded (ex_version record) (semver_text (semver manifest)) instance).

(** One record of the loop. *)
Definition reconcile_record (labels : gmap string string) (self : ExtensionManager) (record : ExtensionRecord)
    : ExtensionManager :=
  match from_map (ex_manifest record) with
  | Err _ => self
  | Ok manifest =>
      if negb (matches_selector labels (selector manifest))
      then set_instances (delete (ex_id record) (em_instances self)) self
      else if match em_instances self !! ex_id record with
              | Some loaded => bool_decide (ld_version loaded = ex_version record)
              | None => false
              end
      then self
      else
        match load record manifest self with
        | (self, Ok loaded) => set_instances (<[ex_id record := loaded]> (em_instances self)) self
        | (self, Err _) => self
        end
  end.

(** [instances.retain] *)
Definition retain (records : list ExtensionRecord) (self : ExtensionManager) : ExtensionManager :=
  set_instances (filter (λ il, il.1 ∈ ex_id <$> records) (em_instances self)) self.

(** The capability annotations of the running set. *)
Definition capability (id : string) : string := EXTENSION_ANNOTATION_PREFIX +:+ id.

Definition announced (self : ExtensionManager) : gmap string string :=
  list_to_map ((λ il, (capability il.1, ld_semver il.2)) <$> map_to_list (em_instances self)).

Definition announce (now : Z) (disk : bool) (self : ExtensionManager) : ExtensionManager * list SwimAction :=
  let '(membership, actions) := update_local_annotations (em_membership self) (announced self) now disk in
  (set_membership_service membership self, actions).

(** [reconcile]; the actions it dispatches. *)
Definition reconcile (now : Z) (disk : bool) (self : ExtensionManager) : ExtensionManager * list SwimAction :=
  match in_storage ext_list self with
  | (self, Err _) => (self, [])
  | (self, Ok records) =>
      match in_storage (in_db NodeStores.labels) self with
      | (self, Err _) => (self, [])
      | (self, Ok labels) => announce now disk (retain records (foldl (reconcile_record labels) self records))
      end
  end.

(** ** Registration *)

Definition registered (registration : ExtensionRegistration) (engine : EngineKind) (content_hash source : string)
    (existing : option ExtensionRecord) (now : Z) : ExtensionRecord :=
  mkExtension (rg_id registration) (rg_name registration) (rg_version registration) (engine_str engine)
    (or_default_entry (rg_entry registration)) content_hash ClusterShared (Some source)
    (match existing with Some record => ex_created_at_ms record | None => now end) now
    (rg_manifest registration) (rg_labels registration).

(** What is checked before the storage is looked at. *)
Definition validated (registration : ExtensionRegistration) : result EngineKind RegisterExtensionError :=
  let? _ := map_err (λ _, InvalidId (rg_id registration)) (validate (rg_id registration)) in
  let? engine := map_err InvalidManifest (engine_from_str (rg_engine registration)) in
  let? _ := map_err InvalidManifest (from_map (rg_manifest registration)) in
  if decide (rg_artifact registration = "") then Err EmptyArtifact else Ok engine.

Definition stored_extension (id : string) : M ExtensionManager RegisterExtensionError (option ExtensionRecord) :=
  with_err RegisterStorage (in_storage (ext_get id)).

(** The version has to increase over the stored one. *)
Definition increasing (registration : ExtensionRegistration) (existing : option ExtensionRecord)
    : result unit RegisterExtensionError :=
  match existing with
  | Some record =>
      if decide (rg_version registration ≤ ex_version record)
      then Err (VersionNotIncreasing (rg_id registration) (ex_version record) (rg_version registration))
      else Ok tt
  | None => Ok tt
  end.

(** [ExtensionManager::register] *)
Definition register_extension (registration : ExtensionRegistration) (now : Z)
    : M ExtensionManager RegisterExtensionError string :=
  let! engine := lift (validated registration) in
  let content_hash := hash_content (rg_artifact registration) in
  let! existing := stored_extension (rg_id registration) in
  let! _ := lift (increasing registration existing) in
  let! applied := λ self,
    with_err RegisterStorage
      (in_storage (apply_remote_extension data_dir
                     (registered registration engine content_hash (local_node_id self) existing now)
                     (rg_artifact registration))) self in
  if (applied : bool) then λ self, (notify_one self, Ok content_hash)
  else
    let! current := stored_extension (rg_id registration) in
    raise (VersionNotIncreasing (rg_id registration)
             (match current with Some record => ex_version record | None => rg_version registration end)
             (rg_version registration)).

(** ** Invocations *)

Definition invoke_local (id method : string) (payload : bytes) : M ExtensionManager ExtensionManagerError bytes := λ self,
  match em_instances self !! id with
  | None => (self, Err (NotRunning id))
  | Some loaded => with_err FromEngine (in_world (instance_invoke (ld_instance loaded) method payload)) self
  end.

(** The members that advertise [id], and among them the peers the overlay
    proposes, in its order; [None] when no pool is wired. *)
Definition advertisers (id : string) (self : ExtensionManager) : list string :=
  node_id <$> filter (λ r, node_id r ≠ local_node_id self ∧ is_Some (annotations r !! capability id))
                (list_nodes (em_membership self) ∅).

Definition order_candidates (targets candidates : list string) : list string :=
  filter (λ peer, peer ∈ candidates) targets.

Definition route_candidates (targets : option (list string)) (id : string) (self : ExtensionManager) : list string :=
  match targets with
  | Some targets => order_candidates targets (advertisers id self)
  | None => advertisers id self
  end.

Section invoke.
(** The manager's state within the state a remote call acts on. *)
Context {T : Type} (manager : T → ExtensionManager) (set_manager : ExtensionManager → T → T).
Context (rpc : string → ExtensionInvokeRequest → M T ClientError InvokeOutcome).

Definition forward (peer id method : string) (payload : bytes) (local_id : string)
    : M T ExtensionManagerError InvokeOutcome :=
  with_err Forwarded
    (let! _ := lift (connect peer) in
     rpc peer (mkInvoke id method payload local_id)).

(** The candidates in turn, until one answers. *)
Fixpoint try_candidates (id method : string) (payload : bytes) (local_id : string) (total : nat)
    (last_error : option ExtensionManagerError) (candidates : list string)
    : M T ExtensionManagerError InvokeOutcome :=
  match candidates with
  | [] => raise (AllFailed id total (match last_error with Some e => manager_text e | None => "" end))
  | peer :: candidates =>
      try_or (forward peer id method payload local_id)
        (λ error, try_candidates id method payload local_id total (Some error) candidates)
  end.

Definition route (targets : option (list string)) (id method : string) (payload : bytes) (origin : option string)
    : M T ExtensionManagerError InvokeOutcome := λ t,
  let self := manager t in
  match origin with
  | Some _ => (t, Err (AlreadyForwarded id))
  | None =>
      let candidates := route_candidates targets id self in
      if decide (candidates = []) then (t, Err (NotServed id))
      else
        match targets with
        | None => (t, Err (AllFailed id (length candidates) "peer pool is not configured on this node"))
        | Some _ => try_candidates id method payload (local_node_id self) (length candidates) None candidates t
        end
  end.

(** [ExtensionManager::invoke] *)
Definition invoke (targets : option (list string)) (id method : string) (payload : bytes) (origin : option string)
    : M T ExtensionManagerError InvokeOutcome := λ t,
  let self := manager t in
  match em_instances self !! id with
  | Some _ =>
      let '(t, r) := zoom manager set_manager (invoke_local id method payload) t in
      match r with
      | Ok payload => (t, Ok (mkOutcome payload (local_node_id self)))
      | Err (NotRunning _) => route targets id method payload origin t
      | Err error => (t, Err error)
      end
  | None => route targets id method payload origin t
  end.

(** ** A peer's request *)

(** [OverlayExtensionRequestHandler::handle] *)
Definition handle_forwarded (targets : option (list string)) (request : ExtensionInvokeRequest) (t : T)
    : T * ExtensionForwardResponse :=
  if decide (iq_extension_id request = "" ∨ iq_method request = "")
  then (t, Some (Err "extension id and method must not be empty"))
  else
    match value_from (iq_payload request) with
    | Err error => (t, Some (Err ("payload is not valid JSON: " +:+ error)))
    | Ok _ =>
        if decide (iq_origin_node_id request = "")
        then (t, Some (Err "forwarded extension request must carry an origin node id"))
        else
          let '(t, r) := invoke targets (iq_extension_id request) (iq_method request) (iq_payload request)
                           (Some (iq_origin_node_id request)) t in
          (t, Some (map_err manager_text r))
    end.

(** ** Hooks *)

Record HookOutcome : Type := mkHookOutcome { ho_id : string; ho_result : result bytes ExtensionManagerError }.

Record Subscriber : Type := mkSubscriber { sb_id : string; sb_on_error : HookErrorPolicy }.

Definition subscription (point : string) (record : ExtensionRecord) : option Subscriber :=
  match from_map (ex_manifest record) with
  | Err _ => None
  | Ok manifest =>
      hook ← find (λ hook, bool_decide (Manifest.point hook = point)) (hooks manifest);
      Some (mkSubscriber (ex_id record) (on_error hook))
  end.

Definition subscribers (point : string) (t : T) : T * list Subscriber :=
  match zoom manager set_manager (in_storage ext_list) t with
  | (t, Err _) => (t, [])
  | (t, Ok records) => (t, sort_by_key sb_id (omap (subscription point) records))
  end.

Fixpoint dispatch_to (targets : option (list string)) (point : string) (payload : bytes) (l : list Subscriber) (t : T)
    : T * list HookOutcome :=
  match l with
  | [] => (t, [])
  | subscriber :: l =>
      let '(t, r) := invoke targets (sb_id subscriber) point payload None t in
      let result := match r with Ok outcome => Ok (outcome_payload outcome) | Err e => Err e end in
      let outcome := mkHookOutcome (sb_id subscriber) result in
      if negb (is_ok result) && bool_decide (sb_on_error subscriber = Abort) then (t, [outcome])
      else let '(t, outcomes) := dispatch_to targets point payload l t in (t, outcome :: outcomes)
  end.

(** [HookDispatcher::dispatch] *)
Definition dispatch (targets : option (list string)) (point : string) (context : Value) (t : T)
    : T * list HookOutcome :=
  match value_json context with
  | Err _ => (t, [])
  | Ok payload => let '(t, l) := subscribers point t in dispatch_to targets point payload l t
  end.
End invoke.
End extensions.

(** ** The RPC shell *)

Section rpc_shell.
Context `{!ManagerTexts}.

(** [From<ExtensionManagerError> for Status] *)
Definition manager_code (error : ExtensionManagerError) : Code :=
  match error with
  | NotRunning _ | NotServed _ => NotFound
  | AlreadyForwarded _ => FailedPrecondition
  | FromEngine (InvalidPayload _) => InvalidArgument
  | FromEngine (InvokeTimeout _) => DeadlineExceeded
  | AllFailed _ _ _ | Forwarded _ => UnavailableCode
  | FromEngine _ | MissingArtifact _ | FromStorage _ => Internal
  end.

Definition manager_status (error : ExtensionManagerError) : Status := mkStatus (manager_code error) (manager_text error).

(** [From<RegisterExtensionError> for Status] *)
Definition register_code (error : RegisterExtensionError) : Code :=
  match error with
  | InvalidId _ | InvalidManifest _ | EmptyArtifact => InvalidArgument
  | VersionNotIncreasing _ _ _ => FailedPrecondition
  | RegisterStorage _ => Internal
  end.

Definition register_status (error : RegisterExtensionError) : Status :=
  mkStatus (register_code error) (register_text error).

Record RegisterExtensionResponse : Type := mkRegistered { accepted : bool; reason : string; response_hash : string }.

(** What [register_extension] answers for an outcome of the manager. *)
Definition register_response (r : result string RegisterExtensionError) : result RegisterExtensionResponse Status :=
  match r with
  | Ok content_hash => Ok (mkRegistered true "" content_hash)
  | Err ((InvalidId _ | InvalidManifest _ | EmptyArtifact) as error) =>
      Ok (mkRegistered false (register_text error) "")
  | Err error => Err (register_status error)
  end.

(** The client's view of a forwarded call's answer. *)
Definition extension_result (response : ExtensionForwardResponse) : result InvokeOutcome ClientError :=
  match response with
  | Some (Ok response) => Ok response
  | Some (Err reason) => Err (PeerRejected "extension invoke" reason)
  | None => Err (Unavailable "empty extension response")
  end.
End rpc_shell.

Section service.
Context `{!HashIter, !MerkleShape} `{!Redb, !Postcard ExtensionRecord, !Postcard string} `{!Blake3} `{!Hex}.
Context `{!Formats} {W I : Type} `{!Engines W I} `{!ManagerTexts} (data_dir : string).
Context {T : Type} (manager : T → ExtensionManager (W:=W) (I:=I)) (set_manager : ExtensionManager (W:=W) (I:=I) → T → T).
Context (rpc : string → ExtensionInvokeRequest → M T ClientError InvokeOutcome).

(** [ExtensionService::invoke] *)
Definition rpc_invoke (targets : option (list string)) (request : ExtensionInvokeRequest)
    : M T Status InvokeOutcome := λ t,
  if decide (iq_extension_id request = "") then (t, Err (mkStatus InvalidArgument "extension id must not be empty"))
  else if decide (iq_method request = "") then (t, Err (mkStatus InvalidArgument "method must not be empty"))
  else
    match value_from (iq_payload request) with
    | Err error => (t, Err (mkStatus InvalidArgument ("payload is not valid JSON: " +:+ error)))
    | Ok _ =>
        let origin := if decide (iq_origin_node_id request = "") then None else Some (iq_origin_node_id request) in
        with_err manager_status
          (invoke manager set_manager rpc targets (iq_extension_id request) (iq_method request)
             (iq_payload request) origin) t
    end.

(** [ExtensionService::register_extension] *)
Definition rpc_register (registration : ExtensionRegistration) (now : Z)
    : M (ExtensionManager (W:=W) (I:=I)) Status RegisterExtensionResponse := λ self,
  let '(self, r) := register_extension data_dir registration now self in (self, register_response r).
End service.
