(* ===== verification/ExtensionTheorems.v ===== *)
(** * What extensions guarantee

    How a call finds its extension and where it ends, what a reconciliation
    leaves running and announced, what a registration stores, in which order
    hooks run. *)

From S2P Require Import Prelude.
From S2P Require Import Effects.
From S2P Require Import Versioned.
From S2P Require Import Tables.
From S2P Require Import NodeStores.
From S2P Require Import ContentStores.
From S2P Require Import Pipeline.
From S2P Require Import Resources.
From S2P Require Import ResourceTheorems.
From S2P Require Import Register.
From S2P Require Import Membership.
From S2P Require Import Merkle.
From S2P Require Import MerkleDiff.
From S2P Require Import Swim.
From S2P Require Import Service.
From S2P Require Import Identity.
From S2P Require Import NodeProtocol.
From S2P Require Import Cluster.
From S2P Require Import Manifest.
From S2P Require Import Engine.
From S2P Require Import Engines.
From S2P Require Import Extensions.

#[local] Open Scope string_scope.
#[local] Open Scope Z_scope.

(** ** Calls across a cluster *)

(** What the overlay makes of a request to a peer. *)
Inductive Fate : Type :=
| Reached
| RequestLost (e : ClientError)
| AnswerLost (e : ClientError).

Section calls.
Context `{!HashIter, !Redb} `{!Hex} `{!Formats} {W I : Type} `{!Engines W I} `{!ManagerTexts}.

Abbreviation Manager := (ExtensionManager (W:=W) (I:=I)).
Abbreviation Nodes := (gmap string Manager).

Section cluster.
(** The state of a node that does not exist, the peers each node's overlay
    proposes, and what becomes of each request. *)
Context (absent : Manager) (targets : string → option (list string)).
Context (fate : Nodes → string → ExtensionInvokeRequest → Fate).

Definition manager_at (n : string) (nodes : Nodes) : Manager := default absent (nodes !! n).
Definition put_manager (n : string) (m : Manager) (nodes : Nodes) : Nodes := <[n := m]> nodes.

(** A request served by the peer it reaches; what the peer forwards in turn is
    served with one hop less. *)
Fixpoint cluster_rpc (hops : nat) (peer : string) (request : ExtensionInvokeRequest)
    : M Nodes ClientError InvokeOutcome := λ nodes,
  match hops with
  | O => (nodes, Err (Unavailable "out of hops"))
  | S hops =>
      match fate nodes peer request with
      | RequestLost e => (nodes, Err e)
      | Reached =>
          let '(nodes, answer) :=
            handle_forwarded (manager_at peer) (put_manager peer) (cluster_rpc hops) (targets peer) request nodes in
          (nodes, extension_result answer)
      | AnswerLost e =>
          ((handle_forwarded (manager_at peer) (put_manager peer) (cluster_rpc hops) (targets peer) request nodes).1,
           Err e)
      end
  end.

Definition call_extension (hops : nat) (node id method : string) (payload : bytes)
    : M Nodes ExtensionManagerError InvokeOutcome :=
  invoke (manager_at node) (put_manager node) (cluster_rpc hops) (targets node) id method payload None.
End cluster.

(** A call that was forwarded uses no transport. *)
Lemma invoke_forwarded {T} (manager : T → Manager) set_manager rpc rpc' targets id method payload origin t :
  invoke manager set_manager rpc targets id method payload (Some origin) t =
    invoke manager set_manager rpc' targets id method payload (Some origin) t.
Proof.
  unfold invoke, route. destruct (em_instances (manager t) !! id); [|done].
  by destruct (zoom _ _ _ _) as [t' [|[]]].
Qed.

Lemma handle_one_hop {T} (manager : T → Manager) set_manager rpc rpc' targets request t :
  handle_forwarded manager set_manager rpc targets request t =
    handle_forwarded manager set_manager rpc' targets request t.
Proof.
  unfold handle_forwarded. case_decide; [done|]. destruct (value_from _); [|done]. case_decide; [done|].
  by rewrite (invoke_forwarded _ _ rpc rpc').
Qed.

Lemma cluster_rpc_one_hop absent targets fate hops peer request nodes :
  cluster_rpc absent targets fate (S hops) peer request nodes =
    cluster_rpc absent targets fate 1 peer request nodes.
Proof. cbn. by rewrite (handle_one_hop _ _ (cluster_rpc absent targets fate hops) (cluster_rpc absent targets fate 0)). Qed.

(** Candidates are tried with the transport at hand, one after the other. *)
Lemma try_candidates_ext {T} (rpc rpc' : string → ExtensionInvokeRequest → M T ClientError InvokeOutcome)
    id method payload local_id total last candidates t :
  (∀ peer request t, rpc peer request t = rpc' peer request t) →
  try_candidates rpc id method payload local_id total last candidates t =
    try_candidates rpc' id method payload local_id total last candidates t.
Proof.
  intros Hr. revert last t. induction candidates as [|peer l IH]; intros last t; [done|].
  cbn. unfold try_or.
  assert (forward rpc peer id method payload local_id t = forward rpc' peer id method payload local_id t) as ->.
  { unfold forward, with_err, bind, lift. destruct (connect peer); [|done]. by rewrite Hr. }
  destruct (forward _ _ _ _ _ _ t) as [t' [|e]]; [done|]. apply IH.
Qed.

Lemma invoke_ext {T} (manager : T → Manager) set_manager
    (rpc rpc' : string → ExtensionInvokeRequest → M T ClientError InvokeOutcome) targets id method payload origin t :
  (∀ peer request t, rpc peer request t = rpc' peer request t) →
  invoke manager set_manager rpc targets id method payload origin t =
    invoke manager set_manager rpc' targets id method payload origin t.
Proof.
  intros Hr. assert (∀ t, route manager rpc targets id method payload origin t =
    route manager rpc' targets id method payload origin t) as Hroute.
  { intros t0. unfold route. destruct origin; [done|]. case_decide; [done|]. destruct targets; [|done].
    by apply try_candidates_ext. }
  unfold invoke. destruct (em_instances (manager t) !! id); [|apply Hroute].
  by destruct (zoom _ _ _ _) as [t' [|[]]].
Qed.
End calls.

(** C17: A call ends after one hop. However many hops the overlay would carry, an
    invocation and the whole cluster it goes through behave as with a single
    one: a node that receives a forwarded call runs it or refuses it, and asks
    no other node, so calls never loop. *)
Theorem forwarding_terminates `{!HashIter, !Redb, !Hex, !Formats} {W I} `{!Engines W I, !ManagerTexts}
    absent targets fate hops node id method payload nodes :
  call_extension (W:=W) (I:=I) absent targets fate (S hops) node id method payload nodes =
    call_extension absent targets fate 1 node id method payload nodes.
Proof. apply invoke_ext. intros peer request t. apply cluster_rpc_one_hop. Qed.

(** ** Who ran a call *)

Section executed.
Context `{!HashIter, !Redb} `{!Hex} `{!Formats} {W I : Type} `{!Engines W I} `{!ManagerTexts}.
Context (absent : ExtensionManager (W:=W) (I:=I)) (Habsent : em_instances absent = ∅).
Context (targets : string → option (list string)).
Context (fate : gmap string (ExtensionManager (W:=W) (I:=I)) → string → ExtensionInvokeRequest → Fate).

Abbreviation Manager := (ExtensionManager (W:=W) (I:=I)).
Abbreviation Nodes := (gmap string Manager).

(** Running calls changes what the engines keep, and nothing else. *)
Definition alike (m m' : Manager) : Prop :=
  em_instances m' = em_instances m ∧ em_membership m' = em_membership m ∧ em_storage m' = em_storage m.

Definition all_alike (nodes nodes' : Nodes) : Prop := ∀ n, option_Forall2 alike (nodes !! n) (nodes' !! n).

#[local] Instance alike_preorder : PreOrder alike.
Proof.
  split; [done|]. intros m1 m2 m3 (H1' & H2' & H3') (H4' & H5' & H6'). unfold alike.
  by rewrite H4', H5', H6'.
Qed.

#[local] Instance all_alike_preorder : PreOrder all_alike.
Proof.
  split; [intros nodes n; by destruct (nodes !! n); constructor|].
  intros x y z Hxy Hyz n. specialize (Hxy n). specialize (Hyz n).
  destruct Hxy as [a b Hab|]; inversion Hyz; subst; constructor. by etrans.
Qed.

(** [n] ran the call, and this is its answer. *)
Definition ran (nodes : Nodes) (n id method : string) (payload answer : bytes) : Prop :=
  ∃ m loaded w w', nodes !! n = Some m ∧ em_instances m !! id = Some loaded ∧
    instance_invoke (ld_instance loaded) method payload w = (w', Ok answer).

Lemma ran_alike nodes nodes' n id method payload answer :
  all_alike nodes nodes' → ran nodes' n id method payload answer → ran nodes n id method payload answer.
Proof.
  intros Ha (m' & loaded & w & w' & Hm & Hl & Hi). specialize (Ha n). rewrite Hm in Ha.
  inversion Ha as [m m2 (He & _) Hx|]; subst. exists m, loaded, w, w'. by rewrite <- He.
Qed.

(** The call at a node that has an instance. *)
Lemma run_here nodes n id method payload nodes' r loaded :
  em_instances (manager_at absent n nodes) !! id = Some loaded →
  zoom (manager_at absent n) (put_manager n) (invoke_local id method payload) nodes = (nodes', r) →
  all_alike nodes nodes' ∧ (∀ answer, r = Ok answer → ran nodes n id method payload answer) ∧
  (∀ x, r ≠ Err (NotRunning x)).
Proof.
  intros Hl. unfold zoom, invoke_local. rewrite Hl. unfold manager_at in Hl |- *.
  destruct (nodes !! n) as [m|] eqn:Hm; cbn in Hl |- *; [|by rewrite Habsent in Hl].
  unfold with_err, in_world, zoom. destruct (instance_invoke _ _ _ _) as [w' a] eqn:Hi. intros [= <- <-].
  split_and!.
  - intros k. unfold put_manager. destruct (decide (k = n)) as [->|].
    + rewrite Hm, lookup_insert_eq. by constructor.
    + rewrite lookup_insert_ne by done. by destruct (nodes !! k); constructor.
  - intros answer Ha. destruct a; [|done]. injection Ha as ->. by exists m, loaded, (em_world m), w'.
  - intros x. by destruct a.
Qed.

(** A call that was forwarded. *)
Lemma forwarded_call rpc nodes n id method payload origin nodes' r :
  invoke (manager_at absent n) (put_manager n) rpc (targets n) id method payload (Some origin) nodes = (nodes', r) →
  all_alike nodes nodes' ∧
  ∀ outcome, r = Ok outcome →
    executed_by outcome = local_node_id (manager_at absent n nodes) ∧ ran nodes n id method payload (outcome_payload outcome).
Proof.
  unfold invoke, route. destruct (em_instances _ !! id) as [loaded|] eqn:Hl; [|by intros [= <- <-]].
  destruct (zoom _ _ _ _) as [nodes1 r1] eqn:Hz. destruct (run_here _ _ _ _ _ _ _ _ Hl Hz) as (Ha & Hr & Hn).
  destruct r1 as [a|[x|x|x|x k s|x|x|x|x]]; intros [= <- <-]; split; try done.
  - intros outcome [= <-]. split; [done|]. by apply Hr.
Qed.

(** A request on its way to a peer. *)
Lemma peer_call nodes peer request nodes' r :
  cluster_rpc absent targets fate 1 peer request nodes = (nodes', r) →
  all_alike nodes nodes' ∧
  ∀ outcome, r = Ok outcome →
    executed_by outcome = local_node_id (manager_at absent peer nodes) ∧
    ran nodes peer (iq_extension_id request) (iq_method request) (iq_payload request) (outcome_payload outcome).
Proof.
  cbn. destruct (handle_forwarded _ _ _ _ request nodes) as [nodes1 answer] eqn:Hh.
  assert (all_alike nodes nodes1 ∧ ∀ outcome, answer = Some (Ok outcome) →
    executed_by outcome = local_node_id (manager_at absent peer nodes) ∧
    ran nodes peer (iq_extension_id request) (iq_method request) (iq_payload request) (outcome_payload outcome)) as [Ha Ho].
  { revert Hh. unfold handle_forwarded. case_decide; [by intros [= <- <-]|].
    destruct (value_from _); [|by intros [= <- <-]]. case_decide; [by intros [= <- <-]|].
    destruct (invoke _ _ _ _ _ _ _ _ nodes) as [nodes2 r2] eqn:Hi. apply forwarded_call in Hi as [Ha Ho].
    intros [= <- <-]. split; [done|]. intros outcome. destruct r2; cbn; [|done]. intros [= ->]. by apply Ho. }
  destruct (fate nodes peer request); intros [= <- <-]; (split; [done|]); try done.
  intros outcome. destruct answer as [[o|]|]; cbn; try done. intros [= ->]. by apply Ho.
Qed.

Lemma tried_candidates id method payload local_id total last candidates nodes nodes' r :
  try_candidates (cluster_rpc absent targets fate 1) id method payload local_id total last candidates nodes = (nodes', r) →
  all_alike nodes nodes' ∧
  ∀ outcome, r = Ok outcome → ∃ peer nodes1, peer ∈ candidates ∧ all_alike nodes nodes1 ∧
    executed_by outcome = local_node_id (manager_at absent peer nodes1) ∧
    ran nodes1 peer id method payload (outcome_payload outcome).
Proof.
  revert last nodes. induction candidates as [|peer l IH]; intros last nodes; cbn [try_candidates].
  { unfold raise. intros [= <- <-]. by split. }
  unfold try_or, forward, with_err, bind, lift. destruct (connect peer) as [x|e].
  - destruct (cluster_rpc _ _ _ 1 peer _ nodes) as [nodes1 r1] eqn:Hp. apply peer_call in Hp as [Ha Ho].
    destruct r1 as [o|e]; cbn [map_err].
    + intros [= <- <-]. split; [done|]. intros outcome [= <-]. destruct (Ho o eq_refl) as [Ho1 Ho2].
      exists peer, nodes. split_and!; try done. by left.
    + intros Ht. apply IH in Ht as [Ha' Ho']. split; [by etrans|]. intros outcome He.
      destruct (Ho' outcome He) as (p & n1 & Hp & Hn & Hx). exists p, n1.
      split_and!; [by right|by etrans|apply Hx..].
  - cbn [map_err]. intros Ht. apply IH in Ht as [Ha' Ho']. split; [done|]. intros outcome He.
    destruct (Ho' outcome He) as (p & n1 & Hp & Hx). exists p, n1. split; [by right|done].
Qed.
End executed.

(** C12: An answer is the answer of the node it names. In any cluster, whatever
    requests and answers get lost, a call that returns a response was run by the
    node the response names, on the instance of the extension loaded there, and
    returns what that instance answered. That node is the one that was asked, if
    it runs the extension; otherwise it is one of the peers its overlay proposed
    whose register advertises the extension. The call changed no node's
    instances, membership or storage. *)
Theorem answer_is_executors `{!HashIter, !Redb, !Hex, !Formats} {W I} `{!Engines W I, !ManagerTexts}
    absent targets fate hops node m id method payload nodes nodes' outcome :
  em_instances absent = ∅ → (∀ n m, nodes !! n = Some m → local_node_id m = n) → nodes !! node = Some m →
  call_extension (W:=W) (I:=I) absent targets fate (S hops) node id method payload nodes = (nodes', Ok outcome) →
  all_alike nodes nodes' ∧ ran nodes (executed_by outcome) id method payload (outcome_payload outcome) ∧
  (executed_by outcome = node ∧ is_Some (em_instances m !! id) ∨
   em_instances m !! id = None ∧ (∃ proposed, targets node = Some proposed ∧ executed_by outcome ∈ proposed) ∧
     ∃ r, r ∈ list_nodes (em_membership m) ∅ ∧ node_id r = executed_by outcome ∧ executed_by outcome ≠ node ∧
       is_Some (annotations r !! capability id)).
Proof.
  intros Habsent Hkeyed Hm. unfold call_extension.
  rewrite (invoke_ext _ _ _ (cluster_rpc absent targets fate 1)) by (intros; apply cluster_rpc_one_hop).
  assert (manager_at absent node nodes = m) as Hat by (unfold manager_at; by rewrite Hm).
  unfold invoke. rewrite Hat. destruct (em_instances m !! id) as [loaded|] eqn:Hl.
  - destruct (zoom _ _ _ nodes) as [nodes1 r1] eqn:Hz. rewrite <- Hat in Hl.
    destruct (run_here absent Habsent _ _ _ _ _ _ _ _ Hl Hz) as (Ha & Hr & Hn). rewrite (Hkeyed _ _ Hm).
    destruct r1 as [a|[x|x|x|x k s|x|x|x|x]]; try done; [|by destruct (Hn x)].
    intros [= <- <-]. split; [done|]. split; [by apply Hr|]. left. by split.
  - unfold route. rewrite Hat. case_decide; [done|]. destruct (targets node) as [proposed|] eqn:Ht; [|done].
    intros Hc. destruct (tried_candidates absent Habsent _ _ _ _ _ _ _ _ _ _ _ _ Hc) as [Ha Ho]. split; [done|].
    destruct (Ho outcome eq_refl) as (peer & nodes1 & Hp & Hn1 & He & Hran).
    apply (ran_alike nodes nodes1 peer id method payload _ Hn1) in Hran.
    assert (executed_by outcome = peer) as Hex.
    { destruct Hran as (mp & _ & _ & _ & Hmp & _). specialize (Hn1 peer). rewrite Hmp in Hn1.
      assert (∃ m2, nodes1 !! peer = Some m2 ∧ alike mp m2) as (m2 & Hm2 & _ & Hms & _) by (inversion Hn1; eauto).
      rewrite He. etrans; [|by eapply Hkeyed]. unfold manager_at, local_node_id. rewrite Hm2. cbn. by rewrite Hms. }
    rewrite Hex. split; [done|]. right. split; [done|].
    apply list_elem_of_filter in Hp as [Hadv Hprop]. split; [by exists proposed|].
    apply list_elem_of_fmap in Hadv as (r & -> & [[Hne Hcap] Hr]%list_elem_of_filter).
    exists r. split_and!; try done. by rewrite (Hkeyed _ _ Hm) in Hne.
Qed.

(** ** Reconciliation *)

Section reconciliation.
Context `{!HashIter} `{!Redb, !Postcard ExtensionRecord, !Postcard string} `{!Formats}.
Context {W I : Type} `{!Engines W I} (data_dir : string) (local : gmap string (gmap string string)).

Abbreviation Manager := (ExtensionManager (W:=W) (I:=I)).
Abbreviation Loaded := (LoadedExtension (I:=I)).
Implicit Types (self : Manager) (r : ExtensionRecord).

(** [l] is what an engine made of the record's package. *)
Definition loaded_from r (m : ExtensionManifest) (l : Loaded) : Prop :=
  ld_version l = ex_version r ∧ ld_semver l = semver_text (semver m) ∧
  ∃ kind package settings w w',
    engine_from_str (ex_engine r) = Ok kind ∧ pk_engine package = kind ∧ pk_content_hash package = ex_content_hash r ∧
    merge_settings (Manifest.settings m) (local !! ex_id r) = Ok settings ∧
    engine_load kind package settings w = (w', Ok (ld_instance l)).

(** What one pass makes of the instance of a record. *)
Inductive decided (labels : gmap string string) r (old new : option Loaded) : Prop :=
| decided_invalid e : from_map (ex_manifest r) = Err e → new = old → decided labels r old new
| decided_unselected m :
    from_map (ex_manifest r) = Ok m → matches_selector labels (selector m) = false → new = None → decided labels r old new
| decided_current m l :
    from_map (ex_manifest r) = Ok m → matches_selector labels (selector m) = true →
    old = Some l → ld_version l = ex_version r → new = old → decided labels r old new
| decided_loaded m l :
    from_map (ex_manifest r) = Ok m → matches_selector labels (selector m) = true →
    (∀ l0, old = Some l0 → ld_version l0 ≠ ex_version r) → new = Some l → loaded_from r m l → decided labels r old new
| decided_quarantined m :
    from_map (ex_manifest r) = Ok m → matches_selector labels (selector m) = true →
    (∀ l0, old = Some l0 → ld_version l0 ≠ ex_version r) → new = old → decided labels r old new.

Lemma load_extension_spec r m self :
  wp (load data_dir local r m)
    (λ l self', loaded_from r m l ∧ em_instances self' = em_instances self ∧ em_membership self' = em_membership self)
    (λ _ self', em_instances self' = em_instances self ∧ em_membership self' = em_membership self) self.
Proof.
  unfold load. rewrite wp_bind, wp_lift. destruct (engine_from_str (ex_engine r)) as [kind|] eqn:Hk; cbn; [|done].
  rewrite wp_bind. unfold in_storage. rewrite wp_with_err, wp_zoom.
  apply wp_intro; [intros artifact st _|by intros]. rewrite wp_bind, wp_lift. destruct (ok_or _ _) as [a|]; [|done].
  rewrite wp_bind, wp_lift. destruct (merge_settings _ _) as [v|] eqn:Hv; [|done].
  rewrite wp_bind, wp_with_err. unfold in_world. rewrite wp_zoom. apply wp_intro; [|by intros].
  intros i w' Hl. rewrite wp_ret. split; [|done]. split; [done|]. split; [done|].
  exists kind. eexists _, v, _, w'. split; [done|]. split; [|split; [|split; [done|exact Hl]]]; done.
Qed.

Lemma reconcile_record_spec labels self r :
  let self' := reconcile_record data_dir local labels self r in
  decided labels r (em_instances self !! ex_id r) (em_instances self' !! ex_id r) ∧
  (∀ id, id ≠ ex_id r → em_instances self' !! id = em_instances self !! id) ∧
  em_membership self' = em_membership self.
Proof.
  unfold reconcile_record. cbv zeta. destruct (from_map (ex_manifest r)) as [m|e] eqn:Hm.
  2: { split; [by eapply decided_invalid|done]. }
  destruct (matches_selector labels (selector m)) eqn:Hs; cbn [negb].
  2: { cbn. rewrite lookup_delete_eq. split; [by eapply decided_unselected|]. split; [|done].
       intros id Hne. by rewrite lookup_delete_ne. }
  assert (∀ self', em_instances self' = em_instances self → em_membership self' = em_membership self →
    (∀ l0, em_instances self !! ex_id r = Some l0 → ld_version l0 ≠ ex_version r) →
    decided labels r (em_instances self !! ex_id r) (em_instances self' !! ex_id r) ∧
    (∀ id, id ≠ ex_id r → em_instances self' !! id = em_instances self !! id) ∧
    em_membership self' = em_membership self) as Hkept.
  { intros self' He Hms Hold. rewrite He. split; [by eapply decided_quarantined|done]. }
  pose proof (load_extension_spec r m self) as Hload. unfold wp in Hload.
  destruct (em_instances self !! ex_id r) as [l|] eqn:Hl.
  - case_bool_decide as Hv.
    + rewrite Hl. split; [|done]. by eapply decided_current.
    + assert (∀ l0, Some l = Some l0 → ld_version l0 ≠ ex_version r) as Hold by (by intros l0 [= <-]).
      destruct (load _ _ r m self) as [self1 [new|e]].
      * destruct Hload as (Hf & He & Hms). cbn. rewrite lookup_insert_eq. split; [by eapply decided_loaded|].
        split; [|done]. intros id Hne. by rewrite lookup_insert_ne, He.
      * destruct Hload as [He Hms]. apply Hkept; [done..|]. intros l0 [= <-]. done.
  - assert (∀ l0 : Loaded, None = Some l0 → ld_version l0 ≠ ex_version r) as Hold by done.
    destruct (load _ _ r m self) as [self1 [new|e]].
    + destruct Hload as (Hf & He & Hms). cbn. rewrite lookup_insert_eq. split; [by eapply decided_loaded|].
      split; [|done]. intros id Hne. by rewrite lookup_insert_ne, He.
    + destruct Hload as [He Hms]. by apply Hkept.
Qed.

Lemma reconcile_records_spec labels records self :
  NoDup (ex_id <$> records) →
  let self' := foldl (reconcile_record data_dir local labels) self records in
  (∀ r, r ∈ records → decided labels r (em_instances self !! ex_id r) (em_instances self' !! ex_id r)) ∧
  (∀ id, id ∉ ex_id <$> records → em_instances self' !! id = em_instances self !! id) ∧
  em_membership self' = em_membership self.
Proof.
  revert self. induction records as [|r l IH]; intros self Hd; cbn.
  { split_and!; [by intros r Hr%not_elem_of_nil|done|done]. }
  cbn in Hd. apply NoDup_cons in Hd as [Hnew Hd].
  destruct (reconcile_record_spec labels self r) as (Hr1 & Hr2 & Hr3).
  destruct (IH (reconcile_record data_dir local labels self r) Hd) as (Hl1 & Hl2 & Hl3). split_and!.
  - intros x Hx. apply elem_of_cons in Hx as [->|Hx].
    + by rewrite Hl2.
    + rewrite <- Hr2; [by apply Hl1|]. intros He. destruct Hnew. rewrite <- He. by apply list_elem_of_fmap_2.
  - intros id Hid. apply not_elem_of_cons in Hid as [Hne Hid]. by rewrite Hl2, Hr2.
  - by rewrite Hl3.
Qed.

#[local] Instance capability_inj : Inj (=) (=) capability.
Proof. intros x y. apply (inj (String.append EXTENSION_ANNOTATION_PREFIX)). Qed.

Lemma announced_lookup self id : announced self !! capability id = ld_semver <$> em_instances self !! id.
Proof.
  unfold announced. apply option_eq. intros v. rewrite <- elem_of_list_to_map.
  - rewrite list_elem_of_fmap. split.
    + intros ([k l] & [Hk ->]%pair_equal_spec & Hin). apply elem_of_map_to_list in Hin.
      apply (inj capability) in Hk. cbn in Hk. by rewrite Hk, Hin.
    + intros Hv. apply fmap_Some in Hv as (l & Hl & ->). exists (id, l). split; [done|]. by apply elem_of_map_to_list.
  - rewrite <- list_fmap_compose. replace (fst ∘ _) with (capability ∘ (fst : string * Loaded → string)) by done.
    rewrite list_fmap_compose. apply (NoDup_fmap_2 _), NoDup_fst_map_to_list.
Qed.

Lemma announced_keys self k : is_Some (announced self !! k) → ∃ id, k = capability id.
Proof.
  unfold announced. intros [v Hv]. apply elem_of_list_to_map_2, list_elem_of_fmap in Hv as ([id l] & [= -> _] & _).
  by exists id.
Qed.

Lemma capability_prefix id : String.prefix EXTENSION_ANNOTATION_PREFIX (capability id) = true.
Proof. by destruct id. Qed.
End reconciliation.


(** ** Hooks *)

Section hook_order.
Context `{!HashIter, !Redb} `{!Hex} `{!Formats} {W I : Type} `{!Engines W I} `{!ManagerTexts}.
Context {T : Type} (manager : T → ExtensionManager (W:=W) (I:=I)) (set_manager : ExtensionManager (W:=W) (I:=I) → T → T).
Context (rpc : string → ExtensionInvokeRequest → M T ClientError InvokeOutcome) (targets : option (list string)).

(** The subscribers that were called, and how the calls ended: all but the last
    succeeded or may fail; the rest was not called only because the last failed
    and aborts. *)
Definition called (l : list Subscriber) (outcomes : list HookOutcome) : Prop :=
  ∃ done rest, l = (done ++ rest)%list ∧ Forall2 (λ s o, ho_id o = sb_id s) done outcomes ∧
    (∀ i s o, done !! i = Some s → outcomes !! i = Some o → is_ok (ho_result o) = false → sb_on_error s = Abort →
       S i = length done) ∧
    (rest ≠ [] → ∃ s o, last done = Some s ∧ last outcomes = Some o ∧ is_ok (ho_result o) = false ∧ sb_on_error s = Abort).

Lemma dispatch_to_called point payload l t :
  called l (dispatch_to manager set_manager rpc targets point payload l t).2.
Proof.
  revert t. induction l as [|s l IH]; intros t; cbn [dispatch_to].
  { exists [], []. split_and!; [done|constructor|by intros i s o|done]. }
  destruct (invoke _ _ _ _ _ _ _ _ t) as [t1 r]. set (result := match r with Ok _ => _ | Err _ => _ end).
  destruct (negb (is_ok result) && bool_decide (sb_on_error s = Abort)) eqn:Hstop.
  - apply andb_true_iff in Hstop as [Hf%negb_true_iff Ha%bool_decide_eq_true]. exists [s], l. cbn. split_and!.
    + done.
    + by constructor.
    + intros i s' o Hs. destruct i; [done|by destruct i].
    + intros _. exists s, (mkHookOutcome (sb_id s) result). done.
  - specialize (IH t1). destruct (dispatch_to _ _ _ _ _ _ l t1) as [t2 outcomes]. cbn in *.
    destruct IH as (d & rest & -> & Hf & Hi & Hr). exists (s :: d), rest. split_and!.
    + done.
    + by constructor.
    + intros [|i] s' o; cbn; [|intros; f_equal; by eapply Hi]. intros [= <-] [= <-]. cbn. intros Hfail Habort.
      rewrite Hfail, bool_decide_eq_true_2 in Hstop by done. done.
    + intros Hne. destruct (Hr Hne) as (s' & o & Hs & Ho & Hx). exists s', o. split_and!; try apply Hx.
      * by rewrite last_cons, Hs.
      * by rewrite last_cons, Ho.
Qed.
End hook_order.


(** ** Registration *)

Section registration.
Context `{!Redb, !RedbLaws, !Postcard ExtensionRecord, !PostcardLaws ExtensionRecord} `{!Blake3} `{!Formats}.
Context {W I : Type} (data_dir : string).

Abbreviation Manager := (ExtensionManager (W:=W) (I:=I)).
Abbreviation stored m := (extensions (em_storage m)).
Abbreviation artifacts m := (artifact data_dir (em_storage m)).

(** Nothing stored changed. *)
Definition same_store (m m' : Manager) : Prop := stored m' = stored m ∧ ∀ id, artifacts m' id = artifacts m id.

Lemma wp_in_storage {E A} (x : M (Store Database) E A) Q (F : E → Manager → Prop) m :
  wp x (λ a s, Q a (set_storage s m)) (λ e s, F e (set_storage s m)) (em_storage m) → wp (in_storage x) Q F m.
Proof. unfold in_storage. by rewrite wp_zoom. Qed.

Lemma stored_extension_spec id m :
  wp (stored_extension id)
    (λ o m', o = stored m !! id ∧ same_store m m' ∧ local_node_id m' = local_node_id m)
    (λ e m', ∃ x, e = RegisterStorage x ∧ same_store m m') m.
Proof.
  unfold stored_extension. rewrite wp_with_err. apply wp_in_storage.
  eapply wp_mono; [apply (get_law (ops := ex_ops data_dir) (recs := extensions) (content := artifact data_dir))|..].
  - intros o s (-> & Hr & Hc). split; [done|]. split; [|done]. split; [done|]. intros id'. cbn. by rewrite Hc.
  - intros e s (Hr & Hc). exists e. split; [done|]. split; [done|]. intros id'. cbn. by rewrite Hc.
Qed.

(** What a failed registration may have done: nothing before the storage is
    written; after that at most the artifact of its own id is there. *)
Definition untouched_but (id : string) (m m' : Manager) : Prop :=
  stored m' = stored m ∧ ∀ id', id' ≠ id → artifacts m' id' = artifacts m id'.

Lemma same_untouched id m m' : same_store m m' → untouched_but id m m'.
Proof. intros [Hs Ha]. split; [done|]. intros id' _. apply Ha. Qed.

(** A registration that went through. *)
Definition registered_ok (g : ExtensionRegistration) (now : Z) (m m' : Manager) (hash : string) : Prop :=
  ∃ engine record, validated g = Ok engine ∧ hash = hash_content (rg_artifact g) ∧
    record = registered g engine hash (local_node_id m) (stored m !! rg_id g) now ∧
    stored m' = <[rg_id g := record]> (stored m) ∧
    (∀ old, stored m !! rg_id g = Some old → ex_version old < rg_version g ∧ ex_scope old = ClusterShared) ∧
    faithful empty_string hash_content extensions (artifact data_dir) (em_storage m') ∧
    (∀ id', id' ≠ rg_id g → artifacts m' id' = artifacts m id') ∧ em_notified m' = true.

Definition rejected (g : ExtensionRegistration) (m m' : Manager) (e : RegisterExtensionError) : Prop :=
  match e with
  | InvalidId _ | InvalidManifest _ | EmptyArtifact => validated g = Err e ∧ m' = m
  | VersionNotIncreasing _ _ received =>
      same_store m m' ∧ received = rg_version g ∧
      ∃ old, stored m !! rg_id g = Some old ∧ (rg_version g ≤ ex_version old ∨ ex_scope old = NodeLocal)
  | RegisterStorage _ => untouched_but (rg_id g) m m'
  end.

Lemma validated_err g e : validated g = Err e → ∀ m, rejected g m m e.
Proof.
  intros Hv m. unfold rejected. destruct e; try done.
  all: exfalso; revert Hv; unfold validated; destruct (validate _); cbn; [|done];
    destruct (engine_from_str _); cbn; [|done]; destruct (from_map _); cbn; [|done]; by case_decide.
Qed.

Lemma validated_Ok g engine : validated g = Ok engine → rg_artifact g ≠ "".
Proof.
  unfold validated. destruct (map_err _ _); cbn; [|done]. destruct (map_err _ _); cbn; [|done].
  destruct (map_err _ _); cbn; [|done]. by case_decide.
Qed.

Lemma increasing_Ok g o : increasing g o = Ok tt ↔ ∀ old, o = Some old → ex_version old < rg_version g.
Proof.
  unfold increasing. destruct o as [old|]; [|done]. case_decide; split; try done.
  - intros Ho. specialize (Ho old eq_refl). lia.
  - intros _ old' [= <-]. lia.
Qed.

Lemma wp_apply_extension r c Q (F : ExtensionStorageError → Store Database → Prop) s :
  wp (pipeline (ex_ops data_dir) ex_id empty_string hash_content (λ _, ExtHashMismatch) r c) Q F s →
  wp (apply_remote_extension data_dir r c) Q F s.
Proof. unfold wp. by rewrite apply_remote_extension_pipeline. Qed.

(** Applying the record of a registration that increases the version. *)
Lemma apply_registered g engine now source m o :
  validated g = Ok engine → o = stored m !! rg_id g → increasing g o = Ok tt →
  let r := registered g engine (hash_content (rg_artifact g)) source o now in
  wp (with_err RegisterStorage (in_storage (apply_remote_extension data_dir r (rg_artifact g))))
    (λ b m', em_notified m' = em_notified m ∧
       if (b : bool) then
         stored m' = <[rg_id g := r]> (stored m) ∧
         (∀ old, o = Some old → ex_scope old = ClusterShared) ∧
         (faithful empty_string hash_content extensions (artifact data_dir) (em_storage m) →
          faithful empty_string hash_content extensions (artifact data_dir) (em_storage m')) ∧
         (∀ id', id' ≠ rg_id g → artifacts m' id' = artifacts m id')
       else same_store m m' ∧ ∃ old, o = Some old ∧ ex_scope old = NodeLocal)
    (λ e m', ∃ x, e = RegisterStorage x ∧ untouched_but (rg_id g) m m') m.
Proof.
  intros Hv Ho Hinc r. rewrite wp_with_err. apply wp_in_storage, wp_apply_extension.
  assert (accepts empty_string hash_content r (rg_artifact g) = true) as Hacc.
  { unfold accepts, empty_string. apply validated_Ok in Hv. rewrite bool_decide_eq_false_2 by done.
    by apply bool_decide_eq_true_2. }
  assert (extensions (em_storage m) !! ex_id r = o) as Hlocal by done.
  eapply wp_mono;
    [apply (pipeline_spec (ex_ops data_dir) ex_id empty_string hash_content (λ _, ExtHashMismatch) extensions (artifact data_dir))|..].
  - intros b s Happ. split; [done|]. pose proof Happ as (Hb & Hr & Hc & Hoff).
    unfold wins in Hb. rewrite Hacc, Hlocal in Hb. cbn [andb] in Hb. destruct b; cbn.
    + split; [exact Hr|]. symmetry in Hb. apply should_apply_true in Hb as [_ Hs].
      split; [intros old Hold; by apply Hs|]. split; [|intros id' Hne; by apply Hoff].
      intros Hf. by eapply applied_faithful.
    + symmetry in Hb. destruct (should_apply_false o r ltac:(done) Hb) as (old & Hold & Hs). split.
      * split; [exact Hr|]. intros id'. destruct (decide (id' = rg_id g)) as [->|Hne]; [|by apply Hoff].
        etrans; [exact Hc|]. unfold writes, wins. rewrite Hacc, Hlocal. cbn [andb].
        by rewrite Hb.
      * exists old. split; [done|]. destruct Hs as [|Hle]; [done|]. exfalso.
        rewrite increasing_Ok in Hinc. specialize (Hinc old Hold). apply ord_lt_not_le in Hle; [done|].
        unfold ord_lt, key. cbn. unfold prod_cmp. cbn. by rewrite (proj2 (Z.compare_lt_iff _ _) Hinc).
  - intros e s (Hr & _ & Hoff). exists e. split; [done|]. split; [exact Hr|]. intros id' Hne. by apply Hoff.
Qed.

Lemma same_store_trans m1 m2 m3 : same_store m1 m2 → same_store m2 m3 → same_store m1 m3.
Proof. intros [Hs Ha] [Hs' Ha']. split; [by rewrite Hs'|]. intros id. by rewrite Ha'. Qed.

Lemma register_spec g now m :
  faithful empty_string hash_content extensions (artifact data_dir) (em_storage m) →
  wp (register_extension data_dir g now) (λ hash m', registered_ok g now m m' hash) (λ e m', rejected g m m' e) m.
Proof.
  intros Hfaith. unfold register_extension. rewrite wp_bind, wp_lift.
  destruct (validated g) as [engine|e] eqn:Hv; [|by apply validated_err].
  rewrite wp_bind. eapply wp_mono; [apply stored_extension_spec| |].
  2: { intros e m1 (x & -> & Hs). by apply same_untouched. }
  intros o m1 (Ho & Hs1 & Hid). rewrite wp_bind, wp_lift. destruct (increasing g o) as [[]|e] eqn:Hinc.
  2: { unfold increasing in Hinc. destruct o as [old|]; [|done]. case_decide; [|done]. injection Hinc as <-.
       split; [done|]. split; [done|]. exists old. split; [done|]. by left. }
  assert (o = stored m1 !! rg_id g) as Ho1 by (by rewrite (proj1 Hs1)).
  rewrite wp_bind. pose proof (apply_registered g engine now (local_node_id m1) m1 o Hv Ho1 Hinc) as Happ.
  eapply wp_mono; [exact Happ| |].
  2: { intros e m2 (x & -> & Hr & Ha). split; [by rewrite Hr, (proj1 Hs1)|].
       intros id' Hne. by rewrite Ha, (proj2 Hs1). }
  intros [|] m2 [Hnot H2']; cbv beta iota in H2' |- *.
  - destruct H2' as (Hr & Hshared & Hf & Hoff). unfold wp, registered_ok. cbn.
    exists engine, (registered g engine (hash_content (rg_artifact g)) (local_node_id m) o now).
    rewrite Hid, (proj1 Hs1) in Hr. split_and!; try done.
    + by rewrite <- Ho.
    + intros old Hold. rewrite <- Ho in Hold. split; [|by apply Hshared]. by eapply increasing_Ok.
    + apply Hf. intros id r0. rewrite (proj1 Hs1). intros Hr0. destruct (Hfaith id r0 Hr0) as (c & Hc & Hacc).
      exists c. split; [|done]. by rewrite (proj2 Hs1).
    + intros id' Hne. by rewrite Hoff, (proj2 Hs1).
  - destruct H2' as (Hs2 & old & Hold & Hscope). rewrite wp_bind.
    assert (same_store m m2) as Hs by (by eapply same_store_trans).
    eapply wp_mono; [apply stored_extension_spec|..].
    + intros current m3 (_ & Hs3 & _). unfold wp, raise. split; [by eapply same_store_trans|]. split; [done|].
      exists old. split; [by rewrite <- Ho|]. by right.
    + intros e m3 (x & -> & Hs3). apply same_untouched. by eapply same_store_trans.
Qed.
End registration.

(** C18: Registrations only move forward. Starting from a store whose artifacts are
    the ones its records declare: a registration that is accepted stores one
    record under its id, shared, with the hash of its artifact, at a version above
    the one stored before whose time of creation it keeps; every record's artifact
    is still the one declared, other artifacts are the same, and the reconciler is
    woken. A package that fails validation changes nothing at all. A version that
    is not above the stored one, or an id taken by a record local to the node,
    changes no record and no artifact; a storage failure at most leaves the
    artifact of the id itself behind. *)
Theorem registration_monotone `{!Redb, !RedbLaws, !Postcard ExtensionRecord, !PostcardLaws ExtensionRecord, !Blake3, !Formats}
    {W I} data_dir g now m :
  faithful empty_string hash_content extensions (artifact data_dir) (em_storage m) →
  match register_extension (W:=W) (I:=I) data_dir g now m with
  | (m', Ok hash) => registered_ok data_dir g now m m' hash
  | (m', Err e) => rejected data_dir g m m' e
  end.
Proof.
  intros Hf. pose proof (register_spec data_dir g now m Hf) as Hw. unfold wp in Hw.
  by destruct (register_extension _ _ _ _) as [m' []].
Qed.

(** ** A concrete cluster

    An engine that loads every artifact and answers a call with its payload,
    keeping a log of the methods called. *)

#[local] Existing Instance toy_redb.
#[local] Existing Instance toy_redb_laws.
#[local] Existing Instance toy_postcard.
#[local] Existing Instance toy_postcard_laws.
#[local] Existing Instance gmap_hash_iter.
#[local] Existing Instance small_shape.
#[local] Existing Instance toy_formats.

#[local] Instance echo_engines : Engines (list string) string := {|
  engine_load := λ _ package _ w, (w, Ok (pk_artifact package));
  instance_invoke := λ i method payload w, ((w ++ [method])%list, Ok payload);
|}.

#[local] Instance raw_hex : Hex := {| hex_encode := λ b, b; hex_decode := λ s, Ok s |}.
#[local] Instance raw_texts : ManagerTexts := {| manager_text := λ _, "failed"; register_text := λ _, "rejected" |}.
#[local] Instance raw_blake3 : Blake3 := {| blake3_hex := λ c, c |}.

#[local] Instance ex_eq_dec : EqDecision ExtensionRecord.
Proof. solve_decision. Defined.
#[local] Program Instance ex_countable : Countable ExtensionRecord :=
  inj_countable'
    (λ r, (ex_id r, ex_name r, ex_version r, ex_engine r, ex_entry r, ex_content_hash r,
           (ex_scope r, ex_source_node_id r, ex_created_at_ms r, ex_updated_at_ms r, ex_manifest r, ex_labels r)))
    (λ '(i, n, v, g, y, h, (s, o, c, u, m, l)), mkExtension i n v g y h s o c u m l) _.
Next Obligation. by intros []. Qed.

(** The manifest of [small_manifest], without the capability and the selector. *)
Definition plain_manifest : gmap string string :=
  match to_map (mkManifest ("1.0.0" : string) [] [] [mkHook "skill.invoke.pre" Ignore] ∅ "{}") with
  | Ok m => m
  | Err _ => ∅
  end.

Definition a_package (id : string) (version : Z) : ExtensionRegistration :=
  mkRegistration id "an extension" version "lua" "" "code" plain_manifest ∅.

Definition empty_store : Store Database := mkStore (mkToy ∅ []) (mkFs ∅ ∅ []).

Definition fresh_node : ExtensionManager (W := list string) (I := string) :=
  mkManager ∅ [] empty_store (boot MerkleDiff.toy_blake3 (toy_boot 0) ∅) false.

(** The same node with the package stored. *)
Definition packed_store : Store Database := em_storage (register_extension "/data" (a_package "ext-1" 1) 5 fresh_node).1.
Definition with_package : ExtensionManager := set_storage packed_store fresh_node.

Lemma empty_faithful : faithful empty_string hash_content extensions (artifact "/data") (em_storage fresh_node).
Proof.
  change (em_storage fresh_node) with empty_store. intros id r.
  assert (extensions empty_store = ∅) as -> by (vm_compute; reflexivity). by rewrite lookup_empty.
Qed.

Lemma registration_monotone_witness :
  match register_extension "/data" (a_package "ext-1" 1) 5 fresh_node with
  | (m', Ok hash) => registered_ok "/data" (a_package "ext-1" 1) 5 fresh_node m' hash
  | (m', Err e) => False
  end.
Proof.
  pose proof (registration_monotone "/data" (a_package "ext-1" 1) 5 fresh_node empty_faithful) as Hr.
  assert (is_ok (register_extension "/data" (a_package "ext-1" 1) 5 fresh_node).2 = true) as Hok by (vm_compute; reflexivity).
  destruct (register_extension "/data" (a_package "ext-1" 1) 5 fresh_node) as [m' [hash|e]]; [exact Hr|discriminate Hok].
Defined.

(** The record that registration stored, and the labels of the node. *)
Definition stored_record : ExtensionRecord :=
  registered (a_package "ext-1" 1) Lua "code" "me" None 5.

Lemma pair_eta {A B} (p : A * B) b : p.2 = b → p = (p.1, b).
Proof. by destruct p as [a b']; intros <-. Qed.

Definition after_list : ExtensionManager := (in_storage (E := ExtensionStorageError) ext_list with_package).1.

Lemma listed : (in_storage ext_list with_package).2 = Ok [stored_record].
Proof. vm_compute. reflexivity. Qed.

Lemma stored_listed : in_storage ext_list with_package = (after_list, Ok [stored_record]).
Proof. exact (pair_eta _ _ listed). Qed.

Lemma labelled : (in_storage (in_db NodeStores.labels) after_list).2 = Ok ∅.
Proof. vm_compute. reflexivity. Qed.

Lemma no_labels :
  in_storage (in_db NodeStores.labels) after_list = ((in_storage (in_db NodeStores.labels) after_list).1, Ok ∅).
Proof. exact (pair_eta _ _ labelled). Qed.

Lemma booted_inv : service_inv (em_membership with_package).
Proof.
  change (em_membership with_package) with (boot MerkleDiff.toy_blake3 (toy_boot 0) ∅).
  apply boot_invariant; [|reflexivity]. apply toy_boot_wf. unfold is_i64, i64_min, i64_max. lia.
Qed.

Lemma stored_record_nodup : NoDup (ex_id <$> [stored_record]).
Proof. apply NoDup_singleton. Qed.


(** Two nodes: the first knows that the second runs [echo]. *)
Definition name_a : string := "aaaaaaaaaaaaaaaaaaaaaaaaaaaaaaaaaaaaaaaaaaaaaaaaaaaaaaaaaaaaaaaa".
Definition name_b : string := "bbbbbbbbbbbbbbbbbbbbbbbbbbbbbbbbbbbbbbbbbbbbbbbbbbbbbbbbbbbbbbbb".

Definition plain_node (name : string) : MembershipService :=
  Service.new MerkleDiff.toy_blake3 name default_config (Register.new name "addr" 1 0).

Definition advertising (name : string) : MemberRegister :=
  set_annotations {["ext.echo" := "1.0.0"]} (Register.new name "addr" 1 0).

Definition node_a : ExtensionManager (W := list string) (I := string) :=
  mkManager ∅ [] empty_store (register (plain_node name_a) (advertising name_b) 5 true).1 false.
Definition node_b : ExtensionManager (W := list string) (I := string) :=
  mkManager {["echo" := mkLoaded 1 "1.0.0" "code"]} [] empty_store (plain_node name_b) false.

Definition two_nodes : gmap string (ExtensionManager (W := list string) (I := string)) := {[name_a := node_a; name_b := node_b]}.

Definition everyone (_ : string) : option (list string) := Some [name_b; name_a].
Definition all_reached (_ : gmap string (ExtensionManager (W := list string) (I := string))) (_ : string)
    (_ : ExtensionInvokeRequest) : Fate := Reached.

Definition echoed := call_extension fresh_node everyone all_reached 2 name_a "echo" "say" "{}" two_nodes.

Lemma echoed_by_b : match echoed with (_, Ok o) => executed_by o = name_b | _ => False end.
Proof. vm_compute. reflexivity. Qed.

Lemma two_nodes_keyed n m : two_nodes !! n = Some m → local_node_id m = n.
Proof.
  unfold two_nodes. rewrite lookup_insert. case_decide as Hn.
  - subst n. intros [= <-]. vm_compute. reflexivity.
  - intros [<- <-]%lookup_singleton_Some. vm_compute. reflexivity.
Qed.

Lemma two_nodes_a : two_nodes !! name_a = Some node_a.
Proof. exact (lookup_insert_eq _ _ _). Qed.

Lemma answer_is_executors_witness :
  match echoed with
  | (nodes', Ok o) => all_alike two_nodes nodes' ∧ ran two_nodes (executed_by o) "echo" "say" "{}" (outcome_payload o)
  | _ => False
  end.
Proof.
  pose proof echoed_by_b as Hok. destruct echoed as [nodes' [o|e]] eqn:He; [|exact Hok].
  destruct (answer_is_executors fresh_node everyone all_reached 1 name_a node_a "echo" "say" "{}" two_nodes nodes' o
    eq_refl two_nodes_keyed two_nodes_a He) as (Ha & Hr & _).
  exact (conj Ha Hr).
Defined.

Definition null_context : Value := toy_null.

Lemma zoom_listed : zoom Datatypes.id (λ m _, m) (in_storage ext_list) with_package = (after_list, Ok [stored_record]).
Proof. unfold zoom, Datatypes.id. by rewrite stored_listed. Qed.

