(* ===== verification/Json.v ===== *)
(** * JSON documents and typed reads (serde_json)

    What the LLM layer uses of serde_json beyond [Manifest]: the cases of a
    [Value], the text of a document, and reading a typed value. A type's
    [Deserialize] is a function of the document, written from the type's
    declaration and its serde attributes with the combinators below; the parsers
    themselves are third-party, and [JsonLaws] says how they treat a text that
    serde_json wrote. *)

From S2P Require Import Prelude.
From S2P Require Import Effects.
From S2P Require Import Tables.
From S2P Require Import ContentStores.
From S2P Require Import Manifest.

#[local] Open Scope string_scope.
#[local] Open Scope Z_scope.

Inductive View (V N : Type) : Type :=
| VNull
| VBool (b : bool)
| VNumber (n : N)
| VText (s : string)
| VArray (l : list V)
| VObject (m : gmap string V).
Arguments VNull {V N}.
Arguments VBool {V N} b.
Arguments VNumber {V N} n.
Arguments VText {V N} s.
Arguments VArray {V N} l.
Arguments VObject {V N} m.

Class Json `{!Formats} := {
  Number : Type;
  F32 : Type;
  number_u64 : Number → option Z;
  number_f32 : Number → F32;
  view : Value → View Value Number;
  null : Value;
  boolean : bool → Value;
  float : F32 → Value;
  array : list Value → Value;
  (* Value::to_string *)
  to_string : Value → string;
  (* serde_json::to_vec of a T, given T's Serialize *)
  to_vec {T} : (T → Value) → T → result bytes string;
  (* serde_json::from_slice::<T>, from_str::<T>, from_value::<T>, given T's Deserialize *)
  from_slice {T} : (Value → option T) → bytes → result T string;
  from_value {T} : (Value → option T) → Value → result T string;
}.

(** ** Reading *)

Section reads.
Context `{!Formats, !Json}.

Definition as_array (v : Value) : option (list Value) := match view v with VArray l => Some l | _ => None end.
Definition as_u64 (v : Value) : option Z := match view v with VNumber n => number_u64 n | _ => None end.
Definition read_text (v : Value) : option string := match view v with VText s => Some s | _ => None end.
Definition read_f32 (v : Value) : option F32 := match view v with VNumber n => Some (number_f32 n) | _ => None end.
Definition read_any (v : Value) : option Value := Some v.

(** [u16] and [u32] *)
Definition read_unsigned (max : Z) (v : Value) : option Z :=
  match as_u64 v with Some n => if decide (n ≤ max) then Some n else None | None => None end.
Definition u16_max : Z := 2 ^ 16 - 1.
Definition u32_max : Z := 2 ^ 32 - 1.

(** [Option<T>] *)
Definition read_option {T} (read : Value → option T) (v : Value) : option (option T) :=
  match view v with VNull => Some None | _ => Some <$> read v end.

(** [Vec<T>] *)
Fixpoint all_some {T} (l : list (option T)) : option (list T) :=
  match l with
  | [] => Some []
  | Some t :: l => cons t <$> all_some l
  | None :: _ => None
  end.
Definition read_list {T} (read : Value → option T) (v : Value) : option (list T) :=
  match as_array v with Some l => all_some (read <$> l) | None => None end.

(** [BTreeMap<String, T>] *)
Definition read_map {T} (read : Value → option T) (v : Value) : option (gmap string T) :=
  match view v with
  | VObject m => if bool_decide (map_Forall (λ _ v, is_Some (read v)) m) then Some (omap read m) else None
  | _ => None
  end.

(** The fields of a struct: an object's by name, or an array's in the order of
    declaration, with none to spare. *)
Inductive Members : Type := Named (m : gmap string Value) | Ordered (l : list Value).

Definition members (fields : nat) (v : Value) : option Members :=
  match view v with
  | VObject m => Some (Named m)
  | VArray l => if decide (length l ≤ fields)%nat then Some (Ordered l) else None
  | _ => None
  end.

(** The field called [k], the [n]th from 0. *)
Definition member (m : Members) (n : nat) (k : string) : option Value :=
  match m with Named m => m !! k | Ordered l => l !! n end.

Definition required_field {T} (read : Value → option T) (m : Members) (n : nat) (k : string) : option T :=
  match member m n k with Some v => read v | None => None end.

(** [#\[serde(default)\]] *)
Definition default_field {T} (d : T) (read : Value → option T) (m : Members) (n : nat) (k : string) : option T :=
  match member m n k with Some v => read v | None => Some d end.

(** An [Option] without attribute may be left out of an object only. *)
Definition option_field {T} (read : Value → option T) (m : Members) (n : nat) (k : string) : option (option T) :=
  match m with
  | Named _ => default_field None (read_option read) m n k
  | Ordered _ => required_field (read_option read) m n k
  end.

(** A fieldless enum: a variant's name, or the object of that name and [null]. *)
Definition read_enum {T} (variant : string → option T) (v : Value) : option T :=
  match view v with
  | VText s => variant s
  | VObject m =>
      match map_to_list m with
      | [(k, w)] => match view w with VNull => variant k | _ => None end
      | _ => None
      end
  | _ => None
  end.

(** ** Writing *)

(** An object with a member that is left out when there is no value. *)
Definition with_some (k : string) (v : option Value) (m : gmap string Value) : gmap string Value :=
  match v with Some v => <[k := v]> m | None => m end.
Definition or_null (v : option Value) : Value := default null v.
End reads.
Arguments Members {_}.

(** ** What serde_json promises *)

(** A text that reads as the document [v], whatever the type it is read at. *)
Definition text_of `{!Formats, !Json} (v : Value) (b : bytes) : Prop :=
  value_from b = Ok v ∧ ∀ T (read : Value → option T) t, from_slice read b = Ok t ↔ read v = Some t.

(** The text of a document reads back when the document nests within the
    parser's limit and its numbers print exactly: [portable n v] bounds the
    nesting by [n]. *)
Definition RECURSION_LIMIT : nat := 127.

Class JsonLaws `{!Formats, !Json} := {
  as_object_view v : as_object v = match view v with VObject m => Some m | _ => None end;
  as_text_view v : as_text v = match view v with VText s => Some s | _ => None end;
  is_null_view v : is_null v = match view v with VNull => true | _ => false end;
  view_null : view null = VNull;
  view_boolean b : view (boolean b) = VBool b;
  view_text s : view (text s) = VText s;
  view_array l : view (array l) = VArray l;
  view_object m : view (object m) = VObject m;
  view_number n : 0 ≤ n ≤ u64_max → ∃ N, view (number n) = VNumber N ∧ number_u64 N = Some n;
  number_u64_range N n : number_u64 N = Some n → 0 ≤ n ≤ u64_max;
  view_float f : (∃ N, view (float f) = VNumber N ∧ number_f32 N = f) ∨ view (float f) = VNull;
  portable : nat → Value → Prop;
  portable_le n m v : (n ≤ m)%nat → portable n v → portable m v;
  portable_null : portable 0 null;
  portable_boolean b : portable 0 (boolean b);
  portable_text s : portable 0 (text s);
  portable_number n : 0 ≤ n ≤ u64_max → portable 0 (number n);
  portable_array n l : Forall (portable n) l → portable (S n) (array l);
  portable_object n m : map_Forall (λ _, portable n) m → portable (S n) (object m);
  written v : value_json v = Ok (to_string v);
  read_back v : portable RECURSION_LIMIT v → text_of v (to_string v);
  encoded {T} (write : T → Value) t : portable RECURSION_LIMIT (write t) → ∃ b, to_vec write t = Ok b ∧ text_of (write t) b;
  from_slice_some {T} (read : Value → option T) b t : from_slice read b = Ok t → ∃ v, read v = Some t;
  typed_value {T} (read : Value → option T) v t : from_value read v = Ok t ↔ read v = Some t;
}.

(** ** Documents and reads *)

Section json_lemmas.
Context `{!Formats, !Json, !JsonLaws}.

Lemma lookup_with_some k v m k' :
  with_some k v m !! k' = if decide (k = k') then match v with Some v => Some v | None => m !! k' end else m !! k'.
Proof.
  destruct v as [v|]; cbn; [|by case_decide].
  case_decide; subst; [by rewrite lookup_insert_eq|by rewrite lookup_insert_ne].
Qed.

Lemma members_object n m : members n (object m) = Some (Named m).
Proof. unfold members. by rewrite view_object. Qed.

Lemma read_text_text s : read_text (text s) = Some s.
Proof. unfold read_text. by rewrite view_text. Qed.

Lemma read_unsigned_number max n : max ≤ u64_max → 0 ≤ n ≤ max → read_unsigned max (number n) = Some n.
Proof.
  intros Hm Hn. unfold read_unsigned, as_u64. destruct (view_number n) as (N & -> & ->); [lia|].
  rewrite decide_True; [done|lia].
Qed.

Lemma read_unsigned_range max v n : read_unsigned max v = Some n → 0 ≤ n ≤ max.
Proof.
  unfold read_unsigned, as_u64. destruct (view v); try done. destruct (number_u64 _) as [k|] eqn:Hk; [|done].
  case_decide; [|done]. intros [= <-]. apply number_u64_range in Hk. lia.
Qed.

Lemma read_option_some {T} (read : Value → option T) v :
  view v ≠ VNull → read_option read v = Some <$> read v.
Proof. unfold read_option. by destruct (view v). Qed.

Lemma read_option_text s : read_option read_text (text s) = Some (Some s).
Proof. rewrite read_option_some; [by rewrite read_text_text|by rewrite view_text]. Qed.

Lemma read_option_unsigned max n :
  max ≤ u64_max → 0 ≤ n ≤ max → read_option (read_unsigned max) (number n) = Some (Some n).
Proof.
  intros Hm Hn. rewrite read_option_some; [by rewrite read_unsigned_number|].
  destruct (view_number n) as (N & -> & _); [lia|done].
Qed.

Lemma read_option_object {T} (read : Value → option T) m : read_option read (object m) = Some <$> read (object m).
Proof. apply read_option_some. by rewrite view_object. Qed.

Lemma all_some_Some {T} (l : list T) : all_some (Some <$> l) = Some l.
Proof. induction l as [|x l IH]; cbn; [done|]. by rewrite IH. Qed.

Lemma all_some_elem {T} (l : list (option T)) r : all_some l = Some r → l = Some <$> r.
Proof.
  revert r. induction l as [|[x|] l IH]; intros r; cbn; [by intros [= <-]| |done].
  destruct (all_some l) as [r'|]; cbn; [|done]. intros [= <-]. cbn. f_equal. by apply IH.
Qed.

Lemma read_map_object {T} (read : Value → option T) (write : T → Value) m :
  (∀ t, read (write t) = Some t) → read_map read (object (write <$> m)) = Some m.
Proof.
  intros Hr. unfold read_map. rewrite view_object, bool_decide_eq_true_2.
  - f_equal. apply map_eq. intros k. rewrite lookup_omap, lookup_fmap. destruct (m !! k); cbn; by rewrite ?Hr.
  - apply map_Forall_lookup. intros k v. rewrite lookup_fmap. destruct (m !! k); cbn; [|done]. intros [= <-]. by rewrite Hr.
Qed.

(** A list is read element by element. *)
Lemma read_list_array {A T} (read : Value → option T) (write : A → Value) (f : A → option T) l :
  (∀ x, x ∈ l → read (write x) = f x) → read_list read (array (write <$> l)) = all_some (f <$> l).
Proof.
  intros Hf. unfold read_list, as_array. rewrite view_array, <- list_fmap_compose. f_equal.
  apply list_fmap_ext. intros i x Hx. apply Hf. by apply list_elem_of_lookup_2 in Hx.
Qed.

Lemma read_list_Forall {T} (read : Value → option T) (P : T → Prop) v l :
  (∀ w x, read w = Some x → P x) → read_list read v = Some l → Forall P l.
Proof.
  intros Hp. unfold read_list. destruct (as_array v) as [ws|]; [|done]. intros Hl%all_some_elem.
  apply Forall_forall. intros x Hx. apply list_elem_of_lookup in Hx as [i Hi].
  assert ((Some <$> l) !! i = Some (Some x)) as Hs by (by rewrite list_lookup_fmap, Hi).
  rewrite <- Hl, list_lookup_fmap in Hs. destruct (ws !! i); [|done]. injection Hs as Hs. by eapply Hp.
Qed.

Lemma required_Some {T} (read : Value → option T) m n k x :
  required_field read m n k = Some x → ∃ v, member m n k = Some v ∧ read v = Some x.
Proof. unfold required_field. destruct (member m n k) as [v|]; [|done]. by exists v. Qed.

Lemma default_Some {T} d (read : Value → option T) m n k x :
  default_field d read m n k = Some x → x = d ∨ ∃ v, member m n k = Some v ∧ read v = Some x.
Proof. unfold default_field. destruct (member m n k) as [v|]; [|intros [= <-]; by left]. right. by exists v. Qed.

Lemma read_option_Some {T} (read : Value → option T) v x : read_option read v = Some (Some x) → read v = Some x.
Proof. unfold read_option. destruct (view v); try done; intros; destruct (read v); simplify_eq/=; done. Qed.

(** ** Portable documents *)

Lemma portable_insert n (k : string) v (m : gmap string Value) :
  portable n v → map_Forall (λ _, portable n) m → map_Forall (λ _, portable n) (<[k := v]> m).
Proof. intros. by apply map_Forall_insert_2. Qed.

Lemma portable_with_some n k v (m : gmap string Value) :
  from_option (portable n) True v → map_Forall (λ _, portable n) m → map_Forall (λ _, portable n) (with_some k v m).
Proof. destruct v; cbn; [apply portable_insert|done]. Qed.

Lemma portable_singleton n (k : string) v : portable n v → map_Forall (λ _, portable n) ({[k := v]} : gmap string Value).
Proof. intros. by apply map_Forall_singleton. Qed.

Lemma portable_texts n (m : gmap string string) : map_Forall (λ _, portable n) (text <$> m).
Proof.
  apply map_Forall_lookup. intros k v. rewrite lookup_fmap. destruct (m !! k); cbn; [|done].
  intros [= <-]. eapply portable_le; [|apply portable_text]. lia.
Qed.

Lemma portable_list {A} n (write : A → Value) l :
  (∀ x, x ∈ l → portable n (write x)) → portable (S n) (array (write <$> l)).
Proof.
  intros Hw. apply portable_array, Forall_fmap, Forall_forall. intros x Hx. by apply Hw.
Qed.
End json_lemmas.

(** Portability of a concrete document, from its shape. *)
Ltac portable_leaf :=
  first [ eapply portable_le; [|apply portable_text]; lia
        | eapply portable_le; [|apply portable_boolean]; lia
        | eapply portable_le; [|apply portable_number; unfold u16_max, u32_max, u64_max in *; lia]; lia
        | eapply portable_le; [|eassumption]; lia ].
Ltac portable_step :=
  match goal with
  | |- map_Forall _ _ => first [ apply portable_with_some; cbn | apply portable_singleton | apply portable_insert ]
  | |- portable _ (object _) => apply portable_object
  | |- portable _ (array _) => apply portable_list; intros
  | |- _ => portable_leaf
  end.

(** Read the members of a concrete object. *)
Ltac read_members :=
  rewrite ?members_object; cbn [mbind option_bind]; unfold required_field, default_field, member;
  repeat first [ rewrite lookup_with_some | rewrite lookup_insert_eq | rewrite lookup_insert_ne by done
               | rewrite lookup_singleton_eq | rewrite lookup_singleton_ne by done
               | rewrite decide_False by done | rewrite decide_True by done ];
  rewrite ?read_text_text, ?read_option_text; cbn [mbind option_bind].

(** ** Concrete documents

    The trees of [toy_formats], with booleans; numbers are integers. *)

Definition toy_view (v : ToyValue) : View ToyValue Z :=
  match v with
  | GenLeaf (inl s) => VText s
  | GenLeaf (inr n) => VNumber n
  | GenNode 0 [] => VNull
  | GenNode 1 l => VArray l
  | GenNode 2 l => VObject (list_to_map (omap toy_as_member l))
  | GenNode 4 _ => VBool true
  | GenNode 5 _ => VBool false
  | GenNode _ _ => VArray []
  end.

Definition toy_boolean (b : bool) : ToyValue := GenNode (if b then 4 else 5) [].
Definition toy_u64 (n : Z) : option Z := if decide (0 ≤ n ≤ u64_max) then Some n else None.
Definition toy_typed {T} (read : ToyValue → option T) (v : ToyValue) : result T string := ok_or (read v) "unexpected".

Definition toy_json : @Json toy_formats := {|
  Number := Z; F32 := Z; number_u64 := toy_u64; number_f32 := λ n, n;
  view := toy_view : @Value toy_formats → View (@Value toy_formats) Z;
  null := toy_null; boolean := toy_boolean; float := λ n, GenLeaf (inr n);
  array := GenNode 1; to_string := toy_write;
  to_vec := λ T write t, Ok (toy_write (write t));
  from_slice := λ T read b, let? v := @value_from toy_formats b in toy_typed read v;
  from_value := λ T read v, toy_typed read v;
|}.

Lemma toy_typed_Ok {T} (read : ToyValue → option T) v t : toy_typed read v = Ok t ↔ read v = Some t.
Proof. unfold toy_typed. destruct (read v); cbn; split; congruence. Qed.

Lemma toy_value_from (v : ToyValue) : @value_from toy_formats (toy_write v) = Ok v.
Proof.
  cbn. case_decide as He; [|apply toy_read_write]. unfold toy_write in He. by destruct (countable.encode v).
Qed.

Lemma toy_text_of v : @text_of toy_formats toy_json v (toy_write v).
Proof.
  split; [apply toy_value_from|]. intros T read t. change (@from_slice toy_formats toy_json T read (toy_write v))
    with (let? v := @value_from toy_formats (toy_write v) in toy_typed read v).
  rewrite toy_value_from. cbn. apply toy_typed_Ok.
Qed.

#[export] Instance toy_json_laws : @JsonLaws toy_formats toy_json.
Proof.
  refine {| portable := λ _ _, True |}; cbn; try done.
  - intros [[]|[|[|[|[|[|[|]]]]]] []]; done.
  - intros [[]|[|[|[|[|[|[|]]]]]] []]; done.
  - intros v. case_bool_decide as Hv; [by subst|].
    destruct v as [[]|[|[|[|[|[|[|]]]]]] []]; done.
  - by intros [].
  - intros m. by rewrite toy_as_members, list_to_map_to_list.
  - intros n Hn. exists n. split; [done|]. unfold toy_u64. by rewrite decide_True.
  - intros N n. unfold toy_u64. case_decide; [|done]. by intros [= <-].
  - intros f. left. by exists f.
  - intros v _. apply toy_text_of.
  - intros T write t _. eexists. split; [done|]. apply toy_text_of.
  - intros T read b t. destruct (if decide (b = "{}") then _ else _) as [v|]; cbn; [|done].
    intros Ht%toy_typed_Ok. by exists v.
  - intros T read v t. apply toy_typed_Ok.
Defined.
