(* ===== verification/Llm.v ===== *)
(** * LLM providers
    ([crates/extension/src/llm.rs], [crates/daemon/src/llm.rs])

    The typed requests and answers, the documents they travel as, the facade
    that calls an extension and reads its answer, and the router that finds the
    provider of the cluster. Each type has its document ([write_*], its
    [Serialize]) and its reader ([read_*], its [Deserialize]). *)

From S2P Require Import Prelude.
From S2P Require Import Effects.
From S2P Require Import Tables.
From S2P Require Import ContentStores.
From S2P Require Import Resources.
From S2P Require Import Manifest.
From S2P Require Import Json.
From S2P Require Import NodeProtocol.
From S2P Require Import Extensions.

#[local] Open Scope string_scope.
#[local] Open Scope Z_scope.

Definition CHAT_METHOD : string := "chat".
Definition EMBED_METHOD : string := "embed".
Definition MODELS_METHOD : string := "models".
Definition PROVIDES_LLM : string := "llm".

Inductive Role : Type := System | User | Assistant | Tool.

Record ChatMessage : Type := mkChat { cm_role : Role; cm_content : string }.

Record Usage : Type := mkUsage { prompt_tokens : Z; completion_tokens : Z; total_tokens : Z }.

Record Choice : Type := mkChoice { ch_index : Z; ch_message : ChatMessage; ch_finish_reason : string }.

Record ChatResponse : Type := mkResponse { cr_model : string; cr_choices : list Choice; cr_usage : option Usage }.

Record EmbedRequest : Type := mkEmbed { er_model : string; er_input : list string }.

Record WireError : Type := mkWire {
  we_message : string;
  we_type : string;
  we_code : option string;
  we_status : option Z;
}.

(** Errors of the typed layer. *)
Inductive LlmError : Type :=
| Provider (status : Z) (message : string)
| Unavailable (message : string)
| ExtensionFailed (error : ExtensionError)
| InvalidResponse (message : string).

Section wire.
Context `{!Formats, !Json}.

Record ChatRequest : Type := mkRequest {
  cq_model : string;
  cq_messages : list ChatMessage;
  cq_temperature : option F32;
  cq_max_tokens : option Z;
}.

Record Embedding : Type := mkEmbedding { em_index : Z; em_embedding : list F32 }.

Record EmbedResponse : Type := mkEmbedded { ed_data : list Embedding }.

(** ** Documents *)

Definition role_name (r : Role) : string :=
  match r with System => "system" | User => "user" | Assistant => "assistant" | Tool => "tool" end.

Definition role_named (s : string) : option Role :=
  find (λ r, bool_decide (role_name r = s)) [System; User; Assistant; Tool].

Definition read_role : Value → option Role := read_enum role_named.

Definition write_message (m : ChatMessage) : Value :=
  object (<["role" := text (role_name (cm_role m))]> {["content" := text (cm_content m)]}).

Definition read_message (v : Value) : option ChatMessage :=
  m ← members 2 v;
  role ← required_field read_role m 0 "role";
  content ← required_field read_text m 1 "content";
  Some (mkChat role content).

Definition write_request (r : ChatRequest) : Value :=
  object (with_some "temperature" (float <$> cq_temperature r)
           (with_some "max_tokens" (number <$> cq_max_tokens r)
             (<["model" := text (cq_model r)]> {["messages" := array (write_message <$> cq_messages r)]}))).

Definition read_request (v : Value) : option ChatRequest :=
  m ← members 4 v;
  model ← required_field read_text m 0 "model";
  messages ← required_field (read_list read_message) m 1 "messages";
  temperature ← default_field None (read_option read_f32) m 2 "temperature";
  max_tokens ← default_field None (read_option (read_unsigned u32_max)) m 3 "max_tokens";
  Some (mkRequest model messages temperature max_tokens).

Definition write_usage (u : Usage) : Value :=
  object (<["prompt_tokens" := number (prompt_tokens u)]> (<["completion_tokens" := number (completion_tokens u)]>
           {["total_tokens" := number (total_tokens u)]})).

Definition read_usage (v : Value) : option Usage :=
  m ← members 3 v;
  prompt ← required_field (read_unsigned u32_max) m 0 "prompt_tokens";
  completion ← required_field (read_unsigned u32_max) m 1 "completion_tokens";
  total ← required_field (read_unsigned u32_max) m 2 "total_tokens";
  Some (mkUsage prompt completion total).

Definition write_choice (c : Choice) : Value :=
  object (<["index" := number (ch_index c)]> (<["message" := write_message (ch_message c)]>
           {["finish_reason" := text (ch_finish_reason c)]})).

Definition read_choice (v : Value) : option Choice :=
  m ← members 3 v;
  index ← required_field (read_unsigned u32_max) m 0 "index";
  message ← required_field read_message m 1 "message";
  finish_reason ← required_field read_text m 2 "finish_reason";
  Some (mkChoice index message finish_reason).

Definition write_response (r : ChatResponse) : Value :=
  object (with_some "usage" (write_usage <$> cr_usage r)
           (<["model" := text (cr_model r)]> {["choices" := array (write_choice <$> cr_choices r)]})).

Definition read_response (v : Value) : option ChatResponse :=
  m ← members 3 v;
  model ← required_field read_text m 0 "model";
  choices ← required_field (read_list read_choice) m 1 "choices";
  usage ← default_field None (read_option read_usage) m 2 "usage";
  Some (mkResponse model choices usage).

Definition write_embed_request (r : EmbedRequest) : Value :=
  object (<["model" := text (er_model r)]> {["input" := array (text <$> er_input r)]}).

Definition read_embedding (v : Value) : option Embedding :=
  m ← members 2 v;
  index ← required_field (read_unsigned u32_max) m 0 "index";
  embedding ← required_field (read_list read_f32) m 1 "embedding";
  Some (mkEmbedding index embedding).

Definition read_embed_response (v : Value) : option EmbedResponse :=
  m ← members 1 v;
  data ← required_field (read_list read_embedding) m 0 "data";
  Some (mkEmbedded data).

Definition write_wire_error (e : WireError) : Value :=
  object (with_some "code" (text <$> we_code e) (with_some "status" (number <$> we_status e)
           (<["message" := text (we_message e)]> {["type" := text (we_type e)]}))).

Definition read_wire_error (v : Value) : option WireError :=
  m ← members 4 v;
  message ← required_field read_text m 0 "message";
  kind ← required_field read_text m 1 "type";
  code ← default_field None (read_option read_text) m 2 "code";
  status ← default_field None (read_option (read_unsigned u16_max)) m 3 "status";
  Some (mkWire message kind code status).

(** [WireError::new], and [WireError::to_payload] *)
Definition wire_error (kind message : string) : WireError := mkWire message kind None None.

Definition write_envelope (e : WireError) : Value := object {["error" := write_wire_error e]}.

Definition read_envelope (v : Value) : option WireError :=
  m ← members 1 v;
  required_field read_wire_error m 0 "error".

Definition to_payload (e : WireError) : bytes :=
  match to_vec write_envelope e with Ok b => b | Err _ => "{}" end.

Definition from_wire_error (payload : bytes) : option LlmError :=
  match from_slice read_envelope payload with
  | Ok e => Some (Provider (default 0 (we_status e)) (we_message e))
  | Err _ => None
  end.

Definition to_wire {T} (write : T → Value) (t : T) : result bytes LlmError :=
  map_err (λ err, InvalidResponse ("failed to encode the wire payload: " +:+ err)) (to_vec write t).

Definition from_wire {T} (read : Value → option T) (b : bytes) : result T LlmError :=
  map_err (λ err, InvalidResponse ("failed to decode the wire payload: " +:+ err)) (from_slice read b).

(** The document of the [models] method, and its entries. *)
Definition read_model_entry (v : Value) : option string :=
  m ← members 1 v;
  required_field read_text m 0 "id".

Definition read_models (v : Value) : option (list string) :=
  m ← members 1 v;
  required_field (read_list read_model_entry) m 0 "data".
End wire.

(** ** The facade *)

Section facade.
Context `{!Formats, !Json, !ManagerTexts}.

Definition map_manager_error (error : ExtensionManagerError) : LlmError :=
  match error with
  | NotServed _ | AllFailed _ _ _ | NotRunning _ => Unavailable (manager_text error)
  | FromEngine error => ExtensionFailed error
  | _ => ExtensionFailed (Engine (manager_text error))
  end.

(** [ExtensionManager::invoke], over the state [T] a call acts on. *)
Context {T : Type} (invoke : string → string → bytes → option string → M T ExtensionManagerError InvokeOutcome).
Context (extension_id : string).

Definition invoke_wire (method : string) (payload : bytes) : M T LlmError bytes :=
  let! outcome := with_err map_manager_error (invoke extension_id method payload None) in
  match from_wire_error (outcome_payload outcome) with
  | Some error => raise error
  | None => ret (outcome_payload outcome)
  end.

(** The methods of [LlmProvider]. *)
Definition chat (request : ChatRequest) : M T LlmError ChatResponse :=
  let! payload := lift (to_wire write_request request) in
  let! output := invoke_wire CHAT_METHOD payload in
  lift (from_wire read_response output).

Definition embed (request : EmbedRequest) : M T LlmError EmbedResponse :=
  let! payload := lift (to_wire write_embed_request request) in
  let! output := invoke_wire EMBED_METHOD payload in
  lift (from_wire read_embed_response output).

Definition models : M T LlmError (list string) :=
  let! output := invoke_wire MODELS_METHOD "{}" in
  lift (from_wire read_models output).
End facade.

(** ** The router *)

Section router.
Context `{!Formats, !Redb, !Postcard ExtensionRecord} (storage_text : ExtensionStorageError → string).

(** The id of a record whose manifest provides the contract. *)
Definition llm_provider (record : ExtensionRecord) : option string :=
  match from_map (ex_manifest record) with
  | Ok manifest => if existsb (λ p, bool_decide (p = PROVIDES_LLM)) (provides manifest) then Some (ex_id record) else None
  | Err _ => None
  end.

Fixpoint join (separator : string) (l : list string) : string :=
  match l with
  | [] => ""
  | [s] => s
  | s :: l => s +:+ separator +:+ join separator l
  end.

(** [LlmRouter::default_provider], up to the extension it names. *)
Definition default_provider : M (Store Database) LlmError string :=
  let! records := with_err (λ error, ExtensionFailed (Engine ("failed to list extension records: " +:+ storage_text error)))
                    ext_list in
  match sort_by_key id (omap llm_provider records) with
  | [] => raise (Unavailable "no llm provider registered")
  | [id] => ret id
  | providers =>
      raise (Unavailable ("ambiguous llm providers: " +:+ join ", " providers
                          +:+ "; select one explicitly with LlmRouter::provider"))
  end.
End router.
