(* ===== verification/Openai.v ===== *)
(** * The OpenAI guest ([extensions/openai/src/], [crates/extguest/src/])

    The provider extension and the shims it is exported through: the settings it
    is configured with, the HTTP request it makes of a call, the answer it makes
    of the provider's. It runs in a store of its own, whose state is the cell of
    its settings beside that of the host, [Outer]; [http] is the [lycoris.http] import
    with the bytes the guest reads back ([None] when the call never returns to the
    guest: it ran out of time, or trapped). What an export ends in is bytes, or a
    trap with the message it logged. *)

From Stdlib Require Import Ascii.
From S2P Require Import Prelude.
From S2P Require Import ContentStores.
From S2P Require Import Effects.
From S2P Require Import Tables.
From S2P Require Import Manifest.
From S2P Require Import Http.
From S2P Require Import Wasm.
From S2P Require Import Json.

#[local] Open Scope string_scope.
#[local] Open Scope Z_scope.

(** ** The shims ([shim.rs]) *)

(** [n as u32 as i32] *)
Definition as_i32 (n : Z) : Z := let n := as_u32 n in if decide (n ≤ i32_max) then n else n - 2 ^ 32.

Definition shim_pack (ptr len : Z) : Z := as_i64 (Z.lor (Z.shiftl (as_u32 ptr) 32) (as_u32 len)).

Definition shim_unpack (packed : Z) : Z * Z :=
  let packed := packed mod 2 ^ 64 in
  (as_i32 (Z.shiftr packed 32), as_i32 (Z.land packed (2 ^ 32 - 1))).

(** [str::trim_end_matches] of a slash *)
Fixpoint trim_end_slashes (s : string) : string :=
  match s with
  | EmptyString => EmptyString
  | String c s =>
      match trim_end_slashes s with
      | EmptyString => if decide (c = "/"%char) then EmptyString else String c EmptyString
      | s => String c s
      end
  end.

(** What ends a handler early: a failure, which the export logs before it traps,
    or a host call that never returned. *)
Inductive Stop : Type := Failed (message : string) | Stopped.

Section guest.
Context `{!Formats, !Json}.

(** ** Settings ([provider.rs]) *)

Definition DEFAULT_BASE_URL : string := "https://api.openai.com/v1".

Record Settings : Type := mkSettings {
  api_key : string;
  base_url : string;
  organization : option string;
}.

Definition read_settings (v : Value) : option Settings :=
  m ← members 3 v;
  api_key ← required_field read_text m 0 "api_key";
  base_url ← default_field DEFAULT_BASE_URL read_text m 1 "base_url";
  organization ← default_field None (read_option read_text) m 2 "organization";
  Some (mkSettings api_key base_url organization).

Definition from_json (value : Value) : result Settings string :=
  let? settings := map_err (λ err, "invalid settings: " +:+ err) (from_value read_settings value) in
  if decide (api_key settings = "") then Err "settings.api_key must not be empty"
  else
    let base := trim_end_slashes (base_url settings) in
    if decide (base = "") then Err "settings.base_url must not be empty"
    else Ok (mkSettings (api_key settings) base (organization settings)).

(** ** Requests *)

Record HttpRequestSpec : Type := mkSpec {
  sp_method : string;
  sp_url : string;
  sp_headers : gmap string string;
  sp_body : option string;
}.

Definition to_json (s : HttpRequestSpec) : Value :=
  object (with_some "body" (text <$> sp_body s)
           (<["method" := text (sp_method s)]> (<["url" := text (sp_url s)]>
             {["headers" := object (text <$> sp_headers s)]}))).

Definition error_document (kind message : string) (code : option string) (status : option Z) : Value :=
  object {["error" := object (with_some "status" (number <$> status) (with_some "code" (text <$> code)
                               (<["message" := text message]> {["type" := text kind]})))]}.

Definition auth_headers (settings : Settings) : gmap string string :=
  let headers := <["authorization" := "Bearer " +:+ api_key settings]> {["content-type" := "application/json"]} in
  match organization settings with
  | Some organization => <["openai-organization" := organization]> headers
  | None => headers
  end.

Definition not_configured_document : Value := error_document "not_configured" "not configured" None (Some 0).

Definition chat_to_openai (request : Value) (settings : Settings) : result HttpRequestSpec string :=
  match as_object request with
  | None => Err "chat request must be a JSON object"
  | Some m =>
      Ok (mkSpec "POST" (base_url settings +:+ "/chat/completions") (auth_headers settings)
            (Some (to_string (object (<["stream" := boolean false]> m)))))
  end.

Definition embed_to_openai (request : Value) (settings : Settings) : result HttpRequestSpec string :=
  match as_object request with
  | None => Err "embed request must be a JSON object"
  | Some _ =>
      Ok (mkSpec "POST" (base_url settings +:+ "/embeddings") (auth_headers settings) (Some (to_string request)))
  end.

Definition models_to_openai (settings : Settings) : HttpRequestSpec :=
  mkSpec "GET" (base_url settings +:+ "/models") (auth_headers settings) None.

(** ** Answers *)

Record UpstreamErrorBody : Type := mkUpstream {
  ue_message : string;
  ue_type : option string;
  ue_code : option string;
}.

Definition read_upstream_body (v : Value) : option UpstreamErrorBody :=
  m ← members 3 v;
  message ← required_field read_text m 0 "message";
  kind ← default_field None (read_option read_text) m 1 "type";
  code ← default_field None (read_option read_text) m 2 "code";
  Some (mkUpstream message kind code).

Definition read_upstream_error (v : Value) : option UpstreamErrorBody :=
  m ← members 1 v;
  required_field read_upstream_body m 0 "error".

(** How an integer renders. *)
Context (decimal : Z → string).

Definition provider_error_document (status : Z) (body : string) : Value :=
  match from_slice read_upstream_error body with
  | Ok parsed => error_document (default "provider_error" (ue_type parsed)) (ue_message parsed) (ue_code parsed) (Some status)
  | Err _ =>
      error_document "provider_error" ("upstream returned status " +:+ decimal status +:+ ": " +:+ body) None (Some status)
  end.

Definition is_success (status : Z) : bool := bool_decide (200 ≤ status < 300).

Record CompletionMessage : Type := mkCompletionMessage { co_role : string; co_content : option string }.
Record CompletionChoice : Type := mkCompletionChoice {
  cc_index : Z;
  cc_message : CompletionMessage;
  cc_finish_reason : option string;
}.
Record CompletionUsage : Type := mkCompletionUsage { cu_prompt : Z; cu_completion : Z; cu_total : Z }.
Record Completion : Type := mkCompletion {
  cp_model : string;
  cp_choices : list CompletionChoice;
  cp_usage : option CompletionUsage;
}.

Definition read_completion_message (v : Value) : option CompletionMessage :=
  m ← members 2 v;
  role ← required_field read_text m 0 "role";
  content ← default_field None (read_option read_text) m 1 "content";
  Some (mkCompletionMessage role content).

Definition read_completion_choice (v : Value) : option CompletionChoice :=
  m ← members 3 v;
  index ← required_field (read_unsigned u32_max) m 0 "index";
  message ← required_field read_completion_message m 1 "message";
  finish_reason ← default_field None (read_option read_text) m 2 "finish_reason";
  Some (mkCompletionChoice index message finish_reason).

Definition read_completion_usage (v : Value) : option CompletionUsage :=
  m ← members 3 v;
  prompt ← required_field (read_unsigned u32_max) m 0 "prompt_tokens";
  completion ← required_field (read_unsigned u32_max) m 1 "completion_tokens";
  total ← required_field (read_unsigned u32_max) m 2 "total_tokens";
  Some (mkCompletionUsage prompt completion total).

Definition read_completion (v : Value) : option Completion :=
  m ← members 3 v;
  model ← required_field read_text m 0 "model";
  choices ← required_field (read_list read_completion_choice) m 1 "choices";
  usage ← default_field None (read_option read_completion_usage) m 2 "usage";
  Some (mkCompletion model choices usage).

Definition choice_document (c : CompletionChoice) : Value :=
  object (<["index" := number (cc_index c)]>
           (<["message" := object (<["role" := text (co_role (cc_message c))]>
                                    {["content" := text (default "" (co_content (cc_message c)))]})]>
             {["finish_reason" := text (default "" (cc_finish_reason c))]})).

Definition usage_document (u : CompletionUsage) : Value :=
  object (<["prompt_tokens" := number (cu_prompt u)]> (<["completion_tokens" := number (cu_completion u)]>
           {["total_tokens" := number (cu_total u)]})).

Definition completion_document (c : Completion) : Value :=
  object (with_some "usage" (usage_document <$> cp_usage c)
           (<["model" := text (cp_model c)]> {["choices" := array (choice_document <$> cp_choices c)]})).

Definition openai_to_chat (status : Z) (body : string) : result Value string :=
  if negb (is_success status) then Ok (provider_error_document status body)
  else
    let? completion := map_err (λ err, "upstream chat response is not a chat completion: " +:+ err)
                         (from_slice read_completion body) in
    Ok (completion_document completion).

Record EmbeddingData : Type := mkEmbeddingData { et_index : Z; et_embedding : Value }.

Definition read_embedding_data (v : Value) : option EmbeddingData :=
  m ← members 2 v;
  index ← required_field (read_unsigned u32_max) m 0 "index";
  embedding ← required_field read_any m 1 "embedding";
  Some (mkEmbeddingData index embedding).

Definition read_embeddings (v : Value) : option (list EmbeddingData) :=
  m ← members 1 v;
  required_field (read_list read_embedding_data) m 0 "data".

Definition embedding_document (e : EmbeddingData) : Value :=
  object (<["index" := number (et_index e)]> {["embedding" := et_embedding e]}).

Definition openai_to_embed (status : Z) (body : string) : result Value string :=
  if negb (is_success status) then Ok (provider_error_document status body)
  else
    let? data := map_err (λ err, "upstream embeddings response is off-contract: " +:+ err)
                   (from_slice read_embeddings body) in
    Ok (object {["data" := array (embedding_document <$> data)]}).

Definition read_model_data (v : Value) : option string :=
  m ← members 1 v;
  required_field read_text m 0 "id".

Definition read_model_list (v : Value) : option (list string) :=
  m ← members 1 v;
  required_field (read_list read_model_data) m 0 "data".

Definition openai_to_models (status : Z) (body : string) : result Value string :=
  if negb (is_success status) then Ok (provider_error_document status body)
  else
    let? data := map_err (λ err, "upstream models response is off-contract: " +:+ err)
                   (from_slice read_model_list body) in
    Ok (object {["data" := array ((λ i, object {["id" := text i]}) <$> data)]}).

(** ** The handler ([lib.rs]) *)

Context {Outer : Type} (http : bytes → Outer → Outer * option bytes).

Definition Guest : Type := option Settings * Outer.

(** [host::http]: the guest reads the host's answer, or could not ask. *)
Definition host_http (request : Value) : M Guest Stop (result Value string) := λ '(cell, h),
  match value_json request with
  | Err err => ((cell, h), Ok (Err ("failed to encode the http request document: " +:+ err)))
  | Ok request =>
      if decide (Z.of_nat (String.length request) > i32_max)
      then ((cell, h), Ok (Err "http request document exceeds the guest addressable size"))
      else
        match http request h with
        | (h, None) => ((cell, h), Err Stopped)
        | (h, Some body) =>
            ((cell, h), Ok (map_err (λ err, "http response is not valid JSON: " +:+ err) (value_from body)))
        end
  end.

(** [Value::get] *)
Definition get_member (k : string) (v : Value) : option Value := m ← as_object v; m !! k.

Definition status_of (response : Value) : option Z :=
  status ← get_member "status" response; read_unsigned u16_max status.
Definition body_of (response : Value) : string := default "" (b ← get_member "body" response; as_text b).

(** [execute], from the host's answer on. *)
Definition answered (to_wire : Z → string → result Value string) (response : result Value string) : Value :=
  match response with
  | Err message => error_document "transport" message None None
  | Ok response =>
      if get_member "error" response then response
      else
        match status_of response with
        | None => error_document "invalid_response" "the host http response carries no status" None None
        | Some status =>
            match to_wire status (body_of response) with
            | Ok document => document
            | Err message => error_document "invalid_response" message None (Some status)
            end
        end
  end.

Definition execute_spec (spec : HttpRequestSpec) (to_wire : Z → string → result Value string) : M Guest Stop Value :=
  let! response := host_http (to_json spec) in
  ret (answered to_wire response).

Definition with_settings (f : Settings → M Guest Stop Value) : M Guest Stop Value := λ g,
  match g.1 with
  | Some settings => f settings g
  | None => (g, Ok not_configured_document)
  end.

Definition configure (payload : Value) : M Guest Stop Value := λ '(cell, h),
  match from_json payload with
  | Ok settings => ((Some settings, h), Ok (object ∅))
  | Err message => ((cell, h), Err (Failed message))
  end.

Definition guest_chat (payload : Value) : M Guest Stop Value :=
  with_settings (λ settings,
    match chat_to_openai payload settings with
    | Err message => ret (error_document "invalid_request" message None None)
    | Ok spec => execute_spec spec openai_to_chat
    end).

Definition guest_embed (payload : Value) : M Guest Stop Value :=
  with_settings (λ settings,
    match embed_to_openai payload settings with
    | Err message => ret (error_document "invalid_request" message None None)
    | Ok spec => execute_spec spec openai_to_embed
    end).

Definition guest_models : M Guest Stop Value :=
  with_settings (λ settings, execute_spec (models_to_openai settings) openai_to_models).

Definition handler (method : string) (payload : Value) : M Guest Stop Value :=
  if decide (method = "configure") then configure payload
  else if decide (method = "chat") then guest_chat payload
  else if decide (method = "embed") then guest_embed payload
  else if decide (method = "models") then guest_models
  else raise (Failed ("unknown method: " +:+ method)).

(** [shim::dispatch], and what [shim::run] makes of it. *)
Definition dispatch (utf8_error : bytes → string) (method : bytes) (payload : bytes) : M Guest Stop bytes :=
  let! _ := lift (if is_utf8 method then Ok tt
                  else Err (Failed ("method name is not valid UTF-8: " +:+ utf8_error method))) in
  let! payload := lift (map_err (λ err, Failed ("request payload is not valid JSON: " +:+ err)) (value_from payload)) in
  let! response := handler method payload in
  lift (map_err (λ err, Failed ("failed to encode the response payload: " +:+ err)) (value_json response)).
End guest.

(** ** The host reads a request

    The [Deserialize] of [Request] in [crates/extension/src/http.rs], which
    [Reqwest] leaves open, and that [request_from] is its parser. *)

Definition read_http_request `{!Formats, !Json} (v : Value) : option HttpRequest :=
  m ← members 4 v;
  method ← required_field read_text m 0 "method";
  url ← required_field read_text m 1 "url";
  headers ← default_field ∅ (read_map read_text) m 2 "headers";
  body ← option_field read_text m 3 "body";
  Some (mkRequest method url headers body).

Class RequestLaws `{!Formats, !Json, !Reqwest} : Prop :=
  request_read b r : request_from b = Ok r ↔ from_slice read_http_request b = Ok r.
