(* ===== verification/LlmTheorems.v ===== *)
(** * What an LLM call achieves

    Theorems about the LLM layer: what a typed call returns given what the
    provider answered, through the facade of [Llm], the guest of [Openai] and the
    host's HTTP capability of [Http]; where the key of the provider may go; what
    the router resolves; the shims against the host's ABI. *)

From Stdlib Require Import Ascii.
From S2P Require Import Prelude.
From S2P Require Import Effects.
From S2P Require Import Versioned.
From S2P Require Import Tables.
From S2P Require Import NodeStores.
From S2P Require Import ContentStores.
From S2P Require Import Resources.
From S2P Require Import Register.
From S2P Require Import Membership.
From S2P Require Import Merkle.
From S2P Require Import MerkleDiff.
From S2P Require Import Swim.
From S2P Require Import Service.
From S2P Require Import Identity.
From S2P Require Import NodeProtocol.
From S2P Require Import Manifest.
From S2P Require Import Http.
From S2P Require Import Engine.
From S2P Require Import Wasm.
From S2P Require Import WasmTheorems.
From S2P Require Import Engines.
From S2P Require Import Extensions.
From S2P Require ResourceTheorems.
From S2P Require ExtensionTheorems.
From S2P Require Import Json.
From S2P Require Import Llm.
From S2P Require Import Openai.

#[local] Open Scope string_scope.
#[local] Open Scope Z_scope.

(** ** What the guest makes of a completion *)

Section documents.
Context `{!Formats, !Json, !JsonLaws}.

Definition in_u32 (n : Z) : Prop := 0 ≤ n ≤ u32_max.

Definition usage_of (u : CompletionUsage) : Usage := mkUsage (cu_prompt u) (cu_completion u) (cu_total u).

(** A choice as the host types it; only the roles of [Role] have a type. *)
Definition choice_of (c : CompletionChoice) : option Choice :=
  role ← role_named (co_role (cc_message c));
  Some (mkChoice (cc_index c) (mkChat role (default "" (co_content (cc_message c)))) (default "" (cc_finish_reason c))).

Definition response_of (c : Completion) : option ChatResponse :=
  choices ← all_some (choice_of <$> cp_choices c);
  Some (mkResponse (cp_model c) choices (usage_of <$> cp_usage c)).

(** Its numbers are of their types. *)
Definition usage_typed (u : CompletionUsage) : Prop :=
  in_u32 (cu_prompt u) ∧ in_u32 (cu_completion u) ∧ in_u32 (cu_total u).
Definition completion_typed (c : Completion) : Prop :=
  Forall (λ c, in_u32 (cc_index c)) (cp_choices c) ∧ from_option usage_typed True (cp_usage c).

Lemma read_completion_typed v c : read_completion v = Some c → completion_typed c.
Proof.
  unfold read_completion. intros Hr. simplify_option_eq. split; cbn.
  - match goal with Hc : required_field _ _ 1 _ = Some _ |- _ => apply required_Some in Hc as (w & _ & Hc); revert Hc end.
    apply read_list_Forall. intros x y. unfold read_completion_choice. intros Hx. simplify_option_eq.
    match goal with Hi : required_field _ _ 0 _ = Some _ |- _ => apply required_Some in Hi as (? & _ & Hi) end.
    by eapply read_unsigned_range.
  - match goal with Hu : default_field _ _ _ _ _ = Some ?u |- _ => destruct u as [u|]; [|done]; apply default_Some in Hu as [?|(w & _ & Hu)]; [done|] end.
    match goal with Hu : read_option _ _ = _ |- _ => apply read_option_Some in Hu; revert Hu end.
    unfold read_completion_usage. intros Hu. simplify_option_eq.
    repeat match goal with Hf : required_field (read_unsigned _) _ _ _ = Some _ |- _ =>
      apply required_Some in Hf as (? & _ & Hf%read_unsigned_range) end. by split_and!.
Qed.

Lemma read_role_text s : read_role (text s) = role_named s.
Proof. unfold read_role, read_enum. by rewrite view_text. Qed.

Lemma u32_fits n : in_u32 n → read_unsigned u32_max (number n) = Some n.
Proof. intros. by apply read_unsigned_number. Qed.

Lemma read_choice_document c : in_u32 (cc_index c) → read_choice (choice_document c) = choice_of c.
Proof.
  intros Hi. unfold choice_document, read_choice. read_members. rewrite u32_fits by done. cbn [mbind option_bind].
  unfold read_message. read_members. rewrite read_role_text. unfold choice_of.
  destruct (role_named _); [|done]. by read_members.
Qed.

Lemma read_usage_document u : usage_typed u → read_usage (usage_document u) = Some (usage_of u).
Proof.
  intros (H1' & H2' & H3'). unfold usage_document, read_usage. read_members. rewrite u32_fits by done. cbn [mbind option_bind].
  by rewrite !u32_fits.
Qed.

Lemma read_completion_document c : completion_typed c → read_response (completion_document c) = response_of c.
Proof.
  intros [Hc Hu]. unfold completion_document, read_response. read_members.
  rewrite (read_list_array read_choice choice_document choice_of).
  2: { intros x Hx. apply read_choice_document. by apply (proj1 (Forall_forall _ _) Hc). }
  unfold response_of. destruct (all_some _); [|done]. cbn [mbind option_bind].
  destruct (cp_usage c) as [u|]; cbn; [|done].
  unfold usage_document at 1. rewrite read_option_object. fold (usage_document u). by rewrite read_usage_document.
Qed.

(** A document with no member [error] is not an error. *)
Lemma no_error_member m : m !! "error" = None → read_envelope (object m) = None.
Proof. intros He. unfold read_envelope. rewrite members_object. cbn. unfold required_field, member. by rewrite He. Qed.

Definition status_typed (s : option Z) : Prop := from_option (λ n, 0 ≤ n ≤ u16_max) True s.

Lemma read_error_document kind message code status :
  status_typed status →
  read_envelope (error_document kind message code status) = Some (mkWire message kind code status).
Proof.
  intros Hs. unfold error_document, read_envelope. read_members. unfold read_wire_error. read_members.
  assert ((match code with Some s => read_option read_text (text s) | None => Some None end) = Some code) as Hc.
  { destruct code; [apply read_option_text|done]. }
  destruct code as [code|], status as [status|]; cbn -[read_option]; rewrite ?read_option_text; cbn -[read_option];
    rewrite ?read_option_unsigned by done; done.
Qed.

(** ** Portability *)

Lemma portable_error_document kind message code status :
  status_typed status → portable 2 (error_document kind message code status).
Proof.
  intros Hs. unfold error_document, status_typed in *. destruct status, code; cbn [from_option fmap option_fmap option_map with_some] in *;
    repeat portable_step.
Qed.

Lemma portable_choice_document c : in_u32 (cc_index c) → portable 3 (choice_document c).
Proof.
  unfold in_u32. intros Hi. unfold choice_document. apply portable_object, portable_insert; [portable_leaf|].
  apply portable_insert; [|repeat portable_step]. eapply (portable_le 1); [lia|]. repeat portable_step.
Qed.

Lemma portable_usage_document u : usage_typed u → portable 1 (usage_document u).
Proof. intros (H1' & H2' & H3'). unfold in_u32, usage_document in *. repeat portable_step. Qed.

Lemma portable_completion_document c : completion_typed c → portable 5 (completion_document c).
Proof.
  intros [Hc Hu]. unfold completion_document. apply portable_object, portable_with_some.
  - destruct (cp_usage c) as [u|]; cbn in *; [|done]. eapply portable_le; [|by apply portable_usage_document]. lia.
  - apply portable_insert; [portable_leaf|]. apply portable_singleton, portable_list. intros x Hx.
    apply portable_choice_document. by apply (proj1 (Forall_forall _ _) Hc).
Qed.
End documents.

(** ** The guest and the host's HTTP capability *)

Section exchange.
Context `{!Formats, !Json, !JsonLaws, !Reqwest, !RequestLaws}.

Lemma read_spec s :
  read_http_request (to_json s) = Some (Http.mkRequest (sp_method s) (sp_url s) (sp_headers s) (sp_body s)).
Proof.
  unfold to_json, read_http_request. read_members. rewrite (read_map_object read_text text) by apply read_text_text.
  cbn [mbind option_bind]. unfold option_field, default_field, member. rewrite lookup_with_some, decide_True by done.
  by destruct (sp_body s); cbn [fmap option_fmap option_map]; [rewrite read_option_text|].
Qed.

Lemma portable_spec s : portable 2 (to_json s).
Proof.
  unfold to_json. apply portable_object, portable_with_some; [destruct (sp_body s); cbn; [portable_leaf|done]|].
  repeat portable_step. apply portable_texts.
Qed.

Lemma small_portable n v : (n ≤ RECURSION_LIMIT)%nat → portable n v → text_of v (to_string v).
Proof. intros Hn Hv. by apply read_back, (portable_le n). Qed.

Lemma request_of_spec s :
  request_from (to_string (to_json s)) = Ok (Http.mkRequest (sp_method s) (sp_url s) (sp_headers s) (sp_body s)).
Proof.
  apply request_read. destruct (small_portable 2 (to_json s)) as [_ Hs]; [unfold RECURSION_LIMIT; lia|apply portable_spec|].
  apply Hs, read_spec.
Qed.

Lemma failure_document f :
  text_of (error_document (hf_kind f) (hf_message f) None None) (document f).
Proof.
  unfold document. rewrite written. replace (object {["error" := _]}) with (error_document (hf_kind f) (hf_message f) None None).
  { eapply small_portable; [|by apply portable_error_document]. unfold RECURSION_LIMIT. lia. }
  unfold error_document. cbn [with_some fmap option_fmap option_map]. rewrite <- !insert_empty. by rewrite (insert_insert_ne _ "message" "type").
Qed.

(** What an exchange answers: the status and the text of the body. *)
Definition received (cut : option nat) (d : Delivery) : result (Z * string) Interruption :=
  if decide (cut = Some 0%nat) then Err Expired
  else
    match d with
    | Undelivered e => failure "transport" ("request failed: " +:+ e)
    | Answered status _ chunks =>
        let? body := read_body (pred <$> cut) EmptyString chunks in Ok (status, from_utf8_lossy body)
    end.

Definition reply_document (status : Z) (headers : gmap string string) (body : string) : Value :=
  object (<["status" := number status]> (<["headers" := object (text <$> headers)]> {["body" := text body]})).

Lemma last_wins_texts (l : list (string * bytes)) (m : gmap string string) :
  last_wins (text <$> m) ((λ h, (h.1, text (from_utf8_lossy h.2))) <$> l) =
    text <$> last_wins m ((λ h, (h.1, from_utf8_lossy h.2)) <$> l).
Proof. revert m. induction l as [|[k v] l IH]; intros m; cbn; [done|]. by rewrite <- IH, fmap_insert. Qed.

Lemma answer_received cut d :
  match received cut d with
  | Ok (status, body) => ∃ headers, answer_of cut d = Ok (to_string (reply_document status headers body))
  | Err i => answer_of cut d = Err i
  end.
Proof.
  unfold received, answer_of. case_decide; [done|]. destruct d as [e|status headers chunks]; [done|].
  destruct (read_body _ _ _) as [body|i]; cbn [result_bind]; [|done].
  exists (last_wins ∅ ((λ h, (h.1, from_utf8_lossy h.2)) <$> headers)). unfold response_document, reply_document.
  rewrite written. do 3 f_equal. f_equal. by rewrite <- last_wins_texts, fmap_empty.
Qed.

Lemma portable_reply status headers body : 0 ≤ status ≤ u16_max → portable 2 (reply_document status headers body).
Proof.
  intros Hs. unfold reply_document. apply portable_object, portable_insert; [portable_leaf|].
  apply portable_insert; [apply portable_object, portable_texts|]. apply portable_singleton. portable_leaf.
Qed.

Lemma get_member_object k m : get_member k (object m) = m !! k.
Proof. unfold get_member. by rewrite as_object_view, view_object. Qed.

Lemma answered_reply status headers body to_wire :
  0 ≤ status ≤ u16_max →
  answered to_wire (Ok (reply_document status headers body)) =
    match to_wire status body with
    | Ok document => document
    | Err message => error_document "invalid_response" message None (Some status)
    end.
Proof.
  intros Hs. unfold answered, status_of, body_of, reply_document. rewrite !get_member_object.
  rewrite (lookup_insert_ne _ "status" "error"), (lookup_insert_ne _ "headers" "error"), lookup_singleton_ne by done.
  rewrite lookup_insert_eq, (lookup_insert_ne _ "status" "body"), (lookup_insert_ne _ "headers" "body"), lookup_singleton_eq by done.
  cbn [mbind option_bind].
  rewrite read_unsigned_number by done. by rewrite as_text_view, view_text.
Qed.

Lemma answered_failure kind message to_wire :
  answered to_wire (Ok (error_document kind message None None)) = error_document kind message None None.
Proof. unfold answered, error_document. by rewrite get_member_object, lookup_singleton_eq. Qed.

Context (net : Internet) (timed : bool) (allow_hosts : option (list string)).
Hypothesis Hstatus : ∀ sent m status headers body,
  deliver net sent m = Answered status headers body → 0 ≤ status ≤ u16_max.

(** The import, as the host serves it. *)
Definition host_import (request : bytes) (sent : list HttpMessage) : list HttpMessage * option bytes :=
  execute net timed request allow_hosts sent.

(** What becomes of a request: the messages sent, and what was received. *)
Definition ask (s : HttpRequestSpec) (sent : list HttpMessage) : list HttpMessage * result (Z * string) Interruption :=
  match message_of (to_string (to_json s)) allow_hosts with
  | Err i => (sent, Err i)
  | Ok m => ((sent ++ [m])%list, received (if timed then expires net sent m else None) (deliver net sent m))
  end.

Definition too_long (s : HttpRequestSpec) : Prop := Z.of_nat (String.length (to_string (to_json s))) > i32_max.

(** The document the guest makes of it, or what stops it. *)
Definition told (to_wire : Z → string → result Value string) (r : result (Z * string) Interruption) : result Value Stop :=
  match r with
  | Ok (status, body) =>
      Ok match to_wire status body with
         | Ok document => document
         | Err message => error_document "invalid_response" message None (Some status)
         end
  | Err (Http.Failed f) => Ok (error_document (hf_kind f) (hf_message f) None None)
  | Err Expired => Err Stopped
  end.

Lemma execute_spec_asks s to_wire cell sent :
  ¬ too_long s →
  execute_spec host_import s to_wire (cell, sent) = ((cell, (ask s sent).1), told to_wire (ask s sent).2).
Proof.
  intros Hl. unfold execute_spec, bind, host_http. rewrite written. rewrite decide_False by done.
  unfold host_import, execute, execute_inner, bind, lift, ask, send. destruct (message_of _ _) as [m|[f|]]; cbn -[answered].
  - pose proof (answer_received (if timed then expires net sent m else None) (deliver net sent m)) as Ha.
    destruct (received _ _) as [[status body]|i] eqn:Hr; cbn -[answered] in *.
    + destruct Ha as [headers ->]. cbn -[answered].
      assert (0 ≤ status ≤ u16_max) as Hs.
      { unfold received in Hr. case_decide; [done|]. destruct (deliver net sent m) as [e|st hs chunks] eqn:Hd; [done|].
        destruct (read_body _ _ _); cbn in Hr; [|done]. injection Hr as <- _. by eapply Hstatus. }
      destruct (small_portable 2 (reply_document status headers body)) as [-> _];
        [unfold RECURSION_LIMIT; lia|by apply portable_reply|]. cbn. exact (f_equal (λ v, ((cell, (sent ++ [m])%list), Ok v)) (answered_reply status headers body to_wire Hs)).
    + rewrite Ha. destruct i as [f|]; cbn -[answered]; [|done]. destruct (failure_document f) as [-> _]. cbn -[answered error_document].
      exact (f_equal (λ v, ((cell, (sent ++ [m])%list), Ok v)) (answered_failure (hf_kind f) (hf_message f) to_wire)).
  - destruct (failure_document f) as [-> _]. cbn -[answered error_document].
    exact (f_equal (λ v, ((cell, sent), Ok v)) (answered_failure (hf_kind f) (hf_message f) to_wire)).
  - done.
Qed.
End exchange.

(** ** The guest behind the extension manager *)

Section call.
Context `{!Formats, !Json, !JsonLaws, !Reqwest, !RequestLaws}.
Context `{!HashIter, !MerkleShape, !Redb, !Hex, !ManagerTexts}.
Context (net : Internet) (timed : bool) (allow_hosts : option (list string)).
Context (trap : Stop → ExtensionError) (utf8_error : bytes → string) (decimal : Z → string).

Abbreviation HostedGuest := (Guest (Outer:=list HttpMessage)).

(** A node whose engine runs this guest: [trap] is what the engine reports of a
    guest that stopped. *)
Definition guest_invoke (method : string) (payload : bytes) : M HostedGuest ExtensionError bytes :=
  with_err trap (dispatch decimal (host_import net timed allow_hosts) utf8_error method payload).

#[local] Instance guest_engine : Engines HostedGuest unit := {|
  engine_load := λ _ _ settings, configure_instance guest_invoke settings;
  instance_invoke := λ _, guest_invoke;
|}.

Abbreviation Node := (ExtensionManager (W:=HostedGuest) (I:=unit)).

Context (rpc : string → ExtensionInvokeRequest → M Node ClientError InvokeOutcome) (targets : option (list string)).

Definition node_invoke (id method : string) (payload : bytes) (origin : option string)
    : M Node ExtensionManagerError InvokeOutcome :=
  Extensions.invoke (λ m, m) (λ m _, m) rpc targets id method payload origin.

Lemma from_slice_none {T} (read : Value → option T) v b :
  text_of v b → read v = None → ∃ e, from_slice read b = Err e.
Proof.
  intros [_ Ht] Hn. destruct (from_slice read b) as [t|e] eqn:Hs; [|by exists e].
  apply Ht in Hs. by rewrite Hn in Hs.
Qed.

(** What the facade gets from a call that runs here. *)
Definition delivered (r : result Value Stop) : result bytes LlmError :=
  match r with
  | Err stop => Err (ExtensionFailed (trap stop))
  | Ok v => match from_wire_error (to_string v) with Some e => Err e | None => Ok (to_string v) end
  end.

Lemma invoke_wire_local id method payload v m loaded w r :
  em_instances m !! id = Some loaded → value_from payload = Ok v → is_utf8 method = true →
  handler decimal (host_import net timed allow_hosts) method v (em_world m) = (w, r) →
  invoke_wire node_invoke id method payload m = (set_world w m, delivered r).
Proof.
  intros Hl Hv Hm Hh. unfold invoke_wire, node_invoke, bind, with_err, Extensions.invoke. rewrite Hl.
  unfold zoom, invoke_local. rewrite Hl. unfold with_err, in_world, zoom. cbn [instance_invoke guest_engine].
  unfold guest_invoke, with_err, dispatch, bind, lift. rewrite Hm, Hv. cbn [map_err]. rewrite Hh.
  destruct r as [doc|stop]; cbn; [|done]. rewrite written. cbn. by destruct (from_wire_error (to_string doc)).
Qed.

Lemma error_delivered kind message code status :
  status_typed status →
  delivered (Ok (error_document kind message code status)) = Err (Provider (default 0 status) message).
Proof.
  intros Hs. unfold delivered, from_wire_error.
  destruct (small_portable 2 (error_document kind message code status)) as [_ Ht];
    [unfold RECURSION_LIMIT; lia|by apply portable_error_document|].
  by rewrite (proj2 (Ht _ _ _) (read_error_document kind message code status Hs)).
Qed.

(** A document without a member [error] is delivered as it is. *)
Lemma document_delivered n m :
  (n ≤ RECURSION_LIMIT)%nat → portable n (object m) → m !! "error" = None →
  delivered (Ok (object m)) = Ok (to_string (object m)).
Proof.
  intros Hn Hp He. unfold delivered, from_wire_error.
  destruct (from_slice_none read_envelope (object m) (to_string (object m))) as [e ->]; [|by apply no_error_member|done].
  by eapply small_portable.
Qed.

Definition upstream_refusal (status : Z) (body : string) (error : LlmError) : Prop :=
  ∃ message, error = Provider status message ∧
    ∀ p, from_slice read_upstream_error body = Ok p → message = ue_message p.

Lemma refusal_delivered status body :
  0 ≤ status ≤ u16_max →
  ∃ error, delivered (Ok (provider_error_document decimal status body)) = Err error ∧ upstream_refusal status body error.
Proof.
  intros Hs. unfold provider_error_document. destruct (from_slice read_upstream_error body) as [p|e] eqn:Hp;
    rewrite error_delivered by done; eexists; (split; [done|]); eexists; (split; [done|]); intros p'; rewrite Hp; congruence.
Qed.

(** What a chat returns, given what was received from the provider. *)
Definition chat_answer (r : result (Z * string) Interruption) (res : result ChatResponse LlmError) : Prop :=
  match r with
  | Err (Http.Failed f) => res = Err (Provider 0 (hf_message f))
  | Err Expired => res = Err (ExtensionFailed (trap Stopped))
  | Ok (status, body) =>
      if is_success status then
        match from_slice read_completion body with
        | Err e => res = Err (Provider status ("upstream chat response is not a chat completion: " +:+ e))
        | Ok completion =>
            match response_of completion with
            | Some response => res = Ok response
            | None => ∃ e, res = Err (InvalidResponse e)
            end
        end
      else ∃ error, res = Err error ∧ upstream_refusal status body error
  end.

Lemma completion_delivered c :
  completion_typed c →
  delivered (Ok (completion_document c)) = Ok (to_string (completion_document c)) ∧
  match response_of c with
  | Some response => from_wire read_response (to_string (completion_document c)) = Ok response
  | None => ∃ e, from_wire read_response (to_string (completion_document c)) = Err (InvalidResponse e)
  end.
Proof.
  intros Hc. pose proof (portable_completion_document c Hc) as Hp. split.
  { apply (document_delivered 5); [unfold RECURSION_LIMIT; lia|done|]. rewrite lookup_with_some. by rewrite decide_False by done. }
  apply small_portable in Hp; [|unfold RECURSION_LIMIT; lia]. unfold from_wire.
  pose proof (read_completion_document c Hc) as Hr. destruct (response_of c) as [response|].
  - destruct Hp as [_ Ht]. by rewrite (proj2 (Ht _ _ _) Hr).
  - destruct (from_slice_none read_response _ _ Hp Hr) as [e ->]. by eexists.
Qed.

Lemma chat_answered r :
  (∀ status body, r = Ok (status, body) → 0 ≤ status ≤ u16_max) →
  chat_answer r (let? output := delivered (told (openai_to_chat decimal) r) in from_wire read_response output).
Proof.
  intros Hs. destruct r as [[status body]|[f|]]; cbn [told chat_answer].
  - specialize (Hs _ _ eq_refl). unfold openai_to_chat. destruct (is_success status) eqn:Hok; cbn [negb].
    + destruct (from_slice read_completion body) as [c|e] eqn:Hc; cbn [map_err result_bind].
      * apply from_slice_some in Hc as (v & Hv%read_completion_typed). destruct (completion_delivered c Hv) as [-> Hr]. cbn.
        destruct (response_of c); [by rewrite Hr|]. destruct Hr as [e ->]. by exists e.
      * by rewrite error_delivered.
    + destruct (refusal_delivered status body Hs) as (error & -> & He). cbn. by exists error.
  - by rewrite error_delivered.
  - done.
Qed.

Lemma ask_status s sent status body :
  (∀ sent m status headers body, deliver net sent m = Answered status headers body → 0 ≤ status ≤ u16_max) →
  (ask net timed allow_hosts s sent).2 = Ok (status, body) → 0 ≤ status ≤ u16_max.
Proof.
  intros Hs. unfold ask. destruct (message_of _ _) as [m|]; cbn; [|done]. unfold received. case_decide; [done|].
  destruct (deliver net sent m) as [|st hs chunks] eqn:Hd; [done|]. destruct (read_body _ _ _); cbn; [|done].
  intros [= <- _]. by eapply Hs.
Qed.

(** The HTTP request of a chat. *)
Definition chat_spec (settings : Settings) (fields : gmap string Value) : HttpRequestSpec :=
  mkSpec "POST" (base_url settings +:+ "/chat/completions") (auth_headers settings)
    (Some (to_string (object (<["stream" := boolean false]> fields)))).

Lemma chat_runs settings sent v fields :
  (∀ sent m status headers body, deliver net sent m = Answered status headers body → 0 ≤ status ≤ u16_max) →
  as_object v = Some fields → ¬ too_long (chat_spec settings fields) →
  let asked := ask net timed allow_hosts (chat_spec settings fields) sent in
  handler decimal (host_import net timed allow_hosts) CHAT_METHOD v (Some settings, sent) =
    ((Some settings, asked.1), told (openai_to_chat decimal) asked.2).
Proof.
  intros Hs Hv Hl. unfold handler. cbn [decide]. unfold guest_chat, with_settings. cbn.
  unfold chat_to_openai. rewrite Hv. by apply execute_spec_asks.
Qed.
End call.

(** ** Calls end to end *)

(** C13: A chat returns what the provider answered. On a node that runs the
    configured guest, a typed chat makes the guest send one HTTP request, its URL
    under the configured base, its body the caller's request with [stream] off. It
    returns the completion the provider answered, typed, when the answer is a
    success in the expected shape with known roles; otherwise it fails with the
    status of the answer and the provider's own message, or with status 0 and the
    host's message when the host refused the request or got no answer. *)
Theorem chat_end_to_end `{!Formats, !Json, !JsonLaws, !Reqwest, !RequestLaws, !HashIter, !MerkleShape, !Redb, !Hex, !ManagerTexts}
    net timed allow_hosts trap utf8_error decimal rpc targets id m loaded settings sent request fields :
  (∀ sent m status headers body, deliver net sent m = Answered status headers body → 0 ≤ status ≤ u16_max) →
  em_instances m !! id = Some loaded → em_world m = (Some settings, sent) →
  portable RECURSION_LIMIT (write_request request) → as_object (write_request request) = Some fields →
  ¬ too_long (chat_spec settings fields) →
  let asked := ask net timed allow_hosts (chat_spec settings fields) sent in
  ∃ answer, chat (node_invoke net timed allow_hosts trap utf8_error decimal rpc targets) id request m =
      (set_world (Some settings, asked.1) m, answer) ∧
    chat_answer trap asked.2 answer.
Proof.
  intros Hs Hl Hw Hp Hf Hlong asked. unfold chat, to_wire. destruct (encoded write_request request Hp) as (b & -> & Hb & _).
  pose proof (chat_runs net timed allow_hosts decimal settings sent _ fields Hs Hf Hlong) as Hrun.
  rewrite <- Hw in Hrun. unfold bind at 1, lift at 1. cbn [map_err]. unfold bind, lift.
  erewrite invoke_wire_local; [|done|done|done|exact Hrun].
  pose proof (chat_answered trap decimal asked.2 (λ status body, ask_status net timed allow_hosts _ _ status body Hs)) as Ha.
  fold asked. destruct (delivered _ _); cbn in *; by eexists.
Qed.

(** ** A concrete provider *)

#[local] Existing Instance toy_formats.
#[local] Existing Instance toy_json.
#[local] Existing Instance toy_redb.
#[local] Existing Instance gmap_hash_iter.
#[local] Existing Instance small_shape.

#[local] Instance plain_hex : Hex := {| hex_encode := λ b, b; hex_decode := λ s, Ok s |}.
#[local] Instance plain_texts : ManagerTexts := {| manager_text := λ _, "failed"; register_text := λ _, "rejected" |}.

(** URLs are their own hosts. *)
#[local] Instance toy_reqwest : Reqwest := {|
  request_from := from_slice read_http_request;
  Url := string; url_parse := λ s, Ok s; host_str := λ u, Some u;
  method_parse := λ s, Ok s; header_name := λ s, Ok s; header_value := λ s, Ok s;
|}.

#[local] Instance toy_request_laws : RequestLaws.
Proof. by split. Qed.

Definition a_completion : Completion :=
  mkCompletion "gpt-x" [mkCompletionChoice 0 (mkCompletionMessage "assistant" (Some "hello")) (Some "stop")]
    (Some (mkCompletionUsage 3 2 5)).

Definition toy_net : Internet := {|
  deliver := λ _ _, Answered 200 [] [Data (to_string (completion_document a_completion))];
  expires := λ _ _, None;
|}.

Definition toy_settings : Settings := mkSettings "sk-test" "http://mock/v1" None.
Definition toy_request : ChatRequest := mkRequest "gpt-x" [mkChat User "hi"] None (Some 64).

Definition configured_node : ExtensionManager (W := Guest (Outer := list HttpMessage)) (I := unit) :=
  mkManager {["openai" := mkLoaded 1 "1.0.0" tt]} (Some toy_settings, []) (mkStore (mkToy ∅ []) (mkFs ∅ ∅ []))
    (Service.new MerkleDiff.toy_blake3 "me" default_config (Register.new "me" "addr" 1 0)) false.

Definition toy_fields : gmap string Value := default ∅ (as_object (write_request toy_request)).

Definition alone (_ : string) (_ : ExtensionInvokeRequest)
    : M (ExtensionManager (W := Guest (Outer := list HttpMessage)) (I := unit)) ClientError InvokeOutcome :=
  raise (NodeProtocol.Unavailable "alone").

Definition chatted :=
  chat (node_invoke toy_net false (Some ["http://mock/v1/chat/completions"]) (λ _, Engine "stopped") (λ _, "") (λ _, "")
          alone None) "openai" toy_request configured_node.

Lemma toy_status sent m status headers body : deliver toy_net sent m = Answered status headers body → 0 ≤ status ≤ u16_max.
Proof. cbn. intros [= <- _ _]. unfold u16_max. lia. Qed.

Lemma toy_short : ¬ too_long (chat_spec toy_settings toy_fields).
Proof. unfold too_long. vm_compute. discriminate. Qed.

Lemma toy_request_portable : portable RECURSION_LIMIT (write_request toy_request).
Proof. exact I. Qed.

Lemma toy_body : received None (deliver toy_net [] (mkMessage "" "" [] None)) = Ok (200, to_string (completion_document a_completion)).
Proof. vm_compute. reflexivity. Qed.

Lemma toy_asked :
  ask toy_net false (Some ["http://mock/v1/chat/completions"]) (chat_spec toy_settings toy_fields) [] =
    ([mkMessage "POST" "http://mock/v1/chat/completions"
        [("authorization", "Bearer sk-test"); ("content-type", "application/json")]
        (sp_body (chat_spec toy_settings toy_fields))],
     Ok (200, to_string (completion_document a_completion))).
Proof.
  unfold ask, message_of. rewrite request_of_spec.
  replace (collect _) with (Ok (E := Interruption) [("authorization", "Bearer sk-test"); ("content-type", "application/json")])
    by (vm_compute; reflexivity).
  cbn [result_bind hr_url hr_method hr_body negb]. by rewrite <- toy_body.
Qed.

Lemma chat_end_to_end_witness :
  chatted.2 = Ok (mkResponse "gpt-x" [mkChoice 0 (mkChat Assistant "hello") "stop"] (Some (mkUsage 3 2 5))) ∧
  Forall (λ m, hm_url m = "http://mock/v1/chat/completions") (em_world chatted.1).2.
Proof.
  destruct (chat_end_to_end toy_net false (Some ["http://mock/v1/chat/completions"]) (λ _, Engine "stopped") (λ _, "") (λ _, "")
    alone None "openai" configured_node (mkLoaded 1 "1.0.0" tt) toy_settings [] toy_request toy_fields toy_status eq_refl eq_refl
    toy_request_portable eq_refl toy_short) as (answer & Hc & Ha).
  unfold chatted. rewrite Hc. rewrite toy_asked in Ha |- *. cbn [fst snd em_world set_world].
  split; [exact Ha|]. repeat constructor.
Defined.

(** ** Where the provider's key goes *)

Section key.
Context `{!Formats, !Json, !JsonLaws} (decimal : Z → string).
Context {Outer : Type} (http : bytes → Outer → Outer * option bytes).

(** The import, with the log of the requests it was handed. *)
Definition recording (request : bytes) (s : list bytes * Outer) : (list bytes * Outer) * option bytes :=
  let '(o, response) := http request s.2 in (((s.1 ++ [request])%list, o), response).

Abbreviation RecordedGuest := (Guest (Outer := list bytes * Outer)).

(** The requests the guest may make with the settings [s], each with the caller's
    part of it. *)
Inductive asks_for (s : Settings) : HttpRequestSpec → Prop :=
| Chats payload spec : chat_to_openai payload s = Ok spec → asks_for s spec
| Embeds payload spec : embed_to_openai payload s = Ok spec → asks_for s spec
| Lists : asks_for s (models_to_openai s).

(** A call leaves the settings, unless it configures, and makes at most one
    request, with the settings of the moment. *)
Definition recorded_step (method : string) (payload : Value) (g g' : RecordedGuest) : Prop :=
  (g'.1 = g.1 ∨ ∃ s, method = "configure" ∧ from_json payload = Ok s ∧ g'.1 = Some s) ∧
  (g'.2.1 = g.2.1 ∨ ∃ s spec, g.1 = Some s ∧ asks_for s spec ∧ g'.2.1 = (g.2.1 ++ [to_string (to_json spec)])%list).

Lemma execute_spec_recorded spec to_wire s o method payload :
  asks_for s spec →
  recorded_step method payload (Some s, o) (execute_spec recording spec to_wire (Some s, o)).1.
Proof.
  intros Hs. unfold execute_spec, bind, host_http. rewrite written. case_decide; cbn; [by split; left|].
  unfold recording. destruct (http _ _) as [o' [body|]]; cbn; (split; [by left|]); right; by exists s, spec.
Qed.

Lemma handler_recorded method payload g :
  recorded_step method payload g (handler decimal recording method payload g).1.
Proof.
  destruct g as [[s|] o]; unfold handler; repeat case_decide; try (by split; left); subst.
  - unfold configure. destruct (from_json payload) as [s'|] eqn:Hf; cbn; [|by split; left].
    split; [right; by exists s'|by left].
  - unfold guest_chat, with_settings. cbn. destruct (chat_to_openai payload s) as [spec|] eqn:Hc; [|by split; left].
    apply execute_spec_recorded. by eapply Chats.
  - unfold guest_embed, with_settings. cbn. destruct (embed_to_openai payload s) as [spec|] eqn:Hc; [|by split; left].
    apply execute_spec_recorded. by eapply Embeds.
  - unfold guest_models, with_settings. cbn. apply execute_spec_recorded, Lists.
  - unfold configure. destruct (from_json payload) as [s'|] eqn:Hf; cbn; [|by split; left].
    split; [right; by exists s'|by left].
Qed.

Definition serve_calls (calls : list (string * Value)) (g : RecordedGuest) : RecordedGuest :=
  foldl (λ g c, (handler decimal recording c.1 c.2 g).1) g calls.

(** Settings the guest was given, at the start or by a call. *)
Definition given (cell : option Settings) (calls : list (string * Value)) (s : Settings) : Prop :=
  cell = Some s ∨ ∃ payload, ("configure", payload) ∈ calls ∧ from_json payload = Ok s.

Lemma given_before cell cell' method payload calls s :
  (cell' = cell ∨ ∃ s, method = "configure" ∧ from_json payload = Ok s ∧ cell' = Some s) →
  given cell' calls s → given cell ((method, payload) :: calls) s.
Proof.
  intros Hc [Hg|(p & Hp & Hf)]; [|right; exists p; split; [by right|done]].
  destruct Hc as [->|(s' & -> & Hf & ->)]; [by left|]. injection Hg as <-. right. exists payload. split; [left|done].
Qed.

Lemma serve_calls_recorded calls g :
  ∃ requests, (serve_calls calls g).2.1 = (g.2.1 ++ requests)%list ∧
    Forall (λ b, ∃ s spec, given g.1 calls s ∧ asks_for s spec ∧ b = to_string (to_json spec)) requests.
Proof.
  revert g. induction calls as [|[method payload] calls IH]; intros g; cbn; [exists []; by rewrite app_nil_r|].
  destruct (handler_recorded method payload g) as [Hc Hr].
  set (g' := (handler decimal recording method payload g).1) in *. destruct (IH g') as (requests & Hq & Hall).
  assert (Forall (λ b, ∃ s spec, given g.1 ((method, payload) :: calls) s ∧ asks_for s spec ∧ b = to_string (to_json spec)) requests).
  { eapply Forall_impl; [exact Hall|]. intros b (s & spec & Hg & Hs & ->). exists s, spec. split; [|done].
    by eapply given_before. }
  change (foldl _ _ calls) with (serve_calls calls g').
  destruct Hr as [Hr|(s & spec & Hs & Ha & Hr)]; rewrite Hq, Hr; [by exists requests|].
  exists (to_string (to_json spec) :: requests). rewrite <- app_assoc. split; [done|]. constructor; [|done].
  exists s, spec. split; [by left|done].
Qed.

(** The key leaves in one place: the [authorization] header of a request under
    the base URL. *)
Definition keyed (s : Settings) (spec : HttpRequestSpec) : Prop :=
  (∃ path, path ∈ ["/chat/completions"; "/embeddings"; "/models"] ∧ sp_url spec = base_url s +:+ path) ∧
  sp_headers spec !! "authorization" = Some ("Bearer " +:+ api_key s) ∧
  ∀ key, asks_for (mkSettings key (base_url s) (organization s))
    (mkSpec (sp_method spec) (sp_url spec) (<["authorization" := "Bearer " +:+ key]> (sp_headers spec)) (sp_body spec)).

Lemma auth_headers_key s key :
  <["authorization" := "Bearer " +:+ key]> (auth_headers s) = auth_headers (mkSettings key (base_url s) (organization s)).
Proof.
  unfold auth_headers. cbn. destruct (organization s); [|by rewrite insert_insert_eq].
  by rewrite (insert_insert_ne _ "authorization" "openai-organization"), insert_insert_eq.
Qed.

Lemma auth_headers_authorization s : auth_headers s !! "authorization" = Some ("Bearer " +:+ api_key s).
Proof. unfold auth_headers. destruct (organization s); [rewrite lookup_insert_ne by done|]; by rewrite lookup_insert_eq. Qed.

Lemma asks_for_keyed s spec : asks_for s spec → keyed s spec.
Proof.
  intros [payload spec' Hc|payload spec' Hc|].
  - unfold chat_to_openai in Hc. destruct (as_object payload) eqn:Ho; [|done]. injection Hc as <-.
    split_and!; cbn; [eexists; split; [|done]; set_solver|apply auth_headers_authorization|].
    intros key. rewrite auth_headers_key. apply (Chats _ payload). unfold chat_to_openai. by rewrite Ho.
  - unfold embed_to_openai in Hc. destruct (as_object payload) eqn:Ho; [|done]. injection Hc as <-.
    split_and!; cbn; [eexists; split; [|done]; set_solver|apply auth_headers_authorization|].
    intros key. rewrite auth_headers_key. apply (Embeds _ payload). unfold embed_to_openai. by rewrite Ho.
  - split_and!; cbn; [eexists; split; [|done]; set_solver|apply auth_headers_authorization|].
    intros key. rewrite auth_headers_key. apply (Lists (mkSettings key (base_url s) (organization s))).
Qed.
End key.


(** ** The provider of the cluster *)

(** A stored extension that declares the contract. *)
Definition provides_llm `{!Formats} (r : ExtensionRecord) : Prop :=
  ∃ m, from_map (ex_manifest r) = Ok m ∧ PROVIDES_LLM ∈ provides m.

Lemma llm_provider_Some `{!Formats} r i : llm_provider r = Some i ↔ provides_llm r ∧ ex_id r = i.
Proof.
  unfold llm_provider, provides_llm. destruct (from_map (ex_manifest r)) as [m|e]; [|naive_solver].
  destruct (existsb _ (provides m)) eqn:He; split.
  - intros [= <-]. split; [|done]. exists m. split; [done|]. apply existsb_exists in He as (p & Hp & Hd).
    apply bool_decide_eq_true in Hd as ->. by apply list_elem_of_In.
  - by intros [_ <-].
  - done.
  - intros [(m' & [= <-] & Hp) _]. assert (existsb (λ p, bool_decide (p = PROVIDES_LLM)) (provides m) = true) as Hx; [|by rewrite He in Hx].
    apply existsb_exists. exists PROVIDES_LLM. split; [by apply list_elem_of_In|]. by apply bool_decide_eq_true_2.
Qed.

(** The default provider is the only one. When the records could be read, the
    router resolves to an extension exactly when one stored extension with a valid
    manifest declares the contract, and to that one; with none, or with more than
    one, it says that no provider is available. It changes nothing. *)
Theorem default_provider_unique `{!Formats, !Redb, !Postcard ExtensionRecord} storage_text s s' records :
  ext_list s = (s', Ok records) → NoDup (ex_id <$> records) →
  match default_provider storage_text s with
  | (s1, Ok i) => s1 = s' ∧ ∃ r, r ∈ records ∧ provides_llm r ∧ ex_id r = i ∧ ∀ r', r' ∈ records → provides_llm r' → r' = r
  | (s1, Err e) =>
      s1 = s' ∧ (∃ message, e = Llm.Unavailable message) ∧
      ((∀ r, r ∈ records → ¬ provides_llm r) ∨
       ∃ r r', r ∈ records ∧ r' ∈ records ∧ provides_llm r ∧ provides_llm r' ∧ r ≠ r')
  end.
Proof.
  intros Hl Hd. unfold default_provider, bind, with_err. rewrite Hl. cbn [map_err].
  pose proof (sort_by_key_perm id (omap llm_provider records)) as Hp.
  assert (∀ i, i ∈ sort_by_key id (omap llm_provider records) ↔ ∃ r, r ∈ records ∧ provides_llm r ∧ ex_id r = i) as Hin.
  { intros i. rewrite Hp, list_elem_of_omap. setoid_rewrite llm_provider_Some. naive_solver. }
  assert (NoDup (sort_by_key id (omap llm_provider records))) as Hn.
  { rewrite Hp. clear -Hd. induction records as [|r records IH]; cbn in *; [constructor|]. apply NoDup_cons in Hd as [Hr Hd].
    destruct (llm_provider r) as [i|] eqn:Hi; [|by apply IH]. apply NoDup_cons. split; [|by apply IH].
    apply llm_provider_Some in Hi as [_ <-]. rewrite list_elem_of_omap. intros (r' & Hr' & [_ He]%llm_provider_Some).
    apply Hr. rewrite <- He. by apply list_elem_of_fmap_2. }
  destruct (sort_by_key id (omap llm_provider records)) as [|i [|i' l]]; cbn.
  - split_and!; [done|by eexists|]. left. intros r Hr Hllm. assert (ex_id r ∈ []) as Hx; [|by inversion Hx]. apply Hin. by exists r.
  - split; [done|]. destruct (proj1 (Hin i) (list_elem_of_here _ _)) as (r & Hr & Hllm & Hi). exists r. split_and!; try done.
    intros r' Hr' Hllm'. assert (ex_id r' ∈ [i]) as Hx%list_elem_of_singleton by (apply Hin; by exists r').
    apply (NoDup_fmap_same ex_id records); congruence.
  - split_and!; [done|by eexists|]. right.
    destruct (proj1 (Hin i) (list_elem_of_here _ _)) as (r & Hr & Hllm & Hi).
    destruct (proj1 (Hin i') (list_elem_of_further _ _ _ (list_elem_of_here _ _))) as (r' & Hr' & Hllm' & Hi').
    exists r, r'. split_and!; try done. intros ->. apply NoDup_cons in Hn as [Hn _]. apply Hn. rewrite <- Hi, Hi'. by left.
Qed.

(** ** The shims against the host *)

Definition is_i32 (n : Z) : Prop := - 2 ^ 31 ≤ n ≤ i32_max.

Lemma as_i32_u32 n : is_i32 n → as_i32 (as_u32 n) = n.
Proof.
  unfold is_i32, as_i32, as_u32, i32_max. intros Hn. rewrite Z.mod_mod by lia.
  destruct (decide (0 ≤ n)) as [Hp|Hp].
  - rewrite Z.mod_small by lia. case_decide; [done|lia].
  - replace (n mod 2 ^ 32) with (n + 2 ^ 32).
    + case_decide; lia.
    + rewrite <- (Z.mod_small (n + 2 ^ 32) (2 ^ 32)) by lia. replace (n + 2 ^ 32) with (n + 1 * 2 ^ 32) by lia.
      by rewrite Z.mod_add by lia.
Qed.

Lemma pack_len ptr len : shim_pack ptr len = pack ptr (as_u32 len).
Proof. unfold shim_pack, pack, as_u32. by rewrite (Z.mod_mod len) by lia. Qed.

Lemma host_reads_guest ptr len : unpack (shim_pack ptr len) = (as_u32 ptr, as_u32 len).
Proof. rewrite pack_len. apply unpack_pack. unfold as_u32. by apply Z.mod_pos_bound. Qed.

Lemma shim_unpack_host packed : shim_unpack packed = (as_i32 (unpack packed).1, as_i32 (unpack packed).2).
Proof. done. Qed.

(** Host and guest agree on packed buffers, in both directions: an address and a
    length come back as they were packed, up to the reading of an [i32] above two
    gigabytes as the unsigned offset it stands for. *)
Theorem abi_agrees ptr len :
  is_i32 ptr → is_i32 len →
  shim_unpack (shim_pack ptr len) = (ptr, len) ∧ shim_unpack (pack ptr len) = (ptr, len) ∧
  unpack (shim_pack ptr len) = (as_u32 ptr, as_u32 len).
Proof.
  intros Hp Hl. assert (pack ptr len = shim_pack ptr len) as -> by done.
  rewrite shim_unpack_host, host_reads_guest. cbn. rewrite !as_i32_u32 by done. done.
Qed.

(** ** Concrete calls *)

Definition settings_document : Value := object (<["api_key" := text "sk-test"]> {["base_url" := text "http://mock/v1/"]}).
Definition toy_calls : list (string * Value) := [("models", null); ("configure", settings_document); ("models", null)].
Definition deaf (_ : bytes) (o : unit) : unit * option bytes := (o, None).


#[local] Existing Instance toy_redb_laws.
#[local] Existing Instance toy_postcard.
#[local] Existing Instance ExtensionTheorems.ex_countable.
#[local] Existing Instance ExtensionTheorems.raw_blake3.

(** A store with one provider. *)
Definition llm_manifest : gmap string string :=
  match to_map (mkManifest ("1.0.0" : string) [] ["llm"] [] ∅ "{}") with
  | Ok m => m
  | Err _ => ∅
  end.

Definition llm_package : ExtensionRegistration :=
  mkRegistration "llm-1" "a provider" 1 "wasm" "" "code" llm_manifest ∅.

Definition llm_store : Store Database :=
  em_storage (register_extension (W := list string) (I := string) "/data" llm_package 5 ExtensionTheorems.fresh_node).1.

Definition llm_record : ExtensionRecord := registered llm_package Manifest.Wasm "code" "me" None 5.

Lemma llm_listed : (ext_list llm_store).2 = Ok [llm_record].
Proof. vm_compute. reflexivity. Qed.

Lemma llm_stored : ext_list llm_store = ((ext_list llm_store).1, Ok [llm_record]).
Proof. exact (ExtensionTheorems.pair_eta _ _ llm_listed). Qed.

Lemma llm_resolved : is_ok (default_provider (λ _, "") llm_store).2 = true.
Proof. vm_compute. reflexivity. Qed.

Lemma default_provider_unique_witness :
  match default_provider (λ _, "") llm_store with
  | (_, Ok i) => ∃ r, r ∈ [llm_record] ∧ provides_llm r ∧ ex_id r = i
  | (_, Err _) => False
  end.
Proof.
  pose proof (default_provider_unique (λ _, "") llm_store _ [llm_record] llm_stored (NoDup_singleton (ex_id llm_record))) as Hd.
  pose proof llm_resolved as Hok. destruct (default_provider (λ _, "") llm_store) as [s1 [i|e]]; [|discriminate Hok].
  destruct Hd as (_ & r & Hr & Hp & Hi & _). exists r. exact (conj Hr (conj Hp Hi)).
Defined.

Lemma abi_agrees_witness : is_i32 65536 ∧ is_i32 33 ∧ shim_unpack (shim_pack 65536 33) = (65536, 33).
Proof.
  assert (is_i32 65536 ∧ is_i32 33) as [Hp Hl] by (unfold is_i32, i32_max; lia).
  split; [exact Hp|]. split; [exact Hl|]. exact (proj1 (abi_agrees 65536 33 Hp Hl)).
Defined.
